(* ===== verification/_CoqProject ===== *)
-Q . S2P
Prelude.v
OrdSeq.v
AvlTree.v
Memmgr.v
Vma.v
VmaTree.v
VmaInv.v
VmaOps.v
VmaAlloc.v
VmaChange.v
VmaSpec.v
VmaQuery.v
VmaCache.v
VmaExamples.v
FsLock.v
FsLockList.v
FsLockSpec.v
FsLockOps.v
FsLockExamples.v
IpcPid.v
IpcPidSpec.v
IdService.v
Pid.v
PidSpec.v
PidSystem.v
Sync.v
SyncClient.v
SyncServer.v
SyncServerSpec.v
SyncSystem.v
SyncInv.v
SyncClientSpec.v
SyncServeSpec.v
SyncSafe.v
SyncDeadlock.v
SyncExamples.v
PathUtils.v
Futex.v
FutexOp.v
FutexInv.v
FutexSteps.v
FutexWait.v
FutexWake.v
FutexLoop.v
FutexSafe.v
FutexCalls.v
FutexTwo.v
FutexApi.v
FutexSystem.v
FutexProps.v
FutexExamples.v
LruCache.v
PfLayout.v
PfFormat.v
PfSort.v
ProtFiles.v
PfInv.v
PfBad.v
PfNodes.v
PfFlush.v
PfCommit.v
PfContents.v
PfMark.v
PfFetch.v
PfSpec.v
PfFile.v
PfApi.v
PfOpen.v
PfProps.v
PfExamples.v
