(* ===== verification/Prelude.v ===== *)
(** * Gramine: a verification library

    Gramine runs unmodified Linux programs on top of a small host interface (the PAL), inside an
    SGX enclave or without one.  The LibOS implements the system calls; processes of one program
    talk to each other over IPC, and the first of them, the leader, keeps what they share.  This
    library models the parts of the LibOS and of its common code that keep state of their own, as
    functions on that state, and proves what they promise.

    ** Conventions

    C code that may fail an assertion, reach [BUG()] or use a dangling pointer is a program of the
    monad [SM]: a function from the state to a result and a new state, or [None].  [wp m Q s] says
    that [m] returns from [s] with [Q]; it is never enough that [m] would be right if it returned.
    Where the code can abort, [wp_or m Q R s] says that [m] returns with [Q] unless [R] holds, and [R]
    describes the states from which it aborts.
    Integers are [Z]; where C can wrap around, [u64] and [u32] are written out, and theorems state
    the bounds that exclude it.  Calls of code outside the sources (the PAL, the host, the
    cryptography, memory allocation) are arguments of the definitions.  Code between taking and
    releasing a lock is one step; a function that waits is cut where it waits.  Memory is sequentially
    consistent.

    ** Parts, files and theorems

    - Ordered containers.  [OrdSeq] is the contract that [common/include/avl_tree.h] documents, on
      lists; [AvlTree] models [common/src/avl_tree.c] with cursors for the parent pointers:
      insertion and deletion keep the balance and do what the contract says, searches return the
      bound that is asked for, the height is logarithmic.  [Vma], [IpcPid], [Pid] and [Futex] use the contract.
    - [Memmgr]: the allocator of fixed-size objects, [common/include/memmgr.h].  Objects in use are
      never handed out again, whatever other threads do between the two critical sections of a call that
      enlarges the manager; two threads that enlarge it together can abort.
    - Memory areas, [libos/src/bookkeep/libos_vma.c].  [Vma] has the operations; [VmaTree] the facts
      on sequences of areas; [VmaInv] the ownership of the area structures; [VmaOps], [VmaAlloc],
      [VmaChange] the specifications; [VmaSpec] reads them as updates of a map from addresses to
      attributes (mapping, unmapping, protection, search for free ranges, temporary areas), with the
      reasons for every error, and with the one case in which a change of protection aborts;
      [VmaQuery] has the check of user buffers and the snapshots; [VmaCache] the tagged pointers of
      the thread-local cache; [VmaExamples] concrete states.
    - File locks, [libos/src/fs/libos_fs_lock.c].  [FsLock] has POSIX and BSD locks with their queue
      of requests; [FsLockList] what setting a lock does to bytes and files; [FsLockSpec] and
      [FsLockOps] the operations, in states in which allocations fail and in which requests wait for
      the second half of an IPC request; [FsLockExamples] reachable states: locks of different owners are
      compatible and nobody waits who could be served.  An unlock aborts if it comes to a request that is
      not complete.
    - Process and thread IDs.  [IpcPid], [IpcPidSpec]: the owners of ranges in the leader
      ([libos/src/ipc/libos_ipc_pid.c]).  [Pid], [PidSpec]: the IDs of a process
      ([libos/src/bookkeep/libos_pid.c]), against the class [IdService], which [IpcPid] implements
      locally and over IPC.  [PidSystem]: all processes with messages on their way; no ID is in use
      twice.
    - The sync engine, [libos/src/sync].  [Sync], [SyncClient], [SyncServer] model messages, client
      and server; [SyncSystem] is the step relation with channels; [SyncInv], [SyncClientSpec],
      [SyncServerSpec], [SyncServeSpec] prove its invariant; [SyncSafe] has exclusion, latest data,
      absence of aborts and that nobody waits who can be served; [SyncDeadlock]: two upgrades of one
      handle wait for each other in every run; [SyncExamples] runs.
    - [PathUtils]: [common/src/path_utils.c].  The normalisation in place stays inside its buffer, has no
      failing assertion and computes the normal form that a definition on lists of names gives.
    - Futexes, [libos/src/sys/libos_futex.c], with the wake queue of [libos/include/libos_thread.h] and the list
      macros of [common/include/list.h].  [Futex]: all functions as programs of a monad whose steps are lock
      operations, the code between two of them, waits and questions to the host.  [FutexInv]: a ghost state with
      a token for each reference, the locks each thread holds and what it still has to take off the tree, and the
      invariant; [FutexSteps], [FutexWait], [FutexWake], [FutexLoop]: the pieces of code preserve it; [FutexSafe]:
      the predicate [safe] on programs, which also demands that locks are taken in ascending order, and its
      rules; [FutexCalls], [FutexTwo], [FutexApi]: every function is safe.  [FutexSystem]: any number of threads
      that enter calls at any time, with arbitrary changes of the user's memory.  [FutexProps]: in all reachable
      states no failure, no deadlock, no endless loop, no lost wake-up and no leak; which waiters are woken and
      moved, also by a requeue to the same address, which goes around the list.  [FutexOp]: the operation of
      [futex_wake_op].  [FutexExamples]: runs.
    - Protected (encrypted) files, [common/src/protected_files].  [LruCache]: the cache, which refines
      a list ordered by last use with a position that a walk has reached.  [PfLayout], [PfFormat], [PfSort]: node numbers, the bytes of the
      metadata node, the quicksort of the nodes.  [ProtFiles]: all of [protected_files.c], with a heap of
      nodes and the callbacks as a class.  [PfInv] states what the code relies on ([callbacks_ok]) and the
      invariant of an open file: a tree of keys and MACs that seals what the host has, except for the nodes
      marked as changed.  The proofs are made once for several settings: an honest host (nothing fails and
      every call returns the right result); a host that may do anything, as long as nothing has failed
      (every call returns, and its result is right or shows a failure); and such a host after a failure
      (what is returned is right, but a later call may run into a node whose parent is gone).  [PfBad]: errors stick and are reported.  [PfNodes], [PfMark], [PfFetch]: loading,
      changing and evicting nodes.  [PfFlush], [PfCommit]: encrypting and writing.  [PfContents], [PfSpec],
      [PfFile], [PfApi], [PfOpen]: the abstract file of bytes and its refinement by every function of the
      API, by closing and by opening.  [PfProps]: sessions with both kinds of host; [PfExamples]: hosts that
      satisfy the assumptions, and two runs that go wrong after failures of the host: one that uses a freed
      node and one that loses data.

    ** Fuel

    Loops without a structural argument carry fuel, and running out of it is [None], so every theorem
    on a result shows that the fuel suffices.  Loops over a sequence get its length.  [alloc_vma] calls
    itself at most once.  The copy of the areas ([dump_all_vmas]) repeats at most twice.  The way from a node
    of a protected file to its root has at most [DEPTH] = 14 steps, since node numbers stay below 2^51 and each
    step divides by 32.  Reading and writing [n] bytes take at most [n / 4096 + 2] rounds.  The bounds of the
    cache and of the sort are the number of their elements.  File sizes are bounded by 2^62.  The loop over the
    waiters of a futex gets their number, and in [requeue_waiters] also the number of waiters that may be moved,
    since it goes around the list when both addresses are the same.  The normalisation of a path has at most one
    round per character.  The programs of the futexes need no fuel: they are finite trees.

    ** Not modelled

    Code that only passes calls on to the PAL or the host (file systems over the host, sockets, PAL
    back ends), that formats text for the pseudo file systems, that runs at the level of machine code
    (entry and exit, signals, loading of programs, SGX instructions), that serialises raw memory
    (checkpoints), and the tools and tests.  Reference counts are modelled where a structure is freed by them
    ([Vma], [Futex]).  Failing allocations are modelled for the file locks, the IDs and the futexes; elsewhere they are assumed to
    succeed or end the process.  The debug-only code of protected files is left out.  The compare-and-exchange loop in
    [handle_futex_death] is modelled by its last round, and signals only by the answer of [thread_wait].
    Handles, the dentry cache and the in-memory file systems are reached through tables of function pointers
    that lead to the code above, and are left out with it. *)

From stdpp Require Export base list numbers gmap sets option strings.
From Stdlib Require Export ZArith Lia Sorted.

#[global] Open Scope Z_scope.

(** ** Machine integers *)

(** [uintptr_t], [size_t] and [uint64_t] are 64 bits wide on the only
    supported architecture; [IDTYPE] is [uint32_t]. *)
Definition u64_mod : Z := 2 ^ 64.
Definition u32_mod : Z := 2 ^ 32.

Definition u64 (x : Z) : Z := x mod u64_mod.
Definition u32 (x : Z) : Z := x mod u32_mod.

Definition UINTPTR_MAX : Z := u64_mod - 1.

Lemma u64_small x : 0 <= x < u64_mod -> u64 x = x.
Proof. intros; unfold u64. by apply Z.mod_small. Qed.

Lemma u64_range x : 0 <= u64 x < u64_mod.
Proof. unfold u64. apply Z.mod_pos_bound. done. Qed.

Lemma u32_small x : 0 <= x < u32_mod -> u32 x = x.
Proof. intros; unfold u32. by apply Z.mod_small. Qed.

Lemma u32_range x : 0 <= u32 x < u32_mod.
Proof. unfold u32. apply Z.mod_pos_bound. done. Qed.

(** [ALIGN_DOWN_POW2] and its companions ([common/include/api.h]); the
    alignment is a power of two. *)
Definition ALIGN_DOWN_POW2 (val alignment : Z) : Z := val - Z.land val (alignment - 1).
Definition ALIGN_UP_POW2 (val alignment : Z) : Z := ALIGN_DOWN_POW2 (val + alignment - 1) alignment.
Definition IS_ALIGNED_POW2 (val alignment : Z) : bool := Z.land val (alignment - 1) =? 0.

Lemma land_pow2_mod v k : 0 <= k -> Z.land v (2 ^ k - 1) = v mod 2 ^ k.
Proof. intros. rewrite <- Z.land_ones by done. by rewrite Z.ones_equiv, Z.sub_1_r. Qed.

Lemma ALIGN_DOWN_POW2_eq v k : 0 <= k -> ALIGN_DOWN_POW2 v (2 ^ k) = 2 ^ k * (v / 2 ^ k).
Proof.
  intros. unfold ALIGN_DOWN_POW2. rewrite land_pow2_mod by done.
  pose proof (Z.pow_pos_nonneg 2 k). rewrite (Z.div_mod v (2 ^ k)) at 1 by lia. lia.
Qed.

Lemma IS_ALIGNED_POW2_iff v k : 0 <= k -> IS_ALIGNED_POW2 v (2 ^ k) = true <-> (2 ^ k | v).
Proof.
  intros. unfold IS_ALIGNED_POW2. rewrite land_pow2_mod, Z.eqb_eq by done.
  pose proof (Z.pow_pos_nonneg 2 k). apply Z.mod_divide. lia.
Qed.

(** [alignment] is a power of two that a 31-bit number can hold. *)
Definition pow2_align (alignment : Z) : Prop := exists k, 0 <= k <= 31 /\ alignment = 2 ^ k.

Section aligned.
Context (alignment : Z) (Hpow : pow2_align alignment).
Abbreviation aligned x := (IS_ALIGNED_POW2 x alignment = true).

Lemma aligned_add x y : aligned x -> aligned y -> aligned (x + y).
Proof. destruct Hpow as (k & ? & ->). rewrite !IS_ALIGNED_POW2_iff by lia. apply Z.divide_add_r. Qed.

Lemma aligned_sub x y : aligned x -> aligned y -> aligned (x - y).
Proof. destruct Hpow as (k & ? & ->). rewrite !IS_ALIGNED_POW2_iff by lia. apply Z.divide_sub_r. Qed.

Lemma aligned_2G : aligned (Z.shiftl 1 31).
Proof.
  destruct Hpow as (k & ? & ->). rewrite IS_ALIGNED_POW2_iff, Z.shiftl_mul_pow2 by lia.
  exists (2 ^ (31 - k)). rewrite <- Z.pow_add_r by lia. rewrite Z.mul_1_l. f_equal. lia.
Qed.

Lemma aligned_min x y : aligned x -> aligned y -> aligned (Z.min x y).
Proof. intros. destruct (Z.min_spec x y) as [[_ ->]|[_ ->]]; done. Qed.

Lemma aligned_max x y : aligned x -> aligned y -> aligned (Z.max x y).
Proof. intros. destruct (Z.max_spec x y) as [[_ ->]|[_ ->]]; done. Qed.

Lemma aligned_align_up x : aligned (ALIGN_UP_POW2 x alignment).
Proof.
  destruct Hpow as (k & ? & ->). rewrite IS_ALIGNED_POW2_iff by lia. unfold ALIGN_UP_POW2.
  rewrite ALIGN_DOWN_POW2_eq by lia. by exists ((x + 2 ^ k - 1) / 2 ^ k); rewrite Z.mul_comm.
Qed.
End aligned.

Lemma ALIGN_UP_POW2_bounds v k :
  0 <= k -> v <= ALIGN_UP_POW2 v (2 ^ k) < v + 2 ^ k.
Proof.
  intros. unfold ALIGN_UP_POW2. rewrite ALIGN_DOWN_POW2_eq by done.
  pose proof (Z.pow_pos_nonneg 2 k ltac:(lia) ltac:(lia)) as Hp.
  pose proof (Z.div_mod (v + 2 ^ k - 1) (2 ^ k) ltac:(lia)).
  pose proof (Z.mod_pos_bound (v + 2 ^ k - 1) (2 ^ k) Hp). lia.
Qed.

(** ** Flag words *)

(** [x & mask] used as a condition. *)
Definition has (x mask : Z) : bool := negb (Z.land x mask =? 0).

(** ** Error codes of the Linux ABI that the modelled code returns. *)
Definition EPERM : Z := 1.
Definition ENOENT : Z := 2.
Definition EINTR : Z := 4.
Definition EAGAIN : Z := 11.
Definition ENOMEM : Z := 12.
Definition EACCES : Z := 13.
Definition EEXIST : Z := 17.
Definition EINVAL : Z := 22.
Definition ENOSYS : Z := 38.

(** ** Automation *)

(** Turns the boolean tests of the code into propositions. *)
Ltac breflect :=
  repeat match goal with
  | H : (_ && _)%bool = true |- _ => apply andb_true_iff in H; destruct H
  | H : (_ || _)%bool = false |- _ => apply orb_false_iff in H; destruct H
  | H : negb _ = true |- _ => apply negb_true_iff in H
  | H : negb _ = false |- _ => apply negb_false_iff in H
  | H : (_ <? _) = true |- _ => apply Z.ltb_lt in H
  | H : (_ <? _) = false |- _ => apply Z.ltb_ge in H
  | H : (_ <=? _) = true |- _ => apply Z.leb_le in H
  | H : (_ <=? _) = false |- _ => apply Z.leb_gt in H
  | H : (_ =? _) = true |- _ => apply Z.eqb_eq in H
  | H : (_ =? _) = false |- _ => apply Z.eqb_neq in H
  end.

(** Case analysis on the test of an [if] whose branches are stuck. *)
Ltac dif :=
  match goal with
  | |- context [if ?b then _ else _] =>
      match type of b with bool => destruct b eqn:?; breflect end
  end.

Ltac dif_in H :=
  match type of H with
  | context [if ?b then _ else _] =>
      match type of b with bool => destruct b eqn:?; breflect end
  end.

(** Membership in a list built from parts. *)
Ltac in_list := rewrite ?elem_of_app, ?elem_of_cons; tauto.

Create HintDb gramine discriminated.

(** ** Lists *)

Section lists.
Context {A : Type} (P : A -> Prop) `{forall x, Decision (P x)}.

Lemma list_filter_all (l : list A) : Forall P l -> filter P l = l.
Proof. induction 1 as [|x l Hx _ IH]; [done|]. rewrite filter_cons_True by done. by f_equal. Qed.

Lemma list_filter_none (l : list A) : Forall (fun x => ~ P x) l -> filter P l = [].
Proof. induction 1 as [|x l Hx _ IH]; [done|]. by rewrite filter_cons_False. Qed.

Lemma list_Forall_filter (Q : A -> Prop) l : Forall Q l -> Forall Q (filter P l).
Proof. rewrite !Forall_forall. intros HQ x [_ Hx]%list_elem_of_filter. by apply HQ. Qed.

Lemma NoDup_fmap_filter {B} (f : A -> B) l : NoDup (f <$> l) -> NoDup (f <$> filter P l).
Proof. intros Hnd. eapply sublist_NoDup; [exact Hnd|]. apply fmap_sublist, sublist_filter. Qed.
End lists.

Lemma StronglySorted_app_iff {A} (R : A -> A -> Prop) l1 l2 :
  StronglySorted R (l1 ++ l2) <->
  StronglySorted R l1 /\ StronglySorted R l2 /\ (forall x y, x ∈ l1 -> y ∈ l2 -> R x y).
Proof.
  induction l1 as [|a l1 IH]; simpl.
  - split; [intros H; split_and!; [constructor|done|set_solver]|tauto].
  - split.
    + intros H. inversion H as [|? ? H1 H2]; subst. apply IH in H1 as (? & ? & ?).
      rewrite Forall_forall in H2. split_and!; [|done|].
      * constructor; [done|]. apply Forall_forall. intros. apply H2. set_solver.
      * intros x y [->|Hx]%elem_of_cons Hy; [apply H2; set_solver|auto].
    + intros (H1 & H2 & H3). inversion H1 as [|? ? H4 H5]; subst. constructor.
      * apply IH. split_and!; try done. intros; apply H3; set_solver.
      * apply Forall_app. split; [done|]. apply Forall_forall. intros; apply H3; set_solver.
Qed.

(** ** Stateful code that may abort

    A C function that reads and writes a component's state is a function from
    the state to a result and a new state.  [None] is abnormal termination:
    a failed [assert], [BUG()], [FATAL()] or an access through [NULL]. *)
Definition SM (S A : Type) : Type := S -> option (A * S).

#[global] Instance SM_ret {S} : MRet (SM S) := fun A a s => Some (a, s).
#[global] Instance SM_bind {S} : MBind (SM S) := fun A B f m s =>
  match m s with
  | Some (a, s') => f a s'
  | None => None
  end.

Section sm.
Context {S : Type}.

Definition sm_get : SM S S := fun s => Some (s, s).
Definition sm_put (s' : S) : SM S unit := fun _ => Some ((), s').
Definition sm_gets {A} (f : S -> A) : SM S A := fun s => Some (f s, s).
Definition sm_modify (f : S -> S) : SM S unit := fun s => Some ((), f s).
Definition sm_assert (b : bool) : SM S unit := fun s => if b then Some ((), s) else None.
Definition sm_bug {A} : SM S A := fun _ => None.

(** Total correctness: [m] terminates normally from [s], with a result and a
    state satisfying [Q]. *)
Definition wp {A} (m : SM S A) (Q : A -> S -> Prop) (s : S) : Prop :=
  match m s with
  | Some (a, s') => Q a s'
  | None => False
  end.

Lemma wp_ret {A} (a : A) (Q : A -> S -> Prop) s : Q a s -> wp (mret a) Q s.
Proof. done. Qed.

Lemma wp_bind {A B} (m : SM S A) (f : A -> SM S B) (Q : B -> S -> Prop) s :
  wp m (fun a s' => wp (f a) Q s') s -> wp (m ≫= f) Q s.
Proof. unfold wp, mbind, SM_bind. destruct (m s) as [[a s']|]; done. Qed.

Lemma wp_assoc {A B C} (m : SM S A) (f : A -> SM S B) (g : B -> SM S C) (Q : C -> S -> Prop) s :
  wp ((m ≫= f) ≫= g) Q s -> wp (m ≫= fun a => f a ≫= g) Q s.
Proof. unfold wp, mbind, SM_bind. by destruct (m s) as [[a s1]|]. Qed.

Lemma wp_assoc2 {A B C D} (m : SM S A) (n : A -> SM S B) (f : A -> B -> SM S C) (g : C -> SM S D)
    (Q : D -> S -> Prop) s :
  wp ((m ≫= fun a => n a ≫= f a) ≫= g) Q s -> wp (m ≫= fun a => n a ≫= fun b => f a b ≫= g) Q s.
Proof.
  unfold wp, mbind, SM_bind. destruct (m s) as [[a s1]|]; [|done]. by destruct (n a s1) as [[b s2]|].
Qed.

Lemma wp_mono {A} (m : SM S A) (P Q : A -> S -> Prop) s :
  wp m P s -> (forall a s', P a s' -> Q a s') -> wp m Q s.
Proof. unfold wp. destruct (m s) as [[a s']|]; auto. Qed.

Lemma wp_get (Q : S -> S -> Prop) s : Q s s -> wp sm_get Q s.
Proof. done. Qed.

Lemma wp_gets {A} (f : S -> A) (Q : A -> S -> Prop) s : Q (f s) s -> wp (sm_gets f) Q s.
Proof. done. Qed.

Lemma wp_put s' (Q : unit -> S -> Prop) s : Q () s' -> wp (sm_put s') Q s.
Proof. done. Qed.

Lemma wp_modify f (Q : unit -> S -> Prop) s : Q () (f s) -> wp (sm_modify f) Q s.
Proof. done. Qed.

Lemma wp_assert b (Q : unit -> S -> Prop) s : b = true -> Q () s -> wp (sm_assert b) Q s.
Proof. by intros ->. Qed.

(** The program terminates abnormally after its first part. *)
Lemma abort_bind {A B} (m : SM S A) (k : A -> SM S B) (P : A -> S -> Prop) s :
  wp m P s -> (forall a s', P a s' -> k a s' = None) -> (m ≫= k) s = None.
Proof. unfold wp, mbind, SM_bind. destruct (m s) as [[a s']|]; [auto|done]. Qed.

Lemma abort_first {A B} (m : SM S A) (k : A -> SM S B) s : m s = None -> (m ≫= k) s = None.
Proof. unfold mbind, SM_bind. by intros ->. Qed.

Lemma wp_run {A} (m : SM S A) (Q : A -> S -> Prop) s :
  wp m Q s -> exists a s', m s = Some (a, s') /\ Q a s'.
Proof. unfold wp. destruct (m s) as [[a s']|]; [eauto|done]. Qed.

Lemma wp_keep {A} (m : SM S A) (Q : A -> S -> Prop) s :
  wp m Q s -> wp m (fun a s' => m s = Some (a, s') /\ Q a s') s.
Proof. unfold wp. by destruct (m s) as [[a s']|]. Qed.

(** The program ends in [Q], or it terminates abnormally and [R] holds. *)
Definition wp_or {A} (m : SM S A) (Q : A -> S -> Prop) (R : Prop) (s : S) : Prop :=
  match m s with
  | Some (a, s') => Q a s'
  | None => R
  end.

Lemma wp_or_wp {A} (m : SM S A) (Q : A -> S -> Prop) R s : wp m Q s -> wp_or m Q R s.
Proof. unfold wp, wp_or. by destruct (m s) as [[a s']|]. Qed.

Lemma wp_or_bind {A B} (m : SM S A) (f : A -> SM S B) (Q : B -> S -> Prop) R s :
  wp m (fun a s' => wp_or (f a) Q R s') s -> wp_or (m ≫= f) Q R s.
Proof. unfold wp, wp_or, mbind, SM_bind. by destruct (m s) as [[a s']|]. Qed.

Lemma wp_or_then {A B} (m : SM S A) (f : A -> SM S B) (Q : B -> S -> Prop) R s :
  wp_or m (fun a s' => wp_or (f a) Q R s') R s -> wp_or (m ≫= f) Q R s.
Proof. unfold wp_or, mbind, SM_bind. by destruct (m s) as [[a s']|]. Qed.

Lemma wp_or_mono {A} (m : SM S A) (P Q : A -> S -> Prop) (R R' : Prop) s :
  wp_or m P R s -> (R -> R') -> (forall a s', P a s' -> Q a s') -> wp_or m Q R' s.
Proof. unfold wp_or. destruct (m s) as [[a s']|]; auto. Qed.

(** Whatever the first part does. *)
Lemma wp_or_skip {A B} (m : SM S A) (f : A -> SM S B) (Q : B -> S -> Prop) s :
  (forall a s', wp_or (f a) Q True s') -> wp_or (m ≫= f) Q True s.
Proof. intros H. unfold wp_or, mbind, SM_bind. destruct (m s) as [[a s']|]; [apply H|done]. Qed.

Lemma wp_or_use {A} (m : SM S A) (Q : A -> S -> Prop) R s : wp_or m Q R s -> ~ R -> wp m Q s.
Proof. unfold wp, wp_or. by destruct (m s) as [[a s']|]. Qed.

Lemma wp_or_abort {A B} (m : SM S A) (f : A -> SM S B) (Q : B -> S -> Prop) (R : Prop) s :
  m s = None -> R -> wp_or (m ≫= f) Q R s.
Proof. unfold wp_or, mbind, SM_bind. by intros ->. Qed.
End sm.

(** Steps through a monadic program. *)
Ltac wp_step :=
  lazymatch goal with
  | |- wp (mbind _ _) _ _ => apply wp_bind
  | |- wp (mret _) _ _ => apply wp_ret
  | |- wp sm_get _ _ => apply wp_get
  | |- wp (sm_gets _) _ _ => apply wp_gets
  | |- wp (sm_put _) _ _ => apply wp_put
  | |- wp (sm_modify _) _ _ => apply wp_modify
  end.
Ltac wp_steps := repeat (wp_step; cbn beta).
