(* ===== verification/OrdSeq.v ===== *)
(** * Ordered sequences: the contract of [common/include/avl_tree.h]

    The header of the AVL tree documents its operations in terms of the order
    of the stored nodes ("the smallest element that is greater or equal to
    ...", "previous and next node", "the newer will be on the left from the
    older one").  This file states that contract on plain lists: [AvlTree]
    proves that the tree implements it, and the components that keep their
    data in such a tree ([Vma], [IpcPid], [Pid]) are modelled on it. *)

From S2P Require Import Prelude.

Section ord_seq.
Context {A : Type}.
Implicit Types (P : A -> bool) (l : list A) (x n : A).

(** [span P l] cuts [l] at the first element that satisfies [P]. *)
Fixpoint span P l : list A * list A :=
  match l with
  | [] => ([], [])
  | x :: l' => if P x then ([], l) else let '(a, b) := span P l' in (x :: a, b)
  end.

(** Insertion in front of the first element that satisfies [P]; with
    [P := cmp n] this is where [avl_tree_insert] puts [n]. *)
Definition seq_insert P n l : list A :=
  let '(a, b) := span P l in a ++ n :: b.

(** The first element satisfying [P]: [avl_tree_lower_bound_fn]. *)
Definition seq_lower_bound P l : option A := head (snd (span P l)).

(** [P] holds on a suffix of [l]: what "[cmp] is compatible with the order of
    the tree" amounts to for one fixed first argument. *)
Definition mono P l : Prop := StronglySorted (fun x y => P x = true -> P y = true) l.

Lemma span_app P l : fst (span P l) ++ snd (span P l) = l.
Proof.
  induction l as [|x l IH]; simpl; [done|].
  destruct (P x); simpl; [done|]. destruct (span P l); simpl in *. by f_equal.
Qed.

Lemma span_fst P l : Forall (fun x => P x = false) (fst (span P l)).
Proof.
  induction l as [|x l IH]; simpl; [done|].
  destruct (P x) eqn:E; simpl; [done|]. destruct (span P l); simpl in *. by constructor.
Qed.

Lemma span_snd P l x b : snd (span P l) = x :: b -> P x = true.
Proof.
  induction l as [|y l IH]; simpl; [done|].
  destruct (P y) eqn:E; simpl; [by intros [= -> ->]|].
  destruct (span P l); simpl in *; auto.
Qed.

Lemma span_spec P l a b :
  span P l = (a, b) ->
  l = a ++ b /\ Forall (fun x => P x = false) a /\ (forall x b', b = x :: b' -> P x = true).
Proof.
  intros E. split_and!.
  - by rewrite <- (span_app P l), E.
  - pose proof (span_fst P l) as H. by rewrite E in H.
  - intros x b' ->. apply (span_snd P l x b'). by rewrite E.
Qed.

Lemma span_all_false P l : Forall (fun x => P x = false) l -> span P l = (l, []).
Proof. induction 1 as [|x l Hx _ IH]; simpl; [done|]. by rewrite Hx, IH. Qed.

Lemma span_app_true P a x b :
  Forall (fun x => P x = false) a -> P x = true -> span P (a ++ x :: b) = (a, x :: b).
Proof.
  intros Ha Hx. induction Ha as [|y a Hy _ IH]; simpl; [by rewrite Hx|].
  by rewrite Hy, IH.
Qed.

Lemma span_app_false P a b :
  Forall (fun x => P x = false) a ->
  span P (a ++ b) = (a ++ fst (span P b), snd (span P b)).
Proof.
  induction 1 as [|y a Hy _ IH]; simpl; [by destruct (span P b)|]. by rewrite Hy, IH.
Qed.

Lemma sat_or_none P l :
  Exists (fun y => P y = true) l \/ Forall (fun y => P y = false) l.
Proof.
  induction l as [|x l [IH|IH]]; [by right|by left; apply Exists_cons_tl|].
  destruct (P x) eqn:E; [left; by apply Exists_cons_hd|right; by constructor].
Qed.

Lemma span_in_prefix P a x b :
  Exists (fun y => P y = true) a ->
  span P (a ++ x :: b) = (fst (span P a), snd (span P a) ++ x :: b).
Proof.
  induction a as [|y a IH]; intros H; [by inversion H|]. simpl.
  destruct (P y) eqn:E; [done|].
  inversion H as [? ? H'|? ? H']; subst; [congruence|].
  rewrite (IH H'). by destruct (span P a).
Qed.

(** ** Monotone predicates *)

Lemma mono_app_1 P a b : mono P (a ++ b) -> mono P a.
Proof.
  unfold mono. induction a as [|x a IH]; simpl; [constructor|].
  intros H. inversion H as [|? ? H1 H2]; subst. constructor; [auto|].
  by apply Forall_app in H2 as [? _].
Qed.

Lemma mono_app_2 P a b : mono P (a ++ b) -> mono P b.
Proof.
  unfold mono. induction a as [|x a IH]; simpl; [done|].
  intros H. inversion H; subst; auto.
Qed.

Lemma mono_tail P a x b : mono P (a ++ x :: b) -> mono P b.
Proof. intros H%mono_app_2. by apply (mono_app_2 _ [x]). Qed.

(** A monotone predicate false at [x] is false before [x]... *)
Lemma mono_false_before P a x b :
  mono P (a ++ x :: b) -> P x = false -> Forall (fun y => P y = false) a.
Proof.
  intros H Hx. apply Forall_forall. intros y Hy.
  destruct (P y) eqn:E; [|done].
  unfold mono in H. induction a as [|z a IH]; [by apply elem_of_nil in Hy|].
  simpl in H. inversion H as [|? ? H1 H2]; subst.
  apply elem_of_cons in Hy as [->|Hy]; [|eauto].
  rewrite Forall_forall in H2. rewrite (H2 x) in Hx; [done| |done]. set_solver.
Qed.

(** ... and true after [x] when it is true at [x]. *)
Lemma mono_true_after P a x b :
  mono P (a ++ x :: b) -> P x = true -> Forall (fun y => P y = true) b.
Proof.
  intros H Hx. apply mono_app_2 in H. inversion H as [|? ? _ H2]; subst.
  eapply Forall_impl; [exact H2|]. simpl; auto.
Qed.

Lemma seq_insert_left P n a x b :
  mono P (a ++ x :: b) -> P x = true ->
  seq_insert P n (a ++ x :: b) = seq_insert P n a ++ x :: b.
Proof.
  intros Hm Hx. unfold seq_insert.
  destruct (sat_or_none P a) as [He|He].
  - rewrite span_in_prefix by done. destruct (span P a); simpl.
    by rewrite <- (assoc_L (++)).
  - rewrite span_app_true, span_all_false by done. simpl. by rewrite <- (assoc_L (++)).
Qed.

Lemma seq_insert_right P n a x b :
  mono P (a ++ x :: b) -> P x = false ->
  seq_insert P n (a ++ x :: b) = a ++ x :: seq_insert P n b.
Proof.
  intros Hm Hx. unfold seq_insert.
  assert (Ha : Forall (fun y => P y = false) (a ++ [x])).
  { apply Forall_app; split; [eapply mono_false_before; eauto|by repeat constructor]. }
  replace (a ++ x :: b) with ((a ++ [x]) ++ b) by by rewrite <- (assoc_L (++)).
  rewrite span_app_false by done. destruct (span P b); simpl.
  by rewrite <- !(assoc_L (++)).
Qed.

Lemma seq_insert_perm P n l : seq_insert P n l ≡ₚ n :: l.
Proof.
  unfold seq_insert. rewrite <- (span_app P l) at 2. destruct (span P l) as [a b]; simpl.
  symmetry. apply Permutation_middle.
Qed.

Lemma seq_lower_bound_left P a x b :
  mono P (a ++ x :: b) -> P x = true ->
  seq_lower_bound P (a ++ x :: b) =
    match seq_lower_bound P a with Some y => Some y | None => Some x end.
Proof.
  intros Hm Hx. unfold seq_lower_bound.
  destruct (sat_or_none P a) as [He|He].
  - rewrite span_in_prefix by done. pose proof (span_app P a) as Happ.
    pose proof (span_fst P a) as Hf. destruct (span P a) as [a1 [|y a2]]; simpl in *; [|done].
    exfalso. rewrite app_nil_r in Happ. subst a1.
    apply Exists_exists in He as (y & Hy1 & Hy2). rewrite Forall_forall in Hf.
    rewrite (Hf y Hy1) in Hy2. done.
  - by rewrite span_app_true, span_all_false by done.
Qed.

Lemma seq_lower_bound_right P a x b :
  mono P (a ++ x :: b) -> P x = false ->
  seq_lower_bound P (a ++ x :: b) = seq_lower_bound P b.
Proof.
  intros Hm Hx. unfold seq_lower_bound.
  assert (Ha : Forall (fun y => P y = false) (a ++ [x])).
  { apply Forall_app; split; [eapply mono_false_before; eauto|by repeat constructor]. }
  replace (a ++ x :: b) with ((a ++ [x]) ++ b) by by rewrite <- (assoc_L (++)).
  by rewrite span_app_false by done.
Qed.

End ord_seq.
