(* ===== verification/AvlTree.v ===== *)
(** * The AVL tree of [common/src/avl_tree.c]

    Gramine keeps memory areas and process-ID ranges in an intrusive AVL tree
    whose nodes carry [left], [right], [parent] and [balance] fields.  A tree
    is modelled as an inductive value, a pointer to a node inside it as a
    [cursor]: the node together with the chain of its ancestors, which is what
    the [parent] pointers give access to.  The loops that follow [parent]
    links are recursions on that chain and the loops that follow [left] and
    [right] are recursions on the subtree.

    The element type [A] stands for the structure the node is embedded in
    ([container_of]) and [cmp] for [tree->cmp]. *)

From S2P Require Import Prelude OrdSeq.

Section avl_tree.
Context {A : Type}.

(** ** Data *)

Inductive avl_tree_node :=
| Null
| Node (left : avl_tree_node) (elt : A) (balance : Z) (right : avl_tree_node).

Inductive side := LEFT | RIGHT.

(** One ancestor: [f_side] tells which child we came from, [f_other] is the
    other child. *)
Record frame := Frame {
  f_side : side;
  f_elt : A;
  f_balance : Z;
  f_other : avl_tree_node
}.

(** Closest ancestor first; [[]] is the [NULL] parent of the root. *)
Definition path := list frame.

Record cursor := Cursor {
  c_left : avl_tree_node;
  c_elt : A;
  c_balance : Z;
  c_right : avl_tree_node;
  c_parent : path
}.

(** The ancestor [f] with child [t]; [fixup_link] re-attaches a subtree. *)
Definition fixup_link (f : frame) (t : avl_tree_node) : avl_tree_node :=
  match f_side f with
  | LEFT => Node t (f_elt f) (f_balance f) (f_other f)
  | RIGHT => Node (f_other f) (f_elt f) (f_balance f) t
  end.

(** The whole tree around a subtree. *)
Fixpoint fill (t : avl_tree_node) (up : path) : avl_tree_node :=
  match up with
  | [] => t
  | f :: up' => fill (fixup_link f t) up'
  end.

Definition tree_of (c : cursor) : avl_tree_node :=
  fill (Node (c_left c) (c_elt c) (c_balance c) (c_right c)) (c_parent c).

(** ** Rotations *)

(** The argument is the subtree rooted at [p]; [q] and [r] are found where
    the assertions of the C code place them.  The other shapes are excluded
    by these assertions. *)
Definition rot1L (p : avl_tree_node) : avl_tree_node :=
  match p with
  | Node pl px _ (Node ql qx qb qr) =>
      if qb =? 1 then Node (Node pl px 0 ql) qx 0 qr
      else Node (Node pl px 1 ql) qx (-1) qr
  | _ => p
  end.

Definition rot1R (p : avl_tree_node) : avl_tree_node :=
  match p with
  | Node (Node ql qx qb qr) px _ pr =>
      if qb =? -1 then Node ql qx 0 (Node qr px 0 pr)
      else Node ql qx 1 (Node qr px (-1) pr)
  | _ => p
  end.

Definition rot2RL (p : avl_tree_node) : avl_tree_node :=
  match p with
  | Node pl px _ (Node (Node rl rx rb rr) qx _ qr) =>
      let '(pb, qb) := if rb =? -1 then (0, 1) else if rb =? 0 then (0, 0) else (-1, 0) in
      Node (Node pl px pb rl) rx 0 (Node rr qx qb qr)
  | _ => p
  end.

Definition rot2LR (p : avl_tree_node) : avl_tree_node :=
  match p with
  | Node (Node ql qx _ (Node rl rx rb rr)) px _ pr =>
      let '(qb, pb) := if rb =? -1 then (0, 1) else if rb =? 0 then (0, 0) else (-1, 0) in
      Node (Node ql qx qb rl) rx 0 (Node rr px pb pr)
  | _ => p
  end.

Definition balance_of (t : avl_tree_node) : Z :=
  match t with Null => 0 | Node _ _ b _ => b end.

(** Returns whether the height might have changed, and the new root of the
    subtree. *)
Definition avl_tree_do_balance (node : avl_tree_node) : bool * avl_tree_node :=
  match node with
  | Null => (false, Null)
  | Node l _ b r =>
      if b <? 0 then
        if balance_of l =? 1 then (true, rot2LR node)
        else (negb (balance_of l =? 0), rot1R node)
      else
        if 0 <=? balance_of r then (negb (balance_of r =? 0), rot1L node)
        else (true, rot2RL node)
  end.

(** ** Rebalancing from a changed subtree towards the root

    [child] is the subtree whose height changed, [up] starts with the node
    the C function is called on ([node]) and the side of its first frame is
    the [side] argument.  The result is the whole tree, since the root may be
    replaced on the way. *)
Definition balance_step (f : frame) (child : avl_tree_node) (height_increased : bool)
    : bool * avl_tree_node :=
  let b := f_balance f in
  let '(height_changed, b') :=
    match f_side f with
    | LEFT => if height_increased then (b <=? 0, b - 1) else (b <? 0, b + 1)
    | RIGHT => if height_increased then (0 <=? b, b + 1) else (0 <? b, b - 1)
    end in
  let node := fixup_link (Frame (f_side f) (f_elt f) b' (f_other f)) child in
  if (b' =? -2) || (b' =? 2) then
    let '(hc, n) := avl_tree_do_balance node in
    (if height_increased then false else hc, n)
  else (height_changed, node).

Fixpoint avl_tree_balance (child : avl_tree_node) (up : path) (height_increased : bool)
    : avl_tree_node :=
  match up with
  | [] => child
  | f :: up' =>
      let '(height_changed, node) := balance_step f child height_increased in
      if height_changed then avl_tree_balance node up' height_increased
      else fill node up'
  end.

(** ** Insertion *)

Section insert.
Variable cmp : A -> A -> bool.

(** The chain of ancestors of the place where the new node is linked. *)
Fixpoint avl_tree_insert_unbalanced (node_to_insert : A) (node : avl_tree_node) (up : path)
    : path :=
  match node with
  | Null => up
  | Node l x b r =>
      if cmp node_to_insert x
      then avl_tree_insert_unbalanced node_to_insert l (Frame LEFT x b r :: up)
      else avl_tree_insert_unbalanced node_to_insert r (Frame RIGHT x b l :: up)
  end.

Definition avl_tree_insert (tree : avl_tree_node) (node : A) : avl_tree_node :=
  let new := Node Null node 0 Null in
  match tree with
  | Null => new
  | _ => avl_tree_balance new (avl_tree_insert_unbalanced node tree []) true
  end.

(** [cmp_arg] is compared in both directions; equality stops the search. *)
Fixpoint avl_tree_find_fn_to (cmp_arg : A) (node : avl_tree_node) (up : path) : option cursor :=
  match node with
  | Null => None
  | Node l x b r =>
      if cmp cmp_arg x then
        if cmp x cmp_arg then Some (Cursor l x b r up)
        else avl_tree_find_fn_to cmp_arg l (Frame LEFT x b r :: up)
      else avl_tree_find_fn_to cmp_arg r (Frame RIGHT x b l :: up)
  end.

Definition avl_tree_find (tree : avl_tree_node) (node : A) : option cursor :=
  avl_tree_find_fn_to node tree [].

End insert.

(** ** Replacement of a node by one with the same key *)
Definition avl_tree_swap_node (old_node : cursor) (new_node : A) : avl_tree_node :=
  fill (Node (c_left old_node) new_node (c_balance old_node) (c_right old_node))
       (c_parent old_node).

(** ** Traversal *)

(** [while (node->left) node = node->left;] *)
Fixpoint leftmost (l : avl_tree_node) (x : A) (b : Z) (r : avl_tree_node) (up : path) : cursor :=
  match l with
  | Null => Cursor l x b r up
  | Node ll lx lb lr => leftmost ll lx lb lr (Frame LEFT x b r :: up)
  end.

(** [while (node->right) node = node->right;] *)
Fixpoint rightmost (l : avl_tree_node) (x : A) (b : Z) (r : avl_tree_node) (up : path) : cursor :=
  match r with
  | Null => Cursor l x b r up
  | Node rl rx rb rr => rightmost rl rx rb rr (Frame RIGHT x b l :: up)
  end.

(** [while (node->parent && node->parent->left == node) node = node->parent;]
    followed by [return node->parent]. *)
Fixpoint climb_prev (t : avl_tree_node) (up : path) : option cursor :=
  match up with
  | [] => None
  | f :: up' =>
      match f_side f with
      | LEFT => climb_prev (fixup_link f t) up'
      | RIGHT => Some (Cursor (f_other f) (f_elt f) (f_balance f) t up')
      end
  end.

Fixpoint climb_next (t : avl_tree_node) (up : path) : option cursor :=
  match up with
  | [] => None
  | f :: up' =>
      match f_side f with
      | RIGHT => climb_next (fixup_link f t) up'
      | LEFT => Some (Cursor t (f_elt f) (f_balance f) (f_other f) up')
      end
  end.

Definition avl_tree_prev (c : cursor) : option cursor :=
  let node := Node (c_left c) (c_elt c) (c_balance c) (c_right c) in
  match c_left c with
  | Node ll lx lb lr =>
      Some (rightmost ll lx lb lr
              (Frame LEFT (c_elt c) (c_balance c) (c_right c) :: c_parent c))
  | Null => climb_prev node (c_parent c)
  end.

Definition avl_tree_next (c : cursor) : option cursor :=
  let node := Node (c_left c) (c_elt c) (c_balance c) (c_right c) in
  match c_right c with
  | Node rl rx rb rr =>
      Some (leftmost rl rx rb rr
              (Frame RIGHT (c_elt c) (c_balance c) (c_left c) :: c_parent c))
  | Null => climb_next node (c_parent c)
  end.

Definition avl_tree_first (tree : avl_tree_node) : option cursor :=
  match tree with
  | Null => None
  | Node l x b r => Some (leftmost l x b r [])
  end.

Definition avl_tree_last (tree : avl_tree_node) : option cursor :=
  match tree with
  | Null => None
  | Node l x b r => Some (rightmost l x b r [])
  end.

(** ** Deletion *)

(** [node] with two children first changes places with its successor [next]:
    [next] gets the place, the left child and the balance of [node]; [node]
    gets the place, the right child and the balance of [next].  The result is
    the chain of ancestors of the place where [node] now is. *)
Definition swap_with_next (c : cursor) : avl_tree_node * path :=
  match c_left c, c_right c with
  | Node _ _ _ _, Node rl rx rb rr =>
      let next := leftmost rl rx rb rr [] in
      (c_right next,
       c_parent next ++ Frame RIGHT (c_elt next) (c_balance c) (c_left c) :: c_parent c)
  | Null, r => (r, c_parent c)
  | l, Null => (l, c_parent c)
  end.

(** The node, which has at most one child now, is replaced by that child and
    the tree is rebalanced from its parent. *)
Definition avl_tree_delete (node : cursor) : avl_tree_node :=
  let '(child, up) := swap_with_next node in
  avl_tree_balance child up false.

(** ** Lower bound *)

Section lower_bound.
Variable cmp : A -> bool. (* [cmp(cmp_arg, _)] *)

Fixpoint lower_bound_loop (node : avl_tree_node) (up : path) (ret : option cursor)
    : option cursor :=
  match node with
  | Null => ret
  | Node l x b r =>
      if cmp x then lower_bound_loop l (Frame LEFT x b r :: up) (Some (Cursor l x b r up))
      else lower_bound_loop r (Frame RIGHT x b l :: up) ret
  end.

Definition avl_tree_lower_bound_fn (tree : avl_tree_node) : option cursor :=
  lower_bound_loop tree [] None.

End lower_bound.

Definition avl_tree_lower_bound (cmp : A -> A -> bool) (tree : avl_tree_node) (cmp_arg : A)
    : option cursor :=
  avl_tree_lower_bound_fn (cmp cmp_arg) tree.

(** ** The debug check of the balance fields *)

Fixpoint avl_tree_is_balanced_size (node : avl_tree_node) : bool * Z :=
  match node with
  | Null => (true, 0)
  | Node l _ bal r =>
      let '(ret1, a) := avl_tree_is_balanced_size l in
      let '(ret2, b) := avl_tree_is_balanced_size r in
      let ret := ret1 && ret2 in
      if a <? b then (ret && (b - a =? 1) && (bal =? 1), b + 1)
      else if a =? b then (ret && (bal =? 0), a + 1)
      else (ret && (a - b =? 1) && (bal =? -1), a + 1)
  end.

Definition debug_avl_tree_is_balanced (tree : avl_tree_node) : bool :=
  fst (avl_tree_is_balanced_size tree).

End avl_tree.

Arguments avl_tree_node : clear implicits.
Arguments frame : clear implicits.
Arguments path : clear implicits.
Arguments cursor : clear implicits.

(** ** In-order contents *)

Section facts.
Context {A : Type}.
Implicit Types (t l r : avl_tree_node A) (up : path A) (c : cursor A) (x : A).

Fixpoint elements t : list A :=
  match t with
  | Null => []
  | Node l x _ r => elements l ++ x :: elements r
  end.

(** What lies before and after a subtree in the whole tree. *)
Fixpoint before up : list A :=
  match up with
  | [] => []
  | f :: up' => before up' ++ match f_side f with
                              | LEFT => []
                              | RIGHT => elements (f_other f) ++ [f_elt f]
                              end
  end.

Fixpoint after up : list A :=
  match up with
  | [] => []
  | f :: up' => match f_side f with
                | LEFT => f_elt f :: elements (f_other f)
                | RIGHT => []
                end ++ after up'
  end.

Definition c_before c : list A := before (c_parent c) ++ elements (c_left c).
Definition c_after c : list A := elements (c_right c) ++ after (c_parent c).

(** Normalises nested appends. *)
Ltac norm_app := repeat (rewrite <- (assoc_L (++)) || simpl).

Lemma elements_fixup_link f t up :
  before up ++ elements (fixup_link f t) ++ after up =
  before (f :: up) ++ elements t ++ after (f :: up).
Proof. unfold fixup_link; simpl. destruct (f_side f); norm_app; done. Qed.

Lemma elements_fill t up : elements (fill t up) = before up ++ elements t ++ after up.
Proof.
  revert t. induction up as [|f up IH]; intros t; simpl; [by rewrite app_nil_r|].
  rewrite IH. apply elements_fixup_link.
Qed.

Lemma elements_tree_of c : elements (tree_of c) = c_before c ++ c_elt c :: c_after c.
Proof. unfold tree_of, c_before, c_after. rewrite elements_fill; simpl. by norm_app. Qed.

(** ** Rotations keep the order *)

Lemma elements_rot1L t : elements (rot1L t) = elements t.
Proof. destruct t as [|pl px pb [|ql qx qb qr]]; simpl; [done..|]. dif; by norm_app. Qed.

Lemma elements_rot1R t : elements (rot1R t) = elements t.
Proof. destruct t as [|[|ql qx qb qr] px pb pr]; simpl; [done..|]. dif; by norm_app. Qed.

Lemma elements_rot2RL t : elements (rot2RL t) = elements t.
Proof.
  destruct t as [|pl px pb [|[|rl rx rb rr] qx qb qr]]; simpl; [done..|].
  repeat dif; by norm_app.
Qed.

Lemma elements_rot2LR t : elements (rot2LR t) = elements t.
Proof.
  destruct t as [|[|ql qx qb [|rl rx rb rr]] px pb pr]; simpl; [done..|].
  repeat dif; by norm_app.
Qed.

Lemma elements_do_balance t : elements (snd (avl_tree_do_balance t)) = elements t.
Proof.
  destruct t as [|l x b r]; [done|]. unfold avl_tree_do_balance.
  repeat dif; cbv [snd];
    rewrite ?elements_rot1L, ?elements_rot1R, ?elements_rot2LR, ?elements_rot2RL; done.
Qed.

Lemma elements_balance_step f t hi up :
  before up ++ elements (snd (balance_step f t hi)) ++ after up =
  before (f :: up) ++ elements t ++ after (f :: up).
Proof.
  unfold balance_step.
  match goal with |- context [let '(_, _) := ?e in _] => destruct e as [hc b'] end.
  set (node := fixup_link _ t).
  assert (Hn : forall n, elements n = elements node ->
    before up ++ elements n ++ after up = before (f :: up) ++ elements t ++ after (f :: up)).
  { intros n ->. unfold node. rewrite elements_fixup_link. by destruct f as [[] ? ? ?]. }
  destruct ((b' =? -2) || (b' =? 2)); apply Hn; [|done].
  rewrite <- (elements_do_balance node). by destruct (avl_tree_do_balance node).
Qed.

Lemma elements_balance t up hi :
  elements (avl_tree_balance t up hi) = before up ++ elements t ++ after up.
Proof.
  revert t. induction up as [|f up IH]; intros t; [simpl; by rewrite app_nil_r|].
  rewrite <- (elements_balance_step f t hi up). simpl.
  destruct (balance_step f t hi) as [[] n]; [apply IH|apply elements_fill].
Qed.

(** ** Insertion keeps the order *)

Lemma insert_unbalanced_spec cmp n t up :
  mono (cmp n) (elements t) ->
  let up' := avl_tree_insert_unbalanced cmp n t up in
  before up' ++ n :: after up' = before up ++ seq_insert (cmp n) n (elements t) ++ after up.
Proof.
  revert up. induction t as [|l IHl x b r IHr]; intros up Hm; simpl in *; [done|].
  destruct (cmp n x) eqn:E.
  - rewrite IHl by (by eapply mono_app_1). simpl. rewrite seq_insert_left by done.
    by norm_app.
  - rewrite IHr by (by eapply mono_tail).
    simpl. rewrite seq_insert_right by done. by norm_app.
Qed.

Lemma elements_insert cmp t n :
  mono (cmp n) (elements t) ->
  elements (avl_tree_insert cmp t n) = seq_insert (cmp n) n (elements t).
Proof.
  intros Hm. unfold avl_tree_insert. destruct t as [|l x b r]; [done|].
  rewrite elements_balance. cbn [elements app].
  pose proof (insert_unbalanced_spec cmp n (Node l x b r) [] Hm) as H. cbv zeta in H.
  rewrite H. simpl. by rewrite app_nil_r.
Qed.

(** ** Traversal *)

Lemma leftmost_spec l x b r up :
  tree_of (leftmost l x b r up) = fill (Node l x b r) up /\
  c_left (leftmost l x b r up) = Null /\
  c_before (leftmost l x b r up) = before up /\
  c_elt (leftmost l x b r up) :: c_after (leftmost l x b r up)
    = elements (Node l x b r) ++ after up.
Proof.
  revert x b r up. induction l as [|ll IHl lx lb lr _]; intros x b r up.
  - split_and!; unfold c_before; simpl; rewrite ?app_nil_r; done.
  - simpl leftmost. destruct (IHl lx lb lr (Frame LEFT x b r :: up)) as (H1 & H2 & H3 & H4).
    split_and!; [by rewrite H1|done|rewrite H3; simpl; by rewrite app_nil_r|].
    rewrite H4. simpl. by norm_app.
Qed.

Lemma rightmost_spec l x b r up :
  tree_of (rightmost l x b r up) = fill (Node l x b r) up /\
  c_after (rightmost l x b r up) = after up /\
  c_before (rightmost l x b r up) ++ [c_elt (rightmost l x b r up)]
    = before up ++ elements (Node l x b r).
Proof.
  revert l x b up. induction r as [|rl _ rx rb rr IHr]; intros l x b up.
  - split_and!; unfold c_before, c_after; simpl; norm_app; done.
  - simpl rightmost. destruct (IHr rl rx rb (Frame RIGHT x b l :: up)) as (H1 & H2 & H3).
    split_and!; [by rewrite H1|done|]. rewrite H3. simpl. by norm_app.
Qed.

Lemma climb_next_spec t up :
  match climb_next t up with
  | None => after up = []
  | Some c => tree_of c = fill t up /\ c_before c = before up ++ elements t /\
              c_elt c :: c_after c = after up
  end.
Proof.
  revert t. induction up as [|[[] y b o] up IH]; intros t; [done|..]; simpl.
  - split_and!; unfold c_before, c_after; simpl; norm_app; done.
  - specialize (IH (fixup_link (Frame RIGHT y b o) t)).
    destruct (climb_next _ up) as [c|]; [|done].
    destruct IH as (H1 & H2 & H3). split_and!; [done| |done].
    rewrite H2. simpl. by norm_app.
Qed.

Lemma climb_prev_spec t up :
  match climb_prev t up with
  | None => before up = []
  | Some c => tree_of c = fill t up /\ c_after c = elements t ++ after up /\
              c_before c ++ [c_elt c] = before up
  end.
Proof.
  revert t. induction up as [|[[] y b o] up IH]; intros t; [done|..]; simpl.
  - specialize (IH (fixup_link (Frame LEFT y b o) t)).
    destruct (climb_prev _ up) as [c|]; [|by rewrite IH].
    destruct IH as (H1 & H2 & H3). split_and!; [done| |by rewrite app_nil_r].
    rewrite H2. simpl. by norm_app.
  - split_and!; unfold c_before, c_after; simpl; norm_app; done.
Qed.

Lemma avl_tree_next_spec c :
  match avl_tree_next c with
  | None => c_after c = []
  | Some c' => tree_of c' = tree_of c /\ c_before c' = c_before c ++ [c_elt c] /\
               c_elt c' :: c_after c' = c_after c
  end.
Proof.
  destruct c as [l x b [|rl rx rb rr] up]; unfold avl_tree_next; cbn [c_right c_left c_elt c_balance c_parent].
  - pose proof (climb_next_spec (Node l x b Null) up) as H.
    destruct (climb_next _ _) as [c'|]; [|done].
    destruct H as (-> & -> & ->). split_and!; [done| |done].
    unfold c_before; simpl. by norm_app.
  - destruct (leftmost_spec rl rx rb rr (Frame RIGHT x b l :: up)) as (-> & _ & -> & ->).
    split_and!; [done| |done]. unfold c_before; simpl. by norm_app.
Qed.

Lemma avl_tree_prev_spec c :
  match avl_tree_prev c with
  | None => c_before c = []
  | Some c' => tree_of c' = tree_of c /\ c_after c' = c_elt c :: c_after c /\
               c_before c' ++ [c_elt c'] = c_before c
  end.
Proof.
  destruct c as [[|ll lx lb lr] x b r up]; unfold avl_tree_prev; cbn [c_right c_left c_elt c_balance c_parent].
  - pose proof (climb_prev_spec (Node Null x b r) up) as H.
    assert (Hb : c_before (Cursor Null x b r up) = before up) by apply app_nil_r.
    destruct (climb_prev _ _) as [c'|]; [|by rewrite Hb].
    destruct H as (-> & -> & ->). by rewrite Hb.
  - destruct (rightmost_spec ll lx lb lr (Frame LEFT x b r :: up)) as (-> & -> & ->).
    split_and!; [done|done|]. unfold c_before; simpl. by norm_app.
Qed.

Lemma avl_tree_first_spec t :
  match avl_tree_first t with
  | None => elements t = []
  | Some c => tree_of c = t /\ c_before c = []
  end.
Proof.
  destruct t as [|l x b r]; [done|]. simpl.
  by destruct (leftmost_spec l x b r []) as (-> & _ & -> & _).
Qed.

Lemma avl_tree_last_spec t :
  match avl_tree_last t with
  | None => elements t = []
  | Some c => tree_of c = t /\ c_after c = []
  end.
Proof.
  destruct t as [|l x b r]; [done|]. simpl.
  by destruct (rightmost_spec l x b r []) as (-> & -> & _).
Qed.

(** ** Deletion keeps the order *)

Lemma swap_with_next_spec c :
  let '(child, up) := swap_with_next c in
  before up ++ elements child ++ after up = c_before c ++ c_after c.
Proof.
  destruct c as [[|ll lx lb lr] x b [|rl rx rb rr] up]; unfold swap_with_next, c_before, c_after;
    cbn [c_right c_left c_elt c_balance c_parent].
  1-3: simpl; rewrite ?app_nil_r; by norm_app.
  pose proof (leftmost_spec rl rx rb rr []) as H.
  destruct (leftmost rl rx rb rr []) as [nl nx nb nr nup].
  destruct H as (_ & Hl & Hb & He). unfold c_before, c_after in *; simpl in Hl, Hb, He.
  subst nl; simpl in Hb; rewrite app_nil_r in Hb.
  assert (Happ : forall u1 u2 : path A, before (u1 ++ u2) = before u2 ++ before u1 /\
                                        after (u1 ++ u2) = after u1 ++ after u2).
  { intros u1 u2. induction u1 as [|f u1 [IH1 IH2]]; simpl; [by rewrite app_nil_r|].
    rewrite IH1, IH2. by norm_app. }
  cbn [c_right c_parent c_elt].
  destruct (Happ nup (Frame RIGHT nx b (Node ll lx lb lr) :: up)) as [-> ->].
  rewrite Hb. simpl. rewrite app_nil_r in He. norm_app.
  replace (elements rl ++ rx :: elements rr ++ after up)
    with ((elements rl ++ rx :: elements rr) ++ after up) by by norm_app.
  rewrite <- He. by norm_app.
Qed.

Lemma elements_delete c : elements (avl_tree_delete c) = c_before c ++ c_after c.
Proof.
  unfold avl_tree_delete. pose proof (swap_with_next_spec c) as H.
  destruct (swap_with_next c) as [child up]. by rewrite elements_balance.
Qed.

(** ** Searching *)

Lemma lower_bound_loop_spec P t up ret :
  mono P (elements t) ->
  match lower_bound_loop P t up ret with
  | Some c =>
      (tree_of c = fill t up /\ exists a, c_before c = before up ++ a /\
         Forall (fun y => P y = false) a /\ P (c_elt c) = true)
      \/ (ret = Some c /\ Forall (fun y => P y = false) (elements t))
  | None => ret = None /\ Forall (fun y => P y = false) (elements t)
  end.
Proof.
  revert up ret. induction t as [|l IHl x b r IHr]; intros up ret Hm; simpl.
  { destruct ret; [right|]; split; auto. }
  destruct (P x) eqn:Hx.
  - assert (Hml : mono P (elements l)) by (by eapply mono_app_1).
    specialize (IHl (Frame LEFT x b r :: up) (Some (Cursor l x b r up)) Hml).
    destruct (lower_bound_loop P l _ _) as [c|]; [|by destruct IHl].
    destruct IHl as [(H1 & a & H2 & H3)|([= <-] & H2)]; left.
    + split; [done|]. exists a. by rewrite H2; simpl; rewrite app_nil_r.
    + split; [done|]. by exists (elements l).
  - assert (Hmr : mono P (elements r)) by (by eapply mono_tail).
    assert (Hf : Forall (fun y => P y = false) (elements l ++ [x])).
    { apply Forall_app; split; [by eapply mono_false_before|by repeat constructor]. }
    assert (Hall : forall q, Forall (fun y => P y = false) q ->
                             Forall (fun y => P y = false) (elements l ++ x :: q)).
    { intros q Hq. rewrite (app_assoc _ [x] q : elements l ++ x :: q = _). by apply Forall_app. }
    specialize (IHr (Frame RIGHT x b l :: up) ret Hmr).
    destruct (lower_bound_loop P r _ _) as [c|].
    + destruct IHr as [(H1 & a & H2 & H3 & H4)|[H1 H2]]; [left|right; auto].
      split; [done|]. exists ((elements l ++ [x]) ++ a). rewrite H2; simpl.
      split_and!; [by norm_app|by apply Forall_app|done].
    + destruct IHr as [H1 H2]. auto.
Qed.

Lemma lower_bound_fn_spec P t :
  mono P (elements t) ->
  match avl_tree_lower_bound_fn P t with
  | Some c => tree_of c = t /\ Forall (fun y => P y = false) (c_before c) /\ P (c_elt c) = true
  | None => Forall (fun y => P y = false) (elements t)
  end.
Proof.
  intros Hm. unfold avl_tree_lower_bound_fn. pose proof (lower_bound_loop_spec P t [] None Hm) as H.
  destruct (lower_bound_loop P t [] None) as [c|]; [|tauto].
  destruct H as [(H1 & a & H2 & H3 & H4)|[? ?]]; [|done]. simpl in *. subst a. done.
Qed.

Lemma lower_bound_fn_seq P t :
  mono P (elements t) ->
  c_elt <$> avl_tree_lower_bound_fn P t = seq_lower_bound P (elements t).
Proof.
  intros Hm. pose proof (lower_bound_fn_spec P t Hm) as H. unfold seq_lower_bound.
  destruct (avl_tree_lower_bound_fn P t) as [c|]; simpl.
  - destruct H as (<- & H2 & H3). rewrite elements_tree_of. by rewrite span_app_true.
  - by rewrite span_all_false.
Qed.

(** [cmp] as a total preorder, the documented requirement on [tree->cmp]. *)
Definition cmp_sorted (cmp : A -> A -> bool) t : Prop :=
  forall n, mono (cmp n) (elements t).

Lemma find_fn_to_spec cmp n t up :
  mono (cmp n) (elements t) -> mono (fun y => negb (cmp y n)) (elements t) ->
  match avl_tree_find_fn_to cmp n t up with
  | Some c => tree_of c = fill t up /\ cmp n (c_elt c) = true /\ cmp (c_elt c) n = true
  | None => Forall (fun y => cmp n y && cmp y n = false) (elements t)
  end.
Proof.
  revert up. induction t as [|l IHl x b r IHr]; intros up Hm Hm'; simpl; [constructor|].
  assert (H1 : forall q, mono q (elements l ++ x :: elements r) -> mono q (elements l) /\ mono q (elements r))
    by (intros q Hq; split; [by eapply mono_app_1|by eapply mono_tail]).
  destruct (H1 _ Hm), (H1 _ Hm'). simpl in Hm, Hm'.
  destruct (cmp n x) eqn:E1; [destruct (cmp x n) eqn:E2; [done|]|].
  - specialize (IHl (Frame LEFT x b r :: up)).
    destruct (avl_tree_find_fn_to cmp n l _) as [c|]; [by apply IHl|].
    apply Forall_app; split; [auto|]. constructor; [by rewrite E2, andb_false_r|].
    pose proof (mono_true_after _ _ _ _ Hm' ltac:(simpl; by rewrite E2)) as Ha.
    eapply Forall_impl; [exact Ha|]. intros y ->%negb_true_iff. apply andb_false_r.
  - specialize (IHr (Frame RIGHT x b l :: up)).
    destruct (avl_tree_find_fn_to cmp n r _) as [c|]; [by apply IHr|].
    apply Forall_app; split; [|constructor; [by rewrite E1|auto]].
    eapply Forall_impl; [exact (mono_false_before _ _ _ _ Hm E1)|]. simpl. by intros y ->.
Qed.

Lemma elements_swap_node c n :
  elements (avl_tree_swap_node c n) = c_before c ++ n :: c_after c.
Proof. exact (elements_tree_of (Cursor (c_left c) n (c_balance c) (c_right c) (c_parent c))). Qed.

(** ** Balance *)

Fixpoint height t : Z :=
  match t with
  | Null => 0
  | Node l _ _ r => 1 + Z.max (height l) (height r)
  end.

(** The AVL condition together with the meaning of the [balance] field. *)
Fixpoint balanced t : Prop :=
  match t with
  | Null => True
  | Node l _ b r =>
      balanced l /\ balanced r /\ b = height r - height l /\ -1 <= b <= 1
  end.

Lemma height_nonneg t : 0 <= height t.
Proof. induction t; simpl; lia. Qed.

Lemma height_0 t : height t = 0 -> t = Null.
Proof. destruct t as [|l ? ? r]; [done|]. simpl. pose proof (height_nonneg l). lia. Qed.

(** The debug check of the code decides [balanced] and computes [height]. *)
Lemma is_balanced_size_spec t :
  snd (avl_tree_is_balanced_size t) = height t /\
  (fst (avl_tree_is_balanced_size t) = true <-> balanced t).
Proof.
  induction t as [|l [IHl1 IHl2] x b r [IHr1 IHr2]]; [done|]. simpl.
  destruct (avl_tree_is_balanced_size l) as [r1 a], (avl_tree_is_balanced_size r) as [r2 c].
  simpl in *. subst a c. split.
  - repeat dif; simpl; lia.
  - repeat dif; simpl; rewrite ?andb_true_iff, ?Z.eqb_eq, IHl2, IHr2; intuition lia.
Qed.

Lemma do_balance_spec l x b r :
  balanced l -> balanced r -> b = height r - height l -> b = -2 \/ b = 2 ->
  let '(hc, n) := avl_tree_do_balance (Node l x b r) in
  balanced n /\ height n = height (Node l x b r) - (if hc then 1 else 0) /\
  (hc = false -> balance_of (if b <? 0 then l else r) = 0).
Proof.
  intros Hl Hr Hb [Hb'|Hb']; rewrite Hb' in *.
  - destruct l as [|ll lx lb lr]; simpl in *; [pose proof (height_nonneg r); lia|].
    destruct (lb =? 1) eqn:E1; breflect.
    + destruct lr as [|rl rx rb rr]; simpl in *.
      { pose proof (height_nonneg ll); lia. }
      repeat dif; simpl; split_and!; try lia; tauto.
    + repeat dif; simpl; destruct (lb =? 0) eqn:E0; breflect; simpl;
        split_and!; try lia; tauto.
  - destruct r as [|rl rx rb rr]; simpl in *; [pose proof (height_nonneg l); lia|].
    destruct (0 <=? rb) eqn:E1; breflect.
    + repeat dif; simpl; destruct (rb =? 0) eqn:E0; breflect; simpl;
        split_and!; try lia; tauto.
    + destruct rl as [|ql qx qb qr]; simpl in *.
      { pose proof (height_nonneg rr); lia. }
      repeat dif; simpl; split_and!; try lia; tauto.
Qed.

(** [path_ok h up]: the ancestors [up] are balanced around a subtree of
    height [h]. *)
Fixpoint path_ok (h : Z) up : Prop :=
  match up with
  | [] => True
  | f :: up' =>
      balanced (f_other f) /\
      f_balance f = match f_side f with
                    | LEFT => height (f_other f) - h
                    | RIGHT => h - height (f_other f)
                    end /\
      -1 <= f_balance f <= 1 /\
      path_ok (1 + Z.max h (height (f_other f))) up'
  end.

Lemma balanced_fill t up : balanced t -> path_ok (height t) up -> balanced (fill t up).
Proof.
  revert t. induction up as [|[[] y b o] up IH]; intros t Ht; simpl; [done|..];
    intros (H1 & H2 & H3 & H4); apply IH; simpl; try tauto; try lia.
  by rewrite Z.max_comm.
Qed.

Lemma path_ok_of_fill t up : balanced (fill t up) -> balanced t /\ path_ok (height t) up.
Proof.
  revert t. induction up as [|[[] y b o] up IH]; intros t; simpl; [done|..];
    intros H%IH; simpl in H; destruct H as [(?&?&?&?) ?]; split_and!; try tauto; try lia.
  by rewrite Z.max_comm.
Qed.

(** A subtree that grew by one: the new leaf, or a node whose balance is no
    longer even. *)
Definition grown (h : Z) t : Prop :=
  balanced t /\ height t = h + 1 /\ (h = 0 \/ balance_of t <> 0).

(** One iteration of the loop: [h] is the height the subtree had before the
    change and [1 + max h (height other)] the height its parent had. *)
Lemma balance_step_increased f t up h :
  grown h t -> 0 <= h -> path_ok h (f :: up) ->
  let '(hc, n) := balance_step f t true in
  let h' := 1 + Z.max h (height (f_other f)) in
  if hc then grown h' n else balanced n /\ height n = h'.
Proof.
  destruct f as [sd y b o]. intros (Ht & Hh & Hg) Hh0 (Ho & Hb & Hr & Hup).
  pose proof (height_nonneg o) as Hoh. unfold balance_step; simpl f_side in *; simpl f_balance in *.
  simpl f_other in *; simpl f_elt. unfold grown, fixup_link.
  destruct sd; cbn [f_side f_other f_elt f_balance].
  - destruct (Z.eqb_spec (b - 1) (-2)); cbn [orb].
    + pose proof (do_balance_spec t y (b - 1) o Ht Ho ltac:(lia) ltac:(lia)) as Hd.
      destruct (avl_tree_do_balance _) as [hc nd]. destruct Hd as (Hn & Hhn & Hc).
      split; [done|]. cbn [height] in Hhn. destruct hc; [lia|].
      specialize (Hc eq_refl). rewrite (proj2 (Z.ltb_lt (b - 1) 0)) in Hc by lia. lia.
    + destruct (Z.eqb_spec (b - 1) 2); [lia|].
      destruct (Z.leb_spec b 0); simpl; split_and!; try done; lia.
  - destruct (Z.eqb_spec (b + 1) (-2)); cbn [orb]; [lia|].
    destruct (Z.eqb_spec (b + 1) 2).
    + pose proof (do_balance_spec o y (b + 1) t Ho Ht ltac:(lia) ltac:(lia)) as Hd.
      destruct (avl_tree_do_balance _) as [hc nd]. destruct Hd as (Hn & Hhn & Hc).
      split; [done|]. cbn [height] in Hhn. destruct hc; [lia|].
      specialize (Hc eq_refl). rewrite (proj2 (Z.ltb_ge (b + 1) 0)) in Hc by lia. lia.
    + destruct (Z.leb_spec 0 b); simpl; split_and!; try done; lia.
Qed.

Lemma balance_step_decreased f t up h :
  balanced t -> height t = h - 1 -> path_ok h (f :: up) ->
  let '(hc, n) := balance_step f t false in
  let h' := 1 + Z.max h (height (f_other f)) in
  balanced n /\ height n = h' - (if hc then 1 else 0).
Proof.
  destruct f as [sd y b o]. intros Ht Hh (Ho & Hb & Hr & Hup).
  pose proof (height_nonneg o) as Hoh. unfold balance_step; simpl f_side in *; simpl f_balance in *.
  simpl f_other in *; simpl f_elt. unfold fixup_link.
  destruct sd; cbn [f_side f_other f_elt f_balance].
  - destruct (Z.eqb_spec (b + 1) (-2)); cbn [orb]; [lia|].
    destruct (Z.eqb_spec (b + 1) 2).
    + pose proof (do_balance_spec t y (b + 1) o Ht Ho ltac:(lia) ltac:(lia)) as Hd.
      destruct (avl_tree_do_balance _) as [hc nd]. destruct Hd as (Hn & Hhn & _).
      split; [done|]. cbn [height] in Hhn. destruct hc; lia.
    + destruct (Z.ltb_spec b 0); simpl; split_and!; try done; lia.
  - destruct (Z.eqb_spec (b - 1) (-2)); cbn [orb].
    + pose proof (do_balance_spec o y (b - 1) t Ho Ht ltac:(lia) ltac:(lia)) as Hd.
      destruct (avl_tree_do_balance _) as [hc nd]. destruct Hd as (Hn & Hhn & _).
      split; [done|]. cbn [height] in Hhn. destruct hc; lia.
    + destruct (Z.eqb_spec (b - 1) 2); [lia|].
      destruct (Z.ltb_spec 0 b); simpl; split_and!; try done; lia.
Qed.

Lemma balance_increased t up h :
  grown h t -> 0 <= h -> path_ok h up -> balanced (avl_tree_balance t up true).
Proof.
  revert t h. induction up as [|f up IH]; intros t h Hg Hh Hp; [by destruct Hg|].
  pose proof (balance_step_increased f t up h Hg Hh Hp) as H. simpl.
  destruct (balance_step f t true) as [[] n]; simpl in H.
  - eapply IH; [exact H|pose proof (height_nonneg (f_other f)); lia|by destruct Hp as (_&_&_&?)].
  - destruct H as [H1 H2]. apply balanced_fill; [done|]. rewrite H2. by destruct Hp as (_&_&_&?).
Qed.

Lemma balance_decreased t up h :
  balanced t -> height t = h - 1 -> path_ok h up -> balanced (avl_tree_balance t up false).
Proof.
  revert t h. induction up as [|f up IH]; intros t h Ht Hh Hp; [done|].
  pose proof (balance_step_decreased f t up h Ht Hh Hp) as H. simpl.
  destruct (balance_step f t false) as [[] n]; simpl in H; destruct H as [H1 H2].
  - eapply IH; [done|exact H2|by destruct Hp as (_&_&_&?)].
  - apply balanced_fill; [done|]. rewrite H2, Z.sub_0_r. by destruct Hp as (_&_&_&?).
Qed.

Lemma insert_unbalanced_path_ok cmp n t up :
  balanced t -> path_ok (height t) up -> path_ok 0 (avl_tree_insert_unbalanced cmp n t up).
Proof.
  revert up. induction t as [|l IHl x b r IHr]; intros up; simpl; [done|].
  intros (Hl & Hr & Hb & Hb') Hup. destruct (cmp n x); [apply IHl|apply IHr];
    simpl; split_and?; try done; try lia. by rewrite Z.max_comm.
Qed.

Lemma balanced_insert cmp t n : balanced t -> balanced (avl_tree_insert cmp t n).
Proof.
  intros Ht. unfold avl_tree_insert. destruct t as [|l x b r]; [simpl; lia|].
  apply (balance_increased _ _ 0); [unfold grown; simpl; lia|done|].
  by apply insert_unbalanced_path_ok.
Qed.

Lemma fill_app t up1 up2 : fill t (up1 ++ up2) = fill (fill t up1) up2.
Proof. revert t. induction up1 as [|f up1 IH]; intros t; simpl; [done|]. apply IH. Qed.

Lemma swap_with_next_path_ok c :
  balanced (tree_of c) ->
  let '(child, up) := swap_with_next c in
  balanced child /\ path_ok (1 + height child) up.
Proof.
  intros Hc. apply path_ok_of_fill in Hc as [Hb Hp].
  destruct c as [l x b r up]; cbn [c_left c_elt c_balance c_right c_parent] in *.
  assert (Hone : forall t, Z.max 0 (height t) = height t)
    by (intros t; pose proof (height_nonneg t); lia).
  unfold swap_with_next; cbn [c_left c_elt c_balance c_right c_parent].
  destruct l as [|ll lx lb lr]; [|destruct r as [|rl rx rb rr]].
  - simpl in Hb, Hp. rewrite Hone in Hp. tauto.
  - assert (E : height (Node (Node ll lx lb lr) x b Null) = 1 + height (Node ll lx lb lr)).
    { pose proof (height_nonneg (Node ll lx lb lr)). cbn [height] in *. lia. }
    rewrite E in Hp. split; [exact (proj1 Hb)|exact Hp].
  - destruct (leftmost_spec rl rx rb rr []) as (H1 & H2 & _). unfold tree_of in H1. simpl fill in H1 at 2.
    set (n := leftmost rl rx rb rr []) in *.
    assert (Hn : balanced (fill (Node (c_left n) (c_elt n) (c_balance n) (c_right n))
      (c_parent n ++ Frame RIGHT (c_elt n) b (Node ll lx lb lr) :: up))).
    { rewrite fill_app, H1. apply (balanced_fill (Node (Node ll lx lb lr) (c_elt n) b (Node rl rx rb rr)) up);
        [exact Hb|exact Hp]. }
    apply path_ok_of_fill in Hn as [Hb' Hp']. rewrite H2 in Hb', Hp'. simpl in Hb', Hp'.
    rewrite Hone in Hp'. tauto.
Qed.

Lemma balanced_delete c : balanced (tree_of c) -> balanced (avl_tree_delete c).
Proof.
  intros H%swap_with_next_path_ok. unfold avl_tree_delete.
  destruct (swap_with_next c) as [child up]. destruct H as [H1 H2].
  apply (balance_decreased _ _ (1 + height child)); [done|lia|done].
Qed.

(** ** Logarithmic height *)

Fixpoint size t : Z :=
  match t with
  | Null => 0
  | Node l _ _ r => 1 + size l + size r
  end.

Lemma size_elements t : size t = Z.of_nat (length (elements t)).
Proof. induction t; simpl; [done|]. rewrite length_app; simpl. lia. Qed.

Lemma size_height_nat (n : nat) t : balanced t -> Z.of_nat n <= height t -> 2 ^ (Z.of_nat n / 2) <= size t + 1.
Proof.
  revert t. induction n as [n IH] using lt_wf_ind. intros t Ht Hn.
  destruct n as [|[|n]].
  - change (1 <= size t + 1). rewrite size_elements. lia.
  - change (1 <= size t + 1). rewrite size_elements. lia.
  - destruct t as [|l x b r]; [simpl in Hn; lia|]. simpl in Ht, Hn. destruct Ht as (Hl & Hr & Hb & Hb').
    pose proof (IH n ltac:(lia) l Hl ltac:(lia)) as H1.
    pose proof (IH n ltac:(lia) r Hr ltac:(lia)) as H2.
    replace (Z.of_nat (S (S n)) / 2) with (Z.of_nat n / 2 + 1)
      by (replace (Z.of_nat (S (S n))) with (Z.of_nat n + 1 * 2) by lia; by rewrite Z.div_add).
    rewrite Z.pow_add_r by (try apply Z.div_pos; lia). simpl size. lia.
Qed.

(** ** Claims *)

Lemma debug_balanced t : debug_avl_tree_is_balanced t = true <-> balanced t.
Proof. apply is_balanced_size_spec. Qed.

(** C6: insertion keeps the balance fields correct and the tree balanced, and
    puts the node in front of the first element that compares greater or equal;
    nothing else moves. *)
Theorem avl_tree_insert_correct (cmp : A -> A -> bool) t n :
  debug_avl_tree_is_balanced t = true -> mono (cmp n) (elements t) ->
  debug_avl_tree_is_balanced (avl_tree_insert cmp t n) = true /\
  elements (avl_tree_insert cmp t n) = seq_insert (cmp n) n (elements t).
Proof.
  rewrite !debug_balanced. intros Hb Hm. split; [by apply balanced_insert|by apply elements_insert].
Qed.

(** C10: deletion of the node under a cursor keeps the balance fields correct and
    the tree balanced and takes exactly that node out of the sequence. *)
Theorem avl_tree_delete_correct c :
  debug_avl_tree_is_balanced (tree_of c) = true ->
  debug_avl_tree_is_balanced (avl_tree_delete c) = true /\
  exists xs ys, elements (tree_of c) = xs ++ c_elt c :: ys /\ elements (avl_tree_delete c) = xs ++ ys.
Proof.
  rewrite !debug_balanced. intros Hb. split; [by apply balanced_delete|].
  exists (c_before c), (c_after c). by rewrite elements_tree_of, elements_delete.
Qed.

(** C12: [avl_tree_lower_bound_fn] returns the first element for which the
    predicate holds, and from there [avl_tree_next] and [avl_tree_prev] reach
    its neighbours in the sequence. *)
Theorem avl_tree_search_correct P t :
  mono P (elements t) ->
  match avl_tree_lower_bound_fn P t with
  | None => Forall (fun y => P y = false) (elements t)
  | Some c => exists xs ys, elements t = xs ++ c_elt c :: ys /\
      Forall (fun y => P y = false) xs /\ P (c_elt c) = true /\
      c_elt <$> avl_tree_next c = head ys /\ c_elt <$> avl_tree_prev c = last xs
  end.
Proof.
  intros Hm. pose proof (lower_bound_fn_spec P t Hm) as H.
  destruct (avl_tree_lower_bound_fn P t) as [c|]; [|done]. destruct H as (<- & H1 & H2).
  exists (c_before c), (c_after c). split_and!; [apply elements_tree_of|done|done| |].
  - pose proof (avl_tree_next_spec c) as H. destruct (avl_tree_next c) as [c'|]; simpl.
    + destruct H as (_ & _ & <-). done.
    + by rewrite H.
  - pose proof (avl_tree_prev_spec c) as H. destruct (avl_tree_prev c) as [c'|]; simpl.
    + destruct H as (_ & _ & <-). by rewrite last_snoc.
    + by rewrite H.
Qed.

(** C13: a tree that passes the debug check has logarithmic height: searches
    follow at most [2 * log2 (n + 1) + 1] links. *)
Theorem avl_tree_height_logarithmic t :
  debug_avl_tree_is_balanced t = true ->
  height t <= 2 * Z.log2 (Z.of_nat (length (elements t)) + 1) + 1.
Proof.
  rewrite debug_balanced. intros Hb. rewrite <- size_elements. pose proof (height_nonneg t) as H0.
  pose proof (size_height_nat (Z.to_nat (height t)) t Hb ltac:(lia)) as H. rewrite Z2Nat.id in H by lia.
  apply Z.log2_le_mono in H. rewrite Z.log2_pow2 in H by (apply Z.div_pos; lia).
  pose proof (Z.div_mod (height t) 2 ltac:(lia)). pose proof (Z.mod_pos_bound (height t) 2 ltac:(lia)). lia.
Qed.

End facts.

(** ** Examples *)

Definition Zcmp (a b : Z) : bool := a <=? b.
Definition tree_ex : avl_tree_node Z :=
  foldl (avl_tree_insert Zcmp) Null [5; 3; 8; 1; 4; 7; 9; 2].
Definition cursor_ex : cursor Z := default (Cursor Null 0 0 Null []) (avl_tree_find Zcmp tree_ex 3).

Lemma mono_ex n : mono (Zcmp n) (elements tree_ex).
Proof.
  replace (elements tree_ex) with [1; 2; 3; 4; 5; 7; 8; 9] by (vm_compute; reflexivity). unfold mono, Zcmp.
  repeat first [apply SSorted_nil | apply SSorted_cons | apply Forall_nil_2 | apply Forall_cons_2];
    rewrite !Z.leb_le; lia.
Qed.

Lemma avl_tree_insert_witness :
  debug_avl_tree_is_balanced (avl_tree_insert Zcmp tree_ex 6) = true /\
  elements (avl_tree_insert Zcmp tree_ex 6) = [1; 2; 3; 4; 5; 6; 7; 8; 9].
Proof. apply (avl_tree_insert_correct Zcmp tree_ex 6); [reflexivity|apply mono_ex]. Defined.

Lemma avl_tree_delete_witness :
  debug_avl_tree_is_balanced (avl_tree_delete cursor_ex) = true /\
  exists xs ys, elements (tree_of cursor_ex) = xs ++ c_elt cursor_ex :: ys /\
                elements (avl_tree_delete cursor_ex) = xs ++ ys.
Proof. apply (avl_tree_delete_correct cursor_ex). reflexivity. Defined.

Lemma avl_tree_search_witness :
  match avl_tree_lower_bound_fn (Zcmp 6) tree_ex with
  | None => Forall (fun y => Zcmp 6 y = false) (elements tree_ex)
  | Some c => exists xs ys, elements tree_ex = xs ++ c_elt c :: ys /\
      Forall (fun y => Zcmp 6 y = false) xs /\ Zcmp 6 (c_elt c) = true /\
      c_elt <$> avl_tree_next c = head ys /\ c_elt <$> avl_tree_prev c = last xs
  end.
Proof. apply (avl_tree_search_correct (Zcmp 6) tree_ex), mono_ex. Defined.

Lemma avl_tree_height_witness :
  height tree_ex <= 2 * Z.log2 (Z.of_nat (length (elements tree_ex)) + 1) + 1.
Proof. apply (avl_tree_height_logarithmic tree_ex). reflexivity. Defined.
