(* ===== verification/Memmgr.v ===== *)
(** * The fixed-size object allocator of [common/include/memmgr.h]

    A memory manager hands out objects of one type from large areas obtained
    from [system_malloc] and recycles freed objects.  A pointer is modelled
    as a pair (block, index): the block is one allocation made by
    [system_malloc], the index counts objects in the [objs] array of the area
    stored in it.  The build without ASan is modelled; the parts between
    [SYSTEM_LOCK] and [SYSTEM_UNLOCK] are atomic. *)

From S2P Require Import Prelude.

(** ** Data *)

Definition obj_ptr : Type := Z * Z.

Record mem_area := MemArea {
  area_block : Z;
  area_size : Z
}.

Record mem_mgr := MemMgr {
  area_list : list mem_area;  (* [LISTP_ADD] puts new areas in front *)
  free_list : list obj_ptr;
  mgr_size : Z;
  mgr_obj : obj_ptr;
  mgr_obj_top : obj_ptr;
  active_area : Z             (* block of the active area *)
}.

Definition set_free_list (mgr : mem_mgr) (fl : list obj_ptr) : mem_mgr :=
  MemMgr (area_list mgr) fl (mgr_size mgr) (mgr_obj mgr) (mgr_obj_top mgr) (active_area mgr).

Definition set_area_list (mgr : mem_mgr) (al : list mem_area) : mem_mgr :=
  MemMgr al (free_list mgr) (mgr_size mgr) (mgr_obj mgr) (mgr_obj_top mgr) (active_area mgr).

Definition set_mgr_obj (mgr : mem_mgr) (o : obj_ptr) : mem_mgr :=
  MemMgr (area_list mgr) (free_list mgr) (mgr_size mgr) o (mgr_obj_top mgr) (active_area mgr).

(** ** Sizes of areas *)

Section sizes.
Variables (sizeof_obj sizeof_area sizeof_mgr alignment : Z).

Definition SUM_OBJ_SIZE (size : Z) : Z := sizeof_obj * size.
Definition MIN_MEM_SIZE : Z := sizeof_mgr + sizeof_area.
Definition MAX_MEM_SIZE (size : Z) : Z := MIN_MEM_SIZE + SUM_OBJ_SIZE size.

Definition size_align_down (size : Z) : Z :=
  let s := MAX_MEM_SIZE size - sizeof_mgr in
  let p := s - ALIGN_DOWN_POW2 s alignment in
  let o := SUM_OBJ_SIZE 1 in
  size - p / o - (if p mod o =? 0 then 0 else 1).

Definition size_align_up (size : Z) : Z :=
  let s := MAX_MEM_SIZE size - sizeof_mgr in
  let p := ALIGN_UP_POW2 s alignment - s in
  let o := SUM_OBJ_SIZE 1 in
  size + p / o.

Definition init_align_down (size : Z) : Z :=
  let s := MAX_MEM_SIZE size in
  let p := s - ALIGN_DOWN_POW2 s alignment in
  let o := SUM_OBJ_SIZE 1 in
  size - p / o - (if p mod o =? 0 then 0 else 1).

Definition init_align_up (size : Z) : Z :=
  let s := MAX_MEM_SIZE size in
  let p := ALIGN_UP_POW2 s alignment - s in
  let o := SUM_OBJ_SIZE 1 in
  size + p / o.

End sizes.

(** ** Operations *)

Definition set_free_mem_area (area : mem_area) (mgr : mem_mgr) : mem_mgr :=
  MemMgr (area_list mgr) (free_list mgr) (mgr_size mgr + area_size area)
         (area_block area, 0) (area_block area, area_size area) (area_block area).

(** The manager and its first area live in the same allocation [mem]. *)
Definition create_mem_mgr_in_place (mem size : Z) : mem_mgr :=
  let area := MemArea mem size in
  set_free_mem_area area (MemMgr [area] [] 0 (mem, 0) (mem, 0) mem).

(** [mem] is the result of [system_malloc]. *)
Definition create_mem_mgr (mem : option Z) (size : Z) : option mem_mgr :=
  match mem with
  | None => None
  | Some m => Some (create_mem_mgr_in_place m size)
  end.

Definition enlarge_mem_mgr (mem : option Z) (size : Z) (mgr : mem_mgr) : option mem_mgr :=
  match mem with
  | None => None
  | Some m => Some (set_area_list mgr (MemArea m size :: area_list mgr))
  end.

(** [LISTP_PREV_ENTRY(active, &mgr->area_list, __list)]: the area in front of
    the active one. *)
Fixpoint prev_area (active : Z) (l : list mem_area) : option mem_area :=
  match l with
  | a :: ((b :: _) as l') => if area_block b =? active then Some a else prev_area active l'
  | _ => None
  end.

(** The [alloc:] part; the assertion bounds [mgr->obj]. *)
Definition alloc_from_mgr : SM mem_mgr (option obj_ptr) :=
  mgr ← sm_get;
  mobj ← match free_list mgr with
         | mobj :: fl => sm_put (set_free_list mgr fl);; mret mobj
         | [] => let mobj := mgr_obj mgr in
                 sm_put (set_mgr_obj mgr (fst mobj, snd mobj + 1));; mret mobj
         end;
  mgr ← sm_get;
  sm_assert (snd (mgr_obj mgr) <=? snd (mgr_obj_top mgr));;
  mret (Some mobj).

(** The part up to [SYSTEM_UNLOCK()]: an object, or [inr mgr_size] if the manager
    has to be enlarged. *)
Definition get_mem_obj_locked1 : SM mem_mgr (option obj_ptr + Z) :=
  mgr ← sm_get;
  if decide (mgr_obj mgr = mgr_obj_top mgr /\ free_list mgr = []) then
    match prev_area (active_area mgr) (area_list mgr) with
    | Some area => sm_put (set_free_mem_area area mgr);; o ← alloc_from_mgr; mret (inl o)
    | None => mret (inr (mgr_size mgr))
    end
  else o ← alloc_from_mgr; mret (inl o).

(** The part after [system_malloc] returned the block [m]; other threads may
    have used the manager in between. *)
Definition get_mem_obj_locked2 (m size old_size : Z) : SM mem_mgr (option obj_ptr) :=
  mgr ← sm_get;
  let area := MemArea m size in
  let mgr' := set_area_list mgr (area :: area_list mgr) in
  sm_put (if old_size =? mgr_size mgr then set_free_mem_area area mgr' else mgr');;
  alloc_from_mgr.

(** [mem] is what [system_malloc] would return if it is called. *)
Definition get_mem_obj_from_mgr_enlarge (size : Z) (mem : option Z)
    : SM mem_mgr (option obj_ptr) :=
  r ← get_mem_obj_locked1;
  match r with
  | inl o => mret o
  | inr old_size =>
      if size =? 0 then mret None
      else match mem with
           | None => mret None
           | Some m => get_mem_obj_locked2 m size old_size
           end
  end.

Definition get_mem_obj_from_mgr : SM mem_mgr (option obj_ptr) :=
  get_mem_obj_from_mgr_enlarge 0 None.

(** [migrated] is [memory_migrated(obj)]: objects that came with a checkpoint
    are not recycled. *)
Definition free_mem_obj_to_mgr (migrated : obj_ptr -> bool) (obj : obj_ptr) (mgr : mem_mgr)
    : mem_mgr :=
  if migrated obj then mgr else set_free_list mgr (free_list mgr ++ [obj]).

(** ** Invariant *)

(** The areas from the active one on have been handed out, the active one up
    to [mgr->obj]. *)
Definition handed_out (mgr : mem_mgr) (o : obj_ptr) : Prop :=
  exists newer a older,
    area_list mgr = newer ++ a :: older /\ area_block a = active_area mgr /\
    ((fst o = area_block a /\ 0 <= snd o < snd (mgr_obj mgr)) \/
     exists a', a' ∈ older /\ fst o = area_block a' /\ 0 <= snd o < area_size a').

(** [live] are the objects currently held by the users of the manager. *)
Record mgr_ok (mgr : mem_mgr) (live : list obj_ptr) : Prop := {
  mgr_ok_blocks : NoDup (area_block <$> area_list mgr);
  mgr_ok_sizes : Forall (fun a => 0 < area_size a) (area_list mgr);
  mgr_ok_active : exists newer a older,
    area_list mgr = newer ++ a :: older /\ area_block a = active_area mgr /\
    fst (mgr_obj mgr) = area_block a /\ 0 <= snd (mgr_obj mgr) <= area_size a /\
    mgr_obj_top mgr = (area_block a, area_size a);
  mgr_ok_nodup : NoDup (free_list mgr ++ live);
  mgr_ok_handed : forall o, o ∈ free_list mgr ++ live -> handed_out mgr o
}.

Lemma prev_area_spec active newer a older :
  NoDup (area_block <$> newer ++ a :: older) -> area_block a = active ->
  prev_area active (newer ++ a :: older) = last newer.
Proof.
  intros Hnd Ha. induction newer as [|x newer IH]; simpl.
  - destruct older as [|b older]; [done|]. simpl in Hnd.
    apply NoDup_cons in Hnd as [Hna Hnd].
    destruct (Z.eqb_spec (area_block b) active) as [E|E]; [set_solver|].
    apply NoDup_cons in Hnd as [Hb Hnd].
    assert (Hno : Forall (fun x => area_block x <> active) older).
    { apply Forall_forall. intros x Hx Hx'. apply Hna. subst active. rewrite <- Hx'.
      apply elem_of_cons; right. by apply list_elem_of_fmap_2. }
    clear Hna Hnd Hb. revert b E. induction Hno as [|c l Hc _ IHl]; intros b E; [done|].
    cbn [prev_area]. rewrite (proj2 (Z.eqb_neq _ _) Hc). by apply IHl.
  - simpl in Hnd. rewrite NoDup_cons in Hnd. destruct Hnd as [Hx Hnd].
    specialize (IH Hnd). destruct newer as [|y newer]; simpl.
    + by rewrite Ha, Z.eqb_refl.
    + destruct (Z.eqb_spec (area_block y) active) as [E|E].
      * exfalso. simpl in Hnd. apply NoDup_cons in Hnd as [Hy _]. apply Hy.
        rewrite E, <- Ha. apply list_elem_of_fmap_2. set_solver.
      * simpl in IH. exact IH.
Qed.

(** ** Allocation *)

(** The active area and the place of [mgr->obj] determine what was handed
    out: a decomposition of [area_list] at the active block is unique. *)
Lemma area_split_unique l newer1 a1 older1 newer2 a2 older2 :
  NoDup (area_block <$> l) ->
  l = newer1 ++ a1 :: older1 -> l = newer2 ++ a2 :: older2 ->
  area_block a1 = area_block a2 -> newer1 = newer2 /\ a1 = a2 /\ older1 = older2.
Proof.
  intros Hnd E1 E2 Hb. subst l. revert newer2 Hnd E2.
  induction newer1 as [|x n1 IH]; intros [|y n2] Hnd E2; simpl in *; simplify_eq; [done|..].
  - exfalso. apply NoDup_cons in Hnd as [Hna _]. apply Hna. rewrite Hb.
    apply list_elem_of_fmap_2. set_solver.
  - exfalso. apply NoDup_cons in Hnd as [Hna _]. apply Hna. rewrite <- Hb.
    apply list_elem_of_fmap_2. set_solver.
  - apply NoDup_cons in Hnd as [_ Hnd].
    destruct (IH n2 Hnd) as (-> & -> & ->); [done|]. done.
Qed.

Lemma alloc_from_mgr_spec mgr live :
  mgr_ok mgr live ->
  (free_list mgr = [] -> snd (mgr_obj mgr) < snd (mgr_obj_top mgr)) ->
  wp alloc_from_mgr (fun r mgr' =>
    exists o, r = Some o /\ o ∉ live /\ mgr_ok mgr' (o :: live) /\
              area_list mgr' = area_list mgr) mgr.
Proof.
  intros [Hb Hs (newer & a & older & Hal & Ha & Ho & Hi & Ht) Hnd Hh] Hroom.
  unfold alloc_from_mgr. wp_steps. destruct (free_list mgr) as [|o fl] eqn:Hfl; wp_steps.
  - specialize (Hroom eq_refl). rewrite Ht in Hroom; simpl in Hroom.
    apply wp_assert; [simpl; rewrite Ht; simpl; apply Z.leb_le; lia|]. wp_steps.
    exists (mgr_obj mgr).
    assert (Hnew : mgr_obj mgr ∉ live).
    { intros Hin. destruct (Hh _ Hin) as (n1 & a1 & o1 & E1 & Ha1 & [[_ ?]|(a' & Ha' & Hf & _)]);
        [lia|].
      destruct (area_split_unique _ _ _ _ _ _ _ Hb Hal E1 ltac:(congruence)) as (-> & -> & ->).
      rewrite Hal in Hb. rewrite fmap_app, fmap_cons in Hb. apply NoDup_app in Hb as (_ & _ & Hb).
      apply NoDup_cons in Hb as [Hb _]. apply Hb. rewrite <- Ho, Hf. by apply list_elem_of_fmap_2. }
    split_and!; [done|done| |done]. constructor; simpl; try done.
    + exists newer, a, older. rewrite Ho. split_and!; try done; lia.
    + rewrite Hfl. simpl. constructor; [done|exact Hnd].
    + rewrite Hfl. simpl. intros o' [->|Hin]%elem_of_cons.
      * exists newer, a, older. simpl. split_and!; try done. left. split; [done|]. lia.
      * destruct (Hh o' Hin) as (n1 & a1 & o1 & E1 & Ha1 & Hc).
        exists n1, a1, o1. simpl. split_and!; try done. destruct Hc as [[? ?]|Hc]; [left; split; [done|lia]|by right].
  - apply wp_assert; [simpl; rewrite Ht; simpl; apply Z.leb_le; lia|]. wp_steps.
    exists o. assert (Hperm : fl ++ o :: live ≡ₚ o :: fl ++ live) by by rewrite Permutation_middle.
    split_and!; [done| | |done].
    + simpl in Hnd. apply NoDup_cons in Hnd as [Hnd _]. set_solver.
    + constructor; simpl; try done.
      * by exists newer, a, older.
      * by rewrite Hperm.
      * intros o'. rewrite Hperm. apply Hh.
Qed.

(** Activating an area in front of the active one; what is left of the areas in
    between is not handed out any more. *)
Lemma set_free_mem_area_ok mgr live newer area rest :
  mgr_ok mgr live -> area_list mgr = newer ++ area :: rest ->
  active_area mgr ∈ (area_block <$> rest) -> mgr_ok (set_free_mem_area area mgr) live.
Proof.
  intros [Hb Hs (n1 & a1 & o1 & Hal & Ha & Ho & Hi & Ht) Hnd Hh] Hal2 (a & Ha2 & Hin)%list_elem_of_fmap.
  assert (Hsz : 0 < area_size area) by (rewrite Forall_forall in Hs; apply Hs; rewrite Hal2; set_solver).
  apply list_elem_of_split in Hin as (mid & older & ->).
  assert (Hal3 : area_list mgr = (newer ++ area :: mid) ++ a :: older) by by rewrite <- (assoc_L (++)).
  destruct (area_split_unique _ _ _ _ _ _ _ Hb Hal Hal3 ltac:(congruence)) as (-> & -> & ->).
  constructor; simpl; try done.
  - exists newer, area, (mid ++ a :: older). rewrite Hal2. split_and!; simpl; try done; lia.
  - intros o Hin. destruct (Hh o Hin) as (n2 & a2 & o2 & E2 & Ha3 & Hc).
    destruct (area_split_unique _ _ _ _ _ _ _ Hb Hal3 E2 ltac:(congruence)) as (<- & <- & <-).
    exists newer, area, (mid ++ a :: older). simpl. split_and!; [done..|]. right.
    destruct Hc as [[Hf Hr]|(a' & Ha' & Hf & Hr)]; [exists a|exists a']; (split_and!; [set_solver|done|lia..]).
Qed.

Lemma mgr_ok_grow mgr live m size :
  mgr_ok mgr live -> 0 < size -> m ∉ (area_block <$> area_list mgr) ->
  mgr_ok (set_area_list mgr (MemArea m size :: area_list mgr)) live.
Proof.
  intros [Hb Hs (n1 & a1 & o1 & Hal & Ha & Ho & Hi & Ht) Hnd Hh] Hsz Hm.
  constructor; simpl; try done.
  - by constructor.
  - by constructor.
  - exists (MemArea m size :: n1), a1, o1. rewrite Hal. done.
  - intros o Hin. destruct (Hh o Hin) as (n2 & a2 & o2 & E2 & Ha2 & Hc).
    exists (MemArea m size :: n2), a2, o2. simpl. by rewrite E2.
Qed.

Lemma activate_new_ok mgr live m size :
  mgr_ok mgr live -> 0 < size -> m ∉ (area_block <$> area_list mgr) ->
  mgr_ok (set_free_mem_area (MemArea m size) (set_area_list mgr (MemArea m size :: area_list mgr))) live.
Proof.
  intros Hok Hsz Hm. apply (set_free_mem_area_ok _ live [] (MemArea m size) (area_list mgr)); [by apply mgr_ok_grow|done|].
  destruct Hok as [_ _ (n & a & o & Hal & Ha & _) _ _]. simpl. rewrite <- Ha, Hal. set_solver.
Qed.

(** No free object, and no unused one in the active area. *)
Definition exhausted (mgr : mem_mgr) : Prop := free_list mgr = [] /\ mgr_obj mgr = mgr_obj_top mgr.

Lemma not_exhausted_room mgr live :
  mgr_ok mgr live -> ~ exhausted mgr -> free_list mgr = [] -> snd (mgr_obj mgr) < snd (mgr_obj_top mgr).
Proof.
  intros [_ _ (n & a & o & _ & _ & Ho & Hi & Ht) _ _] Hd Hfl. rewrite Ht. simpl.
  assert (snd (mgr_obj mgr) <> area_size a); [|lia]. intros Heq. apply Hd. split; [done|].
  rewrite Ht. by destruct (mgr_obj mgr); simpl in *; subst.
Qed.

(** The second critical section, in whatever state the other threads left the
    manager. *)
Lemma get_mem_obj_locked2_spec mgr live m size old_size :
  mgr_ok mgr live -> 0 < size -> m ∉ (area_block <$> area_list mgr) ->
  wp_or (get_mem_obj_locked2 m size old_size) (fun r mgr' =>
      exists o, r = Some o /\ o ∉ live /\ mgr_ok mgr' (o :: live) /\
        area_list mgr' = MemArea m size :: area_list mgr)
    (old_size <> mgr_size mgr /\ exhausted mgr) mgr.
Proof.
  intros Hok Hsz Hm. apply wp_or_bind, wp_get, wp_or_bind, wp_put. destruct (Z.eqb_spec old_size (mgr_size mgr)).
  - apply wp_or_wp. eapply wp_mono; [apply (alloc_from_mgr_spec _ live); [by apply activate_new_ok|]|done].
    intros _. simpl. lia.
  - pose proof (mgr_ok_grow mgr live m size Hok Hsz Hm) as Hok1.
    destruct (decide (mgr_obj mgr = mgr_obj_top mgr)) as [Hfull|Hfull].
    2:{ apply wp_or_wp. eapply wp_mono; [apply (alloc_from_mgr_spec _ live Hok1)|done].
        apply (not_exhausted_room _ live Hok1). intros []; done. }
    destruct (decide (free_list mgr = [])) as [Hfl|Hfl].
    2:{ apply wp_or_wp. by eapply wp_mono; [apply (alloc_from_mgr_spec _ live Hok1)|]. }
    unfold wp_or, alloc_from_mgr, mbind, SM_bind, sm_get. simpl. rewrite Hfl. simpl. rewrite Hfull.
    unfold sm_assert. rewrite (proj2 (Z.leb_gt _ _)) by lia. done.
Qed.

(** Distinct objects for distinct users.  The malloc result [mem] is only
    required to be a fresh block. *)
Lemma get_mem_obj_enlarge_spec mgr live size mem :
  mgr_ok mgr live -> 0 <= size ->
  (forall m, mem = Some m -> m ∉ (area_block <$> area_list mgr)) ->
  wp (get_mem_obj_from_mgr_enlarge size mem) (fun r mgr' =>
    match r with
    | Some o => o ∉ live /\ mgr_ok mgr' (o :: live) /\
                (area_list mgr' = area_list mgr \/
                 exists m, mem = Some m /\ area_list mgr' = MemArea m size :: area_list mgr)
    | None => mgr' = mgr /\ (size = 0 \/ mem = None) /\ free_list mgr = [] /\
              mgr_obj mgr = mgr_obj_top mgr /\ prev_area (active_area mgr) (area_list mgr) = None
    end) mgr.
Proof.
  intros Hok Hsz Hm. unfold get_mem_obj_from_mgr_enlarge, get_mem_obj_locked1. wp_steps.
  case_decide as Hd.
  2:{ apply wp_bind. eapply wp_mono.
      - apply alloc_from_mgr_spec; [exact Hok|]. intros Hfl.
        destruct Hok as [_ _ (n & a & o & _ & _ & Ho & Hi & Ht) _ _].
        rewrite Ht. simpl. assert (snd (mgr_obj mgr) <> area_size a); [|lia].
        intros E. apply Hd. split; [|done]. rewrite Ht. by destruct (mgr_obj mgr); simpl in *; subst.
      - intros r mgr' (o & -> & ? & ? & ?). wp_steps. auto. }
  destruct Hd as [Hfull Hfl].
  pose proof Hok as [Hb Hs (newer & a & older & Hal & Ha & Ho & Hi & Ht) Hnd Hh].
  destruct (prev_area (active_area mgr) (area_list mgr)) as [area|] eqn:Hprev; wp_steps.
  - rewrite Hal, prev_area_spec in Hprev by (rewrite <- ?Hal; done).
    destruct (proj1 (last_Some _ _) Hprev) as [newer' ->].
    assert (Hok' : mgr_ok (set_free_mem_area area mgr) live).
    { apply (set_free_mem_area_ok mgr live newer' area (a :: older) Hok); [by rewrite Hal, <- (assoc_L (++))|].
      rewrite <- Ha. set_solver. }
    eapply wp_mono; [apply (alloc_from_mgr_spec _ live Hok')|].
    + intros _. simpl. rewrite Forall_forall in Hs. apply Hs. rewrite Hal. set_solver.
    + intros r mgr' (o & -> & ? & ? & ?). wp_steps. auto.
  - destruct (Z.eqb_spec size 0); wp_steps; [split_and!; auto|].
    destruct mem as [m|]; [|by wp_steps; split_and!; auto]. unfold get_mem_obj_locked2. wp_steps.
    rewrite Z.eqb_refl.
    pose proof (activate_new_ok mgr live m size Hok ltac:(lia) (Hm m eq_refl)) as Hok2.
    eapply wp_mono; [apply (alloc_from_mgr_spec _ live Hok2)|].
    + intros _. simpl. lia.
    + intros r mgr' (o & -> & ? & ? & ?). split_and!; auto. right. eauto.
Qed.

Lemma mgr_ok_perm mgr live live' : live ≡ₚ live' -> mgr_ok mgr live -> mgr_ok mgr live'.
Proof.
  intros Hp [Hb Hs Ha Hnd Hh]. constructor; try done.
  - by rewrite <- Hp.
  - intros o. rewrite <- Hp. apply Hh.
Qed.

(** Freeing gives the object back; a migrated one is forgotten. *)
Lemma free_mem_obj_ok migrated mgr p live :
  mgr_ok mgr (p :: live) -> mgr_ok (free_mem_obj_to_mgr migrated p mgr) live.
Proof.
  intros [Hb Hs Ha Hnd Hh].
  assert (Hperm : free_list mgr ++ p :: live ≡ₚ (free_list mgr ++ [p]) ++ live)
    by by rewrite <- (assoc_L (++)).
  unfold free_mem_obj_to_mgr. destruct (migrated p); constructor; simpl; try done.
  - rewrite <- Permutation_middle in Hnd. by apply NoDup_cons in Hnd as [_ ?].
  - intros o Ho. apply Hh. set_solver.
  - by rewrite <- Hperm.
  - intros o. rewrite <- Hperm. apply Hh.
Qed.

(** [enlarge_mem_mgr] followed by [get_mem_obj_from_mgr] cannot fail. *)
Lemma get_mem_obj_after_enlarge mgr live m size mgr1 :
  mgr_ok mgr live -> 0 < size -> m ∉ (area_block <$> area_list mgr) ->
  enlarge_mem_mgr (Some m) size mgr = Some mgr1 ->
  wp get_mem_obj_from_mgr (fun r mgr' => exists o, r = Some o /\ o ∉ live /\ mgr_ok mgr' (o :: live)
       /\ area_list mgr' = area_list mgr1) mgr1.
Proof.
  intros Hok Hsz Hm [= <-]. pose proof (mgr_ok_grow mgr live m size Hok Hsz Hm) as Hok1.
  eapply wp_mono; [apply (get_mem_obj_enlarge_spec _ live 0 None Hok1); [done|by intros ? [=]]|].
  intros [o|] mgr'; [intros (? & ? & [?|(? & [=] & _)]); eauto|].
  intros (_ & _ & _ & Hfull & Hp). exfalso. cbn [set_area_list area_list active_area] in Hp.
  destruct Hok as [Hb _ (newer & a & older & Hal & Ha & _) _ _].
  rewrite Hal in Hp. change (MemArea m size :: newer ++ a :: older) with ((MemArea m size :: newer) ++ a :: older) in Hp.
  rewrite prev_area_spec in Hp; [by apply last_None in Hp| |done].
  simpl. rewrite <- Hal. by constructor.
Qed.

(** ** Claims *)

(** C40: an object that [get_mem_obj_from_mgr_enlarge] hands out is not in use and
    the manager stays consistent, whether the object is recycled, comes from the
    active area, from an area added earlier, or from a new area of [size] objects;
    it returns NULL only when every area is used up and the manager may not grow
    ([size = 0]) or [system_malloc] fails.  The same holds for the critical
    section after [system_malloc] in whatever state other threads left the
    manager, except that its assertion fails when the size changed and the
    manager is used up again.  Giving objects back keeps the free objects and the
    objects in use disjoint. *)
Theorem get_and_free_mem_obj_correct mgr live size mem :
  mgr_ok mgr live -> 0 <= size -> (forall m, mem = Some m -> m ∉ (area_block <$> area_list mgr)) ->
  wp (get_mem_obj_from_mgr_enlarge size mem) (fun r mgr' =>
    match r with
    | Some o => o ∉ live /\ mgr_ok mgr' (o :: live)
    | None => mgr' = mgr /\ (size = 0 \/ mem = None) /\ exhausted mgr /\
              prev_area (active_area mgr) (area_list mgr) = None
    end) mgr /\
  (forall m old_size, mem = Some m -> 0 < size ->
    wp_or (get_mem_obj_locked2 m size old_size) (fun r mgr' =>
        exists o, r = Some o /\ o ∉ live /\ mgr_ok mgr' (o :: live))
      (old_size <> mgr_size mgr /\ exhausted mgr) mgr) /\
  forall migrated o live', live ≡ₚ o :: live' -> mgr_ok (free_mem_obj_to_mgr migrated o mgr) live'.
Proof.
  intros Hok Hsz Hm. split_and!.
  - eapply wp_mono; [by apply (get_mem_obj_enlarge_spec mgr live size mem Hok)|].
    intros [o|] mgr'; [tauto|]. intros (-> & ? & ? & ? & ?). done.
  - intros m old_size -> Hpos. pose proof (get_mem_obj_locked2_spec mgr live m size old_size Hok Hpos (Hm m eq_refl)) as H.
    unfold wp_or in *. destruct (get_mem_obj_locked2 m size old_size mgr) as [[r mgr']|]; [|done].
    destruct H as (o & ? & ? & ? & _). eauto.
  - intros migrated o live' Hp. apply free_mem_obj_ok. by eapply mgr_ok_perm.
Qed.

(** Two threads that find the manager exhausted can break it: when the area
    that the second thread added (here of one object) is used up before the first
    one continues, the first one sees a changed size, does not activate its own
    area, and steps over the end of the active one. *)
Theorem concurrent_enlarge_aborts mgr m1 m2 size :
  mgr_obj mgr = mgr_obj_top mgr -> free_list mgr = [] ->
  prev_area (active_area mgr) (area_list mgr) = None ->
  exists old_size mgr1,
    get_mem_obj_locked1 mgr = Some (inr old_size, mgr) /\
    get_mem_obj_from_mgr_enlarge 1 (Some m1) mgr = Some (Some (m1, 0), mgr1) /\
    get_mem_obj_locked2 m2 size old_size mgr1 = None.
Proof.
  intros Hfull Hfl Hprev.
  assert (H1 : get_mem_obj_locked1 mgr = Some (inr (mgr_size mgr), mgr)).
  { unfold get_mem_obj_locked1, mbind, SM_bind, sm_get. by rewrite decide_True, Hprev. }
  eexists (mgr_size mgr), _. split_and!; [done| |].
  - unfold get_mem_obj_from_mgr_enlarge, mbind, SM_bind. rewrite H1. simpl.
    unfold get_mem_obj_locked2, mbind, SM_bind, sm_get, sm_put. rewrite Z.eqb_refl.
    unfold alloc_from_mgr, mbind, SM_bind, sm_get. simpl. rewrite Hfl. reflexivity.
  - unfold get_mem_obj_locked2, mbind, SM_bind, sm_get, sm_put. simpl.
    rewrite (proj2 (Z.eqb_neq _ _)) by lia. unfold alloc_from_mgr, mbind, SM_bind, sm_get. simpl. by rewrite Hfl.
Qed.

(** [size_align_up] enlarges the number of objects to the most that fit into
    the aligned allocation. *)
Theorem size_align_up_maximal sizeof_obj sizeof_area sizeof_mgr alignment size :
  0 < sizeof_obj -> pow2_align alignment ->
  let n := size_align_up sizeof_obj sizeof_area sizeof_mgr alignment size in
  let bytes := ALIGN_UP_POW2 (sizeof_area + SUM_OBJ_SIZE sizeof_obj size) alignment in
  size <= n /\ sizeof_area + SUM_OBJ_SIZE sizeof_obj n <= bytes < sizeof_area + SUM_OBJ_SIZE sizeof_obj (n + 1).
Proof.
  intros Ho (k & Hk & ->). unfold size_align_up, MAX_MEM_SIZE, MIN_MEM_SIZE. cbv zeta.
  replace (sizeof_mgr + sizeof_area + SUM_OBJ_SIZE sizeof_obj size - sizeof_mgr)
    with (sizeof_area + SUM_OBJ_SIZE sizeof_obj size) by lia.
  unfold SUM_OBJ_SIZE. rewrite Z.mul_1_r. set (x := sizeof_area + sizeof_obj * size).
  pose proof (ALIGN_UP_POW2_bounds x k ltac:(lia)) as [H1 _]. set (y := ALIGN_UP_POW2 x (2 ^ k)) in *.
  pose proof (Z.div_mod (y - x) sizeof_obj ltac:(lia)). pose proof (Z.mod_pos_bound (y - x) sizeof_obj Ho).
  pose proof (Z.div_pos (y - x) sizeof_obj ltac:(lia) Ho). subst x. split; [lia|]. nia.
Qed.

(** ** Examples *)

(** Both objects of the only area are in use: the manager grows. *)
Definition mgr_full : mem_mgr := set_mgr_obj (create_mem_mgr_in_place 1 2) (1, 2).

Lemma mgr_full_ok : mgr_ok mgr_full [(1, 0); (1, 1)].
Proof.
  constructor; simpl.
  - apply NoDup_singleton.
  - by apply Forall_singleton.
  - exists [], (MemArea 1 2), []. split_and!; done || simpl; lia.
  - apply (bool_decide_unpack _). reflexivity.
  - intros o Ho. exists [], (MemArea 1 2), []. split_and!; [done..|]. left.
    apply elem_of_cons in Ho as [Ho|Ho%list_elem_of_singleton]; subst o; simpl; lia.
Qed.

Lemma get_and_free_witness :
  fst <$> get_mem_obj_from_mgr_enlarge 16 (Some 2) mgr_full = Some (Some (2, 0)) /\
  wp (get_mem_obj_from_mgr_enlarge 16 (Some 2)) (fun r mgr' =>
    match r with
    | Some o => o ∉ [(1, 0); (1, 1)] /\ mgr_ok mgr' [o; (1, 0); (1, 1)]
    | None => mgr' = mgr_full /\ (16 = 0 \/ Some 2 = None) /\ exhausted mgr_full /\
              prev_area (active_area mgr_full) (area_list mgr_full) = None
    end) mgr_full /\
  mgr_ok (free_mem_obj_to_mgr (fun _ => false) (1, 1) mgr_full) [(1, 0)].
Proof.
  split; [reflexivity|].
  destruct (get_and_free_mem_obj_correct mgr_full [(1, 0); (1, 1)] 16 (Some 2) mgr_full_ok) as (Hget & _ & Hfree);
    [done| |].
  - intros m [= <-]. apply (bool_decide_unpack _). reflexivity.
  - split; [exact Hget|]. apply Hfree. apply (bool_decide_unpack _). reflexivity.
Defined.

Lemma size_align_up_witness :
  size_align_up 88 24 48 4096 64 = 92 /\ 64 <= 92 /\ 24 + 88 * 92 <= 8192 < 24 + 88 * 93.
Proof.
  split; [reflexivity|]. apply (size_align_up_maximal 88 24 48 4096 64); [done|]. by exists 12.
Defined.

Lemma concurrent_enlarge_witness :
  exists old_size mgr1,
    get_mem_obj_locked1 (set_mgr_obj (create_mem_mgr_in_place 1 4) (1, 4)) =
      Some (inr old_size, set_mgr_obj (create_mem_mgr_in_place 1 4) (1, 4)) /\
    get_mem_obj_from_mgr_enlarge 1 (Some 2) (set_mgr_obj (create_mem_mgr_in_place 1 4) (1, 4)) =
      Some (Some (2, 0), mgr1) /\
    get_mem_obj_locked2 3 1 old_size mgr1 = None.
Proof. by apply (concurrent_enlarge_aborts (set_mgr_obj (create_mem_mgr_in_place 1 4) (1, 4)) 2 3 1). Defined.
