(* ===== verification/Vma.v ===== *)
(** * Memory-area bookkeeping: [libos/src/bookkeep/libos_vma.c]

    The LibOS records every memory area (VMA) of the process in a tree
    ordered by end address.  The tree is modelled as the ordered sequence of
    its nodes ([OrdSeq], which [AvlTree] implements); a node is a
    [libos_vma] record with the pointer of the object that holds it, field
    assignments replace the node with that pointer, and a C pointer that walks
    with [_get_next_vma] is the rest of the sequence.

    Every function runs in the state monad of [Prelude]; a failed [assert] or
    [BUG()] is abnormal termination.  [vma_tree_lock] makes the part between
    lock and unlock atomic. *)

From S2P Require Import Prelude OrdSeq Memmgr.

(** ** Constants *)

Definition PROT_NONE : Z := 0x0.
Definition PROT_READ : Z := 0x1.
Definition PROT_WRITE : Z := 0x2.
Definition PROT_EXEC : Z := 0x4.
Definition PROT_GROWSDOWN : Z := 0x01000000.

Definition MAP_SHARED : Z := 0x01.
Definition MAP_PRIVATE : Z := 0x02.
Definition MAP_SHARED_VALIDATE : Z := 0x03.
Definition MAP_FIXED : Z := 0x10.
Definition MAP_ANONYMOUS : Z := 0x20.
Definition MAP_32BIT : Z := 0x40.
Definition MAP_GROWSDOWN : Z := 0x0100.
Definition MAP_STACK : Z := 0x20000.
Definition MAP_HUGETLB : Z := 0x40000.
Definition MAP_FIXED_NOREPLACE : Z := 0x100000.
Definition MAP_HUGE_2MB : Z := Z.shiftl 21 26.
Definition MAP_HUGE_1GB : Z := Z.shiftl 30 26.

Definition VMA_UNMAPPED : Z := 0x10000000.
Definition VMA_INTERNAL : Z := 0x20000000.
Definition VMA_TAINTED : Z := 0x40000000.

Definition O_RDWR : Z := 2.
Definition MAY_WRITE : Z := 2.

Definition PAL_PROT_READ : Z := 0x1.
Definition PAL_PROT_WRITE : Z := 0x2.
Definition PAL_PROT_EXEC : Z := 0x4.
Definition PAL_PROT_WRITECOPY : Z := 0x8.
Definition PROT_GROWSUP : Z := 0x02000000.

(** [libos/include/libos_flags_conv.h] *)
Definition LINUX_PROT_TO_PAL (prot map_flags : Z) : Z :=
  Z.lor (if has prot PROT_READ then PAL_PROT_READ else 0)
 (Z.lor (if has prot PROT_WRITE then PAL_PROT_WRITE else 0)
 (Z.lor (if has prot PROT_EXEC then PAL_PROT_EXEC else 0)
        (if has map_flags MAP_PRIVATE then PAL_PROT_WRITECOPY else 0))).

Definition PAL_PROT_TO_LINUX (prot : Z) : Z :=
  Z.lor (if has prot PAL_PROT_READ then PROT_READ else 0)
 (Z.lor (if has prot PAL_PROT_WRITE then PROT_WRITE else 0)
        (if has prot PAL_PROT_EXEC then PROT_EXEC else 0)).

Definition VMA_COMMENT_LEN : nat := 16.
Definition DEFAULT_VMA_COUNT : Z := 64.

(** Sizes of the C structures on x86-64, in bytes. *)
Definition sizeof_libos_vma : Z := 88.
Definition sizeof_mem_area : Z := 24.
Definition sizeof_mem_mgr : Z := 48.

Definition filter_saved_flags (flags : Z) : Z :=
  Z.land flags
    (Z.lor MAP_SHARED (Z.lor MAP_SHARED_VALIDATE (Z.lor MAP_PRIVATE (Z.lor MAP_ANONYMOUS
    (Z.lor MAP_GROWSDOWN (Z.lor MAP_HUGETLB (Z.lor MAP_HUGE_2MB (Z.lor MAP_HUGE_1GB
    (Z.lor MAP_STACK (Z.lor VMA_UNMAPPED (Z.lor VMA_INTERNAL VMA_TAINTED))))))))))).

(** ** Data *)

Record libos_vma := Vma {
  vptr : obj_ptr;          (* the address of the structure itself *)
  vbegin : Z;
  vend : Z;
  vprot : Z;
  vflags : Z;
  vfile : option Z;        (* handle, [None] is [NULL] *)
  voffset : Z;
  vcomment : string
}.

#[global] Instance libos_vma_eq_dec : EqDecision libos_vma.
Proof. solve_decision. Defined.

Definition set_vptr (v : libos_vma) (p : obj_ptr) : libos_vma :=
  Vma p (vbegin v) (vend v) (vprot v) (vflags v) (vfile v) (voffset v) (vcomment v).
Definition set_vbegin (v : libos_vma) (x : Z) : libos_vma :=
  Vma (vptr v) x (vend v) (vprot v) (vflags v) (vfile v) (voffset v) (vcomment v).
Definition set_vend (v : libos_vma) (x : Z) : libos_vma :=
  Vma (vptr v) (vbegin v) x (vprot v) (vflags v) (vfile v) (voffset v) (vcomment v).
Definition set_vprot (v : libos_vma) (x : Z) : libos_vma :=
  Vma (vptr v) (vbegin v) (vend v) x (vflags v) (vfile v) (voffset v) (vcomment v).
Definition set_vflags (v : libos_vma) (x : Z) : libos_vma :=
  Vma (vptr v) (vbegin v) (vend v) (vprot v) x (vfile v) (voffset v) (vcomment v).
Definition set_voffset (v : libos_vma) (x : Z) : libos_vma :=
  Vma (vptr v) (vbegin v) (vend v) (vprot v) (vflags v) (vfile v) x (vcomment v).

(** The global variables of the file, the per-thread caches of free
    structures, and the reference counters of handles and inodes that this
    code updates. *)
Record vma_state := VmaState {
  vma_tree : list libos_vma;
  g_total_memory_size : Z;
  g_peak_total_memory_size : Z;
  vma_cache : gmap Z (list obj_ptr);
  vma_mgr : option mem_mgr;
  next_block : Z;                      (* blocks from here on are unused *)
  ref_count : gmap Z Z;
  num_mmapped : gmap Z Z
}.

Definition set_tree (s : vma_state) (t : list libos_vma) : vma_state :=
  VmaState t (g_total_memory_size s) (g_peak_total_memory_size s) (vma_cache s) (vma_mgr s)
    (next_block s) (ref_count s) (num_mmapped s).
Definition set_total (s : vma_state) (total peak : Z) : vma_state :=
  VmaState (vma_tree s) total peak (vma_cache s) (vma_mgr s)
    (next_block s) (ref_count s) (num_mmapped s).
Definition set_cache (s : vma_state) (c : gmap Z (list obj_ptr)) : vma_state :=
  VmaState (vma_tree s) (g_total_memory_size s) (g_peak_total_memory_size s) c (vma_mgr s)
    (next_block s) (ref_count s) (num_mmapped s).
Definition set_mgr (s : vma_state) (m : option mem_mgr) (nb : Z) : vma_state :=
  VmaState (vma_tree s) (g_total_memory_size s) (g_peak_total_memory_size s) (vma_cache s) m
    nb (ref_count s) (num_mmapped s).
Definition set_refs (s : vma_state) (r n : gmap Z Z) : vma_state :=
  VmaState (vma_tree s) (g_total_memory_size s) (g_peak_total_memory_size s) (vma_cache s)
    (vma_mgr s) (next_block s) r n.

(** What the code reads from the PAL and from the handles, and the calls whose
    result comes from the host. *)
Record vma_env := VmaEnv {
  memory_address_start : Z;
  memory_address_end : Z;
  shared_address_start : Z;
  shared_address_end : Z;
  alloc_align : Z;
  early_libos_mem_range_start : Z;
  early_libos_mem_range_end : Z;
  mem_total : Z;
  g_received_user_memory : bool;
  g_aslr_addr_top : Z;
  hdl_inode : Z -> option Z;            (* [file->inode] *)
  hdl_flags : Z -> Z;                   (* [file->flags] *)
  hdl_acc_mode : Z -> Z;                (* [file->acc_mode] *)
  hdl_has_msync : Z -> bool;            (* [file->fs->fs_ops->msync] is there *)
  fs_msync : Z -> Z -> Z -> Z -> Z -> Z -> Z;  (* its result *)
  PalVirtualMemoryAlloc : Z -> Z -> Z;  (* result for an address and a size *)
  PalVirtualMemoryProtect : Z -> Z -> Z -> Z;
  pal_to_unix_errno : Z -> Z;
  calloc_ok : Z -> bool;                (* whether an array of that many elements fits *)
  memory_migrated : obj_ptr -> bool;
  tid : Z                               (* the calling thread *)
}.

Section vma.
Variable E : vma_env.

Abbreviation M := (SM vma_state).

Definition IS_ALLOC_ALIGNED (x : Z) : bool := IS_ALIGNED_POW2 x (alloc_align E).
Definition ALLOC_ALIGN_UP (x : Z) : Z := ALIGN_UP_POW2 x (alloc_align E).

(** ** Reference counters *)

Definition counter (m : gmap Z Z) (k : Z) : Z := default 0 (m !! k).

Definition get_handle (h : Z) : M unit :=
  sm_modify (fun s => set_refs s (<[h := counter (ref_count s) h + 1]> (ref_count s))
                               (num_mmapped s)).

Definition put_handle (h : Z) : M unit :=
  sm_modify (fun s => set_refs s (<[h := counter (ref_count s) h - 1]> (ref_count s))
                               (num_mmapped s)).

(** [__atomic_add_fetch(&file->inode->num_mmapped, 1)] if there is an inode. *)
Definition inc_num_mmapped (h : Z) : M unit :=
  match hdl_inode E h with
  | None => mret ()
  | Some i => sm_modify (fun s => set_refs s (ref_count s)
                           (<[i := counter (num_mmapped s) i + 1]> (num_mmapped s)))
  end.

Definition dec_num_mmapped (h : Z) : M unit :=
  match hdl_inode E h with
  | None => mret ()
  | Some i =>
      old ← sm_gets (fun s => counter (num_mmapped s) i);
      sm_modify (fun s => set_refs s (ref_count s) (<[i := old - 1]> (num_mmapped s)));;
      sm_assert (0 <? old)
  end.

(** ** Areas *)

(** [copy_comment]: at most 15 characters and the terminating null byte. *)
Definition copy_comment (comment : string) : string :=
  String.substring 0 (VMA_COMMENT_LEN - 1) comment.

Definition copy_vma (old_vma : libos_vma) (new_vma : obj_ptr) : M libos_vma :=
  match vfile old_vma with
  | Some h => inc_num_mmapped h;; get_handle h
  | None => mret ()
  end;;
  mret (Vma new_vma (vbegin old_vma) (vend old_vma) (vprot old_vma) (vflags old_vma)
          (vfile old_vma) (voffset old_vma) (copy_comment (vcomment old_vma))).

Definition vma_tree_cmp (a b : libos_vma) : bool := vend a <=? vend b.

Definition is_addr_in_vma (addr : Z) (v : libos_vma) : bool :=
  (vbegin v <=? addr) && (addr <? vend v).

Definition cmp_addr_to_vma (addr : Z) (v : libos_vma) : bool := addr <? vend v.

Definition total_memory_size_add (length : Z) : M unit :=
  s ← sm_get;
  let total := u64 (g_total_memory_size s + length) in
  sm_put (set_total s total
            (if g_peak_total_memory_size s <? total then total else g_peak_total_memory_size s)).

Definition total_memory_size_sub (length : Z) : M unit :=
  s ← sm_get;
  sm_assert (length <=? g_total_memory_size s);;
  sm_put (set_total s (u64 (g_total_memory_size s - length)) (g_peak_total_memory_size s)).

(** ** The tree *)

Definition avl_tree_insert (v : libos_vma) : M unit :=
  sm_modify (fun s => set_tree s (seq_insert (vma_tree_cmp v) v (vma_tree s))).

Definition without (p : obj_ptr) (t : list libos_vma) : list libos_vma :=
  filter (fun v => vptr v <> p) t.

Definition avl_tree_delete (v : libos_vma) : M unit :=
  sm_modify (fun s => set_tree s (without (vptr v) (vma_tree s))).

(** Assignments to the fields of a node in the tree: the node with the pointer
    of [v] becomes [v]. *)
Definition replace_node (v : libos_vma) (t : list libos_vma) : list libos_vma :=
  (fun w => if decide (vptr w = vptr v) then v else w) <$> t.

Definition write_vma (v : libos_vma) : M unit :=
  sm_modify (fun s => set_tree s (replace_node v (vma_tree s))).

(** [_lookup_vma]: the head of the result is the returned node, the tail are
    the nodes that [_get_next_vma] reaches from it. *)
Definition _lookup_vma (addr : Z) : M (list libos_vma) :=
  sm_gets (fun s => snd (span (cmp_addr_to_vma addr) (vma_tree s))).

(** The nodes that [_get_prev_vma] reaches from the node [_lookup_vma]
    returns, closest first; when it returns [NULL] this is the sequence that
    starts at [_get_last_vma]. *)
Definition _prev_vmas (addr : Z) : M (list libos_vma) :=
  sm_gets (fun s => reverse (fst (span (cmp_addr_to_vma addr) (vma_tree s)))).

(** ** Traversal with a visitor *)

Section traverse.
Context {C : Type} (visitor : libos_vma -> C -> M (bool * C)) (e : Z).

Fixpoint traverse_loop (vma : libos_vma) (next : list libos_vma) (is_continuous : bool) (ctx : C)
    : M (bool * C) :=
  '(go_on, ctx) ← visitor vma ctx;
  if (go_on : bool) then
    match next with
    | [] => mret (is_continuous && (e <=? vend vma), ctx)
    | vma' :: next' =>
        if e <=? vbegin vma' then mret (is_continuous && (e <=? vend vma), ctx)
        else traverse_loop vma' next' (is_continuous && (vend vma =? vbegin vma')) ctx
    end
  else mret (is_continuous, ctx).

Definition _traverse_vmas_in_range (b : Z) (ctx : C) : M (bool * C) :=
  sm_assert (b <=? e);;
  if b =? e then mret (true, ctx)
  else
    l ← _lookup_vma b;
    match l with
    | [] => mret (false, ctx)
    | vma :: next =>
        if e <=? vbegin vma then mret (false, ctx)
        else traverse_loop vma next (vbegin vma <=? b) ctx
    end.
End traverse.

(** ** Splitting and removing *)

(** Returns [new_vma]; the change of [old_vma] is a write to its node. *)
Definition split_vma (old_vma : libos_vma) (new_vma : obj_ptr) (addr : Z)
    : M (libos_vma * libos_vma) :=
  sm_assert ((vbegin old_vma <? addr) && (addr <? vend old_vma));;
  new ← copy_vma old_vma new_vma;
  let new := set_vbegin new addr in
  let new := if vfile new then set_voffset new (u64 (voffset new + (vbegin new - vbegin old_vma)))
             else new in
  mret (set_vend old_vma addr, new).

Definition is_internal_vma (v : libos_vma) : bool := has (vflags v) VMA_INTERNAL.

(** The first loop: all areas that intersect [[.., e)] must have the
    requested ownership. *)
Fixpoint all_owned (e : Z) (is_internal : bool) (l : list libos_vma) : bool :=
  match l with
  | [] => true
  | v :: l' =>
      if vbegin v <? e then
        if eqb (is_internal_vma v) is_internal then all_owned e is_internal l' else false
      else true
  end.

(** The second loop and the trimming of the last area. *)
Fixpoint remove_loop (e : Z) (l : list libos_vma) : M (list libos_vma) :=
  match l with
  | [] => mret []
  | v :: next =>
      if vend v <=? e then
        avl_tree_delete v;;
        total_memory_size_sub (vend v - vbegin v);;
        to_free ← remove_loop e next;
        mret (v :: to_free)
      else if vbegin v <? e then
        let v' := if vfile v then set_voffset v (u64 (voffset v + (e - vbegin v))) else v in
        total_memory_size_sub (e - vbegin v);;
        write_vma (set_vbegin v' e);;
        mret []
      else mret []
  end.

(** Result: return value, what is left in [*new_vma_ptr], [vmas_to_free]. *)
Definition _vma_bkeep_remove (b e : Z) (is_internal : bool) (new_vma_ptr : option obj_ptr)
    : M (Z * option obj_ptr * list libos_vma) :=
  sm_assert (IS_ALLOC_ALIGNED b && IS_ALLOC_ALIGNED e);;
  l ← _lookup_vma b;
  match l with
  | [] => mret (0, new_vma_ptr, [])
  | vma :: next =>
      if all_owned e is_internal l then
        if vbegin vma <? b then
          if e <? vend vma then
            match new_vma_ptr with
            | None => mret (- ENOMEM, None, [])
            | Some p =>
                '(old, new) ← split_vma vma p e;
                write_vma (set_vend old b);;
                avl_tree_insert new;;
                total_memory_size_sub (e - b);;
                mret (0, None, [])
            end
          else
            total_memory_size_sub (vend vma - b);;
            write_vma (set_vend vma b);;
            to_free ← remove_loop e next;
            mret (0, new_vma_ptr, to_free)
        else
          to_free ← remove_loop e l;
          mret (0, new_vma_ptr, to_free)
      else mret (- EACCES, new_vma_ptr, [])
  end.

(** ** Free structures *)

(** Each thread keeps at most [VMA_CACHE_SIZE] free structures; the list
    encoding in tagged pointers is the subject of [VmaCache]. *)
Definition VMA_CACHE_SIZE : nat := 3.

Definition my_cache (s : vma_state) : list obj_ptr := default [] (vma_cache s !! tid E).
Definition set_my_cache (s : vma_state) (c : list obj_ptr) : vma_state :=
  set_cache s (<[tid E := c]> (vma_cache s)).

Definition get_from_thread_vma_cache : M (option obj_ptr) :=
  s ← sm_get;
  match my_cache s with
  | [] => mret None
  | p :: c => sm_put (set_my_cache s c);; mret (Some p)
  end.

Definition add_to_thread_vma_cache (p : obj_ptr) : M bool :=
  s ← sm_get;
  if (VMA_CACHE_SIZE <=? length (my_cache s))%nat then mret false
  else sm_put (set_my_cache s (p :: my_cache s));; mret true.

(** Removal of an element other than the first one fails the assertion of
    [create_cache_ptr] (see [VmaCache.remove_other_aborts]). *)
Definition remove_from_thread_vma_cache (p : obj_ptr) : M unit :=
  s ← sm_get;
  match my_cache s with
  | [] => mret ()
  | first :: c =>
      if decide (first = p) then sm_put (set_my_cache s c)
      else if decide (p ∈ c) then sm_bug
      else mret ()
  end.

(** Runs an operation of the object manager; [vma_mgr] must not be [NULL]. *)
Definition with_mgr {A} (m : SM mem_mgr A) : M A := fun s =>
  match vma_mgr s with
  | None => None
  | Some mgr =>
      match m mgr with
      | None => None
      | Some (a, mgr') => Some (a, set_mgr s (Some mgr') (next_block s))
      end
  end.

Definition fresh_block : M Z :=
  s ← sm_get;
  sm_put (set_mgr s (vma_mgr s) (next_block s + 1));;
  mret (next_block s).

(** [free_vma] for the structure at [p] whose [file] field is [file]. *)
Definition free_vma (p : obj_ptr) (file : option Z) : M unit :=
  match file with
  | Some h => dec_num_mmapped h;; put_handle h
  | None => mret ()
  end;;
  cached ← add_to_thread_vma_cache p;
  if (cached : bool) then mret ()
  else with_mgr (sm_modify (free_mem_obj_to_mgr (memory_migrated E) p)).

Fixpoint free_vmas_freelist (l : list libos_vma) : M unit :=
  match l with
  | [] => mret ()
  | v :: l' => free_vma (vptr v) (vfile v);; free_vmas_freelist l'
  end.

(** ** Mapping at any address

    The functions below call [alloc_vma], which in turn may have to map memory
    for more structures; they are parameterised by the allocator to break the
    recursion. *)

Section with_alloc.
Variable alloc_vma : M (option obj_ptr).

(** [new_vma] with the fields common to both kinds of mappings. *)
Definition init_new_vma (p : obj_ptr) (b e prot flags : Z) (file : option Z) (offset : Z)
    (comment : string) : M libos_vma :=
  match file with
  | Some h => get_handle h;; inc_num_mmapped h
  | None => mret ()
  end;;
  mret (Vma p b e prot
          (Z.lor (filter_saved_flags flags)
                 (if file then if has prot PROT_WRITE then VMA_TAINTED else 0 else 0))
          file (if file then offset else 0) (copy_comment comment)).

(** The loop looking downwards for a gap: [prev] are the areas below
    [max_addr], closest first.  [Some max] is [out_found] with that
    [max_addr]. *)
Fixpoint find_gap (bottom_addr length : Z) (prev : list libos_vma) (max_addr : Z)
    : M (option Z) :=
  let last_gap :=
    if (bottom_addr <=? max_addr) && (length <=? max_addr - bottom_addr)
    then Some max_addr else None in
  match prev with
  | [] => mret last_gap
  | vma :: prev' =>
      if bottom_addr <=? vend vma then
        sm_assert (vend vma <=? max_addr);;
        if length <=? max_addr - vend vma then mret (Some max_addr)
        else find_gap bottom_addr length prev' (vbegin vma)
      else mret last_gap
  end.

(** [bkeep_mmap_any_in_range] from the allocation of [new_vma] (at [p]) on.
    Result: return value and [*ret_val_ptr] (meaningful on success). *)
Definition place_new_vma (p : obj_ptr) (bottom_addr top_addr length prot flags : Z)
    (file : option Z) (offset : Z) (comment : string) : M (Z * Z) :=
  new_vma ← init_new_vma p 0 0 prot flags file offset comment;
  l ← _lookup_vma top_addr;
  prev ← _prev_vmas top_addr;
  let max_addr := match l with
                  | [] => top_addr
                  | vma :: _ => Z.min top_addr (vbegin vma)
                  end in
  sm_assert (match prev with [] => true | v :: _ => vend v <=? max_addr end);;
  found ← find_gap bottom_addr length prev max_addr;
  match found with
  | None => free_vma p file;; mret (- ENOMEM, 0)
  | Some max_addr =>
      let new_vma := set_vbegin (set_vend new_vma max_addr) (max_addr - length) in
      avl_tree_insert new_vma;;
      total_memory_size_add (vend new_vma - vbegin new_vma);;
      mret (0, vbegin new_vma)
  end.

Definition bkeep_mmap_any_in_range (_bottom_addr _top_addr length prot flags : Z)
    (file : option Z) (offset : Z) (comment : string) : M (Z * Z) :=
  sm_assert (_bottom_addr <? _top_addr);;
  sm_assert (((memory_address_start E <=? _bottom_addr) && (_top_addr <=? memory_address_end E))
             || ((shared_address_start E <=? _bottom_addr) && (_top_addr <=? shared_address_end E)));;
  if (length =? 0) || negb (IS_ALLOC_ALIGNED length) then mret (- EINVAL, 0)
  else if negb (IS_ALLOC_ALIGNED _bottom_addr) || negb (IS_ALLOC_ALIGNED _top_addr)
  then mret (- EINVAL, 0)
  else
    let early := negb (g_received_user_memory E) && has flags VMA_INTERNAL in
    if early && ((_top_addr <=? early_libos_mem_range_start E)
                 || (early_libos_mem_range_end E <=? _bottom_addr))
    then mret (- ENOMEM, 0)
    else
      let bottom_addr := if early then Z.max _bottom_addr (early_libos_mem_range_start E)
                         else _bottom_addr in
      let top_addr := if early then Z.min _top_addr (early_libos_mem_range_end E)
                      else _top_addr in
      sm_assert (negb early || (bottom_addr <? top_addr));;
      let top_addr := if has flags MAP_32BIT then Z.min top_addr (Z.shiftl 1 31) else top_addr in
      if has flags MAP_32BIT && (top_addr <=? bottom_addr) then mret (- ENOMEM, 0)
      else
        new ← alloc_vma;
        match new with
        | None => mret (- ENOMEM, 0)
        | Some p => place_new_vma p bottom_addr top_addr length prot flags file offset comment
        end.

Definition bkeep_mmap_any (length prot flags : Z) (file : option Z) (offset : Z)
    (comment : string) : M (Z * Z) :=
  bkeep_mmap_any_in_range (memory_address_start E) (memory_address_end E) length prot flags
    file offset comment.

Definition bkeep_mmap_any_aslr (length prot flags : Z) (file : option Z) (offset : Z)
    (comment : string) : M (Z * Z) :=
  r ← bkeep_mmap_any_in_range (memory_address_start E) (g_aslr_addr_top E) length prot flags
        file offset comment;
  if 0 <=? fst r then mret r
  else bkeep_mmap_any length prot flags file offset comment.

(** Memory for VMA structures. *)
Definition _vma_malloc (size : Z) : M (option Z) :=
  let size := ALLOC_ALIGN_UP size in
  r ← bkeep_mmap_any size (Z.lor PROT_READ PROT_WRITE)
        (Z.lor MAP_PRIVATE (Z.lor MAP_ANONYMOUS VMA_INTERNAL)) None 0 "vma";
  let '(ret, addr) := r in
  if ret <? 0 then mret None
  else
    if PalVirtualMemoryAlloc E addr size <? 0 then
      r ← _vma_bkeep_remove addr (u64 (addr + size)) true None;
      let '(ret, _, vmas_to_free) := r in
      if ret <? 0 then sm_bug
      else free_vmas_freelist vmas_to_free;; mret None
    else mret (Some addr).

End with_alloc.

(** [alloc_vma] calls itself through [_vma_malloc] once, with the temporary
    structure in the cache: [fuel = 2] is enough. *)
Fixpoint alloc_vma_rec (fuel : nat) : M (option obj_ptr) :=
  match fuel with
  | O => sm_bug
  | S fuel' =>
      cached ← get_from_thread_vma_cache;
      match cached with
      | Some p => mret (Some p)
      | None =>
          vma ← with_mgr get_mem_obj_from_mgr;
          match vma with
          | Some p => mret (Some p)
          | None =>
              tmp_block ← fresh_block;
              let tmp_vma := (tmp_block, 0) in
              ok ← add_to_thread_vma_cache tmp_vma;
              sm_assert ok;;
              let count := size_align_up sizeof_libos_vma sizeof_mem_area sizeof_mem_mgr
                             (alloc_align E) DEFAULT_VMA_COUNT in
              mem ← _vma_malloc (alloc_vma_rec fuel')
                      (sizeof_mem_area + SUM_OBJ_SIZE sizeof_libos_vma count);
              match (mem : option Z) with
              | None => remove_from_thread_vma_cache tmp_vma;; mret None
              | Some _ =>
                  area_block ← fresh_block;
                  with_mgr (sm_modify (fun mgr =>
                    default mgr (enlarge_mem_mgr (Some area_block) count mgr)));;
                  vma_migrate ← with_mgr get_mem_obj_from_mgr;
                  match vma_migrate with
                  | None => sm_bug
                  | Some q =>
                      node ← sm_gets (fun s => list_find (fun v => vptr v = tmp_vma) (vma_tree s));
                      match node with
                      | Some (_, v) =>
                          new ← copy_vma v q;
                          sm_modify (fun s => set_tree s
                            ((fun w => if decide (vptr w = tmp_vma) then new else w) <$> vma_tree s))
                      | None => with_mgr (sm_modify (free_mem_obj_to_mgr (memory_migrated E) q))
                      end;;
                      remove_from_thread_vma_cache tmp_vma;;
                      with_mgr get_mem_obj_from_mgr
                  end
              end
          end
      end
  end.

Definition alloc_vma : M (option obj_ptr) := alloc_vma_rec 2.

(** ** Unmapping *)

Definition _add_unmapped_vma (b e : Z) (p : obj_ptr) : M unit :=
  let vma := Vma p b e PROT_NONE (Z.lor VMA_INTERNAL VMA_UNMAPPED) None 0 (copy_comment "") in
  avl_tree_insert vma;;
  total_memory_size_add (vend vma - vbegin vma).

(** Result: return value and [*tmp_vma_ptr]. *)
Definition bkeep_munmap (addr length : Z) (is_internal : bool) : M (Z * option obj_ptr) :=
  if (length =? 0) || negb (IS_ALLOC_ALIGNED length) || negb (IS_ALLOC_ALIGNED addr)
  then mret (- EINVAL, None)
  else
    vma1 ← alloc_vma;
    match vma1 with
    | None => mret (- ENOMEM, None)
    | Some p1 =>
        vma2 ← alloc_vma;
        r ← _vma_bkeep_remove addr (u64 (addr + length)) is_internal vma2;
        let '(ret, vma2, vmas_to_free) := r in
        if 0 <=? ret then
          _add_unmapped_vma addr (u64 (addr + length)) p1;;
          free_vmas_freelist vmas_to_free;;
          match vma2 with Some p2 => free_vma p2 None | None => mret () end;;
          mret (ret, Some p1)
        else
          free_vmas_freelist vmas_to_free;;
          free_vma p1 None;;
          match vma2 with Some p2 => free_vma p2 None | None => mret () end;;
          mret (ret, None)
    end.

(** Dereference of a pointer to a structure that is in the tree. *)
Definition deref_vma (p : obj_ptr) : M libos_vma := fun s =>
  match list_find (fun v => vptr v = p) (vma_tree s) with
  | Some (_, v) => Some (v, s)
  | None => None
  end.

Definition bkeep_remove_tmp_vma (_vma : obj_ptr) : M unit :=
  vma ← deref_vma _vma;
  sm_assert (vflags vma =? Z.lor VMA_INTERNAL VMA_UNMAPPED);;
  avl_tree_delete vma;;
  total_memory_size_sub (vend vma - vbegin vma);;
  free_vma _vma (vfile vma).

Definition bkeep_convert_tmp_vma_to_user (_vma : obj_ptr) : M unit :=
  vma ← deref_vma _vma;
  sm_assert (vflags vma =? Z.lor VMA_INTERNAL VMA_UNMAPPED);;
  write_vma (set_vflags vma (Z.land (vflags vma) (Z.lnot VMA_INTERNAL))).

(** ** Mapping at a fixed address *)

Definition bkeep_mmap_fixed (addr length prot flags : Z) (file : option Z) (offset : Z)
    (comment : string) : M Z :=
  sm_assert (has flags (Z.lor MAP_FIXED MAP_FIXED_NOREPLACE));;
  if (length =? 0) || negb (IS_ALLOC_ALIGNED length) || negb (IS_ALLOC_ALIGNED addr)
  then mret (- EINVAL)
  else
    new ← alloc_vma;
    match new with
    | None => mret (- ENOMEM)
    | Some p =>
        vma1 ← alloc_vma;
        new_vma ← init_new_vma p addr (u64 (addr + length)) prot flags file offset comment;
        r ← (if has flags MAP_FIXED_NOREPLACE then
               l ← _lookup_vma (vbegin new_vma);
               match l with
               | tmp_vma :: _ =>
                   if vbegin tmp_vma <? vend new_vma then mret (- EEXIST, vma1, [])
                   else mret (0, vma1, [])
               | [] => mret (0, vma1, [])
               end
             else
               _vma_bkeep_remove (vbegin new_vma) (vend new_vma) (has flags VMA_INTERNAL) vma1);
        let '(ret, vma1, vmas_to_free) := r in
        (if 0 <=? ret then
           avl_tree_insert new_vma;;
           total_memory_size_add (vend new_vma - vbegin new_vma)
         else mret ());;
        free_vmas_freelist vmas_to_free;;
        match vma1 with Some p1 => free_vma p1 None | None => mret () end;;
        (if ret <? 0 then free_vma p (vfile new_vma) else mret ());;
        mret ret
    end.

(** ** Changing the protection *)

Definition is_file_prot_matching (file : Z) (prot : Z) : bool :=
  negb (has prot PROT_WRITE) || has (hdl_flags E file) O_RDWR.

Definition vma_update_prot (vma : libos_vma) (prot : Z) : libos_vma :=
  let vma := set_vprot vma (Z.land prot (Z.lor PROT_NONE (Z.lor PROT_READ (Z.lor PROT_WRITE PROT_EXEC)))) in
  if vfile vma then if has prot PROT_WRITE then set_vflags vma (Z.lor (vflags vma) VMA_TAINTED)
                    else vma
  else vma.

(** The first loop: [inl] is an error return, [inr] the value of
    [is_continuous] at the end of the loop. *)
Fixpoint change_check (e prot : Z) (is_internal : bool) (vma : libos_vma) (next : list libos_vma)
    (is_continuous : bool) : Z + bool :=
  if negb (eqb (is_internal_vma vma) is_internal) then inl (- EACCES)
  else if has prot PROT_GROWSDOWN && negb (has (vflags vma) MAP_GROWSDOWN) then inl (- EINVAL)
  else if match vfile vma with
          | Some f => has (vflags vma) MAP_SHARED && negb (is_file_prot_matching f prot)
          | None => false
          end then inl (- EACCES)
  else if e <=? vend vma then inr is_continuous
  else
    match next with
    | [] => inr false
    | vma' :: next' =>
        change_check e prot is_internal vma' next'
          (is_continuous && (vend vma =? vbegin vma'))
    end.

(** The second loop: updates whole areas, then splits the last one if it
    reaches beyond [e].  [p2] is [*new_vma_ptr2]. *)
Fixpoint change_loop (e prot : Z) (vma : libos_vma) (next : list libos_vma) (p2 : obj_ptr)
    : M (option obj_ptr) :=
  if vend vma <=? e then
    write_vma (vma_update_prot vma prot);;
    match next with
    | [] => sm_assert (vend vma =? e);; mret (Some p2)
    | vma' :: next' => change_loop e prot vma' next' p2
    end
  else if e <=? vbegin vma then mret (Some p2)
  else
    '(old, new) ← split_vma vma p2 e;
    write_vma (vma_update_prot old prot);;
    avl_tree_insert new;;
    mret None.

(** Result: return value and what is left in [*new_vma_ptr1] and
    [*new_vma_ptr2]. *)
Definition _vma_bkeep_change (b e prot : Z) (is_internal : bool) (p1 p2 : obj_ptr)
    : M (Z * option obj_ptr * option obj_ptr) :=
  sm_assert (IS_ALLOC_ALIGNED b && IS_ALLOC_ALIGNED e);;
  sm_assert (b <? e);;
  l ← _lookup_vma b;
  match l with
  | [] => mret (- ENOMEM, Some p1, Some p2)
  | vma :: next =>
      if b <? vbegin vma then mret (- ENOMEM, Some p1, Some p2)
      else
        match change_check e prot is_internal vma next true with
        | inl err => mret (err, Some p1, Some p2)
        | inr false => mret (- ENOMEM, Some p1, Some p2)
        | inr true =>
            if (vbegin vma <? b) && negb (has prot PROT_GROWSDOWN) then
              '(old, new1) ← split_vma vma p1 b;
              write_vma old;;
              let new1 := vma_update_prot new1 prot in
              avl_tree_insert new1;;
              if e <? vend new1 then
                '(new1, new2) ← split_vma new1 p2 e;
                write_vma new1;;
                avl_tree_insert (vma_update_prot new2 (vprot vma));;
                mret (0, None, None)
              else
                match next with
                | [] => sm_bug
                | vma' :: next' =>
                    left2 ← change_loop e prot vma' next' p2;
                    mret (0, None, left2)
                end
            else
              left2 ← change_loop e prot vma next p2;
              mret (0, Some p1, left2)
        end
  end.

Definition bkeep_mprotect (addr length prot : Z) (is_internal : bool) : M Z :=
  if (length =? 0) || negb (IS_ALLOC_ALIGNED length) || negb (IS_ALLOC_ALIGNED addr)
  then mret (- EINVAL)
  else
    vma1 ← alloc_vma;
    match vma1 with
    | None => mret (- ENOMEM)
    | Some p1 =>
        vma2 ← alloc_vma;
        match vma2 with
        | None => free_vma p1 None;; mret (- ENOMEM)
        | Some p2 =>
            r ← _vma_bkeep_change addr (u64 (addr + length)) prot is_internal p1 p2;
            let '(ret, left1, left2) := r in
            match left1 with Some p => free_vma p None | None => mret () end;;
            match left2 with Some p => free_vma p None | None => mret () end;;
            mret ret
        end
    end.

(** ** Memory of the PAL itself *)

Definition pal_mem_bkeep_alloc (size : Z) : M (Z * Z) :=
  r ← bkeep_mmap_any alloc_vma size (Z.lor PROT_READ PROT_WRITE)
        (Z.lor MAP_PRIVATE (Z.lor MAP_ANONYMOUS VMA_INTERNAL)) None 0 "pal internal memory";
  if fst r <? 0 then mret (fst r, 0) else mret (0, snd r).

Definition pal_mem_bkeep_free (addr size : Z) : M Z :=
  r ← bkeep_munmap addr size true;
  if fst r <? 0 then mret (fst r)
  else match snd r with
       | None => sm_bug
       | Some tmp_vma => bkeep_remove_tmp_vma tmp_vma;; mret 0
       end.

(** ** Queries *)

Record libos_vma_info := VmaInfo {
  info_addr : Z;
  info_length : Z;
  info_prot : Z;
  info_flags : Z;
  info_file : option Z;
  info_file_offset : Z;
  info_comment : string
}.

Definition dump_vma (vma : libos_vma) : M libos_vma_info :=
  match vfile vma with Some h => get_handle h | None => mret () end;;
  mret (VmaInfo (vbegin vma) (vend vma - vbegin vma) (vprot vma) (vflags vma) (vfile vma)
          (voffset vma) (vcomment vma)).

(** [inl] is the error, [inr] the description written to [vma_info]. *)
Definition lookup_vma (addr : Z) : M (Z + libos_vma_info) :=
  l ← _lookup_vma addr;
  match l with
  | [] => mret (inl (- ENOENT))
  | vma :: _ =>
      if is_addr_in_vma addr vma then info ← dump_vma vma; mret (inr info)
      else mret (inl (- ENOENT))
  end.

(** [ctx->prot] is constant, the context is [ctx->is_ok]. *)
Definition adj_visitor (prot : Z) (vma : libos_vma) (ctx_is_ok : bool) : M (bool * bool) :=
  let is_ok := negb (has (vflags vma) (Z.lor VMA_INTERNAL VMA_UNMAPPED))
               && (Z.land (vprot vma) prot =? prot) in
  mret (is_ok, ctx_is_ok && is_ok).

Definition is_in_adjacent_user_vmas (addr length prot : Z) : M bool :=
  let b := addr in
  let e := u64 (b + length) in
  sm_assert (b <=? e);;
  '(is_continuous, is_ok) ← _traverse_vmas_in_range (adj_visitor prot) e b true;
  mret (is_continuous && is_ok).

Section dump.
Variable vma_filter : libos_vma -> M bool.

(** The [for] loop over the areas that start below [e]. *)
Fixpoint dump_loop (max_count : Z) (e : Z) (l : list libos_vma) (size : Z)
    : M (Z * list libos_vma_info) :=
  match l with
  | [] => mret (size, [])
  | vma :: l' =>
      if vbegin vma <? e then
        keep ← vma_filter vma;
        if (keep : bool) then
          if size <? max_count then
            info ← dump_vma vma;
            '(n, infos) ← dump_loop max_count e l' (size + 1);
            mret (n, info :: infos)
          else dump_loop max_count e l' (size + 1)
        else dump_loop max_count e l' size
      else mret (size, [])
  end.

Definition dump_vmas_with_buf (max_count b e : Z) : M (Z * list libos_vma_info) :=
  l ← _lookup_vma b;
  dump_loop max_count e l 0.

Fixpoint free_vma_info_array (infos : list libos_vma_info) : M unit :=
  match infos with
  | [] => mret ()
  | i :: infos' =>
      match info_file i with Some h => put_handle h | None => mret () end;;
      free_vma_info_array infos'
  end.

(** [inl] is the error.  The buffer is enlarged to the needed size and the
    walk repeated; without interference the second walk fits. *)
Fixpoint dump_vmas_loop (fuel : nat) (count b e : Z) : M (Z + list libos_vma_info) :=
  match fuel with
  | O => sm_bug
  | S fuel' =>
      if calloc_ok E count then
        '(needed_count, vmas) ← dump_vmas_with_buf count b e;
        if needed_count <=? count then mret (inr vmas)
        else
          free_vma_info_array vmas;;
          dump_vmas_loop fuel' needed_count b e
      else mret (inl (- ENOMEM))
  end.

Definition dump_vmas (b e : Z) : M (Z + list libos_vma_info) :=
  dump_vmas_loop 2 DEFAULT_VMA_COUNT b e.

End dump.

Definition vma_filter_all (vma : libos_vma) : M bool :=
  mret (negb (has (vflags vma) VMA_INTERNAL)).

Definition vma_filter_exclude_unmapped (vma : libos_vma) : M bool :=
  mret (negb (has (vflags vma) (Z.lor VMA_INTERNAL VMA_UNMAPPED))).

Definition dump_vmas_in_range (b e : Z) (include_unmapped : bool) : M (Z + list libos_vma_info) :=
  dump_vmas (if include_unmapped then vma_filter_all else vma_filter_exclude_unmapped) b e.

Definition dump_all_vmas (include_unmapped : bool) : M (Z + list libos_vma_info) :=
  dump_vmas_in_range 0 UINTPTR_MAX include_unmapped.

(** ** [madvise(MADV_DONTNEED)] *)

(** What the visitor does to the memory, in order. *)
Inductive mem_op :=
| MemProtect (addr size prot : Z)
| MemZero (addr size : Z).

Record madvise_dontneed_ctx := MadviseCtx {
  ctx_error : Z;
  ctx_ops : list mem_op
}.

Definition madvise_dontneed_visitor (b e : Z) (vma : libos_vma) (ctx : madvise_dontneed_ctx)
    : M (bool * madvise_dontneed_ctx) :=
  if has (vflags vma) (Z.lor VMA_UNMAPPED VMA_INTERNAL)
  then mret (false, MadviseCtx (- EINVAL) (ctx_ops ctx))
  else if vfile vma then
    if has (vflags vma) VMA_TAINTED then mret (false, MadviseCtx (- ENOSYS) (ctx_ops ctx))
    else mret (true, ctx)
  else
    let zero_start := Z.max b (vbegin vma) in
    let zero_end := Z.min e (vend vma) in
    let size := zero_end - zero_start in
    let pal_prot := LINUX_PROT_TO_PAL (vprot vma) (vflags vma) in
    let pal_prot_writable := Z.lor pal_prot PAL_PROT_WRITE in
    if pal_prot =? pal_prot_writable then
      mret (true, MadviseCtx (ctx_error ctx) (ctx_ops ctx ++ [MemZero zero_start size]))
    else
      let ret := PalVirtualMemoryProtect E zero_start size pal_prot_writable in
      if ret <? 0 then mret (false, MadviseCtx (pal_to_unix_errno E ret) (ctx_ops ctx))
      else if PalVirtualMemoryProtect E zero_start size pal_prot <? 0 then sm_bug
      else mret (true, MadviseCtx (ctx_error ctx)
                   (ctx_ops ctx ++ [MemProtect zero_start size pal_prot_writable;
                                    MemZero zero_start size;
                                    MemProtect zero_start size pal_prot])).

(** Result: return value and the operations done on the memory. *)
Definition madvise_dontneed_range (b e : Z) : M (Z * list mem_op) :=
  '(is_continuous, ctx) ← _traverse_vmas_in_range (madvise_dontneed_visitor b e) e b
                            (MadviseCtx 0 []);
  if (is_continuous : bool) then mret (ctx_error ctx, ctx_ops ctx)
  else mret (- ENOMEM, ctx_ops ctx).

(** ** [msync] *)

Definition vma_filter_needs_msync (hdl : option Z) (vma : libos_vma) : M bool :=
  if has (vflags vma) (Z.lor VMA_UNMAPPED (Z.lor VMA_INTERNAL (Z.lor MAP_ANONYMOUS MAP_PRIVATE)))
  then mret false
  else match vfile vma with
       | None => sm_bug (* [assert(vma->file)] *)
       | Some f =>
           mret (match hdl with Some h => f =? h | None => true end
                 && hdl_has_msync E f && has (hdl_acc_mode E f) MAY_WRITE)
       end.

Fixpoint msync_infos (b e : Z) (infos : list libos_vma_info) : Z :=
  match infos with
  | [] => 0
  | i :: infos' =>
      let msync_begin := Z.max b (info_addr i) in
      let msync_end := Z.min e (info_addr i + info_length i) in
      let ret := match info_file i with
                 | Some f => fs_msync E f msync_begin (msync_end - msync_begin) (info_prot i)
                               (info_flags i) (info_file_offset i)
                 | None => 0
                 end in
      if ret <? 0 then ret else msync_infos b e infos'
  end.

Definition msync_all (b e : Z) (hdl : option Z) : M Z :=
  sm_assert (IS_ALLOC_ALIGNED b);;
  sm_assert ((e =? UINTPTR_MAX) || IS_ALLOC_ALIGNED e);;
  r ← dump_vmas (vma_filter_needs_msync hdl) b e;
  match r with
  | inl err => mret err
  | inr infos => free_vma_info_array infos;; mret (msync_infos b e infos)
  end.

Definition msync_range (b e : Z) : M Z := msync_all b e None.
Definition msync_handle (hdl : Z) : M Z := msync_all 0 UINTPTR_MAX (Some hdl).

Definition get_peak_memory_usage : M Z := sm_gets g_peak_total_memory_size.
Definition get_total_memory_usage : M Z :=
  sm_gets (fun s => Z.min (g_total_memory_size s) (mem_total E)).

(** ** Initial areas *)

Definition _bkeep_initial_vma (new_vma : libos_vma) : M Z :=
  l ← _lookup_vma (vbegin new_vma);
  match l with
  | tmp_vma :: _ =>
      if vbegin tmp_vma <? vend new_vma then mret (- EEXIST)
      else
        avl_tree_insert new_vma;;
        total_memory_size_add (vend new_vma - vbegin new_vma);;
        mret 0
  | [] =>
      avl_tree_insert new_vma;;
      total_memory_size_add (vend new_vma - vbegin new_vma);;
      mret 0
  end.

(** [g_pal_public_state->initial_mem_ranges] *)
Record pal_initial_mem_range := InitialRange {
  ir_start : Z;
  ir_end : Z;
  ir_prot : Z;
  ir_is_free : bool;
  ir_comment : string
}.

(** The structures are elements of a local array, block [blk], from index 1. *)
Fixpoint init_vmas (blk idx : Z) (ranges : list pal_initial_mem_range) : M (list libos_vma) :=
  match ranges with
  | [] => mret []
  | r :: ranges' =>
      if ir_is_free r then init_vmas blk idx ranges'
      else
        let v := Vma (blk, 1 + idx) (ir_start r) (ir_end r) (PAL_PROT_TO_LINUX (ir_prot r))
                   (Z.lor MAP_PRIVATE (Z.lor MAP_ANONYMOUS VMA_INTERNAL)) None 0
                   (copy_comment (ir_comment r)) in
        sm_assert (IS_ALLOC_ALIGNED (vbegin v) && IS_ALLOC_ALIGNED (vend v));;
        l ← init_vmas blk (idx + 1) ranges';
        mret (v :: l)
  end.

(** The loop of [init_vma] that enters the initial areas into the tree. *)
Fixpoint bkeep_initial_vmas (l : list libos_vma) : M Z :=
  match l with
  | [] => mret 0
  | v :: l' =>
      sm_assert (vbegin v <=? vend v);;
      if vbegin v =? vend v then bkeep_initial_vmas l'
      else if negb (IS_ALLOC_ALIGNED (vbegin v)) || negb (IS_ALLOC_ALIGNED (vend v))
      then mret (- EINVAL)
      else
        ret ← _bkeep_initial_vma v;
        if ret <? 0 then mret ret else bkeep_initial_vmas l'
  end.

(** The choice of [g_aslr_addr_top]; [gap] are the random bits. *)
Definition ASLR_BITS : Z := 12.
Definition choose_aslr_addr_top (disable_aslr : bool) (gap : Z) : Z :=
  let gap_max_size := (memory_address_end E - memory_address_start E) / 6 * 5 in
  if negb disable_aslr && (Z.shiftl 1 ASLR_BITS <=? gap_max_size / alloc_align E)
  then memory_address_end E - ALIGN_DOWN_POW2 (gap mod gap_max_size) (alloc_align E)
  else memory_address_end E.

End vma.
