(* ===== verification/VmaTree.v ===== *)
(** * Ordered sequences of memory areas

    The facts about the contents of [vma_tree] that the operations of [Vma]
    rely on: the ordering invariant, the effect of cutting a range out of the
    sequence, and the view of the sequence as a map from addresses to the
    attributes of the memory at that address. *)

From S2P Require Import Prelude OrdSeq Memmgr Vma.

Lemma in_vma_iff a v : is_addr_in_vma a v = true <-> vbegin v <= a < vend v.
Proof. unfold is_addr_in_vma. rewrite andb_true_iff, Z.leb_le, Z.ltb_lt. done. Qed.

(** ** Invariant of the tree *)

Section tree.
Variable align : Z.

Record area_ok (v : libos_vma) : Prop := {
  area_ok_begin : 0 <= vbegin v;
  area_ok_nonempty : vbegin v < vend v;
  area_ok_end : vend v <= UINTPTR_MAX;
  area_ok_align_begin : IS_ALIGNED_POW2 (vbegin v) align = true;
  area_ok_align_end : IS_ALIGNED_POW2 (vend v) align = true;
  area_ok_comment : copy_comment (vcomment v) = vcomment v
}.

(** [v] lies entirely below [w]. *)
Definition below (v w : libos_vma) : Prop := vend v <= vbegin w.

Record tree_ok (t : list libos_vma) : Prop := {
  tree_ok_areas : Forall area_ok t;
  tree_ok_sorted : StronglySorted below t;
  tree_ok_ptrs : NoDup (vptr <$> t)
}.

Lemma tree_ok_app t1 t2 :
  tree_ok (t1 ++ t2) <->
  tree_ok t1 /\ tree_ok t2 /\ (forall v w, v ∈ t1 -> w ∈ t2 -> below v w) /\
  (forall v w, v ∈ t1 -> w ∈ t2 -> vptr v <> vptr w).
Proof.
  split.
  - intros [H1 H2 H3]. apply Forall_app in H1 as [? ?]. apply StronglySorted_app_iff in H2 as (? & ? & ?).
    rewrite fmap_app in H3. apply NoDup_app in H3 as (? & H3 & ?).
    split_and!; [by constructor|by constructor|done|].
    intros v w Hv Hw E. apply (H3 (vptr v)); [by apply list_elem_of_fmap_2|].
    rewrite E. by apply list_elem_of_fmap_2.
  - intros ([H1 H2 H3] & [H4 H5 H6] & H7 & H8). constructor.
    + by apply Forall_app.
    + by apply StronglySorted_app_iff.
    + rewrite fmap_app. apply NoDup_app. split_and!; [done| |done].
      intros p (v & -> & Hv)%list_elem_of_fmap (w & E & Hw)%list_elem_of_fmap. by eapply H8.
Qed.

Lemma tree_ok_cons v t :
  tree_ok (v :: t) <->
  area_ok v /\ tree_ok t /\ (forall w, w ∈ t -> below v w) /\ (forall w, w ∈ t -> vptr v <> vptr w).
Proof.
  change (v :: t) with ([v] ++ t). rewrite tree_ok_app. split.
  - intros ([H1 H2 H3] & H4 & H5 & H6). split_and!; [by inversion H1|done|set_solver|set_solver].
  - intros (H1 & H2 & H3 & H4). split_and!; [|done| |].
    + constructor; [by apply Forall_singleton|constructor; constructor|by apply NoDup_singleton].
    + intros ? ? ->%list_elem_of_singleton. auto.
    + intros ? ? ->%list_elem_of_singleton. auto.
Qed.

(** All areas before [v] end below it. *)
Lemma tree_ok_before pre v suf :
  tree_ok (pre ++ v :: suf) -> Forall (fun w => vend w <= vbegin v) pre.
Proof. intros (_ & _ & H & _)%tree_ok_app. apply Forall_forall. intros w Hw. apply (H w v Hw). set_solver. Qed.

Lemma tree_ok_nil : tree_ok [].
Proof. constructor; constructor. Qed.

Lemma tree_ok_in t v : tree_ok t -> v ∈ t -> area_ok v.
Proof. intros [H _ _]. rewrite Forall_forall in H. auto. Qed.

(** Two areas that share an address are the same. *)
Lemma tree_ok_unique t v w a :
  tree_ok t -> v ∈ t -> w ∈ t -> is_addr_in_vma a v = true -> is_addr_in_vma a w = true -> v = w.
Proof.
  unfold is_addr_in_vma. intros Ht Hv Hw Ha Hb. breflect.
  induction t as [|x t IH]; [set_solver|]. apply tree_ok_cons in Ht as (Hx & Ht & Hlt & _).
  unfold below in Hlt.
  apply elem_of_cons in Hv as [->|Hv]; apply elem_of_cons in Hw as [->|Hw]; auto.
  - specialize (Hlt w Hw). lia.
  - specialize (Hlt v Hv). lia.
Qed.

Lemma tree_ok_ptr_inj t v w : tree_ok t -> v ∈ t -> w ∈ t -> vptr v = vptr w -> v = w.
Proof.
  intros [_ _ Hnd] (i & Hi)%list_elem_of_lookup (j & Hj)%list_elem_of_lookup E.
  assert (i = j) as ->; [|congruence].
  eapply NoDup_lookup; [exact Hnd| |]; rewrite list_lookup_fmap.
  - by rewrite Hi.
  - rewrite Hj; simpl. by rewrite E.
Qed.

(** ** Sizes *)

Definition len (v : libos_vma) : Z := vend v - vbegin v.
Definition tsize (t : list libos_vma) : Z := foldr (fun v n => len v + n) 0 t.

Lemma tsize_app t1 t2 : tsize (t1 ++ t2) = tsize t1 + tsize t2.
Proof. induction t1; simpl; lia. Qed.

Lemma tsize_bound t lo :
  tree_ok t -> Forall (fun v => lo <= vbegin v) t -> 0 <= lo <= UINTPTR_MAX ->
  0 <= tsize t <= UINTPTR_MAX - lo.
Proof.
  revert lo. induction t as [|v t IH]; intros lo Ht Hlo Hb; simpl; [lia|].
  apply tree_ok_cons in Ht as ([] & Ht & Hlt & _). apply Forall_cons in Hlo as [Hv Hlo].
  specialize (IH (vend v) Ht ltac:(by apply Forall_forall) ltac:(lia)). unfold len. lia.
Qed.

Lemma tsize_range t : tree_ok t -> 0 <= tsize t <= UINTPTR_MAX.
Proof.
  intros Ht. pose proof (tsize_bound t 0 Ht) as H. rewrite Z.sub_0_r in H. apply H; [|done].
  destruct Ht as [Ha _ _]. eapply Forall_impl; [exact Ha|]. by intros v [].
Qed.

(** ** Positions *)

(** [_lookup_vma]: the areas ending at or before [addr], and the others. *)
Lemma lookup_split t addr :
  tree_ok t ->
  exists pre suf, span (cmp_addr_to_vma addr) t = (pre, suf) /\ t = pre ++ suf /\
    Forall (fun v => vend v <= addr) pre /\ Forall (fun v => addr < vend v) suf.
Proof.
  intros Ht. destruct (span (cmp_addr_to_vma addr) t) as [pre suf] eqn:Es.
  destruct (span_spec _ _ _ _ Es) as (-> & Hp & Hs). exists pre, suf.
  unfold cmp_addr_to_vma in *. split_and!; try done.
  - eapply Forall_impl; [exact Hp|]. simpl. intros v H. by breflect.
  - apply tree_ok_app in Ht as (_ & Ht & _). destruct suf as [|v suf]; [done|].
    specialize (Hs v suf eq_refl). breflect. constructor; [done|].
    apply tree_ok_cons in Ht as (_ & Hok & Hlt & _). apply Forall_forall. intros w Hw.
    destruct (tree_ok_in _ _ Hok Hw). specialize (Hlt w Hw). unfold below in Hlt. lia.
Qed.

Lemma insert_position v pre suf :
  Forall (fun w => vend w <= vbegin v) pre -> Forall (fun w => vend v <= vbegin w) suf ->
  Forall area_ok suf -> vbegin v < vend v ->
  seq_insert (vma_tree_cmp v) v (pre ++ suf) = pre ++ v :: suf.
Proof.
  intros Hp Hs Hok Hv. unfold seq_insert, vma_tree_cmp.
  assert (Hp' : Forall (fun w => (vend v <=? vend w) = false) pre).
  { eapply Forall_impl; [exact Hp|]. simpl. intros. apply Z.leb_gt. lia. }
  destruct suf as [|w suf].
  - rewrite app_nil_r, span_all_false by done. done.
  - apply Forall_cons in Hs as [Hs _]. apply Forall_cons in Hok as [[] _].
    rewrite span_app_true; [done|done|]. apply Z.leb_le. lia.
Qed.

Lemma insert_ok v pre suf :
  tree_ok (pre ++ v :: suf) -> seq_insert (vma_tree_cmp v) v (pre ++ suf) = pre ++ v :: suf.
Proof.
  intros (_ & (Hv & Hs & Hlt & _)%tree_ok_cons & Hp & _)%tree_ok_app. apply insert_position.
  - apply Forall_forall. intros w Hw. apply (Hp w v Hw). set_solver.
  - by apply Forall_forall.
  - apply Hs.
  - apply Hv.
Qed.

Lemma tree_ok_insert v pre suf :
  tree_ok (pre ++ suf) -> area_ok v ->
  Forall (fun w => vend w <= vbegin v) pre -> Forall (fun w => vend v <= vbegin w) suf ->
  vptr v ∉ (vptr <$> pre ++ suf) -> tree_ok (pre ++ v :: suf).
Proof.
  rewrite !Forall_forall, fmap_app. intros (Hp & Hs & Hb & Hd)%tree_ok_app Hv Hp' Hs' Hn.
  rewrite not_elem_of_app in Hn. destruct Hn as [Hn1 Hn2].
  assert (Hne : forall (l : list libos_vma) w, vptr v ∉ (vptr <$> l) -> w ∈ l -> vptr v <> vptr w).
  { intros l w Hno Hw Heq. apply Hno. rewrite Heq. by apply list_elem_of_fmap_2. }
  rewrite tree_ok_app, tree_ok_cons. split_and!; try done.
  - intros w Hw. by apply (Hne suf).
  - intros x y Hx [->|Hy]%elem_of_cons; [by apply Hp'|by apply Hb].
  - intros x y Hx [->|Hy]%elem_of_cons; [by apply not_eq_sym, (Hne pre)|by apply Hd].
Qed.

Lemma tree_ok_delete v pre suf : tree_ok (pre ++ v :: suf) -> tree_ok (pre ++ suf).
Proof.
  intros (Hp & (_ & Hs & _)%tree_ok_cons & Hb & Hd)%tree_ok_app. apply tree_ok_app.
  split_and!; try done; intros; [apply Hb|apply Hd]; set_solver.
Qed.

(** A node may be replaced by one with the same bounds in a fresh structure. *)
Lemma tree_ok_swap v w pre suf :
  tree_ok (pre ++ v :: suf) -> area_ok w -> vbegin w = vbegin v -> vend w = vend v ->
  vptr w ∉ (vptr <$> pre ++ suf) -> tree_ok (pre ++ w :: suf).
Proof.
  intros Hok Hw Eb Ee Hn. pose proof (tree_ok_before _ _ _ Hok). apply tree_ok_insert; rewrite ?Eb, ?Ee; try done.
  - by eapply tree_ok_delete.
  - apply tree_ok_app in Hok as (_ & (_ & _ & Hlt & _)%tree_ok_cons & _). by apply Forall_forall.
Qed.

(** A node may be replaced by two that share its range. *)
Lemma tree_ok_split v w1 w2 pre suf :
  tree_ok (pre ++ v :: suf) -> area_ok w1 -> area_ok w2 ->
  vbegin w1 = vbegin v -> vend w1 = vbegin w2 -> vend w2 = vend v ->
  vptr w1 = vptr v -> vptr w2 ∉ (vptr <$> pre ++ v :: suf) -> tree_ok (pre ++ w1 :: w2 :: suf).
Proof.
  intros Hok H1 H2 E1 E2 E3 Ep Hn.
  assert (Hp : vptr w2 ∉ (vptr <$> pre ++ suf)).
  { rewrite fmap_app, fmap_cons in Hn. rewrite fmap_app. set_solver. }
  assert (Hd : vptr v ∉ (vptr <$> pre ++ suf)).
  { pose proof (tree_ok_ptrs _ Hok) as Hnd. rewrite fmap_app, fmap_cons in Hnd.
    rewrite <- Permutation_middle in Hnd. apply NoDup_cons in Hnd as [Hnd _]. by rewrite fmap_app. }
  pose proof (tree_ok_before _ _ _ Hok) as Hb. pose proof (tree_ok_delete _ _ _ Hok) as Hdel.
  apply tree_ok_app in Hok as (_ & ([] & _ & Hlt & _)%tree_ok_cons & _). destruct H1, H2.
  assert (Hmid : tree_ok (pre ++ w2 :: suf)).
  { apply tree_ok_insert; [done|done| | |done].
    - eapply Forall_impl; [exact Hb|]. simpl. lia.
    - apply Forall_forall. rewrite E3. exact Hlt. }
  apply tree_ok_insert; [done|done|by rewrite E1| |].
  - constructor; [lia|]. apply Forall_forall. intros x Hx. specialize (Hlt x Hx). unfold below in Hlt. lia.
  - rewrite fmap_app, fmap_cons, Ep. rewrite fmap_app in Hd. rewrite fmap_app, fmap_cons in Hn.
    rewrite not_elem_of_app, not_elem_of_cons in *. split_and!; try tauto.
    intros Heq. apply Hn. rewrite <- Heq. set_solver.
Qed.

Lemma find_ptr t v :
  tree_ok t -> v ∈ t -> exists i, list_find (fun w => vptr w = vptr v) t = Some (i, v).
Proof.
  intros Ht Hv. destruct (list_find (fun w => vptr w = vptr v) t) as [[i w]|] eqn:El.
  - apply list_find_Some in El as (Hw & Hp & _). apply list_elem_of_lookup_2 in Hw.
    exists i. do 2 f_equal. by apply (tree_ok_ptr_inj t).
  - apply list_find_None in El. rewrite Forall_forall in El. by destruct (El v Hv).
Qed.

Lemma swap_node_app v v' pre suf :
  tree_ok (pre ++ v :: suf) ->
  (fun w => if decide (vptr w = vptr v) then v' else w) <$> (pre ++ v :: suf) = pre ++ v' :: suf.
Proof.
  intros (_ & Hs & _ & Hp)%tree_ok_app. apply tree_ok_cons in Hs as (_ & _ & _ & Hs).
  rewrite fmap_app, fmap_cons. rewrite decide_True by done.
  f_equal; [|f_equal]; (rewrite <- list_fmap_id; apply list_fmap_ext; intros i x Hx; simpl;
    apply list_elem_of_lookup_2 in Hx; rewrite decide_False; [done|]).
  - apply Hp; set_solver.
  - apply not_eq_sym. auto.
Qed.

Lemma replace_node_app v v' pre suf :
  tree_ok (pre ++ v :: suf) -> vptr v' = vptr v ->
  replace_node v' (pre ++ v :: suf) = pre ++ v' :: suf.
Proof. intros Hok E. unfold replace_node. rewrite E. by apply swap_node_app. Qed.

Lemma without_app v pre suf :
  tree_ok (pre ++ v :: suf) -> without (vptr v) (pre ++ v :: suf) = pre ++ suf.
Proof.
  intros (_ & Hs & _ & Hp)%tree_ok_app. apply tree_ok_cons in Hs as (_ & _ & _ & Hs).
  unfold without. rewrite filter_app, filter_cons, decide_False by (intros H; by apply H).
  f_equal; apply list_filter_all.
  - apply Forall_forall. intros x Hx. apply Hp; set_solver.
  - apply Forall_forall. intros x Hx. apply not_eq_sym. auto.
Qed.

(** ** Cutting a range out of the sequence *)

(** The part of [v] from [addr] on, in the structure [p]. *)
Definition upper (p : obj_ptr) (addr : Z) (v : libos_vma) : libos_vma :=
  Vma p addr (vend v) (vprot v) (vflags v) (vfile v)
    (if vfile v then u64 (voffset v + (addr - vbegin v)) else voffset v) (vcomment v).

(** The part of [v] above [e]; the part keeps its structure unless the part
    of [v] below [b] needs it, then it lives in the new structure [p]. *)
Definition right_part (b e : Z) (p : obj_ptr) (v : libos_vma) : libos_vma :=
  if vbegin v <? e then upper (if vbegin v <? b then p else vptr v) e v else v.

(** What is left of [v] outside of [[b, e)]. *)
Definition outside (b e : Z) (p : obj_ptr) (v : libos_vma) : list libos_vma :=
  (if vbegin v <? b then [set_vend v (Z.min (vend v) b)] else []) ++
  (if e <? vend v then [right_part b e p v] else []).

Definition remove_areas (b e : Z) (p : obj_ptr) (t : list libos_vma) : list libos_vma :=
  t ≫= outside b e p.

(** The areas that disappear. *)
Definition inside (b e : Z) (v : libos_vma) : bool := (b <=? vbegin v) && (vend v <=? e).

Definition overlaps (b e : Z) (v : libos_vma) : bool := (vbegin v <? e) && (b <? vend v).

(** An area that has to be split in two. *)
Definition encloses (b e : Z) (v : libos_vma) : bool := (vbegin v <? b) && (e <? vend v).

Lemma outside_low b e p v : b < e -> area_ok v -> vend v <= b -> outside b e p v = [v].
Proof.
  intros Hbe [] Hv. unfold outside. rewrite (proj2 (Z.ltb_lt _ _)), (proj2 (Z.ltb_ge e _)) by lia.
  rewrite Z.min_l by lia. by destruct v.
Qed.

Lemma outside_high b e p v : b < e -> area_ok v -> e <= vbegin v -> outside b e p v = [v].
Proof.
  intros Hbe [] Hv. unfold outside, right_part.
  by rewrite (proj2 (Z.ltb_ge (vbegin v) b)), (proj2 (Z.ltb_lt e _)), (proj2 (Z.ltb_ge (vbegin v) e)) by lia.
Qed.

Lemma remove_areas_app b e p t1 t2 :
  remove_areas b e p (t1 ++ t2) = remove_areas b e p t1 ++ remove_areas b e p t2.
Proof. apply bind_app. Qed.

Lemma remove_areas_cons b e p v t :
  remove_areas b e p (v :: t) = outside b e p v ++ remove_areas b e p t.
Proof. done. Qed.

Lemma remove_areas_id b e p t :
  b < e -> Forall area_ok t -> Forall (fun v => overlaps b e v = false) t -> remove_areas b e p t = t.
Proof.
  intros Hbe Hok. induction Hok as [|v t Hv Hok IH]; intros Ht; [done|].
  apply Forall_cons in Ht as [Hov Ht]. rewrite remove_areas_cons, (IH Ht).
  unfold overlaps in Hov. apply andb_false_iff in Hov as [Hov|Hov]; breflect.
  - by rewrite outside_high.
  - by rewrite outside_low.
Qed.

Lemma outside_sub b e p v w :
  area_ok v -> b < e -> IS_ALIGNED_POW2 b align = true -> IS_ALIGNED_POW2 e align = true ->
  w ∈ outside b e p v ->
  area_ok w /\ vbegin v <= vbegin w /\ vend w <= vend v /\ (vend w <= b \/ e <= vbegin w).
Proof.
  intros [] Hbe Hb He. unfold outside, right_part. rewrite elem_of_app.
  intros [Hw|Hw]; dif_in Hw; try (by apply elem_of_nil in Hw); apply list_elem_of_singleton in Hw; subst w.
  - simpl. split; [|lia]. constructor; simpl; try done; try lia.
    destruct (Z.min_spec (vend v) b) as [[_ ->]|[_ ->]]; done.
  - destruct (Z.ltb_spec (vbegin v) e); simpl; (split; [|lia]); constructor; simpl; done || lia.
Qed.

Lemma outside_sorted b e p v : area_ok v -> b < e -> StronglySorted below (outside b e p v).
Proof.
  intros [] Hbe. unfold outside, right_part. repeat dif; simpl; repeat constructor.
  - unfold below; simpl; lia.
  - unfold below; simpl; lia.
Qed.

(** The structure of an area and the handle it refers to. *)
Definition obj (v : libos_vma) : obj_ptr * option Z := (vptr v, vfile v).

Lemma outside_obj b e p v :
  vbegin v < vend v -> b < e ->
  (obj <$> outside b e p v) ++ (if inside b e v then [obj v] else []) =
  obj v :: (if encloses b e v then [(p, vfile v)] else []).
Proof.
  intros Hv Hbe. unfold outside, right_part, inside, encloses.
  destruct (Z.ltb_spec (vbegin v) b), (Z.leb_spec b (vbegin v)), (Z.ltb_spec e (vend v)),
    (Z.leb_spec (vend v) e), (Z.ltb_spec (vbegin v) e); try lia; done.
Qed.

Lemma remove_areas_obj b e p t :
  Forall area_ok t -> b < e ->
  (obj <$> remove_areas b e p t) ++ (obj <$> filter (inside b e) t) ≡ₚ
  (obj <$> t) ++ ((fun v => (p, vfile v)) <$> filter (encloses b e) t).
Proof.
  intros Ht Hbe. induction Ht as [|v t [] _ IH]; [done|].
  pose proof (outside_obj b e p v ltac:(done) Hbe) as Ho.
  rewrite remove_areas_cons, !filter_cons, fmap_app, <- (assoc_L (++)).
  assert (E : (obj <$> (if decide (inside b e v) then v :: filter (inside b e) t else filter (inside b e) t))
     = (if inside b e v then [obj v] else []) ++ (obj <$> filter (inside b e) t)).
  { destruct (inside b e v); done. }
  rewrite E; clear E.
  rewrite (Permutation_app_swap_app (obj <$> remove_areas b e p t)), (assoc_L (++)), Ho, IH.
  destruct (encloses b e v); simpl; [|done].
  constructor. by rewrite Permutation_middle.
Qed.

Lemma encloses_one b e t :
  tree_ok t -> b < e -> (length (filter (encloses b e) t) <= 1)%nat.
Proof.
  intros Ht Hbe. induction t as [|v t IH]; [simpl; lia|].
  apply tree_ok_cons in Ht as ([] & Ht & Hlt & _). rewrite filter_cons.
  case_decide as Hv; [|auto]. rewrite list_filter_none; [simpl; lia|].
  apply Forall_forall. intros w Hw Hen. unfold encloses in *. specialize (Hlt w Hw). unfold below in Hlt.
  apply Is_true_true in Hv, Hen. breflect. lia.
Qed.

Lemma remove_areas_ok b e p t :
  tree_ok t -> b < e -> IS_ALIGNED_POW2 b align = true -> IS_ALIGNED_POW2 e align = true ->
  p ∉ (vptr <$> t) -> tree_ok (remove_areas b e p t).
Proof.
  intros Ht Hbe Hb He Hp.
  assert (Hsub : forall t' w, Forall area_ok t' -> w ∈ remove_areas b e p t' ->
            area_ok w /\ exists v, v ∈ t' /\ vbegin v <= vbegin w /\ vend w <= vend v).
  { intros t' w Ht' (v & Hw & Hv)%list_elem_of_bind. rewrite Forall_forall in Ht'.
    destruct (outside_sub b e p v w) as (? & ? & ? & _); eauto. }
  pose proof Ht as [Ha Hs Hnd]. constructor.
  - apply Forall_forall. intros w Hw. by apply (Hsub t w Ha).
  - clear Hp Hnd. induction t as [|v t IH]; [constructor|]. rewrite remove_areas_cons.
    apply tree_ok_cons in Ht as (Hv & Ht & Hlt & _). apply Forall_cons in Ha as [_ Ha].
    apply StronglySorted_inv in Hs as [Hs _]. apply StronglySorted_app_iff.
    split_and!; [by apply outside_sorted|by apply IH|]. intros x y Hx Hy.
    destruct (outside_sub b e p v x) as (_ & _ & ? & _); [done..|].
    destruct (Hsub t y Ha Hy) as (_ & w & Hw & ? & ?). specialize (Hlt w Hw).
    unfold below in *. lia.
  - pose proof (remove_areas_obj b e p t Ha Hbe) as Hperm. apply (fmap_Permutation fst) in Hperm.
    rewrite !fmap_app, <- !list_fmap_compose in Hperm.
    change (fst ∘ obj) with vptr in Hperm.
    assert (Hnd' : NoDup ((vptr <$> remove_areas b e p t) ++ (vptr <$> filter (inside b e) t)));
      [|by apply NoDup_app in Hnd' as (? & _ & _)].
    rewrite Hperm. clear Hperm.
    pose proof (encloses_one b e t Ht Hbe) as Hone. destruct (filter (encloses b e) t) as [|x [|]]; simpl in *; [|..|lia].
    + by rewrite app_nil_r.
    + apply NoDup_app. split_and!; [done| |apply NoDup_singleton]. set_solver.
Qed.

(** The number of bytes of [v] in [[b, e)]. *)
Definition covered (b e : Z) (v : libos_vma) : Z := Z.max 0 (Z.min e (vend v) - Z.max b (vbegin v)).

Lemma outside_size b e p v :
  vbegin v < vend v -> b < e -> tsize (outside b e p v) = len v - covered b e v.
Proof.
  intros Hv Hbe. unfold outside, right_part, covered, len.
  destruct (Z.ltb_spec (vbegin v) b), (Z.ltb_spec e (vend v)), (Z.ltb_spec (vbegin v) e);
    simpl; unfold len; simpl; lia.
Qed.

Definition covered_size (b e : Z) (t : list libos_vma) : Z := foldr (fun v n => covered b e v + n) 0 t.

Lemma covered_size_cons b e v t : covered_size b e (v :: t) = covered b e v + covered_size b e t.
Proof. done. Qed.

Lemma covered_size_app b e t1 t2 : covered_size b e (t1 ++ t2) = covered_size b e t1 + covered_size b e t2.
Proof. induction t1; simpl; [done|]. unfold covered_size in *. lia. Qed.

Lemma remove_areas_size b e p t :
  Forall area_ok t -> b < e -> tsize (remove_areas b e p t) = tsize t - covered_size b e t.
Proof.
  intros Ht Hbe. induction Ht as [|v t [] _ IH]; [done|].
  rewrite remove_areas_cons, tsize_app, IH, outside_size by done. simpl. lia.
Qed.

Lemma covered_size_bound b e t : Forall area_ok t -> 0 <= covered_size b e t <= tsize t.
Proof.
  induction 1 as [|v t [] _ IH]; simpl; [lia|]. unfold covered at 1 2, len. lia.
Qed.

(** Areas that start at or above [e] are not affected. *)
Lemma remove_beyond b e p t :
  b < e -> Forall area_ok t -> Forall (fun v => e <= vbegin v) t ->
  remove_areas b e p t = t /\ covered_size b e t = 0 /\ filter (inside b e) t = [].
Proof.
  intros Hbe Ht Hb. split_and!.
  - apply remove_areas_id; [done..|]. eapply Forall_impl; [exact Hb|]. intros v Hv. unfold overlaps.
    simpl in Hv. by rewrite (proj2 (Z.ltb_ge _ _) Hv).
  - induction Ht as [|v t [] _ IH]; [done|]. apply Forall_cons in Hb as [Hv Hb]. simpl.
    rewrite IH by done. unfold covered. lia.
  - apply list_filter_none. rewrite Forall_forall in *. intros v Hv Hin. apply Is_true_true in Hin.
    unfold inside in Hin. breflect. destruct (Ht v Hv). specialize (Hb v Hv). simpl in Hb. lia.
Qed.

(** Areas that end at or below [b] are not affected either. *)
Lemma remove_before b e p t :
  b < e -> Forall area_ok t -> Forall (fun v => vend v <= b) t ->
  remove_areas b e p t = t /\ covered_size b e t = 0 /\ filter (inside b e) t = [].
Proof.
  intros Hbe Ht Hb. split_and!.
  - apply remove_areas_id; [done..|]. eapply Forall_impl; [exact Hb|]. intros v Hv. unfold overlaps.
    simpl in Hv. by rewrite (proj2 (Z.ltb_ge _ _) Hv), andb_false_r.
  - induction Ht as [|v t [] _ IH]; [done|]. apply Forall_cons in Hb as [Hv Hb]. simpl.
    rewrite IH by done. unfold covered. lia.
  - apply list_filter_none. rewrite Forall_forall in *. intros v Hv Hin. apply Is_true_true in Hin.
    unfold inside in Hin. breflect. destruct (Ht v Hv). specialize (Hb v Hv). simpl in Hb. lia.
Qed.

(** ** The address space as a map

    What the tree says about the byte at one address: protection, flags, the
    position in the file, and the comment. *)
Record attr := Attr {
  at_prot : Z;
  at_flags : Z;
  at_file : option (Z * Z);
  at_comment : string
}.

Definition attr_of (v : libos_vma) (a : Z) : attr :=
  Attr (vprot v) (vflags v) ((fun f => (f, u64 (voffset v + (a - vbegin v)))) <$> vfile v) (vcomment v).

Definition attr_at (t : list libos_vma) (a : Z) : option attr :=
  (fun v => attr_of v a) <$> (snd <$> list_find (fun v => is_addr_in_vma a v) t).

Lemma attr_at_None t a : attr_at t a = None <-> Forall (fun v => is_addr_in_vma a v = false) t.
Proof.
  unfold attr_at. rewrite !fmap_None, list_find_None.
  apply Forall_iff. intros v. destruct (is_addr_in_vma a v); naive_solver.
Qed.

Lemma attr_at_elem t v a :
  tree_ok t -> v ∈ t -> is_addr_in_vma a v = true -> attr_at t a = Some (attr_of v a).
Proof.
  intros Ht Hv Ha. unfold attr_at.
  destruct (list_find (fun v => is_addr_in_vma a v) t) as [[i w]|] eqn:El; simpl.
  - apply list_find_Some in El as (Hw & Ha' & _). do 2 f_equal.
    apply (tree_ok_unique t w v a Ht); [by eapply list_elem_of_lookup_2|done|by apply Is_true_true|done].
  - apply list_find_None in El. rewrite Forall_forall in El. destruct (El v Hv). by rewrite Ha.
Qed.

Lemma attr_at_Some t a x :
  tree_ok t ->
  attr_at t a = Some x <-> exists v, v ∈ t /\ is_addr_in_vma a v = true /\ x = attr_of v a.
Proof.
  intros Ht. split.
  - unfold attr_at. destruct (list_find _ _) as [[i w]|] eqn:El; simpl; [|done]. intros [= <-].
    apply list_find_Some in El as (Hw & Ha & _). exists w.
    split_and!; [by eapply list_elem_of_lookup_2|by apply Is_true_true|done].
  - intros (v & Hv & Ha & ->). by apply attr_at_elem.
Qed.

(** Two sequences agree on an address when they have the same answers for it. *)
Lemma attr_at_ext t1 t2 a :
  tree_ok t1 -> tree_ok t2 ->
  (forall x, (exists v, v ∈ t1 /\ is_addr_in_vma a v = true /\ x = attr_of v a) <->
             (exists v, v ∈ t2 /\ is_addr_in_vma a v = true /\ x = attr_of v a)) ->
  attr_at t1 a = attr_at t2 a.
Proof.
  intros H1 H2 H. apply option_eq. intros x. by rewrite !attr_at_Some.
Qed.

(** The area at an address. *)
Lemma area_at t a : tree_ok t -> attr_at t a = None \/ exists v, v ∈ t /\ is_addr_in_vma a v = true /\ attr_at t a = Some (attr_of v a).
Proof.
  intros Ht. destruct (attr_at t a) as [x|] eqn:Ex; [right|by left].
  apply attr_at_Some in Ex as (v & ? & ? & ->); eauto.
Qed.

Lemma attr_at_outside t a lo hi :
  tree_ok t -> (forall v, v ∈ t -> vend v <= lo \/ hi <= vbegin v) -> lo <= a < hi -> attr_at t a = None.
Proof.
  intros Ht H Ha. apply attr_at_None, Forall_forall. intros v Hv. unfold is_addr_in_vma.
  destruct (H v Hv); apply andb_false_iff; [right; apply Z.ltb_ge|left; apply Z.leb_gt]; lia.
Qed.

Lemma upper_attr p addr v a : attr_of (upper p addr v) a = attr_of v a.
Proof.
  unfold attr_of, upper; simpl. destruct (vfile v); simpl; [|done]. do 3 f_equal.
  unfold u64. rewrite Zplus_mod_idemp_l. f_equal. lia.
Qed.

Lemma outside_attr b e p v a w :
  area_ok v -> b < e -> w ∈ outside b e p v -> is_addr_in_vma a w = true ->
  is_addr_in_vma a v = true /\ attr_of w a = attr_of v a.
Proof.
  intros [] Hbe. unfold outside, right_part, is_addr_in_vma. rewrite elem_of_app.
  intros [Hw|Hw] Ha; dif_in Hw; try (by apply elem_of_nil in Hw); apply list_elem_of_singleton in Hw; subst w.
  - simpl in *. split; [apply andb_true_iff; split; [apply Z.leb_le|apply Z.ltb_lt]; lia|done].
  - destruct (Z.ltb_spec (vbegin v) e); simpl in *;
      [|split; [apply andb_true_iff; split; [apply Z.leb_le|apply Z.ltb_lt]; lia|done]].
    split; [apply andb_true_iff; split; [apply Z.leb_le|apply Z.ltb_lt]; lia|].
    apply upper_attr.
Qed.

Lemma outside_attr_back b e p v a :
  area_ok v -> b < e -> is_addr_in_vma a v = true -> ~ b <= a < e ->
  exists w, w ∈ outside b e p v /\ is_addr_in_vma a w = true.
Proof.
  intros [] Hbe Ha Hn. unfold is_addr_in_vma in *. breflect. unfold outside.
  destruct (Z.lt_ge_cases a b).
  - exists (set_vend v (Z.min (vend v) b)). rewrite (proj2 (Z.ltb_lt (vbegin v) b)) by lia.
    split; [set_solver|]. simpl. apply andb_true_iff; split; [apply Z.leb_le|apply Z.ltb_lt]; lia.
  - exists (right_part b e p v). rewrite (proj2 (Z.ltb_lt e (vend v))) by lia.
    split; [set_solver|]. unfold right_part. dif; simpl;
      (apply andb_true_iff; split; [apply Z.leb_le|apply Z.ltb_lt]); lia.
Qed.

(** Cutting a range out unmaps exactly that range. *)
Lemma remove_areas_attr b e p t a :
  tree_ok t -> b < e -> IS_ALIGNED_POW2 b align = true -> IS_ALIGNED_POW2 e align = true ->
  p ∉ (vptr <$> t) ->
  attr_at (remove_areas b e p t) a = if decide (b <= a < e) then None else attr_at t a.
Proof.
  intros Ht Hbe Hb He Hp. pose proof (remove_areas_ok b e p t Ht Hbe Hb He Hp) as Ht'.
  case_decide as Ha.
  - eapply attr_at_outside; [done| |exact Ha]. intros w (v & Hw & Hv)%list_elem_of_bind.
    apply (outside_sub b e p v w); try done. by apply (tree_ok_in t).
  - apply attr_at_ext; [done|done|]. intros x. split.
    + intros (w & (v & Hw & Hv)%list_elem_of_bind & Hin & ->).
      destruct (outside_attr b e p v a w) as [? ->]; [by apply (tree_ok_in t)|done..|]. eauto.
    + intros (v & Hv & Hin & ->).
      destruct (outside_attr_back b e p v a) as (w & Hw & Hin'); [by apply (tree_ok_in t)|done..|].
      exists w. split_and!; [apply list_elem_of_bind; eauto|done|].
      by destruct (outside_attr b e p v a w) as [_ ->]; [by apply (tree_ok_in t)|..].
Qed.

End tree.
