(* ===== verification/VmaInv.v ===== *)
(** * Resources of the memory-area bookkeeping

    The structures ([struct libos_vma]) come from the object manager and are in
    one of three places: in the tree, in the cache of a thread, or held by a
    running function.  Each structure with a file holds a reference to the
    handle and counts as a mapping of its inode.  This file states the
    resulting invariant and proves that taking and releasing structures keeps
    it. *)

From S2P Require Import Prelude OrdSeq Memmgr Vma VmaTree.

Section inv.
Context (E : vma_env).

(** ** Accounting of structures and references *)

Abbreviation owned := (list (obj_ptr * option Z)).

Definition cached (s : vma_state) : list obj_ptr := map_to_list (vma_cache s) ≫= snd.

(** Structures in the tree and in the caches. *)
Definition objs (s : vma_state) : owned := (obj <$> vma_tree s) ++ ((fun p => (p, None)) <$> cached s).

Definition count_handle (h : Z) (l : owned) : Z :=
  Z.of_nat (length (filter (fun o => snd o = Some h) l)).
Definition count_inode (i : Z) (l : owned) : Z :=
  Z.of_nat (length (filter (fun o => snd o ≫= hdl_inode E = Some i) l)).

#[export] Instance count_handle_perm h : Proper ((≡ₚ) ==> (=)) (count_handle h).
Proof. intros l1 l2 H. unfold count_handle. by rewrite H. Qed.
#[export] Instance count_inode_perm i : Proper ((≡ₚ) ==> (=)) (count_inode i).
Proof. intros l1 l2 H. unfold count_inode. by rewrite H. Qed.

Lemma count_handle_cons h o l :
  count_handle h (o :: l) = (if decide (snd o = Some h) then 1 else 0) + count_handle h l.
Proof. unfold count_handle. rewrite filter_cons. case_decide; simpl; lia. Qed.
Lemma count_inode_cons i o l :
  count_inode i (o :: l) = (if decide (snd o ≫= hdl_inode E = Some i) then 1 else 0) + count_inode i l.
Proof. unfold count_inode. rewrite filter_cons. case_decide; simpl; lia. Qed.
Lemma count_inode_pos i l : 0 <= count_inode i l.
Proof. unfold count_inode. lia. Qed.

(** Every structure of [l] is owned once and comes from the manager, except
    for those in [foreign]; [ext] counts the references to handles that are
    held elsewhere. *)
Record resources (foreign : list obj_ptr) (ext : Z -> Z) (l : owned) (s : vma_state) : Prop := {
  res_nodup : NoDup (fst <$> l);
  res_owned : exists mgr live, vma_mgr s = Some mgr /\ mgr_ok mgr live /\
    (forall p, p ∈ (fst <$> l) -> p ∈ live \/ p ∈ foreign) /\
    Forall (fun a => area_block a < next_block s) (area_list mgr) /\
    Forall (fun p => fst p < next_block s /\ fst p ∉ (area_block <$> area_list mgr)) foreign;
  res_mmapped : forall i, counter (num_mmapped s) i = count_inode i l;
  res_refs : forall h, counter (ref_count s) h = ext h + count_handle h l
}.

Lemma resources_perm foreign ext l l' s s' :
  resources foreign ext l s -> l ≡ₚ l' ->
  vma_mgr s' = vma_mgr s -> next_block s' = next_block s -> ref_count s' = ref_count s ->
  num_mmapped s' = num_mmapped s -> resources foreign ext l' s'.
Proof.
  intros [H1 (mgr & live & H2 & H3 & H4 & H5 & H6) H7 H8] Hp Em En Er Ec. constructor.
  - by rewrite <- Hp.
  - exists mgr, live. rewrite Em, En. split_and!; try done. intros p. rewrite <- Hp. auto.
  - intros i. rewrite <- Hp, Ec. auto.
  - intros h. rewrite <- Hp, Er. auto.
Qed.

(** ** References *)

Lemma counter_insert (m : gmap Z Z) k x j :
  counter (<[k := x]> m) j = if decide (k = j) then x else counter m j.
Proof. unfold counter. case_decide; [subst; by rewrite lookup_insert_eq|by rewrite lookup_insert_ne]. Qed.

Lemma get_file_spec foreign ext p h l s :
  resources foreign ext ((p, None) :: l) s ->
  wp (inc_num_mmapped E h;; get_handle h) (fun _ s' =>
    resources foreign ext ((p, Some h) :: l) s' /\ exists r n, s' = set_refs s r n) s.
Proof.
  intros [H1 H2 H7 H8]. unfold inc_num_mmapped, get_handle.
  destruct (hdl_inode E h) as [i|] eqn:Ei; wp_steps; (split; [|by eexists _, _]); constructor; try done; simpl.
  - intros j. specialize (H7 j). rewrite count_inode_cons in H7 |- *. simpl in *. rewrite Ei, counter_insert.
    case_decide; subst; [rewrite decide_True by done|rewrite decide_False by congruence]; [|lia].
    rewrite H7. lia.
  - intros j. specialize (H8 j). rewrite count_handle_cons in H8 |- *. simpl in *. rewrite counter_insert.
    case_decide; subst; [rewrite decide_True by done|rewrite decide_False by congruence]; lia.
  - intros j. specialize (H7 j). rewrite count_inode_cons in H7 |- *. simpl in *. by rewrite Ei.
  - intros j. specialize (H8 j). rewrite count_handle_cons in H8 |- *. simpl in *. rewrite counter_insert.
    case_decide; subst; [rewrite decide_True by done|rewrite decide_False by congruence]; lia.
Qed.

Lemma get_file_comm h s : (get_handle h;; inc_num_mmapped E h) s = (inc_num_mmapped E h;; get_handle h) s.
Proof. unfold inc_num_mmapped, get_handle. destruct (hdl_inode E h); reflexivity. Qed.

Lemma put_file_spec foreign ext p h l s :
  resources foreign ext ((p, Some h) :: l) s ->
  wp (dec_num_mmapped E h;; put_handle h) (fun _ s' =>
    resources foreign ext ((p, None) :: l) s' /\ exists r n, s' = set_refs s r n) s.
Proof.
  intros [H1 H2 H7 H8]. unfold dec_num_mmapped, put_handle.
  assert (Hr : forall j, counter (<[h := counter (ref_count s) h - 1]> (ref_count s)) j =
                         ext j + count_handle j ((p, None) :: l)).
  { intros j. specialize (H8 j). rewrite count_handle_cons in H8 |- *. simpl in *. rewrite counter_insert.
    repeat case_decide; simplify_eq; lia. }
  destruct (hdl_inode E h) as [i|] eqn:Ei; wp_steps.
  - assert (Hi : counter (num_mmapped s) i = 1 + count_inode i l).
    { rewrite H7, count_inode_cons. simpl. by rewrite Ei, decide_True. }
    apply wp_assert; [pose proof (count_inode_pos i l); apply Z.ltb_lt; lia|]. wp_steps.
    split; [|by eexists _, _]. constructor; try done; simpl.
    intros j. specialize (H7 j). rewrite count_inode_cons in H7 |- *. simpl in *. rewrite Ei in H7.
    rewrite counter_insert.
    repeat case_decide; simplify_eq; lia.
  - split; [|by eexists _, _]. constructor; try done; simpl.
    intros j. specialize (H7 j). rewrite count_inode_cons in H7 |- *. simpl in *. by rewrite Ei in H7.
Qed.

(** ** Thread caches *)

Definition others (s : vma_state) : list obj_ptr := map_to_list (delete (tid E) (vma_cache s)) ≫= snd.

Lemma cached_split s : cached s ≡ₚ my_cache E s ++ others s.
Proof.
  unfold cached, my_cache, others. destruct (vma_cache s !! tid E) as [c|] eqn:Ec; simpl.
  - rewrite <- (insert_delete_id _ _ _ Ec) at 1. rewrite map_to_list_insert by apply lookup_delete_eq. done.
  - by rewrite delete_id.
Qed.

Lemma cached_set_mine s c : cached (set_my_cache E s c) ≡ₚ c ++ others s.
Proof.
  unfold cached, set_my_cache, others. simpl. rewrite <- insert_delete_eq.
  by rewrite map_to_list_insert by apply lookup_delete_eq.
Qed.

(** ** The invariant

    [held] are the structures a running function has taken. *)
Record inv (foreign : list obj_ptr) (ext : Z -> Z) (held : owned) (s : vma_state) : Prop := {
  inv_tree : tree_ok (alloc_align E) (vma_tree s);
  inv_total : g_total_memory_size s = tsize (vma_tree s);
  inv_peak : g_total_memory_size s <= g_peak_total_memory_size s;
  inv_cache : map_Forall (fun _ c => (length c <= VMA_CACHE_SIZE)%nat) (vma_cache s);
  inv_res : resources foreign ext (held ++ objs s) s
}.

Lemma inv_perm foreign ext held held' s :
  inv foreign ext held s -> held ≡ₚ held' -> inv foreign ext held' s.
Proof.
  intros [] Hp. constructor; try done. eapply resources_perm; [done| |done..]. by rewrite Hp.
Qed.

(** The structures held are not in the tree. *)
Lemma inv_held_fresh foreign ext held s p file :
  inv foreign ext held s -> (p, file) ∈ held -> p ∉ (vptr <$> vma_tree s).
Proof.
  intros [_ _ _ _ [Hnd _ _ _]] Hp (v & -> & Hv)%list_elem_of_fmap.
  rewrite fmap_app in Hnd. apply NoDup_app in Hnd as (_ & Hd & _). apply (Hd (vptr v)).
  - by apply (list_elem_of_fmap_2 fst _ (vptr v, file)).
  - unfold objs. rewrite fmap_app, elem_of_app. left. rewrite <- list_fmap_compose. by apply list_elem_of_fmap_2.
Qed.

Lemma inv_cache_len foreign ext held s : inv foreign ext held s -> (length (my_cache E s) <= VMA_CACHE_SIZE)%nat.
Proof.
  intros [_ _ _ Hc _]. unfold my_cache. destruct (vma_cache s !! tid E) as [c|] eqn:Ec; simpl; [|unfold VMA_CACHE_SIZE; lia].
  exact (Hc _ _ Ec).
Qed.

(** Tree and counters are untouched. *)
Definition same_tree (s s' : vma_state) : Prop :=
  vma_tree s' = vma_tree s /\ g_total_memory_size s' = g_total_memory_size s /\
  g_peak_total_memory_size s' = g_peak_total_memory_size s.

Lemma set_my_cache_inv foreign ext held held' s c :
  inv foreign ext held s -> (length c <= VMA_CACHE_SIZE)%nat ->
  held ++ ((fun p => (p, None)) <$> my_cache E s) ≡ₚ held' ++ ((fun p => (p, None)) <$> c) ->
  inv foreign ext held' (set_my_cache E s c).
Proof.
  intros [H1 H2 H3 H4 H5] Hc Hp. constructor; simpl; try done.
  - by apply map_Forall_insert_2.
  - eapply resources_perm; [exact H5| |done..]. unfold objs. simpl.
    rewrite cached_set_mine, cached_split, !fmap_app.
    rewrite !(assoc_L (++)), <- !(assoc_L (++)), (Permutation_app_swap_app held), (Permutation_app_swap_app held').
    by rewrite (assoc_L (++) held), (assoc_L (++) held'), Hp.
Qed.

Lemma get_from_cache_spec foreign ext held s :
  inv foreign ext held s ->
  wp (get_from_thread_vma_cache E) (fun r s' =>
    match r with
    | Some p => exists c, my_cache E s = p :: c /\ s' = set_my_cache E s c /\
                          inv foreign ext ((p, None) :: held) s'
    | None => my_cache E s = [] /\ s' = s
    end) s.
Proof.
  intros Hinv. pose proof (inv_cache_len _ _ _ _ Hinv). unfold get_from_thread_vma_cache. wp_steps.
  destruct (my_cache E s) as [|p c] eqn:Ec; wp_steps; [done|]. exists c. split_and!; [done..|].
  eapply set_my_cache_inv; [done|simpl in *; lia|]. rewrite Ec. simpl. by rewrite Permutation_middle.
Qed.

Lemma add_to_cache_spec foreign ext p held s :
  inv foreign ext ((p, None) :: held) s ->
  wp (add_to_thread_vma_cache E p) (fun r s' =>
    if r then (length (my_cache E s) < VMA_CACHE_SIZE)%nat /\ s' = set_my_cache E s (p :: my_cache E s) /\
              inv foreign ext held s'
    else (VMA_CACHE_SIZE <= length (my_cache E s))%nat /\ s' = s) s.
Proof.
  intros Hinv. unfold add_to_thread_vma_cache. wp_steps.
  destruct (Nat.leb_spec VMA_CACHE_SIZE (length (my_cache E s))); wp_steps; [done|].
  split_and!; [done..|]. eapply set_my_cache_inv; [done|simpl in *; lia|]. simpl. by rewrite Permutation_middle.
Qed.

Lemma remove_first_from_cache_spec p c s :
  my_cache E s = p :: c ->
  wp (remove_from_thread_vma_cache E p) (fun _ s' => s' = set_my_cache E s c) s.
Proof.
  intros Ec. unfold remove_from_thread_vma_cache. wp_steps. rewrite Ec. by rewrite decide_True.
Qed.

(** ** The object manager *)

Lemma wp_with_mgr {A} (m : SM mem_mgr A) mgr (Q : A -> vma_state -> Prop) s :
  vma_mgr s = Some mgr ->
  wp m (fun a mgr' => Q a (set_mgr s (Some mgr') (next_block s))) mgr -> wp (with_mgr m) Q s.
Proof. intros Em. unfold wp, with_mgr. rewrite Em. by destruct (m mgr) as [[a mgr']|]. Qed.

Lemma set_mgr_inv foreign foreign' ext held held' s mgr nb :
  inv foreign ext held s -> resources foreign' ext (held' ++ objs s) (set_mgr s (Some mgr) nb) ->
  inv foreign' ext held' (set_mgr s (Some mgr) nb).
Proof. intros [] Hr. by constructor. Qed.

Lemma free_to_mgr_spec foreign ext p held s :
  inv foreign ext ((p, None) :: held) s -> p ∉ foreign ->
  wp (with_mgr (sm_modify (free_mem_obj_to_mgr (memory_migrated E) p))) (fun _ s' =>
    inv foreign ext held s' /\ same_tree s s') s.
Proof.
  intros Hinv Hp. pose proof Hinv as [_ _ _ _ [Hnd (mgr & live & Em & Hok & Hl & Hb & Hf) Hc Hr]].
  eapply wp_with_mgr; [exact Em|]. wp_steps. split; [|done]. eapply set_mgr_inv; [exact Hinv|].
  simpl in Hnd. apply NoDup_cons in Hnd as [Hn Hnd].
  destruct (Hl p) as [Hlive|?]; [apply elem_of_cons; by left| |done].
  apply elem_of_Permutation in Hlive as [live' Hperm].
  assert (Ha : area_list (free_mem_obj_to_mgr (memory_migrated E) p mgr) = area_list mgr)
    by (unfold free_mem_obj_to_mgr; by destruct (memory_migrated E p)).
  constructor; simpl; [done| |done|].
  - eexists _, live'. rewrite Ha. split_and!; [done| | |done|done].
    + apply free_mem_obj_ok. by eapply mgr_ok_perm.
    + intros q Hq. destruct (Hl q) as [Hq'|?]; [apply elem_of_cons; by right| |by right].
      rewrite Hperm in Hq'. apply elem_of_cons in Hq' as [->|?]; [done|by left].
  - intros h. rewrite Hr. done.
Qed.

(** Objects of the manager are different from all structures in use. *)
Lemma get_from_mgr_spec foreign ext held s :
  inv foreign ext held s ->
  wp (with_mgr get_mem_obj_from_mgr) (fun r s' =>
    match r with
    | Some p => inv foreign ext ((p, None) :: held) s' /\ p ∉ foreign /\ same_tree s s' /\ vma_cache s' = vma_cache s
    | None => s' = s
    end) s.
Proof.
  intros Hinv. pose proof Hinv as [_ _ _ _ [Hnd (mgr & live & Em & Hok & Hl & Hb & Hf) Hc Hr]].
  eapply wp_with_mgr; [exact Em|]. unfold get_mem_obj_from_mgr.
  eapply wp_mono; [apply (get_mem_obj_enlarge_spec mgr live); [done..|by intros ? [=]]|].
  intros [p|] mgr'.
  2:{ intros (-> & _). rewrite <- Em. by destruct s. }
  intros (Hp & Hok' & [Ha|(? & [=] & _)]).
  assert (Hpf : p ∉ foreign).
  { intros Hin. rewrite Forall_forall in Hf. destruct (Hf p Hin) as [_ Hno]. apply Hno. rewrite <- Ha.
    destruct Hok' as [_ _ _ _ Hh]. destruct (Hh p) as (newer & a & older & Eal & _ & Hcase); [set_solver|].
    rewrite Eal. destruct Hcase as [[-> _]|(a' & Ha' & -> & _)]; apply list_elem_of_fmap_2; set_solver. }
  split_and!; [|done..]. eapply set_mgr_inv; [exact Hinv|]. constructor; simpl.
  - constructor; [|done]. intros Hin. destruct (Hl p Hin); done.
  - exists mgr', (p :: live). rewrite Ha. split_and!; try done.
    intros q [->|Hq]%elem_of_cons; [left; set_solver|]. destruct (Hl q Hq); [left; set_solver|by right].
  - intros i. rewrite Hc, count_inode_cons. simpl. lia.
  - intros h. rewrite Hr, count_handle_cons. simpl. lia.
Qed.

(** ** Releasing structures *)

Lemma set_refs_inv foreign ext held held' s r n :
  inv foreign ext held s -> resources foreign ext (held' ++ objs s) (set_refs s r n) ->
  inv foreign ext held' (set_refs s r n).
Proof. intros [] Hr. by constructor. Qed.

Lemma free_vma_spec foreign ext p file held s :
  inv foreign ext ((p, file) :: held) s ->
  p ∉ foreign \/ (length (my_cache E s) < VMA_CACHE_SIZE)%nat ->
  wp (free_vma E p file) (fun _ s' =>
    inv foreign ext held s' /\ same_tree s s' /\
    ((length (my_cache E s) < VMA_CACHE_SIZE)%nat -> my_cache E s' = p :: my_cache E s)) s.
Proof.
  intros Hinv Hp. unfold free_vma. apply wp_bind.
  apply (wp_mono _ (fun _ s1 => inv foreign ext ((p, None) :: held) s1 /\ exists r n, s1 = set_refs s r n)).
  { destruct file as [h|].
    - eapply wp_mono; [apply put_file_spec, (inv_res _ _ _ _ Hinv)|].
      intros _ s1 (Hr & r & n & ->). split; [|by eexists _, _]. by eapply set_refs_inv.
    - wp_steps. split; [done|]. exists (ref_count s), (num_mmapped s). by destruct s. }
  intros _ s1 (Hinv1 & r & n & ->). apply wp_bind.
  eapply wp_mono; [by apply add_to_cache_spec|]. intros [|] s2.
  - intros (Hlen & -> & Hinv2). wp_steps. split_and!; [done..|]. intros _.
    unfold my_cache. simpl. by rewrite lookup_insert_eq.
  - intros (Hlen & ->). change (my_cache E (set_refs s r n)) with (my_cache E s) in Hlen.
    destruct Hp as [Hp|Hp]; [|lia].
    eapply wp_mono; [by apply free_to_mgr_spec|]. intros _ s3 (Hinv3 & ? & ? & ?).
    split_and!; [done|done|lia].
Qed.

Lemma same_tree_trans s1 s2 s3 : same_tree s1 s2 -> same_tree s2 s3 -> same_tree s1 s3.
Proof. unfold same_tree. intuition congruence. Qed.

Lemma same_tree_refl s : same_tree s s.
Proof. done. Qed.

Lemma free_vmas_freelist_spec foreign ext l held s :
  inv foreign ext ((obj <$> l) ++ held) s -> (forall v, v ∈ l -> vptr v ∉ foreign) ->
  wp (free_vmas_freelist E l) (fun _ s' => inv foreign ext held s' /\ same_tree s s') s.
Proof.
  revert s. induction l as [|v l IH]; intros s Hinv Hf; simpl; [by wp_steps|]. wp_steps.
  eapply wp_mono; [apply (free_vma_spec _ _ _ _ _ _ Hinv); left; apply Hf; set_solver|].
  intros _ s1 (Hinv1 & Hs & _). eapply wp_mono; [apply IH; [done|set_solver]|].
  intros _ s2 (? & ?). split; [done|by eapply same_tree_trans].
Qed.

Definition opt_held (o : option obj_ptr) : owned := match o with Some p => [(p, None)] | None => [] end.

(** [if (vma) free_vma(vma)] *)
Lemma free_opt_spec foreign ext (o : option obj_ptr) held s :
  inv foreign ext (opt_held o ++ held) s -> (forall p, o = Some p -> p ∉ foreign) ->
  wp (match o with Some p => free_vma E p None | None => mret () end)
     (fun _ s' => inv foreign ext held s' /\ same_tree s s') s.
Proof.
  intros Hinv Hf. destruct o as [p|]; [|by wp_steps].
  eapply wp_mono; [apply (free_vma_spec _ _ _ _ _ _ Hinv); left; by apply Hf|]. intros _ s' (? & ? & _). done.
Qed.

(** ** Changing the tree *)

Lemma set_tree_inv foreign ext held held' s t total peak :
  inv foreign ext held s -> tree_ok (alloc_align E) t -> total = tsize t -> total <= peak ->
  held' ++ (obj <$> t) ≡ₚ held ++ (obj <$> vma_tree s) ->
  inv foreign ext held' (set_total (set_tree s t) total peak).
Proof.
  intros [_ _ _ Hc Hr] Ht Htot Hpeak Hp. constructor; simpl; try done.
  eapply resources_perm; [exact Hr| |done..].
  unfold objs; simpl. by rewrite (assoc_L (++) held'), Hp, <- (assoc_L (++)).
Qed.

(** ** Copies *)

Lemma copy_vma_spec foreign ext v p l s :
  resources foreign ext ((p, None) :: l) s -> area_ok (alloc_align E) v ->
  wp (copy_vma E v p) (fun new s' =>
    new = set_vptr v p /\ resources foreign ext ((p, vfile v) :: l) s' /\
    exists r n, s' = set_refs s r n) s.
Proof.
  intros Hr Hv. unfold copy_vma. apply wp_bind.
  apply (wp_mono _ (fun _ s' => resources foreign ext ((p, vfile v) :: l) s' /\
                                exists r n, s' = set_refs s r n)).
  - destruct (vfile v) as [h|]; [by apply get_file_spec|]. wp_steps. split; [done|].
    exists (ref_count s), (num_mmapped s). by destruct s.
  - intros _ s' (? & ?). wp_steps. split_and!; try done. unfold set_vptr. by rewrite (area_ok_comment _ _ Hv).
Qed.

Lemma split_vma_spec foreign ext v p addr l s :
  resources foreign ext ((p, None) :: l) s -> area_ok (alloc_align E) v -> vbegin v < addr < vend v ->
  wp (split_vma E v p addr) (fun r s' =>
    r = (set_vend v addr, upper p addr v) /\ resources foreign ext ((p, vfile v) :: l) s' /\
    exists r n, s' = set_refs s r n) s.
Proof.
  intros Hr Hv Ha. unfold split_vma. wp_steps.
  apply wp_assert; [apply andb_true_iff; split; apply Z.ltb_lt; lia|]. wp_steps.
  eapply wp_mono; [by apply copy_vma_spec|]. intros new s' (-> & ? & ?). wp_steps.
  split_and!; try done. by destruct v as [? ? ? ? ? [] ? ?].
Qed.

End inv.
