(* ===== verification/VmaOps.v ===== *)
(** * Correctness of the operations on memory areas

    What the functions of [Vma] do to the tree, on every path, and that they
    keep the invariant of [VmaInv] and never fail an assertion. *)

From S2P Require Import Prelude OrdSeq Memmgr Vma VmaTree VmaInv.

(** Steps through the primitive operations on the tree as well. *)
Ltac vma_step :=
  lazymatch goal with
  | |- wp (avl_tree_insert _) _ _ => unfold avl_tree_insert at 1
  | |- wp (avl_tree_delete _) _ _ => unfold avl_tree_delete at 1
  | |- wp (write_vma _) _ _ => unfold write_vma at 1
  | |- wp (_lookup_vma _) _ _ => unfold _lookup_vma at 1
  | |- wp (_prev_vmas _) _ _ => unfold _prev_vmas at 1
  | _ => wp_step
  end.
Ltac vma_steps := repeat (vma_step; cbn beta).

(** What the PAL guarantees about the address ranges it reports. *)
Record env_ok (E : vma_env) : Prop := {
  eo_align : pow2_align (alloc_align E);
  eo_start : 0 <= memory_address_start E;
  eo_range : memory_address_start E < memory_address_end E;
  eo_end : memory_address_end E <= UINTPTR_MAX;
  eo_shared_start : 0 <= shared_address_start E;
  eo_shared_end : shared_address_end E <= UINTPTR_MAX;
  eo_early : early_libos_mem_range_start E < early_libos_mem_range_end E;
  eo_early_start : IS_ALIGNED_POW2 (early_libos_mem_range_start E) (alloc_align E) = true;
  eo_early_end : IS_ALIGNED_POW2 (early_libos_mem_range_end E) (alloc_align E) = true;
  eo_aslr : memory_address_start E < g_aslr_addr_top E <= memory_address_end E
}.

Section ops.
Context (E : vma_env).

Lemma total_sub_spec n s :
  0 <= n <= g_total_memory_size s -> g_total_memory_size s <= UINTPTR_MAX ->
  wp (total_memory_size_sub n) (fun _ s' =>
    s' = set_total s (g_total_memory_size s - n) (g_peak_total_memory_size s)) s.
Proof.
  intros Hn Ht. unfold total_memory_size_sub. wp_steps. apply wp_assert; [apply Z.leb_le; lia|]. wp_steps.
  rewrite u64_small; [done|]. unfold UINTPTR_MAX in *. lia.
Qed.

Lemma wp_insert v pre suf (Q : unit -> vma_state -> Prop) s :
  vma_tree s = pre ++ suf -> tree_ok (alloc_align E) (pre ++ v :: suf) ->
  Q () (set_tree s (pre ++ v :: suf)) -> wp (avl_tree_insert v) Q s.
Proof. intros Et Hok HQ. vma_steps. by rewrite Et, (insert_ok (alloc_align E)). Qed.

Lemma wp_delete v pre suf (Q : unit -> vma_state -> Prop) s :
  vma_tree s = pre ++ v :: suf -> tree_ok (alloc_align E) (pre ++ v :: suf) ->
  Q () (set_tree s (pre ++ suf)) -> wp (avl_tree_delete v) Q s.
Proof. intros Et Hok HQ. vma_steps. by rewrite Et, (without_app (alloc_align E)). Qed.

Lemma wp_write v v' pre suf (Q : unit -> vma_state -> Prop) s :
  vma_tree s = pre ++ v :: suf -> tree_ok (alloc_align E) (pre ++ v :: suf) -> vptr v' = vptr v ->
  Q () (set_tree s (pre ++ v' :: suf)) -> wp (write_vma v') Q s.
Proof. intros Et Hok Hp HQ. vma_steps. by rewrite Et, (replace_node_app (alloc_align E) v). Qed.

Lemma total_add_spec n s :
  0 <= n -> 0 <= g_total_memory_size s -> g_total_memory_size s + n <= UINTPTR_MAX ->
  wp (total_memory_size_add n) (fun _ s' =>
    s' = set_total s (g_total_memory_size s + n)
           (Z.max (g_peak_total_memory_size s) (g_total_memory_size s + n))) s.
Proof.
  intros Hn H0 Ht. unfold total_memory_size_add. wp_steps. rewrite u64_small by (unfold UINTPTR_MAX in *; lia).
  f_equal. destruct (Z.ltb_spec (g_peak_total_memory_size s) (g_total_memory_size s + n)); lia.
Qed.

(** A new area enters the tree. *)
Lemma insert_new_spec foreign ext v pre suf held s :
  inv E foreign ext (obj v :: held) s -> vma_tree s = pre ++ suf -> area_ok (alloc_align E) v ->
  Forall (fun w => vend w <= vbegin v) pre -> Forall (fun w => vend v <= vbegin w) suf ->
  wp (avl_tree_insert v;; total_memory_size_add (vend v - vbegin v)) (fun _ s' =>
    inv E foreign ext held s' /\ vma_tree s' = pre ++ v :: suf /\ vma_cache s' = vma_cache s) s.
Proof.
  intros Hinv Et Hv Hpre Hsuf. pose proof Hinv as [Hok Htot Hpeak _ _].
  pose proof (inv_held_fresh _ _ _ _ _ (vptr v) (vfile v) Hinv ltac:(set_solver)) as Hp.
  rewrite Et in Hok, Hp.
  pose proof (tree_ok_insert _ v pre suf Hok Hv Hpre Hsuf Hp) as Hok'.
  pose proof (tsize_range _ _ Hok). pose proof (tsize_range _ _ Hok') as Hr.
  rewrite tsize_app in Hr. simpl in Hr. rewrite Et, tsize_app in Htot. rewrite tsize_app in *. unfold len in Hr.
  destruct Hv. apply wp_bind, (wp_insert v pre suf); [done..|].
  eapply wp_mono; [apply total_add_spec; simpl; lia|]. intros _ s' ->. simpl. split_and!; [|done..].
  eapply (set_tree_inv E foreign ext _ held s (pre ++ v :: suf)); [done..| |lia|].
  - rewrite tsize_app. simpl. unfold len. lia.
  - rewrite Et, !fmap_app, fmap_cons. solve_Permutation.
Qed.

Lemma wp_insert_new {A} foreign ext v pre suf held (k : SM vma_state A) Q s :
  inv E foreign ext (obj v :: held) s -> vma_tree s = pre ++ suf -> area_ok (alloc_align E) v ->
  Forall (fun w => vend w <= vbegin v) pre -> Forall (fun w => vend v <= vbegin w) suf ->
  (forall s', inv E foreign ext held s' -> vma_tree s' = pre ++ v :: suf -> vma_cache s' = vma_cache s ->
     wp k Q s') ->
  wp (avl_tree_insert v;; total_memory_size_add (vend v - vbegin v);; k) Q s.
Proof.
  intros Hinv Et Hv Hpre Hsuf Hk. apply (wp_assoc _ (fun _ => total_memory_size_add _) (fun _ => k)), wp_bind.
  eapply wp_mono; [exact (insert_new_spec foreign ext v pre suf held s Hinv Et Hv Hpre Hsuf)|].
  intros _ s' (? & ? & ?). by apply Hk.
Qed.

(** ** Removing a range *)

Lemma remove_loop_spec b e p l pre s :
  b < e -> tree_ok (alloc_align E) (pre ++ l) -> vma_tree s = pre ++ l ->
  Forall (fun v => b <= vbegin v) l ->
  tsize l <= g_total_memory_size s <= UINTPTR_MAX ->
  wp (remove_loop e l) (fun to_free s' =>
    to_free = filter (inside b e) l /\
    s' = set_total (set_tree s (pre ++ remove_areas b e p l))
           (g_total_memory_size s - covered_size b e l) (g_peak_total_memory_size s)) s.
Proof.
  intros Hbe. revert pre s. induction l as [|v next IH]; intros pre s Hok Et Hb Hs; cbn [remove_loop].
  { vma_steps. split; [done|]. change (remove_areas b e p []) with (@nil libos_vma). rewrite <- Et. simpl. rewrite Z.sub_0_r. by destruct s. }
  pose proof Hok as (_ & Hok2 & _)%tree_ok_app. pose proof Hok2 as (Hv & Hok3 & Hlt & _)%tree_ok_cons.
  apply Forall_cons in Hb as [Hbv Hb]. pose proof (tsize_range _ _ Hok3). destruct Hv as [Hv1 Hv2 Hv3 _ _ _].
  simpl in Hs. unfold len in Hs. rewrite filter_cons, remove_areas_cons, covered_size_cons.
  destruct (Z.leb_spec (vend v) e).
  - vma_steps. eapply wp_mono; [apply total_sub_spec; simpl; lia|]. intros _ s1 ->. apply wp_bind.
    eapply wp_mono; [apply (IH pre)|]; simpl.
    + rewrite tree_ok_app. rewrite tree_ok_app, tree_ok_cons in Hok. naive_solver set_solver.
    + rewrite Et. by eapply without_app.
    + done.
    + lia.
    + intros to_free s2 (-> & ->). vma_steps. rewrite decide_True
        by (apply Is_true_true, andb_true_iff; split; by apply Z.leb_le).
      split; [done|]. unfold outside, covered. rewrite (proj2 (Z.ltb_ge _ b)), (proj2 (Z.ltb_ge e _)) by lia.
      unfold set_total, set_tree; simpl. f_equal. lia.
  - assert (Hbeyond : Forall (fun w => e <= vbegin w) next).
    { apply Forall_forall. intros w Hw. specialize (Hlt w Hw). unfold below in Hlt. lia. }
    destruct (remove_beyond (alloc_align E) b e p next Hbe) as (-> & -> & ->); [apply Hok3|done|].
    assert (Hin : inside b e v = false)
      by (unfold inside; apply andb_false_iff; right; by apply Z.leb_gt).
    rewrite decide_False by (rewrite Hin; by intros []).
    destruct (Z.ltb_spec (vbegin v) e).
    + vma_steps. eapply wp_mono; [apply total_sub_spec; lia|]. intros _ s1 ->. vma_steps. split; [done|].
      simpl. rewrite Et, (replace_node_app (alloc_align E)) by (try done; by destruct (vfile v)).
      unfold outside, right_part, covered. rewrite (proj2 (Z.ltb_ge _ b)), (proj2 (Z.ltb_lt e _)), (proj2 (Z.ltb_lt _ e)) by lia.
      unfold set_total, set_tree; simpl. f_equal; [|lia]. by destruct v as [? ? ? ? ? [] ? ?].
    + vma_steps. split; [done|]. rewrite (outside_high (alloc_align E)) by (try done; by destruct Hok2 as [?%Forall_cons _ _]; naive_solver).
      unfold covered. rewrite Z.max_l by lia. rewrite Z.sub_0_r. simpl. rewrite <- Et. by destruct s.
Qed.

(** The first loop of [_vma_bkeep_remove] decides whether all areas in the
    range have the requested ownership. *)
Definition all_owned_in (t : list libos_vma) (b e : Z) (is_internal : bool) : Prop :=
  forall v, v ∈ t -> overlaps b e v = true -> is_internal_vma v = is_internal.

Lemma all_owned_spec b e is_internal pre suf :
  tree_ok (alloc_align E) (pre ++ suf) -> Forall (fun v => vend v <= b) pre -> Forall (fun v => b < vend v) suf ->
  if all_owned e is_internal suf then all_owned_in (pre ++ suf) b e is_internal
  else exists v, v ∈ pre ++ suf /\ overlaps b e v = true /\ is_internal_vma v <> is_internal.
Proof.
  intros Hok Hpre Hsuf.
  assert (Hpre' : forall v, v ∈ pre -> overlaps b e v = false).
  { intros v Hv. rewrite Forall_forall in Hpre. specialize (Hpre v Hv). simpl in Hpre. unfold overlaps.
    by rewrite (proj2 (Z.ltb_ge _ _) Hpre), andb_false_r. }
  revert pre Hpre Hpre' Hok. induction Hsuf as [|v suf Hv Hsuf IH]; intros pre Hpre Hpre' Hok; cbn [all_owned].
  { rewrite app_nil_r. intros v Hv Ho. by rewrite Hpre' in Ho. }
  pose proof Hok as (_ & ([_ Hne _ _ _ _] & Hok' & Hlt & _)%tree_ok_cons & _)%tree_ok_app.
  destruct (Z.ltb_spec (vbegin v) e).
  - assert (Hov : overlaps b e v = true) by (unfold overlaps; apply andb_true_iff; split; by apply Z.ltb_lt).
    destruct (eqb_spec (is_internal_vma v) is_internal) as [Hi|Hi]; [|exists v; set_solver].
    specialize (IH [] ltac:(done) ltac:(set_solver) Hok'). destruct (all_owned e is_internal suf).
    + intros w [Hw|[->|Hw]%elem_of_cons]%elem_of_app Ho; [by rewrite Hpre' in Ho|done|by apply IH].
    + destruct IH as (w & Hw & ?). exists w. set_solver.
  - intros w [Hw|Hw]%elem_of_app Ho; [by rewrite Hpre' in Ho|]. unfold overlaps in Ho. breflect.
    apply elem_of_cons in Hw as [->|Hw]; [lia|]. specialize (Hlt w Hw). unfold below in Hlt. lia.
Qed.

(** The three ways [_vma_bkeep_remove] returns. *)
Definition remove_post foreign ext (b e : Z) (is_internal : bool) (new : option obj_ptr)
    (held : list (obj_ptr * option Z)) (s : vma_state)
    (r : Z * option obj_ptr * list libos_vma) (s' : vma_state) : Prop :=
  let '(ret, unused, to_free) := r in
  (ret = - EACCES /\ s' = s /\ unused = new /\ to_free = [] /\
     exists v, v ∈ vma_tree s /\ overlaps b e v = true /\ is_internal_vma v <> is_internal) \/
  (ret = - ENOMEM /\ s' = s /\ new = None /\ unused = None /\ to_free = [] /\
     exists v, v ∈ vma_tree s /\ encloses b e v = true) \/
  (ret = 0 /\ all_owned_in (vma_tree s) b e is_internal /\
     (exists q, q ∉ (vptr <$> vma_tree s) /\ vma_tree s' = remove_areas b e q (vma_tree s)) /\
     vma_cache s' = vma_cache s /\
     (unused = None \/ unused = new) /\ to_free = filter (inside b e) (vma_tree s) /\
     inv E foreign ext (opt_held unused ++ (obj <$> to_free) ++ held) s').

(** The range lies inside of one area, which is split. *)
Lemma remove_split_spec foreign ext b e p pre vma next held s :
  inv E foreign ext ((p, None) :: held) s -> vma_tree s = pre ++ vma :: next -> b < e ->
  IS_ALIGNED_POW2 b (alloc_align E) = true -> IS_ALIGNED_POW2 e (alloc_align E) = true ->
  encloses b e vma = true -> Forall (fun v => vend v <= b) pre ->
  wp ('(old, new) ← split_vma E vma p e;
      write_vma (set_vend old b);; avl_tree_insert new;; total_memory_size_sub (e - b);;
      mret (0, @None obj_ptr, @nil libos_vma))
     (fun r s' => r = (0, None, []) /\ filter (inside b e) (vma_tree s) = [] /\
        vma_tree s' = remove_areas b e p (vma_tree s) /\
        vma_cache s' = vma_cache s /\ inv E foreign ext held s') s.
Proof.
  intros Hinv Et Hbe Hb He Hen Hpre. pose proof Hinv as [Hok Htot Hpeak Hc Hr].
  unfold encloses in Hen. breflect.
  pose proof (inv_held_fresh _ _ _ _ _ p None Hinv ltac:(set_solver)) as Hp.
  pose proof (remove_areas_ok _ b e p _ Hok Hbe Hb He Hp) as Hok'.
  pose proof (remove_areas_size _ b e p _ (tree_ok_areas _ _ Hok) Hbe) as Hsz.
  pose proof (remove_areas_obj _ b e p _ (tree_ok_areas _ _ Hok) Hbe) as Hperm.
  pose proof (tsize_range _ _ Hok) as Hrange. pose proof (tsize_range _ _ Hok') as Hrange'.
  rewrite Et in Hok. pose proof Hok as (Hokp & (Hv & Hokn & Hlt & _)%tree_ok_cons & _)%tree_ok_app.
  assert (Hnext : Forall (fun w => e <= vbegin w) next).
  { apply Forall_forall. intros w Hw. specialize (Hlt w Hw). unfold below in Hlt. lia. }
  destruct (remove_before _ b e p pre Hbe (tree_ok_areas _ _ Hokp) Hpre) as (Hp1 & Hp2 & Hp3).
  destruct (remove_beyond _ b e p next Hbe (tree_ok_areas _ _ Hokn) Hnext) as (Hn1 & Hn2 & Hn3).
  assert (Heq : remove_areas b e p (vma_tree s) = (pre ++ [set_vend vma b]) ++ upper p e vma :: next).
  { rewrite Et, remove_areas_app, remove_areas_cons, Hp1, Hn1, <- (assoc_L (++)). unfold outside, right_part.
    rewrite (proj2 (Z.ltb_lt (vbegin vma) b)), (proj2 (Z.ltb_lt e (vend vma))), (proj2 (Z.ltb_lt (vbegin vma) e)) by lia.
    by rewrite Z.min_r by lia. }
  apply wp_bind. eapply wp_mono; [apply (split_vma_spec E foreign ext vma p e (held ++ objs s) s Hr Hv); lia|].
  intros ? s1 (-> & Hr1 & r & n & ->). apply wp_bind.
  apply (wp_write vma _ pre next); [by rewrite <- Et|done|done|]. apply wp_bind.
  apply (wp_insert _ (pre ++ [set_vend vma b]) next); [by rewrite <- (assoc_L (++))|by rewrite <- Heq|].
  rewrite <- Heq. apply wp_bind.
  assert (Hcov : covered_size b e (vma_tree s) = e - b).
  { rewrite Et, covered_size_app, covered_size_cons, Hp2, Hn2. unfold covered. lia. }
  rewrite Hcov in Hsz. eapply wp_mono; [apply total_sub_spec; simpl; lia|]. intros _ s2 ->. vma_steps.
  split_and!; [done| |done..|].
  { rewrite Et, filter_app, filter_cons, Hp3, Hn3, decide_False; [done|].
    intros Hin%Is_true_true. unfold inside in Hin. breflect. lia. }
  constructor; simpl; [done|lia|lia|done|].
  eapply resources_perm; [exact Hr1| |done..]. unfold objs; simpl.
  rewrite Heq, Et, !fmap_app, !fmap_cons. change (obj (upper p e vma)) with (p, vfile vma).
  simpl. solve_Permutation.
Qed.

Lemma remove_nosplit_eq b e p q t :
  filter (encloses b e) t = [] -> remove_areas b e p t = remove_areas b e q t.
Proof.
  intros Hno. induction t as [|v t IH]; [done|]. rewrite !remove_areas_cons.
  rewrite filter_cons in Hno. case_decide as Hd; [done|]. rewrite IH by done. f_equal.
  unfold outside, right_part, encloses in *. destruct (vbegin v <? b), (e <? vend v); done || by destruct Hd.
Qed.

Lemma fresh_ptr (t : list libos_vma) : exists q, q ∉ (vptr <$> t).
Proof.
  destruct (exist_fresh (list_to_set (vptr <$> t) : gset obj_ptr)) as [q Hq]. exists q.
  by rewrite elem_of_list_to_set in Hq.
Qed.

(** No area is split: the areas inside the range leave the tree, the ones at its
    borders are trimmed. *)
Lemma remove_nosplit_inv foreign ext b e p held s :
  inv E foreign ext held s -> b < e ->
  IS_ALIGNED_POW2 b (alloc_align E) = true -> IS_ALIGNED_POW2 e (alloc_align E) = true ->
  filter (encloses b e) (vma_tree s) = [] ->
  inv E foreign ext ((obj <$> filter (inside b e) (vma_tree s)) ++ held)
    (set_total (set_tree s (remove_areas b e p (vma_tree s)))
       (g_total_memory_size s - covered_size b e (vma_tree s)) (g_peak_total_memory_size s)).
Proof.
  intros Hinv Hbe Hb He Hno. pose proof Hinv as [Hok Htot Hpeak Hc Hr].
  pose proof (tree_ok_areas _ _ Hok) as Ha.
  pose proof (remove_areas_obj _ b e p _ Ha Hbe) as Hperm. rewrite Hno, app_nil_r in Hperm.
  pose proof (covered_size_bound _ b e _ Ha).
  eapply set_tree_inv; [exact Hinv| | |lia|].
  - destruct (fresh_ptr (vma_tree s)) as [q Hq]. rewrite (remove_nosplit_eq b e p q) by done.
    by apply remove_areas_ok.
  - rewrite Htot. symmetry. by eapply remove_areas_size.
  - rewrite (Permutation_app_comm _ held), <- (assoc_L (++)), (Permutation_app_comm (obj <$> filter _ _)).
    by rewrite Hperm.
Qed.

Lemma encloses_inv pre vma next b e :
  tree_ok (alloc_align E) (pre ++ vma :: next) -> b < e -> Forall (fun v => vend v <= b) pre ->
  Forall (fun v => b < vend v) (vma :: next) -> encloses b e vma = false ->
  filter (encloses b e) (pre ++ vma :: next) = [].
Proof.
  intros (_ & (_ & _ & Hlt & _)%tree_ok_cons & _)%tree_ok_app Hbe Hpre [Hv _]%Forall_cons Hen.
  apply list_filter_none, Forall_forall. intros w [Hw|[->|Hw]%elem_of_cons]%elem_of_app H%Is_true_true; try congruence;
    unfold encloses in H; breflect.
  - rewrite Forall_forall in Hpre. specialize (Hpre w Hw). simpl in Hpre. lia.
  - specialize (Hlt w Hw). unfold below in Hlt. lia.
Qed.

(** The area at the lower border is trimmed, then the loop runs. *)
Lemma remove_trim_spec b e p pre vma next s :
  tree_ok (alloc_align E) (pre ++ vma :: next) -> vma_tree s = pre ++ vma :: next -> b < e ->
  IS_ALIGNED_POW2 b (alloc_align E) = true ->
  g_total_memory_size s = tsize (vma_tree s) ->
  Forall (fun v => vend v <= b) pre -> b < vend vma -> encloses b e vma = false ->
  wp (if vbegin vma <? b then
        total_memory_size_sub (vend vma - b);; write_vma (set_vend vma b);; remove_loop e next
      else remove_loop e (vma :: next))
     (fun to_free s' => to_free = filter (inside b e) (vma_tree s) /\
        s' = set_total (set_tree s (remove_areas b e p (vma_tree s)))
               (g_total_memory_size s - covered_size b e (vma_tree s)) (g_peak_total_memory_size s)) s.
Proof.
  intros Hok Et Hbe Hb Htot Hpre Hv Hen. pose proof (tsize_range _ _ Hok) as Hrange.
  pose proof Hok as (Hokp & Hoks & _)%tree_ok_app.
  destruct (remove_before _ b e p pre Hbe (tree_ok_areas _ _ Hokp) Hpre) as (Hp1 & Hp2 & Hp3).
  pose proof Hoks as ([Hv1 Hv2 Hv3 Hv4 Hv5 Hv6] & Hokn & Hlt & _)%tree_ok_cons.
  pose proof (tsize_range _ _ Hokp). pose proof (tsize_range _ _ Hokn).
  rewrite tsize_app in Hrange. simpl in Hrange. rewrite <- Et in Hok.
  rewrite Et, tsize_app in Htot. simpl in Htot. unfold len in *.
  assert (Hb' : forall w, w ∈ next -> b <= vbegin w).
  { intros w Hw. specialize (Hlt w Hw). unfold below in Hlt. lia. }
  destruct (Z.ltb_spec (vbegin vma) b) as [Hlow|Hlow].
  - unfold encloses in Hen. rewrite (proj2 (Z.ltb_lt _ _) Hlow) in Hen. simpl in Hen. breflect.
    apply wp_bind. eapply wp_mono; [apply total_sub_spec; lia|]. intros _ s1 ->. apply wp_bind.
    apply (wp_write vma _ pre next); [done|by rewrite <- Et|done|].
    eapply wp_mono; [apply (remove_loop_spec b e p next (pre ++ [set_vend vma b]))|]; simpl.
    + done.
    + rewrite <- (assoc_L (++)). simpl. rewrite Et in Hok. rewrite tree_ok_app, tree_ok_cons in Hok |- *.
      unfold below in *. destruct Hok as (? & (? & ? & ? & ?) & Hx & Hy). split_and!; try done.
      * constructor; simpl; done || lia.
      * intros x y Hxx [->|Hyy]%elem_of_cons; [apply (Hx x vma); set_solver|apply Hx; set_solver].
      * intros x y Hxx [->|Hyy]%elem_of_cons; [apply (Hy x vma); set_solver|apply Hy; set_solver].
    + by rewrite <- (assoc_L (++)).
    + by apply Forall_forall.
    + lia.
    + intros to_free s2 (-> & ->). rewrite Et, filter_app, filter_cons, Hp3. split.
      * rewrite decide_False; [done|]. intros Hin%Is_true_true. unfold inside in Hin. breflect. lia.
      * rewrite remove_areas_app, remove_areas_cons, Hp1, covered_size_app, covered_size_cons, Hp2.
        unfold outside, covered. rewrite (proj2 (Z.ltb_lt (vbegin vma) b)), (proj2 (Z.ltb_ge e (vend vma))) by lia.
        rewrite Z.min_r, <- (assoc_L (++)) by lia. unfold set_total, set_tree; simpl. f_equal. lia.
  - eapply wp_mono; [apply (remove_loop_spec b e p (vma :: next) pre)|].
    + done.
    + by rewrite <- Et.
    + done.
    + constructor; [done|by apply Forall_forall].
    + simpl. unfold len. lia.
    + intros to_free s2 (-> & ->). rewrite Et, filter_app, Hp3, remove_areas_app, Hp1, covered_size_app, Hp2.
      done.
Qed.

Lemma vma_bkeep_remove_spec foreign ext b e is_internal new held s :
  inv E foreign ext (opt_held new ++ held) s -> b < e ->
  IS_ALIGNED_POW2 b (alloc_align E) = true -> IS_ALIGNED_POW2 e (alloc_align E) = true ->
  wp (_vma_bkeep_remove E b e is_internal new) (remove_post foreign ext b e is_internal new held s) s.
Proof.
  intros Hinv Hbe Hb He. pose proof Hinv as [Hok Htot _ _ _].
  unfold _vma_bkeep_remove. vma_steps. apply wp_assert; [by apply andb_true_iff|]. vma_steps.
  destruct (lookup_split _ (vma_tree s) b Hok) as (pre & suf & Es & Et & Hpre & Hsuf). rewrite Es. simpl.
  pose proof Hok as Hok0. rewrite Et in Hok0.
  pose proof (all_owned_spec b e is_internal pre suf Hok0 Hpre Hsuf) as Hown. rewrite <- Et in Hown.
  destruct suf as [|vma next].
  { vma_steps. do 2 right. rewrite app_nil_r in Et. rewrite <- Et in Hpre.
    destruct (fresh_ptr (vma_tree s)) as [q Hq].
    destruct (remove_before _ b e q _ Hbe (tree_ok_areas _ _ Hok) Hpre) as (E1 & _ & E2).
    rewrite E2. split_and!; try done; [|by right]. exists q. by rewrite E1. }
  destruct (all_owned e is_internal (vma :: next)) eqn:Eown; [|vma_steps; by left].
  apply Forall_cons in Hsuf as Hv. destruct Hv as [Hv _].
  destruct (encloses b e vma) eqn:Hen.
  { pose proof Hen as Hen'. unfold encloses in Hen'. apply andb_true_iff in Hen' as [-> ->].
    destruct new as [p|].
    - eapply wp_mono; [apply (remove_split_spec foreign ext b e p pre vma next _ _ Hinv Et Hbe Hb He Hen Hpre)|].
      intros r s' (-> & ? & ? & ? & ?). do 2 right. split_and!; try done; [|by left].
      exists p. split; [|done]. eapply inv_held_fresh; [exact Hinv|]. apply elem_of_cons. by left.
    - vma_steps. right. left. split_and!; try done. exists vma. split; [rewrite Et; set_solver|done]. }
  destruct (fresh_ptr (vma_tree s)) as [q Hq].
  pose proof (remove_trim_spec b e q pre vma next s Hok0 Et Hbe Hb Htot Hpre Hv Hen) as Hwp.
  assert (Hres : wp (to_free ← (if vbegin vma <? b then
      total_memory_size_sub (vend vma - b);; write_vma (set_vend vma b);; remove_loop e next
      else remove_loop e (vma :: next)); mret (0, new, to_free))
      (remove_post foreign ext b e is_internal new held s) s).
  { apply wp_bind. eapply wp_mono; [exact Hwp|]. intros to_free s' (-> & ->). vma_steps. do 2 right.
    split_and!; try done; [by exists q|by right|].
    eapply inv_perm; [eapply (remove_nosplit_inv foreign ext b e q _ s Hinv Hbe Hb He)|].
    - rewrite Et. by apply encloses_inv.
    - solve_Permutation. }
  unfold encloses in Hen. destruct (vbegin vma <? b); [|exact Hres].
  simpl in Hen. rewrite Hen. by apply wp_assoc2.
Qed.

(** ** Mapping at any address *)

Lemma init_new_vma_spec foreign ext p b e prot flags file offset comment held s :
  inv E foreign ext ((p, None) :: held) s ->
  wp (init_new_vma E p b e prot flags file offset comment) (fun v s' =>
    v = Vma p b e prot (Z.lor (filter_saved_flags flags)
          (if file then if has prot PROT_WRITE then VMA_TAINTED else 0 else 0))
          file (if file then offset else 0) (copy_comment comment) /\
    inv E foreign ext ((p, file) :: held) s' /\ exists r n, s' = set_refs s r n) s.
Proof.
  intros Hinv. unfold init_new_vma. apply wp_bind.
  apply (wp_mono _ (fun _ s' => inv E foreign ext ((p, file) :: held) s' /\ exists r n, s' = set_refs s r n)).
  - destruct file as [h|].
    + unfold wp. rewrite get_file_comm. eapply wp_mono; [apply (get_file_spec E), (inv_res _ _ _ _ _ Hinv)|].
      intros _ s' (Hr & r & n & ->). split; [|by eexists _, _]. by eapply set_refs_inv.
    + wp_steps. split; [done|]. exists (ref_count s), (num_mmapped s). by destruct s.
  - intros _ s' (? & ?). by wp_steps.
Qed.

(** No area intersects [[a, b)]. *)
Definition free_range (t : list libos_vma) (a b : Z) : Prop :=
  forall v, v ∈ t -> vend v <= a \/ b <= vbegin v.

(** [find_gap] finds the highest gap: [x] is a candidate if the range
    [[x, x + length)] is free and in bounds. *)
Definition candidate (t : list libos_vma) (bottom top length x : Z) : Prop :=
  bottom <= x /\ x + length <= top /\ free_range t x (x + length).

Definition find_gap_post (t : list libos_vma) (bottom top length : Z) (r : option Z) : Prop :=
  match r with
  | Some max => IS_ALIGNED_POW2 max (alloc_align E) = true /\
      exists pre suf, t = pre ++ suf /\ Forall (fun v => vend v <= max - length) pre /\
      Forall (fun v => max <= vbegin v) suf /\ bottom <= max - length /\ max <= top /\
      (forall x, candidate t bottom top length x -> x <= max - length)
  | None => forall x, ~ candidate t bottom top length x
  end.

Lemma last_gap_spec bottom top length pre suf max :
  0 < length -> max <= top -> IS_ALIGNED_POW2 max (alloc_align E) = true ->
  Forall (fun v => vend v <= bottom) pre -> Forall (fun v => max <= vbegin v) suf ->
  (forall x, candidate (pre ++ suf) bottom top length x -> x + length <= max) ->
  find_gap_post (pre ++ suf) bottom top length
    (if (bottom <=? max) && (length <=? max - bottom) then Some max else None).
Proof.
  intros Hlen Hmax Hal Hpre Hsuf Hcand. destruct (_ && _) eqn:Hb.
  - breflect. split; [done|]. exists pre, suf. split_and!; try done; try lia.
    + eapply Forall_impl; [exact Hpre|]. simpl. intros. lia.
    + intros x Hx. specialize (Hcand x Hx). lia.
  - intros x Hx. specialize (Hcand x Hx). destruct Hx as (Hx1 & _ & _).
    apply andb_false_iff in Hb as [Hb|Hb]; breflect; lia.
Qed.

Lemma find_gap_spec bottom top length pre suf max s :
  tree_ok (alloc_align E) (pre ++ suf) -> 0 < length -> max <= top -> IS_ALIGNED_POW2 max (alloc_align E) = true ->
  Forall (fun v => vend v <= max) pre -> Forall (fun v => max <= vbegin v) suf ->
  (forall x, candidate (pre ++ suf) bottom top length x -> x + length <= max) ->
  wp (find_gap bottom length (reverse pre) max)
     (fun r s' => s' = s /\ find_gap_post (pre ++ suf) bottom top length r) s.
Proof.
  revert suf max. induction pre as [|vma pre IH] using rev_ind; intros suf max Hok Hlen Hmax Hal Hpre Hsuf Hcand.
  { simpl. vma_steps. split; [done|]. by apply (last_gap_spec bottom top length []). }
  rewrite reverse_snoc. cbn [find_gap].
  pose proof Hok as Hok'. rewrite <- (assoc_L (++)) in Hok'. simpl in Hok'.
  pose proof (tree_ok_before _ _ _ _ Hok') as Hbefore.
  apply Forall_app in Hpre as [Hpre Hvma]. rewrite Forall_singleton in Hvma.
  pose proof (tree_ok_in _ _ vma Hok' ltac:(set_solver)) as [Hv1 Hv2 Hv3 Hv4 _ _].
  assert (Hup : forall z, vend vma <= z -> Forall (fun v => vend v <= z) (pre ++ [vma])).
  { intros z Hz. apply Forall_app. split; [|by apply Forall_singleton].
    eapply Forall_impl; [exact Hbefore|]. simpl. lia. }
  destruct (Z.leb_spec bottom (vend vma)).
  - apply wp_bind. apply wp_assert; [by apply Z.leb_le|]. destruct (Z.leb_spec length (max - vend vma)).
    + vma_steps. split; [done|]. split; [done|]. exists (pre ++ [vma]), suf. split_and!; try done; try lia.
      * apply Hup. lia.
      * intros x Hx. specialize (Hcand x Hx). lia.
    + rewrite <- (assoc_L (++)) in *. simpl in *. apply (IH (vma :: suf)); [done|done|lia|done|done| |].
      * constructor; [done|]. eapply Forall_impl; [exact Hsuf|]. simpl. lia.
      * intros x Hx. pose proof (Hcand x Hx). destruct Hx as (_ & _ & Hx).
        destruct (Hx vma); [set_solver|lia|lia].
  - vma_steps. split; [done|]. apply last_gap_spec; try done. apply Hup. lia.
Qed.

Lemma substring_idem n s : String.substring 0 n (String.substring 0 n s) = String.substring 0 n s.
Proof.
  revert s. induction n as [|n IH]; intros [|c s]; simpl; try done. by rewrite IH.
Qed.

Lemma copy_comment_idem c : copy_comment (copy_comment c) = copy_comment c.
Proof. apply substring_idem. Qed.

(** The area that [bkeep_mmap_any] and [bkeep_mmap_fixed] record. *)
Definition mapped_vma (p : obj_ptr) (addr length prot flags : Z) (file : option Z) (offset : Z)
    (comment : string) : libos_vma :=
  Vma p addr (addr + length) prot
    (Z.lor (filter_saved_flags flags) (if file then if has prot PROT_WRITE then VMA_TAINTED else 0 else 0))
    file (if file then offset else 0) (copy_comment comment).

Definition place_post foreign ext (p : obj_ptr) (bottom top length prot flags : Z) (file : option Z)
    (offset : Z) (comment : string) (held : list (obj_ptr * option Z)) (s : vma_state)
    (r : Z * Z) (s' : vma_state) : Prop :=
  inv E foreign ext held s' /\
  ((exists addr pre suf, r = (0, addr) /\ vma_tree s = pre ++ suf /\
      vma_tree s' = pre ++ mapped_vma p addr length prot flags file offset comment :: suf /\
      candidate (vma_tree s) bottom top length addr /\
      (forall x, candidate (vma_tree s) bottom top length x -> x <= addr) /\
      vma_cache s' = vma_cache s) \/
   (r = (- ENOMEM, 0) /\ vma_tree s' = vma_tree s /\
      (forall x, ~ candidate (vma_tree s) bottom top length x) /\
      ((List.length (my_cache E s) < VMA_CACHE_SIZE)%nat -> my_cache E s' = p :: my_cache E s))).

Context (HE : env_ok E).

Lemma place_new_vma_spec foreign ext p bottom top length prot flags file offset comment held s :
  inv E foreign ext ((p, None) :: held) s ->
  p ∉ foreign \/ (List.length (my_cache E s) < VMA_CACHE_SIZE)%nat ->
  0 <= bottom -> top <= UINTPTR_MAX -> 0 < length ->
  IS_ALLOC_ALIGNED E top = true -> IS_ALLOC_ALIGNED E length = true ->
  wp (place_new_vma E p bottom top length prot flags file offset comment)
     (place_post foreign ext p bottom top length prot flags file offset comment held s) s.
Proof.
  intros Hinv Hroom H0 Htop Hlen Haltop Hallen. unfold place_new_vma. apply wp_bind.
  eapply wp_mono; [by apply init_new_vma_spec|]. intros ? s1 (-> & Hinv1 & r & n & ->). vma_steps.
  pose proof (inv_tree _ _ _ _ _ Hinv) as Hok. cbn [vma_tree set_refs].
  destruct (lookup_split _ (vma_tree s) top Hok) as (pre & suf & Es & Et & Hpre & Hsuf). rewrite Es.
  cbn [fst snd].
  set (max := match suf with [] => top | vma :: _ => Z.min top (vbegin vma) end).
  rewrite Et in Hok.
  assert (Hmax : max <= top /\ IS_ALLOC_ALIGNED E max = true /\ Forall (fun v => vend v <= max) pre /\
                 Forall (fun v => max <= vbegin v) suf).
  { subst max. destruct suf as [|v suf]; [by split_and!|]. pose proof (tree_ok_before _ _ _ _ Hok) as Hb.
    pose proof Hok as (_ & (Hv & _ & Hlt & _)%tree_ok_cons & _)%tree_ok_app. split_and!.
    - lia.
    - apply aligned_min; [done|apply Hv].
    - rewrite Forall_forall in *. intros w Hw. specialize (Hb w Hw). specialize (Hpre w Hw). simpl in *. lia.
    - destruct Hv. constructor; [lia|]. apply Forall_forall. intros w Hw. specialize (Hlt w Hw). unfold below in Hlt. lia. }
  destruct Hmax as (Hm1 & Hm2 & Hm3 & Hm4).
  apply wp_assert.
  { destruct (reverse pre) as [|v l] eqn:El; [done|]. apply Z.leb_le. rewrite Forall_forall in Hm3. apply Hm3.
    rewrite <- elem_of_reverse, El. set_solver. }
  apply wp_bind. eapply wp_mono; [apply (find_gap_spec bottom top length pre suf max); try done|].
  { intros x (_ & Hx & Hfree). subst max. destruct suf as [|v suf]; [done|].
    apply Forall_cons in Hsuf as [Hv _]. destruct (Hfree v); [set_solver|lia|lia]. }
  rewrite <- Et. intros found s2 (-> & Hfound). destruct found as [m|].
  - destruct Hfound as (Hal & pre' & suf' & Et' & Hpre' & Hsuf' & Hbot & Hmtop & Hbest).
    cbv zeta. set (v := set_vbegin (set_vend _ m) (m - length)).
    assert (Hv : v = mapped_vma p (m - length) length prot flags file offset comment).
    { unfold v, mapped_vma, set_vbegin, set_vend; simpl. f_equal. lia. }
    rewrite Hv. clear v Hv. set (v := mapped_vma _ _ _ _ _ _ _ _).
    eapply (wp_insert_new foreign ext v pre' suf' held).
    + exact Hinv1.
    + done.
    + destruct HE. constructor; simpl; try lia; [|by replace (m - length + length) with m by lia|apply copy_comment_idem].
      by apply aligned_sub.
    + done.
    + simpl. by replace (m - length + length) with m by lia.
    + intros s' Hinv' Et'' Ec. vma_steps. split; [done|]. left. exists (m - length), pre', suf'.
      split_and!; try done. split_and!; [lia..|]. intros w Hw. rewrite Et' in Hw.
      rewrite Forall_forall in Hpre', Hsuf'. apply elem_of_app in Hw as [Hw|Hw]; [left; by apply Hpre'|right].
      specialize (Hsuf' w Hw). simpl in Hsuf'. lia.
  - apply wp_bind. eapply wp_mono; [apply (free_vma_spec E foreign ext p file held); [done|exact Hroom]|].
    intros _ s3 (Hinv3 & (Et3 & _) & Hc). vma_steps. split; [done|]. by right.
Qed.

End ops.
