(* ===== verification/VmaAlloc.v ===== *)
(** * Allocation of area structures

    [alloc_vma] may have to map memory for more structures, for which it needs
    a structure itself; it lends one from its own stack frame.  The recursion
    ends after one level, the lent structure never stays in the tree, and the
    tree only gains internal areas. *)

From S2P Require Import Prelude OrdSeq Memmgr Vma VmaTree VmaInv VmaOps.

Section alloc.
Context (E : vma_env) (HE : env_ok E).

(** ** Bounds of [bkeep_mmap_any_in_range] *)

(** The range that is searched; [None] if it is empty. *)
Definition search_bounds (flags b t : Z) : option (Z * Z) :=
  let early := negb (g_received_user_memory E) && has flags VMA_INTERNAL in
  if early && ((t <=? early_libos_mem_range_start E) || (early_libos_mem_range_end E <=? b)) then None
  else
    let bottom := if early then Z.max b (early_libos_mem_range_start E) else b in
    let top := if early then Z.min t (early_libos_mem_range_end E) else t in
    let top := if has flags MAP_32BIT then Z.min top (Z.shiftl 1 31) else top in
    if has flags MAP_32BIT && (top <=? bottom) then None else Some (bottom, top).

Definition in_memory (b t : Z) : Prop :=
  b < t /\ (memory_address_start E <= b /\ t <= memory_address_end E \/
            shared_address_start E <= b /\ t <= shared_address_end E).

Definition bad_args (b t length : Z) : bool :=
  (length =? 0) || negb (IS_ALLOC_ALIGNED E length) || negb (IS_ALLOC_ALIGNED E b) || negb (IS_ALLOC_ALIGNED E t).

Lemma in_range_wp al b t length prot flags file offset comment Q s :
  in_memory b t ->
  (bad_args b t length = true -> Q (- EINVAL, 0) s) ->
  (search_bounds flags b t = None -> Q (- ENOMEM, 0) s) ->
  (forall bottom top, search_bounds flags b t = Some (bottom, top) -> bad_args b t length = false ->
     0 <= bottom -> b <= bottom -> top <= t -> top <= UINTPTR_MAX -> IS_ALLOC_ALIGNED E top = true ->
     wp al (fun new s1 =>
       wp (match new with
           | None => mret (- ENOMEM, 0)
           | Some p => place_new_vma E p bottom top length prot flags file offset comment
           end) Q s1) s) ->
  wp (bkeep_mmap_any_in_range E al b t length prot flags file offset comment) Q s.
Proof.
  intros [Hbt Hmem] HI HN HP. pose proof HE as [Hpow ? ? ? ? ? ? ? ? ?].
  unfold bkeep_mmap_any_in_range. apply wp_bind, wp_assert; [by apply Z.ltb_lt|].
  apply wp_bind, wp_assert.
  { apply orb_true_iff. rewrite !andb_true_iff, !Z.leb_le. tauto. }
  unfold bad_args in *. destruct ((length =? 0) || negb (IS_ALLOC_ALIGNED E length)); [by apply HI|].
  simpl in HI, HP. destruct (negb (IS_ALLOC_ALIGNED E b) || negb (IS_ALLOC_ALIGNED E t)) eqn:Hal; [by apply HI|].
  breflect. unfold search_bounds in *. clear HI.
  destruct (negb (g_received_user_memory E) && has flags VMA_INTERNAL); simpl in *.
  - destruct ((t <=? early_libos_mem_range_start E) || (early_libos_mem_range_end E <=? b)) eqn:He; [by apply HN|].
    apply orb_false_iff in He as [He1 He2]. breflect. apply wp_bind, wp_assert; [apply Z.ltb_lt; lia|].
    destruct (has flags MAP_32BIT); simpl in *.
    + destruct (_ <=? _); [by apply HN|]. apply wp_bind, (HP _ _ eq_refl); try done; try lia.
      repeat apply aligned_min; try done. by apply aligned_2G.
    + apply wp_bind, (HP _ _ eq_refl); try done; try lia. by apply aligned_min.
  - apply wp_bind, wp_assert; [done|]. destruct (has flags MAP_32BIT); simpl in *.
    + destruct (_ <=? _); [by apply HN|]. apply wp_bind, (HP _ _ eq_refl); try done; try lia.
      apply aligned_min; [done|]. by apply aligned_2G.
    + apply wp_bind, (HP _ _ eq_refl); try done; lia.
Qed.

Lemma any_in_memory : in_memory (memory_address_start E) (memory_address_end E).
Proof. destruct HE. split; [done|]. left. lia. Qed.

Lemma aslr_in_memory : in_memory (memory_address_start E) (g_aslr_addr_top E).
Proof. destruct HE. split; [lia|]. left. lia. Qed.

(** ** Structures outside of the manager *)

(** The lent structure becomes known... *)
Lemma lend_spec ext held s :
  inv E [] ext held s ->
  wp fresh_block (fun blk s' =>
    inv E [(blk, 0)] ext (((blk, 0), None) :: held) s' /\ same_tree s s' /\ vma_cache s' = vma_cache s) s.
Proof.
  intros Hinv. pose proof Hinv as [_ _ _ _ [Hnd (mgr & live & Em & Hok & Hl & Hb & Hf) Hc Hr]].
  unfold fresh_block. wp_steps. split_and!; [|done..]. rewrite Em.
  assert (Hblk : next_block s ∉ (area_block <$> area_list mgr)).
  { intros (a & Ha & Hin)%list_elem_of_fmap. rewrite Forall_forall in Hb. specialize (Hb a Hin). simpl in Hb. lia. }
  eapply set_mgr_inv; [exact Hinv|]. constructor; simpl.
  - constructor; [|done]. intros Hin. destruct (Hl _ Hin) as [Hlive|?%elem_of_nil]; [|done].
    destruct Hok as [_ _ _ _ Hh]. destruct (Hh (next_block s, 0)) as (n & a & o & Ea & _ & Hcase); [set_solver|].
    apply Hblk. rewrite Ea. simpl in Hcase. destruct Hcase as [[-> _]|(a' & ? & -> & _)]; apply list_elem_of_fmap_2; set_solver.
  - exists mgr, live. split_and!; try done.
    + intros q [->|Hq]%elem_of_cons; [right; set_solver|]. destruct (Hl q Hq) as [?|?%elem_of_nil]; [by left|done].
    + eapply Forall_impl; [exact Hb|]. simpl. lia.
    + apply Forall_singleton. simpl. split; [lia|done].
  - intros i. rewrite Hc, count_inode_cons. simpl. lia.
  - intros h. rewrite Hr, count_handle_cons. simpl. lia.
Qed.

(** ... and is forgotten when nothing refers to it any more. *)
Lemma unlend tmp ext held s : inv E [tmp] ext ((tmp, None) :: held) s -> inv E [] ext held s.
Proof.
  intros [H1 H2 H3 H4 [Hnd (mgr & live & Em & Hok & Hl & Hb & Hf) Hc Hr]]. constructor; try done.
  simpl in Hnd. apply NoDup_cons in Hnd as [Hn Hnd]. constructor; try done.
  exists mgr, live. split_and!; try done. intros q Hq.
  destruct (Hl q) as [?|Hq']; [apply elem_of_cons; by right|by left|].
  apply list_elem_of_singleton in Hq' as ->. done.
Qed.

(** A new area for the manager, out of which an object is taken. *)
Lemma enlarge_spec foreign ext count held s :
  inv E foreign ext held s -> 0 < count ->
  wp (area_block ← fresh_block;
      with_mgr (sm_modify (fun mgr => default mgr (enlarge_mem_mgr (Some area_block) count mgr)));;
      with_mgr get_mem_obj_from_mgr)
     (fun r s' => exists q, r = Some q /\ inv E foreign ext ((q, None) :: held) s' /\ q ∉ foreign /\
                            same_tree s s' /\ vma_cache s' = vma_cache s) s.
Proof.
  intros Hinv Hcount. pose proof Hinv as [_ _ _ _ [Hnd (mgr & live & Em & Hok & Hl & Hb & Hf) Hc Hr]].
  assert (Hblk : next_block s ∉ (area_block <$> area_list mgr)).
  { intros (a & Ha & Hin)%list_elem_of_fmap. rewrite Forall_forall in Hb. specialize (Hb a Hin). simpl in Hb. lia. }
  unfold fresh_block. wp_steps. eapply wp_with_mgr; [exact Em|]. wp_steps. simpl.
  eapply wp_with_mgr; [done|].
  eapply wp_mono; [by eapply (get_mem_obj_after_enlarge mgr live (next_block s) count)|].
  intros r mgr' (q & -> & Hq & Hok' & Ha). exists q. simpl in Ha.
  assert (Hqf : q ∉ foreign).
  { intros Hin. rewrite Forall_forall in Hf. destruct (Hf q Hin) as [Hlt Hno].
    destruct Hok' as [_ _ _ _ Hh]. destruct (Hh q) as (n & a & o & Eal & _ & Hcase); [set_solver|].
    assert (Hfst : fst q ∈ area_block <$> area_list mgr').
    { rewrite Eal. destruct Hcase as [[-> _]|(a' & Ha' & -> & _)]; apply list_elem_of_fmap_2; set_solver. }
    rewrite Ha in Hfst. simpl in Hfst. apply elem_of_cons in Hfst as [Heq|?]; [lia|done]. }
  split_and!; [done| |done..]. apply (set_mgr_inv E foreign foreign ext held _ s mgr' _ Hinv). constructor; simpl.
  - constructor; [|done]. intros Hin. destruct (Hl q Hin); done.
  - exists mgr', (q :: live). rewrite Ha. split_and!; try done.
    + intros x [->|Hx]%elem_of_cons; [left; set_solver|]. destruct (Hl x Hx); [left; set_solver|by right].
    + constructor; simpl; [lia|]. eapply Forall_impl; [exact Hb|]. simpl. lia.
    + eapply Forall_impl; [exact Hf|]. simpl. intros x [? ?]. split; [lia|].
      apply not_elem_of_cons. split; [lia|done].
  - intros i. rewrite Hc, count_inode_cons. simpl. lia.
  - intros h. rewrite Hr, count_handle_cons. simpl. lia.
Qed.

(** ** [_vma_malloc] with the lent structure in the cache *)

Definition internal_flags : Z := Z.lor MAP_PRIVATE (Z.lor MAP_ANONYMOUS VMA_INTERNAL).

Lemma alloc_cached_spec fuel foreign ext held tmp c s :
  inv E foreign ext held s -> my_cache E s = tmp :: c ->
  wp (alloc_vma_rec E (S fuel)) (fun r s' =>
    r = Some tmp /\ s' = set_my_cache E s c /\ inv E foreign ext ((tmp, None) :: held) s') s.
Proof.
  intros Hinv Ec. cbn [alloc_vma_rec]. apply wp_bind.
  eapply wp_mono; [by apply get_from_cache_spec|]. intros [p|] s'.
  - intros (c' & Ec' & -> & ?). wp_steps. rewrite Ec in Ec'. by simplify_eq.
  - intros [Ec' _]. congruence.
Qed.

Definition malloc_post foreign ext (tmp : obj_ptr) (held : list (obj_ptr * option Z)) (s : vma_state)
    (r : option Z) (s' : vma_state) : Prop :=
  inv E foreign ext held s' /\
  match r with
  | Some _ => exists v pre suf, vma_tree s = pre ++ suf /\ vma_tree s' = pre ++ v :: suf /\
                vptr v = tmp /\ is_internal_vma v = true /\ vfile v = None /\ my_cache E s' = []
  | None => vma_tree s' = vma_tree s /\ my_cache E s' = [tmp]
  end.

(** The area just mapped is removed again. *)
Lemma unmap_last_spec foreign ext v pre suf held s :
  inv E foreign ext held s -> vma_tree s = pre ++ v :: suf -> is_internal_vma v = true ->
  my_cache E s = [] ->
  wp (r ← _vma_bkeep_remove E (vbegin v) (vend v) true None;
      let '(ret, _, vmas_to_free) := r in
      if ret <? 0 then sm_bug else free_vmas_freelist E vmas_to_free;; mret (@None Z))
     (fun r s' => r = None /\ inv E foreign ext held s' /\ vma_tree s' = pre ++ suf /\ my_cache E s' = [vptr v]) s.
Proof.
  intros Hinv Et Hint Ec. pose proof (inv_tree _ _ _ _ _ Hinv) as Hok. rewrite Et in Hok.
  pose proof (tree_ok_before _ _ _ _ Hok) as Hpre.
  pose proof Hok as (Hokp & (Hv & Hoks & Hlt & _)%tree_ok_cons & _)%tree_ok_app.
  assert (Hsuf : Forall (fun w => vend v <= vbegin w) suf) by by apply Forall_forall.
  assert (Hov : forall w, w ∈ pre ++ v :: suf -> overlaps (vbegin v) (vend v) w = true -> w = v).
  { intros w Hw Ho. unfold overlaps in Ho. breflect. rewrite Forall_forall in Hpre, Hsuf.
    apply elem_of_app in Hw as [Hw|[->|Hw]%elem_of_cons]; [specialize (Hpre w Hw)|done|specialize (Hsuf w Hw)];
      simpl in *; lia. }
  destruct Hv as [Hv1 Hv2 Hv3 Hv4 Hv5 Hv6]. apply wp_bind.
  eapply wp_mono; [by apply (vma_bkeep_remove_spec E foreign ext _ _ true None held s)|].
  intros [[ret unused] to_free] s1 [(_ & _ & _ & _ & w & Hw & Ho & Hni)|[(_ & _ & _ & _ & _ & w & Hw & Hen)|Hr]].
  - rewrite Et in Hw. by rewrite (Hov w Hw Ho) in Hni.
  - rewrite Et in Hw. unfold encloses in Hen. breflect.
    rewrite (Hov w Hw) in * by (unfold overlaps; apply andb_true_iff; split; apply Z.ltb_lt; lia). lia.
  - destruct Hr as (-> & _ & (q & _ & Et1) & Ec1 & Hun & -> & Hinv1). simpl. rewrite Et in *.
    destruct (remove_before _ (vbegin v) (vend v) q pre Hv2 (tree_ok_areas _ _ Hokp) Hpre) as (Hp1 & _ & Hp3).
    destruct (remove_beyond _ (vbegin v) (vend v) q suf Hv2 (tree_ok_areas _ _ Hoks) Hsuf) as (Hs1 & _ & Hs3).
    rewrite filter_app, filter_cons, Hp3, Hs3 in *.
    rewrite remove_areas_app, remove_areas_cons, Hp1, Hs1 in Et1.
    rewrite decide_True in * by (apply Is_true_true; unfold inside; by rewrite !Z.leb_refl).
    unfold outside in Et1. rewrite !Z.ltb_irrefl in Et1. simpl in Et1, Hinv1 |- *.
    destruct unused as [?|]; [by destruct Hun|]. simpl in Hinv1.
    assert (Ec2 : my_cache E s1 = []) by (unfold my_cache in *; by rewrite Ec1). wp_steps.
    eapply wp_mono; [apply (free_vma_spec _ _ _ _ _ _ _ Hinv1); right; rewrite Ec2; simpl; unfold VMA_CACHE_SIZE; lia|].
    intros _ s2 (Hinv2 & (Et2 & _) & Hc2). wp_steps. rewrite Et2, Et1, Hc2, Ec2; [done|].
    rewrite Ec2; simpl; unfold VMA_CACHE_SIZE; lia.
Qed.

Lemma mapped_internal p addr length prot comment :
  is_internal_vma (mapped_vma p addr length prot internal_flags None 0 comment) = true.
Proof. reflexivity. Qed.

Lemma vma_malloc_spec foreign ext fuel tmp size held s :
  inv E foreign ext held s -> my_cache E s = [tmp] -> 0 < size ->
  wp (_vma_malloc E (alloc_vma_rec E (S fuel)) size) (malloc_post foreign ext tmp held s) s.
Proof.
  intros Hinv Ec Hsize. unfold _vma_malloc, bkeep_mmap_any. fold internal_flags. apply wp_bind.
  apply in_range_wp; [apply any_in_memory|by intros; wp_steps; split_and!|by intros; wp_steps; split_and!|].
  intros bottom top _ Hargs H0 _ _ Htop Haltop.
  assert (Hal : IS_ALLOC_ALIGNED E (ALLOC_ALIGN_UP E size) = true) by apply aligned_align_up, HE.
  assert (Hpos : 0 < ALLOC_ALIGN_UP E size).
  { unfold ALLOC_ALIGN_UP. destruct HE as [(k & Hk & ->) ? ? ? ? ? ? ? ? ?].
    pose proof (ALIGN_UP_POW2_bounds size k). lia. }
  eapply wp_mono; [by apply alloc_cached_spec|]. intros r s1 (-> & -> & Hinv1).
  assert (Ec1 : my_cache E (set_my_cache E s []) = []) by (unfold my_cache; simpl; by rewrite lookup_insert_eq).
  assert (Hroom : (List.length (my_cache E (set_my_cache E s [])) < VMA_CACHE_SIZE)%nat)
    by (rewrite Ec1; unfold VMA_CACHE_SIZE; simpl; lia).
  eapply wp_mono; [apply (place_new_vma_spec E HE foreign ext); [done|by right|done..]|].
  intros ? s2 (Hinv2 & [(addr & pre & suf & -> & Et & Et' & Hcand & _ & Ec2)|(-> & Et & _ & Hc)]).
  2:{ wp_steps. split; [done|]. rewrite Hc, Ec1 by done. done. }
  simpl in Et. assert (Ec3 : my_cache E s2 = []) by (unfold my_cache in *; by rewrite Ec2).
  set (v := mapped_vma _ _ _ _ _ _ _ _) in Et'. cbn beta iota. change (0 <? 0) with false. cbn iota.
  dif; [|wp_steps; split; [done|]; by exists v, pre, suf].
  assert (Hend : u64 (addr + ALLOC_ALIGN_UP E size) = vend v).
  { destruct Hcand as (? & ? & _). change (vend v) with (addr + ALLOC_ALIGN_UP E size). apply u64_small. unfold UINTPTR_MAX in Htop. lia. }
  rewrite Hend. eapply wp_mono; [apply (unmap_last_spec foreign ext v pre suf held s2 Hinv2 Et'); [apply mapped_internal|done]|].
  intros r s3 (-> & Hinv3 & Et3 & Ec4). split; [done|]. by rewrite Et3, Et.
Qed.

(** ** [alloc_vma] *)

(** The tree only gains internal areas. *)
Definition extended (t t' : list libos_vma) : Prop :=
  exists extra, t' ≡ₚ t ++ extra /\ Forall (fun v => is_internal_vma v = true) extra.

Lemma extended_refl t : extended t t.
Proof. exists []. by rewrite app_nil_r. Qed.

Lemma extended_trans t1 t2 t3 : extended t1 t2 -> extended t2 t3 -> extended t1 t3.
Proof.
  intros (e1 & H1 & F1) (e2 & H2 & F2). exists (e1 ++ e2). split; [|by apply Forall_app].
  by rewrite H2, H1, (assoc_L (++)).
Qed.

Definition alloc_post ext (held : list (obj_ptr * option Z)) (s : vma_state) (r : option obj_ptr)
    (s' : vma_state) : Prop :=
  extended (vma_tree s) (vma_tree s') /\ inv E [] ext (opt_held r ++ held) s'.

Definition vma_count : Z :=
  size_align_up sizeof_libos_vma sizeof_mem_area sizeof_mem_mgr (alloc_align E) DEFAULT_VMA_COUNT.

Lemma vma_count_pos : DEFAULT_VMA_COUNT <= vma_count.
Proof.
  unfold vma_count, size_align_up. destruct HE as [(k & Hk & ->) ? ? ? ? ? ? ? ? ?].
  set (x := MAX_MEM_SIZE _ _ _ _ - _). pose proof (ALIGN_UP_POW2_bounds x k ltac:(lia)).
  apply Z.le_sub_le_add_l. rewrite Z.sub_diag. apply Z.div_pos; [lia|done].
Qed.

(** The lent structure, now in the tree, is replaced by one of the manager. *)
Lemma migrate_spec tmp ext q v pre suf held s :
  inv E [tmp] ext ((q, None) :: held) s -> vma_tree s = pre ++ v :: suf -> vptr v = tmp -> vfile v = None ->
  wp (node ← sm_gets (fun s => list_find (fun v => vptr v = tmp) (vma_tree s));
      match node with
      | Some (_, v) =>
          new ← copy_vma E v q;
          sm_modify (fun s => set_tree s ((fun w => if decide (vptr w = tmp) then new else w) <$> vma_tree s))
      | None => with_mgr (sm_modify (free_mem_obj_to_mgr (memory_migrated E) q))
      end)
     (fun _ s' => inv E [] ext held s' /\ vma_tree s' = pre ++ set_vptr v q :: suf /\ vma_cache s' = vma_cache s) s.
Proof.
  intros Hinv Et Hp Hf. pose proof Hinv as [Hok Htot Hpeak Hc Hr]. wp_steps.
  destruct (find_ptr _ (vma_tree s) v Hok ltac:(rewrite Et; set_solver)) as [i Hi]. rewrite Hp in Hi. rewrite Hi.
  pose proof (tree_ok_in _ _ v Hok ltac:(rewrite Et; set_solver)) as Hv.
  pose proof (inv_held_fresh _ _ _ _ _ q None Hinv ltac:(set_solver)) as Hq. rewrite Et in Hok, Hq.
  unfold copy_vma. rewrite Hf. wp_steps. rewrite <- Hf, (area_ok_comment _ _ Hv).
  change (Vma q _ _ _ _ _ _ _) with (set_vptr v q). rewrite Et.
  rewrite <- Hp, (swap_node_app (alloc_align E)) by done.
  split_and!; [|done..]. apply (unlend tmp).
  apply (set_tree_inv E [tmp] ext ((q, None) :: held) ((tmp, None) :: held) s (pre ++ set_vptr v q :: suf)
           (g_total_memory_size s) (g_peak_total_memory_size s)); try done.
  - eapply tree_ok_swap; [done|by destruct Hv|done..|].
    rewrite fmap_app, fmap_cons in Hq. rewrite fmap_app. set_solver.
  - rewrite Htot, Et, !tsize_app. done.
  - rewrite Et, !fmap_app, !fmap_cons. unfold obj at 2 5. simpl. rewrite Hp, Hf. solve_Permutation.
Qed.

Lemma alloc_vma_spec ext held s :
  inv E [] ext held s -> wp (alloc_vma E) (alloc_post ext held s) s.
Proof.
  intros Hinv. unfold alloc_vma. cbn [alloc_vma_rec]. apply wp_bind.
  eapply wp_mono; [by apply get_from_cache_spec|]. intros [p|] s1.
  { intros (c & _ & -> & Hinv1). wp_steps. split; [apply extended_refl|done]. }
  intros [Ec ->]. apply wp_bind. eapply wp_mono; [by apply get_from_mgr_spec|]. intros [p|] s1.
  { intros (Hinv1 & _ & (Et & _) & _). wp_steps. split; [rewrite Et; apply extended_refl|done]. }
  intros ->. apply wp_bind. eapply wp_mono; [by apply lend_spec|].
  intros blk s1 (Hinv1 & (Et1 & _) & Ec1). apply wp_bind. eapply wp_mono; [by apply add_to_cache_spec|].
  assert (Ec1' : my_cache E s1 = []) by (unfold my_cache in *; by rewrite Ec1).
  intros ok s2. rewrite Ec1'. destruct ok; [|intros [Hlen _]; simpl in Hlen; unfold VMA_CACHE_SIZE in Hlen; lia].
  intros (_ & -> & Hinv2). apply wp_bind, wp_assert; [done|]. fold vma_count. pose proof vma_count_pos as Hcount.
  apply wp_bind. eapply wp_mono.
  { apply (vma_malloc_spec [(blk, 0)] ext 0 (blk, 0)); [exact Hinv2|by unfold my_cache; simpl; rewrite lookup_insert_eq|].
    unfold sizeof_mem_area, SUM_OBJ_SIZE, sizeof_libos_vma, DEFAULT_VMA_COUNT in *. lia. }
  intros [addr|] s3 (Hinv3 & Hpost).
  2:{ destruct Hpost as [Et3 Ec3]. apply wp_bind. eapply wp_mono; [by apply remove_first_from_cache_spec|].
      intros _ s4 ->. wp_steps. simpl. split; [simpl; rewrite Et3; simpl; rewrite Et1; apply extended_refl|].
      apply (unlend (blk, 0)). eapply set_my_cache_inv; [exact Hinv3|simpl; lia|]. rewrite Ec3. simpl.
      by rewrite Permutation_app_comm, app_nil_r. }
  destruct Hpost as (v & pre & suf & Et3 & Et4 & Hv & Hvi & Hvf & Ec3). simpl in Et3. 
  apply wp_assoc2, wp_bind. eapply wp_mono; [apply (enlarge_spec _ _ vma_count _ _ Hinv3); unfold DEFAULT_VMA_COUNT in *; lia|].
  intros ? s4 (q & -> & Hinv4 & Hqf & (Et5 & _) & Ec4). apply wp_assoc, wp_bind. rewrite Et4 in Et5.
  eapply wp_mono; [by eapply (migrate_spec (blk, 0))|]. intros _ s5 (Hinv5 & Et6 & Ec5). apply wp_bind.
  assert (Ec6 : my_cache E s5 = []) by (unfold my_cache in *; by rewrite Ec5, Ec4).
  unfold remove_from_thread_vma_cache. wp_steps. rewrite Ec6. wp_steps.
  assert (Hext : extended (vma_tree s) (vma_tree s5)).
  { exists [set_vptr v q]. rewrite Et6, <- Et1, Et3. split; [solve_Permutation|by apply Forall_singleton]. }
  eapply wp_mono; [by apply get_from_mgr_spec|]. intros [p|] s6.
  - intros (Hinv6 & _ & (Et7 & _) & _). split; [by rewrite Et7|done].
  - intros ->. by split.
Qed.

(** C37: [alloc_vma] returns (its recursion through [_vma_malloc] ends after one
    level), the structure it returns is in nobody's use, no structure of its own
    stack frame stays behind, and the tree gains at most internal areas. *)
Theorem alloc_vma_correct ext held s :
  inv E [] ext held s ->
  wp (alloc_vma E) (fun r s' =>
    extended (vma_tree s) (vma_tree s') /\ inv E [] ext (opt_held r ++ held) s') s.
Proof. apply alloc_vma_spec. Qed.

End alloc.
