(* ===== verification/VmaChange.v ===== *)
(** * Changing the protection of a range

    The effect of [_vma_bkeep_change] on the sequence of areas, and its
    correctness. *)

From S2P Require Import Prelude OrdSeq Memmgr Vma VmaTree VmaInv VmaOps.

(** The [n]-th piece of an area holds the address. *)
Ltac exists_piece n :=
  match goal with
  | |- exists w, w ∈ ?l /\ _ =>
      let w := eval cbn in (l !! n) in
      match w with
      | Some ?x => exists x; split;
          [apply (list_elem_of_lookup_2 _ n); reflexivity
          |rewrite in_vma_iff; split;
           [unfold upper; simpl; autorewrite with vma; simpl; autorewrite with vma; simpl; lia
           |by autorewrite with vma_attr]]
      end
  end.

(** ** [vma_update_prot] *)

Section update_prot.
Variables (v : libos_vma) (q : Z).

Lemma update_prot_ptr : vptr (vma_update_prot v q) = vptr v.
Proof. unfold vma_update_prot. simpl. by destruct (vfile v); [destruct (has q PROT_WRITE)|]. Qed.
Lemma update_prot_begin : vbegin (vma_update_prot v q) = vbegin v.
Proof. unfold vma_update_prot. simpl. by destruct (vfile v); [destruct (has q PROT_WRITE)|]. Qed.
Lemma update_prot_end : vend (vma_update_prot v q) = vend v.
Proof. unfold vma_update_prot. simpl. by destruct (vfile v); [destruct (has q PROT_WRITE)|]. Qed.
Lemma update_prot_file : vfile (vma_update_prot v q) = vfile v.
Proof. unfold vma_update_prot. simpl. by destruct (vfile v) eqn:Ef; [destruct (has q PROT_WRITE)|]. Qed.
Lemma update_prot_offset : voffset (vma_update_prot v q) = voffset v.
Proof. unfold vma_update_prot. simpl. by destruct (vfile v); [destruct (has q PROT_WRITE)|]. Qed.
Lemma update_prot_comment : vcomment (vma_update_prot v q) = vcomment v.
Proof. unfold vma_update_prot. simpl. by destruct (vfile v); [destruct (has q PROT_WRITE)|]. Qed.
End update_prot.

#[export] Hint Rewrite update_prot_ptr update_prot_begin update_prot_end update_prot_file
  update_prot_offset update_prot_comment : vma.

Lemma update_prot_obj v q : obj (vma_update_prot v q) = obj v.
Proof. unfold obj. by autorewrite with vma. Qed.

Lemma NoDup_extra {A} (p1 p2 : obj_ptr) (l : list obj_ptr) (l1 l2 : list A) :
  NoDup l -> p1 ∉ l -> p2 ∉ l -> p1 <> p2 -> (length l1 <= 1)%nat -> (length l2 <= 1)%nat ->
  NoDup (l ++ ((fun _ => p1) <$> l1) ++ ((fun _ => p2) <$> l2)).
Proof.
  intros Hl H1 H2 Hp Hl1 Hl2. rewrite Permutation_app_comm.
  destruct l1 as [|x [|]]; [| |simpl in Hl1; lia]; (destruct l2 as [|y [|]]; [| |simpl in Hl2; lia]); simpl;
    repeat constructor; rewrite ?elem_of_cons; naive_solver.
Qed.

(** ** Effect on the sequence *)

Section change.
Variables (align b e prot : Z) (p1 p2 : obj_ptr).

(** What becomes of one area.  When both ends are cut off, the upper part gets
    its protection from [vma_update_prot]. *)
Definition change_one (v : libos_vma) : list libos_vma :=
  if overlaps b e v then
    if vbegin v <? b then
      let mid := vma_update_prot (upper p1 b v) prot in
      set_vend v b ::
      (if e <? vend v then [set_vend mid e; vma_update_prot (upper p2 e mid) (vprot v)] else [mid])
    else if e <? vend v then [vma_update_prot (set_vend v e) prot; upper p2 e v]
    else [vma_update_prot v prot]
  else [v].

Definition change_areas (t : list libos_vma) : list libos_vma := t ≫= change_one.

Lemma change_areas_app t1 t2 : change_areas (t1 ++ t2) = change_areas t1 ++ change_areas t2.
Proof. apply bind_app. Qed.

Lemma change_areas_cons v t : change_areas (v :: t) = change_one v ++ change_areas t.
Proof. done. Qed.

Lemma change_areas_id t : Forall (fun v => overlaps b e v = false) t -> change_areas t = t.
Proof.
  induction 1 as [|v t Hv _ IH]; [done|]. rewrite change_areas_cons, IH. unfold change_one. by rewrite Hv.
Qed.

Lemma update_prot_ok v q : area_ok align v -> area_ok align (vma_update_prot v q).
Proof. intros []. constructor; by autorewrite with vma. Qed.

Definition cuts_low (v : libos_vma) : bool := overlaps b e v && (vbegin v <? b).
Definition cuts_high (v : libos_vma) : bool := overlaps b e v && (e <? vend v).

Lemma change_one_obj v :
  obj <$> change_one v ≡ₚ
  obj v :: (if cuts_low v then [(p1, vfile v)] else []) ++ (if cuts_high v then [(p2, vfile v)] else []).
Proof.
  unfold change_one, cuts_low, cuts_high. destruct (overlaps b e v); [simpl|done].
  destruct (vbegin v <? b), (e <? vend v); simpl; rewrite ?update_prot_obj; try done.
  unfold obj. simpl. autorewrite with vma. done.
Qed.

Lemma change_one_size v : area_ok align v -> b < e -> tsize (change_one v) = len v.
Proof.
  intros [] Hbe. unfold change_one, overlaps.
  destruct (Z.ltb_spec (vbegin v) e), (Z.ltb_spec b (vend v)); simpl; try lia.
  destruct (Z.ltb_spec (vbegin v) b), (Z.ltb_spec e (vend v)); unfold tsize, foldr, len; autorewrite with vma; simpl;
    autorewrite with vma; simpl; lia.
Qed.

Lemma change_one_ok v w :
  area_ok align v -> b < e -> IS_ALIGNED_POW2 b align = true -> IS_ALIGNED_POW2 e align = true ->
  w ∈ change_one v -> area_ok align w /\ vbegin v <= vbegin w /\ vend w <= vend v.
Proof.
  intros Hv Hbe Hb He. pose proof Hv as [? ? ? ? ? ?]. unfold change_one, overlaps.
  destruct (Z.ltb_spec (vbegin v) e), (Z.ltb_spec b (vend v)); simpl;
    try (intros ->%list_elem_of_singleton; split; [done|lia]).
  destruct (Z.ltb_spec (vbegin v) b), (Z.ltb_spec e (vend v));
    repeat (rewrite elem_of_cons || rewrite elem_of_nil); intros Hw; destruct_or!; try done; subst w;
    autorewrite with vma; simpl; autorewrite with vma; simpl;
    (split; [|lia]); try apply update_prot_ok; constructor; simpl; autorewrite with vma; simpl; done || lia.
Qed.

Lemma change_one_sorted v : area_ok align v -> b < e -> StronglySorted below (change_one v).
Proof.
  intros [] Hbe. unfold change_one. repeat dif; repeat constructor; unfold below; autorewrite with vma; simpl;
    autorewrite with vma; simpl; lia.
Qed.

Lemma change_areas_obj t :
  obj <$> change_areas t ≡ₚ (obj <$> t) ++ ((fun v => (p1, vfile v)) <$> filter cuts_low t) ++
    ((fun v => (p2, vfile v)) <$> filter cuts_high t).
Proof.
  induction t as [|v t IH]; [done|]. rewrite change_areas_cons, fmap_app, IH, change_one_obj, !filter_cons.
  destruct (cuts_low v), (cuts_high v); simpl; solve_Permutation.
Qed.

Lemma cuts_one (f : libos_vma -> bool) x t :
  tree_ok align t -> (forall v, f v = true -> vbegin v <= x < vend v) -> (length (filter f t) <= 1)%nat.
Proof.
  intros Ht Hf. induction t as [|v t IH]; [simpl; lia|].
  apply tree_ok_cons in Ht as (_ & Ht & Hlt & _). rewrite filter_cons.
  case_decide as Hv; [|auto]. rewrite list_filter_none; [simpl; lia|].
  apply Forall_forall. intros w Hw Hc. specialize (Hlt w Hw). unfold below in Hlt.
  apply Is_true_true in Hv, Hc. apply Hf in Hv, Hc. lia.
Qed.

Lemma change_areas_ok t :
  tree_ok align t -> b < e -> IS_ALIGNED_POW2 b align = true -> IS_ALIGNED_POW2 e align = true ->
  p1 ∉ (vptr <$> t) -> p2 ∉ (vptr <$> t) -> p1 <> p2 -> tree_ok align (change_areas t).
Proof.
  intros Ht Hbe Hb He Hp1 Hp2 Hp.
  assert (Hsub : forall t' w, Forall (area_ok align) t' -> w ∈ change_areas t' ->
            area_ok align w /\ exists v, v ∈ t' /\ vbegin v <= vbegin w /\ vend w <= vend v).
  { intros t' w Ht' (v & Hw & Hv)%list_elem_of_bind. rewrite Forall_forall in Ht'.
    destruct (change_one_ok v w) as (? & ? & ?); eauto. }
  pose proof Ht as [Ha Hs Hnd]. constructor.
  - apply Forall_forall. intros w Hw. by apply (Hsub t w Ha).
  - clear Hp1 Hp2 Hnd. induction t as [|v t IH]; [constructor|]. rewrite change_areas_cons.
    apply tree_ok_cons in Ht as (Hv & Ht & Hlt & _). apply Forall_cons in Ha as [_ Ha].
    apply StronglySorted_inv in Hs as [Hs _]. apply StronglySorted_app_iff.
    split_and!; [by apply change_one_sorted|by apply IH|]. intros x y Hx Hy.
    destruct (change_one_ok v x) as (_ & _ & ?); [done..|].
    destruct (Hsub t y Ha Hy) as (_ & w & Hw & ? & ?). specialize (Hlt w Hw).
    unfold below in *. lia.
  - pose proof (change_areas_obj t) as Hperm. apply (fmap_Permutation fst) in Hperm.
    rewrite !fmap_app, <- !list_fmap_compose in Hperm. change (fst ∘ obj) with vptr in Hperm.
    rewrite Hperm. clear Hperm.
    assert (Hl : (length (filter cuts_low t) <= 1)%nat).
    { apply (cuts_one _ b); [done|]. unfold cuts_low, overlaps. intros v ?. breflect. lia. }
    assert (Hh : (length (filter cuts_high t) <= 1)%nat).
    { apply (cuts_one _ e); [done|]. unfold cuts_high, overlaps. intros v ?. breflect. lia. }
    by apply (NoDup_extra p1 p2).
Qed.

Lemma change_areas_size t : Forall (area_ok align) t -> b < e -> tsize (change_areas t) = tsize t.
Proof.
  intros Ht Hbe. induction Ht as [|v t Hv _ IH]; [done|].
  rewrite change_areas_cons, tsize_app, IH, change_one_size by done. done.
Qed.

(** ** Effect on the address space *)

Definition prot_mask (q : Z) : Z := Z.land q (Z.lor PROT_NONE (Z.lor PROT_READ (Z.lor PROT_WRITE PROT_EXEC))).

Definition update_attr (q : Z) (x : attr) : attr :=
  Attr (prot_mask q)
    (if at_file x then if has q PROT_WRITE then Z.lor (at_flags x) VMA_TAINTED else at_flags x
     else at_flags x) (at_file x) (at_comment x).

Lemma update_prot_attr v q a : attr_of (vma_update_prot v q) a = update_attr q (attr_of v a).
Proof.
  unfold vma_update_prot, update_attr, attr_of. simpl.
  destruct (vfile v) eqn:Ef; [destruct (has q PROT_WRITE)|]; simpl; by rewrite Ef.
Qed.

Lemma set_vend_attr v x a : attr_of (set_vend v x) a = attr_of v a.
Proof. done. Qed.

#[local] Hint Rewrite update_prot_attr upper_attr set_vend_attr : vma_attr.

(** The part above [e] of an area that also has a part below [b]. *)
Definition tail_of (v : libos_vma) (a : Z) : bool := encloses b e v && (e <=? a).

Definition change_attr (v : libos_vma) (a : Z) : attr :=
  let x := attr_of v a in
  if decide (b <= a < e) then update_attr prot x
  else if tail_of v a then update_attr (vprot v) (update_attr prot x)
  else x.

Lemma change_one_attr v a :
  b < e -> is_addr_in_vma a v = true ->
  exists w, w ∈ change_one v /\ is_addr_in_vma a w = true /\ attr_of w a = change_attr v a.
Proof.
  intros Hbe Ha%in_vma_iff. unfold change_one, change_attr, tail_of, encloses, overlaps.
  destruct (Z.ltb_spec (vbegin v) e), (Z.ltb_spec b (vend v)), (Z.ltb_spec (vbegin v) b), (Z.ltb_spec e (vend v)),
    (Z.leb_spec e a); simpl; try lia; case_decide; try lia;
  first [exists_piece 0%nat | exists_piece 1%nat | exists_piece 2%nat].
Qed.

(** Inside the range the protection changes, below it nothing does, above it
    only the tail of an area that encloses the range is touched. *)
Lemma change_areas_attr t a :
  tree_ok align t -> b < e -> IS_ALIGNED_POW2 b align = true -> IS_ALIGNED_POW2 e align = true ->
  p1 ∉ (vptr <$> t) -> p2 ∉ (vptr <$> t) -> p1 <> p2 ->
  (forall v, v ∈ t -> is_addr_in_vma a v = true -> attr_at (change_areas t) a = Some (change_attr v a)) /\
  (attr_at t a = None -> attr_at (change_areas t) a = None).
Proof.
  intros Ht Hbe Hb He Hp1 Hp2 Hp. pose proof (change_areas_ok t Ht Hbe Hb He Hp1 Hp2 Hp) as Ht'. split.
  - intros v Hv Ha. destruct (change_one_attr v a Hbe Ha) as (w & Hw & Ha' & <-).
    apply (attr_at_elem align); [done| |done]. apply list_elem_of_bind. eauto.
  - intros Hn. destruct (area_at align (change_areas t) a Ht') as [?|(w & Hw & Ha & _)]; [done|].
    apply list_elem_of_bind in Hw as (v & Hw & Hv).
    destruct (change_one_ok v w) as (_ & ? & ?); [by apply (tree_ok_in align t)|done..|].
    rewrite attr_at_None, Forall_forall in Hn. specialize (Hn v Hv). rewrite in_vma_iff in Ha.
    assert (is_addr_in_vma a v = true) by (rewrite in_vma_iff; lia). congruence.
Qed.

End change.

(** ** The code *)

Section change_code.
Context (E : vma_env).

(** Fields other than bounds, structure and file of a node may be rewritten. *)
Lemma write_inv foreign ext held v v' pre suf s :
  inv E foreign ext held s -> vma_tree s = pre ++ v :: suf -> area_ok (alloc_align E) v' ->
  obj v' = obj v -> vbegin v' = vbegin v -> vend v' = vend v ->
  inv E foreign ext held (set_tree s (pre ++ v' :: suf)).
Proof.
  intros Hinv Et Hv Ho Eb Ee. pose proof Hinv as [Hok Htot Hpeak Hc Hr]. rewrite Et in Hok.
  apply (set_tree_inv E foreign ext held held s (pre ++ v' :: suf) (g_total_memory_size s)
           (g_peak_total_memory_size s)); try done.
  - eapply tree_ok_swap; [done..|]. unfold obj in Ho. simplify_eq. rewrite H.
    pose proof (tree_ok_ptrs _ _ Hok) as Hnd. rewrite fmap_app, fmap_cons, <- Permutation_middle in Hnd.
    apply NoDup_cons in Hnd as [Hnd _]. by rewrite fmap_app.
  - rewrite Htot, Et, !tsize_app. simpl. unfold len. rewrite Eb, Ee. done.
  - by rewrite Et, !fmap_app, !fmap_cons, Ho.
Qed.

(** Splitting a node of the tree, with updates [f] and [g] of the two parts. *)
Lemma wp_split {A} foreign ext (f g : libos_vma -> libos_vma) v p x pre suf held
    (k : libos_vma * libos_vma -> SM vma_state A) Q s :
  inv E foreign ext ((p, None) :: held) s -> vma_tree s = pre ++ v :: suf ->
  vbegin v < x < vend v -> IS_ALIGNED_POW2 x (alloc_align E) = true ->
  (forall w, obj (f w) = obj w /\ vbegin (f w) = vbegin w /\ vend (f w) = vend w /\ vcomment (f w) = vcomment w) ->
  (forall w, obj (g w) = obj w /\ vbegin (g w) = vbegin w /\ vend (g w) = vend w /\ vcomment (g w) = vcomment w) ->
  (forall s', vma_tree s' = pre ++ f (set_vend v x) :: g (upper p x v) :: suf ->
     vma_cache s' = vma_cache s -> inv E foreign ext held s' -> wp (k (set_vend v x, upper p x v)) Q s') ->
  wp ('(old, new) ← split_vma E v p x; write_vma (f old);; avl_tree_insert (g new);; k (old, new)) Q s.
Proof.
  intros Hinv Et Hx Hal Hf Hg Hk. pose proof Hinv as [Hok Htot Hpeak Hc Hr].
  pose proof (inv_held_fresh _ _ _ _ _ p None Hinv ltac:(set_solver)) as Hp. rewrite Et in Hok, Hp.
  pose proof (tree_ok_in _ _ v Hok ltac:(set_solver)) as Hv. pose proof Hv as [? ? ? ? ? ?].
  apply wp_bind. eapply wp_mono; [by apply (split_vma_spec E foreign ext v p x)|].
  intros ? s1 (-> & Hr1 & r & n & ->).
  destruct (Hf (set_vend v x)) as (Fo & Fb & Fe & Fc), (Hg (upper p x v)) as (Go & Gb & Ge & Gc).
  assert (Hok' : tree_ok (alloc_align E) (pre ++ f (set_vend v x) :: g (upper p x v) :: suf)).
  { unfold obj in *. simplify_eq/=. eapply tree_ok_split; [exact Hok|..]; try congruence.
    - constructor; rewrite ?Fb, ?Fe, ?Fc; simpl; done || lia.
    - constructor; rewrite ?Gb, ?Ge, ?Gc; simpl; done || lia. }
  apply wp_bind, (wp_write E v _ pre suf); [done|done|by unfold obj in Fo; simplify_eq/=|].
  apply wp_bind, (wp_insert E _ (pre ++ [f (set_vend v x)]) suf); [by rewrite <- (assoc_L (++))|by rewrite <- (assoc_L (++))|].
  rewrite <- (assoc_L (++)). apply Hk; [done..|]. constructor; simpl; try done.
  - rewrite Htot, Et, !tsize_app. simpl. unfold len. rewrite Fb, Fe, Gb, Ge. simpl. lia.
  - eapply resources_perm; [exact Hr1| |done..]. unfold objs. simpl. rewrite Et, !fmap_app, !fmap_cons.
    rewrite Fo, Go. unfold obj. simpl. solve_Permutation.
Qed.

Lemma update_prot_same q w :
  obj (vma_update_prot w q) = obj w /\ vbegin (vma_update_prot w q) = vbegin w /\
  vend (vma_update_prot w q) = vend w /\ vcomment (vma_update_prot w q) = vcomment w.
Proof. autorewrite with vma. by rewrite update_prot_obj. Qed.

Lemma beyond_no_overlap b e t : Forall (fun v => e <= vbegin v) t -> Forall (fun v => overlaps b e v = false) t.
Proof.
  intros Ht. eapply Forall_impl; [exact Ht|]. intros v Hv. simpl in Hv. unfold overlaps. by rewrite (proj2 (Z.ltb_ge _ _) Hv).
Qed.

(** The last area: it starts above the range, or has to be split at its end. *)
Lemma change_last_spec foreign ext b e prot p1 p2 held pre vma next s :
  inv E foreign ext ((p2, None) :: held) s -> vma_tree s = pre ++ vma :: next -> b < e ->
  IS_ALIGNED_POW2 e (alloc_align E) = true -> b <= vbegin vma -> e < vend vma ->
  wp (if e <=? vbegin vma then mret (Some p2)
      else '(old, new) ← split_vma E vma p2 e; write_vma (vma_update_prot old prot);; avl_tree_insert new;; mret None)
     (fun unused s' =>
        vma_tree s' = pre ++ change_areas b e prot p1 p2 (vma :: next) /\ vma_cache s' = vma_cache s /\
        inv E foreign ext (opt_held unused ++ held) s') s.
Proof.
  intros Hinv Et Hbe He Hb Hend. pose proof (inv_tree _ _ _ _ _ Hinv) as Hok. rewrite Et in Hok.
  pose proof Hok as (_ & ([] & _ & Hlt & _)%tree_ok_cons & _)%tree_ok_app.
  assert (Hnext : Forall (fun v => e <= vbegin v) next).
  { apply Forall_forall. intros w Hw. specialize (Hlt w Hw). unfold below in Hlt. lia. }
  destruct (Z.leb_spec e (vbegin vma)).
  - wp_steps. split_and!; [|done..]. rewrite Et, change_areas_id; [done|]. apply beyond_no_overlap. by constructor.
  - rewrite change_areas_cons, (change_areas_id _ _ _ _ _ next) by by apply beyond_no_overlap.
    unfold change_one, overlaps.
    rewrite (proj2 (Z.ltb_lt (vbegin vma) e)), (proj2 (Z.ltb_lt b (vend vma))), (proj2 (Z.ltb_ge (vbegin vma) b)),
      (proj2 (Z.ltb_lt e (vend vma))) by lia.
    apply (wp_split foreign ext (fun w => vma_update_prot w prot) (fun w => w) vma p2 e pre next held
             (fun _ => mret None)); [done|done|lia|done|apply update_prot_same|done|].
    intros s' Et' Ec' Hinv'. wp_steps. split_and!; done.
Qed.

Lemma change_one_whole b e prot p1 p2 vma :
  b <= vbegin vma -> vbegin vma < vend vma -> vend vma <= e ->
  change_one b e prot p1 p2 vma = [vma_update_prot vma prot].
Proof.
  intros. unfold change_one, overlaps.
  by rewrite (proj2 (Z.ltb_lt (vbegin vma) e)), (proj2 (Z.ltb_lt b (vend vma))), (proj2 (Z.ltb_ge (vbegin vma) b)),
    (proj2 (Z.ltb_ge e (vend vma))) by lia.
Qed.

(** The areas reach at least to the end of the range. *)
Lemma change_loop_spec foreign ext b e prot p1 p2 held pre vma next s :
  inv E foreign ext ((p2, None) :: held) s -> vma_tree s = pre ++ vma :: next -> b < e ->
  IS_ALIGNED_POW2 e (alloc_align E) = true -> b <= vbegin vma ->
  (exists w, w ∈ vma :: next /\ e <= vend w) ->
  wp (change_loop E e prot vma next p2) (fun unused s' =>
    vma_tree s' = pre ++ change_areas b e prot p1 p2 (vma :: next) /\ vma_cache s' = vma_cache s /\
    inv E foreign ext (opt_held unused ++ held) s') s.
Proof.
  revert pre vma s. induction next as [|v' next IH]; intros pre vma s Hinv Et Hbe He Hb (w & Hw & Hup);
    cbn [change_loop]; destruct (Z.leb_spec (vend vma) e); try by apply change_last_spec.
  all: pose proof (inv_tree _ _ _ _ _ Hinv) as Hok; rewrite Et in Hok.
  all: pose proof Hok as (_ & (Hv & Hoks & Hlt & _)%tree_ok_cons & _)%tree_ok_app; pose proof Hv as [? ? ? ? ? ?].
  { apply list_elem_of_singleton in Hw as ->. apply wp_bind, (wp_write E vma _ pre []); [done|done|apply update_prot_ptr|].
    apply wp_bind, wp_assert; [apply Z.eqb_eq; lia|]. wp_steps. split_and!; [|done|].
    - rewrite (change_areas_cons _ _ _ _ _ vma), change_one_whole by lia. done.
    - eapply write_inv; [done|done|by apply update_prot_ok|apply update_prot_obj|by autorewrite with vma..]. }
  apply wp_bind, (wp_write E vma _ pre (v' :: next)); [done|done|apply update_prot_ptr|].
  eapply wp_mono; [apply (IH (pre ++ [vma_update_prot vma prot]))|].
  - eapply write_inv; [done|done|by apply update_prot_ok|apply update_prot_obj|by autorewrite with vma..].
  - by rewrite <- (assoc_L (++)).
  - done.
  - done.
  - specialize (Hlt v' ltac:(set_solver)). unfold below in Hlt. lia.
  - apply elem_of_cons in Hw as [->|Hw]; [exists v'|by exists w]. split; [set_solver|].
    specialize (Hlt v' ltac:(set_solver)). unfold below in Hlt. destruct (tree_ok_in _ _ v' Hoks); [set_solver|]. lia.
  - intros unused s' (Et' & Ec' & Hinv'). split_and!; [|done..].
    by rewrite Et', <- (assoc_L (++)), (change_areas_cons _ _ _ _ _ vma), change_one_whole by lia.
Qed.

(** ** The check *)

Definition change_allowed (prot : Z) (is_internal : bool) (v : libos_vma) : bool :=
  eqb (is_internal_vma v) is_internal &&
  negb (has prot PROT_GROWSDOWN && negb (has (vflags v) MAP_GROWSDOWN)) &&
  negb (match vfile v with
        | Some f => has (vflags v) MAP_SHARED && negb (is_file_prot_matching E f prot)
        | None => false
        end).

Lemma change_check_step e prot is_internal vma next c :
  change_check E e prot is_internal vma next c =
  if change_allowed prot is_internal vma then
    if e <=? vend vma then inr c
    else match next with
         | [] => inr false
         | vma' :: next' => change_check E e prot is_internal vma' next' (c && (vend vma =? vbegin vma'))
         end
  else inl (if eqb (is_internal_vma vma) is_internal then
              if has prot PROT_GROWSDOWN && negb (has (vflags vma) MAP_GROWSDOWN) then - EINVAL else - EACCES
            else - EACCES).
Proof.
  unfold change_allowed. destruct next; cbn [change_check];
    destruct (eqb (is_internal_vma vma) is_internal); simpl; try done;
    destruct (has prot PROT_GROWSDOWN && _); simpl; try done;
    destruct (vfile vma) as [f|]; simpl; try done; by destruct (has (vflags vma) MAP_SHARED && _).
Qed.

(** The first loop succeeds exactly when the range is covered without gaps by
    areas that allow the change. *)
Lemma change_check_spec e prot is_internal vma next c :
  tree_ok (alloc_align E) (vma :: next) ->
  change_check E e prot is_internal vma next c = inr true <->
  c = true /\ change_allowed prot is_internal vma = true /\
  (forall v, v ∈ next -> vbegin v < e -> change_allowed prot is_internal v = true) /\
  (forall a, vend vma <= a < e -> exists v, v ∈ next /\ is_addr_in_vma a v = true).
Proof.
  revert vma c. induction next as [|v' next IH]; intros vma c Hok; rewrite change_check_step;
    pose proof Hok as (Hv & Hoks & Hlt & _)%tree_ok_cons; destruct Hv.
  - destruct (change_allowed prot is_internal vma); [|naive_solver].
    destruct (Z.leb_spec e (vend vma)).
    + split; [intros [= ->]; split_and!; try done; [set_solver|lia]|naive_solver].
    + split; [done|]. intros (_ & _ & _ & Hc). destruct (Hc (vend vma) ltac:(lia)) as (v & Hv & _). set_solver.
  - destruct (change_allowed prot is_internal vma); [|naive_solver].
    assert (Hlt' : vend vma <= vbegin v') by (apply Hlt; set_solver).
    destruct (Z.leb_spec e (vend vma)) as [Hend|Hend].
    + split; [|naive_solver]. intros [= ->]. split_and!; try done; [|lia]. intros v Hv Hve.
      specialize (Hlt v Hv). unfold below in Hlt. lia.
    + rewrite (IH _ _ Hoks), andb_true_iff, Z.eqb_eq. pose proof Hoks as ([] & _ & Hlt2 & _)%tree_ok_cons. split.
      * intros ([-> Heq] & Ha & Hn & Hc). split_and!; try done.
        -- intros v [->|Hv]%elem_of_cons; [done|by apply Hn].
        -- intros a Ha'. destruct (Z.lt_ge_cases a (vend v')).
           ++ exists v'. rewrite in_vma_iff. split; [set_solver|lia].
           ++ destruct (Hc a ltac:(lia)) as (v & Hv & Hin). exists v. split; [set_solver|done].
      * intros (-> & _ & Hn & Hc). destruct (Hc (vend vma) ltac:(lia)) as (v & Hv & Hin%in_vma_iff).
        assert (vend vma = vbegin v').
        { apply elem_of_cons in Hv as [->|Hv]; [lia|]. specialize (Hlt2 v Hv). unfold below in Hlt2. lia. }
        split_and!; try done; [apply Hn; [set_solver|lia]|intros; apply Hn; [set_solver|done]|].
        intros a Ha. destruct (Hc a ltac:(lia)) as (w & Hw & Hin'%in_vma_iff). exists w. rewrite in_vma_iff.
        apply elem_of_cons in Hw as [->|Hw]; [lia|done].
Qed.

(** ** [_vma_bkeep_change] *)

Definition change_ok (t : list libos_vma) (b e prot : Z) (is_internal : bool) : Prop :=
  (forall a, b <= a < e -> attr_at t a <> None) /\
  (forall v, v ∈ t -> overlaps b e v = true -> change_allowed prot is_internal v = true).

(** With [PROT_GROWSDOWN] the change extends down to the start of the area. *)
Definition change_lo (t : list libos_vma) (b prot : Z) : Z :=
  if has prot PROT_GROWSDOWN then
    match list_find (fun v => is_addr_in_vma b v) t with Some (_, v) => vbegin v | None => b end
  else b.

Lemma change_check_err e prot is_internal vma next c err :
  change_check E e prot is_internal vma next c = inl err -> err = - EACCES \/ err = - EINVAL.
Proof.
  revert vma c. induction next as [|v' next IH]; intros vma c; rewrite change_check_step;
    destruct (change_allowed prot is_internal vma), (e <=? vend vma), (eqb (is_internal_vma vma) is_internal),
      (has prot PROT_GROWSDOWN && negb (has (vflags vma) MAP_GROWSDOWN)); try naive_solver.
Qed.

Lemma change_check_ok b e prot is_internal pre vma next :
  tree_ok (alloc_align E) (pre ++ vma :: next) -> b < e ->
  Forall (fun v => vend v <= b) pre -> vbegin vma <= b < vend vma ->
  change_check E e prot is_internal vma next true = inr true <-> change_ok (pre ++ vma :: next) b e prot is_internal.
Proof.
  intros Hok Hbe Hpre Hv. pose proof Hok as (_ & Hoks & _)%tree_ok_app.
  rewrite (change_check_spec e prot is_internal vma next true Hoks). rewrite Forall_forall in Hpre.
  assert (Hno : forall w a, w ∈ pre -> b <= a -> is_addr_in_vma a w = false).
  { intros w a Hw Ha. specialize (Hpre w Hw). simpl in Hpre. unfold is_addr_in_vma.
    apply andb_false_iff. right. apply Z.ltb_ge. lia. }
  pose proof Hoks as ([] & Hokn & Hlt & _)%tree_ok_cons. split.
  - intros (_ & Ha & Hn & Hc). split.
    + intros a Hin Hnone. rewrite attr_at_None, Forall_forall in Hnone.
      destruct (Z.lt_ge_cases a (vend vma)).
      * specialize (Hnone vma ltac:(set_solver)). assert (is_addr_in_vma a vma = true) by (rewrite in_vma_iff; lia). congruence.
      * destruct (Hc a ltac:(lia)) as (v & Hw & Hin'). rewrite (Hnone v) in Hin'; [done|set_solver].
    + intros v [Hw|[->|Hw]%elem_of_cons]%elem_of_app Ho; unfold overlaps in Ho; breflect.
      * specialize (Hpre v Hw). simpl in Hpre. lia.
      * done.
      * by apply Hn.
  - intros (Hc & Ha). split_and!; [done| | |].
    + apply Ha; [set_solver|]. unfold overlaps. apply andb_true_iff; split; apply Z.ltb_lt; lia.
    + intros v Hw Hve. apply Ha; [set_solver|]. specialize (Hlt v Hw). unfold below in Hlt.
      destruct (tree_ok_in _ _ v Hokn Hw). unfold overlaps. apply andb_true_iff; split; apply Z.ltb_lt; lia.
    + intros a Hin. destruct (area_at _ _ a Hok) as [?|(v & Hw & Hin' & _)]; [by destruct (Hc a); [lia|]|].
      exists v. split; [|done]. apply elem_of_app in Hw as [Hw|[->|Hw]%elem_of_cons]; [|rewrite in_vma_iff in Hin'; lia|done].
      rewrite (Hno v a) in Hin'; [done|done|lia].
Qed.

(** A mapped range ends in or at the end of an area. *)
Lemma change_ok_reaches b e prot is_internal pre suf :
  tree_ok (alloc_align E) (pre ++ suf) -> change_ok (pre ++ suf) b e prot is_internal -> b < e ->
  suf <> [] -> exists w, w ∈ suf /\ e <= vend w.
Proof.
  intros Hok [Hc _] Hbe Hne. destruct (area_at _ _ (e - 1) Hok) as [?|(w & Hw & Hin%in_vma_iff & _)]; [by destruct (Hc (e - 1)); [lia|]|].
  apply elem_of_app in Hw as [Hw|Hw]; [|exists w; split; [done|lia]].
  destruct suf as [|v suf]; [done|]. exists v. split; [in_list|].
  pose proof (tree_ok_before _ _ _ _ Hok) as Hb. rewrite Forall_forall in Hb. specialize (Hb w Hw). simpl in Hb.
  destruct (tree_ok_in _ _ v Hok); [set_solver|]. lia.
Qed.

(** The assertion of [_vma_bkeep_change] that fails: the range is the upper part
    of the area with the highest addresses, and [PROT_GROWSDOWN] is not set. *)
Definition change_aborts (t : list libos_vma) (b e prot : Z) (is_internal : bool) : bool :=
  match last t with
  | Some v => (vbegin v <? b) && (b <? e) && (vend v =? e) && negb (has prot PROT_GROWSDOWN) &&
              change_allowed prot is_internal v
  | None => false
  end.

Definition change_post foreign ext b e prot is_internal p1 p2 held (s : vma_state)
    (r : Z * option obj_ptr * option obj_ptr) (s' : vma_state) : Prop :=
  let '(ret, u1, u2) := r in
  inv E foreign ext (opt_held u1 ++ opt_held u2 ++ held) s' /\
  ((ret = 0 /\ change_ok (vma_tree s) b e prot is_internal /\
      vma_tree s' = change_areas (change_lo (vma_tree s) b prot) e prot p1 p2 (vma_tree s)) \/
   ((ret = - ENOMEM \/ ret = - EACCES \/ ret = - EINVAL) /\ ~ change_ok (vma_tree s) b e prot is_internal /\ s' = s)).

(** The lower end of the range is inside of the first area. *)
Lemma change_first_split_spec foreign ext b e prot is_internal p1 p2 held pre vma next s :
  inv E foreign ext ((p1, None) :: (p2, None) :: held) s -> vma_tree s = pre ++ vma :: next -> b < e ->
  IS_ALIGNED_POW2 b (alloc_align E) = true -> IS_ALIGNED_POW2 e (alloc_align E) = true ->
  Forall (fun v => vend v <= b) pre -> vbegin vma < b < vend vma ->
  change_ok (vma_tree s) b e prot is_internal -> change_lo (vma_tree s) b prot = b ->
  e < vend vma \/ next <> [] ->
  wp ('(old, new1) ← split_vma E vma p1 b;
      write_vma old;;
      avl_tree_insert (vma_update_prot new1 prot);;
      (if e <? vend (vma_update_prot new1 prot) then
         '(new1, new2) ← split_vma E (vma_update_prot new1 prot) p2 e;
         write_vma new1;;
         avl_tree_insert (vma_update_prot new2 (vprot vma));;
         mret (0, None, None)
       else
         match next with
         | [] => sm_bug
         | vma' :: next' => left2 ← change_loop E e prot vma' next' p2; mret (0, None, left2)
         end)) (change_post foreign ext b e prot is_internal p1 p2 held s) s.
Proof.
  intros Hinv Et Hbe Hb He Hpre Hv Hcok Hlo Hup.
  pose proof (inv_tree _ _ _ _ _ Hinv) as Hok. rewrite Et in Hok.
  pose proof Hok as (_ & ([] & _ & Hlt & _)%tree_ok_cons & _)%tree_ok_app.
  apply (wp_split foreign ext (fun w => w) (fun w => vma_update_prot w prot) vma p1 b pre next
           ((p2, None) :: held) (fun r => let '(old, new1) := r in
      (if e <? vend (vma_update_prot new1 prot) then
         '(new1, new2) ← split_vma E (vma_update_prot new1 prot) p2 e;
         write_vma new1;;
         avl_tree_insert (vma_update_prot new2 (vprot vma));;
         mret (0, None, None)
       else
         match next with
         | [] => sm_bug
         | vma' :: next' => left2 ← change_loop E e prot vma' next' p2; mret (0, None, left2)
         end))); [done..|apply update_prot_same|].
  intros s1 Et1 Ec1 Hinv1. rewrite update_prot_end. cbn [vend upper].
  assert (Hp : change_areas b e prot p1 p2 pre = pre).
  { apply change_areas_id. eapply Forall_impl; [exact Hpre|]. intros v Hv'. simpl in Hv'. unfold overlaps.
    by rewrite (proj2 (Z.ltb_ge _ _) Hv'), andb_false_r. }
  assert (Hone : change_areas b e prot p1 p2 (vma_tree s) =
    pre ++ change_one b e prot p1 p2 vma ++ change_areas b e prot p1 p2 next).
  { by rewrite Et, change_areas_app, change_areas_cons, Hp. }
  unfold change_one, overlaps in Hone.
  destruct (Z.ltb_spec (vbegin vma) e), (Z.ltb_spec b (vend vma)), (Z.ltb_spec (vbegin vma) b); try lia. simpl in Hone.
  destruct (Z.ltb_spec e (vend vma)).
  - apply (wp_split foreign ext (fun w => w) (fun w => vma_update_prot w (vprot vma)) _ p2 e (pre ++ [set_vend vma b]) next
           held (fun _ => mret (0, None, None))); [done|by rewrite Et1, <- (assoc_L (++))| |done|done|apply update_prot_same|].
    { autorewrite with vma. simpl. lia. }
    intros s2 Et2 Ec2 Hinv2. wp_steps. split; [done|]. left. split_and!; [done..|].
    rewrite Hlo, Hone, Et2, change_areas_id, <- (assoc_L (++)); [done|]. apply beyond_no_overlap.
    apply Forall_forall. intros x Hx. specialize (Hlt x Hx). unfold below in Hlt. lia.
  - destruct next as [|v' next]; [by destruct Hup as [?|[]]; [lia|]|]. apply wp_bind.
    eapply wp_mono.
    { apply (change_loop_spec foreign ext b e prot p1 p2 held (pre ++ [set_vend vma b; vma_update_prot (upper p1 b vma) prot]));
        [done|by rewrite Et1, <- (assoc_L (++))|done|done| |].
      - specialize (Hlt v' ltac:(set_solver)). unfold below in Hlt. lia.
      - apply (change_ok_reaches b e prot is_internal (pre ++ [vma])); rewrite <- ?(assoc_L (++));
          [exact Hok|by rewrite Et in Hcok|done..]. }
    intros unused s2 (Et2 & Ec2 & Hinv2). wp_steps. split; [done|]. left. split_and!; [done..|].
    by rewrite Hlo, Hone, Et2, <- (assoc_L (++)).
Qed.

Lemma find_area t v b : tree_ok (alloc_align E) t -> v ∈ t -> is_addr_in_vma b v = true ->
  exists i, list_find (fun v => is_addr_in_vma b v) t = Some (i, v).
Proof.
  intros Ht Hv Hin. destruct (list_find (fun v => is_addr_in_vma b v) t) as [[i w]|] eqn:El.
  - apply list_find_Some in El as (Hw & Hin' & _). apply list_elem_of_lookup_2 in Hw.
    exists i. do 2 f_equal. eapply tree_ok_unique; [done..|by apply Is_true_true|done].
  - apply list_find_None in El. rewrite Forall_forall in El. destruct (El v Hv). by rewrite Hin.
Qed.

(** [_vma_bkeep_change] does what it should whenever it does not abort, which
    it does exactly in the case [change_aborts], see
    [mprotect_last_area_aborts]. *)
Lemma vma_bkeep_change_spec foreign ext b e prot is_internal p1 p2 held s :
  inv E foreign ext ((p1, None) :: (p2, None) :: held) s -> b < e ->
  IS_ALIGNED_POW2 b (alloc_align E) = true -> IS_ALIGNED_POW2 e (alloc_align E) = true ->
  change_aborts (vma_tree s) b e prot is_internal = false ->
  wp (_vma_bkeep_change E b e prot is_internal p1 p2) (change_post foreign ext b e prot is_internal p1 p2 held s) s.
Proof.
  intros Hinv Hbe Hb He Hup. pose proof (inv_tree _ _ _ _ _ Hinv) as Hok.
  unfold _vma_bkeep_change. apply wp_bind, wp_assert; [by apply andb_true_iff|].
  apply wp_bind, wp_assert; [by apply Z.ltb_lt|]. vma_steps.
  destruct (lookup_split _ (vma_tree s) b Hok) as (pre & suf & Es & Et & Hpre & Hsuf). rewrite Es. cbn [snd].
  destruct suf as [|vma next].
  { vma_steps. split; [done|]. right. split_and!; [by left| |done]. intros [Hc _]. apply (Hc b); [lia|].
    rewrite attr_at_None, Et, app_nil_r. eapply Forall_impl; [exact Hpre|]. intros w Hw. simpl in Hw.
    unfold is_addr_in_vma. apply andb_false_iff. right. by apply Z.ltb_ge. }
  apply Forall_cons in Hsuf as [Hv _]. pose proof Hok as Hok0. rewrite Et in Hok0.
  pose proof Hok0 as (_ & ([] & _ & Hlt & _)%tree_ok_cons & _)%tree_ok_app.
  destruct (Z.ltb_spec b (vbegin vma)) as [Hgap|Hgap].
  { vma_steps. split; [done|]. right. split_and!; [by left| |done]. intros [Hc _]. apply (Hc b); [lia|].
    rewrite attr_at_None, Et. rewrite Forall_forall in Hpre. apply Forall_forall. intros w Hw. unfold is_addr_in_vma.
    apply elem_of_app in Hw as [Hw|[->|Hw]%elem_of_cons]; apply andb_false_iff; rewrite Z.leb_gt, Z.ltb_ge.
    - right. by apply Hpre.
    - by left.
    - left. specialize (Hlt w Hw). unfold below in Hlt. lia. }
  pose proof (change_check_ok b e prot is_internal pre vma next Hok0 Hbe Hpre ltac:(lia)) as Hiff.
  rewrite <- Et in Hiff.
  destruct (change_check E e prot is_internal vma next true) as [err|[|]] eqn:Echk.
  - vma_steps. split; [done|]. right. split_and!; [|naive_solver|done].
    apply change_check_err in Echk. naive_solver.
  - destruct (Hiff) as [Hcok _]. specialize (Hcok eq_refl).
    destruct ((vbegin vma <? b) && negb (has prot PROT_GROWSDOWN)) eqn:Hsplit.
    + breflect. eapply change_first_split_spec; try done.
      * unfold change_lo. match goal with H : has prot _ = false |- _ => by rewrite H end.
      * destruct (Z.lt_ge_cases e (vend vma)); [by left|right]. intros ->.
        assert (vend vma = e).
        { destruct (change_ok_reaches b e prot is_internal pre [vma]) as (w & ->%list_elem_of_singleton & ?);
            [done|by rewrite <- Et|done..|lia]. }
        enough (change_aborts (vma_tree s) b e prot is_internal = true) by congruence.
        unfold change_aborts. rewrite Et, last_snoc. rewrite change_check_step in Echk.
        destruct (change_allowed prot is_internal vma); [|done]. destruct (has prot PROT_GROWSDOWN); [done|].
        rewrite !andb_true_iff, !Z.ltb_lt, Z.eqb_eq. repeat split; lia.
    + assert (Hlo : change_lo (vma_tree s) b prot = vbegin vma).
      { unfold change_lo. destruct (find_area (vma_tree s) vma b Hok) as [i ->];
          [rewrite Et; set_solver|rewrite in_vma_iff; lia|].
        apply andb_false_iff in Hsplit as [?|?]; breflect; [|by rewrite H]. destruct (has prot _); lia. }
      apply wp_bind. eapply wp_mono.
      { apply (change_loop_spec foreign ext (vbegin vma) e prot p1 p2 ((p1, None) :: held) pre vma next);
          [|done|lia|done|done|].
        - eapply inv_perm; [exact Hinv|]. solve_Permutation.
        - apply (change_ok_reaches b e prot is_internal pre); [done|by rewrite <- Et|done..]. }
      intros unused s1 (Et1 & _ & Hinv1). vma_steps. split; [eapply inv_perm; [exact Hinv1|solve_Permutation]|].
      left. split_and!; [done..|]. rewrite Hlo, Et1, Et, change_areas_app. f_equal. symmetry. apply change_areas_id.
      eapply Forall_impl; [exact (tree_ok_before _ _ _ _ Hok0)|]. intros w Hw. simpl in Hw. unfold overlaps.
      by rewrite (proj2 (Z.ltb_ge _ _) Hw), andb_false_r.
  - vma_steps. split; [done|]. right. split_and!; [by left|naive_solver|done].
Qed.

(** When the range is the upper part of the area with the highest addresses,
    [_vma_bkeep_change] fails its assertion that there is a next area, although
    the range is mapped and the change is allowed. *)
Theorem mprotect_last_area_aborts ext b e prot is_internal p1 p2 held s :
  inv E [] ext ((p1, None) :: (p2, None) :: held) s -> IS_ALIGNED_POW2 b (alloc_align E) = true ->
  change_aborts (vma_tree s) b e prot is_internal = true ->
  change_ok (vma_tree s) b e prot is_internal /\ _vma_bkeep_change E b e prot is_internal p1 p2 s = None.
Proof.
  intros Hinv Hal Hab. unfold change_aborts in Hab. destruct (last (vma_tree s)) as [vma|] eqn:Hlast; [|done].
  apply last_Some in Hlast as [pre Et]. rewrite !andb_true_iff, negb_true_iff, !Z.ltb_lt, Z.eqb_eq in Hab.
  destruct Hab as ((((Hb1 & Hb2) & <-) & Hgrow) & Hallow). assert (Hb : vbegin vma < b < vend vma) by lia.
  pose proof (inv_tree _ _ _ _ _ Hinv) as Hok. rewrite Et in Hok.
  pose proof (tree_ok_before _ _ _ _ Hok) as Hbefore.
  assert (Hpre : Forall (fun v => vend v <= b) pre) by (eapply Forall_impl; [exact Hbefore|]; simpl; lia).
  pose proof (tree_ok_in _ _ vma Hok ltac:(in_list)) as [_ _ _ _ Hal2 _].
  assert (Hchk : change_check E (vend vma) prot is_internal vma [] true = inr true).
  { rewrite change_check_step, Hallow, Z.leb_refl. done. }
  split.
  { rewrite Et. apply (change_check_ok b (vend vma) prot is_internal pre vma []); done || lia. }
  unfold _vma_bkeep_change. apply (abort_bind _ _ (fun _ s' => s' = s)); [apply wp_assert; [by apply andb_true_iff|done]|].
  intros _ ? ->. apply (abort_bind _ _ (fun _ s' => s' = s)); [apply wp_assert; [apply Z.ltb_lt; lia|done]|].
  intros _ ? ->. apply (abort_bind _ _ (fun l s' => s' = s /\ l = [vma])).
  { vma_steps. split; [done|]. rewrite Et, span_app_true; [done| |].
    - eapply Forall_impl; [exact Hpre|]. intros v Hv. unfold cmp_addr_to_vma. apply Z.ltb_ge. exact Hv.
    - apply Z.ltb_lt. lia. }
  intros ? ? (-> & ->). rewrite (proj2 (Z.ltb_ge b (vbegin vma))), Hchk, (proj2 (Z.ltb_lt (vbegin vma) b)), Hgrow by lia.
  cbn [andb negb]. apply (abort_bind _ _ (fun r _ => r = (set_vend vma b, upper p1 b vma))).
  { eapply wp_mono; [apply (split_vma_spec E [] ext vma p1 b _ s (inv_res _ _ _ _ _ Hinv)); [|lia]|naive_solver].
    apply (tree_ok_in _ _ _ Hok). in_list. }
  intros ? s1 ->. apply (abort_bind _ _ (fun _ _ => True)); [by vma_steps|]. intros _ s2 _.
  apply (abort_bind _ _ (fun _ _ => True)); [by vma_steps|]. intros _ s3 _.
  autorewrite with vma. cbn [vend upper]. by rewrite Z.ltb_irrefl.
Qed.

End change_code.
