(* ===== verification/VmaSpec.v ===== *)
(** * What the memory-area bookkeeping promises

    The operations of [libos_vma.c] as updates of the address space: for every
    address, what the tree says about it before and after.  [attr_at t a] is
    the protection, flags, file position and comment recorded for the byte at
    [a].  All theorems are about total correctness: the operation returns (no
    assertion fails), and [inv] holds again. *)

From S2P Require Import Prelude OrdSeq Memmgr Vma VmaTree VmaInv VmaOps VmaAlloc VmaChange.

Definition internal_attr (x : attr) : bool := has (at_flags x) VMA_INTERNAL.

(** The only side effect an operation has outside of its range is that the
    LibOS may have mapped memory for its own structures. *)
Definition same_or_internal (old new : option attr) : Prop :=
  new = old \/ old = None /\ exists x, new = Some x /\ internal_attr x = true.

Section lemmas.
Context (align : Z).

Lemma extended_attr t t' a :
  tree_ok align t -> tree_ok align t' -> extended t t' -> same_or_internal (attr_at t a) (attr_at t' a).
Proof.
  intros Ht Ht' (extra & Hp & Hint).
  destruct (area_at align t a Ht) as [Hn|(v & Hv & Hin & ->)].
  - destruct (area_at align t' a Ht') as [Hn'|(v & Hv & Hin & E)]; [left; congruence|].
    right. split; [done|]. exists (attr_of v a). split; [done|].
    rewrite Hp in Hv. apply elem_of_app in Hv as [Hv|Hv].
    + rewrite (attr_at_elem align t v a) in Hn by done. done.
    + rewrite Forall_forall in Hint. by apply Hint.
  - left. apply (attr_at_elem align); [done| |done]. rewrite Hp. set_solver.
Qed.

Lemma extended_in t t' v : extended t t' -> v ∈ t -> v ∈ t'.
Proof. intros (extra & Hp & _) Hv. rewrite Hp. set_solver. Qed.

(** A range without areas is a place for a new one. *)
Lemma free_range_split t b e :
  tree_ok align t -> free_range t b e ->
  exists pre suf, t = pre ++ suf /\ Forall (fun v => vend v <= b) pre /\ Forall (fun v => e <= vbegin v) suf.
Proof.
  intros Ht Hfree. destruct (lookup_split align t b Ht) as (pre & suf & _ & -> & Hpre & Hsuf).
  exists pre, suf. split_and!; [done..|]. rewrite Forall_forall in *. intros v Hv.
  destruct (Hfree v); [set_solver| |done]. specialize (Hsuf v Hv). simpl in Hsuf. lia.
Qed.

Lemma remove_areas_free b e p t :
  tree_ok align t -> b < e -> IS_ALIGNED_POW2 b align = true -> IS_ALIGNED_POW2 e align = true ->
  free_range (remove_areas b e p t) b e.
Proof.
  intros Ht Hbe Hb He w (v & Hw & Hv)%list_elem_of_bind.
  by apply (outside_sub align b e p v w); [apply (tree_ok_in align t)|..].
Qed.

Lemma attr_at_insert v pre suf a :
  tree_ok align (pre ++ v :: suf) ->
  attr_at (pre ++ v :: suf) a = if is_addr_in_vma a v then Some (attr_of v a) else attr_at (pre ++ suf) a.
Proof.
  intros Hok. destruct (is_addr_in_vma a v) eqn:Hin; [apply (attr_at_elem align); [done|set_solver|done]|].
  apply (attr_at_ext align); [done|by eapply tree_ok_delete|]. intros x. split; intros (w & Hw & Hin' & ->); exists w.
  - split_and!; try done. apply elem_of_app in Hw as [Hw|[->|Hw]%elem_of_cons]; [set_solver|congruence|set_solver].
  - split_and!; try done. set_solver.
Qed.

Lemma owned_attr t b e is_internal a x :
  tree_ok align t -> all_owned_in t b e is_internal -> b <= a < e -> attr_at t a = Some x ->
  internal_attr x = is_internal.
Proof.
  intros Ht Hown Ha (v & Hv & Hin & ->)%(attr_at_Some align); [|done]. apply (Hown v Hv). rewrite in_vma_iff in Hin.
  unfold overlaps. apply andb_true_iff; split; apply Z.ltb_lt; lia.
Qed.

Lemma u64_end addr length : 0 <= addr -> 0 <= length -> addr + length <= UINTPTR_MAX -> u64 (addr + length) = addr + length.
Proof. intros. apply u64_small. unfold UINTPTR_MAX in *. lia. Qed.

End lemmas.

Section spec.
Context (E : vma_env) (HE : env_ok E).

Definition bad_range (addr length : Z) : bool :=
  (length =? 0) || negb (IS_ALLOC_ALIGNED E length) || negb (IS_ALLOC_ALIGNED E addr).

Lemma bad_range_false addr length :
  bad_range addr length = false -> 0 <= length ->
  0 < length /\ IS_ALLOC_ALIGNED E addr = true /\ IS_ALLOC_ALIGNED E (addr + length) = true.
Proof.
  unfold bad_range. intros H Hlen. breflect. split_and!; [lia|done|]. apply aligned_add; [apply HE|done..].
Qed.

(** ** [bkeep_munmap] *)

Definition tmp_vma (p : obj_ptr) (b e : Z) : libos_vma :=
  Vma p b e PROT_NONE (Z.lor VMA_INTERNAL VMA_UNMAPPED) None 0 "".

Definition unmapped_attr : attr := Attr PROT_NONE (Z.lor VMA_INTERNAL VMA_UNMAPPED) None "".

(** The range is cut out and a new area takes its place. *)
Lemma replace_range_attr p b e t v pre suf a :
  tree_ok (alloc_align E) t -> b < e ->
  IS_ALIGNED_POW2 b (alloc_align E) = true -> IS_ALIGNED_POW2 e (alloc_align E) = true ->
  p ∉ (vptr <$> t) -> remove_areas b e p t = pre ++ suf ->
  vbegin v = b -> vend v = e -> tree_ok (alloc_align E) (pre ++ v :: suf) ->
  attr_at (pre ++ v :: suf) a = if decide (b <= a < e) then Some (attr_of v a) else attr_at t a.
Proof.
  intros Ht Hbe Hb He Hp Hrem Eb Ee Hok. rewrite (attr_at_insert (alloc_align E)), <- Hrem by done.
  rewrite (remove_areas_attr (alloc_align E)) by done.
  destruct (is_addr_in_vma a v) eqn:Hin; [rewrite in_vma_iff in Hin; by rewrite decide_True by lia|].
  case_decide; [|done]. assert (is_addr_in_vma a v = true) by (rewrite in_vma_iff; lia). congruence.
Qed.

(** The end of [bkeep_munmap] and [bkeep_mmap_fixed]: everything that is not
    needed any more is released. *)
Lemma wp_release {A} ext unused to_free held (k : SM vma_state A) Q s :
  inv E [] ext (opt_held unused ++ (obj <$> to_free) ++ held) s ->
  (forall s', inv E [] ext held s' -> same_tree s s' -> wp k Q s') ->
  wp (free_vmas_freelist E to_free;;
      match unused with Some p => free_vma E p None | None => mret () end;; k) Q s.
Proof.
  intros Hinv Hk. apply wp_bind.
  eapply wp_mono; [apply (free_vmas_freelist_spec E [] ext to_free (opt_held unused ++ held))|].
  { eapply inv_perm; [exact Hinv|]. solve_Permutation. }
  { set_solver. }
  intros _ s1 (Hinv1 & Hs1). apply wp_bind.
  eapply wp_mono; [apply (free_opt_spec E [] ext unused held _ Hinv1); set_solver|].
  intros _ s2 (Hinv2 & Hs2). apply Hk; [done|by eapply same_tree_trans].
Qed.

(** [alloc_vma] cannot deliver [n] structures one after the other. *)
Fixpoint out_of_vmas (n : nat) (s : vma_state) : Prop :=
  match n with
  | O => False
  | S n => match alloc_vma E s with
           | Some (Some _, s') => out_of_vmas n s'
           | Some (None, _) => True
           | None => False
           end
  end.

Lemma out_of_vmas_second s p1 s1 s2 vma2 :
  alloc_vma E s = Some (Some p1, s1) -> alloc_vma E s1 = Some (vma2, s2) -> vma2 = None -> out_of_vmas 2 s.
Proof. intros E1 E2 ->. simpl. by rewrite E1, E2. Qed.

Definition munmap_post ext (held : list (obj_ptr * option Z)) (addr length : Z) (is_internal : bool)
    (s : vma_state) (r : Z * option obj_ptr) (s' : vma_state) : Prop :=
  inv E [] ext held s' /\
  match snd r with
  | Some p => fst r = 0 /\ tmp_vma p addr (addr + length) ∈ vma_tree s' /\
      (forall a, if decide (addr <= a < addr + length)
         then attr_at (vma_tree s') a = Some unmapped_attr /\
              (forall x, attr_at (vma_tree s) a = Some x -> internal_attr x = is_internal)
         else same_or_internal (attr_at (vma_tree s) a) (attr_at (vma_tree s') a))
  | None => extended (vma_tree s) (vma_tree s') /\
      (fst r = - EINVAL /\ bad_range addr length = true \/ fst r = - ENOMEM /\ out_of_vmas 2 s \/
       fst r = - EACCES /\ ~ all_owned_in (vma_tree s') addr (addr + length) is_internal)
  end.

Lemma bkeep_munmap_wp ext held addr length is_internal s :
  inv E [] ext held s -> 0 <= addr -> 0 <= length -> addr + length <= UINTPTR_MAX ->
  wp (bkeep_munmap E addr length is_internal) (munmap_post ext held addr length is_internal s) s.
Proof.
  intros Hinv H0 Hl Hmax. unfold bkeep_munmap. fold (bad_range addr length).
  destruct (bad_range addr length) eqn:Hbad.
  { wp_steps. split; [done|]. split; [apply extended_refl|]. by left. }
  destruct (bad_range_false addr length Hbad Hl) as (Hlen & Hal & Hal2). rewrite u64_end by done.
  apply wp_bind. eapply wp_mono; [by apply wp_keep, (alloc_vma_spec E HE)|]. intros [p1|] s1 (E1 & Hext1 & Hinv1).
  2:{ wp_steps. split; [done|]. simpl. split; [done|]. right. left. simpl. by rewrite E1. }
  apply wp_bind. eapply wp_mono; [by apply wp_keep, (alloc_vma_spec E HE)|]. intros vma2 s2 (E2 & Hext2 & Hinv2).
  pose proof (extended_trans _ _ _ Hext1 Hext2) as Hext. pose proof (out_of_vmas_second _ _ _ _ _ E1 E2) as Hout. clear Hext1 Hext2 Hinv1 E1 E2 s1.
  apply wp_bind. eapply wp_mono; [by apply (vma_bkeep_remove_spec E); [|lia|..]|].
  pose proof (inv_tree _ _ _ _ _ Hinv) as Hok. pose proof (inv_tree _ _ _ _ _ Hinv2) as Hok2.
  intros [[ret unused] to_free] s3 [(-> & -> & -> & -> & v & Hv & Ho & Hni)|[(-> & -> & -> & -> & -> & _)|Hr]].
  - simpl. wp_steps. eapply wp_mono; [apply (free_vma_spec E [] ext p1 None (opt_held vma2 ++ held))|].
    { eapply inv_perm; [exact Hinv2|]. simpl. solve_Permutation. }
    { left. set_solver. }
    intros _ s4 (Hinv4 & (Et4 & _) & _). apply wp_bind.
    eapply wp_mono; [apply (free_opt_spec E [] ext vma2 held _ Hinv4); set_solver|].
    intros _ s5 (Hinv5 & (Et5 & _)). wp_steps. split; [done|]. simpl. rewrite Et5, Et4. split; [done|].
    right. right. split; [done|]. intros Hown. by apply Hni, Hown.
  - simpl. wp_steps. eapply wp_mono; [apply (free_vma_spec E [] ext p1 None held); [done|left; set_solver]|].
    intros _ s4 (Hinv4 & (Et4 & _) & _). split; [done|]. simpl. rewrite Et4. split; [done|]. right. left.
    split; [done|by apply Hout].
  - destruct Hr as (-> & Hown & (q & Hq & Et3) & _ & _ & -> & Hinv3). simpl. wp_steps.
    pose proof (inv_tree _ _ _ _ _ Hinv3) as Hok3.
    pose proof (remove_areas_free _ addr (addr + length) q _ Hok2 ltac:(lia) Hal Hal2) as Hfree. rewrite <- Et3 in Hfree.
    destruct (free_range_split _ _ _ _ Hok3 Hfree) as (pre & suf & Et & Hpre & Hsuf).
    unfold _add_unmapped_vma. eapply wp_mono.
    { apply (insert_new_spec E [] ext (tmp_vma p1 addr (addr + length)) pre suf
               (opt_held unused ++ (obj <$> filter (inside addr (addr + length)) (vma_tree s2)) ++ held) s3).
      - eapply inv_perm; [exact Hinv3|]. unfold obj; simpl. solve_Permutation.
      - done.
      - constructor; simpl; done || lia.
      - done.
      - done. }
    intros _ s4 (Hinv4 & Et4 & _). apply (wp_release ext unused _ held); [done|].
    intros s5 Hinv5 (Et5 & _). wp_steps. split; [done|]. simpl. rewrite Et5, Et4.
    pose proof (inv_tree _ _ _ _ _ Hinv4) as Hok4. rewrite Et4 in Hok4. split_and!; [done|set_solver|].
    intros a. rewrite (replace_range_attr q addr (addr + length) (vma_tree s2)); try done; [|lia|by rewrite <- Et].
    case_decide as Ha; [split; [done|]|by eapply extended_attr].
    intros x Hx. destruct (extended_attr _ _ _ a Hok Hok2 Hext) as [Heq|[Hn _]]; [|congruence].
    eapply owned_attr; [exact Hok2|exact Hown|exact Ha|]. by rewrite Heq.
Qed.

(** ** [bkeep_mmap_fixed] *)

Definition mapped_attr (addr prot flags : Z) (file : option Z) (offset : Z) (comment : string) (a : Z) : attr :=
  Attr prot
    (Z.lor (filter_saved_flags flags) (if file then if has prot PROT_WRITE then VMA_TAINTED else 0 else 0))
    ((fun f => (f, u64 (offset + (a - addr)))) <$> file) (copy_comment comment).

Lemma mapped_vma_attr p addr length prot flags file offset comment a :
  attr_of (mapped_vma p addr length prot flags file offset comment) a =
  mapped_attr addr prot flags file offset comment a.
Proof. by destruct file. Qed.

(** Making room for the new area: with [MAP_FIXED_NOREPLACE] the range has to be
    free, otherwise what is there is removed. *)
Definition room_post ext (b e flags : Z) (new : option obj_ptr) (held : list (obj_ptr * option Z)) (s : vma_state)
    (r : Z * option obj_ptr * list libos_vma) (s' : vma_state) : Prop :=
  let '(ret, unused, to_free) := r in
  inv E [] ext (opt_held unused ++ (obj <$> to_free) ++ held) s' /\
  ((ret < 0 /\ vma_tree s' = vma_tree s /\
     (ret = - EEXIST /\ has flags MAP_FIXED_NOREPLACE = true /\ ~ free_range (vma_tree s) b e \/
      ret = - ENOMEM /\ new = None \/
      ret = - EACCES /\ has flags MAP_FIXED_NOREPLACE = false /\
        ~ all_owned_in (vma_tree s) b e (has flags VMA_INTERNAL))) \/
   (ret = 0 /\ (exists q, q ∉ (vptr <$> vma_tree s) /\ vma_tree s' = remove_areas b e q (vma_tree s)) /\
     if has flags MAP_FIXED_NOREPLACE then free_range (vma_tree s) b e
     else all_owned_in (vma_tree s) b e (has flags VMA_INTERNAL))).

Lemma make_room_spec ext b e flags new held s :
  inv E [] ext (opt_held new ++ held) s -> b < e ->
  IS_ALIGNED_POW2 b (alloc_align E) = true -> IS_ALIGNED_POW2 e (alloc_align E) = true ->
  wp (if has flags MAP_FIXED_NOREPLACE then
        l ← _lookup_vma b;
        match l with
        | tmp_vma :: _ => if vbegin tmp_vma <? e then mret (- EEXIST, new, []) else mret (0, new, [])
        | [] => mret (0, new, [])
        end
      else _vma_bkeep_remove E b e (has flags VMA_INTERNAL) new) (room_post ext b e flags new held s) s.
Proof.
  intros Hinv Hbe Hb He. pose proof (inv_tree _ _ _ _ _ Hinv) as Hok. destruct (has flags MAP_FIXED_NOREPLACE) eqn:Hno.
  - vma_steps. destruct (lookup_split _ (vma_tree s) b Hok) as (pre & suf & Es & Et & Hpre & Hsuf). rewrite Es. simpl.
    assert (Hfree : (forall v suf', suf = v :: suf' -> e <= vbegin v) ->
              room_post ext b e flags new held s (0, new, []) s).
    { intros Hs.
      assert (Hf : free_range (vma_tree s) b e).
      { rewrite Et. intros v [Hv|Hv]%elem_of_app; [left; rewrite Forall_forall in Hpre; by apply Hpre|right].
        destruct suf as [|w suf]; [by apply elem_of_nil in Hv|]. specialize (Hs w suf eq_refl).
        rewrite Et in Hok. apply tree_ok_app in Hok as (_ & ([] & _ & Hlt & _)%tree_ok_cons & _).
        apply elem_of_cons in Hv as [->|Hv]; [done|]. specialize (Hlt v Hv). unfold below in Hlt. lia. }
      split; [done|]. right. rewrite Hno. split_and!; [done| |done].
      destruct (fresh_ptr (vma_tree s)) as [q Hq]. exists q. split; [done|]. symmetry.
      apply (remove_areas_id (alloc_align E)); [done|apply Hok|]. apply Forall_forall. intros v Hv. unfold overlaps.
      destruct (Hf v Hv); apply andb_false_iff; rewrite !Z.ltb_ge; tauto. }
    destruct suf as [|w suf]; [vma_steps; apply Hfree; by intros|].
    destruct (Z.ltb_spec (vbegin w) e); vma_steps; [|apply Hfree; by intros ? ? [= -> ->]].
    split; [done|]. left. split_and!; [done..|]. left. split_and!; [done..|]. intros Hf.
    apply Forall_cons in Hsuf as [Hw _]. destruct (Hf w); [rewrite Et; set_solver|lia|lia].
  - eapply wp_mono; [by apply (vma_bkeep_remove_spec E)|].
    intros [[ret unused] to_free] s' [(-> & -> & -> & -> & v & Hv & Ho & Hni)|[(-> & -> & -> & -> & -> & _)|Hr]].
    + split; [done|]. left. split_and!; [done..|]. right. right. split_and!; [done..|]. intros Hown. by apply Hni, Hown.
    + split; [done|]. left. split_and!; [done..|]. right. left. done.
    + destruct Hr as (-> & Hown & Ht & _ & _ & _ & Hinv'). split; [done|]. right. by rewrite Hno.
Qed.

Definition mmap_fixed_post ext (held : list (obj_ptr * option Z)) (addr length prot flags : Z) (file : option Z)
    (offset : Z) (comment : string) (s : vma_state) (ret : Z) (s' : vma_state) : Prop :=
  inv E [] ext held s' /\
  ((ret = 0 /\ forall a, if decide (addr <= a < addr + length)
      then attr_at (vma_tree s') a = Some (mapped_attr addr prot flags file offset comment a) /\
           (if has flags MAP_FIXED_NOREPLACE then attr_at (vma_tree s) a = None
            else forall x, attr_at (vma_tree s) a = Some x -> internal_attr x = has flags VMA_INTERNAL)
      else same_or_internal (attr_at (vma_tree s) a) (attr_at (vma_tree s') a)) \/
   (ret < 0 /\ extended (vma_tree s) (vma_tree s') /\
     (ret = - EINVAL /\ bad_range addr length = true \/ ret = - ENOMEM /\ out_of_vmas 2 s \/
      ret = - EEXIST /\ has flags MAP_FIXED_NOREPLACE = true /\ ~ free_range (vma_tree s') addr (addr + length) \/
      ret = - EACCES /\ has flags MAP_FIXED_NOREPLACE = false /\
        ~ all_owned_in (vma_tree s') addr (addr + length) (has flags VMA_INTERNAL)))).

Lemma bkeep_mmap_fixed_wp ext held addr length prot flags file offset comment s :
  inv E [] ext held s -> 0 <= addr -> 0 <= length -> addr + length <= UINTPTR_MAX ->
  has flags (Z.lor MAP_FIXED MAP_FIXED_NOREPLACE) = true ->
  wp (bkeep_mmap_fixed E addr length prot flags file offset comment)
     (mmap_fixed_post ext held addr length prot flags file offset comment s) s.
Proof.
  intros Hinv H0 Hl Hmax Hfl. unfold bkeep_mmap_fixed. apply wp_bind, wp_assert; [done|].
  fold (bad_range addr length). destruct (bad_range addr length) eqn:Hbad.
  { wp_steps. split; [done|]. right. split_and!; [done|apply extended_refl|by left]. }
  destruct (bad_range_false addr length Hbad Hl) as (Hlen & Hal & Hal2). rewrite u64_end by done.
  apply wp_bind. eapply wp_mono; [by apply wp_keep, (alloc_vma_spec E HE)|]. intros [p|] s1 (E1 & Hext1 & Hinv1).
  2:{ wp_steps. split; [done|]. right. split_and!; [done..|]. right. left. simpl. by rewrite E1. }
  apply wp_bind. eapply wp_mono; [by apply wp_keep, (alloc_vma_spec E HE)|]. intros vma1 s2 (E2 & Hext2 & Hinv2).
  pose proof (extended_trans _ _ _ Hext1 Hext2) as Hext. pose proof (out_of_vmas_second _ _ _ _ _ E1 E2) as Hout. clear Hext1 Hext2 Hinv1 E1 E2 s1.
  pose proof (inv_tree _ _ _ _ _ Hinv) as Hok. pose proof (inv_tree _ _ _ _ _ Hinv2) as Hok2.
  apply wp_bind. eapply wp_mono.
  { apply (init_new_vma_spec E [] ext p addr (addr + length) prot flags file offset comment (opt_held vma1 ++ held)).
    eapply inv_perm; [exact Hinv2|]. simpl. solve_Permutation. }
  intros ? s3 (-> & Hinv3 & r & n & ->). fold (mapped_vma p addr length prot flags file offset comment).
  set (v := mapped_vma p addr length prot flags file offset comment).
  change (vbegin v) with addr. change (vend v) with (addr + length). change (vfile v) with file.
  apply wp_bind. eapply wp_mono; [apply (make_room_spec ext addr (addr + length) flags vma1 (obj v :: held)); [|lia|done..]|].
  { eapply inv_perm; [exact Hinv3|]. unfold obj; simpl. solve_Permutation. }
  intros [[ret unused] to_free] s4 (Hinv4 & [(Hneg & Et4 & Herr)|(-> & (q & Hq & Et4) & Hwas)]); simpl in Et4.
  - rewrite (proj2 (Z.leb_gt 0 ret)), (proj2 (Z.ltb_lt ret 0)) by done. apply wp_bind, wp_ret.
    apply (wp_release ext unused to_free (obj v :: held)); [done|]. intros s5 Hinv5 (Et5 & _).
    apply wp_bind. eapply wp_mono; [apply (free_vma_spec E [] ext p file held); [done|left; set_solver]|].
    intros _ s6 (Hinv6 & (Et6 & _) & _). wp_steps. split; [done|]. right. rewrite Et6, Et5, Et4. simpl in *.
    split_and!; [done..|]. right. naive_solver.
  - change (0 <=? 0) with true. change (0 <? 0) with false. cbn iota. simpl in Hwas.
    pose proof (inv_tree _ _ _ _ _ Hinv4) as Hok4.
    pose proof (remove_areas_free _ addr (addr + length) q _ Hok2 ltac:(lia) Hal Hal2) as Hfree. rewrite <- Et4 in Hfree.
    destruct (free_range_split _ _ _ _ Hok4 Hfree) as (pre & suf & Et & Hpre & Hsuf). apply wp_bind.
    eapply wp_mono.
    { apply (insert_new_spec E [] ext v pre suf (opt_held unused ++ (obj <$> to_free) ++ held) s4); try done.
      - eapply inv_perm; [exact Hinv4|]. solve_Permutation.
      - constructor; simpl; try done; try lia. apply copy_comment_idem. }
    intros _ s5 (Hinv5 & Et5 & _). apply (wp_release ext unused to_free held); [done|]. intros s6 Hinv6 (Et6 & _).
    wp_steps. split; [done|]. left. split; [done|]. intros a. rewrite Et6, Et5.
    pose proof (inv_tree _ _ _ _ _ Hinv5) as Hok5. rewrite Et5 in Hok5.
    rewrite (replace_range_attr q addr (addr + length) (vma_tree s2)); try done; [|lia|by rewrite <- Et].
    pose proof (extended_attr _ _ _ a Hok Hok2 Hext) as Hattr.
    case_decide as Ha; [|done]. split; [by rewrite <- (mapped_vma_attr p addr length)|]. destruct (has flags MAP_FIXED_NOREPLACE).
    + assert (Hn : attr_at (vma_tree s2) a = None) by by eapply attr_at_outside.
      destruct Hattr as [<-|[? _]]; done.
    + intros x Hx. destruct Hattr as [Heq|[Hn _]]; [|congruence].
      eapply owned_attr; [exact Hok2|exact Hwas|exact Ha|]. by rewrite Heq.
Qed.

(** ** [bkeep_mprotect] *)

(** The address space after the protection of [[lo, e)] changed. *)
Definition reprotected (t t' : list libos_vma) (lo e prot : Z) : Prop :=
  (forall a, lo <= a < e -> attr_at t' a = update_attr prot <$> attr_at t a) /\
  (forall a, a < lo -> attr_at t' a = attr_at t a) /\
  (forall a, e <= a -> attr_at t' a = attr_at t a \/
     exists v, v ∈ t /\ encloses lo e v = true /\ is_addr_in_vma a v = true /\
       attr_at t' a = Some (update_attr (vprot v) (update_attr prot (attr_of v a)))).

Lemma change_areas_reprotected t lo e prot p1 p2 :
  tree_ok (alloc_align E) t -> lo < e ->
  IS_ALIGNED_POW2 lo (alloc_align E) = true -> IS_ALIGNED_POW2 e (alloc_align E) = true ->
  p1 ∉ (vptr <$> t) -> p2 ∉ (vptr <$> t) -> p1 <> p2 ->
  reprotected t (change_areas lo e prot p1 p2 t) lo e prot.
Proof.
  intros Ht Hlt Hl He H1 H2 Hp.
  assert (Hview : forall a, (attr_at t a = None /\ attr_at (change_areas lo e prot p1 p2 t) a = None) \/
    exists v, v ∈ t /\ is_addr_in_vma a v = true /\ attr_at t a = Some (attr_of v a) /\
      attr_at (change_areas lo e prot p1 p2 t) a = Some (change_attr lo e prot v a)).
  { intros a. destruct (change_areas_attr (alloc_align E) lo e prot p1 p2 t a) as [Hs Hn]; try done.
    destruct (area_at _ t a Ht) as [?|(v & Hv & Hin & Ha)]; [left; auto|right; eauto 10]. }
  unfold change_attr, tail_of in Hview. split_and!; intros a Ha;
    destruct (Hview a) as [[-> ->]|(v & Hv & Hin & -> & ->)]; try done; try (by left).
  - by rewrite decide_True.
  - rewrite decide_False by lia. rewrite (proj2 (Z.leb_gt e a)), andb_false_r by lia. done.
  - rewrite decide_False by lia. destruct (encloses lo e v) eqn:Hen; simpl; [|by left].
    rewrite (proj2 (Z.leb_le e a)) by lia. right. by exists v.
Qed.

Lemma change_lo_spec t b prot :
  tree_ok (alloc_align E) t -> IS_ALIGNED_POW2 b (alloc_align E) = true ->
  change_lo t b prot <= b /\ IS_ALIGNED_POW2 (change_lo t b prot) (alloc_align E) = true.
Proof.
  intros Ht Hb. unfold change_lo. destruct (has prot PROT_GROWSDOWN); [|split; [lia|done]].
  destruct (list_find _ t) as [[i v]|] eqn:El; [|split; [lia|done]].
  apply list_find_Some in El as (Hv & Hin & _). apply list_elem_of_lookup_2 in Hv.
  apply Is_true_true, in_vma_iff in Hin. destruct (tree_ok_in _ _ _ Ht Hv). split; [lia|done].
Qed.

Definition mprotect_post ext (held : list (obj_ptr * option Z)) (addr length prot : Z) (is_internal : bool)
    (s : vma_state) (ret : Z) (s' : vma_state) : Prop :=
  inv E [] ext held s' /\
  exists t, extended (vma_tree s) t /\
    ((ret = 0 /\ change_ok E t addr (addr + length) prot is_internal /\
        reprotected t (vma_tree s') (change_lo t addr prot) (addr + length) prot) \/
     (ret < 0 /\ vma_tree s' = t /\
        (ret = - EINVAL /\ bad_range addr length = true \/ ret = - ENOMEM /\ out_of_vmas 2 s \/
         (ret = - ENOMEM \/ ret = - EACCES \/ ret = - EINVAL) /\
           ~ change_ok E t addr (addr + length) prot is_internal))).

(** An area of the user that ends the extended tree ends the tree itself. *)
Lemma extended_aborts t t' b e prot :
  tree_ok (alloc_align E) t -> tree_ok (alloc_align E) t' -> extended t t' ->
  change_aborts E t' b e prot false = true -> change_aborts E t b e prot false = true.
Proof.
  intros Ht Ht' (extra & Hp & Hint). unfold change_aborts.
  destruct (last t') as [v|] eqn:Hlast; [|done]. intros Hab. enough (last t = Some v) as -> by done.
  apply last_Some in Hlast as [pre ->]. rewrite !andb_true_iff in Hab. destruct Hab as [_ Hv].
  assert (Hvt : v ∈ t).
  { assert (v ∈ t ++ extra) as [?|Hx]%elem_of_app by (rewrite <- Hp; set_solver); [done|].
    rewrite Forall_forall in Hint. specialize (Hint v Hx). unfold change_allowed in Hv. by rewrite Hint in Hv. }
  apply list_elem_of_split in Hvt as (l1 & [|w l2] & ->); [by rewrite last_snoc|exfalso].
  assert (Hw : w ∈ pre ++ [v]) by (rewrite Hp; set_solver).
  apply tree_ok_app in Ht as (_ & (_ & Hok2 & Hlt & _)%tree_ok_cons & _). specialize (Hlt w ltac:(set_solver)).
  pose proof (tree_ok_before _ _ _ _ Ht') as Hb. rewrite Forall_forall in Hb.
  destruct (tree_ok_in _ _ w Hok2 ltac:(set_solver)), (tree_ok_in _ _ v Ht' ltac:(set_solver)). unfold below in Hlt.
  apply elem_of_app in Hw as [Hw| ->%list_elem_of_singleton]; [specialize (Hb w Hw); simpl in Hb|]; lia.
Qed.

Lemma mprotect_end ext held addr length prot is_internal p1 p2 s s2 s3 r :
  inv E [] ext ((p1, None) :: (p2, None) :: held) s2 -> extended (vma_tree s) (vma_tree s2) -> 0 < length ->
  IS_ALIGNED_POW2 addr (alloc_align E) = true -> IS_ALIGNED_POW2 (addr + length) (alloc_align E) = true ->
  change_post E [] ext addr (addr + length) prot is_internal p1 p2 held s2 r s3 ->
  wp (let '(ret, left1, left2) := r in
      match left1 with Some p => free_vma E p None | None => mret () end;;
      match left2 with Some p => free_vma E p None | None => mret () end;;
      mret ret) (mprotect_post ext held addr length prot is_internal s) s3.
Proof.
  destruct r as [[ret u1] u2]. intros Hinv2 Hext Hlen Hal Hal2 (Hinv3 & Hcase). apply wp_bind.
  pose proof (inv_tree _ _ _ _ _ Hinv2) as Hok.
  eapply wp_mono; [apply (free_opt_spec E [] ext u1 _ _ Hinv3); set_solver|]. intros _ s4 (Hinv4 & (Et4 & _)).
  apply wp_bind. eapply wp_mono; [apply (free_opt_spec E [] ext u2 _ _ Hinv4); set_solver|].
  intros _ s5 (Hinv5 & (Et5 & _)). wp_steps. split; [done|]. exists (vma_tree s2). split; [done|]. rewrite Et5, Et4.
  destruct Hcase as [(-> & Hcok & Et3)|(Herr & Hno & ->)].
  - left. split_and!; [done..|]. rewrite Et3. destruct (change_lo_spec (vma_tree s2) addr prot Hok Hal) as [Hlo1 Hlo2].
    apply change_areas_reprotected; try done; [lia|..].
    + apply (inv_held_fresh _ _ _ _ _ p1 None Hinv2). set_solver.
    + apply (inv_held_fresh _ _ _ _ _ p2 None Hinv2). set_solver.
    + destruct Hinv2 as [_ _ _ _ [Hnd _ _ _]]. simpl in Hnd. apply NoDup_cons in Hnd as [Hnd _].
      intros ->. apply Hnd. set_solver.
  - right. destruct_or!; subst ret; split_and!; try done; tauto.
Qed.

Lemma bkeep_mprotect_wp ext held addr length prot is_internal s :
  inv E [] ext held s -> 0 <= addr -> 0 <= length -> addr + length <= UINTPTR_MAX ->
  wp_or (bkeep_mprotect E addr length prot is_internal) (mprotect_post ext held addr length prot is_internal s)
    (exists t, extended (vma_tree s) t /\ change_aborts E t addr (addr + length) prot is_internal = true /\
       (is_internal = false -> change_aborts E (vma_tree s) addr (addr + length) prot false = true)) s.
Proof.
  intros Hinv H0 Hl Hmax. unfold bkeep_mprotect. fold (bad_range addr length).
  destruct (bad_range addr length) eqn:Hbad.
  { apply wp_or_wp. wp_steps. split; [done|]. exists (vma_tree s). split; [apply extended_refl|].
    right. split_and!; [done..|]. by left. }
  destruct (bad_range_false addr length Hbad Hl) as (Hlen & Hal & Hal2). rewrite u64_end by done.
  apply wp_or_bind. eapply wp_mono; [by apply wp_keep, (alloc_vma_spec E HE)|]. intros [p1|] s1 (E1 & Hext1 & Hinv1).
  2:{ apply wp_or_wp. wp_steps. split; [done|]. exists (vma_tree s1). split; [done|]. right. split_and!; [done..|].
      right. left. simpl. by rewrite E1. }
  apply wp_or_bind. eapply wp_mono; [by apply wp_keep, (alloc_vma_spec E HE)|]. intros [p2|] s2 (E2 & Hext2 & Hinv2).
  2:{ apply wp_or_wp, wp_bind. eapply wp_mono; [apply (free_vma_spec E [] ext p1 None held); [done|left; set_solver]|].
      intros _ s3 (Hinv3 & (Et3 & _) & _). wp_steps. split; [done|]. exists (vma_tree s2).
      split; [by eapply extended_trans|]. right. split_and!; [done..|]. right. left. simpl. by rewrite E1, E2. }
  pose proof (extended_trans _ _ _ Hext1 Hext2) as Hext.
  assert (Hinv2' : inv E [] ext ((p1, None) :: (p2, None) :: held) s2).
  { eapply inv_perm; [exact Hinv2|]. simpl. solve_Permutation. }
  destruct (change_aborts E (vma_tree s2) addr (addr + length) prot is_internal) eqn:Hab.
  - apply wp_or_abort; [by eapply mprotect_last_area_aborts|]. exists (vma_tree s2). split_and!; [done..|].
    intros ->. eapply extended_aborts; [by eapply inv_tree..|done|done].
  - apply wp_or_wp, wp_bind. eapply wp_mono.
    { apply (vma_bkeep_change_spec E [] ext addr (addr + length) prot is_internal p1 p2 held); [done|lia|done..]. }
    intros r s3 Hpost. by apply (mprotect_end ext held addr length prot is_internal p1 p2 s s2 s3 r).
Qed.

(** ** [bkeep_mmap_any] *)

Definition mmap_any_post ext (held : list (obj_ptr * option Z)) (b t length prot flags : Z) (file : option Z)
    (offset : Z) (comment : string) (s : vma_state) (r : Z * Z) (s' : vma_state) : Prop :=
  inv E [] ext held s' /\
  let '(ret, addr) := r in
  (ret = - EINVAL /\ bad_args E b t length = true /\ s' = s) \/
  (ret = - ENOMEM /\ search_bounds E flags b t = None /\ s' = s) \/
  exists bottom top t1, search_bounds E flags b t = Some (bottom, top) /\ extended (vma_tree s) t1 /\
    tree_ok (alloc_align E) t1 /\
    ((ret = 0 /\ candidate t1 bottom top length addr /\
        (forall x, candidate t1 bottom top length x -> x <= addr) /\
        forall a, attr_at (vma_tree s') a =
          if decide (addr <= a < addr + length) then Some (mapped_attr addr prot flags file offset comment a)
          else attr_at t1 a) /\
        (forall v, v ∈ t1 -> v ∈ vma_tree s') \/
     (ret = - ENOMEM /\ vma_tree s' = t1 /\ (out_of_vmas 1 s \/ forall x, ~ candidate t1 bottom top length x))).

Lemma bkeep_mmap_any_wp ext held b t length prot flags file offset comment s :
  inv E [] ext held s -> in_memory E b t -> 0 <= length ->
  wp (bkeep_mmap_any_in_range E (alloc_vma E) b t length prot flags file offset comment)
     (mmap_any_post ext held b t length prot flags file offset comment s) s.
Proof.
  intros Hinv Hmem Hl. apply in_range_wp; [done|done|..].
  { intros Hbad. split; [done|]. by left. }
  { intros Hb. split; [done|]. right. by left. }
  intros bottom top Hb Hbad H0 _ _ Htop Hal.
  unfold bad_args in Hbad. breflect. eapply wp_mono; [by apply wp_keep, (alloc_vma_spec E HE)|].
  intros [p|] s1 (E1 & Hext & Hinv1); pose proof (inv_tree _ _ _ _ _ Hinv1) as Hok1.
  2:{ wp_steps. split; [done|]. right. right. exists bottom, top, (vma_tree s1). split_and!; [done..|].
      right. split_and!; [done..|]. left. simpl. by rewrite E1. }
  eapply wp_mono; [apply (place_new_vma_spec E HE [] ext p bottom top length); [exact Hinv1|left; set_solver|done..|lia|done|done]|].
  intros [ret addr] s2 (Hinv2 & Hcase). split; [done|]. right. right. exists bottom, top, (vma_tree s1).
  split_and!; [done..|].
  destruct Hcase as [(addr' & pre & suf & [= -> ->] & Et & Et' & Hc & Hbest & _)|([= -> ->] & Et & Hno & _)];
    [left|right; split_and!; [done..|by right]].
  split_and!; [done..| |rewrite Et, Et'; set_solver].
  intros a. pose proof (inv_tree _ _ _ _ _ Hinv2) as Hok2. rewrite Et' in *.
  rewrite (attr_at_insert (alloc_align E)), mapped_vma_attr, <- Et by done. unfold is_addr_in_vma. simpl.
  destruct (Z.leb_spec addr' a), (Z.ltb_spec a (addr' + length)); simpl; case_decide; done || lia.
Qed.

(** ** Areas left by [bkeep_munmap] *)

Lemma deref_spec (Q : libos_vma -> vma_state -> Prop) v s :
  tree_ok (alloc_align E) (vma_tree s) -> v ∈ vma_tree s -> Q v s -> wp (deref_vma (vptr v)) Q s.
Proof. intros Hok Hv HQ. unfold wp, deref_vma. by destruct (find_ptr _ _ _ Hok Hv) as [i ->]. Qed.

Lemma bkeep_remove_tmp_vma_wp ext held p b e s :
  inv E [] ext held s -> tmp_vma p b e ∈ vma_tree s ->
  wp (bkeep_remove_tmp_vma E p) (fun _ s' =>
    inv E [] ext held s' /\
    forall a, attr_at (vma_tree s') a = if decide (b <= a < e) then None else attr_at (vma_tree s) a) s.
Proof.
  intros Hinv Hin. pose proof Hinv as [Hok Htot Hpeak _ _]. unfold bkeep_remove_tmp_vma. apply wp_bind.
  apply (deref_spec _ (tmp_vma p b e)); [done..|]. apply wp_bind, wp_assert; [done|].
  apply list_elem_of_split in Hin as (pre & suf & Et). rewrite Et in Hok.
  apply wp_bind, (wp_delete E _ pre suf); [done..|]. apply wp_bind.
  pose proof (tree_ok_in _ _ (tmp_vma p b e) Hok ltac:(set_solver)) as [Hb1 Hb2 Hb3 _ _ _]. simpl in Hb1, Hb2, Hb3.
  pose proof (tree_ok_delete _ _ _ _ Hok) as Hok'. pose proof (tsize_range _ _ Hok) as Hr. pose proof (tsize_range _ _ Hok') as Hr'.
  assert (Hsz : tsize (vma_tree s) = tsize (pre ++ suf) + (e - b)).
  { rewrite Et, !tsize_app. simpl. unfold len; simpl. lia. }
  rewrite <- Et in Hr.
  eapply wp_mono; [apply total_sub_spec; simpl; lia|]. intros _ s1 ->. simpl.
  eapply wp_mono.
  { apply (free_vma_spec E [] ext p None held); [|left; set_solver].
    apply (set_tree_inv E [] ext held ((p, None) :: held) s (pre ++ suf)); [done|done|lia|lia|].
    rewrite Et, !fmap_app, fmap_cons. unfold obj at 3. simpl. solve_Permutation. }
  intros _ s2 (Hinv2 & (Et2 & _) & _). split; [done|]. intros a. rewrite Et2, Et. simpl.
  rewrite (attr_at_insert (alloc_align E)) by done. unfold is_addr_in_vma. simpl.
  destruct (Z.leb_spec b a), (Z.ltb_spec a e); simpl; case_decide; try lia; try done.
  eapply (attr_at_outside (alloc_align E) _ _ b e); [done| |lia].
  intros w [Hw|Hw]%elem_of_app.
  - left. pose proof (tree_ok_before _ _ _ _ Hok) as Hbf. rewrite Forall_forall in Hbf. by apply (Hbf w).
  - right. apply tree_ok_app in Hok as (_ & (_ & _ & Hlt & _)%tree_ok_cons & _). by apply Hlt.
Qed.

Lemma bkeep_convert_tmp_vma_spec ext held p b e s :
  inv E [] ext held s -> tmp_vma p b e ∈ vma_tree s ->
  wp (bkeep_convert_tmp_vma_to_user p) (fun _ s' =>
    inv E [] ext held s' /\
    forall a, attr_at (vma_tree s') a =
      if decide (b <= a < e) then Some (Attr PROT_NONE VMA_UNMAPPED None "") else attr_at (vma_tree s) a) s.
Proof.
  intros Hinv Hin. pose proof (inv_tree _ _ _ _ _ Hinv) as Hok. unfold bkeep_convert_tmp_vma_to_user. apply wp_bind.
  apply (deref_spec _ (tmp_vma p b e)); [done..|]. apply wp_bind, wp_assert; [done|].
  apply list_elem_of_split in Hin as (pre & suf & Et). rewrite Et in Hok.
  apply (wp_write E (tmp_vma p b e) _ pre suf); [done..|]. set (v' := set_vflags _ _).
  assert (Hinv' : inv E [] ext held (set_tree s (pre ++ v' :: suf))).
  { eapply write_inv; try done. destruct (tree_ok_in _ _ (tmp_vma p b e) Hok ltac:(set_solver)). by constructor. }
  split; [done|]. intros a. simpl. pose proof (inv_tree _ _ _ _ _ Hinv') as Hok'. simpl in Hok'.
  rewrite Et, !(attr_at_insert (alloc_align E)) by done. unfold is_addr_in_vma. simpl.
  destruct (Z.leb_spec b a), (Z.ltb_spec a e); simpl; case_decide; try lia; done.
Qed.

(** ** Claims *)

(** C32: [bkeep_munmap] returns, keeps the invariant, and on success the range
    holds exactly one temporary internal area; every address outside keeps its
    attributes, apart from memory the LibOS mapped for its own structures.  A
    range with areas of the other kind of ownership is refused, and [-ENOMEM] is
    returned only when [alloc_vma] has no two structures. *)
Theorem bkeep_munmap_correct ext held addr length is_internal s :
  inv E [] ext held s -> 0 <= addr -> 0 <= length -> addr + length <= UINTPTR_MAX ->
  wp (bkeep_munmap E addr length is_internal) (munmap_post ext held addr length is_internal s) s.
Proof. apply bkeep_munmap_wp. Qed.

(** C33: [bkeep_mmap_fixed] returns, keeps the invariant, and on success exactly
    the range has the attributes of the new mapping, with file offsets that
    advance with the address; with [MAP_FIXED_NOREPLACE] the range was free
    before.  Every error has its cause: a bad range, an occupied range, areas of
    the other kind of ownership, or no two structures from [alloc_vma]. *)
Theorem bkeep_mmap_fixed_correct ext held addr length prot flags file offset comment s :
  inv E [] ext held s -> 0 <= addr -> 0 <= length -> addr + length <= UINTPTR_MAX ->
  has flags (Z.lor MAP_FIXED MAP_FIXED_NOREPLACE) = true ->
  wp (bkeep_mmap_fixed E addr length prot flags file offset comment)
     (mmap_fixed_post ext held addr length prot flags file offset comment s) s.
Proof. apply bkeep_mmap_fixed_wp. Qed.

(** C34: [bkeep_mprotect] keeps the invariant and changes the protection of
    exactly the requested range when the whole range is mapped by areas that
    allow it; on an error no area changes, and it fails only for an unaligned or
    empty range, when the range is not mapped or not allowed to change, and when
    [alloc_vma] has no two structures.  The one case in which it does not return
    is [change_aborts]: the range is the upper part of the area with the highest
    addresses; for a call of the user this is an area of the user. *)
Theorem bkeep_mprotect_correct ext held addr length prot is_internal s :
  inv E [] ext held s -> 0 <= addr -> 0 <= length -> addr + length <= UINTPTR_MAX ->
  wp_or (bkeep_mprotect E addr length prot is_internal) (mprotect_post ext held addr length prot is_internal s)
    (exists t, extended (vma_tree s) t /\ change_aborts E t addr (addr + length) prot is_internal = true /\
       (is_internal = false -> change_aborts E (vma_tree s) addr (addr + length) prot false = true)) s.
Proof. apply bkeep_mprotect_wp. Qed.

(** C35: [bkeep_mmap_any_in_range] maps the highest free range of the requested
    length within the searched bounds; nothing else changes except for memory
    of the LibOS itself.  It fails with [-ENOMEM] only when no range within the
    bounds is free, when the bounds are empty, or when [alloc_vma] has no
    structure. *)
Theorem bkeep_mmap_any_in_range_correct ext held b t length prot flags file offset comment s :
  inv E [] ext held s -> in_memory E b t -> 0 <= length ->
  wp (bkeep_mmap_any_in_range E (alloc_vma E) b t length prot flags file offset comment)
     (mmap_any_post ext held b t length prot flags file offset comment s) s.
Proof. apply bkeep_mmap_any_wp. Qed.

Lemma tmp_vma_attr p b e t a :
  tree_ok (alloc_align E) t -> tmp_vma p b e ∈ t -> b <= a < e -> attr_at t a = Some unmapped_attr.
Proof.
  intros Ht Hin Ha. rewrite (attr_at_elem _ _ _ _ Ht Hin); [done|]. by rewrite in_vma_iff.
Qed.

(** The temporary area [p] of [[b, e)] stays, and the invariant holds. *)
Definition tmp_stays ext held p b e (s : vma_state) : Prop :=
  tmp_vma p b e ∈ vma_tree s /\ inv E [] ext held s.

Lemma tmp_not_unmapped ext held p b e addr length s :
  tmp_stays ext held p b e s -> 0 <= addr -> 0 <= length -> addr + length <= UINTPTR_MAX ->
  Z.max addr b < Z.min (addr + length) e ->
  wp (bkeep_munmap E addr length false) (fun r s' => fst r < 0 /\ tmp_stays ext held p b e s') s.
Proof.
  intros [Hin Hinv] H0 Hl Hmax Hov. pose proof (inv_tree _ _ _ _ _ Hinv) as Hok.
  pose proof (tmp_vma_attr p b e _ (Z.max addr b) Hok Hin ltac:(lia)) as Hattr.
  eapply wp_mono; [by apply bkeep_munmap_wp|]. intros [ret [q|]] s' (Hinv' & Hpost); simpl in *.
  - destruct Hpost as (_ & _ & Ha). specialize (Ha (Z.max addr b)). rewrite decide_True in Ha by lia.
    destruct Ha as [_ Ha]. by specialize (Ha _ Hattr).
  - destruct Hpost as (Hext & Hret). split; [|split; [by eapply extended_in|done]]. destruct_or!; destruct_and?; subst; done.
Qed.

Lemma tmp_not_replaced ext held p b e addr length prot flags file offset comment s :
  tmp_stays ext held p b e s -> 0 <= addr -> 0 <= length -> addr + length <= UINTPTR_MAX ->
  Z.max addr b < Z.min (addr + length) e ->
  has flags (Z.lor MAP_FIXED MAP_FIXED_NOREPLACE) = true -> has flags VMA_INTERNAL = false ->
  wp (bkeep_mmap_fixed E addr length prot flags file offset comment)
     (fun ret s' => ret < 0 /\ tmp_stays ext held p b e s') s.
Proof.
  intros [Hin Hinv] H0 Hl Hmax Hov Hfix Hint. pose proof (inv_tree _ _ _ _ _ Hinv) as Hok.
  pose proof (tmp_vma_attr p b e _ (Z.max addr b) Hok Hin ltac:(lia)) as Hattr.
  eapply wp_mono; [by apply (bkeep_mmap_fixed_wp ext held)|].
  intros ret s' (Hinv' & [(-> & Ha)|(Hneg & Hext & _)]); [|split; [done|split; [by eapply extended_in|done]]].
  specialize (Ha (Z.max addr b)). rewrite decide_True in Ha by lia. destruct Ha as [_ Ha].
  destruct (has flags MAP_FIXED_NOREPLACE); [congruence|]. specialize (Ha _ Hattr). by rewrite Hint in Ha.
Qed.

Lemma tmp_not_changed ext held p b e addr length prot s :
  tmp_stays ext held p b e s -> 0 <= addr -> 0 <= length -> addr + length <= UINTPTR_MAX ->
  Z.max addr b < Z.min (addr + length) e ->
  wp (bkeep_mprotect E addr length prot false) (fun ret s' => ret < 0 /\ tmp_stays ext held p b e s') s.
Proof.
  intros [Hin Hinv] H0 Hl Hmax Hov. pose proof (inv_tree _ _ _ _ _ Hinv) as Hok.
  assert (Ho : overlaps addr (addr + length) (tmp_vma p b e) = true).
  { unfold overlaps. simpl. apply andb_true_iff; split; apply Z.ltb_lt; lia. }
  pose proof (bkeep_mprotect_wp ext held addr length prot false s Hinv H0 Hl Hmax) as Hwp. unfold wp_or, wp in *.
  destruct (bkeep_mprotect E addr length prot false s) as [[ret s']|].
  - destruct Hwp as (Hinv' & t & Hext & [(_ & [_ Hall] & _)|(Hneg & <- & _)]).
    + by specialize (Hall (tmp_vma p b e) ltac:(by eapply extended_in) Ho).
    + split; [done|split; [by eapply extended_in|done]].
  - destruct Hwp as (_ & _ & _ & Hab). specialize (Hab eq_refl). unfold change_aborts in Hab.
    destruct (last (vma_tree s)) as [v|] eqn:Hlast; [|done]. apply last_Some in Hlast as [pre Et].
    rewrite !andb_true_iff, !Z.ltb_lt, Z.eqb_eq in Hab. destruct Hab as ((((? & ?) & Hend) & _) & Hallow).
    enough (v = tmp_vma p b e) as -> by done.
    apply (tree_ok_unique (alloc_align E) (vma_tree s) v (tmp_vma p b e) (Z.max addr b)); [done|rewrite Et; set_solver|done| |];
      rewrite in_vma_iff; simpl; lia.
Qed.

Lemma tmp_not_chosen ext held p b e bottom top length prot flags file offset comment s :
  tmp_stays ext held p b e s -> in_memory E bottom top -> 0 <= length ->
  wp (bkeep_mmap_any_in_range E (alloc_vma E) bottom top length prot flags file offset comment)
     (fun r s' => (fst r = 0 -> snd r + length <= b \/ e <= snd r) /\ tmp_stays ext held p b e s') s.
Proof.
  intros [Hin Hinv] Hmem Hl. eapply wp_mono; [by apply (bkeep_mmap_any_wp ext held)|].
  intros [ret addr] s' (Hinv' & Hcase). simpl.
  destruct Hcase as [(-> & _ & ->)|[(-> & _ & ->)|(lo & hi & t1 & _ & Hext & _ & Hres)]]; [split; [done|by split]..|].
  pose proof (extended_in _ _ _ Hext Hin) as Hin1.
  destruct Hres as [((-> & (_ & _ & Hfree) & _) & Hkeep)|(-> & <- & _)]; (split; [|split; [|done]]); try done; [|by apply Hkeep].
  intros _. destruct (Hfree _ Hin1); simpl in *; lia.
Qed.

(** C36: as long as the temporary area of an unmapped range is in the tree, from
    [bkeep_munmap] until [bkeep_remove_tmp_vma], no other call of the user takes
    the range: [bkeep_munmap], [bkeep_mmap_fixed] (with either kind of fixed
    flag) and [bkeep_mprotect] on a range that touches it return an error,
    [bkeep_mmap_any_in_range] picks a range that does not touch it, and all four
    leave the temporary area in place and keep the invariant. *)
Theorem tmp_vma_protects_range ext held p b e addr length prot flags file offset comment bottom top s :
  inv E [] ext held s -> tmp_vma p b e ∈ vma_tree s ->
  0 <= addr -> 0 <= length -> addr + length <= UINTPTR_MAX ->
  Z.max addr b < Z.min (addr + length) e -> in_memory E bottom top ->
  has flags (Z.lor MAP_FIXED MAP_FIXED_NOREPLACE) = true -> has flags VMA_INTERNAL = false ->
  wp (bkeep_munmap E addr length false) (fun r s' => fst r < 0 /\ tmp_stays ext held p b e s') s /\
  wp (bkeep_mmap_fixed E addr length prot flags file offset comment)
     (fun ret s' => ret < 0 /\ tmp_stays ext held p b e s') s /\
  wp (bkeep_mprotect E addr length prot false) (fun ret s' => ret < 0 /\ tmp_stays ext held p b e s') s /\
  forall flags', wp (bkeep_mmap_any_in_range E (alloc_vma E) bottom top length prot flags' file offset comment)
     (fun r s' => (fst r = 0 -> snd r + length <= b \/ e <= snd r) /\ tmp_stays ext held p b e s') s.
Proof.
  intros Hinv Hin H0 Hl Hmax Hov Hmem Hfix Hint. assert (Hst : tmp_stays ext held p b e s) by done.
  split_and!; [by apply tmp_not_unmapped|by apply tmp_not_replaced|by apply tmp_not_changed|].
  intros flags'. by apply tmp_not_chosen.
Qed.

(** [pal_mem_bkeep_free], which the PAL calls to return its own memory,
    succeeds only on internal memory and then leaves the range unmapped. *)
Theorem pal_mem_bkeep_free_correct ext held addr size s :
  inv E [] ext held s -> 0 <= addr -> 0 <= size -> addr + size <= UINTPTR_MAX ->
  wp (pal_mem_bkeep_free E addr size) (fun ret s' =>
    inv E [] ext held s' /\
    if decide (ret = 0) then
      forall a, if decide (addr <= a < addr + size)
        then attr_at (vma_tree s') a = None /\
             forall x, attr_at (vma_tree s) a = Some x -> internal_attr x = true
        else same_or_internal (attr_at (vma_tree s) a) (attr_at (vma_tree s') a)
    else ret < 0 /\ extended (vma_tree s) (vma_tree s')) s.
Proof.
  intros Hinv H0 Hl Hmax. unfold pal_mem_bkeep_free. apply wp_bind.
  eapply wp_mono; [by apply bkeep_munmap_wp|]. intros [ret [p|]] s1 (Hinv1 & Hpost); simpl in *.
  - destruct Hpost as (-> & Hin & Ha). simpl. apply wp_bind. eapply wp_mono; [by apply bkeep_remove_tmp_vma_wp|].
    intros _ s2 (Hinv2 & Ha2). wp_steps. split; [done|]. rewrite decide_True by done. intros a.
    specialize (Ha a). rewrite Ha2. case_decide; [split; [done|apply Ha]|done].
  - destruct Hpost as (Hext & Hret). assert (Hneg : ret < 0) by (destruct_or!; destruct_and?; subst; done).
    rewrite (proj2 (Z.ltb_lt ret 0) Hneg). wp_steps. split; [done|]. rewrite decide_False by lia. done.
Qed.

End spec.
