(* ===== verification/VmaQuery.v ===== *)
(** * Queries on the memory areas

    [is_in_adjacent_user_vmas], which guards every access to user memory, and
    the functions that copy descriptions of areas out of the tree. *)

From S2P Require Import Prelude OrdSeq Memmgr Vma VmaTree VmaInv VmaOps.

Section query.
Context (E : vma_env).

(** ** [is_in_adjacent_user_vmas] *)

Definition accessible (prot : Z) (x : attr) : bool :=
  negb (has (at_flags x) (Z.lor VMA_INTERNAL VMA_UNMAPPED)) && (Z.land (at_prot x) prot =? prot).

Definition good (prot : Z) (v : libos_vma) : bool :=
  negb (has (vflags v) (Z.lor VMA_INTERNAL VMA_UNMAPPED)) && (Z.land (vprot v) prot =? prot).

Lemma good_attr prot v a : accessible prot (attr_of v a) = good prot v.
Proof. done. Qed.

Lemma adj_visitor_eq prot v ok : adj_visitor prot v ok = mret (good prot v, ok && good prot v).
Proof. done. Qed.

Lemma traverse_adj_spec prot e vma next c ok s :
  tree_ok (alloc_align E) (vma :: next) ->
  wp (traverse_loop (adj_visitor prot) e vma next c ok) (fun r s' => s' = s /\
    (fst r && snd r = true <->
     c = true /\ ok = true /\ good prot vma = true /\
     forall a, vend vma <= a < e -> exists v, v ∈ next /\ is_addr_in_vma a v = true /\ good prot v = true)) s.
Proof.
  revert vma c ok. induction next as [|v' next IH]; intros vma c ok Hok;
    pose proof Hok as ([] & Hoks & Hlt & _)%tree_ok_cons; cbn [traverse_loop]; rewrite adj_visitor_eq; wp_steps;
    (destruct (good prot vma); cbn beta iota; wp_steps; [|split; [done|]; simpl; rewrite !andb_false_r; naive_solver]).
  - split; [done|]. simpl. rewrite andb_true_r, !andb_true_iff, Z.leb_le. split.
    + intros [[-> He] ->]. split_and!; try done. lia.
    + intros (-> & -> & _ & Hc). split_and!; try done. destruct (Z.le_gt_cases e (vend vma)); [done|].
      destruct (Hc (vend vma) ltac:(lia)) as (v & Hv & _). by apply elem_of_nil in Hv.
  - assert (Hlt' : vend vma <= vbegin v') by (apply Hlt; in_list).
    pose proof Hoks as ([] & _ & Hlt2 & _)%tree_ok_cons.
    destruct (Z.leb_spec e (vbegin v')).
    + wp_steps. split; [done|]. simpl. rewrite andb_true_r, !andb_true_iff, Z.leb_le. split.
      * intros [[-> He] ->]. split_and!; try done. lia.
      * intros (-> & -> & _ & Hc). split_and!; try done. destruct (Z.le_gt_cases e (vend vma)); [done|].
        destruct (Hc (vend vma) ltac:(lia)) as (v & Hv & Hin%in_vma_iff & _).
        apply elem_of_cons in Hv as [->|Hv]; [lia|]. specialize (Hlt2 v Hv). unfold below in Hlt2. lia.
    + eapply wp_mono; [by apply IH|]. intros r s' (-> & Hr). split; [done|]. rewrite Hr, andb_true_r, andb_true_iff, Z.eqb_eq.
      split.
      * intros ([-> Heq] & -> & Hg & Hc). split_and!; try done. intros a Ha.
        destruct (Z.lt_ge_cases a (vend v')).
        -- exists v'. rewrite in_vma_iff. split_and!; [in_list|lia|lia|done].
        -- destruct (Hc a ltac:(lia)) as (v & Hv & ?). exists v. split; [in_list|done].
      * intros (-> & -> & _ & Hc).
        assert (Hpick : forall a, vend vma <= a < e -> is_addr_in_vma a v' = true \/
                  exists v, v ∈ next /\ is_addr_in_vma a v = true /\ good prot v = true).
        { intros a Ha. destruct (Hc a Ha) as (v & [->|Hv]%elem_of_cons & Hin & Hg); eauto. }
        assert (Heq : vend vma = vbegin v').
        { destruct (Hpick (vend vma) ltac:(lia)) as [Hin%in_vma_iff|(v & Hv & Hin%in_vma_iff & _)]; [lia|].
          specialize (Hlt2 v Hv). unfold below in Hlt2. lia. }
        split_and!; try done.
        -- destruct (Hc (vbegin v') ltac:(lia)) as (v & [->|Hv]%elem_of_cons & Hin%in_vma_iff & Hg); [done|].
           specialize (Hlt2 v Hv). unfold below in Hlt2. lia.
        -- intros a Ha. destruct (Hpick a ltac:(lia)) as [Hin%in_vma_iff|?]; [lia|done].
Qed.

(** C38: [is_in_adjacent_user_vmas] accepts a buffer exactly when every byte of it
    is user memory with the requested protection. *)
Theorem is_in_adjacent_user_vmas_correct addr length prot s :
  tree_ok (alloc_align E) (vma_tree s) -> 0 <= addr -> 0 <= length -> addr + length <= UINTPTR_MAX ->
  wp (is_in_adjacent_user_vmas addr length prot) (fun r s' => s' = s /\
    (r = true <-> forall a, addr <= a < addr + length ->
       exists x, attr_at (vma_tree s) a = Some x /\ accessible prot x = true)) s.
Proof.
  intros Hok H0 Hl Hmax. unfold is_in_adjacent_user_vmas. rewrite u64_small by (unfold UINTPTR_MAX in *; lia).
  apply wp_bind, wp_assert; [apply Z.leb_le; lia|]. apply wp_bind. unfold _traverse_vmas_in_range.
  apply wp_bind, wp_assert; [apply Z.leb_le; lia|].
  destruct (Z.eqb_spec addr (addr + length)); [wp_steps; split; [done|]; split; [lia|done]|]. vma_steps.
  destruct (lookup_split _ (vma_tree s) addr Hok) as (pre & suf & Es & Et & Hpre & Hsuf). rewrite Es. cbn [snd].
  assert (Hno : forall a v, addr <= a -> v ∈ pre -> ~ is_addr_in_vma a v = true).
  { intros a v Ha Hv Hin%in_vma_iff. rewrite Forall_forall in Hpre. specialize (Hpre v Hv). simpl in Hpre. lia. }
  assert (Hiff : forall a, addr <= a -> (exists x, attr_at (vma_tree s) a = Some x /\ accessible prot x = true) <->
            exists v, v ∈ suf /\ is_addr_in_vma a v = true /\ good prot v = true).
  { intros a Ha. split.
    - intros (x & (v & Hv & Hin & ->)%(attr_at_Some (alloc_align E)) & Hx); [|done]. exists v. split_and!; [|done..].
      rewrite Et in Hv. apply elem_of_app in Hv as [Hv|Hv]; [by destruct (Hno a v)|done].
    - intros (v & Hv & Hin & Hg). exists (attr_of v a). split; [|done]. apply (attr_at_elem (alloc_align E)); [done| |done].
      rewrite Et. in_list. }
  destruct suf as [|vma next].
  { vma_steps. split; [done|]. split; [done|]. intros Hall.
    destruct (proj1 (Hiff addr ltac:(lia)) (Hall addr ltac:(lia))) as (v & Hv & _). by apply elem_of_nil in Hv. }
  rewrite Et in Hok. apply tree_ok_app in Hok as (_ & Hok & _). pose proof Hok as ([] & _ & Hlt & _)%tree_ok_cons.
  apply Forall_cons in Hsuf as [Hv _].
  destruct (Z.leb_spec (addr + length) (vbegin vma)).
  { vma_steps. split; [done|]. split; [done|]. intros Hall.
    destruct (proj1 (Hiff addr ltac:(lia)) (Hall addr ltac:(lia))) as (v & [->|Hw]%elem_of_cons & Hin%in_vma_iff & _); [lia|].
    specialize (Hlt v Hw). unfold below in Hlt. lia. }
  eapply wp_mono; [by apply traverse_adj_spec|]. intros [c ok] s' (-> & Hr). vma_steps. split; [done|].
  simpl in Hr. rewrite Hr, Z.leb_le. split.
  - intros (Hle & _ & Hg & Hc) a Ha. apply Hiff; [lia|]. destruct (Z.lt_ge_cases a (vend vma)).
    + exists vma. rewrite in_vma_iff. split_and!; [in_list|lia|lia|done].
    + destruct (Hc a ltac:(lia)) as (v & Hw & ?). exists v. split; [in_list|done].
  - intros Hall.
    assert (Hc : forall a, addr <= a < addr + length -> exists v, v ∈ vma :: next /\ is_addr_in_vma a v = true /\ good prot v = true).
    { intros a Ha. apply Hiff; [lia|]. by apply Hall. }
    destruct (Hc addr ltac:(lia)) as (v & [->|Hw]%elem_of_cons & Hin%in_vma_iff & Hg).
    + split_and!; try done; [lia|]. intros a Ha. destruct (Hc a ltac:(lia)) as (w & [->|Hw]%elem_of_cons & Hin'%in_vma_iff & Hg');
        [lia|]. exists w. by rewrite in_vma_iff.
    + specialize (Hlt v Hw). unfold below in Hlt. lia.
Qed.

(** ** Copies of area descriptions *)

Definition info_of (v : libos_vma) : libos_vma_info :=
  VmaInfo (vbegin v) (vend v - vbegin v) (vprot v) (vflags v) (vfile v) (voffset v) (vcomment v).

(** References held by a list of descriptions. *)
Definition count_infos (h : Z) (infos : list libos_vma_info) : Z :=
  Z.of_nat (length (filter (fun i => info_file i = Some h) infos)).
Definition ext_plus (ext : Z -> Z) (infos : list libos_vma_info) (h : Z) : Z := ext h + count_infos h infos.

Lemma count_infos_cons h i infos :
  count_infos h (i :: infos) = (if decide (info_file i = Some h) then 1 else 0) + count_infos h infos.
Proof. unfold count_infos. rewrite filter_cons. case_decide; simpl; lia. Qed.

Lemma inv_ext foreign ext ext' held s :
  (forall h, ext h = ext' h) -> inv E foreign ext held s -> inv E foreign ext' held s.
Proof. intros Hext [H1 H2 H3 H4 [H5 H6 H7 H8]]. constructor; try done. constructor; try done. intros h. by rewrite <- Hext. Qed.

Lemma set_refs_ext foreign ext ext' held s r :
  inv E foreign ext held s -> (forall h, counter r h - counter (ref_count s) h = ext' h - ext h) ->
  inv E foreign ext' held (set_refs s r (num_mmapped s)).
Proof.
  intros [H1 H2 H3 H4 [H5 H6 H7 H8]] Hr. constructor; try done. constructor; try done. simpl.
  intros h. specialize (Hr h). specialize (H8 h).
  change (objs (set_refs s r (num_mmapped s))) with (objs s). lia.
Qed.

Lemma dump_vma_spec foreign ext held v s :
  inv E foreign ext held s ->
  wp (dump_vma v) (fun i s' =>
    i = info_of v /\ same_tree s s' /\ inv E foreign (ext_plus ext [info_of v]) held s') s.
Proof.
  intros Hinv. unfold dump_vma. apply wp_bind. destruct (vfile v) as [h|] eqn:Ef; unfold get_handle; wp_steps;
    (split_and!; [unfold info_of; by rewrite Ef|done|]).
  - eapply set_refs_ext; [exact Hinv|]. intros k. unfold ext_plus. rewrite count_infos_cons, counter_insert. simpl.
    rewrite Ef. change (count_infos k []) with 0. repeat case_decide; simplify_eq; lia.
  - eapply inv_ext; [|exact Hinv]. intros k. unfold ext_plus. rewrite count_infos_cons. simpl. rewrite Ef.
    change (count_infos k []) with 0. case_decide; [done|lia].
Qed.

Lemma free_vma_info_array_spec foreign ext held infos s :
  inv E foreign (ext_plus ext infos) held s ->
  wp (free_vma_info_array infos) (fun _ s' => same_tree s s' /\ inv E foreign ext held s') s.
Proof.
  revert s. induction infos as [|i infos IH]; intros s Hinv; cbn [free_vma_info_array].
  - wp_steps. split; [done|]. eapply inv_ext; [|exact Hinv]. intros h. unfold ext_plus. change (count_infos h []) with 0. lia.
  - apply wp_bind. destruct (info_file i) as [h|] eqn:Ef; unfold put_handle; wp_steps.
    + eapply wp_mono; [apply IH|].
      * eapply set_refs_ext; [exact Hinv|]. intros k. unfold ext_plus. rewrite count_infos_cons, counter_insert.
        rewrite Ef. repeat case_decide; simplify_eq; lia.
      * intros _ s' (? & ?). by split.
    + apply IH. eapply inv_ext; [|exact Hinv]. intros k. unfold ext_plus. rewrite count_infos_cons, Ef. by rewrite decide_False.
Qed.

Section dump_pure.
Variable f : libos_vma -> bool.
Abbreviation flt := (fun v => mret (f v) : SM vma_state bool).

Definition selected (e : Z) (l : list libos_vma) : list libos_vma_info :=
  info_of <$> filter (fun v => (vbegin v <? e) && f v) l.

Lemma selected_beyond e v l : tree_ok (alloc_align E) (v :: l) -> e <= vbegin v -> selected e (v :: l) = [].
Proof.
  intros ([] & Hok & Hlt & _)%tree_ok_cons He. unfold selected. rewrite list_filter_none; [done|].
  apply Forall_forall. intros w Hw Hs%Is_true_true. breflect. apply elem_of_cons in Hw as [->|Hw]; [lia|].
  specialize (Hlt w Hw). unfold below in Hlt. lia.
Qed.

Lemma selected_cons e v l :
  vbegin v < e -> selected e (v :: l) = if f v then info_of v :: selected e l else selected e l.
Proof.
  intros Hv. unfold selected. rewrite filter_cons, (proj2 (Z.ltb_lt _ _) Hv). simpl. by destruct (f v).
Qed.

Lemma dump_loop_spec foreign ext held max e l size s :
  tree_ok (alloc_align E) l -> inv E foreign ext held s ->
  wp (dump_loop flt max e l size) (fun r s' =>
    fst r = size + Z.of_nat (length (selected e l)) /\
    snd r = take (Z.to_nat (max - size)) (selected e l) /\ same_tree s s' /\
    inv E foreign (ext_plus ext (snd r)) held s') s.
Proof.
  revert ext size s. induction l as [|v l IH]; intros ext size s Hok Hinv; cbn [dump_loop].
  - wp_steps. change (selected e []) with (@nil libos_vma_info). rewrite take_nil. simpl.
    split_and!; [lia|done|done|]. eapply inv_ext; [|exact Hinv]. intros h. unfold ext_plus. change (count_infos h []) with 0. lia.
  - pose proof Hok as (_ & Hok' & _)%tree_ok_cons. destruct (Z.ltb_spec (vbegin v) e) as [Hv|Hv].
    + apply wp_bind, wp_ret. rewrite selected_cons by done. destruct (f v); [|by apply IH].
      cbn [length].
      destruct (Z.ltb_spec size max).
      * apply wp_bind. eapply wp_mono; [by apply dump_vma_spec|]. intros i s1 (-> & Hs1 & Hinv1).
        apply wp_bind. eapply wp_mono; [by apply IH|]. intros [n infos] s2 (En & Ei & Hs2 & Hinv2). wp_steps. simpl in *.
        split_and!; [lia| |by eapply same_tree_trans|].
        -- rewrite Ei. replace (Z.to_nat (max - size)) with (S (Z.to_nat (max - (size + 1)))) by lia. done.
        -- eapply inv_ext; [|exact Hinv2]. intros h. unfold ext_plus. rewrite !count_infos_cons.
           change (count_infos h []) with 0. lia.
      * eapply wp_mono; [by apply IH|]. intros [n infos] s2 (En & Ei & Hs2 & Hinv2). simpl in *.
        split_and!; [lia| |done|done].
        rewrite Ei. replace (Z.to_nat (max - size)) with O by lia. by replace (Z.to_nat (max - (size + 1))) with O by lia.
    + wp_steps. rewrite selected_beyond by done. simpl. rewrite take_nil. split_and!; [lia|done|done|].
      eapply inv_ext; [|exact Hinv]. intros h. unfold ext_plus. change (count_infos h []) with 0. lia.
Qed.

(** Descriptions of the areas that meet [[b, e)] and pass the filter. *)
Definition dumped (b e : Z) (t : list libos_vma) : list libos_vma_info :=
  info_of <$> filter (fun v => overlaps b e v && f v) t.

Lemma dumped_suffix b e pre suf :
  Forall (fun v => vend v <= b) pre -> Forall (fun v => b < vend v) suf ->
  dumped b e (pre ++ suf) = selected e suf.
Proof.
  intros Hpre Hsuf. unfold dumped, selected. rewrite filter_app, list_filter_none.
  - simpl. f_equal. induction Hsuf as [|v suf Hv _ IH]; [done|]. rewrite !filter_cons, IH. unfold overlaps.
    by rewrite (proj2 (Z.ltb_lt _ _) Hv), andb_true_r.
  - eapply Forall_impl; [exact Hpre|]. intros v Hv Hs%Is_true_true. unfold overlaps in Hs. breflect. simpl in Hv. lia.
Qed.

Lemma dump_with_buf_spec foreign ext held max b e s :
  inv E foreign ext held s ->
  wp (dump_vmas_with_buf flt max b e) (fun r s' =>
    fst r = Z.of_nat (length (dumped b e (vma_tree s))) /\
    snd r = take (Z.to_nat max) (dumped b e (vma_tree s)) /\ same_tree s s' /\
    inv E foreign (ext_plus ext (snd r)) held s') s.
Proof.
  intros Hinv. pose proof (inv_tree _ _ _ _ _ Hinv) as Hok. unfold dump_vmas_with_buf. vma_steps.
  destruct (lookup_split _ (vma_tree s) b Hok) as (pre & suf & Es & Et & Hpre & Hsuf). rewrite Es. cbn [snd].
  rewrite Et, dumped_suffix by done. rewrite Et in Hok. apply tree_ok_app in Hok as (_ & Hok & _).
  eapply wp_mono; [by apply dump_loop_spec|]. intros r s' (? & ? & ? & ?). by rewrite Z.sub_0_r in *.
Qed.

(** [dump_vmas] returns after at most two rounds with a description of every
    area that meets the range and passes the filter, in order and with one
    reference per file; it only fails when the buffer cannot be allocated. *)
Theorem dump_vmas_complete foreign ext held b e s :
  inv E foreign ext held s ->
  wp (dump_vmas E flt b e) (fun r s' => same_tree s s' /\
    match r with
    | inr infos => infos = dumped b e (vma_tree s) /\ inv E foreign (ext_plus ext infos) held s'
    | inl err => err = - ENOMEM /\ inv E foreign ext held s' /\
        (calloc_ok E DEFAULT_VMA_COUNT = false \/ calloc_ok E (Z.of_nat (length (dumped b e (vma_tree s)))) = false)
    end) s.
Proof.
  intros Hinv. unfold dump_vmas. cbn [dump_vmas_loop].
  destruct (calloc_ok E DEFAULT_VMA_COUNT); [|wp_steps; by split_and!; auto]. apply wp_bind.
  eapply wp_mono; [by apply dump_with_buf_spec|]. intros [n infos] s1 (En & Ei & Hs1 & Hinv1). simpl in En, Ei, Hinv1.
  destruct (Z.leb_spec n DEFAULT_VMA_COUNT) as [Hn|Hn].
  { wp_steps. rewrite take_ge in Ei by lia. by subst infos. }
  apply wp_bind. eapply wp_mono; [by apply free_vma_info_array_spec|]. intros _ s2 (Hs2 & Hinv2).
  pose proof (same_tree_trans _ _ _ Hs1 Hs2) as Hs12. subst n.
  destruct (calloc_ok E _) eqn:Hc; [|wp_steps; by split_and!; auto]. apply wp_bind.
  eapply wp_mono; [by apply dump_with_buf_spec|]. intros [n' infos'] s3 (En' & Ei' & Hs3 & Hinv3). simpl in En', Ei', Hinv3.
  destruct Hs12 as (Et2 & Hs12). rewrite Et2 in *. rewrite take_ge in Ei' by lia. rewrite (proj2 (Z.leb_le _ _)) by lia.
  wp_steps. split; [by eapply same_tree_trans; [|exact Hs3]|]. by subst infos'.
Qed.

End dump_pure.
End query.
