(* ===== verification/VmaCache.v ===== *)
(** * The per-thread cache of area structures, at the level of pointers

    [libos_vma.c] links the free structures of a thread through their
    [next_free] fields and keeps the length of the list in the two low bits of
    each link.  [Vma] uses plain lists instead; here the pointer code is
    modelled and shown to implement them. *)

From S2P Require Import Prelude.

(** ** The code *)

Definition VMA_CACHE_SIZE : Z := 3.

Record cache_state := CacheState {
  tcb_vma_cache : Z;          (* [LIBOS_TCB_GET(vma_cache)] *)
  next_free : gmap Z Z        (* field of the structure at an address *)
}.

Abbreviation C := (SM cache_state).

Definition set_tcb (w : Z) : C unit := sm_modify (fun s => CacheState w (next_free s)).
Definition read_next (vma : Z) : C Z := fun s =>
  match next_free s !! vma with Some w => Some (w, s) | None => None end.
Definition write_next (vma w : Z) : C unit :=
  sm_modify (fun s => CacheState (tcb_vma_cache s) (<[vma := w]> (next_free s))).

Definition cache2ptr (vma : Z) : Z := Z.land vma (Z.lnot VMA_CACHE_SIZE).
Definition cache2size (vma : Z) : Z := Z.land vma VMA_CACHE_SIZE.
Definition create_cache_ptr (vma size : Z) : C Z :=
  sm_assert (size <=? VMA_CACHE_SIZE);; mret (Z.lor vma size).

Definition get_from_thread_vma_cache : C (option Z) :=
  w ← sm_gets tcb_vma_cache;
  let vma := cache2ptr w in
  if vma =? 0 then mret None
  else next ← read_next vma; set_tcb next;; mret (Some vma).

Definition add_to_thread_vma_cache (vma : Z) : C bool :=
  sm_assert (cache2size vma =? 0);;
  ptr ← sm_gets tcb_vma_cache;
  let size := cache2size ptr in
  if VMA_CACHE_SIZE <=? size then mret false
  else
    write_next vma ptr;;
    w ← create_cache_ptr vma (size + 1);
    set_tcb w;; mret true.

(** [while (vma)] looking for the predecessor of [to_remove]. *)
Fixpoint find_before (fuel : nat) (vma to_remove : Z) : C bool :=
  match fuel with
  | O => sm_bug
  | S fuel' =>
      if vma =? 0 then mret false
      else
        w ← read_next vma;
        let next := cache2ptr w in
        if next =? to_remove then mret true else find_before fuel' next to_remove
  end.

Fixpoint unlink_loop (fuel : nat) (vma to_remove : Z) : C unit :=
  match fuel with
  | O => sm_bug
  | S fuel' =>
      if vma =? 0 then mret ()
      else
        w ← read_next vma;
        let next := cache2ptr w in
        if next =? to_remove then
          nn ← read_next next; write_next vma nn
        else
          w' ← create_cache_ptr next (u64 (cache2size w - 1));
          write_next vma w';;
          unlink_loop fuel' next to_remove
  end.

(** A list has at most [VMA_CACHE_SIZE] elements: 4 rounds are enough. *)
Definition remove_from_thread_vma_cache (to_remove : Z) : C unit :=
  sm_assert (negb (to_remove =? 0));;
  w ← sm_gets tcb_vma_cache;
  let first_vma := cache2ptr w in
  if first_vma =? to_remove then next ← read_next first_vma; set_tcb next
  else
    found ← find_before 4 first_vma to_remove;
    if (found : bool) then
      w' ← create_cache_ptr first_vma (u64 (cache2size first_vma - 1));
      set_tcb w';;
      unlink_loop 4 first_vma to_remove
    else mret ().

(** ** The list a word stands for *)

Definition vma_addr (p : Z) : Prop := 0 < p < u64_mod /\ Z.land p VMA_CACHE_SIZE = 0.

Fixpoint linked (m : gmap Z Z) (w : Z) (l : list Z) : Prop :=
  match l with
  | [] => w = 0
  | p :: l' => w = Z.lor p (Z.of_nat (length l)) /\ vma_addr p /\
               exists w', m !! p = Some w' /\ linked m w' l'
  end.

Definition repr (s : cache_state) (l : list Z) : Prop :=
  linked (next_free s) (tcb_vma_cache s) l /\ (length l <= 3)%nat /\ NoDup l.

Lemma low_bits_bit p n : Z.land p 3 = 0 -> 0 <= n < 2 -> Z.testbit p n = false.
Proof.
  intros Hp Hn. assert (H : Z.testbit (Z.land p 3) n = false) by (rewrite Hp; apply Z.bits_0).
  rewrite Z.land_spec in H. assert (n = 0 \/ n = 1) as [-> | ->] by lia; simpl in H; by rewrite andb_true_r in H.
Qed.

Lemma high_bits_bit n k : 0 <= n <= 3 -> 2 <= k -> Z.testbit n k = false.
Proof.
  intros Hn Hk. destruct (decide (n = 0)) as [->|]; [apply Z.bits_0|].
  apply Z.bits_above_log2; [lia|]. apply Z.le_lt_trans with (Z.log2 3); [apply Z.log2_le_mono; lia|].
  change (Z.log2 3) with 1. lia.
Qed.

Lemma tag_ptr p n : Z.land p 3 = 0 -> 0 <= n <= 3 -> cache2ptr (Z.lor p n) = p.
Proof.
  intros Hp Hn. unfold cache2ptr, VMA_CACHE_SIZE. apply Z.bits_inj'. intros k Hk.
  rewrite Z.land_spec, Z.lor_spec, Z.lnot_spec by done.
  destruct (Z.lt_ge_cases k 2).
  - rewrite (low_bits_bit p k) by (done || lia). assert (k = 0 \/ k = 1) as [-> | ->] by lia; simpl; by rewrite andb_false_r.
  - rewrite (high_bits_bit n k), (high_bits_bit 3 k) by lia. by rewrite orb_false_r, andb_true_r.
Qed.

Lemma tag_size p n : Z.land p 3 = 0 -> 0 <= n <= 3 -> cache2size (Z.lor p n) = n.
Proof.
  intros Hp Hn. unfold cache2size, VMA_CACHE_SIZE. rewrite Z.land_lor_distr_l, Hp, Z.lor_0_l.
  change 3 with (Z.ones 2). rewrite Z.land_ones by done. apply Z.mod_small. simpl. lia.
Qed.

Lemma linked_ptr m w l :
  linked m w l -> (length l <= 3)%nat -> cache2ptr w = default 0 (head l) /\ cache2size w = Z.of_nat (length l).
Proof.
  destruct l as [|p l]; [by intros ->|]. intros (-> & [_ Hp] & _) Hl. unfold VMA_CACHE_SIZE in Hp. simpl.
  split; [apply tag_ptr|apply tag_size]; try done; simpl in Hl; lia.
Qed.

Lemma linked_insert m w l p x : linked m w l -> p ∉ l -> linked (<[p := x]> m) w l.
Proof.
  revert w. induction l as [|q l IH]; intros w; [done|]. intros (-> & Hq & w' & Hm & Hl) Hp.
  rewrite not_elem_of_cons in Hp. split_and!; try done. exists w'. rewrite lookup_insert_ne by naive_solver.
  split; [done|]. apply IH; naive_solver.
Qed.

(** ** Refinement *)

Lemma get_refines s l :
  repr s l ->
  wp get_from_thread_vma_cache (fun r s' => r = head l /\ repr s' (tail l)) s.
Proof.
  intros (Hl & Hn & Hd). unfold get_from_thread_vma_cache. wp_steps.
  destruct (linked_ptr _ _ _ Hl Hn) as [-> _]. destruct l as [|p l]; simpl.
  - wp_steps. by split.
  - destruct Hl as (_ & [Hp _] & w' & Hm & Hl). rewrite (proj2 (Z.eqb_neq p 0)) by lia.
    apply wp_bind. unfold wp, read_next. rewrite Hm. split; [done|]. apply NoDup_cons in Hd as [_ Hd].
    simpl in Hn. split_and!; [done|simpl; lia|done].
Qed.

Lemma add_refines s l p :
  repr s l -> vma_addr p -> p ∉ l ->
  wp (add_to_thread_vma_cache p) (fun r s' =>
    if r then (length l < 3)%nat /\ repr s' (p :: l) else length l = 3%nat /\ s' = s) s.
Proof.
  intros (Hl & Hn & Hd) Hp Hin. unfold add_to_thread_vma_cache.
  apply wp_bind, wp_assert; [by apply Z.eqb_eq, Hp|]. wp_steps.
  destruct (linked_ptr _ _ _ Hl Hn) as [_ ->]. unfold VMA_CACHE_SIZE at 1.
  destruct (Z.leb_spec 3 (Z.of_nat (length l))); wp_steps; [split; [lia|done]|].
  unfold create_cache_ptr. repeat apply wp_bind. apply wp_assert; [apply Z.leb_le; unfold VMA_CACHE_SIZE; lia|]. wp_steps.
  split; [lia|]. split; [|split; [simpl; lia|by constructor]]. simpl.
  split; [f_equal; lia|]. split; [done|]. exists (tcb_vma_cache s).
  rewrite lookup_insert_eq. split; [done|]. by apply linked_insert.
Qed.

(** Removing the first element works, and so does removing an absent one. *)
Lemma find_before_absent fuel s p w l :
  linked (next_free s) w l -> (length l <= 3)%nat -> p ∉ l -> p <> 0 -> (length l < fuel)%nat ->
  wp (find_before fuel (cache2ptr w) p) (fun r s' => r = false /\ s' = s) s.
Proof.
  revert w l. induction fuel as [|fuel IH]; intros w l Hl Hn Hp H0 Hf; [lia|]. cbn [find_before].
  destruct (linked_ptr _ _ _ Hl Hn) as [-> _]. destruct l as [|q l]; simpl; [wp_steps; by split|].
  destruct Hl as (_ & [Hq _] & w' & Hm & Hl). rewrite (proj2 (Z.eqb_neq q 0)) by lia.
  apply wp_bind. unfold wp at 1, read_next. rewrite Hm. simpl in Hn, Hf. rewrite not_elem_of_cons in Hp.
  rewrite (proj2 (Z.eqb_neq (cache2ptr w') p)); [apply (IH w' l); naive_solver lia|].
  destruct (linked_ptr _ _ _ Hl ltac:(lia)) as [-> _]. destruct l as [|x l]; simpl; [naive_solver|].
  rewrite not_elem_of_cons in Hp. naive_solver.
Qed.

Lemma remove_refines s l p :
  repr s l -> vma_addr p -> head l = Some p \/ p ∉ l ->
  wp (remove_from_thread_vma_cache p) (fun _ s' => repr s' (if decide (head l = Some p) then tail l else l)) s.
Proof.
  intros (Hl & Hn & Hd) [Hp _] Hcase. unfold remove_from_thread_vma_cache.
  apply wp_bind, wp_assert; [apply negb_true_iff, Z.eqb_neq; lia|]. wp_steps.
  destruct (linked_ptr _ _ _ Hl Hn) as [Hptr _].
  destruct (Z.eqb_spec (cache2ptr (tcb_vma_cache s)) p) as [Heq|Hne].
  - destruct l as [|q l]; simpl in *; [lia|]. assert (q = p) as -> by congruence. rewrite decide_True by done.
    destruct Hl as (_ & _ & w' & Hm & Hl). apply wp_bind. unfold wp at 1, read_next. rewrite Heq, Hm. wp_steps.
    apply NoDup_cons in Hd as [_ Hd]. split_and!; [done|simpl in *; lia|done].
  - destruct Hcase as [Hh|Hin]; [rewrite Hptr, Hh in Hne; done|].
    rewrite decide_False by (destruct l; simpl; [done|]; intros [= ->]; set_solver).
    apply wp_bind. eapply wp_mono; [apply (find_before_absent 4 s p _ l); try done; lia|].
    intros ? ? (-> & ->). by wp_steps.
Qed.

(** Removing any other element fails the assertion in [create_cache_ptr]: the
    size is taken from [first_vma], which no longer carries one. *)
Lemma find_before_present fuel s p w l :
  linked (next_free s) w l -> (length l <= 3)%nat -> p ∈ tail l -> (length l < fuel)%nat ->
  find_before fuel (cache2ptr w) p s = Some (true, s).
Proof.
  revert w l. induction fuel as [|fuel IH]; intros w l Hl Hn Hp Hf; [lia|]. cbn [find_before].
  destruct (linked_ptr _ _ _ Hl Hn) as [-> _]. destruct l as [|q l]; [by apply elem_of_nil in Hp|].
  destruct Hl as (_ & [Hq _] & w' & Hm & Hl). change (default 0 (head (q :: l))) with q. rewrite (proj2 (Z.eqb_neq q 0)) by lia.
  unfold mbind, SM_bind, read_next. rewrite Hm. simpl in Hp, Hn, Hf.
  destruct (Z.eqb_spec (cache2ptr w') p) as [|Hne]; [done|].
  apply (IH w' l Hl); [lia| |lia]. destruct (linked_ptr _ _ _ Hl ltac:(lia)) as [Hw' _].
  destruct l as [|x l]; [by apply elem_of_nil in Hp|]. simpl in *.
  apply elem_of_cons in Hp as [->|Hp]; [congruence|done].
Qed.

Lemma linked_addr m w l p : linked m w l -> p ∈ l -> vma_addr p.
Proof.
  revert w. induction l as [|q l IH]; intros w; [by intros _ ?%elem_of_nil|].
  intros (_ & Hq & w' & _ & Hl) [->|Hp]%elem_of_cons; [done|by eapply IH].
Qed.

(** Removing an element other than the first one from the cache aborts: the
    length is taken from [first_vma], whose tag has been masked out. *)
Theorem remove_other_aborts s l p : repr s l -> p ∈ tail l -> remove_from_thread_vma_cache p s = None.
Proof.
  intros (Hl & Hn & Hd) Hp. destruct l as [|q l]; [by apply elem_of_nil in Hp|]. simpl in Hp.
  destruct (linked_addr _ _ _ p Hl ltac:(in_list)) as [Hp0 _].
  destruct (linked_ptr _ _ _ Hl Hn) as [Hptr _]. simpl in Hptr.
  apply NoDup_cons in Hd as [Hq _]. assert (Hne : q <> p) by (intros ->; done).
  pose proof (find_before_present 4 s p _ _ Hl Hn Hp ltac:(lia)) as Hfind. rewrite Hptr in Hfind.
  destruct Hl as (_ & [_ Hq4] & _). unfold remove_from_thread_vma_cache, sm_assert, sm_gets, mbind, SM_bind.
  rewrite (proj2 (negb_true_iff _) (proj2 (Z.eqb_neq p 0) ltac:(lia))), Hptr, (proj2 (Z.eqb_neq q p) Hne), Hfind.
  unfold create_cache_ptr, mbind, SM_bind, sm_assert, cache2size. by rewrite Hq4.
Qed.

(** On a word that encodes a list of at most three structures, taking,
    adding and removing the first or an absent element do what they do on the
    list, and a full cache refuses. *)
Theorem thread_cache_refines_list s l p :
  repr s l -> vma_addr p ->
  wp get_from_thread_vma_cache (fun r s' => r = head l /\ repr s' (tail l)) s /\
  (p ∉ l -> wp (add_to_thread_vma_cache p) (fun r s' =>
     if r then (length l < 3)%nat /\ repr s' (p :: l) else length l = 3%nat /\ s' = s) s) /\
  (head l = Some p \/ p ∉ l -> wp (remove_from_thread_vma_cache p) (fun _ s' =>
     repr s' (if decide (head l = Some p) then tail l else l)) s).
Proof.
  intros Hr Hp. split_and!; [by apply get_refines|intros; by apply add_refines|intros; by apply remove_refines].
Qed.

(** ** Examples *)

Definition cache_ex : cache_state := CacheState (Z.lor 0x2000 2) {[0x2000 := Z.lor 0x1000 1; 0x1000 := 0]}.

Lemma cache_ex_repr : repr cache_ex [0x2000; 0x1000].
Proof.
  split; [|split; [simpl; lia|apply (bool_decide_unpack _); reflexivity]].
  split; [done|]. split; [done|]. exists (Z.lor 0x1000 1). split; [done|]. split; [done|]. split; [done|]. by exists 0.
Qed.

Lemma thread_cache_witness :
  wp get_from_thread_vma_cache (fun r s' => r = Some 0x2000 /\ repr s' [0x1000]) cache_ex.
Proof. apply (thread_cache_refines_list cache_ex [0x2000; 0x1000] 0x3000 cache_ex_repr). by vm_compute. Defined.

Lemma remove_other_witness : remove_from_thread_vma_cache 0x1000 cache_ex = None.
Proof.
  apply (remove_other_aborts cache_ex [0x2000; 0x1000] 0x1000 cache_ex_repr).
  apply (bool_decide_unpack _). reflexivity.
Defined.
