(* ===== verification/VmaExamples.v ===== *)
(** * The memory-area theorems at a concrete state

    A process with three areas, one of them backed by a file and the highest
    one internal; the theorems of the [Vma] files are applied to it. *)

From S2P Require Import Prelude OrdSeq Memmgr Vma VmaTree VmaInv VmaOps VmaAlloc VmaChange VmaSpec VmaQuery VmaCache.

Definition E0 : vma_env := {|
  memory_address_start := 0x10000; memory_address_end := 0x100000;
  shared_address_start := 0x200000; shared_address_end := 0x300000;
  alloc_align := 4096;
  early_libos_mem_range_start := 0x10000; early_libos_mem_range_end := 0x20000;
  mem_total := 0x100000; g_received_user_memory := true; g_aslr_addr_top := 0x100000;
  hdl_inode := fun h => if h =? 7 then Some 70 else None;
  hdl_flags := fun _ => O_RDWR; hdl_acc_mode := fun _ => MAY_WRITE; hdl_has_msync := fun _ => false;
  fs_msync := fun _ _ _ _ _ _ => 0;
  PalVirtualMemoryAlloc := fun _ _ => 0; PalVirtualMemoryProtect := fun _ _ _ => 0;
  pal_to_unix_errno := fun x => x; calloc_ok := fun _ => true; memory_migrated := fun _ => false; tid := 1
|}.

Lemma E0_ok : env_ok E0.
Proof. constructor; try done. by exists 12. Qed.

Definition v_anon : libos_vma :=
  Vma (1, 0) 0x20000 0x24000 (Z.lor PROT_READ PROT_WRITE) (Z.lor MAP_PRIVATE MAP_ANONYMOUS) None 0 "heap".
Definition v_file : libos_vma := Vma (1, 1) 0x30000 0x38000 PROT_READ MAP_PRIVATE (Some 7) 0x2000 "libc".
Definition v_int : libos_vma := Vma (1, 2) 0xf0000 0xff000 PROT_READ internal_flags None 0 "LibOS".

(** The first [n] objects of an area are handed out. *)
Definition mgr_n (n : nat) : mem_mgr := set_mgr_obj (create_mem_mgr_in_place 1 64) (1, Z.of_nat n).
Definition objs_n (n : nat) : list obj_ptr := (fun i => (1, Z.of_nat i)) <$> seq 0 n.

Lemma mgr_n_ok n : (n <= 64)%nat -> mgr_ok (mgr_n n) (objs_n n).
Proof.
  intros Hn. constructor; simpl.
  - apply NoDup_singleton.
  - by apply Forall_singleton.
  - exists [], (MemArea 1 64), []. simpl. split_and!; try done; lia.
  - apply NoDup_fmap_2_strong; [intros; simplify_eq; lia|apply NoDup_seq].
  - intros o (i & -> & Hi%elem_of_seq)%list_elem_of_fmap. exists [], (MemArea 1 64), []. simpl.
    split_and!; [done..|]. left. simpl. lia.
Qed.

Lemma counter_single k x j : counter {[k := x]} j = if decide (k = j) then x else 0.
Proof. unfold counter. case_decide; subst; [by rewrite lookup_singleton_eq|by rewrite lookup_singleton_ne]. Qed.

Ltac solve_tree_ok :=
  constructor; simpl;
  [ repeat (apply Forall_cons; split); try done; constructor; by vm_compute
  | repeat constructor; unfold below; simpl; lia
  | apply (bool_decide_unpack _); reflexivity ].

Ltac solve_inv n :=
  constructor; simpl; [solve_tree_ok|reflexivity|lia|intros i c Hc; by rewrite lookup_empty in Hc|];
  constructor; simpl;
  [ apply (bool_decide_unpack _); reflexivity
  | eexists _, (objs_n n); split_and!;
    [ done | by apply mgr_n_ok; lia | intros p Hp; left;
      repeat (apply elem_of_cons in Hp as [->|Hp]; [apply (bool_decide_unpack _); reflexivity|]);
      by apply elem_of_nil in Hp | by apply Forall_singleton | done ]
  | intros i; unfold objs; simpl; rewrite counter_single, !count_inode_cons; simpl; repeat case_decide; simplify_eq; done
  | intros h; unfold objs; simpl; rewrite counter_single, !count_handle_cons; simpl; repeat case_decide; simplify_eq; done ].

Definition s0 : vma_state :=
  VmaState [v_anon; v_file; v_int] 0x1b000 0x1b000 ∅ (Some (mgr_n 3)) 2 {[7 := 1]} {[70 := 1]}.

Definition no_ext (h : Z) : Z := 0.

Lemma s0_inv : inv E0 [] no_ext [] s0.
Proof. solve_inv 3%nat. Qed.

(** The same process without the internal area, and with two structures taken
    by the running function. *)
Definition s_last : vma_state :=
  VmaState [v_anon; v_file] 0xc000 0x1b000 ∅ (Some (mgr_n 4)) 2 {[7 := 1]} {[70 := 1]}.
Definition s_last_held : list (obj_ptr * option Z) := [((1, 2), None); ((1, 3), None)].

Lemma s_last_inv : inv E0 [] no_ext s_last_held s_last.
Proof. solve_inv 4%nat. Qed.

(** The same without held structures. *)
Definition s_user : vma_state :=
  VmaState [v_anon; v_file] 0xc000 0x1b000 ∅ (Some (mgr_n 2)) 2 {[7 := 1]} {[70 := 1]}.

Lemma s_user_inv : inv E0 [] no_ext [] s_user.
Proof. solve_inv 2%nat. Qed.

(** ** Witnesses *)

Lemma bkeep_munmap_witness :
  fst <$> bkeep_munmap E0 0x21000 0x2000 false s0 = Some (0, Some (1, 3)) /\
  wp (bkeep_munmap E0 0x21000 0x2000 false) (munmap_post E0 no_ext [] 0x21000 0x2000 false s0) s0.
Proof.
  split; [vm_compute; reflexivity|].
  apply (bkeep_munmap_correct E0 E0_ok no_ext [] 0x21000 0x2000 false s0 s0_inv); by vm_compute.
Defined.

Lemma bkeep_mmap_fixed_witness :
  fst <$> bkeep_mmap_fixed E0 0x32000 0x2000 PROT_READ (Z.lor MAP_PRIVATE MAP_FIXED) (Some 7) 0x5000 "lib" s0 = Some 0 /\
  wp (bkeep_mmap_fixed E0 0x32000 0x2000 PROT_READ (Z.lor MAP_PRIVATE MAP_FIXED) (Some 7) 0x5000 "lib")
     (mmap_fixed_post E0 no_ext [] 0x32000 0x2000 PROT_READ (Z.lor MAP_PRIVATE MAP_FIXED) (Some 7) 0x5000 "lib" s0) s0.
Proof.
  split; [vm_compute; reflexivity|].
  apply (bkeep_mmap_fixed_correct E0 E0_ok no_ext [] 0x32000 0x2000 PROT_READ (Z.lor MAP_PRIVATE MAP_FIXED)
           (Some 7) 0x5000 "lib" s0 s0_inv); by vm_compute.
Defined.

(** The whole area with the highest addresses, which is not the case that aborts. *)
Lemma bkeep_mprotect_witness :
  fst <$> bkeep_mprotect E0 0x30000 0x8000 (Z.lor PROT_READ PROT_WRITE) false s_user = Some 0 /\
  wp_or (bkeep_mprotect E0 0x30000 0x8000 (Z.lor PROT_READ PROT_WRITE) false)
    (mprotect_post E0 no_ext [] 0x30000 0x8000 (Z.lor PROT_READ PROT_WRITE) false s_user)
    (exists t, extended (vma_tree s_user) t /\
       change_aborts E0 t 0x30000 (0x30000 + 0x8000) (Z.lor PROT_READ PROT_WRITE) false = true /\
       (false = false ->
        change_aborts E0 (vma_tree s_user) 0x30000 (0x30000 + 0x8000) (Z.lor PROT_READ PROT_WRITE) false = true)) s_user.
Proof.
  split; [vm_compute; reflexivity|].
  apply (bkeep_mprotect_correct E0 E0_ok no_ext [] 0x30000 0x8000 (Z.lor PROT_READ PROT_WRITE) false s_user s_user_inv);
    by vm_compute.
Defined.

Lemma bkeep_mmap_any_witness :
  fst <$> bkeep_mmap_any_in_range E0 (alloc_vma E0) 0x10000 0x100000 0x3000 PROT_READ
            (Z.lor MAP_PRIVATE MAP_ANONYMOUS) None 0 "" s0 = Some (0, 0xed000) /\
  wp (bkeep_mmap_any_in_range E0 (alloc_vma E0) 0x10000 0x100000 0x3000 PROT_READ
        (Z.lor MAP_PRIVATE MAP_ANONYMOUS) None 0 "")
     (mmap_any_post E0 no_ext [] 0x10000 0x100000 0x3000 PROT_READ (Z.lor MAP_PRIVATE MAP_ANONYMOUS) None 0 "" s0) s0.
Proof.
  split; [vm_compute; reflexivity|].
  apply (bkeep_mmap_any_in_range_correct E0 E0_ok no_ext [] 0x10000 0x100000 0x3000 PROT_READ
           (Z.lor MAP_PRIVATE MAP_ANONYMOUS) None 0 "" s0 s0_inv); [|by vm_compute].
  split; [by vm_compute|]. left. by vm_compute.
Defined.

Lemma mprotect_last_area_witness :
  bkeep_mprotect E0 0x36000 0x2000 PROT_NONE false s_last = None /\
  change_ok E0 (vma_tree s_last) 0x36000 (vend v_file) PROT_NONE false /\
  _vma_bkeep_change E0 0x36000 (vend v_file) PROT_NONE false (1, 2) (1, 3) s_last = None.
Proof.
  split; [vm_compute; reflexivity|].
  apply (mprotect_last_area_aborts E0 no_ext 0x36000 (vend v_file) PROT_NONE false (1, 2) (1, 3) [] s_last s_last_inv);
    by vm_compute.
Defined.

Definition s_tmp : vma_state :=
  VmaState [v_anon; tmp_vma (1, 2) 0x28000 0x2a000; v_file] 0xe000 0x1b000 ∅ (Some (mgr_n 3)) 2 {[7 := 1]} {[70 := 1]}.

Lemma s_tmp_inv : inv E0 [] no_ext [] s_tmp.
Proof. solve_inv 3%nat. Qed.

Lemma tmp_vma_protects_witness :
  fst <$> bkeep_mmap_any_in_range E0 (alloc_vma E0) 0x20000 0x30000 0x6000 PROT_READ MAP_PRIVATE None 0 "" s_tmp =
    Some (0, 0x2a000) /\
  wp (bkeep_munmap E0 0x28000 0x6000 false)
     (fun r s' => fst r < 0 /\ tmp_stays E0 no_ext [] (1, 2) 0x28000 0x2a000 s') s_tmp /\
  wp (bkeep_mmap_fixed E0 0x28000 0x6000 PROT_READ (Z.lor MAP_PRIVATE MAP_FIXED) None 0 "")
     (fun ret s' => ret < 0 /\ tmp_stays E0 no_ext [] (1, 2) 0x28000 0x2a000 s') s_tmp /\
  wp (bkeep_mprotect E0 0x28000 0x6000 PROT_READ false)
     (fun ret s' => ret < 0 /\ tmp_stays E0 no_ext [] (1, 2) 0x28000 0x2a000 s') s_tmp /\
  forall flags', wp (bkeep_mmap_any_in_range E0 (alloc_vma E0) 0x20000 0x30000 0x6000 PROT_READ flags' None 0 "")
     (fun r s' => (fst r = 0 -> snd r + 0x6000 <= 0x28000 \/ 0x2a000 <= snd r) /\
        tmp_stays E0 no_ext [] (1, 2) 0x28000 0x2a000 s') s_tmp.
Proof.
  split; [vm_compute; reflexivity|].
  apply (tmp_vma_protects_range E0 E0_ok no_ext [] (1, 2) 0x28000 0x2a000 0x28000 0x6000 PROT_READ
           (Z.lor MAP_PRIVATE MAP_FIXED) None 0 "" 0x20000 0x30000 s_tmp s_tmp_inv); [|by vm_compute|by vm_compute|by vm_compute|by vm_compute| |by vm_compute|by vm_compute].
  - apply (bool_decide_unpack _). reflexivity.
  - split; [by vm_compute|]. left. by vm_compute.
Defined.

Lemma pal_mem_bkeep_free_witness :
  fst <$> pal_mem_bkeep_free E0 0xf1000 0x1000 s0 = Some 0 /\
  wp (pal_mem_bkeep_free E0 0xf1000 0x1000) (fun ret s' =>
    inv E0 [] no_ext [] s' /\
    if decide (ret = 0) then
      forall a, if decide (0xf1000 <= a < 0xf1000 + 0x1000)
        then attr_at (vma_tree s') a = None /\
             forall x, attr_at (vma_tree s0) a = Some x -> internal_attr x = true
        else same_or_internal (attr_at (vma_tree s0) a) (attr_at (vma_tree s') a)
    else ret < 0 /\ extended (vma_tree s0) (vma_tree s')) s0.
Proof.
  split; [vm_compute; reflexivity|].
  apply (pal_mem_bkeep_free_correct E0 E0_ok no_ext [] 0xf1000 0x1000 s0 s0_inv); by vm_compute.
Defined.

Lemma alloc_vma_witness :
  fst <$> alloc_vma E0 s0 = Some (Some (1, 3)) /\
  wp (alloc_vma E0) (fun r s' =>
    extended (vma_tree s0) (vma_tree s') /\ inv E0 [] no_ext (opt_held r ++ []) s') s0.
Proof. split; [vm_compute; reflexivity|]. apply (alloc_vma_correct E0 E0_ok no_ext [] s0 s0_inv). Defined.

(** All 64 structures of the first area are in use: the manager is enlarged. *)
Definition s_full : vma_state :=
  VmaState [v_anon; v_file; v_int] 0x1b000 0x1b000 ∅ (Some (mgr_n 64)) 2 {[7 := 1]} {[70 := 1]}.

Lemma alloc_vma_enlarges :
  fst <$> alloc_vma E0 s_full = Some (Some (3, 1)) /\
  (fun r => length (vma_tree (snd r))) <$> alloc_vma E0 s_full = Some 4%nat.
Proof. split; vm_compute; reflexivity. Qed.

Lemma is_in_adjacent_witness :
  fst <$> is_in_adjacent_user_vmas 0x20800 0x1000 PROT_WRITE s0 = Some true /\
  wp (is_in_adjacent_user_vmas 0x20800 0x1000 PROT_WRITE) (fun r s' => s' = s0 /\
    (r = true <-> forall a, 0x20800 <= a < 0x20800 + 0x1000 ->
       exists x, attr_at (vma_tree s0) a = Some x /\ accessible PROT_WRITE x = true)) s0.
Proof.
  split; [vm_compute; reflexivity|].
  apply (is_in_adjacent_user_vmas_correct E0 0x20800 0x1000 PROT_WRITE s0 (inv_tree _ _ _ _ _ s0_inv)); by vm_compute.
Defined.

Lemma dump_vmas_witness :
  wp (dump_vmas E0 vma_filter_all 0x20000 0x31000) (fun r s' => same_tree s0 s' /\
    match r with
    | inr infos => infos = [info_of v_anon; info_of v_file] /\ inv E0 [] (ext_plus no_ext infos) [] s'
    | inl err => err = - ENOMEM /\ inv E0 [] no_ext [] s' /\
        (calloc_ok E0 DEFAULT_VMA_COUNT = false \/ calloc_ok E0 2 = false)
    end) s0.
Proof.
  apply (dump_vmas_complete E0 (fun v => negb (has (vflags v) VMA_INTERNAL)) [] no_ext [] 0x20000 0x31000 s0 s0_inv).
Defined.
