(* ===== verification/FsLock.v ===== *)
(** * File locks: [libos/src/fs/libos_fs_lock.c]

    The process leader keeps the POSIX ([fcntl]) and BSD ([flock]) locks of all
    processes, one [dent_file_locks] object per file (dentry).  A lock is either
    set at once, refused, or queued as a request that is granted when the locks
    in its way are gone.

    [g_fs_lock_lock] makes everything between lock and unlock atomic.  A failing
    [malloc] is a value of the oracle [malloc_ok], which is asked with the number
    of allocations made so far.  The notifications sent to waiters are recorded
    in [notified]. *)

From S2P Require Import Prelude.

(** ** Data *)

Definition FS_LOCK_EOF : Z := u64_mod - 1.

Inductive libos_file_lock_family := FILE_LOCK_UNKNOWN | FILE_LOCK_POSIX | FILE_LOCK_FLOCK.
Inductive lock_type := F_RDLCK | F_WRLCK | F_UNLCK.

#[global] Instance family_eq_dec : EqDecision libos_file_lock_family.
Proof. solve_decision. Defined.
#[global] Instance lock_type_eq_dec : EqDecision lock_type.
Proof. solve_decision. Defined.

Record libos_file_lock := FileLock {
  family : libos_file_lock_family;
  type : lock_type;
  start : Z;
  end_ : Z;
  pid : Z;
  handle_id : Z
}.

#[global] Instance libos_file_lock_eq_dec : EqDecision libos_file_lock.
Proof. solve_decision. Defined.

Definition set_start (l : libos_file_lock) (x : Z) : libos_file_lock :=
  FileLock (family l) (type l) x (end_ l) (pid l) (handle_id l).
Definition set_end (l : libos_file_lock) (x : Z) : libos_file_lock :=
  FileLock (family l) (type l) (start l) x (pid l) (handle_id l).

(** [notify]: a local waiter with its event, or an IPC message to answer. *)
Inductive notify :=
| NotifyLocal (event : Z)
| NotifyIpc (vmid seq : Z).

Record file_lock_request := Request {
  req_id : Z;                      (* address of the object *)
  req_lock : libos_file_lock;
  req_notify : option notify       (* [None] while uninitialised *)
}.

Record dent_file_locks := DentFileLocks {
  posix_used : bool;
  flock_used : bool;
  file_locks : list libos_file_lock;
  file_lock_requests : list file_lock_request
}.

Record fs_lock_state := FsLockState {
  dents : gmap Z dent_file_locks;      (* [dent->file_locks] *)
  g_dent_file_locks_list : list Z;
  dent_refs : gmap Z Z;                (* references taken by [get_dentry] *)
  malloc_count : nat;
  next_req : Z;
  notified : list (notify * Z)
}.

Definition set_dents (s : fs_lock_state) (d : gmap Z dent_file_locks) : fs_lock_state :=
  FsLockState d (g_dent_file_locks_list s) (dent_refs s) (malloc_count s) (next_req s) (notified s).

(** ** Conflicts *)

(** The conditions of [file_lock_find_conflict]. *)
Definition posix_conflict (fl cur : libos_file_lock) : bool :=
  negb (pid cur =? pid fl) && (start fl <=? end_ cur) && (start cur <=? end_ fl)
  && (bool_decide (type cur = F_WRLCK) || bool_decide (type fl = F_WRLCK)).

Definition flock_conflict (fl cur : libos_file_lock) : bool :=
  negb (handle_id cur =? handle_id fl)
  && (bool_decide (type cur = F_WRLCK) || bool_decide (type fl = F_WRLCK)).

Definition conflicts (fl cur : libos_file_lock) : bool :=
  match family fl with
  | FILE_LOCK_POSIX => posix_conflict fl cur
  | _ => flock_conflict fl cur
  end.

(** The first lock in the way. *)
Definition find_conflict (l : list libos_file_lock) (fl : libos_file_lock) : option libos_file_lock :=
  head (filter (fun cur => conflicts fl cur) l).

(** ** Setting a POSIX lock *)

(** The loop of [_posix_lock_set].  [pre] are the locks up to and including
    [prev], [mid] the ones behind it that were passed without becoming [prev]
    (BSD locks).  The result is the final target range, [pre], and everything
    behind; the new lock goes between the two.  [None] is a failed assertion. *)
Fixpoint posix_loop (fl : libos_file_lock) (cs : list libos_file_lock) (s e : Z)
    (pre mid : list libos_file_lock) : option (Z * Z * list libos_file_lock * list libos_file_lock) :=
  match cs with
  | [] => Some (s, e, pre, mid)
  | cur :: rest =>
      if negb (bool_decide (family cur = FILE_LOCK_POSIX)) then posix_loop fl rest s e pre (mid ++ [cur])
      else if pid cur <? pid fl then posix_loop fl rest s e (pre ++ mid ++ [cur]) []
      else if pid fl <? pid cur then Some (s, e, pre, mid ++ cur :: rest)
      else if bool_decide (type cur = type fl) then
        if (0 <? s) && (end_ cur <? s - 1) then posix_loop fl rest s e (pre ++ mid ++ [cur]) []
        else if (e <? FS_LOCK_EOF) && (e + 1 <? start cur) then Some (s, e, pre, mid ++ cur :: rest)
        else posix_loop fl rest (Z.min s (start cur)) (Z.max e (end_ cur)) pre mid
      else
        if end_ cur <? s then posix_loop fl rest s e (pre ++ mid ++ [cur]) []
        else if e <? start cur then Some (s, e, pre, mid ++ cur :: rest)
        else if (start cur <? s) && (end_ cur <=? e) then
          if 0 <? s then posix_loop fl rest s e (pre ++ mid ++ [set_end cur (s - 1)]) [] else None
        else if (start cur <? s) && (e <? end_ cur) then
          if 0 <? s then
            let extra := FileLock FILE_LOCK_POSIX (type cur) (e + 1) (end_ cur) (pid cur) 0 in
            Some (s, e, pre ++ mid ++ [set_end cur (s - 1)], extra :: rest)
          else None
        else if (s <=? start cur) && (end_ cur <=? e) then posix_loop fl rest s e pre mid
        else
          if (s <=? start cur) && (e <? end_ cur) && (e <? FS_LOCK_EOF)
          then Some (s, e, pre, mid ++ set_start cur (e + 1) :: rest)
          else None
  end.

(** The assertions on the order of the list. *)
Definition order_ok (fl : libos_file_lock) (s e : Z) (pre post : list libos_file_lock) : bool :=
  match last pre with
  | Some prev => (pid prev <? pid fl) || ((pid prev =? pid fl) && (end_ prev <? s))
  | None => true
  end &&
  match post with
  | next :: _ => (pid fl <? pid next) || ((pid fl =? pid next) && (e <? start next))
  | [] => true
  end.

Definition posix_set_list (l : list libos_file_lock) (fl : libos_file_lock) : option (list libos_file_lock) :=
  match posix_loop fl l (start fl) (end_ fl) [] [] with
  | None => None
  | Some (s, e, pre, post) =>
      if bool_decide (type fl = F_UNLCK) then Some (pre ++ post)
      else if order_ok fl s e pre post
           then Some (pre ++ FileLock FILE_LOCK_POSIX (type fl) s e (pid fl) 0 :: post)
           else None
  end.

(** ** Setting a BSD lock *)

Fixpoint flock_remove (h : Z) (l : list libos_file_lock) : list libos_file_lock :=
  match l with
  | [] => []
  | cur :: rest =>
      if bool_decide (family cur = FILE_LOCK_FLOCK) && (handle_id cur =? h) then rest
      else cur :: flock_remove h rest
  end.

Definition flock_set_list (l : list libos_file_lock) (fl : libos_file_lock) : list libos_file_lock :=
  let l' := flock_remove (handle_id fl) l in
  if bool_decide (type fl = F_UNLCK) then l'
  else FileLock FILE_LOCK_FLOCK (type fl) 0 0 0 (handle_id fl) :: l'.

(** ** Operations *)

Section ops.
Variable malloc_ok : nat -> bool.

Abbreviation M := (SM fs_lock_state).

Definition malloc : M bool :=
  s ← sm_get;
  sm_put (FsLockState (dents s) (g_dent_file_locks_list s) (dent_refs s) (S (malloc_count s)) (next_req s)
            (notified s));;
  mret (malloc_ok (malloc_count s)).

(** Access to the object of a dentry. *)
Definition get_dfl (dent : Z) : M dent_file_locks := fun s =>
  match dents s !! dent with Some d => Some (d, s) | None => None end.
Definition put_dfl (dent : Z) (d : dent_file_locks) : M unit :=
  sm_modify (fun s => set_dents s (<[dent := d]> (dents s))).

Definition counter (m : gmap Z Z) (k : Z) : Z := default 0 (m !! k).

(** Result: return value and whether there is an object. *)
Definition find_dent_file_locks (dent : Z) (create : bool) : M (Z * bool) :=
  s ← sm_get;
  match dents s !! dent with
  | Some _ => mret (0, true)
  | None =>
      if create then
        ok ← malloc;
        if (ok : bool) then
          sm_modify (fun s =>
            FsLockState (<[dent := DentFileLocks false false [] []]> (dents s))
              (dent :: g_dent_file_locks_list s)
              (<[dent := counter (dent_refs s) dent + 1]> (dent_refs s))
              (malloc_count s) (next_req s) (notified s));;
          mret (0, true)
        else mret (- ENOMEM, false)
      else mret (0, false)
  end.

Definition dent_file_locks_gc (dent : Z) : M unit :=
  d ← get_dfl dent;
  match file_locks d, file_lock_requests d with
  | [], [] =>
      sm_modify (fun s =>
        FsLockState (delete dent (dents s)) (filter (fun x => x <> dent) (g_dent_file_locks_list s))
          (<[dent := counter (dent_refs s) dent - 1]> (dent_refs s))
          (malloc_count s) (next_req s) (notified s))
  | _, _ => mret ()
  end.

Definition file_lock_find_conflict (dent : Z) (fl : libos_file_lock) : M (option libos_file_lock) :=
  sm_assert (negb (bool_decide (type fl = F_UNLCK)));;
  sm_assert (negb (bool_decide (family fl = FILE_LOCK_UNKNOWN)));;
  d ← get_dfl dent;
  mret (find_conflict (file_locks d) fl).

Definition set_file_locks (d : dent_file_locks) (l : list libos_file_lock) : dent_file_locks :=
  DentFileLocks (posix_used d) (flock_used d) l (file_lock_requests d).
Definition set_requests (d : dent_file_locks) (r : list file_lock_request) : dent_file_locks :=
  DentFileLocks (posix_used d) (flock_used d) (file_locks d) r.

(** Result: return value and the new request. *)
Definition file_lock_add_request (dent : Z) (fl : libos_file_lock) : M (Z * option Z) :=
  sm_assert (negb (bool_decide (type fl = F_UNLCK)));;
  ok ← malloc;
  if (ok : bool) then
    id ← sm_gets next_req;
    sm_modify (fun s => FsLockState (dents s) (g_dent_file_locks_list s) (dent_refs s) (malloc_count s)
                          (id + 1) (notified s));;
    d ← get_dfl dent;
    put_dfl dent (set_requests d (Request id fl None :: file_lock_requests d));;
    mret (0, Some id)
  else mret (- ENOMEM, None).

Definition _posix_lock_set (dent : Z) (fl : libos_file_lock) : M Z :=
  sm_assert (bool_decide (family fl = FILE_LOCK_POSIX));;
  ok_new ← (if bool_decide (type fl = F_UNLCK) then mret true else malloc);
  if (ok_new : bool) then
    ok_extra ← malloc;
    if (ok_extra : bool) then
      d ← get_dfl dent;
      match posix_set_list (file_locks d) fl with
      | None => sm_bug
      | Some l => put_dfl dent (set_file_locks d l);; mret 0
      end
    else mret (- ENOMEM)
  else mret (- ENOMEM).

Definition _flock_lock_set (dent : Z) (fl : libos_file_lock) : M Z :=
  sm_assert (bool_decide (family fl = FILE_LOCK_FLOCK));;
  ok_new ← (if bool_decide (type fl = F_UNLCK) then mret true else malloc);
  if (ok_new : bool) then
    d ← get_dfl dent;
    put_dfl dent (set_file_locks d (flock_set_list (file_locks d) fl));; mret 0
  else mret (- ENOMEM).

Definition lock_set (dent : Z) (fl : libos_file_lock) : M Z :=
  if bool_decide (family fl = FILE_LOCK_POSIX) then _posix_lock_set dent fl else _flock_lock_set dent fl.

(** One walk over the requests; [reqs] are the ones not visited yet. *)
Fixpoint process_pass (dent : Z) (reqs : list file_lock_request) (changed : bool) : M bool :=
  match reqs with
  | [] => mret changed
  | req :: reqs' =>
      conflict ← file_lock_find_conflict dent (req_lock req);
      match conflict with
      | Some _ => process_pass dent reqs' changed
      | None =>
          result ← lock_set dent (req_lock req);
          d ← get_dfl dent;
          put_dfl dent (set_requests d (filter (fun r => req_id r <> req_id req) (file_lock_requests d)));;
          match req_notify req with
          | None => sm_bug   (* uninitialised [notify] *)
          | Some n => sm_modify (fun s => FsLockState (dents s) (g_dent_file_locks_list s) (dent_refs s)
                                   (malloc_count s) (next_req s) (notified s ++ [(n, result)]))
          end;;
          process_pass dent reqs' true
      end
  end.

(** Every repetition has removed a request. *)
Fixpoint process_loop (fuel : nat) (dent : Z) : M unit :=
  match fuel with
  | O => sm_bug
  | S fuel' =>
      d ← get_dfl dent;
      changed ← process_pass dent (file_lock_requests d) false;
      if (changed : bool) then process_loop fuel' dent else mret ()
  end.

Definition file_lock_process_requests (dent : Z) : M unit :=
  d ← get_dfl dent;
  process_loop (S (length (file_lock_requests d))) dent.

Definition mark_used (fl : libos_file_lock) (d : dent_file_locks) : dent_file_locks :=
  DentFileLocks (posix_used d || bool_decide (family fl = FILE_LOCK_POSIX))
    (flock_used d || bool_decide (family fl = FILE_LOCK_FLOCK)) (file_locks d) (file_lock_requests d).

Definition mixes (fl : libos_file_lock) (d : dent_file_locks) : bool :=
  (bool_decide (family fl = FILE_LOCK_FLOCK) && posix_used d)
  || (bool_decide (family fl = FILE_LOCK_POSIX) && flock_used d).

(** The part of [file_lock_set_or_add_request] between the lookup of the object
    and [out:]. *)
Definition set_or_add_body (dent : Z) (fl : libos_file_lock) (wait : bool) : M (Z * option Z) :=
  let unlock := bool_decide (type fl = F_UNLCK) in
  d ← get_dfl dent;
  if negb unlock && mixes fl d then mret (- EPERM, None)
  else
    conflict ← (if unlock then mret None else file_lock_find_conflict dent fl);
    r ← (match conflict with
         | Some _ => if wait then file_lock_add_request dent fl else mret (- EAGAIN, None)
         | None =>
             ret ← lock_set dent fl;
             if ret <? 0 then mret (ret, None)
             else file_lock_process_requests dent;; mret (0, None)
         end);
    if fst r <? 0 then mret r
    else
      (if unlock then mret () else d ← get_dfl dent; put_dfl dent (mark_used fl d));;
      mret (0, snd r).

(** Result: return value and [*out_req]. *)
Definition file_lock_set_or_add_request (dent : Z) (fl : libos_file_lock) (wait : bool)
    : M (Z * option Z) :=
  let unlock := bool_decide (type fl = F_UNLCK) in
  '(ret, exists_) ← find_dent_file_locks dent (negb unlock);
  if ret <? 0 then mret (ret, None)
  else if negb exists_ then sm_assert unlock;; mret (0, None)
  else
    r ← set_or_add_body dent fl wait;
    dent_file_locks_gc dent;;
    mret r.

(** The assignments to [req->notify]. *)
Definition set_notify (dent id : Z) (n : notify) : M unit :=
  d ← get_dfl dent;
  put_dfl dent (set_requests d
    ((fun r => if req_id r =? id then Request id (req_lock r) (Some n) else r) <$> file_lock_requests d)).

Definition valid_owner (fl : libos_file_lock) : bool :=
  match family fl with
  | FILE_LOCK_POSIX => negb (pid fl =? 0)
  | FILE_LOCK_FLOCK => negb (handle_id fl =? 0)
  | FILE_LOCK_UNKNOWN => false
  end.

(** [file_lock_set] in the leader, up to the point where it waits: [Some event]
    means that it waits for that event, whose creation gave [event]. *)
Definition file_lock_set_leader (dent : Z) (fl : libos_file_lock) (wait : bool) (event : Z + Z)
    : M (Z * option Z) :=
  sm_assert (valid_owner fl);;
  '(ret, req) ← file_lock_set_or_add_request dent fl wait;
  if ret <? 0 then mret (ret, None)
  else
    match req with
    | None => mret (0, None)
    | Some id =>
        sm_assert wait;;
        match event with
        | inl err => mret (err, None)
        | inr ev => set_notify dent id (NotifyLocal ev);; mret (0, Some ev)
        end
    end.

(** [file_lock_set] in the other processes: [maybe] is the dentry's
    [maybe_has_file_locks], [path_ret] and [ipc_ret] are what [dentry_abs_path]
    and [ipc_file_lock_set] return.  Result: return value, new flag, and whether
    the leader is asked. *)
Definition file_lock_set_remote (fl : libos_file_lock) (maybe : bool) (path_ret ipc_ret : Z)
    : Z * bool * bool :=
  if bool_decide (type fl = F_UNLCK) && negb maybe then (0, maybe, false)
  else
    let maybe' := maybe || negb (bool_decide (type fl = F_UNLCK)) in
    if path_ret <? 0 then (path_ret, maybe', false) else (ipc_ret, maybe', true).

Definition send_response (vmid seq ret : Z) : M unit :=
  sm_modify (fun s => FsLockState (dents s) (g_dent_file_locks_list s) (dent_refs s) (malloc_count s)
                        (next_req s) (notified s ++ [(NotifyIpc vmid seq, ret)])).

(** [file_lock_set_from_ipc] is two steps, since [g_fs_lock_lock] is released
    before [notify] is set.  [lookup] is the result of [path_lookupat].  The first
    step returns the request, or sends the response if there is none. *)
Definition file_lock_set_from_ipc_1 (lookup : Z + Z) (fl : libos_file_lock) (wait : bool) (vmid seq : Z)
    : M (option (Z * Z)) :=
  sm_assert (valid_owner fl);;
  match lookup with
  | inl err => send_response vmid seq err;; mret None
  | inr dent =>
      '(ret, req) ← file_lock_set_or_add_request dent fl wait;
      match req with
      | Some id => sm_assert wait;; mret (Some (dent, id))
      | None => send_response vmid seq ret;; mret None
      end
  end.

Definition file_lock_set_from_ipc (lookup : Z + Z) (fl : libos_file_lock) (wait : bool) (vmid seq : Z)
    : M unit :=
  req ← file_lock_set_from_ipc_1 lookup fl wait vmid seq;
  match req with
  | Some (dent, id) => set_notify dent id (NotifyIpc vmid seq)
  | None => mret ()
  end.

(** [file_lock_get] in the leader; [out] is [*out_file_lock] before the call, the
    result is its new value. *)
Definition file_lock_get (dent : Z) (fl out : libos_file_lock) : M libos_file_lock :=
  sm_assert (valid_owner fl);;
  sm_assert (negb (bool_decide (type fl = F_UNLCK)));;
  '(_, exists_) ← find_dent_file_locks dent false;
  conflict ← (if (exists_ : bool) then file_lock_find_conflict dent fl else mret None);
  (if (exists_ : bool) then dent_file_locks_gc dent else mret ());;
  mret (match conflict with
        | Some c => c
        | None => FileLock (family out) F_UNLCK (start out) (end_ out) (pid out) (handle_id out)
        end).

Definition file_lock_get_from_ipc (lookup : Z + Z) (fl out : libos_file_lock)
    : M (Z * libos_file_lock) :=
  sm_assert (valid_owner fl);;
  match lookup with
  | inl err => mret (err, out)
  | inr dent => out' ← file_lock_get dent fl out; mret (0, out')
  end.

Definition is_posix_of (p : Z) (l : libos_file_lock) : bool :=
  bool_decide (family l = FILE_LOCK_POSIX) && (pid l =? p).

Definition file_lock_clear_pid_from_dentry (dent p : Z) : M unit :=
  '(_, exists_) ← find_dent_file_locks dent false;
  if (exists_ : bool) then
    d ← get_dfl dent;
    let changed := existsb (is_posix_of p) (file_locks d) in
    sm_assert (forallb (fun r => negb (is_posix_of p (req_lock r)) ||
                         match req_notify r with Some (NotifyIpc _ _) => true | _ => false end)
                 (file_lock_requests d));;
    put_dfl dent (set_requests (set_file_locks d (filter (fun l => negb (is_posix_of p l)) (file_locks d)))
                    (filter (fun r => negb (is_posix_of p (req_lock r))) (file_lock_requests d)));;
    (if changed then file_lock_process_requests dent;; dent_file_locks_gc dent else mret ())
  else mret ().

Fixpoint clear_pid_loop (l : list Z) (p : Z) : M unit :=
  match l with
  | [] => mret ()
  | dent :: l' => file_lock_clear_pid_from_dentry dent p;; clear_pid_loop l' p
  end.

Definition file_lock_clear_pid (p : Z) : M unit :=
  l ← sm_gets g_dent_file_locks_list;
  clear_pid_loop l p.

(** [init_fs_lock]: [create_lock] returns [true] on success. *)
Definition init_fs_lock (leader_vmid : Z) (created : bool) : Z :=
  if negb (leader_vmid =? 0) then 0 else if created then 1 else 0.

End ops.
