(* ===== verification/FsLockList.v ===== *)
(** * What setting a lock does to the list of locks

    A list of POSIX locks is seen as a map from process and byte to the type of
    the lock held there; [posix_set_list] changes exactly the bytes of the target
    range, and keeps the list in a canonical form: sorted, without overlaps, and
    with adjacent locks of the same type merged. *)

From S2P Require Import Prelude FsLock.

(** ** The view of a list of POSIX locks *)

Definition covers (p b : Z) (l : libos_file_lock) : bool :=
  (pid l =? p) && (start l <=? b) && (b <=? end_ l).

(** The type of the lock that process [p] holds on byte [b]. *)
Definition lock_at (l : list libos_file_lock) (p b : Z) : option lock_type :=
  type <$> head (filter (covers p b) l).

Definition holds (l : list libos_file_lock) (p b : Z) (t : lock_type) : Prop :=
  Exists (fun k => pid k = p /\ start k <= b <= end_ k /\ type k = t) l.

Record lock_ok (l : libos_file_lock) : Prop := {
  lo_family : family l = FILE_LOCK_POSIX;
  lo_type : type l <> F_UNLCK;
  lo_range : 0 <= start l <= end_ l;
  lo_end : end_ l <= FS_LOCK_EOF
}.

(** [a] may stand anywhere before [b]: locks of one process do not overlap, and
    would be one lock if they touched and had the same type. *)
Definition before (a b : libos_file_lock) : Prop :=
  pid a < pid b \/
  pid a = pid b /\ end_ a < start b /\ (type a = type b -> end_ a + 1 < start b).

Definition posix_list (l : list libos_file_lock) : Prop :=
  StronglySorted before l /\ Forall lock_ok l.

Lemma holds_app l1 l2 p b t : holds (l1 ++ l2) p b t <-> holds l1 p b t \/ holds l2 p b t.
Proof. apply Exists_app. Qed.

Lemma holds_cons k l p b t :
  holds (k :: l) p b t <-> (pid k = p /\ start k <= b <= end_ k /\ type k = t) \/ holds l p b t.
Proof. apply Exists_cons. Qed.

Lemma holds_nil p b t : holds [] p b t <-> False.
Proof. apply Exists_nil. Qed.

Lemma holds_elem l p b t :
  holds l p b t <-> exists k, k ∈ l /\ pid k = p /\ start k <= b <= end_ k /\ type k = t.
Proof. unfold holds. by rewrite Exists_exists. Qed.

Lemma posix_list_app l1 l2 :
  posix_list (l1 ++ l2) <->
  posix_list l1 /\ posix_list l2 /\ (forall a b, a ∈ l1 -> b ∈ l2 -> before a b).
Proof. unfold posix_list. rewrite StronglySorted_app_iff, Forall_app. naive_solver. Qed.

Lemma posix_list_cons a l :
  posix_list (a :: l) <-> lock_ok a /\ posix_list l /\ (forall b, b ∈ l -> before a b).
Proof.
  unfold posix_list. rewrite Forall_cons. split.
  - intros [Hs [? ?]]. inversion Hs as [|? ? ? Hf]; subst. rewrite Forall_forall in Hf. auto.
  - intros (? & [? ?] & ?). split; [|done]. constructor; [done|]. by apply Forall_forall.
Qed.

Lemma posix_list_nil : posix_list [].
Proof. split; constructor. Qed.

Lemma holds_unique l p b t t' : posix_list l -> holds l p b t -> holds l p b t' -> t = t'.
Proof.
  induction l as [|a l IH]; intros Hl; [by rewrite holds_nil|].
  apply posix_list_cons in Hl as (Ha & Hl & Hb). rewrite !holds_cons.
  assert (Hno : forall t, pid a = p -> start a <= b <= end_ a -> holds l p b t -> False).
  { intros t0 Hp Hr (k & Hk & ? & ? & ?)%holds_elem. specialize (Hb k Hk). unfold before in Hb. lia. }
  intros [(?&?&?)|?] [(?&?&?)|?]; naive_solver.
Qed.

Lemma lock_at_holds l p b t : posix_list l -> lock_at l p b = Some t <-> holds l p b t.
Proof.
  intros Hl. unfold lock_at. rewrite fmap_Some. split.
  - intros (k & Hk & ->). apply head_Some_elem_of, list_elem_of_filter in Hk as [Hc Hk].
    apply Is_true_true in Hc. unfold covers in Hc. breflect. apply holds_elem. eauto 6 with lia.
  - intros Hh. pose proof Hh as (k & Hk & Hp & Hr & Ht)%holds_elem.
    assert (Hin : k ∈ filter (fun x => covers p b x) l).
    { apply list_elem_of_filter. split; [|done]. apply Is_true_true. unfold covers.
      rewrite !andb_true_iff, Z.eqb_eq, !Z.leb_le. lia. }
    destruct (filter _ l) as [|k' ks] eqn:E; [by apply elem_of_nil in Hin|].
    exists k'. split; [done|]. assert (Hin' : k' ∈ filter (fun x => covers p b x) l) by (rewrite E; left).
    apply list_elem_of_filter in Hin' as [Hc Hk']. apply Is_true_true in Hc. unfold covers in Hc. breflect.
    eapply (holds_unique l p b); [done..|]. apply holds_elem. exists k'. split_and!; [done..| lia|lia|done].
Qed.

(** Claims about the order of two locks. *)
Ltac order := split_and!; intros; first [lia | congruence | naive_solver lia].

(** ** The loop *)

Section loop.
Context (fl : libos_file_lock).

(** Locks that end in front of the target range, and ones that begin behind. *)
Definition before_tgt (s : Z) (k : libos_file_lock) : Prop :=
  pid k < pid fl \/ pid k = pid fl /\ end_ k < s /\ (type k = type fl -> end_ k + 1 < s).
Definition after_tgt (e : Z) (k : libos_file_lock) : Prop :=
  pid fl < pid k \/ pid fl = pid k /\ e < start k /\ (type k = type fl -> e + 1 < start k).

(** What the loop makes of the list [orig] and the range from [s] to [e]. *)
Record loop_post (orig : list libos_file_lock) (s e s' e' : Z) (pre post : list libos_file_lock)
    : Prop := {
  lp_s : 0 <= s' <= s;
  lp_e : e <= e' <= FS_LOCK_EOF;
  lp_list : posix_list (pre ++ post);
  lp_pre : Forall (before_tgt s') pre;
  lp_post : Forall (after_tgt e') post;
  lp_merged : forall b, s' <= b <= e' -> s <= b <= e \/ holds orig (pid fl) b (type fl);
  lp_holds : forall p b t, holds (pre ++ post) p b t <->
    holds orig p b t /\ ~ (p = pid fl /\ s' <= b <= e')
}.

(** The loop changed the list to [orig1] and the range to [s1], [e1] and goes on. *)
Lemma loop_post_step orig orig1 s e s1 e1 s' e' pre post :
  loop_post orig1 s1 e1 s' e' pre post -> s1 <= s -> e <= e1 ->
  (forall p b t, holds orig1 p b t -> holds orig p b t) ->
  (forall p b t, holds orig p b t -> holds orig1 p b t \/ p = pid fl /\ s1 <= b <= e1) ->
  (forall b, s1 <= b <= e1 -> s <= b <= e \/ holds orig (pid fl) b (type fl)) ->
  loop_post orig s e s' e' pre post.
Proof.
  intros [Hs He Hl Hpre Hpost Hm Hh] Hs1 He1 H1 H2 H3. split; [lia|lia|done..| |].
  - intros b Hb. destruct (Hm b Hb); eauto.
  - intros p b t. rewrite Hh. split; intros [Ho Hn]; (split; [|done]); [by apply H1|].
    destruct (H2 _ _ _ Ho) as [|[-> ?]]; [done|]. exfalso. apply Hn. split; [done|lia].
Qed.

(** The loop stops. *)
Lemma loop_post_done s e pre post :
  0 <= s -> e <= FS_LOCK_EOF -> posix_list (pre ++ post) ->
  Forall (before_tgt s) pre -> Forall (after_tgt e) post ->
  loop_post (pre ++ post) s e s e pre post.
Proof.
  intros ? ? ? Hpre Hpost. split; [lia|lia|done..|auto|].
  intros p b t. split; [|tauto]. intros Hh. split; [done|]. intros [-> Hb].
  rewrite holds_app, !holds_elem in Hh. rewrite Forall_forall in Hpre, Hpost.
  destruct Hh as [(k & Hk & ?)|(k & Hk & ?)]; [specialize (Hpre k Hk)|specialize (Hpost k Hk)];
    unfold before_tgt, after_tgt in *; lia.
Qed.

Lemma before_tgt_mono s k a l :
  posix_list (l ++ a :: k) -> Forall (before_tgt s) l -> pid a = pid fl -> type a = type fl ->
  Forall (before_tgt (Z.min s (start a))) l.
Proof.
  intros (_ & _ & Hb)%posix_list_app Hl Hp Ht. rewrite Forall_forall in Hl |- *. intros x Hx.
  specialize (Hl x Hx). specialize (Hb x a Hx ltac:(left)). unfold before_tgt, before in *.
  destruct Hl as [?|(?&?&?)]; [by left|]. destruct Hb as [?|(?&?&?)]; [lia|]. right. rewrite Ht in *.
  order.
Qed.

Lemma after_tgt_rest e a l pre :
  posix_list (pre ++ a :: l) -> after_tgt e a -> Forall (after_tgt e) l.
Proof.
  intros (_ & (Ha & _ & Hb)%posix_list_cons & _)%posix_list_app H. apply Forall_forall. intros x Hx.
  specialize (Hb x Hx). destruct Ha. unfold after_tgt, before in *.
  destruct H as [?|(?&?&_)], Hb as [?|(?&?&_)]; [left; lia..|]. right. order.
Qed.

(** *** Changes of the list *)

Lemma posix_list_remove pre a rest : posix_list (pre ++ a :: rest) -> posix_list (pre ++ rest).
Proof.
  rewrite !posix_list_app, posix_list_cons. intros (? & (? & ? & ?) & Hb). split; [done|]. split; [done|].
  intros x y Hx Hy. apply Hb; [done|]. by right.
Qed.

Lemma posix_list_shrink pre a a' rest :
  posix_list (pre ++ a :: rest) -> family a' = family a -> type a' = type a -> pid a' = pid a ->
  start a <= start a' <= end_ a' -> end_ a' <= end_ a -> posix_list (pre ++ a' :: rest).
Proof.
  rewrite !posix_list_app, !posix_list_cons. intros (? & (Ha & ? & Hr) & Hb) Hf Ht Hp Hs He.
  split; [done|]. split.
  - split; [destruct Ha; split; congruence || lia|]. split; [done|]. intros x Hx. specialize (Hr x Hx).
    unfold before in *. rewrite Ht, Hp. destruct Hr as [?|(?&?&?)]; [by left|]. right. order.
  - intros x y Hx [->|Hy]%elem_of_cons; [|apply Hb; [done|by right]]. specialize (Hb x a Hx ltac:(left)).
    unfold before in *. rewrite Ht, Hp. destruct Hb as [?|(?&?&?)]; [by left|]. right. order.
Qed.

Lemma posix_list_split pre a a1 a2 rest :
  posix_list (pre ++ a :: rest) ->
  family a1 = family a -> type a1 = type a -> pid a1 = pid a ->
  family a2 = family a -> type a2 = type a -> pid a2 = pid a ->
  start a1 = start a -> start a <= end_ a1 -> end_ a1 + 1 < start a2 -> start a2 <= end_ a ->
  end_ a2 = end_ a -> posix_list ((pre ++ [a1]) ++ a2 :: rest).
Proof.
  intros Hl ? Ht1 ? ? Ht2 ? ? ? ? ? ?. rewrite <- app_assoc. simpl.
  pose proof (posix_list_shrink pre a a1 rest Hl) as Hs1.
  pose proof (posix_list_shrink pre a a2 rest Hl) as Hs2.
  specialize (Hs1 ltac:(done) ltac:(done) ltac:(done) ltac:(lia) ltac:(lia)).
  specialize (Hs2 ltac:(done) ltac:(done) ltac:(done) ltac:(lia) ltac:(lia)).
  rewrite !posix_list_app, !posix_list_cons in *. destruct Hs1 as (? & (? & ? & Hr1) & Hb1).
  destruct Hs2 as (_ & (? & _ & Hr2) & Hb2). split; [done|]. split.
  - split; [done|]. split; [done|]. intros x [->|Hx]%elem_of_cons; [|auto]. right. order.
  - intros x y Hx Hy. rewrite !elem_of_cons in Hy. destruct Hy as [->|[->|Hy]].
    + apply Hb1; [done|left].
    + apply Hb2; [done|left].
    + apply Hb1; [done|by right].
Qed.

(** Chooses the disjunct that holds. *)
Ltac pick := first [assumption | split_and!; (lia || congruence) | left; pick | right; pick].

(** How a change of one lock changes the bytes held; [s] and [e] bound the target. *)
Ltac solve_holds s e :=
  let p := fresh "p" in let b := fresh "b" in let t := fresh "t" in let Hh := fresh "Hh" in
  intros p b t; repeat rewrite ?holds_app, ?holds_cons, ?holds_nil; cbn; intros Hh;
  repeat match type of Hh with
  | _ \/ _ => destruct Hh as [Hh|Hh]
  end; try (by pick);
  destruct Hh as (? & ? & ?), (Z_lt_le_dec b s), (Z_lt_le_dec e b); pick.

Lemma before_tgt_app s l a : Forall (before_tgt s) l -> before_tgt s a -> Forall (before_tgt s) (l ++ [a]).
Proof. intros. apply Forall_app. split; [done|]. by apply Forall_singleton. Qed.

(** The lock range that a caller may ask for. *)
Definition range_ok : Prop := 0 <= start fl <= end_ fl /\ end_ fl <= FS_LOCK_EOF.

Lemma posix_loop_spec cs : forall s e pre,
  0 <= s <= e -> e <= FS_LOCK_EOF -> posix_list (pre ++ cs) -> Forall (before_tgt s) pre ->
  exists s' e' pre' post, posix_loop fl cs s e pre [] = Some (s', e', pre', post) /\
    loop_post (pre ++ cs) s e s' e' pre' post.
Proof.
  induction cs as [|cur rest IH]; intros s e pre Hse HE Hl Hpre; cbn [posix_loop].
  { do 4 eexists. split; [done|]. apply loop_post_done; (done || lia || constructor). }
  pose proof Hl as (_ & (Hcur & _ & _)%posix_list_cons & _)%posix_list_app.
  destruct Hcur as [Hf Hty Hr Hce].
  rewrite bool_decide_true by done. simpl.
  assert (Hkeep : before_tgt s cur -> exists s' e' pre' post,
    posix_loop fl rest s e (pre ++ [cur]) [] = Some (s', e', pre', post) /\
    loop_post (pre ++ cur :: rest) s e s' e' pre' post).
  { intros Hb. destruct (IH s e (pre ++ [cur])) as (s' & e' & pre' & post & -> & HP);
      [done|done|by rewrite <- app_assoc|by apply before_tgt_app|].
    rewrite <- app_assoc in HP. eauto 6. }
  assert (Hstop : after_tgt e cur -> exists s' e' pre' post,
    Some (s, e, pre, cur :: rest) = Some (s', e', pre', post) /\
    loop_post (pre ++ cur :: rest) s e s' e' pre' post).
  { intros Ha. do 4 eexists. split; [done|]. apply loop_post_done; [lia|done..|].
    constructor; [done|]. by eapply after_tgt_rest. }
  dif; [by apply Hkeep; left|]. dif; [by apply Hstop; left|].
  assert (Hp : pid cur = pid fl) by lia. case_bool_decide as Ht.
  - (* same type *)
    destruct ((0 <? s) && (end_ cur <? s - 1)) eqn:E1.
    { breflect. apply Hkeep. right. order. }
    destruct ((e <? FS_LOCK_EOF) && (e + 1 <? start cur)) eqn:E2.
    { breflect. apply Hstop. right. order. }
    apply andb_false_iff in E1. rewrite !Z.ltb_ge in E1. apply andb_false_iff in E2. rewrite !Z.ltb_ge in E2.
    destruct (IH (Z.min s (start cur)) (Z.max e (end_ cur)) pre) as (s' & e' & pre' & post & -> & HP);
      [lia|lia|by eapply posix_list_remove|by eapply before_tgt_mono|].
    do 4 eexists. split; [done|]. eapply loop_post_step; [exact HP|lia|lia|solve_holds s e|solve_holds s e|].
    intros b Hb. destruct (decide (s <= b <= e)); [by left|right]. rewrite holds_app, holds_cons.
    right; left. order.
  - (* different types *)
    dif; [apply Hkeep; right; order|]. dif; [apply Hstop; right; order|].
    destruct ((start cur <? s) && (end_ cur <=? e)) eqn:E1; [|destruct ((start cur <? s) && (e <? end_ cur)) eqn:E2;
      [|destruct ((s <=? start cur) && (end_ cur <=? e)) eqn:E3]].
    + (* the end of [cur] is cut off *)
      breflect. rewrite (proj2 (Z.ltb_lt _ _)) by lia.
      destruct (IH s e (pre ++ [set_end cur (s - 1)])) as (s' & e' & pre' & post & -> & HP); [done|done| | |].
      * rewrite <- app_assoc. eapply (posix_list_shrink pre cur); simpl; (done || lia).
      * apply before_tgt_app; [done|]. right. simpl. order.
      * do 4 eexists. split; [done|]. eapply loop_post_step; [exact HP|lia|lia|solve_holds s e|solve_holds s e|auto].
    + (* [cur] is split *)
      breflect. rewrite (proj2 (Z.ltb_lt _ _)) by lia. do 4 eexists. split; [done|].
      eapply loop_post_step; [apply loop_post_done|lia|lia|solve_holds s e|solve_holds s e|auto]; [lia|done| | |].
      * eapply (posix_list_split pre cur); simpl; (done || lia).
      * apply before_tgt_app; [done|]. right. simpl. order.
      * constructor; [right; simpl; order|].
        eapply (after_tgt_rest e (set_start cur (e + 1)) _ pre); [|right; simpl; order].
        eapply (posix_list_shrink pre cur); simpl; (done || lia).
    + (* [cur] is removed *)
      breflect. destruct (IH s e pre) as (s' & e' & pre' & post & -> & HP);
        [done|done|by eapply posix_list_remove|done|].
      do 4 eexists. split; [done|]. eapply loop_post_step; [exact HP|lia|lia|solve_holds s e|solve_holds s e|auto].
    + (* the beginning of [cur] is cut off *)
      apply andb_false_iff in E1, E2, E3. rewrite ?Z.ltb_ge, ?Z.leb_gt in *.
      rewrite (proj2 (Z.leb_le s _)), (proj2 (Z.ltb_lt e (end_ _))), (proj2 (Z.ltb_lt e FS_LOCK_EOF)) by lia.
      assert (Hl' : posix_list (pre ++ set_start cur (e + 1) :: rest))
        by (eapply (posix_list_shrink pre cur); simpl; (done || lia)).
      do 4 eexists. split; [done|].
      eapply loop_post_step; [apply loop_post_done|lia|lia|solve_holds s e|solve_holds s e|auto]; [lia|done..|].
      constructor; [right; simpl; order|]. eapply after_tgt_rest; [exact Hl'|right; simpl; order].
Qed.
End loop.

(** The type a process has on a byte after setting [fl] there. *)
Definition type_set (fl : libos_file_lock) : option lock_type :=
  if bool_decide (type fl = F_UNLCK) then None else Some (type fl).

Definition in_target (fl : libos_file_lock) (p b : Z) : Prop := p = pid fl /\ start fl <= b <= end_ fl.

(** A list with one more lock between [pre] and [post]. *)
Lemma posix_list_new fl s e pre post :
  posix_list (pre ++ post) -> type fl <> F_UNLCK -> 0 <= s <= e -> e <= FS_LOCK_EOF ->
  Forall (before_tgt fl s) pre -> Forall (after_tgt fl e) post ->
  posix_list (pre ++ FileLock FILE_LOCK_POSIX (type fl) s e (pid fl) 0 :: post).
Proof.
  rewrite !posix_list_app, posix_list_cons, !Forall_forall. intros (? & ? & Hb) Ht Hs He Hpre Hpost.
  split; [done|]. split; [split; [by split|split; [done|]]|].
  - intros k Hk. specialize (Hpost k Hk). unfold after_tgt, before in *. simpl. naive_solver.
  - intros x y Hx [->|Hy]%elem_of_cons; [|by apply Hb]. exact (Hpre x Hx).
Qed.

Lemma order_ok_true fl s e pre post :
  Forall (before_tgt fl s) pre -> Forall (after_tgt fl e) post -> order_ok fl s e pre post = true.
Proof.
  intros Hpre Hpost. unfold order_ok. apply andb_true_iff. split.
  - destruct (last pre) as [k|] eqn:E; [|done]. apply last_Some_elem_of in E. rewrite Forall_forall in Hpre.
    specialize (Hpre k E). unfold before_tgt in Hpre.
    rewrite orb_true_iff, andb_true_iff, !Z.ltb_lt, Z.eqb_eq. lia.
  - destruct post as [|k post]; [done|]. apply Forall_cons in Hpost as [Hk _]. unfold after_tgt in Hk.
    rewrite orb_true_iff, andb_true_iff, !Z.ltb_lt, Z.eqb_eq. lia.
Qed.

(** No POSIX lock has type [F_UNLCK]. *)
Lemma holds_not_unlck l p b : posix_list l -> ~ holds l p b F_UNLCK.
Proof.
  intros [_ Hok] (k & Hk & _ & _ & Ht)%holds_elem. rewrite Forall_forall in Hok. by destruct (Hok k Hk).
Qed.

Lemma posix_set_list_spec l fl :
  posix_list l -> range_ok fl -> exists l', posix_set_list l fl = Some l' /\ posix_list l' /\
    forall p b t, holds l' p b t <->
      (in_target fl p b /\ type_set fl = Some t) \/ (~ in_target fl p b /\ holds l p b t).
Proof.
  intros Hl [Hr HE]. unfold posix_set_list.
  destruct (posix_loop_spec fl l (start fl) (end_ fl) []) as (s & e & pre & post & -> & [Hs He Hl' Hpre Hpost Hm Hh]);
    [lia|done|done|constructor|]. simpl in Hm, Hh. unfold type_set, in_target.
  case_bool_decide as Ht.
  - exists (pre ++ post). split; [done|]. split; [done|]. intros p b t. rewrite Hh. split.
    + intros [Ho Hn]. right. split; [|done]. intros [-> Hb]. apply Hn. split; [done|lia].
    + intros [[_ ?]|[Hn Ho]]; [done|]. split; [done|]. intros [-> Hb].
      destruct (Hm b Hb) as [?|Hu]; [tauto|]. rewrite Ht in Hu. by destruct (holds_not_unlck _ _ _ Hl Hu).
  - rewrite order_ok_true by done. eexists. split; [done|]. split; [apply posix_list_new; (done || lia)|].
    intros p b t. specialize (Hh p b t). rewrite holds_app in *. rewrite holds_cons. simpl.
    destruct (decide (p = pid fl /\ start fl <= b <= end_ fl)) as [[-> Hb]|Hn].
    + assert (s <= b <= e) by lia. split; [|intros [[_ [= <-]]|[? _]]; [right; left; done|tauto]]. intros Hx.
      left. split; [done|]. f_equal. destruct Hx as [?|[(_&_&?)|?]]; [tauto|done|tauto].
    + split.
      * intros Hx. right. split; [done|]. destruct Hx as [?|[(<-&Hb&<-)|?]]; [tauto| |tauto].
        destruct (Hm b Hb) as [?|?]; [tauto|done].
      * intros [[? _]|[_ Ho]]; [tauto|]. destruct (decide (p = pid fl /\ s <= b <= e)) as [[-> Hb]|]; [|tauto].
        right; left. split; [done|]. split; [done|]. destruct (Hm b Hb) as [?|Hx]; [tauto|].
        exact (holds_unique _ _ _ _ _ Hl Hx Ho).
Qed.

(** C17: setting or removing a POSIX lock never fails an assertion, keeps the list
    of locks in its canonical form, and changes the locks of exactly the process
    and the bytes asked for, whatever locks were there before. *)
Theorem posix_lock_set_bytes l fl :
  posix_list l -> range_ok fl -> exists l', posix_set_list l fl = Some l' /\ posix_list l' /\
    forall p b, lock_at l' p b = if decide (in_target fl p b) then type_set fl else lock_at l p b.
Proof.
  intros Hl Hr. destruct (posix_set_list_spec l fl Hl Hr) as (l' & Hset & Hl' & Hh). exists l'.
  split; [done|]. split; [done|]. intros p b. apply option_eq. intros t. rewrite lock_at_holds, Hh by done.
  case_decide; [|rewrite lock_at_holds by done]; tauto.
Qed.

(** ** Locks of different processes *)

(** A byte that one process has locked for writing is locked by nobody else. *)
Definition exclusive (l : list libos_file_lock) : Prop :=
  forall p q b t, holds l p b F_WRLCK -> holds l q b t -> p = q.

Lemma find_conflict_None l fl :
  find_conflict l fl = None <-> forall k, k ∈ l -> conflicts fl k = false.
Proof.
  unfold find_conflict. rewrite head_None. split.
  - intros E k Hk. apply not_true_iff_false. intros Hc. assert (k ∈ filter (fun x => conflicts fl x) l) as Hi.
    { apply list_elem_of_filter. split; [by apply Is_true_true|done]. }
    rewrite E in Hi. by apply elem_of_nil in Hi.
  - intros Hno. apply list_filter_none, Forall_forall. intros k Hk. rewrite (Hno k Hk). by intros [].
Qed.

Lemma no_conflict_bytes l fl q b t :
  family fl = FILE_LOCK_POSIX -> find_conflict l fl = None -> q <> pid fl -> start fl <= b <= end_ fl ->
  holds l q b t -> t <> F_WRLCK /\ type fl <> F_WRLCK.
Proof.
  intros Hf Hno Hq Hb (k & Hk & <- & ? & <-)%holds_elem. rewrite find_conflict_None in Hno.
  specialize (Hno k Hk). unfold conflicts, posix_conflict in Hno. rewrite Hf in Hno.
  rewrite (proj2 (Z.eqb_neq _ _)), !(proj2 (Z.leb_le _ _)) in Hno by lia. simpl in Hno.
  apply orb_false_iff in Hno as [?%bool_decide_eq_false ?%bool_decide_eq_false]. done.
Qed.

Lemma exclusive_set l fl l' :
  posix_list l -> range_ok fl -> family fl = FILE_LOCK_POSIX -> exclusive l ->
  type fl = F_UNLCK \/ find_conflict l fl = None -> posix_set_list l fl = Some l' -> exclusive l'.
Proof.
  intros Hl Hr Hf Hex Hno Hset. destruct (posix_set_list_spec l fl Hl Hr) as (l1 & E & _ & Hh).
  rewrite Hset in E. injection E as <-. unfold type_set, in_target in Hh.
  intros p q b t Hp Hq. rewrite Hh in Hp, Hq. case_bool_decide as Ht.
  { destruct Hp as [[_ ?]|[_ Hp]]; [done|]. destruct Hq as [[_ ?]|[_ Hq]]; [done|]. eauto. }
  destruct Hno as [?|Hno]; [done|]. destruct (decide (p = q)) as [|Hne]; [done|].
  destruct Hp as [[[-> ?] [= Ew]]|[Hnp Hp]], Hq as [[[-> ?] [= Et]]|[Hnq Hq]]; [done| | |eauto].
  - destruct (no_conflict_bytes l fl q b t); done.
  - destruct (no_conflict_bytes l fl p b F_WRLCK); done.
Qed.

(** ** BSD locks *)

Record flock_ok (l : libos_file_lock) : Prop := {
  fo_family : family l = FILE_LOCK_FLOCK;
  fo_type : type l <> F_UNLCK
}.

Definition flock_list (l : list libos_file_lock) : Prop :=
  NoDup (handle_id <$> l) /\ Forall flock_ok l.

Definition flock_at (l : list libos_file_lock) (h : Z) : option lock_type :=
  type <$> head (filter (fun k => handle_id k = h) l).

Definition flock_exclusive (l : list libos_file_lock) : Prop :=
  forall k k', k ∈ l -> k' ∈ l -> type k = F_WRLCK -> handle_id k = handle_id k'.

Lemma flock_remove_filter h l :
  flock_list l -> flock_remove h l = filter (fun k => handle_id k <> h) l.
Proof.
  induction l as [|k l IH]; intros [Hnd Hok]; [done|]. cbn [flock_remove].
  apply NoDup_cons in Hnd as [Hk Hnd]. apply Forall_cons in Hok as [[Hf _] Hok].
  rewrite bool_decide_true by done. simpl. destruct (Z.eqb_spec (handle_id k) h) as [<-|Hne].
  - rewrite filter_cons_False by tauto. symmetry. apply list_filter_all, Forall_forall. intros k' Hk' E.
    apply Hk. rewrite <- E. by apply list_elem_of_fmap_2.
  - rewrite filter_cons_True by done. f_equal. by apply IH.
Qed.

Lemma flock_set_list_spec l fl :
  flock_list l -> flock_list (flock_set_list l fl) /\
  forall k, k ∈ flock_set_list l fl <->
    (k ∈ l /\ handle_id k <> handle_id fl) \/
    (type fl <> F_UNLCK /\ k = FileLock FILE_LOCK_FLOCK (type fl) 0 0 0 (handle_id fl)).
Proof.
  intros Hl. unfold flock_set_list. rewrite flock_remove_filter by done. destruct Hl as [Hnd Hok].
  assert (Hf : flock_list (filter (fun k => handle_id k <> handle_id fl) l)).
  { split; [by apply NoDup_fmap_filter|]. by apply list_Forall_filter. }
  case_bool_decide as Ht.
  - split; [done|]. intros k. rewrite list_elem_of_filter. tauto.
  - split.
    + destruct Hf as [Hf1 Hf2]. split; [|by constructor]. rewrite fmap_cons. apply NoDup_cons.
      split; [|done]. intros (k & E & Hk)%list_elem_of_fmap. apply list_elem_of_filter in Hk as [Hk _].
      by apply Hk.
    + intros k. rewrite elem_of_cons, list_elem_of_filter. tauto.
Qed.

Lemma flock_at_elem l h t :
  flock_list l -> flock_at l h = Some t <-> exists k, k ∈ l /\ handle_id k = h /\ type k = t.
Proof.
  intros [Hnd _]. unfold flock_at. rewrite fmap_Some. split.
  - intros (k & Hk%head_Some_elem_of & ->). apply list_elem_of_filter in Hk as [? ?]. eauto.
  - intros (k & Hk & <- & <-). exists k. split; [|done]. induction l as [|a l IH]; [by apply elem_of_nil in Hk|].
    apply NoDup_cons in Hnd as [Ha Hnd]. apply elem_of_cons in Hk as [->|Hk].
    + by rewrite filter_cons_True.
    + rewrite filter_cons_False; [by apply IH|]. intros E. apply Ha. rewrite E. by apply list_elem_of_fmap_2.
Qed.

(** Setting or removing a BSD lock keeps at most one lock per open file and
    changes the lock of exactly the open file asked for. *)
Theorem flock_lock_set_handles l fl :
  flock_list l -> flock_list (flock_set_list l fl) /\
  forall h, flock_at (flock_set_list l fl) h = if decide (h = handle_id fl) then type_set fl else flock_at l h.
Proof.
  intros Hl. destruct (flock_set_list_spec l fl Hl) as [Hl' Hin]. split; [done|]. intros h.
  apply option_eq. intros t. rewrite flock_at_elem by done. unfold type_set. case_decide as Hh.
  - case_bool_decide as Ht; split; try done.
    + intros (k & [[? ?]|[? _]]%Hin & ? & _); congruence.
    + intros (k & [[? ?]|[_ ->]]%Hin & ? & <-); [congruence|done].
    + intros [= <-]. eexists. rewrite Hin. split; [right; done|]. done.
  - rewrite flock_at_elem by done. split; intros (k & Hk & <- & <-).
    + apply Hin in Hk as [[? ?]|[_ ->]]; [eauto|done].
    + exists k. rewrite Hin. auto.
Qed.

Lemma flock_exclusive_set l fl :
  flock_list l -> family fl = FILE_LOCK_FLOCK -> flock_exclusive l ->
  type fl = F_UNLCK \/ find_conflict l fl = None -> flock_exclusive (flock_set_list l fl).
Proof.
  intros Hl Hf Hex Hno. destruct (flock_set_list_spec l fl Hl) as [_ Hin].
  assert (Hc : forall k, k ∈ l -> handle_id k <> handle_id fl -> type fl <> F_UNLCK ->
    type k <> F_WRLCK /\ type fl <> F_WRLCK).
  { intros k Hk Hh Ht. destruct Hno as [?|Hno]; [done|]. rewrite find_conflict_None in Hno.
    specialize (Hno k Hk). unfold conflicts, flock_conflict in Hno. rewrite Hf in Hno.
    rewrite (proj2 (Z.eqb_neq _ _)) in Hno by done. simpl in Hno.
    by apply orb_false_iff in Hno as [?%bool_decide_eq_false ?%bool_decide_eq_false]. }
  intros k k' [[Hk Hh]|[Ht ->]]%Hin [[Hk' Hh']|[Ht' ->]]%Hin Hw; simpl in *.
  - by apply Hex.
  - by destruct (Hc k Hk Hh Ht').
  - by destruct (Hc k' Hk' Hh' Ht).
  - done.
Qed.

(** ** Both families *)

(** The locks of one file are of one family and compatible with each other. *)
Definition locks_ok (fam : libos_file_lock_family) (l : list libos_file_lock) : Prop :=
  match fam with
  | FILE_LOCK_POSIX => posix_list l /\ exclusive l
  | FILE_LOCK_FLOCK => flock_list l /\ flock_exclusive l
  | FILE_LOCK_UNKNOWN => False
  end.

Definition set_list (l : list libos_file_lock) (fl : libos_file_lock) : option (list libos_file_lock) :=
  if bool_decide (family fl = FILE_LOCK_POSIX) then posix_set_list l fl else Some (flock_set_list l fl).

(** What the callers pass. *)
Definition lock_arg_ok (fl : libos_file_lock) : Prop :=
  family fl <> FILE_LOCK_UNKNOWN /\ (family fl = FILE_LOCK_POSIX -> range_ok fl).

Lemma posix_loop_flocks fl cs mid :
  Forall flock_ok cs -> posix_loop fl cs (start fl) (end_ fl) [] mid = Some (start fl, end_ fl, [], mid ++ cs).
Proof.
  intros Hcs. revert mid. induction Hcs as [|k cs [Hf _] _ IH]; intros mid; cbn [posix_loop].
  - by rewrite app_nil_r.
  - rewrite bool_decide_false by congruence. simpl. by rewrite IH, <- app_assoc.
Qed.

Lemma flock_remove_posix h l : Forall lock_ok l -> flock_remove h l = l.
Proof.
  induction 1 as [|k l [Hf _ _ _] _ IH]; [done|]. cbn [flock_remove].
  rewrite bool_decide_false by congruence. simpl. by rewrite IH.
Qed.

(** Removing a lock of the other family changes nothing. *)
Lemma set_list_other fam l fl :
  locks_ok fam l -> family fl <> fam -> family fl <> FILE_LOCK_UNKNOWN -> type fl = F_UNLCK ->
  set_list l fl = Some l.
Proof.
  unfold locks_ok, set_list. intros Hl Hne Hu Ht. destruct fam; [done| |].
  - destruct Hl as [[_ Hok] _]. destruct (family fl) eqn:E; [done..|]. simpl. unfold flock_set_list.
    by rewrite flock_remove_posix, bool_decide_true.
  - destruct Hl as [[_ Hok] _]. destruct (family fl) eqn:E; [done| |done]. simpl. unfold posix_set_list.
    rewrite posix_loop_flocks by done. by rewrite bool_decide_true.
Qed.

Lemma set_list_ok fam l fl :
  locks_ok fam l -> lock_arg_ok fl -> family fl = fam ->
  type fl = F_UNLCK \/ find_conflict l fl = None ->
  exists l', set_list l fl = Some l' /\ locks_ok fam l'.
Proof.
  intros Hl [Hu Hr] Hf Hno. unfold set_list, locks_ok in *. destruct fam; [done| |].
  - rewrite bool_decide_true by done. destruct Hl as [Hl Hex].
    destruct (posix_set_list_spec l fl Hl (Hr Hf)) as (l' & E & Hl' & _). exists l'. split; [done|].
    split; [done|]. by eapply (exclusive_set l fl); eauto.
  - rewrite bool_decide_false by congruence. destruct Hl as [Hl Hex]. eexists. split; [done|].
    split; [by apply flock_set_list_spec|]. by apply flock_exclusive_set.
Qed.
