(* ===== verification/FsLockSpec.v ===== *)
(** * Correctness of the file-lock operations

    The invariant of [FsLock] and what its operations do: no assertion fails,
    locks of one file stay compatible, and no request waits that could be
    granted. *)

From S2P Require Import Prelude FsLock FsLockList.

(** ** Invariant *)

(** One object, with locks and requests of the family [fam]. *)
Record dfl_ok (fam : libos_file_lock_family) (d : dent_file_locks) : Prop := {
  do_locks : locks_ok fam (file_locks d);
  do_reqs : Forall (fun r => lock_arg_ok (req_lock r) /\ family (req_lock r) = fam /\
                             type (req_lock r) <> F_UNLCK) (file_lock_requests d);
  do_ids : NoDup (req_id <$> file_lock_requests d);
  do_posix : fam = FILE_LOCK_FLOCK -> posix_used d = false;
  do_flock : fam = FILE_LOCK_POSIX -> flock_used d = false
}.

(** Every request waits for a lock that is held. *)
Definition all_blocked (d : dent_file_locks) : Prop :=
  Forall (fun r => find_conflict (file_locks d) (req_lock r) <> None) (file_lock_requests d).

Definition used (fam : libos_file_lock_family) (d : dent_file_locks) : Prop :=
  match fam with
  | FILE_LOCK_POSIX => posix_used d = true
  | FILE_LOCK_FLOCK => flock_used d = true
  | FILE_LOCK_UNKNOWN => False
  end.

(** An object between two operations. *)
Definition dfl_stable (d : dent_file_locks) : Prop :=
  exists fam, dfl_ok fam d /\ used fam d /\ all_blocked d /\ file_locks d <> [].

Record st_ok (s : fs_lock_state) : Prop := {
  st_dents : map_Forall (fun _ d => dfl_stable d /\ Forall (fun r => req_id r < next_req s) (file_lock_requests d))
               (dents s);
  st_list : NoDup (g_dent_file_locks_list s);
  st_dom : forall x, x ∈ g_dent_file_locks_list s <-> is_Some (dents s !! x);
  st_refs : forall x, counter (dent_refs s) x = if dents s !! x then 1 else 0
}.

(** A request whose [notify] is not initialised yet. *)
Definition incomplete_in (d : dent_file_locks) : Prop :=
  exists r, r ∈ file_lock_requests d /\ req_notify r = None.

Definition incomplete (s : fs_lock_state) : Prop := exists x d, dents s !! x = Some d /\ incomplete_in d.

Definition without_req (d : dent_file_locks) (r : file_lock_request) : list file_lock_request :=
  filter (fun r' => req_id r' <> req_id r) (file_lock_requests d).

Lemma dfl_ok_requests fam d P `{forall x, Decision (P x)} :
  dfl_ok fam d -> dfl_ok fam (set_requests d (filter P (file_lock_requests d))).
Proof.
  intros [? ? ? ? ?]. split; simpl; try done; [by apply list_Forall_filter|by apply NoDup_fmap_filter].
Qed.

Section ops.
Context (malloc_ok : nat -> bool).

(** ** Allocations *)

(** The allocations with the numbers from [n] up to [n'] succeed, or one fails. *)
Definition allocs_ok (n n' : nat) : Prop := (n <= n')%nat /\ forall k, (n <= k < n')%nat -> malloc_ok k = true.
Definition alloc_fails (n n' : nat) : Prop := exists k, (n <= k < n')%nat /\ malloc_ok k = false.

Lemma allocs_ok_refl n : allocs_ok n n.
Proof. split; [done|]. lia. Qed.

Lemma allocs_ok_trans n1 n2 n3 : allocs_ok n1 n2 -> allocs_ok n2 n3 -> allocs_ok n1 n3.
Proof.
  intros [? H1] [? H2]. split; [lia|]. intros k Hk. destruct (decide (k < n2)%nat); [apply H1|apply H2]; lia.
Qed.

Lemma alloc_fails_later n1 n2 n3 : (n1 <= n2)%nat -> alloc_fails n2 n3 -> alloc_fails n1 n3.
Proof. intros ? (k & ? & ?). exists k. split; [lia|done]. Qed.

(** ** Granting requests *)

(** A request with no lock in its way leaves the queue; it is granted, or its
    waiter is told that there was no memory, in which case an allocation failed.
    The last component is the number of allocations made so far. *)
Inductive grant : dent_file_locks * list (notify * Z) * nat -> dent_file_locks * list (notify * Z) * nat -> Prop :=
| grant_ok d log n n' r nt l :
    r ∈ file_lock_requests d -> find_conflict (file_locks d) (req_lock r) = None ->
    req_notify r = Some nt -> set_list (file_locks d) (req_lock r) = Some l -> allocs_ok n n' ->
    grant (d, log, n) (set_requests (set_file_locks d l) (without_req d r), log ++ [(nt, 0)], n')
| grant_nomem d log n n' r nt :
    r ∈ file_lock_requests d -> find_conflict (file_locks d) (req_lock r) = None ->
    req_notify r = Some nt -> alloc_fails n n' ->
    grant (d, log, n) (set_requests d (without_req d r), log ++ [(nt, - ENOMEM)], n').

Lemma grant_dfl_ok fam a b : grant a b -> dfl_ok fam (fst (fst a)) -> dfl_ok fam (fst (fst b)).
Proof.
  intros Hg Hd. destruct Hg as [d log n n' r nt l Hr Hc _ Hs _|d log n n' r nt Hr Hc _ _]; simpl in *.
  - apply (dfl_ok_requests fam (set_file_locks d l)). destruct Hd as [Hl Hq ? ? ?]. split; simpl; try done.
    rewrite Forall_forall in Hq. destruct (Hq r Hr) as (? & ? & ?).
    destruct (set_list_ok fam (file_locks d) (req_lock r)) as (l' & E & ?); [done..|by right|]. congruence.
  - by apply dfl_ok_requests.
Qed.

(** Everything but one object, the allocation count and the notifications is
    unchanged. *)
Record frame (dent : Z) (d' : dent_file_locks) (s s' : fs_lock_state) : Prop := {
  fr_dents : dents s' = <[dent := d']> (dents s);
  fr_list : g_dent_file_locks_list s' = g_dent_file_locks_list s;
  fr_refs : dent_refs s' = dent_refs s;
  fr_next : next_req s' = next_req s
}.

Lemma frame_refl dent d s : dents s !! dent = Some d -> frame dent d s s.
Proof. intros H. split; try done. by rewrite insert_id. Qed.

Lemma frame_trans dent d1 d2 s s1 s2 : frame dent d1 s s1 -> frame dent d2 s1 s2 -> frame dent d2 s s2.
Proof.
  intros [E1 ? ? ?] [E2 ? ? ?]. split; try congruence. rewrite E2, E1. apply insert_insert_eq.
Qed.

Lemma frame_lookup dent d s s' : frame dent d s s' -> dents s' !! dent = Some d.
Proof. intros [-> _ _ _]. apply lookup_insert_eq. Qed.

(** [malloc] changes nothing but the number of allocations. *)
Record after_malloc (s s' : fs_lock_state) : Prop := {
  am_dents : dents s' = dents s;
  am_list : g_dent_file_locks_list s' = g_dent_file_locks_list s;
  am_refs : dent_refs s' = dent_refs s;
  am_next : next_req s' = next_req s;
  am_log : notified s' = notified s;
  am_count : malloc_count s' = S (malloc_count s)
}.

Lemma wp_malloc Q s :
  (forall s', after_malloc s s' -> allocs_ok (malloc_count s) (malloc_count s') -> Q true s') ->
  (forall s', after_malloc s s' -> alloc_fails (malloc_count s) (malloc_count s') -> Q false s') ->
  wp (malloc malloc_ok) Q s.
Proof.
  intros Ht Hf. unfold malloc. wp_steps. destruct (malloc_ok (malloc_count s)) eqn:E.
  - apply Ht; [done|]. simpl. split; [lia|]. intros k Hk. by replace k with (malloc_count s) by lia.
  - apply Hf; [done|]. exists (malloc_count s). simpl. split; [lia|done].
Qed.

Lemma wp_get_dfl dent d (Q : dent_file_locks -> fs_lock_state -> Prop) s :
  dents s !! dent = Some d -> Q d s -> wp (get_dfl dent) Q s.
Proof. intros E H. unfold wp, get_dfl. by rewrite E. Qed.

(** Setting a lock, whatever its family. *)
Lemma lock_set_spec dent d fl l' s :
  dents s !! dent = Some d -> family fl <> FILE_LOCK_UNKNOWN -> set_list (file_locks d) fl = Some l' ->
  wp (lock_set malloc_ok dent fl) (fun ret s' => notified s' = notified s /\
    ((ret = 0 /\ frame dent (set_file_locks d l') s s' /\ allocs_ok (malloc_count s) (malloc_count s')) \/
     (ret = - ENOMEM /\ frame dent d s s' /\ alloc_fails (malloc_count s) (malloc_count s')))) s.
Proof.
  intros Ed Hu Hset. unfold lock_set, set_list in *.
  assert (Hfr : forall s', after_malloc s s' -> frame dent d s s').
  { intros s' []. split; try done. by rewrite insert_id. }
  set (post := fun (ret : Z) s' => _ /\ _).
  assert (Hnew : forall (f : bool -> SM fs_lock_state Z),
    (forall s', frame dent d s s' -> notified s' = notified s -> allocs_ok (malloc_count s) (malloc_count s') ->
       wp (f true) post s') -> f false = mret (- ENOMEM) ->
    wp ((if bool_decide (type fl = F_UNLCK) then mret true else malloc malloc_ok) ≫= f) post s).
  { intros f Hf Ef. apply wp_bind. destruct (bool_decide (type fl = F_UNLCK)).
    - wp_steps. apply Hf; eauto using frame_refl, allocs_ok_refl.
    - apply wp_malloc; intros s' Hm Ha; [by apply Hf; [apply Hfr|destruct Hm|]|]. rewrite Ef. wp_steps.
      split; [by destruct Hm|]. right. auto. }
  assert (Hput : forall s1 l, frame dent d s s1 -> notified s1 = notified s ->
    allocs_ok (malloc_count s) (malloc_count s1) -> l = l' ->
    wp (put_dfl dent (set_file_locks d l);; mret 0) post s1).
  { intros s1 l F1 N1 A1 ->. unfold put_dfl. wp_steps. split; [done|]. left. split; [done|]. split; [|done].
    destruct F1 as [F1 ? ? ?]. split; simpl; try done. rewrite F1. apply insert_insert_eq. }
  destruct (bool_decide_reflect (family fl = FILE_LOCK_POSIX)) as [Hf|Hf].
  - unfold _posix_lock_set. apply wp_bind, wp_assert; [by apply bool_decide_true|]. apply Hnew; [|done].
    intros s1 F1 N1 A1. apply wp_bind, wp_malloc; intros s2 M2 A2.
    + pose proof (allocs_ok_trans _ _ _ A1 A2). destruct F1, M2.
      assert (frame dent d s s2) by (split; congruence).
      apply wp_bind, (wp_get_dfl dent d); [by eapply frame_lookup|]. rewrite Hset. apply Hput; try done. congruence.
    + wp_steps. destruct A1. split; [by destruct M2; congruence|]. right. split; [done|].
      split; [|by eapply alloc_fails_later]. destruct F1, M2. split; congruence.
  - injection Hset as Hset. unfold _flock_lock_set. apply wp_bind, wp_assert.
    { apply bool_decide_true. by destruct (family fl). }
    apply Hnew; [|done]. intros s1 F1 N1 A1. apply wp_bind, (wp_get_dfl dent d); [by eapply frame_lookup|]. by apply Hput.
Qed.

Lemma find_conflict_spec dent d fl s (Q : option libos_file_lock -> fs_lock_state -> Prop) :
  dents s !! dent = Some d -> family fl <> FILE_LOCK_UNKNOWN -> type fl <> F_UNLCK ->
  Q (find_conflict (file_locks d) fl) s -> wp (file_lock_find_conflict dent fl) Q s.
Proof.
  intros Ed Hf Ht HQ. unfold file_lock_find_conflict.
  apply wp_bind, wp_assert; [by rewrite bool_decide_false|].
  apply wp_bind, wp_assert; [by rewrite bool_decide_false|]. by apply wp_bind, (wp_get_dfl dent d).
Qed.

(** ** Processing of requests *)

(** An object with the log of notifications and the number of allocations. *)
Definition at_state (d : dent_file_locks) (s : fs_lock_state) : dent_file_locks * list (notify * Z) * nat :=
  (d, notified s, malloc_count s).

Definition pass_post (fam : libos_file_lock_family) (dent : Z) (d : dent_file_locks)
    (reqs : list file_lock_request) (changed : bool) (s : fs_lock_state) (ch : bool) (s' : fs_lock_state)
    : Prop :=
  exists d', frame dent d' s s' /\ dfl_ok fam d' /\
    file_lock_requests d' ⊆ file_lock_requests d /\
    rtc grant (at_state d s) (at_state d' s') /\
    ((ch = changed /\ d' = d /\ Forall (fun r => find_conflict (file_locks d) (req_lock r) <> None) reqs) \/
     (ch = true /\ (length (file_lock_requests d') < length (file_lock_requests d))%nat)).

Lemma without_req_length d r :
  r ∈ file_lock_requests d -> (length (without_req d r) < length (file_lock_requests d))%nat.
Proof. intros Hr. apply (length_filter_lt _ _ r); [done|]. tauto. Qed.

(** A request without a lock in its way is taken from the queue. *)
Lemma grant_request_spec fam dent d r nt s :
  dents s !! dent = Some d -> dfl_ok fam d -> r ∈ file_lock_requests d -> req_notify r = Some nt ->
  find_conflict (file_locks d) (req_lock r) = None ->
  wp (lock_set malloc_ok dent (req_lock r)) (fun ret s' => notified s' = notified s /\
    exists d1, frame dent d1 s s' /\ without_req d1 r = without_req d r /\
      grant (at_state d s) (set_requests d1 (without_req d1 r), notified s ++ [(nt, ret)], malloc_count s')) s.
Proof.
  intros Ed Hd Hr En Ec. pose proof Hd as [_ Hq _ _ _]. rewrite Forall_forall in Hq.
  destruct (Hq r Hr) as ([Hu ?] & ? & Ht).
  destruct (set_list_ok fam (file_locks d) (req_lock r)) as (l' & El & Hl'); [apply Hd|by split|done|by right|].
  eapply wp_mono; [by apply (lock_set_spec dent d (req_lock r) l')|]. intros ret s1 [N1 Hret]. split; [done|].
  destruct Hret as [(-> & F1 & A1)|(-> & F1 & A1)]; eexists; (split; [exact F1|]); (split; [done|]);
    [by apply (grant_ok d _ _ _ r nt l')|by apply (grant_nomem d _ _ _ r nt)].
Qed.

Lemma process_pass_spec fam dent reqs : forall d changed s,
  dents s !! dent = Some d -> dfl_ok fam d ->
  NoDup (req_id <$> reqs) -> reqs ⊆ file_lock_requests d ->
  wp_or (process_pass malloc_ok dent reqs changed) (pass_post fam dent d reqs changed s) (incomplete_in d) s.
Proof.
  induction reqs as [|r reqs IH]; intros d changed s Ed Hd Hnd Hsub; cbn [process_pass].
  { apply wp_or_wp. wp_steps. exists d. split_and!; try done; [by apply frame_refl|]. left. by constructor. }
  assert (Hr : r ∈ file_lock_requests d) by (apply Hsub; left).
  pose proof Hd as [_ Hq _ _ _]. rewrite Forall_forall in Hq. destruct (Hq r Hr) as ([Hu ?] & ? & Ht).
  rewrite fmap_cons in Hnd. apply NoDup_cons in Hnd as [Hid Hnd].
  apply wp_or_bind, (find_conflict_spec dent d); [done..|].
  destruct (find_conflict (file_locks d) (req_lock r)) as [c|] eqn:Ec.
  { eapply wp_or_mono; [apply (IH d changed s); [done..|]; intros x Hx; apply Hsub; by right|done|].
    intros ch s' (d' & ? & ? & ? & ? & Hch). exists d'. split_and!; try done.
    destruct Hch as [(-> & -> & ?)|?]; [|by right]. left. split; [done|]. split; [done|].
    constructor; [congruence|done]. }
  destruct (req_notify r) as [nt|] eqn:En.
  2:{ eapply wp_or_mono with (P := fun _ _ => False) (R := True); [|by intros _; exists r|done].
      apply wp_or_skip. intros ret s1. apply wp_or_skip. intros d1 s2. apply wp_or_skip. by intros _ s3. }
  apply wp_or_bind. eapply wp_mono; [by apply (grant_request_spec fam dent d r nt s)|].
  intros ret s1 (N1 & d1 & F1 & Ew & Hg).
  pose proof (grant_dfl_ok fam _ _ Hg Hd) as Hd2. simpl in Hd2.
  apply wp_or_bind, (wp_get_dfl dent d1); [by eapply frame_lookup|]. unfold put_dfl.
  apply wp_or_bind, wp_modify, wp_or_bind, wp_modify.
  eapply wp_or_mono; [apply (IH (set_requests d1 (without_req d1 r)))|..]; simpl.
  - apply lookup_insert_eq.
  - done.
  - done.
  - rewrite Ew. intros x Hx. apply list_elem_of_filter. split; [|apply Hsub; by right].
    intros E. apply Hid. rewrite <- E. by apply list_elem_of_fmap_2.
  - intros (x & Hx & En'). simpl in Hx. rewrite Ew in Hx. exists x. apply list_elem_of_filter in Hx. tauto.
  - intros ch s' (d' & F2 & ? & Hs2 & Hrtc & Hch). simpl in *. exists d'. split_and!; try done.
    + eapply frame_trans; [exact F1|]. destruct F2 as [F2 ? ? ?]. split; try done. rewrite F2. simpl.
      apply insert_insert_eq.
    + rewrite Ew in Hs2. intros x Hx. apply Hs2, list_elem_of_filter in Hx. tauto.
    + eapply rtc_l; [exact Hg|]. by rewrite <- N1.
    + right. pose proof (without_req_length d r Hr) as Hlen. rewrite Ew in Hch.
      destruct Hch as [(-> & -> & _)|[-> ?]]; (split; [done|]); simpl; rewrite ?Ew; lia.
Qed.

(** Requests are granted until none is left that could be. *)
Definition processed (fam : libos_file_lock_family) (dent : Z) (d : dent_file_locks) (s s' : fs_lock_state)
    : Prop :=
  exists d', frame dent d' s s' /\ dfl_ok fam d' /\ all_blocked d' /\
    file_lock_requests d' ⊆ file_lock_requests d /\ rtc grant (at_state d s) (at_state d' s').

Lemma incomplete_sub d d' :
  file_lock_requests d' ⊆ file_lock_requests d -> incomplete_in d' -> incomplete_in d.
Proof. intros Hsub (r & Hr & ?). exists r. auto. Qed.

Lemma process_loop_spec fam dent fuel : forall d s,
  dents s !! dent = Some d -> dfl_ok fam d -> (length (file_lock_requests d) < fuel)%nat ->
  wp_or (process_loop malloc_ok fuel dent) (fun _ => processed fam dent d s) (incomplete_in d) s.
Proof.
  induction fuel as [|fuel IH]; intros d s Ed Hd Hlen; [lia|]. cbn [process_loop].
  apply wp_or_bind, (wp_get_dfl dent d); [done|]. apply wp_or_then.
  eapply wp_or_mono; [apply (process_pass_spec fam dent (file_lock_requests d) d false s); try done; apply Hd|done|].
  intros ch s1 (d1 & F1 & Hd1 & Hsub1 & Hr1 & Hch). destruct ch.
  - destruct Hch as [(? & _)|[_ Hlt]]; [done|].
    eapply wp_or_mono; [apply (IH d1 s1); [by eapply frame_lookup|done|lia]|by apply incomplete_sub|].
    intros _ s2 (d2 & F2 & ? & ? & Hsub2 & Hr2). exists d2. split_and!; try done.
    + by eapply frame_trans.
    + intros x Hx. by apply Hsub1, Hsub2.
    + by etrans.
  - destruct Hch as [(_ & -> & Hb)|[? _]]; [|done]. apply wp_or_wp. wp_steps. exists d. by split_and!.
Qed.

Lemma process_requests_spec fam dent d s :
  dents s !! dent = Some d -> dfl_ok fam d ->
  wp_or (file_lock_process_requests malloc_ok dent) (fun _ => processed fam dent d s) (incomplete_in d) s.
Proof.
  intros. unfold file_lock_process_requests. apply wp_or_bind, (wp_get_dfl dent d); [done|].
  apply process_loop_spec; try done. lia.
Qed.

(** ** Creation and removal of the object *)

(** The invariant in the middle of an operation on [dent]. *)
Record st_mid (dent : Z) (s : fs_lock_state) : Prop := {
  sm_others : forall x d, dents s !! x = Some d -> x <> dent -> dfl_stable d;
  sm_ids : forall x d r, dents s !! x = Some d -> r ∈ file_lock_requests d -> req_id r < next_req s;
  sm_list : NoDup (g_dent_file_locks_list s);
  sm_dom : forall x, x ∈ g_dent_file_locks_list s <-> is_Some (dents s !! x);
  sm_refs : forall x, counter (dent_refs s) x = if dents s !! x then 1 else 0
}.

Lemma st_ok_mid dent s : st_ok s -> st_mid dent s.
Proof.
  intros [Hd ? ? ?]. split; try done.
  - intros x d Hx _. by destruct (Hd x d Hx).
  - intros x d r Hx Hr. destruct (Hd x d Hx) as [_ Hf]. rewrite Forall_forall in Hf. auto.
Qed.

Lemma st_mid_ok dent s :
  st_mid dent s -> (forall d, dents s !! dent = Some d -> dfl_stable d) -> st_ok s.
Proof.
  intros [Ho Hi ? ? ?] Hd. split; try done. intros x d Hx. split.
  - destruct (decide (x = dent)) as [->|]; eauto.
  - apply Forall_forall. eauto.
Qed.

Lemma st_mid_update dent d d' s s' :
  st_mid dent s -> dents s !! dent = Some d -> dents s' = <[dent := d']> (dents s) ->
  g_dent_file_locks_list s' = g_dent_file_locks_list s -> dent_refs s' = dent_refs s ->
  next_req s <= next_req s' ->
  (forall r, r ∈ file_lock_requests d' -> req_id r < next_req s') -> st_mid dent s'.
Proof.
  intros [Ho Hi Hl Hdom Hr] Ed E1 E2 E3 E4 Hids. split.
  - intros x dx. rewrite E1. intros Hx Hne. rewrite lookup_insert_ne in Hx by done. eauto.
  - intros x dx r. rewrite E1. destruct (decide (x = dent)) as [->|].
    + rewrite lookup_insert_eq. intros [= <-]. apply Hids.
    + rewrite lookup_insert_ne by done. intros Hx Hr'. specialize (Hi x dx r Hx Hr'). lia.
  - by rewrite E2.
  - intros x. rewrite E1, E2, Hdom. destruct (decide (x = dent)) as [->|].
    + rewrite lookup_insert_eq, Ed. split; eauto.
    + by rewrite lookup_insert_ne.
  - intros x. rewrite E1, E3, Hr. destruct (decide (x = dent)) as [->|].
    + by rewrite lookup_insert_eq, Ed.
    + by rewrite lookup_insert_ne.
Qed.

Lemma st_mid_frame dent d d' s s' :
  st_mid dent s -> dents s !! dent = Some d -> frame dent d' s s' ->
  (forall r, r ∈ file_lock_requests d' -> req_id r < next_req s) -> st_mid dent s'.
Proof. intros ? ? [E1 E2 E3 E4] ?. eapply st_mid_update; eauto; rewrite E4; (done || lia). Qed.

Definition dfl_empty (d : dent_file_locks) : Prop := file_locks d = [] /\ file_lock_requests d = [].

Definition after_gc (dent : Z) (d : dent_file_locks) (s : fs_lock_state) : gmap Z dent_file_locks :=
  match file_locks d with [] => delete dent (dents s) | _ => dents s end.

Lemma gc_spec dent d s :
  st_mid dent s -> dents s !! dent = Some d -> (dfl_empty d \/ dfl_stable d) ->
  wp (dent_file_locks_gc dent) (fun _ s' => st_ok s' /\ dents s' = after_gc dent d s /\
    notified s' = notified s /\ malloc_count s' = malloc_count s /\ next_req s' = next_req s) s.
Proof.
  intros Hs Ed Hd. unfold dent_file_locks_gc, after_gc. apply wp_bind, (wp_get_dfl dent d); [done|].
  destruct Hd as [[-> ->]|Hd].
  - wp_steps. simpl. split_and!; try done. destruct Hs as [Ho Hi Hl Hdom Hr]. apply (st_mid_ok dent).
    + split; simpl.
      * intros x dx Hx Hne. rewrite lookup_delete_ne in Hx by done. eauto.
      * intros x dx r [_ Hx]%lookup_delete_Some. eauto.
      * by apply NoDup_filter.
      * intros x. rewrite list_elem_of_filter, Hdom. destruct (decide (x = dent)) as [->|].
        -- rewrite lookup_delete_eq. split; [tauto|by intros []].
        -- rewrite lookup_delete_ne by done. tauto.
      * intros x. unfold counter. specialize (Hr x). unfold counter in Hr. destruct (decide (x = dent)) as [->|].
        -- rewrite lookup_insert_eq, lookup_delete_eq. rewrite Ed in Hr. simpl. lia.
        -- by rewrite lookup_insert_ne, lookup_delete_ne.
    + simpl. intros d'. by rewrite lookup_delete_eq.
  - assert (st_ok s) by (eapply st_mid_ok; [done|]; intros ?; rewrite Ed; by intros [= <-]).
    destruct Hd as (fam & _ & _ & _ & Hne). destruct (file_locks d); [done|]. by wp_steps.
Qed.

Definition no_locks : dent_file_locks := DentFileLocks false false [] [].

Lemma find_dent_spec dent create s :
  st_ok s ->
  wp (find_dent_file_locks malloc_ok dent create) (fun r s' =>
    match dents s !! dent with
    | Some d => r = (0, true) /\ s' = s
    | None =>
        r = (0, false) /\ create = false /\ s' = s \/
        r = (- ENOMEM, false) /\ create = true /\ after_malloc s s' /\ st_ok s' /\
          alloc_fails (malloc_count s) (malloc_count s') \/
        r = (0, true) /\ create = true /\ dents s' = <[dent := no_locks]> (dents s) /\ st_mid dent s' /\
          notified s' = notified s /\ next_req s' = next_req s /\ allocs_ok (malloc_count s) (malloc_count s')
    end) s.
Proof.
  intros Hs. unfold find_dent_file_locks. wp_steps. destruct (dents s !! dent) as [d|] eqn:Ed.
  { by wp_steps. }
  destruct create; [|wp_steps; by left]. destruct Hs as [Hd Hl Hdom Hr].
  apply wp_bind, wp_malloc; intros s1 M Ha; pose proof M as [E1 E2 E3 E4 E5 _]; wp_steps; simpl; right.
  - right. split; [done|]. split; [done|]. split; [by rewrite E1|]. split; [|done].
    split; simpl; rewrite ?E1, ?E2, ?E3, ?E4.
    + intros x dx Hx Hne. rewrite lookup_insert_ne in Hx by done. by destruct (Hd x dx Hx).
    + intros x dx r [[<- <-]|[_ Hx]]%lookup_insert_Some; [by intros ?%elem_of_nil|].
      destruct (Hd x dx Hx) as [_ Hf]. rewrite Forall_forall in Hf. auto.
    + apply NoDup_cons. split; [|done]. rewrite Hdom, Ed. by intros [].
    + intros x. rewrite elem_of_cons, Hdom. destruct (decide (x = dent)) as [->|].
      * rewrite lookup_insert_eq. split; eauto.
      * rewrite lookup_insert_ne by done. naive_solver.
    + intros x. unfold counter in *. specialize (Hr x). destruct (decide (x = dent)) as [->|].
      * rewrite !lookup_insert_eq. rewrite Ed in Hr. simpl. lia.
      * by rewrite !lookup_insert_ne.
  - left. split_and!; try done. split; rewrite ?E1, ?E2, ?E3, ?E4; done.
Qed.

(** ** Setting a lock or queueing a request *)

(** When an error is returned; [n] and [n'] count the allocations before and
    after. *)
Definition refused (d : dent_file_locks) (fl : libos_file_lock) (wait : bool) (n n' : nat) (ret : Z) : Prop :=
  ret = - EPERM /\ type fl <> F_UNLCK /\ mixes fl d = true \/
  ret = - EAGAIN /\ type fl <> F_UNLCK /\ wait = false /\ find_conflict (file_locks d) fl <> None \/
  ret = - ENOMEM /\ alloc_fails n n'.

Definition finish (fl : libos_file_lock) (d : dent_file_locks) : dent_file_locks :=
  if bool_decide (type fl = F_UNLCK) then d else mark_used fl d.

(** The lock is set, with allocations that succeed, and then requests are
    granted. *)
Record lock_granted (fam : libos_file_lock_family) (d : dent_file_locks) (fl : libos_file_lock)
    (log : list (notify * Z)) (n : nat) (d' : dent_file_locks) (log' : list (notify * Z)) (n' : nat) : Prop := {
  lg_free : type fl <> F_UNLCK -> find_conflict (file_locks d) fl = None;
  lg_unmixed : type fl <> F_UNLCK -> mixes fl d = false;
  lg_ok : dfl_ok fam d';
  lg_blocked : all_blocked d';
  lg_sub : file_lock_requests d' ⊆ file_lock_requests d;
  lg_set : exists l n1, set_list (file_locks d) fl = Some l /\ allocs_ok n n1 /\
             rtc grant (set_file_locks d l, log, n1) (d', log', n')
}.

Definition queued (d : dent_file_locks) (fl : libos_file_lock) (id : Z) : dent_file_locks :=
  mark_used fl (set_requests d (Request id fl None :: file_lock_requests d)).

Definition body_post (fam : libos_file_lock_family) (dent : Z) (d : dent_file_locks) (fl : libos_file_lock)
    (wait : bool) (s : fs_lock_state) (r : Z * option Z) (s' : fs_lock_state) : Prop :=
  (snd r = None /\ refused d fl wait (malloc_count s) (malloc_count s') (fst r) /\ frame dent d s s' /\
     notified s' = notified s) \/
  (r = (0, None) /\
     exists d', lock_granted fam d fl (notified s) (malloc_count s) d' (notified s') (malloc_count s') /\
     frame dent (finish fl d') s s') \/
  (r = (0, Some (next_req s)) /\ wait = true /\ type fl <> F_UNLCK /\ mixes fl d = false /\
     find_conflict (file_locks d) fl <> None /\ notified s' = notified s /\
     dents s' = <[dent := queued d fl (next_req s)]> (dents s) /\ next_req s' = next_req s + 1 /\
     g_dent_file_locks_list s' = g_dent_file_locks_list s /\ dent_refs s' = dent_refs s).

Lemma refused_neg d fl wait n n' ret : refused d fl wait n n' ret -> ret < 0.
Proof. unfold refused, EPERM, EAGAIN, ENOMEM. lia. Qed.

Lemma refused_later d fl wait n0 n n' ret : (n0 <= n)%nat -> refused d fl wait n n' ret -> refused d fl wait n0 n' ret.
Proof. unfold refused. intros Hn [?|[?|[? ?]]]; [tauto..|]. right; right. eauto using alloc_fails_later. Qed.

Lemma lock_granted_later fam d fl log n0 n d' log' n' :
  allocs_ok n0 n -> lock_granted fam d fl log n d' log' n' -> lock_granted fam d fl log n0 d' log' n'.
Proof. intros Hn [? ? ? ? ? (l & n1 & ? & ? & ?)]. split; try done. exists l, n1. eauto using allocs_ok_trans. Qed.

(** The locks after the change fit together. *)
Lemma set_list_arg fam d fl :
  dfl_ok fam d -> lock_arg_ok fl -> (type fl <> F_UNLCK -> family fl = fam) ->
  (type fl <> F_UNLCK -> find_conflict (file_locks d) fl = None) ->
  exists l, set_list (file_locks d) fl = Some l /\ locks_ok fam l.
Proof.
  intros Hd Ha Hf Hc. destruct (decide (family fl = fam)) as [Hfam|Hfam].
  - apply set_list_ok; [apply Hd|done..|]. destruct (decide (type fl = F_UNLCK)); [by left|right; auto].
  - exists (file_locks d). destruct (decide (type fl = F_UNLCK)) as [Ht|Ht]; [|naive_solver].
    split; [|apply Hd]. apply (set_list_other fam); [apply Hd|done|apply Ha|done].
Qed.

(** The branch without a conflict. *)
Lemma set_and_process fam dent d fl s :
  dents s !! dent = Some d -> dfl_ok fam d -> lock_arg_ok fl ->
  (type fl <> F_UNLCK -> family fl = fam) ->
  (type fl <> F_UNLCK -> find_conflict (file_locks d) fl = None) ->
  (type fl <> F_UNLCK -> mixes fl d = false) ->
  wp_or (ret ← lock_set malloc_ok dent fl;
      if ret <? 0 then mret (ret, None)
      else file_lock_process_requests malloc_ok dent;; mret (0, None)) (fun (r : Z * option Z) s' =>
    (r = (- ENOMEM, None) /\ frame dent d s s' /\ notified s' = notified s /\
       alloc_fails (malloc_count s) (malloc_count s')) \/
    (r = (0, None) /\
       exists d', lock_granted fam d fl (notified s) (malloc_count s) d' (notified s') (malloc_count s') /\
       frame dent d' s s')) (incomplete_in d) s.
Proof.
  intros Ed Hd Ha Hf Hc Hm. destruct (set_list_arg fam d fl) as (l & El & Hl); [done..|].
  apply wp_or_bind. eapply wp_mono; [apply (lock_set_spec dent d fl l); [done|apply Ha|done]|].
  intros ret s1 [N1 [(-> & F1 & A1)|(-> & F1 & A1)]]; simpl; [|apply wp_or_wp; wp_steps; by left].
  apply wp_or_then. eapply wp_or_mono; [apply (process_requests_spec fam dent (set_file_locks d l))|done|].
  - by eapply frame_lookup.
  - by destruct Hd; split.
  - intros _ s2 (d' & F2 & ? & ? & ? & Hr). apply wp_or_wp. wp_steps. right. split; [done|]. exists d'.
    unfold at_state in Hr. rewrite N1 in Hr. split.
    + split; eauto 10.
    + by eapply frame_trans.
Qed.

Lemma add_request_spec dent d fl s :
  dents s !! dent = Some d -> type fl <> F_UNLCK ->
  wp (file_lock_add_request malloc_ok dent fl) (fun r s' => notified s' = notified s /\
    (r = (- ENOMEM, None) /\ frame dent d s s' /\ alloc_fails (malloc_count s) (malloc_count s') \/
     r = (0, Some (next_req s)) /\ next_req s' = next_req s + 1 /\
     dents s' = <[dent := set_requests d (Request (next_req s) fl None :: file_lock_requests d)]> (dents s) /\
     g_dent_file_locks_list s' = g_dent_file_locks_list s /\ dent_refs s' = dent_refs s)) s.
Proof.
  intros Ed Ht. unfold file_lock_add_request. apply wp_bind, wp_assert; [by rewrite bool_decide_false|].
  apply wp_bind, wp_malloc; intros s1 [E1 E2 E3 E4 E5 E6] Hal.
  - wp_steps. apply (wp_get_dfl dent d); [simpl; congruence|]. unfold put_dfl. wp_steps. simpl. split; [done|].
    right. rewrite E1, E4. done.
  - wp_steps. split; [done|]. left. split; [done|]. split; [|done]. split; try done. by rewrite E1, insert_id.
Qed.

Lemma set_or_add_body_spec fam dent d fl wait s :
  dents s !! dent = Some d -> dfl_ok fam d -> lock_arg_ok fl ->
  (type fl <> F_UNLCK -> mixes fl d = false -> family fl = fam) ->
  wp_or (set_or_add_body malloc_ok dent fl wait) (body_post fam dent d fl wait s) (incomplete_in d) s.
Proof.
  intros Ed Hd Ha Hfam. unfold set_or_add_body, body_post, finish. apply wp_or_bind, (wp_get_dfl dent d); [done|].
  destruct (bool_decide_reflect (type fl = F_UNLCK)) as [Ht|Ht]; simpl.
  { apply wp_or_bind, wp_ret, wp_or_then. eapply wp_or_mono; [apply (set_and_process fam dent d fl s); done|done|].
    intros r s' [(-> & F & N & A)|(-> & d' & Hg & F)]; simpl; apply wp_or_wp; wp_steps.
    - left. split; [done|]. split; [unfold refused; tauto|done].
    - right; left. eauto. }
  destruct (mixes fl d) eqn:Em.
  { apply wp_or_wp. wp_steps. left. split; [done|]. split; [unfold refused; tauto|]. split; [by apply frame_refl|done]. }
  apply wp_or_bind, (find_conflict_spec dent d); [done|apply Ha|done|]. apply wp_or_then.
  destruct (find_conflict (file_locks d) fl) as [c|] eqn:Ec; [destruct wait|].
  - apply wp_or_wp. eapply wp_mono; [by apply (add_request_spec dent d fl)|]. intros r s1 Hr. apply wp_or_wp.
    destruct Hr as [N1 [(-> & F & A)|(-> & E1 & E2 & E3 & E4)]]; simpl; [wp_steps|].
    { left. split; [done|]. split; [unfold refused; tauto|done]. }
    wp_steps. eapply wp_get_dfl; [rewrite E2; apply lookup_insert_eq|]. unfold put_dfl. wp_steps. simpl.
    right; right. split_and!; try done. rewrite E2. apply insert_insert_eq.
  - apply wp_or_wp. wp_steps. apply wp_or_wp. simpl. wp_steps. left. split; [done|].
    split; [|split; [by apply frame_refl|done]]. right; left. by rewrite Ec.
  - eapply wp_or_mono; [apply (set_and_process fam dent d fl s); (done || auto)|done|].
    intros r s1 Hr. apply wp_or_wp. destruct Hr as [(-> & F & N & A)|(-> & d' & Hg & F)]; simpl; [wp_steps|].
    { left. split; [done|]. split; [unfold refused; tauto|done]. }
    wp_steps. apply (wp_get_dfl dent d'); [by eapply frame_lookup|]. unfold put_dfl. wp_steps. simpl.
    right; left. split; [done|]. exists d'. split; [done|]. destruct F as [F ? ? ?]. split; try done. simpl.
    rewrite F. apply insert_insert_eq.
Qed.

(** The locks and requests of a file; none if there is no object. *)
Definition locks_of (s : fs_lock_state) (dent : Z) : dent_file_locks := default no_locks (dents s !! dent).

Definition same_locks (d d' : dent_file_locks) : Prop :=
  file_locks d' = file_locks d /\ file_lock_requests d' = file_lock_requests d.

(** The request [req] of [dent], if any, is the only incomplete one that was not
    there before. *)
Definition only_new_incomplete (dent : Z) (req : option Z) (s s' : fs_lock_state) : Prop :=
  forall x d' r, dents s' !! x = Some d' -> r ∈ file_lock_requests d' -> req_notify r = None ->
    (x = dent /\ req = Some (req_id r)) \/ exists d, dents s !! x = Some d /\ r ∈ file_lock_requests d.

(** What [file_lock_set_or_add_request] may do. *)
Definition set_or_add_post (dent : Z) (fl : libos_file_lock) (wait : bool) (s : fs_lock_state)
    (r : Z * option Z) (s' : fs_lock_state) : Prop :=
  st_ok s' /\ only_new_incomplete dent (snd r) s s' /\
  (forall x, x <> dent -> dents s' !! x = dents s !! x) /\
  let d := locks_of s dent in
  (snd r = None /\ refused d fl wait (malloc_count s) (malloc_count s') (fst r) /\ dents s' = dents s /\
     notified s' = notified s) \/
  (r = (0, None) /\
     exists fam d', lock_granted fam d fl (notified s) (malloc_count s) d' (notified s') (malloc_count s') /\
     same_locks d' (locks_of s' dent)) \/
  (r = (0, Some (next_req s)) /\ wait = true /\ type fl <> F_UNLCK /\ mixes fl d = false /\
     find_conflict (file_locks d) fl <> None /\ notified s' = notified s /\
     dents s' !! dent = Some (queued d fl (next_req s))).

Lemma only_new_refl dent s s' : dents s' = dents s -> only_new_incomplete dent None s s'.
Proof. intros E x d r Hx Hr _. right. rewrite E in Hx. eauto. Qed.

Lemma only_new_None dent s s' : only_new_incomplete dent None s s' -> incomplete s' -> incomplete s.
Proof.
  intros H (x & d' & Hx & r & Hr & En). destruct (H x d' r Hx Hr En) as [[_ ?]|(d & Hd & Hr')]; [done|].
  exists x, d. split; [done|]. by exists r.
Qed.

Lemma dfl_ok_no_locks fam : fam <> FILE_LOCK_UNKNOWN -> dfl_ok fam no_locks.
Proof.
  intros Hf. split; simpl; try done; try constructor. destruct fam; [done| |]; simpl.
  - split; [apply posix_list_nil|]. intros p q b t H. by apply holds_nil in H.
  - split; [split; constructor|]. by intros k k' ?%elem_of_nil.
Qed.

(** Flags survive grants. *)
Lemma grants_flags a b :
  rtc grant a b ->
  posix_used (fst (fst b)) = posix_used (fst (fst a)) /\ flock_used (fst (fst b)) = flock_used (fst (fst a)).
Proof.
  induction 1 as [|a b c Hg _ [-> ->]]; [done|]. by destruct Hg.
Qed.

Lemma lock_granted_flags fam d fl log n d' log' n' :
  lock_granted fam d fl log n d' log' n' -> posix_used d' = posix_used d /\ flock_used d' = flock_used d.
Proof. intros [_ _ _ _ _ (l & n1 & _ & _ & Hr)]. by apply grants_flags in Hr. Qed.

(** With no locks there is nothing to wait for. *)
Lemma blocked_empty d : all_blocked d -> file_locks d = [] -> file_lock_requests d = [].
Proof.
  intros Hb El. unfold all_blocked in Hb. rewrite El in Hb.
  destruct (file_lock_requests d) as [|r rs]; [done|]. by apply Forall_cons in Hb as [? _].
Qed.

Lemma mark_used_ok fam fl d : dfl_ok fam d -> family fl = fam -> dfl_ok fam (mark_used fl d) /\ used fam (mark_used fl d).
Proof.
  intros [Hl ? ? Hp Hf] E. split; [split; simpl; try done|].
  - intros ->. rewrite (Hp eq_refl), E. done.
  - intros ->. rewrite (Hf eq_refl), E. done.
  - destruct fam; [done| |]; simpl; rewrite E; apply orb_true_r.
Qed.

(** The object after a granted lock: removed if empty, stable otherwise. *)
Lemma finish_stable fam d fl log n d' log' n' :
  lock_granted fam d fl log n d' log' n' -> (type fl = F_UNLCK -> used fam d) ->
  (type fl <> F_UNLCK -> family fl = fam) -> dfl_empty (finish fl d') \/ dfl_stable (finish fl d').
Proof.
  intros Hg Hu Hf. pose proof (lock_granted_flags _ _ _ _ _ _ _ _ Hg) as [Ep Ef].
  destruct Hg as [_ _ Hok Hb _ _]. pose proof (blocked_empty d' Hb) as Hempty.
  assert (He : file_locks (finish fl d') = file_locks d' /\ file_lock_requests (finish fl d') = file_lock_requests d')
    by (unfold finish; by case_bool_decide).
  destruct He as [El Er]. unfold dfl_empty. rewrite El, Er.
  destruct (file_locks d') as [|k ks] eqn:Ed; [left; auto|]. right. exists fam.
  unfold all_blocked in *. rewrite El, Er. unfold finish.
  case_bool_decide as Ht.
  - split; [done|]. split; [|by rewrite Ed in Hb]. specialize (Hu Ht). unfold used in *.
    destruct fam; [done|by rewrite Ep|by rewrite Ef].
  - destruct (mark_used_ok fam fl d' Hok (Hf Ht)). rewrite Ed in Hb. done.
Qed.

(** What the operation finds: a fresh object, or a stable one. *)
Lemma found_family d fl :
  d = no_locks \/ dfl_stable d -> lock_arg_ok fl -> (type fl = F_UNLCK -> d <> no_locks) ->
  exists fam, dfl_ok fam d /\ (type fl = F_UNLCK -> used fam d) /\ all_blocked d /\
    (type fl <> F_UNLCK -> mixes fl d = false -> family fl = fam).
Proof.
  intros [->|(fam & Hok & Hu & Hb & _)] [Hf _] Hne.
  - exists (family fl). split; [by apply dfl_ok_no_locks|]. split; [intros Ht; by destruct (Hne Ht)|].
    split; [constructor|done].
  - exists fam. split; [done|]. split; [done|]. split; [done|]. intros _ Hm. unfold mixes, used in *.
    apply orb_false_iff in Hm as [H1 H2]. destruct fam, (family fl); try done; simpl in *; congruence.
Qed.

Lemma after_gc_ne dent d s x : x <> dent -> after_gc dent d s !! x = dents s !! x.
Proof. intros Hne. unfold after_gc. destruct (file_locks d); [by rewrite lookup_delete_ne|done]. Qed.

Lemma after_gc_same dent d s s' :
  dents s !! dent = Some d -> dfl_empty d \/ dfl_stable d -> dents s' = after_gc dent d s ->
  same_locks d (locks_of s' dent).
Proof.
  intros Ed Hd E. unfold same_locks, locks_of. rewrite E. unfold after_gc.
  destruct Hd as [[-> ->]|(? & _ & _ & _ & Hne)]; [by rewrite lookup_delete_eq|].
  destruct (file_locks d) eqn:El; [done|]. rewrite Ed. simpl. done.
Qed.

(** Completeness of the requests after a change of one object. *)
Lemma incomplete_after dent d' req s s1 :
  (forall x, x <> dent -> dents s1 !! x = dents s !! x) ->
  same_locks d' (locks_of s1 dent) ->
  (forall r, r ∈ file_lock_requests d' -> req_notify r = None ->
     req = Some (req_id r) \/ r ∈ file_lock_requests (locks_of s dent)) ->
  only_new_incomplete dent req s s1.
Proof.
  intros Hne [_ Er] Hr x dx r Hx Hin En. destruct (decide (x = dent)) as [->|Hd].
  - unfold locks_of in Er. rewrite Hx in Er. simpl in Er. rewrite Er in Hin.
    destruct (Hr r Hin En) as [?|Hold]; [by left|right]. unfold locks_of in Hold.
    destruct (dents s !! dent) as [d|]; [eauto|by apply elem_of_nil in Hold].
  - rewrite Hne in Hx by done. right. eauto.
Qed.

Lemma queued_stable fam d fl id :
  dfl_ok fam d -> all_blocked d -> lock_arg_ok fl -> family fl = fam -> type fl <> F_UNLCK ->
  find_conflict (file_locks d) fl <> None ->
  (forall r, r ∈ file_lock_requests d -> req_id r < id) -> dfl_stable (queued d fl id).
Proof.
  intros Hd Hb Ha Hf Ht Hc Hid. unfold queued.
  assert (Hd1 : dfl_ok fam (set_requests d (Request id fl None :: file_lock_requests d))).
  { destruct Hd as [? Hq Hnd ? ?]. split; simpl; try done.
    - by constructor.
    - apply NoDup_cons. split; [|done]. intros (r & E & Hr)%list_elem_of_fmap. specialize (Hid r Hr). lia. }
  destruct (mark_used_ok fam fl _ Hd1 Hf) as [Hd2 Hu]. exists fam. split; [done|]. split; [done|]. split.
  - unfold all_blocked. simpl. by constructor.
  - simpl. intros E. by rewrite E in Hc.
Qed.

(** The object after the body, before it is collected. *)
Lemma body_object fam dent d fl wait r s s1 :
  st_mid dent s -> dents s !! dent = Some d -> d = no_locks \/ dfl_stable d -> lock_arg_ok fl ->
  dfl_ok fam d -> (type fl = F_UNLCK -> used fam d) -> all_blocked d ->
  (type fl <> F_UNLCK -> mixes fl d = false -> family fl = fam) -> body_post fam dent d fl wait s r s1 ->
  exists d1, st_mid dent s1 /\ dents s1 = <[dent := d1]> (dents s) /\ (dfl_empty d1 \/ dfl_stable d1) /\
    forall r', r' ∈ file_lock_requests d1 -> snd r = Some (req_id r') \/ r' ∈ file_lock_requests d.
Proof.
  intros Hs Ed Hd Ha Hok Hu Hb Hf Hpost.
  assert (Hid : forall r, r ∈ file_lock_requests d -> req_id r < next_req s) by (intros r0 Hr; by eapply (sm_ids _ _ Hs dent d)).
  destruct Hpost as [(_ & Href & F & _)|[(-> & d' & Hg & F)|(-> & Hw & Ht & Hm & Hc & _ & E1 & E2 & E3 & E4)]].
  - exists d. split_and!; [by eapply st_mid_frame|by destruct F|destruct Hd as [->|?]; [by left|by right]|auto].
  - exists (finish fl d'). pose proof Hg as [_ Hmix _ _ Hsub _].
    assert (Er : file_lock_requests (finish fl d') = file_lock_requests d') by (unfold finish; by case_bool_decide).
    split_and!; [|by destruct F| |rewrite Er; auto].
    + eapply st_mid_frame; [done..|]. rewrite Er. intros r' Hr'. by apply Hid, Hsub.
    + eapply finish_stable; [done..|]. auto.
  - exists (queued d fl (next_req s)). split_and!; [|done| |].
    + eapply (st_mid_update dent d); [done..|lia|]. simpl. intros r' [->|Hr']%elem_of_cons; [simpl; lia|].
      specialize (Hid r' Hr'). lia.
    + right. eapply queued_stable; eauto.
    + simpl. intros r' [->|Hr']%elem_of_cons; auto.
Qed.

(** The operation once the object is found or created; [base] is the state before
    its creation. *)
Lemma set_or_add_found dent d fl wait base s :
  st_mid dent s -> dents s !! dent = Some d -> d = no_locks \/ dfl_stable d ->
  (type fl = F_UNLCK -> d <> no_locks) -> lock_arg_ok fl ->
  dents base = after_gc dent d s -> notified base = notified s -> next_req base = next_req s ->
  allocs_ok (malloc_count base) (malloc_count s) -> locks_of base dent = d ->
  wp_or (r ← set_or_add_body malloc_ok dent fl wait; dent_file_locks_gc dent;; mret r)
    (set_or_add_post dent fl wait base) (incomplete_in d) s.
Proof.
  intros Hs Ed Hd Hne Ha B1 B2 B3 Bm B4. destruct (found_family d fl Hd Ha Hne) as (fam & Hok & Hu & Hb & Hf).
  apply wp_or_then. eapply wp_or_mono; [by apply (set_or_add_body_spec fam dent d fl wait s)|done|].
  intros r s1 Hpost. apply wp_or_wp, wp_bind.
  destruct (body_object fam dent d fl wait r s s1) as (d1 & Hs1 & E1 & Hd1 & Hinc); [done..|].
  eapply wp_mono; [apply (gc_spec dent d1); [done|by rewrite E1, lookup_insert_eq|done]|].
  intros _ s2 (Hs2 & E2 & N2 & M2 & X2). wp_steps.
  assert (Hsame : same_locks d1 (locks_of s2 dent))
    by (eapply after_gc_same; [|done..]; by rewrite E1, lookup_insert_eq).
  assert (Hothers : forall x, x <> dent -> dents s2 !! x = dents base !! x).
  { intros x Hx. by rewrite E2, B1, !after_gc_ne, E1, lookup_insert_ne by done. }
  split; [done|]. split; [eapply (incomplete_after dent d1); [done..|rewrite B4; auto]|]. split; [done|].
  assert (Heq : forall dx, dents s1 = <[dent := dx]> (dents s) -> dx = d1).
  { intros dx E. rewrite E in E1. apply (f_equal (.!! dent)) in E1. rewrite !lookup_insert_eq in E1. congruence. }
  cbv zeta. rewrite B2, B3, B4, N2, M2.
  destruct Hpost as [(Hr & Href & [F _ _ _] & N)|[(-> & d' & Hg & [F _ _ _])|(-> & Hw & Ht & Hm & Hc & N & E & _)]].
  - left. split; [done|]. split; [by eapply refused_later; [apply Bm|]|]. split; [|done].
    rewrite <- (Heq d F) in *. rewrite E2, B1. unfold after_gc. by rewrite F, insert_id.
  - right; left. split; [done|]. exists fam, d'. split; [by eapply lock_granted_later|]. rewrite <- (Heq _ F) in *.
    unfold same_locks, finish in *. by case_bool_decide.
  - right; right. split_and!; try done. rewrite <- (Heq _ E) in *. rewrite E2. unfold after_gc.
    destruct (file_locks (queued d fl (next_req s))) eqn:El; [|by rewrite E, lookup_insert_eq].
    simpl in El. by rewrite El in Hc.
Qed.

Lemma set_list_nil_unlck fl : type fl = F_UNLCK -> set_list [] fl = Some [].
Proof.
  intros Ht. unfold set_list, posix_set_list, flock_set_list. simpl. rewrite (bool_decide_true (type fl = _)) by done.
  by destruct (bool_decide (family fl = _)).
Qed.

Lemma set_or_add_wp dent fl wait s :
  st_ok s -> lock_arg_ok fl ->
  wp_or (file_lock_set_or_add_request malloc_ok dent fl wait) (set_or_add_post dent fl wait s)
    (incomplete_in (locks_of s dent)) s.
Proof.
  intros Hs Ha. unfold file_lock_set_or_add_request. apply wp_or_bind.
  eapply wp_mono; [by apply find_dent_spec|]. intros [ret ex] s1 Hfind.
  destruct (dents s !! dent) as [d|] eqn:Ed.
  - assert (El : locks_of s dent = d) by (unfold locks_of; by rewrite Ed). rewrite El.
    destruct Hfind as [[= -> ->] ->]. simpl. pose proof Hs as [Hd _ _ _]. destruct (Hd dent d Ed) as [Hst _].
    apply (set_or_add_found dent d); try done.
    + by apply st_ok_mid.
    + by right.
    + intros _ ->. by destruct Hst as (? & _ & _ & _ & ?).
    + unfold after_gc. destruct Hst as (? & _ & _ & _ & ?). by destruct (file_locks d).
    + apply allocs_ok_refl.
  - assert (El : locks_of s dent = no_locks) by (unfold locks_of; by rewrite Ed).
    destruct Hfind as [([= -> ->] & Hc & ->)|[([= -> ->] & Hc & M1 & Hs1 & A1)|([= -> ->] & Hc & E1 & Hs1 & N1 & X1 & A1)]];
      simpl.
    + apply negb_false_iff in Hc. rewrite Hc. apply wp_or_wp, wp_bind, wp_assert; [done|]. wp_steps.
      apply bool_decide_eq_true in Hc.
      split; [done|]. split; [by apply only_new_refl|]. split; [done|].
      right; left. split; [done|]. rewrite El. exists (family fl), no_locks. split; [|done].
      split; try done; [by apply dfl_ok_no_locks, Ha|constructor|].
      exists [], (malloc_count s). split; [by apply set_list_nil_unlck|]. split; [apply allocs_ok_refl|done].
    + apply wp_or_wp. wp_steps. destruct M1 as [E1 _ _ _ N1 _]. split; [done|]. split; [by apply only_new_refl|].
      split; [by rewrite E1|]. left. split; [done|]. split; [right; by right|done].
    + rewrite El. apply (set_or_add_found dent no_locks); try done.
      * by rewrite E1, lookup_insert_eq.
      * by left.
      * apply negb_true_iff, bool_decide_eq_false in Hc. done.
      * unfold after_gc. simpl. by rewrite E1, delete_insert_id.
Qed.

(** C19: [file_lock_set_or_add_request] keeps the invariant, in which locks on a
    file are compatible and every waiting request is blocked by a lock that is
    held.  It refuses the lock and changes nothing, because the file is used with
    locks of the other kind, because a lock is in the way and it may not wait, or
    because one of its allocations fails; or it sets the lock, if no other lock is
    in its way, and grants requests that became possible until there are none,
    dropping one only if an allocation for it fails; or it queues a request, only
    if it may wait and another lock is in the way.  It returns unless a request of
    the file is not complete. *)
Theorem file_lock_set_or_add_correct dent fl wait s :
  st_ok s -> lock_arg_ok fl ->
  wp_or (file_lock_set_or_add_request malloc_ok dent fl wait) (set_or_add_post dent fl wait s)
    (incomplete_in (locks_of s dent)) s.
Proof. apply set_or_add_wp. Qed.
End ops.
