(* ===== verification/FsLockOps.v ===== *)
(** * The entry points of the file-lock component

    What [file_lock_set], its IPC variant, [file_lock_get] and
    [file_lock_clear_pid] do, on top of [FsLockSpec]. *)

From S2P Require Import Prelude FsLock FsLockList FsLockSpec.

Section ops.
Context (malloc_ok : nat -> bool).

(** ** Completing a request *)

Definition complete_req (id : Z) (n : notify) (r : file_lock_request) : file_lock_request :=
  if req_id r =? id then Request id (req_lock r) (Some n) else r.

Lemma complete_req_same id n r :
  req_id (complete_req id n r) = req_id r /\ req_lock (complete_req id n r) = req_lock r.
Proof. unfold complete_req. destruct (Z.eqb_spec (req_id r) id); simpl; auto. Qed.

Definition complete (id : Z) (n : notify) (d : dent_file_locks) : dent_file_locks :=
  set_requests d (complete_req id n <$> file_lock_requests d).

Lemma complete_stable id n d : dfl_stable d -> dfl_stable (complete id n d).
Proof.
  intros (fam & [Hl Hq Hnd Hp Hf] & Hu & Hb & Hne). exists fam. split; [|split; [done|split; [|done]]].
  - split; try done; simpl.
    + apply Forall_fmap. eapply Forall_impl; [exact Hq|]. intros r Hr. simpl.
      by destruct (complete_req_same id n r) as [_ ->].
    + rewrite <- list_fmap_compose.
      rewrite (list_fmap_ext _ req_id); [done|]. intros i r _. simpl. apply complete_req_same.
  - unfold all_blocked in *. simpl. apply Forall_fmap. eapply Forall_impl; [exact Hb|]. intros r Hr. simpl.
    by destruct (complete_req_same id n r) as [_ ->].
Qed.

(** A complete request for [fl] waits. *)
Definition waits (dent : Z) (fl : libos_file_lock) (n : notify) (s : fs_lock_state) : Prop :=
  Exists (fun r => req_lock r = fl /\ req_notify r = Some n) (file_lock_requests (locks_of s dent)).

Lemma set_notify_spec dent id n d s :
  st_ok s -> dents s !! dent = Some d ->
  wp (set_notify dent id n) (fun _ s' => st_ok s' /\ notified s' = notified s /\
    dents s' = <[dent := complete id n d]> (dents s)) s.
Proof.
  intros Hs Ed. unfold set_notify. apply wp_bind, (wp_get_dfl dent d); [done|].
  unfold put_dfl. wp_steps. simpl. split; [|done]. apply (st_mid_ok dent).
  - eapply (st_mid_update dent d (complete id n d) s); try done; [by apply st_ok_mid|].
    simpl. intros r (r0 & -> & Hr0)%list_elem_of_fmap. destruct (complete_req_same id n r0) as [-> _].
    by eapply (sm_ids dent s); [apply st_ok_mid|..].
  - simpl. intros d'. rewrite lookup_insert_eq. intros [= <-]. apply complete_stable.
    by destruct (st_dents _ Hs dent d Ed).
Qed.

(** Completing the request just added. *)
Lemma complete_waits dent fl wait n id s s1 Q :
  set_or_add_post malloc_ok dent fl wait s (0, Some id) s1 ->
  (forall s2, st_ok s2 -> waits dent fl n s2 -> notified s2 = notified s -> (incomplete s2 -> incomplete s) -> Q () s2) ->
  wp (set_notify dent id n) Q s1.
Proof.
  intros (Hs1 & Hinc & _ & Hcase) HQ.
  destruct Hcase as [(? & _)|[(? & _)|([= ->] & Hw & Ht & _ & Hc & N & Ed)]]; [done..|].
  eapply wp_mono; [by eapply (set_notify_spec dent _ n)|]. intros [] s2 (? & N2 & E2). apply HQ; [done| |congruence|].
  - unfold waits, locks_of. rewrite E2, lookup_insert_eq. simpl. left. unfold complete_req. simpl. by rewrite Z.eqb_refl.
  - intros (x & d & Hx & r & Hr & En).
    assert (Hold : exists d1, dents s1 !! x = Some d1 /\ r ∈ file_lock_requests d1 /\
              (x = dent -> req_id r <> next_req s)).
    { rewrite E2 in Hx. apply lookup_insert_Some in Hx as [[<- <-]|[Hne Hx]]; [|by exists d].
      eexists. split; [exact Ed|]. apply list_elem_of_fmap in Hr as (r0 & -> & Hr0). unfold complete_req in *.
      by destruct (Z.eqb_spec (req_id r0) (next_req s)). }
    destruct Hold as (d1 & Hx1 & Hr1 & Hid). destruct (Hinc x d1 r Hx1 Hr1 En) as [[-> [= E]]|(d0 & ? & ?)].
    + by destruct (Hid eq_refl).
    + exists x, d0. split; [done|]. by exists r.
Qed.

Lemma incomplete_locks_of s dent : incomplete_in (locks_of s dent) -> incomplete s.
Proof.
  unfold locks_of. destruct (dents s !! dent) as [d|] eqn:E; simpl; [by exists dent, d|].
  by intros (r & ?%elem_of_nil & _).
Qed.

(** ** Setting a lock *)

(** The result of [file_lock_set] in the leader when the event was [ev]. *)
Definition set_leader_post (dent : Z) (fl : libos_file_lock) (wait : bool) (ev : Z + Z) (s : fs_lock_state)
    (r : Z * option Z) (s' : fs_lock_state) : Prop :=
  st_ok s' /\
  match r with
  | (ret, Some ev') => ret = 0 /\ ev = inr ev' /\ wait = true /\ waits dent fl (NotifyLocal ev') s' /\
      find_conflict (file_locks (locks_of s dent)) fl <> None /\ (incomplete s' -> incomplete s)
  | (ret, None) => set_or_add_post malloc_ok dent fl wait s (ret, None) s' \/
      exists id, ev = inl ret /\ set_or_add_post malloc_ok dent fl wait s (0, Some id) s'
  end.

(** [file_lock_set] in the leader returns or starts to wait, with the
    invariant restored: it waits exactly if a request with its event is queued
    because of a lock in its way.  If no event could be created, the request stays
    in the queue, incomplete. *)
Theorem file_lock_set_leader_correct dent fl wait ev s :
  st_ok s -> lock_arg_ok fl -> valid_owner fl = true ->
  wp_or (file_lock_set_leader malloc_ok dent fl wait ev) (set_leader_post dent fl wait ev s) (incomplete s) s.
Proof.
  intros Hs Ha Hv. unfold file_lock_set_leader. apply wp_or_bind, wp_assert; [done|]. apply wp_or_then.
  eapply wp_or_mono; [by apply set_or_add_wp|apply incomplete_locks_of|]. intros [ret req] s1 Hpost. apply wp_or_wp.
  pose proof Hpost as (Hs1 & _ & _ & Hcase). destruct req as [id|].
  - destruct Hcase as [(? & _)|[(? & _)|([= -> ->] & -> & _ & _ & Hc & _)]]; [done..|]. simpl.
    apply wp_bind, wp_assert; [done|]. destruct ev as [err|ev]; [wp_steps; split; [done|]; right; eauto|].
    apply wp_bind. eapply (complete_waits dent fl true _ _ s); [exact Hpost|].
    intros s2 ? ? _ ?. wp_steps. split; [done|]. split_and!; done.
  - destruct (ret <? 0) eqn:Er; wp_steps; (split; [done|]); left; [done|].
    destruct Hcase as [(_ & Href & _)|[([= ->] & _)|([= ] & _)]]; [|done].
    apply refused_neg in Href. apply Z.ltb_ge in Er. simpl in Href. lia.
Qed.

(** The first step of [file_lock_set_from_ipc] answers the request or queues it,
    to be completed by the second one. *)
Lemma set_from_ipc_1_wp lookup fl wait vmid seq s :
  st_ok s -> lock_arg_ok fl -> valid_owner fl = true ->
  wp_or (file_lock_set_from_ipc_1 malloc_ok lookup fl wait vmid seq) (fun req s' => st_ok s' /\
    match req with
    | None => match lookup with
              | inl err => dents s' = dents s /\ notified s' = notified s ++ [(NotifyIpc vmid seq, err)]
              | inr dent => exists ret s1, set_or_add_post malloc_ok dent fl wait s (ret, None) s1 /\
                  dents s' = dents s1 /\ notified s' = notified s1 ++ [(NotifyIpc vmid seq, ret)]
              end
    | Some (dent, id) => lookup = inr dent /\ wait = true /\ set_or_add_post malloc_ok dent fl wait s (0, Some id) s'
    end) (incomplete s) s.
Proof.
  intros Hs Ha Hv. unfold file_lock_set_from_ipc_1, send_response. apply wp_or_bind, wp_assert; [done|].
  destruct lookup as [err|dent]; [apply wp_or_wp; wp_steps; by destruct Hs|].
  apply wp_or_then. eapply wp_or_mono; [by apply set_or_add_wp|apply incomplete_locks_of|].
  intros [ret req] s1 Hpost. apply wp_or_wp. pose proof Hpost as (Hs1 & _ & _ & Hcase). destruct req as [id|].
  - destruct Hcase as [(? & _)|[(? & _)|([= -> ->] & -> & _)]]; [done..|].
    apply wp_bind, wp_assert; [done|]. by wp_steps.
  - wp_steps. split; [by destruct Hs1|]. by exists ret, s1.
Qed.

(** A lock request that came over IPC is answered, or waits to be answered:
    the response is sent at once if the lock is set or refused; otherwise the
    request is queued with the sender and the sequence number of the message. *)
Theorem file_lock_set_from_ipc_correct dent fl wait vmid seq s :
  st_ok s -> lock_arg_ok fl -> valid_owner fl = true ->
  wp_or (file_lock_set_from_ipc malloc_ok (inr dent) fl wait vmid seq) (fun _ s' => st_ok s' /\
    ((exists ret s1, set_or_add_post malloc_ok dent fl wait s (ret, None) s1 /\ dents s' = dents s1 /\
        notified s' = notified s1 ++ [(NotifyIpc vmid seq, ret)]) \/
     (wait = true /\ waits dent fl (NotifyIpc vmid seq) s' /\ notified s' = notified s /\
        (incomplete s' -> incomplete s)))) (incomplete s) s.
Proof.
  intros Hs Ha Hv. unfold file_lock_set_from_ipc. apply wp_or_then.
  eapply wp_or_mono; [by apply set_from_ipc_1_wp|done|]. intros [[dent' id]|] s1 [Hs1 Hpost]; apply wp_or_wp.
  - destruct Hpost as ([= <-] & -> & Hpost). eapply (complete_waits dent fl true _ _ s); [exact Hpost|].
    intros s2 ? ? ? ?. split; [done|]. by right.
  - wp_steps. split; [done|]. by left.
Qed.

(** ** Asking for a conflicting lock *)

Lemma get_wp dent fl out s :
  st_ok s -> lock_arg_ok fl -> valid_owner fl = true -> type fl <> F_UNLCK ->
  wp (file_lock_get malloc_ok dent fl out) (fun res s' => st_ok s' /\ dents s' = dents s /\
    let l := file_locks (locks_of s dent) in
    (res ∈ l /\ conflicts fl res = true /\ type res <> F_UNLCK) \/
    (type res = F_UNLCK /\ forall k, k ∈ l -> conflicts fl k = false)) s.
Proof.
  intros Hs Ha Hv Ht. unfold file_lock_get, locks_of. apply wp_bind, wp_assert; [done|].
  apply wp_bind, wp_assert; [by rewrite bool_decide_false|]. apply wp_bind.
  eapply wp_mono; [by apply find_dent_spec|]. intros [ret ex] s1 Hfind.
  destruct (dents s !! dent) as [d|] eqn:Ed.
  - destruct Hfind as [[= -> ->] ->]. destruct (st_dents _ Hs dent d Ed) as [Hst _].
    apply wp_bind, (find_conflict_spec dent d); [done|apply Ha|done|]. apply wp_bind.
    eapply wp_mono; [apply (gc_spec dent d); [by apply st_ok_mid|done|by right]|].
    intros _ s2 (Hs2 & E2 & _). wp_steps. split; [done|]. split.
    { rewrite E2. unfold after_gc. destruct Hst as (? & _ & _ & _ & Hne). by destruct (file_locks d). }
    simpl. destruct (find_conflict (file_locks d) fl) as [c|] eqn:Ec.
    + left. apply head_Some_elem_of, list_elem_of_filter in Ec as [Hc Hin]. split; [done|].
      split; [by apply Is_true_true|]. destruct Hst as (fam & [Hl _ _ _ _] & _).
      destruct fam; [done|destruct Hl as [[_ Hok] _]..]; rewrite Forall_forall in Hok; by destruct (Hok c Hin).
    + right. split; [done|]. by apply find_conflict_None.
  - destruct Hfind as [([= -> ->] & _ & ->)|[(_ & ? & _)|(_ & ? & _)]]; [|done..].
    wp_steps. split; [done|]. split; [done|]. right. split; [done|]. by intros k ?%elem_of_nil.
Qed.

(** [file_lock_get] changes nothing and reports a held lock that is in the way
    of the given one, or [F_UNLCK] exactly if there is none. *)
Theorem file_lock_get_correct dent fl out s :
  st_ok s -> lock_arg_ok fl -> valid_owner fl = true -> type fl <> F_UNLCK ->
  wp (file_lock_get malloc_ok dent fl out) (fun res s' => st_ok s' /\ dents s' = dents s /\
    let l := file_locks (locks_of s dent) in
    (res ∈ l /\ conflicts fl res = true /\ type res <> F_UNLCK) \/
    (type res = F_UNLCK /\ forall k, k ∈ l -> conflicts fl k = false)) s.
Proof. by apply get_wp. Qed.

(** ** Requests that were not completed *)

Lemma grant_uninitialised_aborts dent d r rs changed s :
  dents s !! dent = Some d -> file_lock_requests d = r :: rs -> req_notify r = None ->
  lock_arg_ok (req_lock r) -> type (req_lock r) <> F_UNLCK ->
  find_conflict (file_locks d) (req_lock r) = None ->
  (exists l, set_list (file_locks d) (req_lock r) = Some l) ->
  process_pass malloc_ok dent (r :: rs) changed s = None.
Proof.
  intros Ed Er En [Hu _] Ht Hc [l El]. cbn [process_pass].
  eapply (abort_bind _ _ (fun c s' => c = None /\ s' = s)).
  { apply (find_conflict_spec dent d); try done. }
  intros c s' [-> ->]. eapply abort_bind; [by eapply lock_set_spec|].
  intros ret s1 [_ Hs1]. assert (exists d1, dents s1 !! dent = Some d1) as [d1 Ed1].
  { destruct Hs1 as [(_ & F & _)|(_ & F & _)]; eexists; by eapply frame_lookup. }
  eapply (abort_bind _ _ (fun _ _ => True)); [by apply (wp_get_dfl dent d1)|]. intros d2 s2 _.
  eapply (abort_bind _ _ (fun _ _ => True)); [unfold put_dfl; by wp_steps|]. intros _ s3 _. by rewrite En.
Qed.

Lemma lock_set_success dent d fl l s :
  (forall n, malloc_ok n = true) -> dents s !! dent = Some d -> family fl <> FILE_LOCK_UNKNOWN ->
  set_list (file_locks d) fl = Some l ->
  wp (lock_set malloc_ok dent fl) (fun ret s' => ret = 0 /\ dents s' !! dent = Some (set_file_locks d l)) s.
Proof.
  intros Hm Ed Hu El. unfold lock_set, set_list in *.
  assert (Hnew : forall s0 Q, (forall s', dents s' = dents s0 -> Q true s') -> wp (malloc malloc_ok) Q s0).
  { intros s0 Q HQ. unfold malloc. wp_steps. rewrite Hm. by apply HQ. }
  assert (Hnew' : forall Q, (forall s', dents s' = dents s -> Q true s') ->
    wp (if bool_decide (type fl = F_UNLCK) then mret true else malloc malloc_ok) Q s).
  { intros Q HQ. destruct (bool_decide (type fl = F_UNLCK)); [wp_steps|apply Hnew]; auto. }
  destruct (bool_decide_reflect (family fl = FILE_LOCK_POSIX)) as [Hf|Hf].
  - unfold _posix_lock_set. apply wp_bind, wp_assert; [by apply bool_decide_true|].
    apply wp_bind, Hnew'. intros s1 E1. apply wp_bind, Hnew. intros s2 E2.
    apply wp_bind, (wp_get_dfl dent d); [congruence|]. rewrite El. unfold put_dfl. wp_steps. simpl.
    by rewrite lookup_insert_eq.
  - injection El as <-. unfold _flock_lock_set.
    apply wp_bind, wp_assert; [apply bool_decide_true; by destruct (family fl)|].
    apply wp_bind, Hnew'. intros s1 E1. apply wp_bind, (wp_get_dfl dent d); [congruence|].
    unfold put_dfl. wp_steps. simpl. by rewrite lookup_insert_eq.
Qed.

(** A request must be completed before [g_fs_lock_lock] is released: if the
    holder of the lock in its way releases it while [notify] is still
    uninitialised, the processing of the request goes through that memory.
    [file_lock_set_from_ipc] releases [g_fs_lock_lock] in this state, and so does
    [file_lock_set] when no event could be created. *)
Theorem unlock_with_incomplete_request_aborts dent d fl wait r rs l s :
  st_ok s -> dents s !! dent = Some d -> file_lock_requests d = r :: rs -> req_notify r = None ->
  lock_arg_ok fl -> type fl = F_UNLCK -> (forall n, malloc_ok n = true) ->
  set_list (file_locks d) fl = Some l -> find_conflict l (req_lock r) = None ->
  file_lock_set_or_add_request malloc_ok dent fl wait s = None.
Proof.
  intros Hs Ed Er En Ha Ht Hm El Hc. destruct (st_dents _ Hs dent d Ed) as [(fam & Hd & _) _]. unfold file_lock_set_or_add_request.
  eapply abort_bind; [by apply find_dent_spec|]. intros [ret ex] s1 Hf. rewrite Ed in Hf.
  destruct Hf as [[= -> ->] ->]. simpl.
  apply abort_first. unfold set_or_add_body.
  eapply (abort_bind _ _ (fun d' s' => d' = d /\ s' = s)); [by apply (wp_get_dfl dent d)|].
  intros ? ? [-> ->]. rewrite bool_decide_true by done. simpl.
  eapply (abort_bind _ _ (fun c s' => c = None /\ s' = s)); [by wp_steps|]. intros ? ? [-> ->].
  apply abort_first. eapply abort_bind; [apply (lock_set_success dent d fl l); try done; apply Ha|].
  intros ret s1 [-> Ed1]. simpl. apply abort_first. unfold file_lock_process_requests.
  eapply (abort_bind _ _ (fun d' s' => d' = set_file_locks d l /\ s' = s1)); [by eapply wp_get_dfl|].
  intros ? ? [-> ->]. cbn [process_loop].
  eapply (abort_bind _ _ (fun d' s' => d' = set_file_locks d l /\ s' = s1)); [by eapply wp_get_dfl|].
  intros ? ? [-> ->]. apply abort_first. simpl. rewrite Er.
  pose proof (do_reqs _ _ Hd) as Hq. rewrite Er in Hq. apply Forall_cons in Hq as [(Har & Hfr & Htr) _].
  destruct (set_list_arg fam d fl) as (l1 & El1 & Hl1); [done|done|by rewrite Ht|by rewrite Ht|].
  rewrite El in El1. injection El1 as <-.
  eapply grant_uninitialised_aborts; [exact Ed1|done..|].
  destruct (set_list_ok fam l (req_lock r)) as (l2 & ? & _); [done..|by right|]. by exists l2.
Qed.

(** ** Removing the locks of a process *)

Definition cleared_locks (p : Z) (l : list libos_file_lock) : list libos_file_lock :=
  filter (fun k => negb (is_posix_of p k)) l.
Definition cleared_requests (p : Z) (l : list file_lock_request) : list file_lock_request :=
  filter (fun r => negb (is_posix_of p (req_lock r))) l.
Definition cleared (p : Z) (d : dent_file_locks) : dent_file_locks :=
  set_requests (set_file_locks d (cleared_locks p (file_locks d))) (cleared_requests p (file_lock_requests d)).

(** The process has neither locks nor requests. *)
Definition free_of (p : Z) (d : dent_file_locks) : Prop :=
  Forall (fun k => is_posix_of p k = false) (file_locks d) /\
  Forall (fun r => is_posix_of p (req_lock r) = false) (file_lock_requests d).

Lemma cleared_free p d : free_of p (cleared p d).
Proof.
  split; apply Forall_forall; intros x [Hx _]%list_elem_of_filter; by apply Is_true_true, negb_true_iff in Hx.
Qed.

Lemma locks_ok_cleared fam p l : locks_ok fam l -> locks_ok fam (cleared_locks p l).
Proof.
  assert (Hsub : cleared_locks p l ⊆ l) by (intros x [_ ?]%list_elem_of_filter; done).
  destruct fam; simpl; [done| |].
  - intros [[Hs Hok] Hex]. split; [split|].
    + clear -Hs. induction Hs as [|a l Hs IH Ha]; [constructor|]. unfold cleared_locks. rewrite filter_cons.
      case_decide; [|done]. constructor; [done|]. by apply list_Forall_filter.
    + by apply list_Forall_filter.
    + intros q q' b t (k & Hk & ?)%holds_elem (k' & Hk' & ?)%holds_elem.
      eapply (Hex q q' b t); apply holds_elem; eauto.
  - intros [[Hnd Hok] Hex]. split; [split; [by apply NoDup_fmap_filter|by apply list_Forall_filter]|].
    intros k k' Hk Hk'. apply Hex; auto.
Qed.

Lemma cleared_ok fam p d : dfl_ok fam d -> dfl_ok fam (cleared p d).
Proof.
  intros [Hl Hq Hnd ? ?]. split; simpl; try done.
  - by apply locks_ok_cleared.
  - by apply list_Forall_filter.
  - by apply NoDup_fmap_filter.
Qed.

(** A granted request of another process brings no lock of [p]. *)
Lemma set_list_free fam p l fl l' :
  locks_ok fam l -> lock_arg_ok fl -> family fl = fam -> is_posix_of p fl = false ->
  set_list l fl = Some l' -> locks_ok fam l' ->
  Forall (fun k => is_posix_of p k = false) l -> Forall (fun k => is_posix_of p k = false) l'.
Proof.
  intros Hl [_ Hr] Hf Hp Hset Hl' Hfree. apply Forall_forall. intros k Hk. unfold is_posix_of in *.
  destruct fam; [done| |].
  - destruct Hl as [Hl _], Hl' as [Hl' _]. unfold set_list in Hset. rewrite bool_decide_true in Hset by done.
    destruct (posix_set_list_spec l fl Hl (Hr Hf)) as (l1 & E & _ & Hh). rewrite Hset in E. injection E as <-.
    rewrite (bool_decide_true (family fl = _)) in Hp by done. simpl in Hp. apply Z.eqb_neq in Hp.
    pose proof Hl' as [_ Hok']. rewrite Forall_forall in Hok'. destruct (Hok' k Hk) as [_ _ ? _].
    destruct (Z.eqb_spec (pid k) p) as [Ek|]; [|apply andb_false_r]. exfalso.
    assert (Hholds : holds l' p (start k) (type k)) by (apply holds_elem; exists k; split_and!; (done || lia)).
    apply Hh in Hholds as [[[? _] _]|[_ (k0 & Hk0 & Ep & _)%holds_elem]]; [done|].
    rewrite Forall_forall in Hfree. specialize (Hfree k0 Hk0). pose proof Hl as [_ Hok]. rewrite Forall_forall in Hok.
    rewrite bool_decide_true in Hfree by (by destruct (Hok k0 Hk0)). simpl in Hfree. by apply Z.eqb_neq in Hfree.
  - destruct Hl' as [[_ Hok] _]. rewrite Forall_forall in Hok. destruct (Hok k Hk) as [E _].
    by rewrite bool_decide_false by congruence.
Qed.

Lemma grants_free fam p a b :
  rtc (grant malloc_ok) a b -> dfl_ok fam (fst (fst a)) -> free_of p (fst (fst a)) -> free_of p (fst (fst b)).
Proof.
  induction 1 as [|a b c Hg _ IH]; [done|]. intros Hd [Hl Hq].
  pose proof (grant_dfl_ok malloc_ok fam _ _ Hg Hd) as Hd2. apply IH; [done|]. clear IH.
  destruct Hg as [d log n n' r nt l Hr Hc _ Hs _|d log n n' r nt Hr Hc _ _]; simpl in *.
  - split; [|by apply list_Forall_filter]. simpl. pose proof Hd as [? Hqs _ _ _]. rewrite Forall_forall in Hqs, Hq.
    destruct (Hqs r Hr) as (? & ? & _). eapply (set_list_free fam p (file_locks d)); try done; [by apply Hq|apply Hd2].
  - split; [done|by apply list_Forall_filter].
Qed.

(** The locks of [p] are gone, and then requests of others may have been granted. *)
Definition clear_rel (p : Z) (d d' : dent_file_locks) : Prop :=
  free_of p d' /\
  exists d1 log log' n n', rtc (grant malloc_ok) (cleared p d, log, n) (d1, log', n') /\ same_locks d1 d'.

Lemma clear_rel_none p : clear_rel p no_locks no_locks.
Proof. split; [split; constructor|]. by exists no_locks, [], [], 0%nat, 0%nat. Qed.

(** A request of process [p] that is not to be answered over IPC. *)
Definition local_request (p : Z) (s : fs_lock_state) : Prop :=
  exists x d r, dents s !! x = Some d /\ r ∈ file_lock_requests d /\ is_posix_of p (req_lock r) = true /\
    forall vmid seq, req_notify r <> Some (NotifyIpc vmid seq).

Lemma free_same p d d' : same_locks d d' -> free_of p d -> free_of p d'.
Proof. unfold free_of. by intros [-> ->]. Qed.

Lemma cleared_unchanged p d :
  existsb (is_posix_of p) (file_locks d) = false -> cleared_locks p (file_locks d) = file_locks d.
Proof.
  intros He. apply list_filter_all, Forall_forall. intros k Hk. apply Is_true_true, negb_true_iff.
  apply not_true_iff_false. intros Hp. assert (existsb (is_posix_of p) (file_locks d) = true); [|congruence].
  apply existsb_exists. exists k. split; [by apply list_elem_of_In|done].
Qed.

Lemma stable_or_empty fam d : dfl_ok fam d -> used fam d -> all_blocked d -> dfl_empty d \/ dfl_stable d.
Proof.
  intros Hd Hu Hb. pose proof (blocked_empty d Hb). destruct (file_locks d) eqn:E; [by left; split; auto|].
  right. exists fam. split_and!; try done. by rewrite E.
Qed.

Definition clear_post (dent p : Z) (s s' : fs_lock_state) : Prop :=
  st_ok s' /\ (forall x, x <> dent -> dents s' !! x = dents s !! x) /\
  file_lock_requests (locks_of s' dent) ⊆ file_lock_requests (locks_of s dent) /\
  clear_rel p (locks_of s dent) (locks_of s' dent).

(** The requests afterwards were there before. *)
Lemma clear_post_old dent p s s' x d r :
  clear_post dent p s s' -> dents s' !! x = Some d -> r ∈ file_lock_requests d ->
  exists d0, dents s !! x = Some d0 /\ r ∈ file_lock_requests d0.
Proof.
  intros (_ & Hoth & Hsub & _) Hx Hr. destruct (decide (x = dent)) as [->|]; [|rewrite Hoth in Hx by done; eauto].
  unfold locks_of in Hsub. rewrite Hx in Hsub. simpl in Hsub. apply Hsub in Hr.
  destruct (dents s !! dent) as [d0|]; [eauto|by apply elem_of_nil in Hr].
Qed.

Lemma clear_post_abort dent p s s' :
  clear_post dent p s s' -> incomplete s' \/ local_request p s' -> incomplete s \/ local_request p s.
Proof.
  intros Hpost [(x & d & Hx & r & Hr & En)|(x & d & r & Hx & Hr & Hp & Hn)];
    destruct (clear_post_old dent p s s' x d r Hpost Hx Hr) as (d0 & Hx0 & Hr0); [left|right].
  - exists x, d0. split; [done|]. by exists r.
  - by exists x, d0, r.
Qed.

(** The object after the locks of [p] are removed from it. *)
Lemma clear_changed_spec dent p d s s1 :
  st_ok s -> dents s !! dent = Some d -> frame dent (cleared p d) s s1 ->
  wp_or (file_lock_process_requests malloc_ok dent;; dent_file_locks_gc dent) (fun _ => clear_post dent p s)
    (incomplete s) s1.
Proof.
  intros Hs Ed F1. destruct (st_dents _ Hs dent d Ed) as [(fam & Hd & Hu & Hb & Hne) Hids].
  assert (Hcl : file_lock_requests (cleared p d) ⊆ file_lock_requests d) by (intros r [_ ?]%list_elem_of_filter; done).
  pose proof (cleared_ok fam p d Hd) as Hd1. apply wp_or_then.
  eapply wp_or_mono; [apply (process_requests_spec malloc_ok fam dent (cleared p d)); [by eapply frame_lookup|done]|..].
  { intros Hin. exists dent, d. split; [done|]. by eapply incomplete_sub. }
  intros _ s2 (d2 & F2 & Hd2 & Hb2 & Hsub & Hr). pose proof (frame_trans _ _ _ _ _ _ F1 F2) as F. apply wp_or_wp.
  assert (Hst : dfl_empty d2 \/ dfl_stable d2).
  { apply (stable_or_empty fam); try done. apply grants_flags in Hr as [E1 E2]. simpl in E1, E2.
    unfold used in *. destruct fam; [done|congruence|congruence]. }
  eapply wp_mono; [apply (gc_spec dent d2); [|by eapply frame_lookup|done]|].
  - eapply (st_mid_frame dent d d2 s); [by apply st_ok_mid|done..|]. rewrite Forall_forall in Hids.
    intros r Hin. by apply Hids, Hcl, Hsub.
  - intros _ s3 (Hs3 & E3 & _).
    assert (Hsame : same_locks d2 (locks_of s3 dent)) by (eapply after_gc_same; [by eapply frame_lookup|done..]).
    split; [done|]. split; [|split].
    + intros x Hx. rewrite E3, after_gc_ne by done. destruct F as [-> _ _ _]. by rewrite lookup_insert_ne.
    + destruct Hsame as [_ ->]. unfold locks_of. rewrite Ed. simpl. by etrans.
    + unfold locks_of at 1. rewrite Ed. simpl. split; [|by do 5 eexists].
      eapply free_same; [done|]. change d2 with (fst (fst (at_state d2 s2))).
      eapply grants_free; [exact Hr|done|apply cleared_free].
Qed.

Lemma clear_unchanged_ok dent p d s :
  st_ok s -> dents s !! dent = Some d -> existsb (is_posix_of p) (file_locks d) = false ->
  clear_post dent p s (set_dents s (<[dent := cleared p d]> (dents s))).
Proof.
  intros Hs Ed He. destruct (st_dents _ Hs dent d Ed) as [(fam & Hd & Hu & Hb & Hne) Hids].
  pose proof (cleared_unchanged p d He) as El. split; [|split; [|split]].
  - apply (st_mid_ok dent); simpl.
    + eapply (st_mid_update dent d (cleared p d) s); try done; [by apply st_ok_mid|]. simpl.
      rewrite Forall_forall in Hids. intros r [_ Hr]%list_elem_of_filter. auto.
    + intros d'. rewrite lookup_insert_eq. intros [= <-]. exists fam. split; [by apply cleared_ok|].
      split; [done|]. unfold all_blocked. simpl. rewrite El. split; [by apply list_Forall_filter|done].
  - intros x Hx. simpl. by rewrite lookup_insert_ne.
  - unfold locks_of. simpl. rewrite Ed, lookup_insert_eq. simpl. by intros r [_ ?]%list_elem_of_filter.
  - unfold locks_of. simpl. rewrite Ed, lookup_insert_eq. simpl. split; [apply cleared_free|].
    by exists (cleared p d), [], [], 0%nat, 0%nat.
Qed.

Lemma local_requests_found p reqs :
  forallb (fun r => negb (is_posix_of p (req_lock r)) ||
             match req_notify r with Some (NotifyIpc _ _) => true | _ => false end) reqs = false ->
  exists r, r ∈ reqs /\ is_posix_of p (req_lock r) = true /\ forall vmid seq, req_notify r <> Some (NotifyIpc vmid seq).
Proof.
  induction reqs as [|r reqs IH]; [done|]. cbn [forallb]. intros [H|H]%andb_false_iff.
  - exists r. split; [left|]. destruct (is_posix_of p (req_lock r)); [|done]. split; [done|]. intros vmid seq E.
    by rewrite E in H.
  - destruct (IH H) as (r' & ? & ?). exists r'. split; [by right|done].
Qed.

Lemma clear_dentry_spec dent p s :
  st_ok s ->
  wp_or (file_lock_clear_pid_from_dentry malloc_ok dent p) (fun _ => clear_post dent p s)
    (incomplete s \/ local_request p s) s.
Proof.
  intros Hs. unfold file_lock_clear_pid_from_dentry. apply wp_or_bind.
  eapply wp_mono; [by apply find_dent_spec|]. intros [ret ex] s1 Hfind.
  destruct (dents s !! dent) as [d|] eqn:Ed.
  - destruct Hfind as [[= -> ->] ->]. apply wp_or_bind, (wp_get_dfl dent d); [done|]. cbv zeta.
    match goal with |- wp_or (sm_assert ?b;; _) _ _ _ => destruct b eqn:Hb end.
    + apply wp_or_bind, wp_assert; [done|]. unfold put_dfl. apply wp_or_bind, wp_modify.
      destruct (existsb (is_posix_of p) (file_locks d)) eqn:He.
      * eapply wp_or_mono; [by apply (clear_changed_spec dent p d)|by left|done].
      * apply wp_or_wp. wp_steps. by apply clear_unchanged_ok.
    + apply wp_or_abort; [done|]. right. apply local_requests_found in Hb as (r & Hr & Hp & Hn). by exists dent, d, r.
  - destruct Hfind as [([= -> ->] & _ & ->)|[(_ & ? & _)|(_ & ? & _)]]; [|done..]. apply wp_or_wp. wp_steps.
    split; [done|]. split; [done|]. split; [done|]. unfold locks_of. rewrite Ed. apply clear_rel_none.
Qed.

Lemma clear_loop_spec p l : forall s,
  st_ok s -> NoDup l ->
  wp_or (clear_pid_loop malloc_ok l p) (fun _ s' => st_ok s' /\ forall x,
      (x ∈ l -> clear_rel p (locks_of s x) (locks_of s' x)) /\ (x ∉ l -> dents s' !! x = dents s !! x))
    (incomplete s \/ local_request p s) s.
Proof.
  induction l as [|dent l IH]; intros s Hs Hnd; cbn [clear_pid_loop].
  { apply wp_or_wp. wp_steps. split; [done|]. intros x. split; [by intros ?%elem_of_nil|done]. }
  apply NoDup_cons in Hnd as [Hx Hnd]. apply wp_or_then. eapply wp_or_mono; [by apply clear_dentry_spec|done|].
  intros [] s1 Hpost. pose proof Hpost as (Hs1 & Hoth & _ & Hrel).
  eapply wp_or_mono; [by apply IH|by eapply clear_post_abort|]. intros _ s2 (? & Hall). split; [done|]. intros x.
  destruct (Hall x) as [H1 H2]. destruct (decide (x = dent)) as [->|Hne].
  - split; [|intros Hni; destruct Hni; left]. intros _. unfold locks_of at 2. rewrite H2 by done. done.
  - rewrite elem_of_cons. split.
    + intros [?|Hin]; [done|]. specialize (H1 Hin). unfold locks_of at 1 in H1. by rewrite Hoth in H1.
    + intros Hni. rewrite H2 by tauto. by apply Hoth.
Qed.

Lemma clear_pid_wp p s :
  st_ok s ->
  wp_or (file_lock_clear_pid malloc_ok p) (fun _ s' => st_ok s' /\
    forall x, clear_rel p (locks_of s x) (locks_of s' x)) (incomplete s \/ local_request p s) s.
Proof.
  intros Hs. unfold file_lock_clear_pid. apply wp_or_bind, wp_gets.
  eapply wp_or_mono; [apply clear_loop_spec; [done|apply Hs]|done|]. intros _ s' (? & Hall).
  split; [done|]. intros x. destruct (Hall x) as [H1 H2].
  destruct (decide (x ∈ g_dent_file_locks_list s)) as [|Hx]; [auto|]. specialize (H2 Hx). unfold locks_of. rewrite H2.
  destruct (dents s !! x) eqn:E; [destruct Hx; apply Hs; eauto|]. apply clear_rel_none.
Qed.

End ops.
