(* ===== verification/FsLockExamples.v ===== *)
(** * Runs of the file-lock component

    Reachable states of [FsLock] and what holds in all of them; concrete inputs at
    which the theorems about file locks apply. *)

From S2P Require Import Prelude FsLock FsLockList FsLockSpec FsLockOps.

(** ** Reachable states *)

Definition no_files : fs_lock_state := FsLockState ∅ [] ∅ 0 0 [].

Section reachable.
Context (malloc_ok : nat -> bool).

(** The requests that [file_lock_set_from_ipc] still has to complete. *)
Definition pending : Type := list (Z * Z * notify).

(** One critical section of [g_fs_lock_lock], with the arguments its callers may
    pass: the entry points, and the assignments of [file_lock_set_from_ipc] after
    it released the lock. *)
Inductive fs_step : fs_lock_state * pending -> fs_lock_state * pending -> Prop :=
| step_set s s' pend dent fl wait ev r :
    lock_arg_ok fl -> valid_owner fl = true ->
    file_lock_set_leader malloc_ok dent fl wait ev s = Some (r, s') -> fs_step (s, pend) (s', pend)
| step_ipc s s' pend lookup fl wait vmid seq req :
    lock_arg_ok fl -> valid_owner fl = true ->
    file_lock_set_from_ipc_1 malloc_ok lookup fl wait vmid seq s = Some (req, s') ->
    fs_step (s, pend) (s', match req with Some (dent, id) => (dent, id, NotifyIpc vmid seq) :: pend | None => pend end)
| step_notify s s' p1 p2 dent id n :
    set_notify dent id n s = Some ((), s') -> fs_step (s, p1 ++ (dent, id, n) :: p2) (s', p1 ++ p2)
| step_get s s' pend dent fl out r :
    lock_arg_ok fl -> valid_owner fl = true -> type fl <> F_UNLCK ->
    file_lock_get malloc_ok dent fl out s = Some (r, s') -> fs_step (s, pend) (s', pend)
| step_clear s s' pend p :
    file_lock_clear_pid malloc_ok p s = Some ((), s') -> fs_step (s, pend) (s', pend).

Lemma no_files_ok : st_ok no_files.
Proof.
  split; simpl; try done.
  - constructor.
  - intros x. rewrite lookup_empty. split; [by intros ?%elem_of_nil|by intros []].
Qed.

Lemma wp_or_run {A} (m : SM fs_lock_state A) Q R s a s' : wp_or m Q R s -> m s = Some (a, s') -> Q a s'.
Proof. unfold wp_or. intros H E. by rewrite E in H. Qed.

(** What every step keeps. *)
Lemma fs_step_inv a b : fs_step a b -> st_ok (fst a) -> st_ok (fst b).
Proof.
  intros Hstep. destruct Hstep as [s s' pend dent fl wait ev r Ha Hv E|s s' pend lookup fl wait vmid seq req Ha Hv E
    |s s' p1 p2 dent id n E|s s' pend dent fl out r Ha Hv Ht E|s s' pend p E]; simpl; intros Hs.
  - by apply (wp_or_run _ _ _ _ _ _ (file_lock_set_leader_correct malloc_ok dent fl wait ev s Hs Ha Hv) E).
  - by apply (wp_or_run _ _ _ _ _ _ (set_from_ipc_1_wp malloc_ok lookup fl wait vmid seq s Hs Ha Hv) E).
  - destruct (dents s !! dent) as [d|] eqn:Ed.
    + pose proof (set_notify_spec dent id n d s Hs Ed) as H. unfold wp in H. rewrite E in H. tauto.
    + unfold set_notify, mbind, SM_bind, get_dfl in E. by rewrite Ed in E.
  - pose proof (get_wp malloc_ok dent fl out s Hs Ha Hv Ht) as H. unfold wp in H. rewrite E in H. tauto.
  - by apply (wp_or_run _ _ _ _ _ _ (clear_pid_wp malloc_ok p s Hs) E).
Qed.

Lemma fs_reachable_ok a b : rtc fs_step a b -> st_ok (fst a) -> st_ok (fst b).
Proof. induction 1 as [|a b c Hstep _ IH]; [done|]. intros Ha. by apply IH, (fs_step_inv a). Qed.

Lemma stable_exclusive d :
  dfl_stable d ->
  (forall p q b t, posix_used d = true -> lock_at (file_locks d) p b = Some F_WRLCK ->
     lock_at (file_locks d) q b = Some t -> p = q) /\
  (forall h h' t, flock_used d = true -> flock_at (file_locks d) h = Some F_WRLCK ->
     flock_at (file_locks d) h' = Some t -> h = h') /\
  (forall r, r ∈ file_lock_requests d -> exists k, k ∈ file_locks d /\ conflicts (req_lock r) k = true).
Proof.
  intros (fam & [Hl _ _ Hp Hf] & Hu & Hb & _). split; [|split].
  - intros p q b t Hpu Hw Ht. destruct fam; [done| |by rewrite Hp in Hpu]. destruct Hl as [Hl Hex].
    rewrite lock_at_holds in Hw, Ht by done. by eapply Hex.
  - intros h h' t Hfu Hw Ht. destruct fam; [done|by rewrite Hf in Hfu|]. destruct Hl as [Hl Hex].
    rewrite flock_at_elem in Hw, Ht by done. destruct Hw as (k & ? & <- & ?), Ht as (k' & ? & <- & ?). by apply Hex.
  - intros r Hr. unfold all_blocked in Hb. rewrite Forall_forall in Hb. specialize (Hb r Hr).
    destruct (find_conflict (file_locks d) (req_lock r)) as [k|] eqn:E; [|done]. exists k.
    apply head_Some_elem_of, list_elem_of_filter in E as [Hc ?]. split; [done|]. by apply Is_true_true.
Qed.

Lemma wp_or_returns {A} (m : SM fs_lock_state A) Q R s : wp_or m Q R s -> ~ R -> m s <> None.
Proof. unfold wp_or. destruct (m s); [done|tauto]. Qed.

(** C18: in every state that the critical sections of the entry points can reach,
    in any order, whatever allocations and event creations fail, and also while
    [file_lock_set_from_ipc] has released the lock before it completed its request:
    a byte that one process has locked for writing is locked by no other process,
    an exclusive BSD lock is the only lock on its file, and every request that
    waits is blocked by a lock that is held, so no wake-up is lost.  In such a state
    every entry point returns, provided that no request is incomplete and, for the
    removal of the locks of a process, that it has no waiting thread in the
    leader. *)
Theorem file_locks_safe s pend :
  rtc fs_step (no_files, []) (s, pend) ->
  (forall dent d, dents s !! dent = Some d ->
     (forall p q b t, posix_used d = true -> lock_at (file_locks d) p b = Some F_WRLCK ->
        lock_at (file_locks d) q b = Some t -> p = q) /\
     (forall h h' t, flock_used d = true -> flock_at (file_locks d) h = Some F_WRLCK ->
        flock_at (file_locks d) h' = Some t -> h = h') /\
     (forall r, r ∈ file_lock_requests d -> exists k, k ∈ file_locks d /\ conflicts (req_lock r) k = true)) /\
  (~ incomplete s ->
     (forall dent fl wait ev, lock_arg_ok fl -> valid_owner fl = true ->
        file_lock_set_leader malloc_ok dent fl wait ev s <> None) /\
     (forall lookup fl wait vmid seq, lock_arg_ok fl -> valid_owner fl = true ->
        file_lock_set_from_ipc_1 malloc_ok lookup fl wait vmid seq s <> None) /\
     (forall p, ~ local_request p s -> file_lock_clear_pid malloc_ok p s <> None)).
Proof.
  intros Hreach. pose proof (fs_reachable_ok _ _ Hreach no_files_ok) as Hs. simpl in Hs. split.
  - intros dent d Ed. apply stable_exclusive. by destruct (st_dents _ Hs dent d Ed).
  - intros Hinc. split_and!.
    + intros. eapply wp_or_returns; [by apply file_lock_set_leader_correct|done].
    + intros. eapply wp_or_returns; [by apply set_from_ipc_1_wp|done].
    + intros p Hp. eapply wp_or_returns; [by apply clear_pid_wp|tauto].
Qed.
End reachable.

(** ** Concrete inputs *)

Definition always : nat -> bool := fun _ => true.
Definition plock (t : lock_type) (s e p : Z) : libos_file_lock := FileLock FILE_LOCK_POSIX t s e p 0.
Definition flock (t : lock_type) (h : Z) : libos_file_lock := FileLock FILE_LOCK_FLOCK t 0 0 0 h.

(** Process 5 reads bytes 0 to 9 and writes 20 to 29. *)
Definition locks_ex : list libos_file_lock := [plock F_RDLCK 0 9 5; plock F_WRLCK 20 29 5].

Definition state_with (d : dent_file_locks) : fs_lock_state := FsLockState {[1 := d]} [1] {[1 := 1]} 0 7 [].
Definition d_locked : dent_file_locks := DentFileLocks true false locks_ex [].
Definition d_waiting (n : option notify) : dent_file_locks :=
  DentFileLocks true false locks_ex [Request 3 (plock F_WRLCK 25 25 6) n].

Ltac solve_lock := (split; simpl; (done || unfold FS_LOCK_EOF, u64_mod; lia)).

Lemma locks_ex_list : posix_list locks_ex.
Proof.
  unfold locks_ex. apply posix_list_cons. split; [solve_lock|]. split.
  - apply posix_list_cons. split; [solve_lock|]. split; [apply posix_list_nil|by intros ? ?%elem_of_nil].
  - intros b ->%list_elem_of_singleton. right. simpl. by split_and!.
Qed.

Lemma locks_ex_exclusive : exclusive locks_ex.
Proof.
  intros p q b t (k & Hk & <- & _)%holds_elem (k' & Hk' & <- & _)%holds_elem. unfold locks_ex in *.
  rewrite !elem_of_cons in *. destruct Hk as [->|[->|Hk]], Hk' as [->|[->|Hk']]; first [done | by apply elem_of_nil in Hk | by apply elem_of_nil in Hk'].
Qed.

Lemma state_with_ok reqs :
  dfl_stable (DentFileLocks true false locks_ex reqs) -> Forall (fun r => req_id r < 7) reqs ->
  st_ok (state_with (DentFileLocks true false locks_ex reqs)).
Proof.
  intros Hd Hr. split; simpl.
  - by apply map_Forall_singleton.
  - apply NoDup_singleton.
  - intros x. rewrite list_elem_of_singleton. destruct (decide (x = 1)) as [->|].
    + rewrite lookup_singleton_eq. split; eauto.
    + rewrite lookup_singleton_ne by done. split; [done|by intros []].
  - intros x. unfold counter. destruct (decide (x = 1)) as [->|].
    + by rewrite !lookup_singleton_eq.
    + by rewrite !lookup_singleton_ne.
Qed.

Lemma d_locked_stable : dfl_stable d_locked.
Proof.
  exists FILE_LOCK_POSIX. split; [|split; [done|split; [constructor|done]]].
  split; simpl; try done; [|constructor..]. split; [apply locks_ex_list|apply locks_ex_exclusive].
Qed.

Lemma d_waiting_stable n : dfl_stable (d_waiting n).
Proof.
  exists FILE_LOCK_POSIX. split; [|split; [done|split; [|done]]].
  - split; simpl; try done.
    + split; [apply locks_ex_list|apply locks_ex_exclusive].
    + apply Forall_singleton. simpl. split; [split; [done|]; intros _; solve_lock|done].
    + apply NoDup_singleton.
  - apply Forall_singleton. done.
Qed.

Lemma locked_ok : st_ok (state_with d_locked).
Proof. apply state_with_ok; [apply d_locked_stable|constructor]. Qed.

Lemma waiting_ok n : st_ok (state_with (d_waiting n)).
Proof. apply state_with_ok; [apply d_waiting_stable|]. by apply Forall_singleton. Qed.

Lemma plock_arg t s e p : 0 <= s <= e -> e <= FS_LOCK_EOF -> lock_arg_ok (plock t s e p).
Proof. intros. split; [done|]. intros _. by split. Qed.

Lemma posix_lock_set_witness :
  exists l', posix_set_list locks_ex (plock F_WRLCK 5 24 5) = Some l' /\ posix_list l' /\
    forall p b, lock_at l' p b =
      if decide (in_target (plock F_WRLCK 5 24 5) p b) then type_set (plock F_WRLCK 5 24 5) else lock_at locks_ex p b.
Proof. apply (posix_lock_set_bytes locks_ex (plock F_WRLCK 5 24 5)); [apply locks_ex_list|solve_lock]. Defined.

Lemma flock_lock_set_witness :
  flock_list (flock_set_list [flock F_RDLCK 4] (flock F_WRLCK 4)) /\
  forall h, flock_at (flock_set_list [flock F_RDLCK 4] (flock F_WRLCK 4)) h =
    if decide (h = 4) then Some F_WRLCK else flock_at [flock F_RDLCK 4] h.
Proof.
  apply (flock_lock_set_handles [flock F_RDLCK 4] (flock F_WRLCK 4)).
  split; [apply NoDup_singleton|]. apply Forall_singleton. by split.
Defined.

(** Process 6 asks for a byte that process 5 has locked. *)
Lemma set_or_add_witness :
  fst <$> file_lock_set_or_add_request always 1 (plock F_WRLCK 25 25 6) true (state_with d_locked) = Some (0, Some 7) /\
  wp_or (file_lock_set_or_add_request always 1 (plock F_WRLCK 25 25 6) true)
    (set_or_add_post always 1 (plock F_WRLCK 25 25 6) true (state_with d_locked))
    (incomplete_in (locks_of (state_with d_locked) 1)) (state_with d_locked).
Proof.
  split; [vm_compute; reflexivity|].
  apply (file_lock_set_or_add_correct always 1 (plock F_WRLCK 25 25 6) true (state_with d_locked));
    [apply locked_ok|by apply plock_arg].
Defined.

Lemma set_leader_witness :
  wp_or (file_lock_set_leader always 1 (plock F_WRLCK 25 25 6) true (inr 9))
    (set_leader_post always 1 (plock F_WRLCK 25 25 6) true (inr 9) (state_with d_locked))
    (incomplete (state_with d_locked)) (state_with d_locked).
Proof.
  apply (file_lock_set_leader_correct always 1 (plock F_WRLCK 25 25 6) true (inr 9) (state_with d_locked));
    [apply locked_ok|by apply plock_arg|done].
Defined.

Lemma set_from_ipc_witness :
  wp_or (file_lock_set_from_ipc always (inr 1) (plock F_WRLCK 25 25 6) true 4 77) (fun _ s' => st_ok s' /\
    ((exists ret s1, set_or_add_post always 1 (plock F_WRLCK 25 25 6) true (state_with d_locked) (ret, None) s1 /\
        dents s' = dents s1 /\ notified s' = notified s1 ++ [(NotifyIpc 4 77, ret)]) \/
     (true = true /\ waits 1 (plock F_WRLCK 25 25 6) (NotifyIpc 4 77) s' /\
        notified s' = notified (state_with d_locked) /\ (incomplete s' -> incomplete (state_with d_locked)))))
    (incomplete (state_with d_locked)) (state_with d_locked).
Proof.
  apply (file_lock_set_from_ipc_correct always 1 (plock F_WRLCK 25 25 6) true 4 77 (state_with d_locked));
    [apply locked_ok|by apply plock_arg|done].
Defined.

Lemma get_witness :
  wp (file_lock_get always 1 (plock F_WRLCK 25 25 6) (plock F_WRLCK 25 25 6)) (fun res s' => st_ok s' /\
    dents s' = dents (state_with d_locked) /\
    let l := file_locks (locks_of (state_with d_locked) 1) in
    (res ∈ l /\ conflicts (plock F_WRLCK 25 25 6) res = true /\ type res <> F_UNLCK) \/
    (type res = F_UNLCK /\ forall k, k ∈ l -> conflicts (plock F_WRLCK 25 25 6) k = false)) (state_with d_locked).
Proof.
  apply (file_lock_get_correct always 1 (plock F_WRLCK 25 25 6) (plock F_WRLCK 25 25 6) (state_with d_locked));
    [apply locked_ok|by apply plock_arg|done|done].
Defined.


(** The first half of [file_lock_set_from_ipc] for process 6 leaves a request that
    the unlock by process 5 runs into. *)
Lemma incomplete_request_witness :
  exists s, file_lock_set_from_ipc_1 always (inr 1) (plock F_WRLCK 25 25 6) true 4 77 (state_with d_locked)
              = Some (Some (1, 7), s) /\
  file_lock_set_or_add_request always 1 (plock F_UNLCK 20 29 5) false s = None /\
  file_lock_set_or_add_request always 1 (plock F_UNLCK 20 29 5) false (state_with (d_waiting None)) = None.
Proof.
  eexists. split; [vm_compute; reflexivity|]. split; [vm_compute; reflexivity|].
  apply (unlock_with_incomplete_request_aborts always 1 (d_waiting None) (plock F_UNLCK 20 29 5) false
    (Request 3 (plock F_WRLCK 25 25 6) None) [] [plock F_RDLCK 0 9 5] (state_with (d_waiting None)));
    [apply waiting_ok|done|done|done|by apply plock_arg|done|done|reflexivity|reflexivity].
Defined.

(** A reachable state with a lock and a request that is not complete yet: process 5
    locks bytes 0 to 9, and process 6 asks for byte 5 over IPC. *)
Definition d_pending : dent_file_locks :=
  DentFileLocks true false [plock F_WRLCK 0 9 5] [Request 0 (plock F_RDLCK 5 5 6) None].
Definition s_pending : fs_lock_state := FsLockState {[1 := d_pending]} [1] {[1 := 1]} 4 1 [].

Lemma s_pending_reachable : rtc (fs_step always) (no_files, []) (s_pending, [(1, 0, NotifyIpc 4 77)]).
Proof.
  eapply rtc_l.
  { eapply (step_set always no_files _ [] 1 (plock F_WRLCK 0 9 5) false (inl (- ENOMEM)));
      [by apply plock_arg|done|vm_compute; reflexivity]. }
  apply rtc_once. apply (step_ipc always _ s_pending [] (inr 1) (plock F_RDLCK 5 5 6) true 4 77 (Some (1, 0)));
    [by apply plock_arg|done|vm_compute; reflexivity].
Qed.

Lemma file_locks_safe_witness :
  rtc (fs_step always) (no_files, []) (s_pending, [(1, 0, NotifyIpc 4 77)]) /\
  dents s_pending !! 1 = Some d_pending /\
  (forall p q b t, posix_used d_pending = true -> lock_at (file_locks d_pending) p b = Some F_WRLCK ->
     lock_at (file_locks d_pending) q b = Some t -> p = q) /\
  (forall h h' t, flock_used d_pending = true -> flock_at (file_locks d_pending) h = Some F_WRLCK ->
     flock_at (file_locks d_pending) h' = Some t -> h = h') /\
  (forall r, r ∈ file_lock_requests d_pending -> exists k, k ∈ file_locks d_pending /\ conflicts (req_lock r) k = true).
Proof.
  split; [apply s_pending_reachable|]. split; [reflexivity|].
  destruct (file_locks_safe always s_pending [(1, 0, NotifyIpc 4 77)] s_pending_reachable) as [Hsafe _].
  by apply (Hsafe 1 d_pending).
Defined.
