(* ===== verification/IpcPid.v ===== *)
(** * Owners of process and thread IDs: [libos/src/ipc/libos_ipc_pid.c]

    The process leader keeps which process owns which range of IDs.  The tree of
    ranges is an ordered sequence ([OrdSeq]), and [g_id_owners_tree_lock] makes each
    operation atomic.  The arguments [mem], [mem1], [mem2] say whether the calls of
    [malloc] succeed. *)

From S2P Require Import Prelude OrdSeq.

Definition PID_MAX_LIMIT : Z := 4194304.
Definition PID_MAX : Z := PID_MAX_LIMIT - 1.
Definition MAX_RANGE_SIZE : Z := 0x20.

Record id_range := IdRange { rstart : Z; rend : Z; rowner : Z }.

Definition id_range_cmp (a b : id_range) : bool := rstart a <=? rend b.

Record ipc_ids := IpcIds { g_id_owners_tree : list id_range; g_last_id : Z }.

Abbreviation M := (SM ipc_ids).

Definition put_tree (t : list id_range) : M unit := sm_modify (fun s => IpcIds t (g_last_id s)).

(** [*end] for a range that begins at [next_id]. *)
Definition range_end (next_id : Z) : Z :=
  let e := u32 (next_id + MAX_RANGE_SIZE - 1) in if PID_MAX <? e then PID_MAX else e.

(** The loop of [_find_free_id_range] over the ranges from [node] on. *)
Fixpoint find_free_loop (nodes : list id_range) (next_id : Z) : M (option (Z * Z)) :=
  match nodes with
  | [] => mret (Some (next_id, range_end next_id))
  | range :: nodes' =>
      if next_id <? rstart range then
        mret (Some (next_id, Z.min (range_end next_id) (u32 (rstart range - 1))))
      else
        sm_assert (next_id <=? rend range);;
        if rend range =? PID_MAX then mret None
        else find_free_loop nodes' (u32 (rend range + 1))
  end.

Definition _find_free_id_range : M (option (Z * Z)) :=
  s ← sm_get;
  let next_id := u32 (g_last_id s + 1) in
  if PID_MAX <? next_id then sm_bug
  else find_free_loop (snd (span (id_range_cmp (IdRange next_id next_id 0)) (g_id_owners_tree s))) next_id.

(** Result: return value, [*start] and [*end]. *)
Definition alloc_id_range (mem : bool) (owner : Z) : M (Z * Z * Z) :=
  sm_assert (negb (owner =? 0));;
  if mem then
    found ← _find_free_id_range;
    match found with
    | None => sm_bug
    | Some (start, end_) =>
        sm_assert (negb (start =? 0) && negb (end_ =? 0));;
        let new_range := IdRange start end_ owner in
        s ← sm_get;
        put_tree (seq_insert (id_range_cmp new_range) new_range (g_id_owners_tree s));;
        sm_assert (g_last_id s <? end_);;
        sm_modify (fun s => IpcIds (g_id_owners_tree s) end_);;
        mret (0, start, end_)
    end
  else mret (- ENOMEM, 0, 0).

(** The tree in front of, and from, the range that [avl_tree_lower_bound] returns
    for a single ID. *)
Definition id_lookup (id : Z) (t : list id_range) : list id_range * list id_range :=
  span (id_range_cmp (IdRange id id 0)) t.

Definition insert_range (r : id_range) (t : list id_range) : list id_range :=
  seq_insert (id_range_cmp r) r t.

Definition change_id_owner (mem1 mem2 : bool) (id new_owner : Z) : M Z :=
  if negb mem1 then mret (- ENOMEM)
  else if negb mem2 then mret (- ENOMEM)
  else
    let new_range1 := IdRange id id new_owner in
    s ← sm_get;
    match id_lookup id (g_id_owners_tree s) with
    | (_, []) => sm_bug
    | (before, range :: after) =>
        if (id <? rstart range) || (rend range <? id) then sm_bug
        else
          (if rstart range =? rend range then
             sm_assert (id =? rstart range);;
             put_tree (before ++ IdRange (rstart range) (rend range) new_owner :: after)
           else if rstart range =? id then
             put_tree (insert_range new_range1
               (before ++ IdRange (u32 (rstart range + 1)) (rend range) (rowner range) :: after))
           else if rend range =? id then
             put_tree (insert_range new_range1
               (before ++ IdRange (rstart range) (u32 (rend range - 1)) (rowner range) :: after))
           else
             sm_assert (3 <=? u32 (rend range - rstart range + 1));;
             let new_range2 := IdRange (u32 (id + 1)) (rend range) (rowner range) in
             put_tree (insert_range new_range2 (insert_range new_range1
               (before ++ IdRange (rstart range) (u32 (id - 1)) (rowner range) :: after))));;
          mret 0
    end.

(** [avl_tree_find] returns some range that overlaps the given one.  Here it is the
    first one; if several overlap, none of them equals the given one, so that the
    code ends in [BUG()] whichever is found. *)
Definition release_id_range (start end_ : Z) : M unit :=
  let dummy := IdRange start end_ 0 in
  s ← sm_get;
  match span (fun r => id_range_cmp dummy r && id_range_cmp r dummy) (g_id_owners_tree s) with
  | (_, []) => sm_bug
  | (before, range :: after) =>
      if negb (rstart range =? start) || negb (rend range =? end_) then sm_bug
      else put_tree (before ++ after)
  end.

Definition find_id_owner (id : Z) : M Z :=
  s ← sm_get;
  match id_lookup id (g_id_owners_tree s) with
  | (_, []) => mret 0
  | (_, range :: _) => if (id <? rstart range) || (rend range <? id) then mret 0 else mret (rowner range)
  end.

(** ** The requests of the processes

    [leader_vmid] is 0 in the leader itself.  In another process, [mem] is the
    allocation of the message and [send] the result of sending it (and of waiting
    for the response); the leader runs the callback if the message arrives.
    [lmem], [lmem1] and [lmem2] are the allocations in the leader. *)

Section requests.
Variables (leader_vmid self_vmid : Z).

Definition ipc_alloc_id_range_callback (lmem : bool) (src : Z) : M (Z * Z) :=
  '(ret, start, end_) ← alloc_id_range lmem src;
  mret (if ret <? 0 then (0, 0) else (start, end_)).

Definition ipc_alloc_id_range (mem : bool) (send : Z) (lmem : bool) : M (Z * Z * Z) :=
  if leader_vmid =? 0 then alloc_id_range lmem self_vmid
  else if negb mem then mret (- ENOMEM, 0, 0)
  else if send <? 0 then mret (send, 0, 0)
  else
    '(start, end_) ← ipc_alloc_id_range_callback lmem self_vmid;
    mret (if negb (start =? 0) && negb (end_ =? 0) then (0, start, end_) else (- EAGAIN, 0, 0)).

(** A callback that fails ends the leader ([receive_ipc_messages]): the requester
    then gets the error [lost] of the broken connection. *)
Definition ipc_change_id_owner (mem : bool) (send : Z) (lmem1 lmem2 : bool) (lost : Z) (id new_owner : Z)
    : M Z :=
  if leader_vmid =? 0 then change_id_owner lmem1 lmem2 id new_owner
  else if negb mem then mret (- ENOMEM)
  else if send <? 0 then mret send
  else
    ret ← change_id_owner lmem1 lmem2 id new_owner;
    mret (if ret <? 0 then lost else 0).

Definition ipc_get_id_owner (mem : bool) (send : Z) (id : Z) : M (Z * Z) :=
  if leader_vmid =? 0 then owner ← find_id_owner id; mret (0, owner)
  else if negb mem then mret (- ENOMEM, 0)
  else if send <? 0 then mret (send, 0)
  else owner ← find_id_owner id; mret (0, owner).

End requests.
