(* ===== verification/IpcPidSpec.v ===== *)
(** * Correctness of the management of ID owners

    The tree of ranges is seen as a map from IDs to their owners. *)

From S2P Require Import Prelude OrdSeq IpcPid.

(** ** Invariant *)

Record range_ok (last : Z) (r : id_range) : Prop := {
  ro_start : 1 <= rstart r <= rend r;
  ro_end : rend r <= last;
  ro_owner : rowner r <> 0
}.

Definition rbefore (a b : id_range) : Prop := rend a < rstart b.

Definition ranges_ok (last : Z) (t : list id_range) : Prop :=
  StronglySorted rbefore t /\ Forall (range_ok last) t.

(** No range lies above [g_last_id]: IDs are given out in increasing order. *)
Record ids_ok (s : ipc_ids) : Prop := {
  io_last : 0 <= g_last_id s <= PID_MAX;
  io_ranges : ranges_ok (g_last_id s) (g_id_owners_tree s)
}.

(** The owner of an ID, 0 if it has none. *)
Definition owner_of (s : ipc_ids) (id : Z) : Z :=
  match find_id_owner id s with Some (o, _) => o | None => 0 end.

Lemma ranges_ok_app last a b :
  ranges_ok last (a ++ b) <->
  ranges_ok last a /\ ranges_ok last b /\ (forall x y, x ∈ a -> y ∈ b -> rbefore x y).
Proof. unfold ranges_ok. rewrite StronglySorted_app_iff, Forall_app. tauto. Qed.

Lemma ranges_ok_cons last r t :
  ranges_ok last (r :: t) <-> range_ok last r /\ ranges_ok last t /\ (forall y, y ∈ t -> rbefore r y).
Proof.
  unfold ranges_ok. rewrite Forall_cons. split.
  - intros [Hs [? ?]]. inversion Hs as [|? ? ? Hf]; subst. rewrite Forall_forall in Hf. auto.
  - intros (? & [? ?] & ?). split; [|done]. constructor; [done|]. by apply Forall_forall.
Qed.

Lemma ranges_ok_nil last : ranges_ok last [].
Proof. split; constructor. Qed.

Lemma ranges_ok_mono last last' t : last <= last' -> ranges_ok last t -> ranges_ok last' t.
Proof.
  intros Hle [Hs Hf]. split; [done|]. eapply Forall_impl; [exact Hf|]. intros r []. split; (done || lia).
Qed.

(** ** Lookup *)

Definition covers_id (id : Z) (r : id_range) : Prop := rstart r <= id <= rend r.

Lemma id_lookup_spec last id t a b :
  ranges_ok last t -> id_lookup id t = (a, b) ->
  t = a ++ b /\ (forall r, r ∈ a -> rend r < id) /\ (forall r, r ∈ b -> id <= rend r).
Proof.
  intros Hok E. unfold id_lookup in E. apply span_spec in E as (-> & Ha & Hb). split; [done|]. split.
  - intros r Hr. rewrite Forall_forall in Ha. specialize (Ha r Hr). by apply Z.leb_gt in Ha.
  - destruct b as [|x b]; [by intros r ?%elem_of_nil|]. specialize (Hb x b eq_refl). apply Z.leb_le in Hb.
    apply ranges_ok_app in Hok as (_ & (Hx & Hb' & Hlt)%ranges_ok_cons & _). simpl in Hb.
    intros r [->|Hr]%elem_of_cons; [done|]. specialize (Hlt r Hr). destruct Hb' as [_ Hf].
    rewrite Forall_forall in Hf. destruct (Hf r Hr), Hx. unfold rbefore in Hlt. lia.
Qed.

Lemma owner_of_covered s r id :
  ranges_ok (g_last_id s) (g_id_owners_tree s) -> r ∈ g_id_owners_tree s -> covers_id id r -> owner_of s id = rowner r.
Proof.
  intros Hok Hr Hc. unfold owner_of, find_id_owner, mbind, SM_bind, sm_get.
  destruct (id_lookup id (g_id_owners_tree s)) as [a b] eqn:E.
  destruct (id_lookup_spec _ _ _ _ _ Hok E) as (Et & Ha & Hb). rewrite Et in Hr, Hok.
  unfold covers_id in Hc. apply elem_of_app in Hr as [Hr|Hr]; [specialize (Ha r Hr); lia|].
  destruct b as [|x b]; [by apply elem_of_nil in Hr|].
  apply ranges_ok_app in Hok as (_ & (Hx & _ & Hlt)%ranges_ok_cons & _). specialize (Hb x ltac:(left)).
  apply elem_of_cons in Hr as [->|Hr].
  - rewrite (proj2 (Z.ltb_ge _ _)), (proj2 (Z.ltb_ge _ _)) by lia. done.
  - specialize (Hlt r Hr). unfold rbefore in Hlt. lia.
Qed.

Lemma owner_of_free s id :
  ranges_ok (g_last_id s) (g_id_owners_tree s) -> (forall r, r ∈ g_id_owners_tree s -> ~ covers_id id r) ->
  owner_of s id = 0.
Proof.
  intros Hok Hn. unfold owner_of, find_id_owner, mbind, SM_bind, sm_get.
  destruct (id_lookup id (g_id_owners_tree s)) as [a [|x b]] eqn:E; [done|].
  destruct (id_lookup_spec _ _ _ _ _ Hok E) as (Et & Ha & Hb). unfold covers_id in Hn.
  specialize (Hn x). rewrite Et in Hn. specialize (Hn ltac:(apply elem_of_app; right; left)).
  destruct (id <? rstart x) eqn:E1; [done|]. destruct (rend x <? id) eqn:E2; [done|]. breflect. lia.
Qed.

(** The owner is determined by the ranges. *)
Lemma owner_of_cases s id :
  ranges_ok (g_last_id s) (g_id_owners_tree s) ->
  (exists r, r ∈ g_id_owners_tree s /\ covers_id id r /\ owner_of s id = rowner r) \/
  ((forall r, r ∈ g_id_owners_tree s -> ~ covers_id id r) /\ owner_of s id = 0).
Proof.
  intros Hok. destruct (decide (Exists (fun r => rstart r <= id /\ id <= rend r) (g_id_owners_tree s))) as [He|He].
  - left. apply Exists_exists in He as (r & Hr & ?). exists r. split; [done|]. split; [done|]. by apply owner_of_covered.
  - right. assert (Hn : forall r, r ∈ g_id_owners_tree s -> ~ covers_id id r).
    { intros r Hr Hc. apply He, Exists_exists. eauto. }
    split; [done|]. by apply owner_of_free.
Qed.

(** ** Insertion *)

Lemma insert_range_between last a b r :
  ranges_ok last (a ++ b) -> (forall x, x ∈ a -> rbefore x r) -> (forall x, x ∈ b -> rbefore r x) ->
  range_ok last r -> insert_range r (a ++ b) = a ++ r :: b /\ ranges_ok last (a ++ r :: b).
Proof.
  intros Hok Ha Hb Hr. split.
  - unfold insert_range, seq_insert. rewrite span_app_false.
    2: { apply Forall_forall. intros x Hx. specialize (Ha x Hx). unfold rbefore in Ha. apply Z.leb_gt. lia. }
    assert (Es : span (id_range_cmp r) b = ([], b)).
    { destruct b as [|x b]; [done|]. specialize (Hb x ltac:(left)). simpl. unfold id_range_cmp at 1.
      apply ranges_ok_app in Hok as (_ & (Hx & _)%ranges_ok_cons & _). destruct Hx, Hr. unfold rbefore in Hb.
      by rewrite (proj2 (Z.leb_le _ _)) by lia. }
    rewrite Es. simpl. by rewrite app_nil_r.
  - rewrite ranges_ok_app in *. rewrite ranges_ok_cons. destruct Hok as (? & ? & Hab). split; [done|].
    split; [done|]. intros x y Hx [->|Hy]%elem_of_cons; auto.
Qed.

(** ** Allocation *)

Lemma find_free_spec s :
  ids_ok s -> g_last_id s < PID_MAX ->
  wp _find_free_id_range (fun r s' => s' = s /\
    r = Some (g_last_id s + 1, Z.min (g_last_id s + MAX_RANGE_SIZE) PID_MAX)) s.
Proof.
  intros [Hl Hok] Hlt. unfold _find_free_id_range. wp_steps.
  rewrite u32_small by (unfold u32_mod, PID_MAX, PID_MAX_LIMIT in *; lia).
  rewrite (proj2 (Z.ltb_ge _ _)) by lia.
  destruct (span _ _) as [a b] eqn:E. apply (id_lookup_spec _ _ _ _ _ Hok) in E as (Et & _ & Hb).
  destruct b as [|x b].
  - simpl. wp_steps. split; [done|]. unfold range_end, MAX_RANGE_SIZE.
    rewrite u32_small by (unfold u32_mod, PID_MAX, PID_MAX_LIMIT in *; lia).
    f_equal. f_equal. destruct (PID_MAX <? _) eqn:Ex; breflect; lia.
  - specialize (Hb x ltac:(left)). destruct Hok as [_ Hf]. rewrite Et, Forall_app, Forall_cons in Hf.
    destruct Hf as (_ & [? ?] & _). lia.
Qed.

Definition alloc_post (owner : Z) (s : ipc_ids) (r : Z * Z * Z) (s' : ipc_ids) : Prop :=
  let '(ret, start, end_) := r in
  ret = - ENOMEM /\ s' = s \/
  ret = 0 /\ ids_ok s' /\ g_last_id s' = end_ /\
  start = g_last_id s + 1 /\ start <= end_ <= PID_MAX /\ end_ - start + 1 <= MAX_RANGE_SIZE /\
  g_id_owners_tree s' = g_id_owners_tree s ++ [IdRange start end_ owner].

Lemma alloc_spec mem owner s :
  ids_ok s -> owner <> 0 -> g_last_id s < PID_MAX ->
  wp (alloc_id_range mem owner) (alloc_post owner s) s.
Proof.
  intros Hs Ho Hlt. unfold alloc_id_range. apply wp_bind, wp_assert; [by apply negb_true_iff, Z.eqb_neq|].
  destruct mem; [|wp_steps; by left]. apply wp_bind. eapply wp_mono; [by apply find_free_spec|].
  intros r s1 [-> ->]. destruct Hs as [Hl Hok]. set (e := Z.min _ _).
  assert (He : g_last_id s + 1 <= e <= PID_MAX) by (unfold e, MAX_RANGE_SIZE; lia).
  apply wp_bind, wp_assert; [apply andb_true_iff; split; apply negb_true_iff, Z.eqb_neq; lia|]. wp_steps.
  unfold put_tree. wp_steps. apply wp_assert; [apply Z.ltb_lt; lia|]. wp_steps. right. simpl.
  destruct (insert_range_between e (g_id_owners_tree s) [] (IdRange (g_last_id s + 1) e owner)) as [Ei Hi].
  - rewrite app_nil_r. eapply ranges_ok_mono; [|exact Hok]. lia.
  - intros x Hx. destruct Hok as [_ Hf]. rewrite Forall_forall in Hf. destruct (Hf x Hx). unfold rbefore. simpl. lia.
  - by intros x ?%elem_of_nil.
  - split; simpl; (done || lia).
  - unfold insert_range in Ei. rewrite app_nil_r in Ei. rewrite Ei. split; [done|].
    split; [split; simpl; [lia|done]|]. split; [done|]. split; [done|]. split; [lia|].
    split; [unfold e, MAX_RANGE_SIZE; lia|done].
Qed.

(** ** Changing the owner of one ID *)

(** The pieces of a range of which one ID gets a new owner. *)
Definition split_range (r : id_range) (id o : Z) : list id_range :=
  (if rstart r <? id then [IdRange (rstart r) (id - 1) (rowner r)] else []) ++
  [IdRange id id o] ++
  (if id <? rend r then [IdRange (id + 1) (rend r) (rowner r)] else []).

Lemma split_range_elem r id o x :
  x ∈ split_range r id o <->
  (x = IdRange id id o) \/ (rstart r < id /\ x = IdRange (rstart r) (id - 1) (rowner r)) \/
  (id < rend r /\ x = IdRange (id + 1) (rend r) (rowner r)).
Proof.
  unfold split_range. rewrite !elem_of_app, list_elem_of_singleton.
  destruct (Z.ltb_spec (rstart r) id), (Z.ltb_spec id (rend r));
    rewrite ?list_elem_of_singleton, ?elem_of_nil; naive_solver lia.
Qed.

Lemma split_range_ok last a b r id o :
  ranges_ok last (a ++ r :: b) -> covers_id id r -> o <> 0 -> ranges_ok last (a ++ split_range r id o ++ b).
Proof.
  intros (Ha & (Hr & Hb & Hrb)%ranges_ok_cons & Hab)%ranges_ok_app Hc Ho. destruct Hr. unfold covers_id in Hc.
  assert (Hs : ranges_ok last (split_range r id o)).
  { unfold split_range. destruct (Z.ltb_spec (rstart r) id), (Z.ltb_spec id (rend r)); simpl;
      rewrite !ranges_ok_cons;
      repeat match goal with |- _ /\ _ => split | |- range_ok _ _ => split; simpl; (done || lia) end;
      try apply ranges_ok_nil;
      intros y; rewrite ?elem_of_cons, ?elem_of_nil; unfold rbefore; naive_solver lia. }
  rewrite !ranges_ok_app. split; [done|]. split; [split; [done|split; [done|]]|].
  - intros x y Hx Hy. specialize (Hrb y Hy). apply split_range_elem in Hx. unfold rbefore in *. naive_solver lia.
  - intros x y Hx [Hy|Hy]%elem_of_app; [|apply Hab; [done|by right]]. specialize (Hab x r Hx ltac:(left)).
    apply split_range_elem in Hy. unfold rbefore in *. naive_solver lia.
Qed.

Lemma put_tree_wp t Q s : Q () (IpcIds t (g_last_id s)) -> wp (put_tree t) Q s.
Proof. intros H. unfold put_tree. by wp_steps. Qed.

Lemma id_lookup_app last id a r b :
  ranges_ok last (a ++ r :: b) -> covers_id id r -> id_lookup id (a ++ r :: b) = (a, r :: b).
Proof.
  intros (_ & _ & Hab)%ranges_ok_app Hc. unfold covers_id in Hc. apply span_app_true.
  - apply Forall_forall. intros x Hx. specialize (Hab x r Hx ltac:(left)). unfold rbefore in Hab.
    apply Z.leb_gt. simpl. lia.
  - apply Z.leb_le. simpl. lia.
Qed.

(** The cases of [change_id_owner]: what the insertions make of the tree. *)
Lemma change_tree last a b r id o :
  last <= PID_MAX -> ranges_ok last (a ++ r :: b) -> covers_id id r -> o <> 0 ->
  a ++ split_range r id o ++ b =
  if rstart r =? rend r then a ++ IdRange (rstart r) (rend r) o :: b
  else if rstart r =? id then
    insert_range (IdRange id id o) (a ++ IdRange (u32 (rstart r + 1)) (rend r) (rowner r) :: b)
  else if rend r =? id then
    insert_range (IdRange id id o) (a ++ IdRange (rstart r) (u32 (rend r - 1)) (rowner r) :: b)
  else insert_range (IdRange (u32 (id + 1)) (rend r) (rowner r)) (insert_range (IdRange id id o)
    (a ++ IdRange (rstart r) (u32 (id - 1)) (rowner r) :: b)).
Proof.
  intros Hlast Hok Hc Ho. pose proof (split_range_ok last a b r id o Hok Hc Ho) as Hok'.
  pose proof Hok as (_ & (Hr & _)%ranges_ok_cons & _)%ranges_ok_app. destruct Hr. unfold covers_id in Hc.
  assert (Hu : forall x, 0 <= x <= PID_MAX + 1 -> u32 x = x).
  { intros. apply u32_small. unfold u32_mod, PID_MAX, PID_MAX_LIMIT in *. lia. }
  (* inserting [n] between two parts of a good tree *)
  assert (Hins : forall x n y, ranges_ok last (x ++ n :: y) -> insert_range n (x ++ y) = x ++ n :: y).
  { intros x n y (Hx & (Hn & Hy & Hny)%ranges_ok_cons & Hxy)%ranges_ok_app.
    apply (insert_range_between last); [|intros z Hz; apply Hxy; [done|left]|done|done].
    apply ranges_ok_app. split; [done|]. split; [done|]. intros u v Hu' Hv. apply Hxy; [done|by right]. }
  unfold split_range in *. destruct (Z.eqb_spec (rstart r) (rend r)); [|destruct (Z.eqb_spec (rstart r) id);
    [|destruct (Z.eqb_spec (rend r) id)]].
  - rewrite !(proj2 (Z.ltb_ge _ _)) by lia. simpl. do 2 f_equal; f_equal; lia.
  - rewrite (proj2 (Z.ltb_ge _ _)), (proj2 (Z.ltb_lt _ _)) in * by lia. simpl in *. rewrite Hu by lia.
    replace (rstart r + 1) with (id + 1) by lia. by rewrite Hins.
  - rewrite (proj2 (Z.ltb_lt _ _)), (proj2 (Z.ltb_ge _ _)) in * by lia. simpl in *. rewrite Hu by lia.
    replace (rend r - 1) with (id - 1) by lia. symmetry.
    rewrite (cons_middle _ a b), (cons_middle _ a (IdRange _ _ _ :: b)), !app_assoc in *. by apply Hins.
  - rewrite !(proj2 (Z.ltb_lt _ _)) in * by lia. simpl in *. rewrite !Hu by lia. symmetry.
    rewrite (cons_middle _ a b), (cons_middle _ a (IdRange _ _ _ :: _)), !app_assoc in *.
    rewrite Hins.
    + rewrite (cons_middle _ _ b), (cons_middle _ _ (IdRange (id + 1) _ _ :: b)), !app_assoc in *. by apply Hins.
    + rewrite ranges_ok_app, !ranges_ok_cons in *. destruct Hok' as (? & (? & (? & ? & H1) & H2) & H3).
      split; [done|]. split; [split; [done|split; [done|]]|].
      * intros y Hy. apply H2. by right.
      * intros x y Hx Hy. apply H3; [done|]. rewrite !elem_of_cons in *. tauto.
Qed.

Lemma change_spec mem1 mem2 id o s a r b :
  ids_ok s -> g_id_owners_tree s = a ++ r :: b -> covers_id id r -> o <> 0 ->
  wp (change_id_owner mem1 mem2 id o) (fun ret s' =>
    ret = - ENOMEM /\ s' = s \/
    ret = 0 /\ ids_ok s' /\ s' = IpcIds (a ++ split_range r id o ++ b) (g_last_id s)) s.
Proof.
  intros [Hl Hok] Et Hc Ho. unfold change_id_owner.
  destruct mem1; [|wp_steps; by left]. destruct mem2; [|wp_steps; by left]. simpl. wp_steps.
  rewrite Et in *. rewrite (id_lookup_app _ id a r b Hok Hc). unfold covers_id in Hc.
  rewrite (proj2 (Z.ltb_ge _ _)), (proj2 (Z.ltb_ge _ _)) by lia. simpl.
  pose proof (change_tree _ a b r id o (proj2 Hl) Hok Hc Ho) as Hch.
  pose proof (split_range_ok _ a b r id o Hok Hc Ho) as Hok'.
  pose proof Hok as (_ & (Hr & _)%ranges_ok_cons & _)%ranges_ok_app. destruct Hr.
  assert (Hdone : forall t, t = a ++ split_range r id o ++ b -> wp (put_tree t)
    (fun _ s' => wp (mret 0) (fun ret s' => ret = - ENOMEM /\ s' = s \/
      ret = 0 /\ ids_ok s' /\ s' = IpcIds (a ++ split_range r id o ++ b) (g_last_id s)) s') s).
  { intros t ->. apply put_tree_wp. wp_steps. right. split; [done|]. by split; [split|]. }
  apply wp_bind. destruct (Z.eqb_spec (rstart r) (rend r)) as [E1|E1]; [|destruct (Z.eqb_spec (rstart r) id) as [E2|E2];
    [|destruct (Z.eqb_spec (rend r) id) as [E3|E3]]]; [..|]; try (by apply Hdone; rewrite Hch).
  - apply wp_bind, wp_assert; [apply Z.eqb_eq; lia|]. by apply Hdone.
  - apply wp_bind, wp_assert; [|by apply Hdone]. apply Z.leb_le. rewrite u32_small; [lia|].
    unfold u32_mod, PID_MAX, PID_MAX_LIMIT in *. lia.
Qed.

(** ** Releasing a range *)

Lemma release_spec start end_ s a r b :
  ids_ok s -> g_id_owners_tree s = a ++ r :: b -> rstart r = start -> rend r = end_ ->
  wp (release_id_range start end_) (fun _ s' => ids_ok s' /\ s' = IpcIds (a ++ b) (g_last_id s)) s.
Proof.
  intros [Hl Hok] Et Es Ee. unfold release_id_range. wp_steps. rewrite Et in *.
  pose proof Hok as (Ha & (Hr & Hb & Hrb)%ranges_ok_cons & Hab)%ranges_ok_app. destruct Hr.
  rewrite span_app_true.
  - rewrite Es, Ee, !Z.eqb_refl. simpl. apply put_tree_wp. split; [|done]. split; [done|]. simpl.
    apply ranges_ok_app. split; [done|]. split; [done|]. intros x y Hx Hy. apply Hab; [done|by right].
  - apply Forall_forall. intros x Hx. specialize (Hab x r Hx ltac:(left)). unfold rbefore in Hab.
    apply andb_false_iff. left. apply Z.leb_gt. simpl. lia.
  - apply andb_true_iff. split; apply Z.leb_le; simpl; lia.
Qed.

(** ** The map from IDs to owners *)

Lemma owner_of_iff s id o :
  ids_ok s -> o <> 0 ->
  owner_of s id = o <-> exists r, r ∈ g_id_owners_tree s /\ covers_id id r /\ rowner r = o.
Proof.
  intros [_ Hok] Ho. destruct (owner_of_cases s id Hok) as [(r & Hr & Hc & ->)|[Hn ->]].
  - split; [eauto|]. intros (r' & Hr' & Hc' & <-). rewrite <- (owner_of_covered s r' id) by done.
    by rewrite <- (owner_of_covered s r id).
  - split; [done|]. intros (r & Hr & Hc & _). by destruct (Hn r Hr).
Qed.

Lemma owner_eq x y : (forall o, o <> 0 -> x = o <-> y = o) -> x = y.
Proof.
  intros H. destruct (Z.eq_dec x 0) as [->|Hx]; [|symmetry; by apply (H x Hx)].
  destruct (Z.eq_dec y 0) as [->|Hy]; [done|]. by apply (H y Hy).
Qed.

(** An allocated range consists of IDs that nobody owns and that lie above all
    IDs given out before, so that IDs are never used twice; nothing else changes.
    Only when all IDs are used up does the leader abort. *)
Theorem alloc_id_range_fresh mem owner s :
  ids_ok s -> owner <> 0 -> g_last_id s < PID_MAX ->
  wp (alloc_id_range mem owner) (fun r s' => let '(ret, start, end_) := r in
    ret = - ENOMEM /\ s' = s \/
    ret = 0 /\ ids_ok s' /\ g_last_id s < start <= end_ /\ end_ <= PID_MAX /\ end_ - start + 1 <= MAX_RANGE_SIZE /\
    g_last_id s' = end_ /\
    forall id, owner_of s' id = if decide (start <= id <= end_) then owner else owner_of s id) s.
Proof.
  intros Hs Ho Hl. eapply wp_mono; [by apply alloc_spec|].
  intros [[ret a] b] s' [?|(-> & Hs' & El & Ea & Hb & Hsz & Et)]; [by left|]. right. split_and!; try done; try lia.
  intros id. apply owner_eq. intros o Hoo. rewrite owner_of_iff by done. rewrite Et.
  setoid_rewrite elem_of_app. setoid_rewrite list_elem_of_singleton. unfold covers_id. case_decide as Hid.
  - split; [|intros <-; exists (IdRange a b owner); split; [by right|done]].
    intros (r & [Hr| ->] & Hc & <-); [|done]. destruct Hs as [_ [_ Hf]]. rewrite Forall_forall in Hf.
    destruct (Hf r Hr). lia.
  - rewrite owner_of_iff by done. unfold covers_id. split; [|intros (r & Hr & ?); exists r; tauto].
    intros (r & [Hr| ->] & Hc & <-); [eauto|]. simpl in Hc. lia.
Qed.

(** After [change_id_owner] exactly the given ID has the new owner. *)
Theorem change_id_owner_correct mem1 mem2 id o s :
  ids_ok s -> owner_of s id <> 0 -> o <> 0 ->
  wp (change_id_owner mem1 mem2 id o) (fun ret s' =>
    ret = - ENOMEM /\ s' = s \/
    ret = 0 /\ ids_ok s' /\ g_last_id s' = g_last_id s /\
    forall x, owner_of s' x = if decide (x = id) then o else owner_of s x) s.
Proof.
  intros Hs Hown Ho. destruct (proj1 (owner_of_iff s id _ Hs Hown) eq_refl) as (r & Hin & Hc & _).
  apply list_elem_of_split in Hin as (a & b & Et).
  eapply wp_mono; [by apply (change_spec mem1 mem2 id o s a r b)|].
  intros ret s' [?|(-> & Hs' & ->)]; [by left|]. right. split; [done|]. split; [done|]. split; [done|].
  intros x. apply owner_eq. intros q Hq. rewrite owner_of_iff by done. simpl.
  assert (Hx : forall y, y ∈ a ++ split_range r id o ++ b <-> y ∈ a \/ y ∈ b \/ y ∈ split_range r id o)
    by (intros; rewrite !elem_of_app; tauto).
  setoid_rewrite Hx. setoid_rewrite split_range_elem. unfold covers_id in *. clear Hx.
  assert (Hd : forall y, y ∈ a \/ y ∈ b -> ~ (rstart y <= id <= rend y)).
  { destruct Hs as [_ Hok]. rewrite Et in Hok. apply ranges_ok_app in Hok as (_ & (_ & _ & Hb)%ranges_ok_cons & Hab).
    intros y [Hy|Hy]; [specialize (Hab y r Hy ltac:(left))|specialize (Hb y Hy)]; unfold rbefore in *; lia. }
  case_decide as Hxi.
  - subst x. split; [|intros ->; exists (IdRange id id q); simpl; split; [tauto|split; [lia|done]]].
    intros (y & [Hy|[Hy|[->|[[? ->]|[? ->]]]]] & Hy' & <-); simpl in *; try done; try lia; by destruct (Hd y); auto.
  - rewrite owner_of_iff by done. unfold covers_id. rewrite Et. setoid_rewrite elem_of_app. setoid_rewrite elem_of_cons.
    split.
    + intros (y & [Hy|[Hy|[->|[[? ->]|[? ->]]]]] & Hy' & <-); simpl in *;
        [exists y; tauto|exists y; tauto|lia|exists r; split; [tauto|split; [lia|done]]..].
    + intros (y & [Hy|[->|Hy]] & Hy' & <-); [exists y; tauto| |exists y; tauto].
      destruct (Z_lt_le_dec x id).
      * exists (IdRange (rstart r) (id - 1) (rowner r)). simpl. split; [|split; [lia|done]]. right; right; right; left. split; [lia|done].
      * exists (IdRange (id + 1) (rend r) (rowner r)). simpl. split; [|split; [lia|done]]. right; right; right; right. split; [lia|done].
Qed.

(** After [release_id_range] exactly the IDs of the range are free. *)
Theorem release_id_range_correct r s :
  ids_ok s -> r ∈ g_id_owners_tree s ->
  wp (release_id_range (rstart r) (rend r)) (fun _ s' => ids_ok s' /\ g_last_id s' = g_last_id s /\
    forall x, owner_of s' x = if decide (rstart r <= x <= rend r) then 0 else owner_of s x) s.
Proof.
  intros Hs (a & b & Et)%list_elem_of_split. eapply wp_mono; [by apply (release_spec _ _ s a r b)|].
  intros _ s' [Hs' ->]. split; [done|]. split; [done|]. intros x. apply owner_eq. intros q Hq.
  rewrite owner_of_iff by done. simpl. unfold covers_id. setoid_rewrite elem_of_app. case_decide as Hx.
  - split; [|done]. destruct Hs as [_ Hok]. rewrite Et in Hok.
    apply ranges_ok_app in Hok as (_ & (_ & _ & Hb)%ranges_ok_cons & Hab).
    intros (y & [Hy|Hy] & ? & _); [specialize (Hab y r Hy ltac:(left))|specialize (Hb y Hy)]; unfold rbefore in *; lia.
  - rewrite owner_of_iff by done. rewrite Et. unfold covers_id. setoid_rewrite elem_of_app. setoid_rewrite elem_of_cons.
    split; [intros (y & ? & ?); exists y; tauto|]. intros (y & [Hy|[->|Hy]] & ? & <-); [exists y; tauto|tauto|exists y; tauto].
Qed.

(** ** Examples *)

(** Process 1 owns 1 to 32, process 2 owns 33 to 40. *)
Definition ids_ex : ipc_ids := IpcIds [IdRange 1 32 1; IdRange 33 40 2] 40.

Lemma ids_ex_ok : ids_ok ids_ex.
Proof.
  split; simpl; [unfold PID_MAX, PID_MAX_LIMIT; lia|]. rewrite !ranges_ok_cons.
  split; [by split|]. split; [split; [by split|split; [apply ranges_ok_nil|by intros y ?%elem_of_nil]]|].
  by intros y ->%list_elem_of_singleton.
Qed.

Lemma alloc_id_range_witness :
  wp (alloc_id_range true 3) (fun r s' => let '(ret, start, end_) := r in
    ret = - ENOMEM /\ s' = ids_ex \/
    ret = 0 /\ ids_ok s' /\ g_last_id ids_ex < start <= end_ /\ end_ <= PID_MAX /\ end_ - start + 1 <= MAX_RANGE_SIZE /\
    g_last_id s' = end_ /\
    forall id, owner_of s' id = if decide (start <= id <= end_) then 3 else owner_of ids_ex id) ids_ex.
Proof. apply (alloc_id_range_fresh true 3 ids_ex); [apply ids_ex_ok|done|done]. Defined.

Lemma change_id_owner_witness :
  wp (change_id_owner true true 7 5) (fun ret s' =>
    ret = - ENOMEM /\ s' = ids_ex \/
    ret = 0 /\ ids_ok s' /\ g_last_id s' = g_last_id ids_ex /\
    forall x, owner_of s' x = if decide (x = 7) then 5 else owner_of ids_ex x) ids_ex.
Proof. apply (change_id_owner_correct true true 7 5 ids_ex); [apply ids_ex_ok|done|done]. Defined.

Lemma release_id_range_witness :
  wp (release_id_range 33 40) (fun _ s' => ids_ok s' /\ g_last_id s' = g_last_id ids_ex /\
    forall x, owner_of s' x = if decide (33 <= x <= 40) then 0 else owner_of ids_ex x) ids_ex.
Proof. apply (release_id_range_correct (IdRange 33 40 2) ids_ex); [apply ids_ex_ok|]. right. left. Defined.
