(* ===== verification/IdService.v ===== *)
(** * The interface between the two ID components

    What [libos_pid.c] relies on when it asks for, passes on and gives back ranges
    of IDs, and the proof that [libos_ipc_pid.c] provides it, both in the leader
    and over IPC. *)

From S2P Require Import Prelude OrdSeq IpcPid IpcPidSpec.

(** What is left of a range without one of its IDs. *)
Definition range_without (a b id : Z) : list (Z * Z) :=
  (if a <? id then [(a, id - 1)] else []) ++ (if id <? b then [(id + 1, b)] else []).

(** [I] is the state of the service and [C] what may happen to a request on its
    way. *)
Class IdService (I C : Type) := {
  svc_ok : I -> Prop;
  svc_exhausted : I -> Prop;
  svc_holds : I -> Z -> list (Z * Z);                 (* ranges of a process *)
  svc_alloc : C -> Z -> SM I (Z * Z * Z);             (* [ipc_alloc_id_range] *)
  svc_change : C -> Z -> Z -> Z -> SM I Z;            (* [ipc_change_id_owner] *)
  svc_release : Z -> Z -> Z -> SM I unit;             (* [ipc_release_id_range], when it arrives *)

  svc_range s o a b : svc_ok s -> (a, b) ∈ svc_holds s o -> 1 <= a <= b /\ b <= PID_MAX;
  svc_disjoint s o o' a b a' b' id :
    svc_ok s -> (a, b) ∈ svc_holds s o -> (a', b') ∈ svc_holds s o' -> a <= id <= b -> a' <= id <= b' ->
    o = o' /\ a = a' /\ b = b';
  svc_nodup s o : svc_ok s -> NoDup (svc_holds s o);
  svc_alloc_spec c o s :
    svc_ok s -> o <> 0 -> ~ svc_exhausted s ->
    wp (svc_alloc c o) (fun r s' => let '(ret, a, b) := r in svc_ok s' /\
      (ret < 0 /\ s' = s \/
       ret = 0 /\ b - a + 1 <= MAX_RANGE_SIZE /\ svc_holds s' o ≡ₚ (a, b) :: svc_holds s o /\
         forall q, q <> o -> svc_holds s' q = svc_holds s q)) s;
  svc_change_spec c o o' id a b rest s :
    svc_ok s -> o <> 0 -> o' <> 0 -> o' <> o -> svc_holds s o ≡ₚ (a, b) :: rest -> a <= id <= b ->
    wp (svc_change c o id o') (fun ret s' => svc_ok s' /\
      (ret < 0 /\ s' = s \/
       ret = 0 /\ svc_holds s' o ≡ₚ range_without a b id ++ rest /\
         svc_holds s' o' ≡ₚ (id, id) :: svc_holds s o' /\
         forall q, q <> o -> q <> o' -> svc_holds s' q = svc_holds s q)) s;
  svc_release_spec o a b rest s :
    svc_ok s -> svc_holds s o ≡ₚ (a, b) :: rest ->
    wp (svc_release o a b) (fun _ s' => svc_ok s' /\ svc_holds s' o ≡ₚ rest /\
      forall q, q <> o -> svc_holds s' q = svc_holds s q) s
}.

(** ** The leader provides the service *)

(** A process in the role of the leader or not, and the failures of the request. *)
Record request := Request {
  rq_leader_vmid : Z;
  rq_mem : bool;
  rq_send : Z;
  rq_lmem1 : bool;
  rq_lmem2 : bool;
  rq_lost : Z;
  rq_lost_neg : rq_lost < 0   (* an error code *)
}.

Definition key (r : id_range) : Z * Z := (rstart r, rend r).
Definition holds (s : ipc_ids) (o : Z) : list (Z * Z) :=
  key <$> filter (fun r => rowner r = o) (g_id_owners_tree s).

Lemma ids_held_elem s o a b :
  (a, b) ∈ holds s o <-> exists r, r ∈ g_id_owners_tree s /\ rowner r = o /\ rstart r = a /\ rend r = b.
Proof.
  unfold holds, key. rewrite list_elem_of_fmap. split.
  - intros (r & [= -> ->] & [? ?]%list_elem_of_filter). eauto.
  - intros (r & ? & ? & <- & <-). exists r. by rewrite list_elem_of_filter.
Qed.

Lemma tree_disjoint last t r r' id :
  ranges_ok last t -> r ∈ t -> r' ∈ t -> covers_id id r -> covers_id id r' -> r = r'.
Proof.
  unfold covers_id. induction t as [|x t IH]; [by intros _ ?%elem_of_nil|].
  intros (Hx & Ht & Hlt)%ranges_ok_cons [->|Hr]%elem_of_cons [->|Hr']%elem_of_cons Hc Hc'; [done|..].
  - specialize (Hlt r' Hr'). unfold rbefore in Hlt. lia.
  - specialize (Hlt r Hr). unfold rbefore in Hlt. lia.
  - by apply IH.
Qed.

Lemma tree_nodup last t : ranges_ok last t -> NoDup (key <$> t).
Proof.
  induction t as [|x t IH]; [constructor|]. intros (Hx & Ht & Hlt)%ranges_ok_cons. rewrite fmap_cons.
  apply NoDup_cons. split; [|by apply IH]. intros (r & [= E1 E2] & Hr)%list_elem_of_fmap.
  specialize (Hlt r Hr). destruct Hx. unfold rbefore in Hlt. lia.
Qed.

Lemma ids_held_app t1 t2 last o :
  holds (IpcIds (t1 ++ t2) last) o = holds (IpcIds t1 last) o ++ holds (IpcIds t2 last) o.
Proof. unfold holds. simpl. by rewrite filter_app, fmap_app. Qed.

Lemma ids_held_cons r t last o :
  holds (IpcIds (r :: t) last) o =
  (if decide (rowner r = o) then [key r] else []) ++ holds (IpcIds t last) o.
Proof. unfold holds. simpl. rewrite filter_cons. by destruct (decide (rowner r = o)). Qed.

(** The place of a held range in the tree. *)
Lemma holds_split s o a b rest :
  holds s o ≡ₚ (a, b) :: rest ->
  exists t1 r t2, g_id_owners_tree s = t1 ++ r :: t2 /\ rowner r = o /\ rstart r = a /\ rend r = b /\
    holds (IpcIds t1 (g_last_id s)) o ++ holds (IpcIds t2 (g_last_id s)) o ≡ₚ rest.
Proof.
  intros Hp. assert (Hin : (a, b) ∈ holds s o) by (rewrite Hp; left).
  apply ids_held_elem in Hin as (r & Hr & Ho & Ha & Hb). apply list_elem_of_split in Hr as (t1 & t2 & Et).
  exists t1, r, t2. split_and!; try done. destruct s as [t last]. simpl in *. subst t.
  rewrite ids_held_app, ids_held_cons, decide_True in Hp by done. simpl in Hp. unfold key in Hp. rewrite Ha, Hb in Hp.
  apply (Permutation_cons_inv (a := (a, b))). rewrite <- Hp. by rewrite Permutation_middle.
Qed.

Lemma holds_split_range r id o o' last q :
  rowner r = o -> o' <> o ->
  holds (IpcIds (split_range r id o') last) q =
  if decide (q = o) then range_without (rstart r) (rend r) id else if decide (q = o') then [(id, id)] else [].
Proof.
  intros Hr Hne. unfold split_range, range_without. rewrite !ids_held_app, !ids_held_cons. simpl.
  destruct (rstart r <? id), (id <? rend r); rewrite ?ids_held_cons; unfold holds, key; simpl; rewrite ?Hr;
    repeat case_decide; simplify_eq; done.
Qed.

Lemma leader_alloc lmem o s :
  ids_ok s -> o <> 0 -> g_last_id s < PID_MAX ->
  wp (alloc_id_range lmem o) (fun r s' => let '(ret, a, b) := r in ids_ok s' /\
    (ret < 0 /\ s' = s \/
     ret = 0 /\ 1 <= a <= b /\ b - a + 1 <= MAX_RANGE_SIZE /\ holds s' o ≡ₚ (a, b) :: holds s o /\
       forall q, q <> o -> holds s' q = holds s q)) s.
Proof.
  intros Hs Ho Hl. eapply wp_mono; [by apply alloc_spec|].
  intros [[ret a] b] s' [[-> ->]|(-> & Hs' & El & Ea & Hb & Hsz & Et)]; [split; [done|]; left; by split|].
  destruct s as [t last], s' as [t' last']. simpl in *. subst. split; [done|]. right. split; [done|].
  destruct Hs as [Hl0 _]. simpl in Hl0. split; [lia|]. split; [done|].
  assert (Hh : forall q, holds (IpcIds (t ++ [IdRange (last + 1) b o]) b) q =
    holds (IpcIds t last) q ++ if decide (o = q) then [(last + 1, b)] else []).
  { intros q. rewrite ids_held_app, ids_held_cons. simpl. unfold holds. simpl. rewrite app_nil_r. done. }
  split.
  - rewrite Hh, decide_True by done. by rewrite Permutation_app_comm.
  - intros q Hq. rewrite Hh, decide_False by done. apply app_nil_r.
Qed.

Lemma leader_change mem1 mem2 o o' id a b rest s :
  ids_ok s -> o' <> 0 -> o' <> o -> holds s o ≡ₚ (a, b) :: rest -> a <= id <= b ->
  wp (change_id_owner mem1 mem2 id o') (fun ret s' => ids_ok s' /\
    (ret < 0 /\ s' = s \/
     ret = 0 /\ holds s' o ≡ₚ range_without a b id ++ rest /\ holds s' o' ≡ₚ (id, id) :: holds s o' /\
       forall q, q <> o -> q <> o' -> holds s' q = holds s q)) s.
Proof.
  intros Hs Ho' Hne Hp Hid. destruct (holds_split s o a b rest Hp) as (t1 & r & t2 & Et & Hr & Ea & Eb & Hrest).
  eapply wp_mono; [apply (change_spec _ _ id o' s t1 r t2); try done; unfold covers_id; lia|].
  intros ret s' [[-> ->]|(-> & Hs' & ->)]; [split; [done|]; left; by split|]. split; [done|]. right. split; [done|].
  assert (Hh : forall q, holds (IpcIds (t1 ++ split_range r id o' ++ t2) (g_last_id s)) q =
    holds (IpcIds t1 (g_last_id s)) q ++ (if decide (q = o) then range_without a b id
      else if decide (q = o') then [(id, id)] else []) ++ holds (IpcIds t2 (g_last_id s)) q).
  { intros q. by rewrite !ids_held_app, (holds_split_range r id o), Ea, Eb. }
  assert (Hq : forall q, q <> o -> holds s q = holds (IpcIds t1 (g_last_id s)) q ++ holds (IpcIds t2 (g_last_id s)) q).
  { intros q Hq. destruct s as [t last]. simpl in *. subst t.
    by rewrite ids_held_app, ids_held_cons, decide_False by congruence. }
  split; [|split].
  - rewrite Hh, decide_True, <- Hrest by done. solve_Permutation.
  - rewrite Hh, decide_False, decide_True, Hq by done. solve_Permutation.
  - intros q Hqo Hqo'. by rewrite Hh, !decide_False, Hq by done.
Qed.

Lemma leader_release o a b rest s :
  ids_ok s -> holds s o ≡ₚ (a, b) :: rest ->
  wp (release_id_range a b) (fun _ s' => ids_ok s' /\ holds s' o ≡ₚ rest /\
    forall q, q <> o -> holds s' q = holds s q) s.
Proof.
  intros Hs Hp. destruct (holds_split s o a b rest Hp) as (t1 & r & t2 & Et & Hr & Ea & Eb & Hrest).
  eapply wp_mono; [by apply (release_spec a b s t1 r t2)|]. intros _ s' [Hs' ->]. split; [done|].
  rewrite ids_held_app. split; [done|]. intros q Hq. rewrite ids_held_app. destruct s as [t last]. simpl in *. subst t.
  by rewrite ids_held_app, ids_held_cons, decide_False by congruence.
Qed.

Section instance.
Implicit Types (c : request) (s : ipc_ids).

Definition rq_alloc c (o : Z) : SM ipc_ids (Z * Z * Z) :=
  ipc_alloc_id_range (rq_leader_vmid c) o (rq_mem c) (rq_send c) (rq_lmem1 c).
Definition rq_change c (o id o' : Z) : SM ipc_ids Z :=
  ipc_change_id_owner (rq_leader_vmid c) (rq_mem c) (rq_send c) (rq_lmem1 c) (rq_lmem2 c) (rq_lost c) id o'.

Lemma rq_alloc_spec c o s :
  ids_ok s -> o <> 0 -> ~ PID_MAX <= g_last_id s ->
  wp (rq_alloc c o) (fun r s' => let '(ret, a, b) := r in ids_ok s' /\
    (ret < 0 /\ s' = s \/
     ret = 0 /\ b - a + 1 <= MAX_RANGE_SIZE /\ holds s' o ≡ₚ (a, b) :: holds s o /\
       forall q, q <> o -> holds s' q = holds s q)) s.
Proof.
  intros Hs Ho Hl. unfold rq_alloc, ipc_alloc_id_range, ipc_alloc_id_range_callback.
  pose proof (leader_alloc (rq_lmem1 c) o s Hs Ho ltac:(lia)) as Ha.
  destruct (rq_leader_vmid c =? 0).
  { eapply wp_mono; [exact Ha|]. intros [[ret a] b] s' [? [?|(? & _ & ?)]]; tauto. }
  destruct (rq_mem c); simpl; [|wp_steps; split; [done|]; by left].
  destruct (rq_send c <? 0) eqn:Es; [wp_steps; split; [done|]; left; breflect; done|].
  apply wp_bind, wp_bind. eapply wp_mono; [exact Ha|]. intros [[ret a] b] s' [Hs' Hr].
  apply wp_ret. destruct Hr as [[Hneg ->]|(-> & Hab & Hr)].
  - rewrite (proj2 (Z.ltb_lt _ _)) by done. wp_steps. split; [done|]. by left.
  - simpl. wp_steps. rewrite !(proj2 (Z.eqb_neq _ _)) by lia. simpl. split; [done|]. right. by split.
Qed.

Lemma rq_change_spec c o o' id a b rest s :
  ids_ok s -> o <> 0 -> o' <> 0 -> o' <> o -> holds s o ≡ₚ (a, b) :: rest -> a <= id <= b ->
  wp (rq_change c o id o') (fun ret s' => ids_ok s' /\
    (ret < 0 /\ s' = s \/
     ret = 0 /\ holds s' o ≡ₚ range_without a b id ++ rest /\ holds s' o' ≡ₚ (id, id) :: holds s o' /\
       forall q, q <> o -> q <> o' -> holds s' q = holds s q)) s.
Proof.
  intros Hs _ Ho' Hne Hp Hid. unfold rq_change, ipc_change_id_owner.
  pose proof (leader_change (rq_lmem1 c) (rq_lmem2 c) o o' id a b rest s Hs Ho' Hne Hp Hid) as Hc.
  destruct (rq_leader_vmid c =? 0); [done|]. destruct (rq_mem c); simpl; [|wp_steps; split; [done|]; by left].
  destruct (rq_send c <? 0) eqn:Es; [wp_steps; split; [done|]; left; breflect; done|].
  apply wp_bind. eapply wp_mono; [exact Hc|]. intros ret s' [Hs' [[Hneg ->]|(-> & Hr)]]; wp_steps.
  - rewrite (proj2 (Z.ltb_lt _ _)) by done. split; [done|]. left. split; [apply rq_lost_neg|done].
  - split; [done|]. by right.
Qed.

#[global] Program Instance ipc_id_service : IdService ipc_ids request := {
  svc_ok := ids_ok;
  svc_exhausted := fun s => PID_MAX <= g_last_id s;
  svc_holds := holds;
  svc_alloc := rq_alloc;
  svc_change := rq_change;
  svc_release := fun _ => release_id_range
}.
Next Obligation.
  intros s o a b [Hl [_ Hf]] (r & Hr & _ & <- & <-)%ids_held_elem. rewrite Forall_forall in Hf. destruct (Hf r Hr). lia.
Qed.
Next Obligation.
  intros s o o' a b a' b' id [_ Hok] (r & Hr & <- & <- & <-)%ids_held_elem (r' & Hr' & <- & <- & <-)%ids_held_elem Hc Hc'.
  by rewrite (tree_disjoint _ _ r r' id Hok Hr Hr' Hc Hc').
Qed.
Next Obligation.
  intros s o [_ Hok]. unfold holds. eapply NoDup_fmap_filter, tree_nodup, Hok.
Qed.
Next Obligation. exact rq_alloc_spec. Qed.
Next Obligation. exact rq_change_spec. Qed.
Next Obligation. exact leader_release. Qed.
End instance.
