(* ===== verification/Pid.v ===== *)
(** * IDs of one process: [libos/src/bookkeep/libos_pid.c]

    A process takes IDs from ranges that it gets from the leader.  [g_last_range] is
    the range in use, [g_used_ranges_tree] the others.  The operations work on the
    state of the process together with the state of the service of [IdService].
    The result [None] of an operation stands for [PalProcessExit(1)]. *)

From S2P Require Import Prelude OrdSeq IpcPid IdService.

Record prange := PRange { pstart : Z; pend : Z; taken_count : Z }.

Definition pid_range_cmp (a b : prange) : bool := pstart a <=? pend b.

Record pid_ids := PidIds {
  g_last_range : option prange;
  g_used_ranges_tree : list prange;
  g_last_used_id : Z
}.

Definition insert_used (r : prange) (t : list prange) : list prange := seq_insert (pid_range_cmp r) r t.

(** [init_id_ranges] (the lock aside): the IDs of a new process. *)
Definition init_id_ranges (mem : bool) (preload_tid : Z) : Z * pid_ids :=
  if preload_tid =? 0 then (0, PidIds None [] 0)
  else if mem then (0, PidIds None (insert_used (PRange preload_tid preload_tid 1) []) 0)
  else (- ENOMEM, PidIds None [] 0).

Section pid.
Context {I C : Type} `{!IdService I C}.

Abbreviation M := (SM (pid_ids * I)).

Definition get_pid : M pid_ids := sm_gets fst.
Definition put_pid (p : pid_ids) : M unit := sm_modify (fun s => (p, snd s)).

(** A request to the service. *)
Definition lift {A} (m : SM I A) : M A := fun s =>
  match m (snd s) with
  | Some (a, i) => Some (a, (fst s, i))
  | None => None
  end.

(** The first part of [get_new_id]: makes sure that there is a [g_last_range]. *)
Definition refill (self : Z) (mem : bool) (c : C) : M bool :=
  p ← get_pid;
  match g_last_range p with
  | Some _ => mret true
  | None =>
      if mem then
        r ← lift (svc_alloc c self);
        let '(ret, start, end_) := r in
        if ret <? 0 then mret false
        else
          sm_assert (start <=? end_);;
          sm_assert (end_ - start + 1 <=? MAX_RANGE_SIZE);;
          sm_assert (0 <? start);;
          put_pid (PidIds (Some (PRange start end_ 0)) (g_used_ranges_tree p) (u32 (start - 1)));;
          mret true
      else mret false
  end.

(** The branches that cut an ID out of [g_last_range]; [id] is [g_last_used_id].
    [None]: out of memory. *)
Definition cut_out (mem : bool) (r : prange) (t : list prange) (id : Z) : M (option pid_ids) :=
  if pstart r =? pend r then
    sm_assert (taken_count r =? 0);;
    mret (Some (PidIds None t id))
  else if pstart r =? id then
    sm_assert (taken_count r =? 0);;
    mret (Some (PidIds (Some (PRange (u32 (pstart r + 1)) (pend r) (taken_count r))) t id))
  else if pend r =? id then
    mret (Some (PidIds None (insert_used (PRange (pstart r) (u32 (pend r - 1)) (taken_count r)) t) id))
  else if mem then
    sm_assert ((pstart r <? id) && (id <? pend r));;
    mret (Some (PidIds (Some (PRange (u32 (id + 1)) (pend r) 0))
                  (insert_used (PRange (pstart r) (u32 (id - 1)) (taken_count r)) t) id))
  else mret None.

(** The second part of [get_new_id]: takes the next ID. *)
Definition take (self : Z) (mem : bool) (c : C) (move_ownership_to : Z) : M (option Z) :=
  p ← get_pid;
  match g_last_range p with
  | None => sm_bug
  | Some r =>
      sm_assert (g_last_used_id p <? pend r);;
      sm_assert (taken_count r <? u32 (pend r - pstart r + 1));;
      let ret_id := u32 (g_last_used_id p + 1) in
      let r' := PRange (pstart r) (pend r) (u32 (taken_count r + 1)) in
      if negb (move_ownership_to =? 0) then
        let r'' := PRange (pstart r') (pend r') (u32 (taken_count r' - 1)) in
        res ← cut_out mem r'' (g_used_ranges_tree p) ret_id;
        match res with
        | None =>
            put_pid (PidIds (Some r'') (g_used_ranges_tree p) (u32 (ret_id - 1)));;
            mret (Some 0)
        | Some p' =>
            put_pid p';;
            ret ← lift (svc_change c self ret_id move_ownership_to);
            if ret <? 0 then mret None else mret (Some ret_id)
        end
      else
        put_pid (if ret_id =? pend r' then PidIds None (insert_used r' (g_used_ranges_tree p)) ret_id
                 else PidIds (Some r') (g_used_ranges_tree p) ret_id);;
        mret (Some ret_id)
  end.

(** Result: the ID, 0 on failure. *)
Definition get_new_id (self : Z) (mem1 : bool) (c1 : C) (mem2 : bool) (c2 : C) (move_ownership_to : Z)
    : M (option Z) :=
  ok ← refill self mem1 c1;
  if (ok : bool) then take self mem2 c2 move_ownership_to else mret (Some 0).

(** The part of [release_id] under [g_ranges_lock]: the range that is to be given
    back, if any. *)
Definition release_local (id : Z) : M (option (Z * Z)) :=
  p ← get_pid;
  let in_last := match g_last_range p with
                 | Some r => if (pstart r <=? id) && (id <=? pend r) then Some r else None
                 | None => None
                 end in
  match in_last with
  | Some r =>
      sm_assert (0 <? taken_count r);;
      put_pid (PidIds (Some (PRange (pstart r) (pend r) (taken_count r - 1)))
                 (g_used_ranges_tree p) (g_last_used_id p));;
      mret None
  | None =>
      match span (pid_range_cmp (PRange id id 0)) (g_used_ranges_tree p) with
      | (_, []) => sm_bug
      | (before, r :: after) =>
          if (id <? pstart r) || (pend r <? id) then sm_bug
          else
            sm_assert (0 <? taken_count r);;
            if taken_count r - 1 =? 0 then
              put_pid (PidIds (g_last_range p) (before ++ after) (g_last_used_id p));;
              mret (Some (pstart r, pend r))
            else
              put_pid (PidIds (g_last_range p)
                         (before ++ PRange (pstart r) (pend r) (taken_count r - 1) :: after)
                         (g_last_used_id p));;
              mret None
      end
  end.

(** [release_id], with [send] the result of sending the message. *)
Definition release_id (self : Z) (send : Z) (id : Z) : M (option unit) :=
  res ← release_local id;
  match res with
  | None => mret (Some ())
  | Some (start, end_) =>
      if send <? 0 then mret None else lift (svc_release self start end_);; mret (Some ())
  end.

End pid.
