(* ===== verification/PidSpec.v ===== *)
(** * Correctness of the IDs of a process

    Proved against the interface [IdService]: an ID that [get_new_id] returns is in
    use nowhere else, and the ranges of a process agree with what the leader has
    recorded for it. *)

From S2P Require Import Prelude OrdSeq IpcPid IdService Pid.

(** ** Invariant *)

Definition in_range (id : Z) (r : prange) : Prop := pstart r <= id <= pend r.
Definition pbefore (a b : prange) : Prop := pend a < pstart b.
Definition pkey (r : prange) : Z * Z := (pstart r, pend r).

(** How many of the IDs in use lie in a range. *)
Definition cnt (taken : list Z) (r : prange) : Z :=
  Z.of_nat (length (filter (fun id => pstart r <= id /\ id <= pend r) taken)).

Definition last_list (p : pid_ids) : list prange := match g_last_range p with Some r => [r] | None => [] end.
Definition ranges (p : pid_ids) : list prange := last_list p ++ g_used_ranges_tree p.

(** [taken] are the IDs that the process uses. *)
Record pid_ok (taken : list Z) (p : pid_ids) : Prop := {
  po_sorted : StronglySorted pbefore (g_used_ranges_tree p);
  po_count : forall r, r ∈ ranges p -> taken_count r = cnt taken r;
  po_last : forall r, g_last_range p = Some r ->
    pstart r - 1 <= g_last_used_id p < pend r /\ (forall id, id ∈ taken -> in_range id r -> id <= g_last_used_id p);
  po_nodup : NoDup taken;
  po_taken : forall id, id ∈ taken -> exists r, r ∈ ranges p /\ in_range id r
}.

Section pid.
Context {I C : Type} `{!IdService I C}.

(** The leader has recorded for the process its ranges, and the ones whose release
    is still on its way ([flight]). *)
Record link (self : Z) (flight : list (Z * Z)) (p : pid_ids) (i : I) : Prop := {
  li_ok : svc_ok i;
  li_self : self <> 0;
  li_holds : svc_holds i self ≡ₚ (pkey <$> ranges p) ++ flight
}.

Lemma link_range self flight p i r :
  link self flight p i -> r ∈ ranges p -> 1 <= pstart r <= pend r /\ pend r <= PID_MAX.
Proof.
  intros [Hok _ Hh] Hr. apply (svc_range i self); [done|]. rewrite Hh. apply elem_of_app. left.
  by apply (list_elem_of_fmap_2 pkey).
Qed.

(** An ID lies in one range only. *)
Lemma link_disjoint self flight p i l1 r l2 x id :
  link self flight p i -> ranges p ≡ₚ l1 ++ r :: l2 -> x ∈ l1 ++ l2 -> in_range id r -> in_range id x -> False.
Proof.
  intros [Hok _ Hh] Hp Hx Hr Hx'. pose proof (svc_nodup i self Hok) as Hnd.
  assert (Hin : forall y, y ∈ ranges p -> (pstart y, pend y) ∈ svc_holds i self).
  { intros y Hy. rewrite Hh. apply elem_of_app. left. by apply (list_elem_of_fmap_2 pkey). }
  assert (Hr' : r ∈ ranges p) by (rewrite Hp; in_list).
  assert (Hx0 : x ∈ ranges p) by (rewrite Hp; rewrite elem_of_app in Hx; in_list).
  destruct (svc_disjoint i self self _ _ _ _ id Hok (Hin r Hr') (Hin x Hx0) Hr Hx') as (_ & E1 & E2).
  rewrite Hh, Hp, <- Permutation_middle in Hnd. simpl in Hnd. apply NoDup_cons in Hnd as [Hnd _]. apply Hnd.
  apply elem_of_app. left. replace (pkey r) with (pkey x) by (unfold pkey; congruence).
  by apply list_elem_of_fmap_2.
Qed.

(** Disjoint ranges are ordered. *)
Lemma link_ordered self flight p i r l :
  link self flight p i -> ranges p ≡ₚ r :: l -> forall x, x ∈ l -> pbefore x r \/ pbefore r x.
Proof.
  intros Hl Hp x Hx. assert (Hr : r ∈ ranges p) by (rewrite Hp; left).
  assert (Hx' : x ∈ ranges p) by (rewrite Hp; by right).
  pose proof (link_range _ _ _ _ _ Hl Hr). pose proof (link_range _ _ _ _ _ Hl Hx').
  destruct (Z_lt_le_dec (pend x) (pstart r)); [by left|]. destruct (Z_lt_le_dec (pend r) (pstart x)); [by right|].
  exfalso. eapply (link_disjoint self flight p i [] r l x (Z.max (pstart r) (pstart x))); try done;
    unfold in_range; lia.
Qed.

(** ** Counting *)

Lemma cnt_nil r : cnt [] r = 0.
Proof. done. Qed.

Lemma cnt_cons_in id taken r : in_range id r -> cnt (id :: taken) r = cnt taken r + 1.
Proof. intros H. unfold cnt. rewrite filter_cons_True by done. simpl. lia. Qed.

Lemma cnt_cons_out id taken r : ~ in_range id r -> cnt (id :: taken) r = cnt taken r.
Proof. intros H. unfold cnt. by rewrite filter_cons_False. Qed.

Lemma cnt_perm taken taken' r : taken ≡ₚ taken' -> cnt taken r = cnt taken' r.
Proof. intros H. unfold cnt. by rewrite H. Qed.

(** The same IDs lie in both ranges. *)
Lemma cnt_ext taken r r' :
  (forall id, id ∈ taken -> in_range id r <-> in_range id r') -> cnt taken r = cnt taken r'.
Proof.
  intros H. unfold cnt. do 2 f_equal. induction taken as [|id taken IH]; [done|].
  rewrite !filter_cons. rewrite IH by (intros; apply H; by right).
  specialize (H id ltac:(left)). unfold in_range in H. by repeat case_decide; try tauto.
Qed.

Lemma cnt_zero taken r : (forall id, id ∈ taken -> ~ in_range id r) -> cnt taken r = 0.
Proof.
  intros H. unfold cnt. rewrite list_filter_none; [done|]. apply Forall_forall. exact H.
Qed.

Lemma cnt_nonneg taken r : 0 <= cnt taken r.
Proof. unfold cnt. lia. Qed.

Lemma cnt_zero_inv taken r id : cnt taken r = 0 -> id ∈ taken -> ~ in_range id r.
Proof.
  unfold cnt. intros H Hid Hr. assert (E : filter (fun id => pstart r <= id /\ id <= pend r) taken = []).
  { apply length_zero_iff_nil. lia. }
  assert (Hin : id ∈ filter (fun id => pstart r <= id /\ id <= pend r) taken) by (by apply list_elem_of_filter).
  rewrite E in Hin. by apply elem_of_nil in Hin.
Qed.

(** Distinct numbers from [a] to [b]. *)
Lemma nodup_interval (l : list Z) a b :
  NoDup l -> (forall x, x ∈ l -> a <= x <= b) -> a <= b + 1 -> Z.of_nat (length l) <= b - a + 1.
Proof.
  intros Hnd Hin Hab. assert (Hsub : l ⊆+ seqZ a (b - a + 1)).
  { apply NoDup_submseteq; [done|]. intros x Hx. apply elem_of_seqZ. specialize (Hin x Hx). lia. }
  apply submseteq_length in Hsub. rewrite length_seqZ in Hsub. lia.
Qed.

Lemma cnt_bound taken r u :
  NoDup taken -> (forall id, id ∈ taken -> in_range id r -> id <= u) -> pstart r - 1 <= u -> cnt taken r <= u - pstart r + 1.
Proof.
  intros Hnd Hu Hs. unfold cnt. apply nodup_interval; [by apply NoDup_filter| |lia].
  intros x [Hx Hin]%list_elem_of_filter. specialize (Hu x Hin Hx). lia.
Qed.

(** ** Insertion into the tree *)

Lemma insert_used_sorted r t :
  StronglySorted pbefore t -> (forall x, x ∈ t -> pbefore x r \/ pbefore r x) -> pstart r <= pend r ->
  (forall x, x ∈ t -> pstart x <= pend x) -> StronglySorted pbefore (insert_used r t).
Proof.
  intros Hs Hd Hr Hx. unfold insert_used, seq_insert. destruct (span (pid_range_cmp r) t) as [a b] eqn:E.
  apply span_spec in E as (-> & Ha & Hb). apply StronglySorted_app_iff in Hs as (Hsa & Hsb & Hab).
  assert (Hra : forall x, x ∈ a -> pbefore x r).
  { intros x Hin. rewrite Forall_forall in Ha. specialize (Ha x Hin). apply Z.leb_gt in Ha. unfold pbefore. lia. }
  assert (Hrb : forall x, x ∈ b -> pbefore r x).
  { intros x Hin. destruct b as [|y b]; [by apply elem_of_nil in Hin|]. specialize (Hb y b eq_refl).
    apply Z.leb_le in Hb. assert (Hry : pbefore r y).
    { destruct (Hd y ltac:(in_list)) as [H|H]; [unfold pbefore in H; lia|done]. }
    apply elem_of_cons in Hin as [->|Hin]; [done|]. inversion Hsb as [|? ? _ Hf]; subst.
    rewrite Forall_forall in Hf. specialize (Hf x Hin). specialize (Hx y ltac:(in_list)). unfold pbefore in *. lia. }
  apply StronglySorted_app_iff. split; [done|]. split.
  - constructor; [done|]. by apply Forall_forall.
  - intros x y Hin [->|Hy]%elem_of_cons; auto.
Qed.

Lemma insert_used_perm r t : insert_used r t ≡ₚ r :: t.
Proof. apply seq_insert_perm. Qed.

(** ** A new range *)

Lemma wp_lift {A} (m : SM I A) (Q : A -> pid_ids * I -> Prop) p i :
  wp m (fun a i' => Q a (p, i')) i -> wp (lift m) Q (p, i).
Proof. unfold wp, lift. simpl. by destruct (m i) as [[a i']|]. Qed.

Definition others_same (self : Z) (i i' : I) : Prop := forall q, q <> self -> svc_holds i' q = svc_holds i q.

Lemma elem_ranges p x : x ∈ ranges p <-> g_last_range p = Some x \/ x ∈ g_used_ranges_tree p.
Proof.
  unfold ranges, last_list. rewrite elem_of_app. destruct (g_last_range p).
  - rewrite list_elem_of_singleton. naive_solver.
  - rewrite elem_of_nil. naive_solver.
Qed.

Lemma u32_id x : 0 <= x <= PID_MAX + 1 -> u32 x = x.
Proof. intros. apply u32_small. unfold u32_mod, PID_MAX, PID_MAX_LIMIT in *. lia. Qed.

(** The range that the leader has added contains no ID in use. *)
Lemma fresh_range self flight p i a b taken :
  link self flight (PidIds (Some (PRange a b 0)) (g_used_ranges_tree p) (a - 1)) i ->
  g_last_range p = None -> pid_ok taken p -> forall id, id ∈ taken -> ~ in_range id (PRange a b 0).
Proof.
  intros Hl Hn [_ _ _ _ Ht] id Hid Hr. destruct (Ht id Hid) as (r & Hin & Hr').
  apply elem_ranges in Hin as [?|Hin]; [congruence|].
  by eapply (link_disjoint self flight _ i [] (PRange a b 0) (g_used_ranges_tree p) r id Hl).
Qed.

Lemma refill_spec self mem c taken flight p i :
  pid_ok taken p -> link self flight p i -> ~ svc_exhausted i ->
  wp (refill self mem c) (fun ok s' => pid_ok taken (fst s') /\ link self flight (fst s') (snd s') /\
    others_same self i (snd s') /\ (ok = true -> is_Some (g_last_range (fst s')))) (p, i).
Proof.
  intros Hp Hl Hex. unfold refill, get_pid. wp_steps. simpl. destruct (g_last_range p) as [r|] eqn:El.
  { wp_steps. simpl. rewrite El. by split_and!. }
  destruct mem; [|wp_steps; by split_and!]. apply wp_bind, wp_lift.
  eapply wp_mono; [apply svc_alloc_spec; [apply Hl|apply Hl|done]|].
  intros [[ret a] b] i' [Hok [[Hneg ->]|(-> & Hsz & Hh & Ho)]].
  { rewrite (proj2 (Z.ltb_lt _ _)) by done. wp_steps. by split_and!. }
  simpl. assert (Hl' : link self flight (PidIds (Some (PRange a b 0)) (g_used_ranges_tree p) (a - 1)) i').
  { destruct Hl as [_ ? Hh0]. split; [done..|]. rewrite Hh, Hh0. unfold ranges, last_list. rewrite El. done. }
  destruct (link_range _ _ _ _ (PRange a b 0) Hl') as [Ha Hb]; [by apply elem_ranges; left|]. simpl in Ha, Hb.
  do 3 (apply wp_bind, wp_assert; [first [apply Z.leb_le; lia|apply Z.ltb_lt; lia]|]).
  unfold put_pid. wp_steps. simpl. rewrite u32_id by lia. split; [|split; [done|by split]].
  pose proof (fresh_range _ _ _ _ _ _ _ Hl' El Hp) as Hfree. destruct Hp as [? Hc ? ? Ht]. split; simpl; try done.
  - intros r [[= <-]|Hr]%elem_ranges; [by rewrite cnt_zero|]. apply Hc, elem_ranges. by right.
  - intros r [= <-]. simpl. split; [lia|]. intros id Hid Hr. by destruct (Hfree id Hid).
  - intros id Hid. destruct (Ht id Hid) as (r & [?|Hr]%elem_ranges & ?); [congruence|].
    exists r. split; [|done]. apply elem_ranges. by right.
Qed.

(** ** The next ID *)

(** Facts about the range in use. *)
Lemma last_facts self flight taken p i r :
  pid_ok taken p -> link self flight p i -> g_last_range p = Some r ->
  1 <= pstart r <= pend r /\ pend r <= PID_MAX /\ pstart r - 1 <= g_last_used_id p < pend r /\
  0 <= taken_count r <= g_last_used_id p - pstart r + 1 /\ taken_count r = cnt taken r /\
  in_range (g_last_used_id p + 1) r /\ g_last_used_id p + 1 ∉ taken.
Proof.
  intros Hp Hl El. assert (Hr : r ∈ ranges p) by (apply elem_ranges; by left).
  destruct (link_range _ _ _ _ _ Hl Hr) as [? ?]. destruct (po_last _ _ Hp r El) as [Hu Hle].
  rewrite (po_count _ _ Hp r Hr). pose proof (cnt_nonneg taken r).
  pose proof (cnt_bound taken r (g_last_used_id p) (po_nodup _ _ Hp) Hle ltac:(lia)).
  assert (in_range (g_last_used_id p + 1) r) by (unfold in_range; lia).
  split_and!; try done; try lia. intros Hin. specialize (Hle _ Hin ltac:(done)). lia.
Qed.

(** The other ranges do not contain the next ID. *)
Lemma tree_excludes self flight p i r x id :
  link self flight p i -> g_last_range p = Some r -> x ∈ g_used_ranges_tree p -> in_range id r -> ~ in_range id x.
Proof.
  intros Hl El Hx Hr Hx'. eapply (link_disjoint self flight p i [] r (g_used_ranges_tree p) x id); try done.
  unfold ranges, last_list. by rewrite El.
Qed.

Lemma tree_insert_sorted self flight taken p i r r' :
  pid_ok taken p -> link self flight p i -> g_last_range p = Some r ->
  pstart r <= pstart r' <= pend r' -> pend r' <= pend r ->
  StronglySorted pbefore (insert_used r' (g_used_ranges_tree p)).
Proof.
  intros Hp Hl El Hs He. apply insert_used_sorted; [apply Hp| |lia|].
  - intros x Hx. destruct (link_ordered self flight p i r (g_used_ranges_tree p) Hl) with (x := x) as [H|H]; try done.
    + unfold ranges, last_list. by rewrite El.
    + left. unfold pbefore in *. lia.
    + right. unfold pbefore in *. lia.
  - intros x Hx. eapply link_range; [exact Hl|]. apply elem_ranges. by right.
Qed.

Lemma take_keep_spec self mem c taken flight p i :
  pid_ok taken p -> link self flight p i -> is_Some (g_last_range p) ->
  wp (take self mem c 0) (fun res s' => exists id, res = Some id /\ 1 <= id <= PID_MAX /\ id ∉ taken /\
    pid_ok (id :: taken) (fst s') /\ link self flight (fst s') (snd s') /\ snd s' = i) (p, i).
Proof.
  intros Hp Hl [r El]. destruct (last_facts _ _ _ _ _ _ Hp Hl El) as (Hr & HrP & Hu & Hc & Hcnt & Hin & Hnin).
  unfold take, get_pid. wp_steps. simpl. rewrite El.
  apply wp_bind, wp_assert; [apply Z.ltb_lt; lia|].
  apply wp_bind, wp_assert; [apply Z.ltb_lt; rewrite u32_id; lia|]. rewrite !u32_id by lia. simpl.
  set (id := g_last_used_id p + 1) in *. unfold put_pid. wp_steps. exists id. simpl.
  split; [done|]. split; [unfold in_range in Hin; lia|]. split; [done|].
  set (r' := PRange (pstart r) (pend r) (taken_count r + 1)).
  set (p' := if id =? pend r then PidIds None (insert_used r' (g_used_ranges_tree p)) id
             else PidIds (Some r') (g_used_ranges_tree p) id).
  assert (Hperm : ranges p' ≡ₚ r' :: g_used_ranges_tree p).
  { unfold p', ranges, last_list. destruct (id =? pend r); simpl; [apply insert_used_perm|done]. }
  assert (Hperm0 : ranges p ≡ₚ r :: g_used_ranges_tree p) by (unfold ranges, last_list; by rewrite El).
  split; [|split; [|done]].
  - split.
    + unfold p'. destruct (id =? pend r); simpl; [|apply Hp].
      eapply (tree_insert_sorted _ _ _ _ _ r r'); try done; simpl; lia.
    + intros x. rewrite Hperm. intros [->|Hx]%elem_of_cons.
      * simpl. rewrite Hcnt. exact (eq_sym (cnt_cons_in id taken r Hin)).
      * rewrite (po_count _ _ Hp x) by (apply elem_ranges; by right). symmetry. apply cnt_cons_out.
        by eapply tree_excludes.
    + unfold p'. destruct (Z.eqb_spec id (pend r)); simpl; [done|]. intros x [= <-]. simpl. split; [lia|].
      intros y [->|Hy]%elem_of_cons Hry; [lia|]. destruct (po_last _ _ Hp r El) as [_ Hle].
      specialize (Hle y Hy Hry). lia.
    + apply NoDup_cons. split; [done|apply Hp].
    + intros y Hy. apply elem_of_cons in Hy as [->|Hy].
      * exists r'. split; [rewrite Hperm; left|done].
      * destruct (po_taken _ _ Hp y Hy) as (x & Hx & Hyx). rewrite Hperm0 in Hx.
        apply elem_of_cons in Hx as [->|Hx]; [exists r'|exists x]; (split; [rewrite Hperm; in_list|done]).
  - destruct Hl as [? ? Hh]. split; try done. by rewrite Hh, Hperm, Hperm0.
Qed.

(** ** An ID for another process *)

(** The state after the ID [id] is cut out of the range [r]. *)
Definition cut_state (r : prange) (t : list prange) (id : Z) : pid_ids :=
  PidIds (if id <? pend r then Some (PRange (id + 1) (pend r) 0) else None)
    (if pstart r <? id then insert_used (PRange (pstart r) (id - 1) (taken_count r)) t else t) id.

Lemma cut_out_spec mem r t id s Q :
  1 <= pstart r <= id -> id <= pend r <= PID_MAX -> (pstart r = id -> taken_count r = 0) ->
  Q (Some (cut_state r t id)) s -> (mem = false -> Q None s) -> wp (cut_out (I := I) mem r t id) Q s.
Proof.
  intros Hs He Hc HQ Hn. unfold cut_out, cut_state in *.
  destruct (Z.eqb_spec (pstart r) (pend r)); [|destruct (Z.eqb_spec (pstart r) id); [|destruct (Z.eqb_spec (pend r) id)]].
  - apply wp_bind, wp_assert; [apply Z.eqb_eq, Hc; lia|]. wp_steps.
    by rewrite !(proj2 (Z.ltb_ge _ _)) in HQ by lia.
  - apply wp_bind, wp_assert; [apply Z.eqb_eq, Hc; lia|]. wp_steps. rewrite u32_id, Hc by lia.
    rewrite (proj2 (Z.ltb_lt _ _)), (proj2 (Z.ltb_ge _ _)) in HQ by lia. by subst id.
  - wp_steps. rewrite u32_id by lia. rewrite (proj2 (Z.ltb_ge _ _)), (proj2 (Z.ltb_lt _ _)) in HQ by lia. by subst id.
  - rewrite !(proj2 (Z.ltb_lt _ _)) in HQ by lia. destruct mem; [|wp_steps; auto].
    apply wp_bind, wp_assert; [by rewrite !(proj2 (Z.ltb_lt _ _)) by lia|]. wp_steps. by rewrite !u32_id by lia.
Qed.

Lemma cut_ranges r t id :
  ranges (cut_state r t id) ≡ₚ
  (if pstart r <? id then [PRange (pstart r) (id - 1) (taken_count r)] else []) ++
  (if id <? pend r then [PRange (id + 1) (pend r) 0] else []) ++ t.
Proof.
  unfold ranges, last_list, cut_state. simpl. destruct (pstart r <? id), (id <? pend r); simpl;
    rewrite ?insert_used_perm; solve_Permutation.
Qed.

Lemma cut_ok self flight taken p i r :
  pid_ok taken p -> link self flight p i -> g_last_range p = Some r ->
  let id := g_last_used_id p + 1 in
  let p' := cut_state r (g_used_ranges_tree p) id in
  pid_ok taken p' /\
  (pkey <$> ranges p') ≡ₚ range_without (pstart r) (pend r) id ++ (pkey <$> g_used_ranges_tree p).
Proof.
  intros Hp Hl El id p'. destruct (last_facts _ _ _ _ _ _ Hp Hl El) as (Hr & HrP & Hu & Hc & Hcnt & Hin & Hnin).
  destruct (po_last _ _ Hp r El) as [_ Hle]. fold id in Hin, Hnin. pose proof (cut_ranges r (g_used_ranges_tree p) id) as Hperm.
  fold p' in Hperm. split.
  - split.
    + unfold p', cut_state. simpl. destruct (Z.ltb_spec (pstart r) id); [|apply Hp].
      eapply (tree_insert_sorted _ _ _ _ _ r); try done; simpl; lia.
    + intros x. rewrite Hperm, !elem_of_app. intros [Hx|[Hx|Hx]].
      * destruct (pstart r <? id); [|by apply elem_of_nil in Hx]. apply list_elem_of_singleton in Hx as ->. simpl.
        rewrite Hcnt. apply cnt_ext. intros y Hy. specialize (Hle y Hy). unfold in_range in *. simpl. lia.
      * destruct (id <? pend r); [|by apply elem_of_nil in Hx]. apply list_elem_of_singleton in Hx as ->. simpl.
        symmetry. apply cnt_zero. intros y Hy. specialize (Hle y Hy). unfold in_range in *. simpl. lia.
      * apply (po_count _ _ Hp), elem_ranges. by right.
    + unfold p', cut_state. simpl. destruct (Z.ltb_spec id (pend r)); [|done]. intros x [= <-]. simpl. split; [lia|].
      intros y Hy Hyr. specialize (Hle y Hy). unfold in_range in *. simpl in Hyr. lia.
    + apply Hp.
    + intros y Hy. destruct (po_taken _ _ Hp y Hy) as (x & Hx & Hyx). setoid_rewrite Hperm. setoid_rewrite elem_of_app.
      apply elem_ranges in Hx as [E|Hx]; [|exists x; split; [right; apply elem_of_app; by right|done]].
      rewrite El in E. injection E as <-. specialize (Hle y Hy Hyx). unfold in_range in Hyx.
      exists (PRange (pstart r) (id - 1) (taken_count r)). split; [left|unfold in_range; simpl; lia].
      rewrite (proj2 (Z.ltb_lt _ _)) by lia. by left.
  - rewrite Hperm. unfold range_without. destruct (pstart r <? id), (id <? pend r); done.
Qed.

Lemma take_move_spec self mem c o taken flight p i :
  pid_ok taken p -> link self flight p i -> is_Some (g_last_range p) -> o <> 0 -> o <> self ->
  wp (take self mem c o) (fun res s' =>
    (res = None /\ svc_ok (snd s') /\ snd s' = i) \/
    (res = Some 0 /\ pid_ok taken (fst s') /\ link self flight (fst s') (snd s') /\ snd s' = i) \/
    (exists id, res = Some id /\ 1 <= id <= PID_MAX /\ id ∉ taken /\
      pid_ok taken (fst s') /\ link self flight (fst s') (snd s') /\
      svc_holds (snd s') o ≡ₚ (id, id) :: svc_holds i o /\
      forall q, q <> self -> q <> o -> svc_holds (snd s') q = svc_holds i q)) (p, i).
Proof.
  intros Hp Hl [r El] Ho Hne. destruct (last_facts _ _ _ _ _ _ Hp Hl El) as (Hr & HrP & Hu & Hc & Hcnt & Hin & Hnin).
  unfold take, get_pid. wp_steps. simpl. rewrite El.
  apply wp_bind, wp_assert; [apply Z.ltb_lt; lia|].
  apply wp_bind, wp_assert; [apply Z.ltb_lt; rewrite u32_id; lia|].
  rewrite (proj2 (Z.eqb_neq _ _)) by done. simpl. rewrite !u32_id by (rewrite ?u32_id; lia).
  replace (taken_count r + 1 - 1) with (taken_count r) by lia.
  replace (PRange (pstart r) (pend r) (taken_count r)) with r by (by destruct r).
  destruct (cut_ok _ _ _ _ _ _ Hp Hl El) as [Hp' Hkeys]. apply wp_bind, cut_out_spec; [lia..| |].
  - unfold put_pid. wp_steps. simpl. apply wp_lift.
    assert (Hh : svc_holds i self ≡ₚ (pstart r, pend r) :: (pkey <$> g_used_ranges_tree p) ++ flight).
    { rewrite (li_holds _ _ _ _ Hl). unfold ranges, last_list. by rewrite El. }
    eapply wp_mono; [apply (svc_change_spec c self o (g_last_used_id p + 1) (pstart r) (pend r)
      ((pkey <$> g_used_ranges_tree p) ++ flight) i); [apply Hl|apply Hl|done|done|exact Hh|exact Hin]|].
    intros ret i' [Hok [[Hneg ->]|(-> & Hs & Hoo & Hq)]].
    + rewrite (proj2 (Z.ltb_lt _ _)) by done. wp_steps. left. by split_and!.
    + simpl. wp_steps. right; right. exists (g_last_used_id p + 1). simpl. split_and!; try done; try lia.
      split; [done|apply Hl|]. rewrite Hs, Hkeys. by rewrite app_assoc.
  - intros _. unfold put_pid. wp_steps. simpl. right; left.
    replace (g_last_used_id p + 1 - 1) with (g_last_used_id p) by lia. rewrite <- El.
    replace (PidIds (g_last_range p) (g_used_ranges_tree p) (g_last_used_id p)) with p by (by destruct p). done.
Qed.

(** ** Giving an ID back *)

(** Only the count of the range with the ID changes. *)
Lemma recount self flight taken id taken' p i l1 r l2 :
  pid_ok taken p -> link self flight p i -> taken ≡ₚ id :: taken' -> ranges p ≡ₚ l1 ++ r :: l2 -> in_range id r ->
  0 < taken_count r /\ cnt taken' r = taken_count r - 1 /\
  (forall x, x ∈ l1 ++ l2 -> taken_count x = cnt taken' x) /\
  (forall y, y ∈ taken' -> exists x, x ∈ ranges p /\ in_range y x).
Proof.
  intros Hp Hl Ht Hperm Hr.
  assert (Hc : taken_count r = cnt taken' r + 1).
  { rewrite (po_count _ _ Hp r) by (rewrite Hperm; in_list). rewrite (cnt_perm _ _ _ Ht). by apply cnt_cons_in. }
  pose proof (cnt_nonneg taken' r). split; [lia|]. split; [lia|]. split.
  - intros x Hx. rewrite (po_count _ _ Hp x) by (rewrite Hperm; rewrite elem_of_app in Hx; in_list).
    rewrite (cnt_perm _ _ _ Ht). apply cnt_cons_out. intros Hx'. by eapply link_disjoint.
  - intros y Hy. apply (po_taken _ _ Hp). rewrite Ht. by right.
Qed.

(** The lookup of an ID in the tree. *)
Lemma span_tree t x id :
  StronglySorted pbefore t -> x ∈ t -> in_range id x ->
  exists a b, t = a ++ x :: b /\ span (pid_range_cmp (PRange id id 0)) t = (a, x :: b).
Proof.
  intros Hs (a & b & ->)%list_elem_of_split Hx. exists a, b. split; [done|]. unfold in_range in Hx.
  apply StronglySorted_app_iff in Hs as (_ & _ & Hab). apply span_app_true.
  - apply Forall_forall. intros y Hy. specialize (Hab y x Hy ltac:(left)). unfold pbefore in Hab.
    apply Z.leb_gt. simpl. lia.
  - apply Z.leb_le. simpl. lia.
Qed.

Lemma release_last_ok self flight taken id taken' p i r :
  pid_ok taken p -> link self flight p i -> taken ≡ₚ id :: taken' -> g_last_range p = Some r -> in_range id r ->
  let p' := PidIds (Some (PRange (pstart r) (pend r) (taken_count r - 1))) (g_used_ranges_tree p) (g_last_used_id p) in
  0 < taken_count r /\ pid_ok taken' p' /\ link self flight p' i.
Proof.
  intros Hp Hl Ht El Hr p'. assert (Hperm : ranges p ≡ₚ [] ++ r :: g_used_ranges_tree p) by (unfold ranges, last_list; by rewrite El).
  destruct (recount _ _ _ _ _ _ _ _ _ _ Hp Hl Ht Hperm Hr) as (Hpos & Hcnt & Hoth & Htk). split; [done|]. split.
  - split; simpl; [apply Hp| | | |].
    + intros x [[= <-]|Hx]%elem_ranges; [symmetry; exact Hcnt|]. by apply Hoth.
    + intros x [= <-]. simpl. destruct (po_last _ _ Hp r El) as [? Hle]. split; [done|]. intros y Hy. apply Hle.
      rewrite Ht. by right.
    + pose proof (po_nodup _ _ Hp) as Hnd. rewrite Ht in Hnd. by apply NoDup_cons in Hnd as [_ ?].
    + intros y Hy. destruct (Htk y Hy) as (x & [E|Hx]%elem_ranges & Hyx).
      * rewrite El in E. injection E as <-. eexists. split; [apply elem_ranges; left; reflexivity|done].
      * exists x. split; [apply elem_ranges; by right|done].
  - destruct Hl as [? ? Hh]. split; try done. rewrite Hh. unfold ranges, last_list. by rewrite El.
Qed.

Lemma release_tree_ok self flight taken id taken' p i a r b c :
  pid_ok taken p -> link self flight p i -> taken ≡ₚ id :: taken' -> g_used_ranges_tree p = a ++ r :: b ->
  in_range id r -> c = (if taken_count r - 1 =? 0 then [] else [PRange (pstart r) (pend r) (taken_count r - 1)]) ->
  let p' := PidIds (g_last_range p) (a ++ c ++ b) (g_last_used_id p) in
  0 < taken_count r /\ pid_ok taken' p' /\
  link self (if taken_count r - 1 =? 0 then pkey r :: flight else flight) p' i.
Proof.
  intros Hp Hl Ht Et Hr Hc p'.
  assert (Hperm : ranges p ≡ₚ (last_list p ++ a) ++ r :: b) by (unfold ranges; by rewrite Et, app_assoc).
  destruct (recount _ _ _ _ _ _ _ _ _ _ Hp Hl Ht Hperm Hr) as (Hpos & Hcnt & Hoth & Htk). split; [done|].
  assert (Hran : ranges p' = last_list p ++ a ++ c ++ b) by done.
  assert (Hsub : forall x, x ∈ last_list p ++ a \/ x ∈ b -> x ∈ ranges p').
  { intros x. rewrite Hran, !elem_of_app. tauto. }
  split.
  - split; simpl.
    + pose proof (po_sorted _ _ Hp) as Hs. rewrite Et in Hs. subst c. destruct (taken_count r - 1 =? 0); simpl.
      * apply StronglySorted_app_iff in Hs as (? & Hs & Hab). inversion Hs; subst.
        apply StronglySorted_app_iff. split_and!; try done. intros x y Hx Hy. apply Hab; [done|by right].
      * apply StronglySorted_app_iff in Hs as (? & Hs & Hab). inversion Hs as [|? ? ? Hf]; subst.
        apply StronglySorted_app_iff. split; [done|]. split; [by constructor|].
        intros x y Hx [->|Hy]%elem_of_cons; [exact (Hab x r Hx ltac:(left))|apply Hab; [done|by right]].
    + intros x. rewrite Hran, !elem_of_app. intros [Hx|[Hx|[Hx|Hx]]]; [apply Hoth; in_list..| |apply Hoth; in_list].
      subst c. destruct (taken_count r - 1 =? 0); [by apply elem_of_nil in Hx|].
      apply list_elem_of_singleton in Hx as ->. symmetry. exact Hcnt.
    + intros x El. destruct (po_last _ _ Hp x El) as [? Hle]. split; [done|]. intros y Hy. apply Hle. rewrite Ht. by right.
    + pose proof (po_nodup _ _ Hp) as Hnd. rewrite Ht in Hnd. by apply NoDup_cons in Hnd as [_ ?].
    + intros y Hy. destruct (Htk y Hy) as (x & Hx & Hyx). rewrite Hperm, elem_of_app, elem_of_cons in Hx.
      destruct Hx as [Hx|[->|Hx]]; [exists x; split; [auto|done]| |exists x; split; [auto|done]].
      subst c. rewrite Hran. destruct (Z.eqb_spec (taken_count r - 1) 0).
      * exfalso. eapply cnt_zero_inv; [|exact Hy|exact Hyx]. lia.
      * eexists. split; [rewrite !elem_of_app, list_elem_of_singleton; right; right; left; reflexivity|done].
  - destruct Hl as [? ? Hh]. split; [done..|]. rewrite Hh, Hperm, Hran. subst c.
    destruct (taken_count r - 1 =? 0); rewrite !fmap_app; simpl; unfold pkey; solve_Permutation.
Qed.

Lemma release_local_spec self flight taken id taken' p i :
  pid_ok taken p -> link self flight p i -> taken ≡ₚ id :: taken' ->
  wp (release_local id) (fun res s' => pid_ok taken' (fst s') /\ snd s' = i /\
    link self (match res with Some k => k :: flight | None => flight end) (fst s') i) (p, i).
Proof.
  intros Hp Hl Ht. unfold release_local, get_pid, put_pid. wp_steps. simpl.
  destruct (po_taken _ _ Hp id) as (x & Hx & Hin); [rewrite Ht; left|].
  set (in_last := match g_last_range p with Some r => _ | None => None end).
  destruct in_last as [r|] eqn:Ein; unfold in_last in Ein.
  - destruct (g_last_range p) as [r0|] eqn:El; [|done]. dif_in Ein; [|done]. injection Ein as ->.
    destruct (release_last_ok _ _ _ _ _ _ _ _ Hp Hl Ht El) as (Hpos & Hp' & Hl'); [by split|].
    apply wp_bind, wp_assert; [by apply Z.ltb_lt|]. by wp_steps.
  - assert (Hxt : x ∈ g_used_ranges_tree p).
    { apply elem_ranges in Hx as [E|?]; [|done]. rewrite E in Ein. unfold in_range in Hin.
      by rewrite !(proj2 (Z.leb_le _ _)) in Ein by lia. }
    destruct (span_tree _ x id (po_sorted _ _ Hp) Hxt Hin) as (a & b & Et & ->).
    destruct (release_tree_ok _ _ _ _ _ _ _ _ _ _ _ Hp Hl Ht Et Hin eq_refl) as (Hpos & Hp' & Hl').
    unfold in_range in Hin. rewrite (proj2 (Z.ltb_ge _ _)), (proj2 (Z.ltb_ge _ _)) by lia. simpl.
    apply wp_bind, wp_assert; [by apply Z.ltb_lt|]. destruct (taken_count x - 1 =? 0); wp_steps; by split_and!.
Qed.
End pid.
