(* ===== verification/PidSystem.v ===== *)
(** * All processes together

    The leader, any number of processes that take and give back IDs, children that
    get an ID from their parent, and release messages on their way to the leader.
    The parts of an operation between which other processes can run are steps of
    their own.  The theorems hold for every service that satisfies [IdService]. *)

From S2P Require Import Prelude OrdSeq IpcPid IpcPidSpec IdService Pid PidSpec.

Section system.
Context {I C : Type} `{!IdService I C}.

Record proc := Proc {
  ids : pid_ids;
  taken : list Z;              (* IDs that its threads use *)
  flight : list (Z * Z)        (* ranges whose release is on its way *)
}.

Record sys := Sys {
  svc : I;
  procs : gmap Z proc;         (* by VMID *)
  pending : gmap Z Z;          (* children that have not started, with their ID *)
  vmids : gset Z               (* all VMIDs given out so far *)
}.

Inductive sys_step (s : sys) : sys -> Prop :=
| step_refill v pr mem c ok p' i' :
    procs s !! v = Some pr -> ~ svc_exhausted (svc s) ->
    refill v mem c (ids pr, svc s) = Some (ok, (p', i')) ->
    sys_step s (Sys i' (<[v := Proc p' (taken pr) (flight pr)]> (procs s)) (pending s) (vmids s))
| step_take v pr mem c id p' i' :
    procs s !! v = Some pr -> is_Some (g_last_range (ids pr)) ->
    take v mem c 0 (ids pr, svc s) = Some (Some id, (p', i')) ->
    sys_step s (Sys i' (<[v := Proc p' (id :: taken pr) (flight pr)]> (procs s)) (pending s) (vmids s))
| step_no_memory v pr mem c o p' i' :
    procs s !! v = Some pr -> is_Some (g_last_range (ids pr)) -> o <> 0 -> o ∉ vmids s ->
    take v mem c o (ids pr, svc s) = Some (Some 0, (p', i')) ->
    sys_step s (Sys i' (<[v := Proc p' (taken pr) (flight pr)]> (procs s)) (pending s) (vmids s))
| step_fork v pr mem c o id p' i' :
    procs s !! v = Some pr -> is_Some (g_last_range (ids pr)) -> o <> 0 -> o ∉ vmids s -> id <> 0 ->
    take v mem c o (ids pr, svc s) = Some (Some id, (p', i')) ->
    sys_step s (Sys i' (<[v := Proc p' (taken pr) (flight pr)]> (procs s)) (<[o := id]> (pending s))
                  ({[o]} ∪ vmids s))
| step_start o tid :
    pending s !! o = Some tid ->
    sys_step s (Sys (svc s) (<[o := Proc (snd (init_id_ranges true tid)) [tid] []]> (procs s))
                  (delete o (pending s)) (vmids s))
| step_release v pr id taken' res p' i' :
    procs s !! v = Some pr -> taken pr ≡ₚ id :: taken' ->
    release_local id (ids pr, svc s) = Some (res, (p', i')) ->
    sys_step s (Sys i' (<[v := Proc p' taken' (match res with Some k => k :: flight pr | None => flight pr end)]>
                          (procs s)) (pending s) (vmids s))
| step_deliver v pr a b flight' i' :
    procs s !! v = Some pr -> flight pr ≡ₚ (a, b) :: flight' ->
    svc_release v a b (svc s) = Some ((), i') ->
    sys_step s (Sys i' (<[v := Proc (ids pr) (taken pr) flight']> (procs s)) (pending s) (vmids s))
| step_exit v :
    sys_step s (Sys (svc s) (delete v (procs s)) (pending s) (vmids s)).

Record sys_ok (s : sys) : Prop := {
  so_svc : svc_ok (svc s);
  so_procs : forall v pr, procs s !! v = Some pr ->
    pid_ok (taken pr) (ids pr) /\ link v (flight pr) (ids pr) (svc s) /\ v ∈ vmids s;
  so_pending : forall o tid, pending s !! o = Some tid ->
    o <> 0 /\ svc_holds (svc s) o ≡ₚ [(tid, tid)] /\ procs s !! o = None /\ o ∈ vmids s;
  so_fresh : forall v, v ∉ vmids s -> svc_holds (svc s) v = []
}.

(** ** Preservation *)

Lemma link_other v fl p i i' :
  link v fl p i -> svc_ok i' -> svc_holds i' v = svc_holds i v -> link v fl p i'.
Proof. intros [? ? Hh] Hok E. split; try done. by rewrite E. Qed.

(** A step of process [v] that changes the ranges of nobody else. *)
Lemma sys_ok_update s v pr pr' i' :
  sys_ok s -> procs s !! v = Some pr -> pid_ok (taken pr') (ids pr') -> link v (flight pr') (ids pr') i' ->
  others_same v (svc s) i' ->
  sys_ok (Sys i' (<[v := pr']> (procs s)) (pending s) (vmids s)).
Proof.
  intros [Hsvc Hps Hpd Hfr] Ev Hp Hl Ho. pose proof (li_ok _ _ _ _ Hl) as Hok.
  destruct (Hps v pr Ev) as (_ & _ & Hvm). split; simpl; [done| | |].
  - intros w prw [[<- <-]|[Hne Hw]]%lookup_insert_Some; [done|]. destruct (Hps w prw Hw) as (? & Hlw & ?).
    split; [done|]. split; [|done]. eapply link_other; [exact Hlw|done|]. by apply Ho.
  - intros o tid Ho'. destruct (Hpd o tid Ho') as (? & Hh & Hn & ?).
    assert (o <> v) by congruence. split; [done|]. split; [by rewrite Ho|]. split; [by rewrite lookup_insert_ne|done].
  - intros w Hw. rewrite Ho by (intros ->; done). by apply Hfr.
Qed.

(** The child's ID goes from the parent to the child. *)
Lemma sys_ok_fork s v pr pr' o id i' :
  sys_ok s -> procs s !! v = Some pr -> pid_ok (taken pr') (ids pr') -> link v (flight pr') (ids pr') i' ->
  o <> 0 -> o ∉ vmids s -> svc_holds i' o ≡ₚ (id, id) :: svc_holds (svc s) o ->
  (forall q, q <> v -> q <> o -> svc_holds i' q = svc_holds (svc s) q) ->
  sys_ok (Sys i' (<[v := pr']> (procs s)) (<[o := id]> (pending s)) ({[o]} ∪ vmids s)).
Proof.
  intros [Hsvc Hps Hpd Hfr] Ev Hp Hl Ho Hon Hoh Hoth. pose proof (li_ok _ _ _ _ Hl) as Hok.
  destruct (Hps v pr Ev) as (_ & _ & Hvm). assert (Hov : o <> v) by (intros ->; done). split; simpl; [done| | |].
  - intros w prw [[<- <-]|[Hne Hw]]%lookup_insert_Some; [split_and!; try done; set_solver|].
    destruct (Hps w prw Hw) as (? & Hlw & Hwm). split; [done|]. split; [|set_solver].
    eapply link_other; [exact Hlw|done|]. apply Hoth; [done|]. intros ->. done.
  - intros q tid [[<- <-]|[Hne Hq]]%lookup_insert_Some.
    + split; [done|]. split; [by rewrite Hoh, (Hfr o Hon)|]. split; [|set_solver].
      rewrite lookup_insert_ne by done. destruct (procs s !! o) eqn:E; [|done]. by destruct (Hps o _ E) as (_ & _ & ?).
    + destruct (Hpd q tid Hq) as (? & Hh & Hn & Hqm). assert (q <> v) by congruence. split; [done|].
      split; [by rewrite Hoth|]. split; [by rewrite lookup_insert_ne|set_solver].
  - intros w Hw. apply not_elem_of_union in Hw as [Hwo Hw]. rewrite Hoth; [by apply Hfr| |set_solver].
    intros ->. done.
Qed.

Lemma init_pid_ok tid : tid <> 0 -> pid_ok [tid] (snd (init_id_ranges true tid)).
Proof.
  intros Ht. unfold init_id_ranges. rewrite (proj2 (Z.eqb_neq _ _)) by done. split; simpl.
  - repeat constructor.
  - intros r [?|Hr]%elem_ranges; [done|]. simpl in Hr. apply list_elem_of_singleton in Hr as ->. simpl.
    rewrite cnt_cons_in; [done|]. unfold in_range. simpl. lia.
  - done.
  - apply NoDup_singleton.
  - intros id ->%list_elem_of_singleton. exists (PRange tid tid 1). split; [apply elem_ranges; right; by left|].
    unfold in_range. simpl. lia.
Qed.

Lemma sys_ok_start s o tid :
  sys_ok s -> pending s !! o = Some tid ->
  sys_ok (Sys (svc s) (<[o := Proc (snd (init_id_ranges true tid)) [tid] []]> (procs s))
            (delete o (pending s)) (vmids s)).
Proof.
  intros [Hsvc Hps Hpd Hfr] Ho. destruct (Hpd o tid Ho) as (Ho0 & Hh & Hn & Hom).
  assert (Htid : 1 <= tid <= PID_MAX).
  { destruct (svc_range (svc s) o tid tid Hsvc); [|lia]. rewrite Hh. left. }
  split; simpl; [done| | |done].
  - intros w prw [[<- <-]|[Hne Hw]]%lookup_insert_Some; [|by apply Hps]. simpl. split; [apply init_pid_ok; lia|].
    split; [|done]. split; try done. rewrite Hh. unfold init_id_ranges. rewrite (proj2 (Z.eqb_neq _ _)) by lia. done.
  - intros q t [Hne Hq]%lookup_delete_Some. destruct (Hpd q t Hq) as (? & ? & ? & ?). split; [done|].
    split; [done|]. split; [by rewrite lookup_insert_ne|done].
Qed.

Lemma sys_step_ok s s' : sys_ok s -> sys_step s s' -> sys_ok s'.
Proof.
  intros Hs Hstep. destruct Hstep as [v pr mem c ok p' i' Ev Hex E|v pr mem c id p' i' Ev Hl E|v pr mem c o p' i' Ev Hl Ho Hon E
    |v pr mem c o id p' i' Ev Hl Ho Hon Hid E|o tid Ho|v pr id taken' res p' i' Ev Ht E|v pr a b flight' i' Ev Hf E|v].
  - destruct (so_procs _ Hs v pr Ev) as (Hp & Hli & _).
    pose proof (refill_spec v mem c _ _ _ _ Hp Hli Hex) as H. unfold wp in H. rewrite E in H. simpl in H.
    eapply sys_ok_update; [done..| | |]; simpl; apply H.
  - destruct (so_procs _ Hs v pr Ev) as (Hp & Hli & _).
    pose proof (take_keep_spec v mem c _ _ _ _ Hp Hli Hl) as H. unfold wp in H. rewrite E in H.
    destruct H as (id' & [= <-] & _ & _ & Hp' & Hl' & Hi). simpl in *. subst i'.
    by eapply sys_ok_update.
  - destruct (so_procs _ Hs v pr Ev) as (Hp & Hli & Hvm).
    pose proof (take_move_spec v mem c o _ _ _ _ Hp Hli Hl Ho ltac:(intros ->; done)) as H. unfold wp in H. rewrite E in H.
    destruct H as [[? _]|[(_ & Hp' & Hl' & Hi)|(id & [= <-] & ? & _)]]; [done| |lia]. simpl in *. subst i'.
    by eapply sys_ok_update.
  - destruct (so_procs _ Hs v pr Ev) as (Hp & Hli & Hvm).
    pose proof (take_move_spec v mem c o _ _ _ _ Hp Hli Hl Ho ltac:(intros ->; done)) as H. unfold wp in H. rewrite E in H.
    destruct H as [[? _]|[(? & _)|(id' & [= <-] & _ & _ & Hp' & Hl' & Hoh & Hq)]]; [done|congruence|]. simpl in *.
    by eapply sys_ok_fork.
  - by apply sys_ok_start.
  - destruct (so_procs _ Hs v pr Ev) as (Hp & Hli & _).
    pose proof (release_local_spec v _ _ id taken' _ _ Hp Hli Ht) as H. unfold wp in H. rewrite E in H. simpl in H.
    destruct H as (Hp' & -> & Hl'). by eapply sys_ok_update.
  - destruct (so_procs _ Hs v pr Ev) as (Hp & Hli & _).
    assert (Hh : svc_holds (svc s) v ≡ₚ (a, b) :: (pkey <$> ranges (ids pr)) ++ flight').
    { rewrite (li_holds _ _ _ _ Hli), Hf. solve_Permutation. }
    pose proof (svc_release_spec v a b _ (svc s) (so_svc _ Hs) Hh) as H. unfold wp in H. rewrite E in H.
    destruct H as (Hok & Hh' & Ho). eapply sys_ok_update; [done..| |done]. simpl. split; [done|apply Hli|done].
  - destruct Hs as [? Hps Hpd ?]. split; simpl; try done.
    + intros w prw [_ Hw]%lookup_delete_Some. by apply Hps.
    + intros o tid Ho. destruct (Hpd o tid Ho) as (? & ? & Hn & ?). split_and!; try done.
      apply lookup_delete_None. by right.
Qed.

(** The state when the leader has started. *)
Definition sys_init (i : I) (leader : Z) : sys :=
  Sys i {[leader := Proc (snd (init_id_ranges true 0)) [] []]} ∅ {[leader]}.

Lemma sys_init_ok i leader :
  svc_ok i -> (forall o, svc_holds i o = []) -> leader <> 0 -> sys_ok (sys_init i leader).
Proof.
  intros Hok Hh Hl. split; simpl; [done| |done|done].
  intros v pr [<- <-]%lookup_singleton_Some. simpl. split; [|split; [|set_solver]].
  - split; simpl; try done; [constructor|by intros r ?%elem_of_nil|constructor|by intros id ?%elem_of_nil].
  - split; try done. by rewrite Hh.
Qed.

Lemma reachable_ok i leader s :
  svc_ok i -> (forall o, svc_holds i o = []) -> leader <> 0 -> rtc sys_step (sys_init i leader) s -> sys_ok s.
Proof.
  intros Hok Hh Hl Hr. pose proof (sys_init_ok i leader Hok Hh Hl) as H0.
  induction Hr as [|s0 s1 s2 Hstep _ IH]; [done|]. apply IH. by eapply sys_step_ok.
Qed.

Lemma taken_held s v pr id :
  sys_ok s -> procs s !! v = Some pr -> id ∈ taken pr ->
  exists a b, (a, b) ∈ svc_holds (svc s) v /\ a <= id <= b.
Proof.
  intros Hs Ev Hid. destruct (so_procs _ Hs v pr Ev) as (Hp & Hl & _).
  destruct (po_taken _ _ Hp id Hid) as (r & Hr & Hin). exists (pstart r), (pend r). split; [|exact Hin].
  rewrite (li_holds _ _ _ _ Hl). apply elem_of_app. left. by apply (list_elem_of_fmap_2 pkey).
Qed.

(** C24: no ID is ever in use twice: whatever the processes do, two processes never
    use the same ID, one process never uses an ID twice, and an ID on its way to a
    new child is in use nowhere. *)
Theorem ids_unique i leader s :
  svc_ok i -> (forall o, svc_holds i o = []) -> leader <> 0 -> rtc sys_step (sys_init i leader) s ->
  (forall v w pr pr' id, procs s !! v = Some pr -> procs s !! w = Some pr' ->
     id ∈ taken pr -> id ∈ taken pr' -> v = w) /\
  (forall v pr, procs s !! v = Some pr -> NoDup (taken pr)) /\
  (forall v pr o id, procs s !! v = Some pr -> pending s !! o = Some id -> id ∉ taken pr).
Proof.
  intros Hok Hh Hl Hr. pose proof (reachable_ok _ _ _ Hok Hh Hl Hr) as Hs. split; [|split].
  - intros v w pr pr' id Hv Hw Hid Hid'. destruct (taken_held _ _ _ _ Hs Hv Hid) as (a & b & Hin & Hab).
    destruct (taken_held _ _ _ _ Hs Hw Hid') as (a' & b' & Hin' & Hab').
    by destruct (svc_disjoint _ _ _ _ _ _ _ id (so_svc _ Hs) Hin Hin' Hab Hab').
  - intros v pr Hv. destruct (so_procs _ Hs v pr Hv) as (Hp & _). apply Hp.
  - intros v pr o id Hv Ho Hid. destruct (taken_held _ _ _ _ Hs Hv Hid) as (a & b & Hin & Hab).
    destruct (so_pending _ Hs o id Ho) as (_ & Hho & Hn & _).
    destruct (svc_disjoint _ v o a b id id id (so_svc _ Hs) Hin) as (-> & _); [|done|lia|congruence].
    rewrite Hho. left.
Qed.

(** C27: as long as there are IDs left, no operation of any process, and no message
    that the leader handles, fails an assertion or ends in [BUG()]. *)
Theorem id_operations_never_abort i leader s v pr :
  svc_ok i -> (forall o, svc_holds i o = []) -> leader <> 0 -> rtc sys_step (sys_init i leader) s ->
  procs s !! v = Some pr ->
  (forall mem c, ~ svc_exhausted (svc s) -> refill v mem c (ids pr, svc s) <> None) /\
  (forall mem c o, is_Some (g_last_range (ids pr)) -> o ∉ vmids s -> take v mem c o (ids pr, svc s) <> None) /\
  (forall mem c, is_Some (g_last_range (ids pr)) -> take v mem c 0 (ids pr, svc s) <> None) /\
  (forall id, id ∈ taken pr -> release_local id (ids pr, svc s) <> None) /\
  (forall a b, (a, b) ∈ flight pr -> svc_release v a b (svc s) <> None).
Proof.
  intros Hok Hh Hl Hr Hv. pose proof (reachable_ok _ _ _ Hok Hh Hl Hr) as Hs.
  destruct (so_procs _ Hs v pr Hv) as (Hp & Hli & Hvm).
  assert (Hw : forall A S (m : SM S A) Q x, wp m Q x -> m x <> None).
  { intros A S m Q x H E. unfold wp in H. by rewrite E in H. }
  assert (Hkeep : forall mem c, is_Some (g_last_range (ids pr)) -> take v mem c 0 (ids pr, svc s) <> None).
  { intros mem c Hlast. eapply Hw. by apply (take_keep_spec v mem c _ _ _ _ Hp Hli). }
  split; [|split; [|split; [done|split]]].
  - intros mem c Hex. eapply Hw. by apply (refill_spec v mem c _ _ _ _ Hp Hli).
  - intros mem c o Hlast Ho. destruct (decide (o = 0)) as [->|]; [by apply Hkeep|].
    eapply Hw. apply (take_move_spec v mem c o _ _ _ _ Hp Hli); [done..|]. intros ->. done.
  - intros id Hid. apply elem_of_Permutation in Hid as [taken' Ht]. eapply Hw.
    by apply (release_local_spec v _ _ id taken' _ _ Hp Hli).
  - intros a b Hin. apply elem_of_Permutation in Hin as [fl Hf]. eapply Hw.
    apply (svc_release_spec v a b ((pkey <$> ranges (ids pr)) ++ fl)); [apply Hs|].
    rewrite (li_holds _ _ _ _ Hli), Hf. solve_Permutation.
Qed.

(** [get_new_id] returns; it gives an ID that the process does not use yet, or
    0, and the ranges of the process still agree with the leader's records. *)
Theorem get_new_id_correct self mem1 c1 mem2 c2 used fl p i :
  pid_ok used p -> link self fl p i -> ~ svc_exhausted i ->
  wp (get_new_id self mem1 c1 mem2 c2 0) (fun res s' => link self fl (fst s') (snd s') /\
    (res = Some 0 /\ pid_ok used (fst s') \/
     exists id, res = Some id /\ 1 <= id <= PID_MAX /\ id ∉ used /\ pid_ok (id :: used) (fst s'))) (p, i).
Proof.
  intros Hp Hl Hex. unfold get_new_id. apply wp_bind. eapply wp_mono; [by apply refill_spec|].
  intros ok [p1 i1] (Hp1 & Hl1 & _ & Hlast). simpl in *. destruct ok; [|wp_steps; split; [done|by left]].
  eapply wp_mono; [apply (take_keep_spec self mem2 c2 used fl); auto|].
  intros res [p2 i2] (id & -> & ? & ? & ? & ? & _). split; [done|]. right. eauto.
Qed.

(** A range without IDs in use stays in [g_used_ranges_tree] for good: releasing
    other IDs never removes it.  Such a range comes into being when an ID is cut out
    for a child while the IDs in front of it have been released already; its IDs are
    lost. *)
Theorem unused_range_never_released self fl used id used' p i r :
  pid_ok used p -> link self fl p i -> used ≡ₚ id :: used' ->
  r ∈ g_used_ranges_tree p -> taken_count r = 0 ->
  wp (release_local id) (fun _ s' => r ∈ g_used_ranges_tree (fst s')) (p, i).
Proof.
  intros Hp Hl Ht Hr Hc. assert (Hid : id ∈ used) by (rewrite Ht; left).
  assert (Hnr : ~ in_range id r).
  { apply (cnt_zero_inv used); [|done]. rewrite <- (po_count _ _ Hp); [done|]. apply elem_ranges. by right. }
  assert (Hrun := release_local_spec self fl used id used' p i Hp Hl Ht).
  unfold wp, release_local, get_pid, put_pid, mbind, SM_bind, sm_gets, sm_modify, sm_assert in *. simpl in *.
  set (in_last := match g_last_range p with Some _ => _ | None => None end) in *. destruct in_last as [x|].
  - by destruct (0 <? taken_count x).
  - destruct (span _ (g_used_ranges_tree p)) as [a [|x b]] eqn:E; [done|].
    apply span_spec in E as (Et & _). destruct ((id <? pstart x) || (pend x <? id)) eqn:Ex; [done|].
    apply orb_false_iff in Ex as [Ex1 Ex2]. breflect. rewrite Et, elem_of_app, elem_of_cons in Hr.
    assert (Hne : r <> x) by (intros ->; apply Hnr; unfold in_range; lia).
    destruct (0 <? taken_count x); [|done]. destruct (taken_count x - 1 =? 0); simpl; in_list || (rewrite elem_of_app; tauto).
Qed.
End system.

(** ** A run with the leader of [IpcPid] *)

Definition rq : request := Request 0 true 0 true true (-1) eq_refl.
Definition no_ids : ipc_ids := IpcIds [] 0.

Lemma no_ids_ok : svc_ok no_ids.
Proof. split; simpl; [by split|apply ranges_ok_nil]. Qed.

Lemma no_ids_hold o : svc_holds no_ids o = [].
Proof. done. Qed.

(** The leader takes ID 1, gives it back, forks process 2 with ID 2, and takes ID 3. *)
Definition p_end : pid_ids := PidIds (Some (PRange 3 32 1)) [PRange 1 1 0] 3.
Definition i_start : ipc_ids := IpcIds [IdRange 1 32 1] 32.
Definition i_end : ipc_ids := IpcIds [IdRange 1 1 1; IdRange 2 2 2; IdRange 3 32 1] 32.

Lemma run_end : exists s, rtc sys_step (sys_init no_ids 1) s /\
  procs s !! 1 = Some (Proc p_end [3] []) /\ svc s = i_end /\ pending s !! 2 = Some 2.
Proof.
  eexists. split; [|split; [|split]].
  - eapply rtc_l; [apply (step_refill _ 1 (Proc (PidIds None [] 0) [] []) true rq true
      (PidIds (Some (PRange 1 32 0)) [] 0) i_start); [reflexivity|by vm_compute|reflexivity]|].
    eapply rtc_l; [apply (step_take _ 1 (Proc (PidIds (Some (PRange 1 32 0)) [] 0) [] []) true rq 1
      (PidIds (Some (PRange 1 32 1)) [] 1) i_start); [reflexivity|by eexists|reflexivity]|].
    eapply rtc_l; [apply (step_release _ 1 (Proc (PidIds (Some (PRange 1 32 1)) [] 1) [1] []) 1 [] None
      (PidIds (Some (PRange 1 32 0)) [] 1) i_start); [reflexivity|reflexivity|reflexivity]|].
    eapply rtc_l; [apply (step_fork _ 1 (Proc (PidIds (Some (PRange 1 32 0)) [] 1) [] []) true rq 2 2
      (PidIds (Some (PRange 3 32 0)) [PRange 1 1 0] 2) i_end);
      [reflexivity|by eexists|done|set_solver|done|reflexivity]|].
    eapply rtc_l; [apply (step_take _ 1 (Proc (PidIds (Some (PRange 3 32 0)) [PRange 1 1 0] 2) [] []) true rq 3
      p_end i_end); [reflexivity|by eexists|reflexivity]|].
    apply rtc_refl.
  - reflexivity.
  - reflexivity.
  - reflexivity.
Qed.

Lemma end_ok : pid_ok [3] p_end /\ link 1 [] p_end i_end.
Proof.
  destruct run_end as (s & Hr & Hp & Hi & _).
  pose proof (reachable_ok no_ids 1 s no_ids_ok no_ids_hold ltac:(done) Hr) as Hs.
  destruct (so_procs _ Hs _ _ Hp) as (? & Hl & _). rewrite Hi in Hl. done.
Qed.

Lemma ids_unique_witness :
  exists s, rtc sys_step (sys_init no_ids 1) s /\ (exists pr, procs s !! 1 = Some pr /\ 3 ∈ taken pr) /\
  (forall v w pr pr' id, procs s !! v = Some pr -> procs s !! w = Some pr' ->
     id ∈ taken pr -> id ∈ taken pr' -> v = w) /\
  (forall v pr, procs s !! v = Some pr -> NoDup (taken pr)) /\
  (forall v pr o id, procs s !! v = Some pr -> pending s !! o = Some id -> id ∉ taken pr).
Proof.
  destruct run_end as (s & Hr & Hp & _). exists s. split; [done|]. split; [eexists; split; [exact Hp|left]|].
  apply (ids_unique no_ids 1 s); [apply no_ids_ok|apply no_ids_hold|done|exact Hr].
Defined.

Lemma never_abort_witness :
  exists s, rtc sys_step (sys_init no_ids 1) s /\
  ((forall mem c, ~ svc_exhausted (svc s) -> refill 1 mem c (p_end, svc s) <> None) /\
   (forall mem c o, is_Some (g_last_range p_end) -> o ∉ vmids s -> take 1 mem c o (p_end, svc s) <> None) /\
   (forall mem c, is_Some (g_last_range p_end) -> take 1 mem c 0 (p_end, svc s) <> None) /\
   (forall id, id ∈ [3] -> release_local id (p_end, svc s) <> None) /\
   (forall a b, (a, b) ∈ [] -> svc_release 1 a b (svc s) <> None)).
Proof.
  destruct run_end as (s & Hr & Hp & _). exists s. split; [done|].
  apply (id_operations_never_abort no_ids 1 s 1 (Proc p_end [3] []));
    [apply no_ids_ok|apply no_ids_hold|done|exact Hr|exact Hp].
Defined.

Lemma get_new_id_witness :
  wp (get_new_id 1 true rq true rq 0) (fun res s' => link 1 [] (fst s') (snd s') /\
    (res = Some 0 /\ pid_ok [3] (fst s') \/
     exists id, res = Some id /\ 1 <= id <= PID_MAX /\ id ∉ [3] /\ pid_ok (id :: [3]) (fst s'))) (p_end, i_end).
Proof.
  apply (get_new_id_correct 1 true rq true rq [3] [] p_end i_end); [apply end_ok|apply end_ok|].
  by vm_compute.
Defined.

(** The range from 1 to 1 is one of those. *)
Lemma unused_range_witness :
  wp (release_local 3) (fun _ s' => PRange 1 1 0 ∈ g_used_ranges_tree (fst s')) (p_end, i_end).
Proof.
  apply (unused_range_never_released 1 [] [3] 3 [] p_end i_end (PRange 1 1 0));
    [apply end_ok|apply end_ok|reflexivity|left|reflexivity].
Defined.
