(* ===== verification/Sync.v ===== *)
(** * States and messages of the sync engine: [libos/include/libos_sync.h]

    A sync handle is an object with data that several processes share.  A process
    that locks it asks the server, which runs in the process leader, for one of two
    states: SHARED for reading, EXCLUSIVE for writing.  [SyncClient] models the code
    of the processes, [SyncServer] the code of the server. *)

From S2P Require Import Prelude.

(** The states are compared with [<], so they are kept as numbers. *)
Definition SYNC_STATE_NONE : Z := 0.
Definition SYNC_STATE_INVALID : Z := 1.
Definition SYNC_STATE_SHARED : Z := 2.
Definition SYNC_STATE_EXCLUSIVE : Z := 3.

Inductive sync_phase : Type :=
  | SYNC_PHASE_NEW
  | SYNC_PHASE_OPEN
  | SYNC_PHASE_CLOSING
  | SYNC_PHASE_CLOSED.

#[export] Instance sync_phase_eq_dec : EqDecision sync_phase.
Proof. solve_decision. Defined.

(** The codes of the messages, without the common prefix [IPC_MSG_SYNC_]. *)
Inductive sync_code : Type :=
  | REQUEST_UPGRADE
  | REQUEST_DOWNGRADE
  | REQUEST_CLOSE
  | CONFIRM_UPGRADE
  | CONFIRM_DOWNGRADE
  | CONFIRM_CLOSE.

#[export] Instance sync_code_eq_dec : EqDecision sync_code.
Proof. solve_decision. Defined.

(** [struct libos_ipc_sync] and the code under which it is sent. *)
Record sync_msg : Type := SyncMsg {
  m_code : sync_code;
  m_id : Z;
  m_state : Z;
  m_data : list Z;
}.

#[export] Instance sync_msg_eq_dec : EqDecision sync_msg.
Proof. solve_decision. Defined.
