(* ===== verification/SyncClient.v ===== *)
(** * The client of the sync engine: [libos/src/sync/libos_sync_client.c]

    A function that waits is split where it waits: other threads and the messages of
    the server run in between.  The fields of a handle are protected by [prop_lock],
    so that the parts are atomic.  [None] is a failed assertion or [FATAL()]; memory
    and connections are assumed not to run out, as the process ends otherwise.
    [g_sync_enabled] is an argument.  The reference counts of the handle
    objects are not modelled: a handle exists while it is in [g_client_handles]. *)

From S2P Require Import Prelude Sync.

(** [struct sync_handle]; the ID is the key in [g_client_handles].  [event] says whether
    the event is set. *)
Record sync_handle : Type := SyncHandle {
  h_data : list Z;
  event : bool;
  n_waiters : Z;
  used : bool;
  phase : sync_phase;
  cur_state : Z;
  client_req_state : Z;
  server_req_state : Z;
}.

#[export] Instance sync_handle_eq_dec : EqDecision sync_handle.
Proof. solve_decision. Defined.

Definition set_data (d : list Z) (h : sync_handle) : sync_handle :=
  SyncHandle d (event h) (n_waiters h) (used h) (phase h) (cur_state h) (client_req_state h) (server_req_state h).
Definition set_waiters (e : bool) (n : Z) (h : sync_handle) : sync_handle :=
  SyncHandle (h_data h) e n (used h) (phase h) (cur_state h) (client_req_state h) (server_req_state h).
Definition set_used (u : bool) (h : sync_handle) : sync_handle :=
  SyncHandle (h_data h) (event h) (n_waiters h) u (phase h) (cur_state h) (client_req_state h) (server_req_state h).
Definition set_phase (p : sync_phase) (h : sync_handle) : sync_handle :=
  SyncHandle (h_data h) (event h) (n_waiters h) (used h) p (cur_state h) (client_req_state h) (server_req_state h).
Definition set_cur (st : Z) (h : sync_handle) : sync_handle :=
  SyncHandle (h_data h) (event h) (n_waiters h) (used h) (phase h) st (client_req_state h) (server_req_state h).
Definition set_client_req (st : Z) (h : sync_handle) : sync_handle :=
  SyncHandle (h_data h) (event h) (n_waiters h) (used h) (phase h) (cur_state h) st (server_req_state h).
Definition set_server_req (st : Z) (h : sync_handle) : sync_handle :=
  SyncHandle (h_data h) (event h) (n_waiters h) (used h) (phase h) (cur_state h) (client_req_state h) st.

(** [assert(b)] and [if (!b) FATAL()]. *)
Definition check (b : bool) : option unit := if b then Some () else None.

(** A new ID and the next value of [g_client_counter]. *)
Definition sync_new_id (pid g_client_counter : Z) : option (Z * Z) :=
  check (negb (pid =? 0));;
  let next := u32 (g_client_counter + 1) in
  check (negb (next =? 0));;
  Some (u64 (Z.shiftl pid 32 + g_client_counter), next).

(** [sync_wait_without_lock], up to the wait and after it. *)
Definition sync_wait_begin (h : sync_handle) : sync_handle :=
  set_waiters (event h) (n_waiters h + 1) h.

Definition sync_wait_end (h : sync_handle) : sync_handle :=
  let n := n_waiters h - 1 in
  set_waiters (if n =? 0 then false else event h) n h.

Definition sync_notify (h : sync_handle) : sync_handle :=
  if 0 <? n_waiters h then set_waiters true (n_waiters h) h else h.

Section client.
Context (g_sync_enabled : bool).

(** The operations on a handle return the messages that they send to the server. *)
Definition sync_downgrade (id : Z) (h : sync_handle) : option (sync_handle * list sync_msg) :=
  check (negb (used h));;
  check (bool_decide (phase h = SYNC_PHASE_OPEN));;
  check (negb (server_req_state h =? SYNC_STATE_NONE));;
  check (server_req_state h <? cur_state h);;
  let data := if cur_state h =? SYNC_STATE_EXCLUSIVE then h_data h else [] in
  Some (set_server_req SYNC_STATE_NONE (set_cur (server_req_state h) h),
        [SyncMsg CONFIRM_DOWNGRADE id (server_req_state h) data]).

Definition update_handle_data (data : list Z) (h : sync_handle) : option sync_handle :=
  check (0 <? Z.of_nat (length data));;
  Some (set_data data h).

(** The fields of a new handle. *)
Definition sync_init : sync_handle :=
  SyncHandle [] false 0 false SYNC_PHASE_NEW SYNC_STATE_INVALID SYNC_STATE_NONE SYNC_STATE_NONE.

(** [sync_create] with a given ID, on the table of handles: its result and the new table. *)
Definition sync_create (handles : gmap Z sync_handle) (id : Z) : option (Z * gmap Z sync_handle) :=
  check (negb (id =? 0));;
  match handles !! id with
  | Some _ => Some (- EINVAL, handles)
  | None => Some (0, <[id := sync_init]> handles)
  end.

Definition send_request_close (id : Z) (h : sync_handle) : list sync_msg :=
  let data := if cur_state h =? SYNC_STATE_EXCLUSIVE then h_data h else [] in
  [SyncMsg REQUEST_CLOSE id (cur_state h) data].

(** [sync_destroy] up to its wait; the last result says whether it has to wait.
    Afterwards, or when [phase] is CLOSED, it removes the handle from the table. *)
Definition sync_destroy_begin (id : Z) (h : sync_handle) : option (sync_handle * list sync_msg * bool) :=
  check (negb (id =? 0));;
  check (negb (used h));;
  check (n_waiters h =? 0);;
  if g_sync_enabled && bool_decide (phase h = SYNC_PHASE_OPEN)
  then Some (sync_wait_begin (set_cur SYNC_STATE_INVALID (set_phase SYNC_PHASE_CLOSING h)),
             send_request_close id h, true)
  else Some (h, [], false).

(** After the wait; [true] means that the loop ends. *)
Definition sync_destroy_resume (h : sync_handle) : sync_handle * bool :=
  let h1 := sync_wait_end h in
  if bool_decide (phase h1 = SYNC_PHASE_CLOSED) then (h1, true) else (sync_wait_begin h1, false).

(** The body of the loop of [sync_lock], up to the wait. *)
Definition sync_lock_loop (id state : Z) (h : sync_handle) : option (sync_handle * list sync_msg) :=
  check (negb (bool_decide (phase h = SYNC_PHASE_CLOSING) || bool_decide (phase h = SYNC_PHASE_CLOSED)));;
  if client_req_state h <? state
  then Some (sync_wait_begin (set_phase SYNC_PHASE_OPEN (set_client_req state h)),
             [SyncMsg REQUEST_UPGRADE id state []])
  else Some (sync_wait_begin h, []).

(** [sync_lock] either waits or has the lock, with the data that it copied, if any. *)
Inductive lock_res : Type :=
  | Waits
  | Locked (updated : option (list Z)).

(** The end of [sync_lock] after the loop. *)
Definition sync_lock_data (data_size : Z) (h : sync_handle) : option (option (list Z)) :=
  if (0 <? data_size) && (0 <? Z.of_nat (length (h_data h)))
  then check (data_size =? Z.of_nat (length (h_data h)));; Some (Some (h_data h))
  else Some None.

(** [sync_lock] after [use_lock] is taken.  The case that the engine is not enabled leaves
    the handle alone: [use_lock] is the lock then. *)
Definition sync_lock_begin (id state : Z) (h : sync_handle) : option (sync_handle * list sync_msg * lock_res) :=
  check ((state =? SYNC_STATE_SHARED) || (state =? SYNC_STATE_EXCLUSIVE));;
  if negb g_sync_enabled then Some (h, [], Locked None)
  else
    check (negb (used h));;
    let h1 := set_used true h in
    if cur_state h1 <? state
    then '(h2, out) ← sync_lock_loop id state h1; Some (h2, out, Waits)
    else Some (h1, [], Locked None).

Definition sync_lock_resume (id state data_size : Z) (h : sync_handle) : option (sync_handle * list sync_msg * lock_res) :=
  let h1 := sync_wait_end h in
  if cur_state h1 <? state
  then '(h2, out) ← sync_lock_loop id state h1; Some (h2, out, Waits)
  else upd ← sync_lock_data data_size h1; Some (h1, [], Locked upd).

Definition sync_unlock (id : Z) (data : list Z) (h : sync_handle) : option (sync_handle * list sync_msg) :=
  if negb g_sync_enabled then Some (h, [])
  else
    check (used h);;
    h1 ← (if 0 <? Z.of_nat (length data) then update_handle_data data h else Some h);
    let h2 := set_used false h1 in
    if bool_decide (phase h2 = SYNC_PHASE_OPEN) && (server_req_state h2 <? cur_state h2)
       && negb (server_req_state h2 =? SYNC_STATE_NONE)
    then sync_downgrade id h2
    else Some (h2, []).

(** What [shutdown_sync_client] does first with every handle. *)
Definition shutdown_close (id : Z) (h : sync_handle) : sync_handle * list sync_msg :=
  if g_sync_enabled && bool_decide (phase h = SYNC_PHASE_OPEN)
  then (set_cur SYNC_STATE_INVALID (set_phase SYNC_PHASE_CLOSING h), send_request_close id h)
  else (h, []).

(** The handlers of messages; [find_handle] is the lookup that must not fail. *)
Definition find_handle (handles : gmap Z sync_handle) (id : Z) : option sync_handle := handles !! id.

Definition do_request_downgrade (id state : Z) (h : sync_handle) : option (sync_handle * list sync_msg) :=
  check g_sync_enabled;;
  if bool_decide (phase h = SYNC_PHASE_OPEN) && (state <? cur_state h)
     && ((state <? server_req_state h) || (server_req_state h =? SYNC_STATE_NONE))
  then
    let h1 := set_server_req state h in
    if negb (used h1) then sync_downgrade id h1 else Some (h1, [])
  else Some (h, []).

Definition do_confirm_upgrade (state : Z) (data : list Z) (h : sync_handle) : option (sync_handle * list sync_msg) :=
  check g_sync_enabled;;
  let h1 :=
    if bool_decide (phase h = SYNC_PHASE_OPEN) && (cur_state h <? state)
    then sync_notify (set_client_req SYNC_STATE_NONE (set_cur state h))
    else h in
  h2 ← (if 0 <? Z.of_nat (length data) then update_handle_data data h1 else Some h1);
  Some (h2, []).

Definition do_confirm_close (h : sync_handle) : option (sync_handle * list sync_msg) :=
  check g_sync_enabled;;
  if negb (bool_decide (phase h = SYNC_PHASE_CLOSED))
  then Some (sync_notify (set_phase SYNC_PHASE_CLOSED h), [])
  else Some (h, []).

Definition sync_client_message_callback (handles : gmap Z sync_handle) (m : sync_msg) :
    option (gmap Z sync_handle * list sync_msg) :=
  '(h', out) ←
    match m_code m with
    | REQUEST_DOWNGRADE =>
        check (Z.of_nat (length (m_data m)) =? 0);;
        h ← find_handle handles (m_id m); do_request_downgrade (m_id m) (m_state m) h
    | CONFIRM_UPGRADE => h ← find_handle handles (m_id m); do_confirm_upgrade (m_state m) (m_data m) h
    | CONFIRM_CLOSE => h ← find_handle handles (m_id m); do_confirm_close h
    | _ => None
    end;
  Some (<[m_id m := h']> handles, out).

End client.
