(* ===== verification/SyncServer.v ===== *)
(** * The server of the sync engine: [libos/src/sync/libos_sync_server.c]

    [g_server_lock] makes the handling of a message atomic.  [None] is a failed assertion
    or [FATAL()]; memory and connections are assumed not to run out, as the process ends
    otherwise. *)

From S2P Require Import Prelude Sync SyncClient.

(** [struct server_lease]; the client is given by its [vmid]. *)
Record server_lease : Type := Lease {
  l_client : Z;
  l_cur : Z;
  l_client_req : Z;
  l_server_req : Z;
}.

#[export] Instance server_lease_eq_dec : EqDecision server_lease.
Proof. solve_decision. Defined.

(** [struct server_handle]; the ID is the key in [g_server_handles]. *)
Record server_handle : Type := ServerHandle {
  s_data : list Z;
  s_leases : list server_lease;
}.

#[export] Instance server_handle_eq_dec : EqDecision server_handle.
Proof. solve_decision. Defined.

(** A [struct server_client] is the list of the handles for which it has leases. *)
Record server_state : Type := ServerState {
  g_server_handles : gmap Z server_handle;
  g_server_clients : gmap Z (list Z);
}.

#[export] Instance server_state_eq_dec : EqDecision server_state.
Proof. solve_decision. Defined.

(** A message and the client that it is sent to. *)
Definition addressed : Type := Z * sync_msg.

Definition find_handle (s : server_state) (id : Z) (create : bool) : option server_handle :=
  match g_server_handles s !! id with
  | Some handle => Some handle
  | None => if create then Some (ServerHandle [] []) else None
  end.

Definition find_client (s : server_state) (vmid : Z) (create : bool) : option (list Z) :=
  match g_server_clients s !! vmid with
  | Some client => Some client
  | None => if create then Some [] else None
  end.

Definition lease_of (vmid : Z) (leases : list server_lease) : option server_lease :=
  head (filter (fun l => l_client l = vmid) leases).

(** The lease of a client, and the handle and the table of clients with it. *)
Definition find_lease (s : server_state) (id : Z) (handle : server_handle) (vmid : Z) (create : bool) :
    option (server_lease * server_handle * server_state) :=
  match lease_of vmid (s_leases handle) with
  | Some lease => Some (lease, handle, s)
  | None =>
      if negb create then None
      else
        client ← find_client s vmid true;
        let lease := Lease vmid SYNC_STATE_INVALID SYNC_STATE_NONE SYNC_STATE_NONE in
        Some (lease, ServerHandle (s_data handle) (s_leases handle ++ [lease]),
              ServerState (g_server_handles s) (<[vmid := client ++ [id]]> (g_server_clients s)))
  end.

(** Assignments to the fields of the lease of a client. *)
Definition write_lease (lease : server_lease) (handle : server_handle) : server_handle :=
  ServerHandle (s_data handle)
    ((fun l => if l_client l =? l_client lease then lease else l) <$> s_leases handle).

(** The counters of [process_handle]. *)
Record counts : Type := Counts {
  n_shared : Z;
  n_exclusive : Z;
  want_shared : Z;
  want_exclusive : Z;
}.

Fixpoint count_leases (c : counts) (leases : list server_lease) : counts :=
  match leases with
  | [] => c
  | l :: leases' =>
      count_leases
        (Counts (if l_cur l =? SYNC_STATE_SHARED then n_shared c + 1 else n_shared c)
           (if l_cur l =? SYNC_STATE_EXCLUSIVE then n_exclusive c + 1 else n_exclusive c)
           (if l_client_req l =? SYNC_STATE_SHARED then want_shared c + 1 else want_shared c)
           (if l_client_req l =? SYNC_STATE_EXCLUSIVE then want_exclusive c + 1 else want_exclusive c)) leases'
  end.

Section handle.
Context (id : Z).

Definition send_confirm_upgrade (data : list Z) (vmid state : Z) : addressed :=
  (vmid, SyncMsg CONFIRM_UPGRADE id state data).
Definition send_request_downgrade (vmid state : Z) : addressed :=
  (vmid, SyncMsg REQUEST_DOWNGRADE id state []).
Definition send_confirm_close (vmid : Z) : addressed :=
  (vmid, SyncMsg CONFIRM_CLOSE id SYNC_STATE_INVALID []).

(** The loop that fulfils requests, its body first. *)
Definition fulfil_lease (data : list Z) (c : counts) (l : server_lease) :
    option (server_lease * counts * list addressed) :=
  if (l_client_req l =? SYNC_STATE_SHARED) && (n_exclusive c =? 0) then
    check (l_cur l =? SYNC_STATE_INVALID);;
    Some (Lease (l_client l) SYNC_STATE_SHARED SYNC_STATE_NONE (l_server_req l),
          Counts (n_shared c + 1) (n_exclusive c) (want_shared c - 1) (want_exclusive c),
          [send_confirm_upgrade data (l_client l) SYNC_STATE_SHARED])
  else if (l_client_req l =? SYNC_STATE_EXCLUSIVE) && (n_exclusive c =? 0) && (n_shared c =? 0) then
    check (l_cur l =? SYNC_STATE_INVALID);;
    Some (Lease (l_client l) SYNC_STATE_EXCLUSIVE SYNC_STATE_NONE (l_server_req l),
          Counts (n_shared c) (n_exclusive c + 1) (want_shared c) (want_exclusive c - 1),
          [send_confirm_upgrade data (l_client l) SYNC_STATE_EXCLUSIVE])
  else if (l_client_req l =? SYNC_STATE_EXCLUSIVE) && (n_exclusive c =? 0) && (n_shared c =? 1)
          && (l_cur l =? SYNC_STATE_SHARED) then
    Some (Lease (l_client l) SYNC_STATE_EXCLUSIVE SYNC_STATE_NONE (l_server_req l),
          Counts (n_shared c - 1) (n_exclusive c + 1) (want_shared c) (want_exclusive c - 1),
          [send_confirm_upgrade data (l_client l) SYNC_STATE_EXCLUSIVE])
  else Some (l, c, []).

Fixpoint fulfil (data : list Z) (c : counts) (leases : list server_lease) :
    option (list server_lease * counts * list addressed) :=
  match leases with
  | [] => Some ([], c, [])
  | l :: leases' =>
      '(l1, c1, out1) ← fulfil_lease data c l;
      '(ls, c2, out2) ← fulfil data c1 leases';
      Some (l1 :: ls, c2, out1 ++ out2)
  end.

(** The loops that ask for downgrades. *)
Definition to_invalid (l : server_lease) : bool :=
  ((l_cur l =? SYNC_STATE_SHARED) || (l_cur l =? SYNC_STATE_EXCLUSIVE))
  && negb (l_server_req l =? SYNC_STATE_INVALID).

Definition to_shared (l : server_lease) : bool :=
  (l_cur l =? SYNC_STATE_EXCLUSIVE) && negb (l_server_req l =? SYNC_STATE_SHARED)
  && negb (l_server_req l =? SYNC_STATE_INVALID).

Fixpoint downgrade (test : server_lease -> bool) (state : Z) (leases : list server_lease) :
    list server_lease * list addressed :=
  match leases with
  | [] => ([], [])
  | l :: leases' =>
      let '(ls, out) := downgrade test state leases' in
      if test l
      then (Lease (l_client l) (l_cur l) (l_client_req l) state :: ls,
            send_request_downgrade (l_client l) state :: out)
      else (l :: ls, out)
  end.

Definition process_handle (handle : server_handle) : option (server_handle * list addressed) :=
  let c := count_leases (Counts 0 0 0 0) (s_leases handle) in
  '(ls, c1, out1) ← fulfil (s_data handle) c (s_leases handle);
  let '(ls2, out2) :=
    if negb (want_exclusive c1 =? 0) then downgrade to_invalid SYNC_STATE_INVALID ls
    else if negb (want_shared c1 =? 0) then downgrade to_shared SYNC_STATE_SHARED ls
    else (ls, []) in
  Some (ServerHandle (s_data handle) ls2, out1 ++ out2).

End handle.

Definition put_handle (id : Z) (handle : server_handle) (s : server_state) : server_state :=
  ServerState (<[id := handle]> (g_server_handles s)) (g_server_clients s).

(** The lease moves to the end of the list, unless it is there already. *)
Definition move_to_tail (vmid : Z) (leases : list server_lease) : list server_lease :=
  match lease_of vmid leases with
  | Some l =>
      if bool_decide (l_client <$> last leases = Some vmid) then leases
      else filter (fun l => l_client l <> vmid) leases ++ [l]
  | None => leases
  end.

Definition do_request_upgrade (vmid id state : Z) (s : server_state) : option (server_state * list addressed) :=
  check ((state =? SYNC_STATE_SHARED) || (state =? SYNC_STATE_EXCLUSIVE));;
  handle ← find_handle s id true;
  '(lease, handle1, s1) ← find_lease s id handle vmid true;
  check (l_cur lease <? state);;
  let handle2 := write_lease (Lease vmid (l_cur lease) state (l_server_req lease)) handle1 in
  let handle3 := ServerHandle (s_data handle2) (move_to_tail vmid (s_leases handle2)) in
  '(handle4, out) ← process_handle id handle3;
  Some (put_handle id handle4 s1, out).

Definition update_handle_data (data : list Z) (handle : server_handle) : server_handle :=
  ServerHandle data (s_leases handle).

Definition do_confirm_downgrade (vmid id state : Z) (data : list Z) (s : server_state) :
    option (server_state * list addressed) :=
  check ((state =? SYNC_STATE_INVALID) || (state =? SYNC_STATE_SHARED));;
  handle ← find_handle s id true;
  '(lease, handle1, s1) ← find_lease s id handle vmid true;
  check (state <? l_cur lease);;
  handle2 ← (if l_cur lease =? SYNC_STATE_EXCLUSIVE then Some (update_handle_data data handle1)
             else check (Z.of_nat (length data) =? 0);; Some handle1);
  let handle3 :=
    write_lease (Lease vmid state (l_client_req lease)
      (if state <=? l_server_req lease then SYNC_STATE_NONE else l_server_req lease)) handle2 in
  '(handle4, out) ← process_handle id handle3;
  Some (put_handle id handle4 s1, out).

Definition do_request_close (vmid id cur_state : Z) (data : list Z) (s : server_state) :
    option (server_state * list addressed) :=
  check ((cur_state =? SYNC_STATE_INVALID) || (cur_state =? SYNC_STATE_SHARED)
         || (cur_state =? SYNC_STATE_EXCLUSIVE));;
  handle ← find_handle s id false;
  '(lease, _, _) ← find_lease s id handle vmid false;
  handle1 ← (if cur_state =? SYNC_STATE_EXCLUSIVE then Some (update_handle_data data handle)
             else check (Z.of_nat (length data) =? 0);; Some handle);
  let out := [send_confirm_close id vmid] in
  client ← find_client s vmid false;
  let client1 := filter (fun i => i <> id) client in
  let clients1 :=
    if bool_decide (client1 = []) then delete vmid (g_server_clients s)
    else <[vmid := client1]> (g_server_clients s) in
  let handle2 := ServerHandle (s_data handle1) (filter (fun l => l_client l <> vmid) (s_leases handle1)) in
  if bool_decide (s_leases handle2 = [])
  then Some (ServerState (delete id (g_server_handles s)) clients1, out)
  else
    '(handle3, out1) ← process_handle id handle2;
    Some (ServerState (<[id := handle3]> (g_server_handles s)) clients1, out ++ out1).

Definition sync_server_message_callback (src : Z) (m : sync_msg) (s : server_state) :
    option (server_state * list addressed) :=
  match m_code m with
  | REQUEST_UPGRADE =>
      check (Z.of_nat (length (m_data m)) =? 0);; do_request_upgrade src (m_id m) (m_state m) s
  | CONFIRM_DOWNGRADE => do_confirm_downgrade src (m_id m) (m_state m) (m_data m) s
  | REQUEST_CLOSE => do_request_close src (m_id m) (m_state m) (m_data m) s
  | _ => None
  end.

(** A client that disconnects must have closed its handles. *)
Definition sync_server_disconnect_callback (src : Z) (s : server_state) : option unit :=
  match find_client s src false with
  | Some client => check (negb (bool_decide (client = [])));; None
  | None => Some ()
  end.
