(* ===== verification/SyncServerSpec.v ===== *)
(** * Correctness of the server of the sync engine

    What [process_handle] does with the leases of a handle: whom it grants a state, whom
    it asks to give one up, and that nobody waits who could be served. *)

From S2P Require Import Prelude Sync SyncClient SyncServer.

Abbreviation NONE := SYNC_STATE_NONE.
Abbreviation INVALID := SYNC_STATE_INVALID.
Abbreviation SHARED := SYNC_STATE_SHARED.
Abbreviation EXCLUSIVE := SYNC_STATE_EXCLUSIVE.

(** Arithmetic on states. *)
Ltac states := unfold SYNC_STATE_NONE, SYNC_STATE_INVALID, SYNC_STATE_SHARED, SYNC_STATE_EXCLUSIVE in *.

(** ** Leases *)

(** The comments on the fields of [struct server_lease]. *)
Record lease_ok (l : server_lease) : Prop := {
  lok_cur : INVALID <= l_cur l <= EXCLUSIVE;
  lok_client_req : l_client_req l = NONE \/ l_cur l < l_client_req l <= EXCLUSIVE;
  lok_server_req : l_server_req l = NONE \/ INVALID <= l_server_req l < l_cur l;
}.

Fixpoint cnt (p : server_lease -> bool) (ls : list server_lease) : Z :=
  match ls with
  | [] => 0
  | l :: ls' => (if p l then 1 else 0) + cnt p ls'
  end.

(** The counters of [process_handle] for a list of leases. *)
Definition tally (ls : list server_lease) : counts :=
  Counts (cnt (fun l => l_cur l =? SHARED) ls) (cnt (fun l => l_cur l =? EXCLUSIVE) ls)
    (cnt (fun l => l_client_req l =? SHARED) ls) (cnt (fun l => l_client_req l =? EXCLUSIVE) ls).

(** Nobody, or one client in EXCLUSIVE state and no other in SHARED state. *)
Definition counts_ok (c : counts) : Prop :=
  n_exclusive c = 0 \/ n_exclusive c = 1 /\ n_shared c = 0.

Record leases_ok (ls : list server_lease) : Prop := {
  ls_lease : Forall lease_ok ls;
  ls_counts : counts_ok (tally ls);
  ls_nodup : NoDup (l_client <$> ls);
}.

Lemma cnt_app p ls1 ls2 : cnt p (ls1 ++ ls2) = cnt p ls1 + cnt p ls2.
Proof. induction ls1 as [|l ls1 IH]; simpl; [done|]. rewrite IH. lia. Qed.

Lemma lcnt_nonneg p ls : 0 <= cnt p ls.
Proof. induction ls as [|l ls IH]; simpl; [done|]. destruct (p l); lia. Qed.

Lemma cnt_pos p ls l : l ∈ ls -> p l = true -> 1 <= cnt p ls.
Proof.
  intros (l1 & l2 & ->)%list_elem_of_split Hp. rewrite cnt_app. simpl. rewrite Hp.
  pose proof (lcnt_nonneg p l1). pose proof (lcnt_nonneg p l2). lia.
Qed.

Lemma cnt_two p ls l1 l2 : l1 ∈ ls -> l2 ∈ ls -> l1 <> l2 -> p l1 = true -> p l2 = true -> 2 <= cnt p ls.
Proof.
  intros (a & b & ->)%list_elem_of_split Hin Hne H1 H2. rewrite cnt_app. simpl. rewrite H1.
  pose proof (lcnt_nonneg p a). pose proof (lcnt_nonneg p b).
  rewrite elem_of_app, elem_of_cons in Hin. destruct Hin as [Hin|[->|Hin]]; [|done|].
  all: pose proof (cnt_pos p _ _ Hin H2); lia.
Qed.

Lemma lcnt_zero p ls : cnt p ls = 0 <-> Forall (fun l => p l = false) ls.
Proof.
  induction ls as [|l ls IH]; simpl; [split; [constructor|done]|]. rewrite Forall_cons, <- IH.
  pose proof (lcnt_nonneg p ls). destruct (p l); naive_solver lia.
Qed.

Lemma count_leases_tally c ls :
  count_leases c ls =
  Counts (n_shared c + n_shared (tally ls)) (n_exclusive c + n_exclusive (tally ls))
    (want_shared c + want_shared (tally ls)) (want_exclusive c + want_exclusive (tally ls)).
Proof.
  revert c. induction ls as [|l ls IH]; intros [a b d e]; simpl; [by rewrite !Z.add_0_r|].
  rewrite IH. simpl. f_equal; repeat dif; lia.
Qed.

Lemma lease_of_cons v l ls :
  lease_of v (l :: ls) = if decide (l_client l = v) then Some l else lease_of v ls.
Proof. unfold lease_of. rewrite filter_cons. by destruct (decide _). Qed.

Lemma lease_of_elem v ls l : lease_of v ls = Some l -> l ∈ ls /\ l_client l = v.
Proof.
  induction ls as [|l0 ls IH]; [done|]. rewrite lease_of_cons. destruct (decide _) as [<-|].
  - intros [= ->]. split; [left|done].
  - intros []%IH. split; [by right|done].
Qed.

Lemma lease_of_Some v ls l : NoDup (l_client <$> ls) -> l ∈ ls -> l_client l = v -> lease_of v ls = Some l.
Proof.
  induction ls as [|l0 ls IH]; simpl; [intros _ []%elem_of_nil|]. rewrite NoDup_cons, lease_of_cons.
  intros [Hni Hnd] [->|Hin]%elem_of_cons <-; [by rewrite decide_True|].
  rewrite decide_False; [auto|]. intros He. apply Hni. rewrite He. by apply list_elem_of_fmap_2.
Qed.

Lemma lease_of_None v ls : lease_of v ls = None <-> v ∉ (l_client <$> ls).
Proof.
  induction ls as [|l0 ls IH]; simpl; [set_solver|]. rewrite lease_of_cons.
  destruct (decide _) as [<-|Hne]; [set_solver|]. rewrite IH. set_solver.
Qed.

(** Two leases of which one is EXCLUSIVE and the other not INVALID are the same. *)
Lemma exclusive_alone ls l1 l2 :
  leases_ok ls -> l1 ∈ ls -> l2 ∈ ls -> l_cur l1 = EXCLUSIVE -> SHARED <= l_cur l2 -> l1 = l2.
Proof.
  intros [Hf Hc _] H1 H2 E1 E2. destruct (decide (l1 = l2)) as [|Hne]; [done|]. exfalso.
  rewrite Forall_forall in Hf. destruct (Hf l2 H2) as [? _ _].
  pose proof (cnt_pos (fun l => l_cur l =? EXCLUSIVE) ls l1 H1 ltac:(by apply Z.eqb_eq)) as He.
  destruct Hc as [Hc|[Hc Hs]]; simpl in *; [lia|]. destruct (decide (l_cur l2 = EXCLUSIVE)).
  - pose proof (cnt_two (fun l => l_cur l =? EXCLUSIVE) ls l1 l2 H1 H2 Hne
      ltac:(by apply Z.eqb_eq) ltac:(by apply Z.eqb_eq)). lia.
  - pose proof (cnt_pos (fun l => l_cur l =? SHARED) ls l2 H2 ltac:(apply Z.eqb_eq; states; lia)). lia.
Qed.

Lemma leases_ok_lookup ls :
  NoDup (l_client <$> ls) -> (forall v l, lease_of v ls = Some l -> lease_ok l) ->
  (forall v1 v2 l1 l2, lease_of v1 ls = Some l1 -> lease_of v2 ls = Some l2 ->
    l_cur l1 = EXCLUSIVE -> SHARED <= l_cur l2 -> v1 = v2) ->
  leases_ok ls.
Proof.
  intros Hnd Hf Ha. split; [|unfold counts_ok|done].
  { apply Forall_forall. intros l Hl. eapply (Hf (l_client l)). by apply lease_of_Some. }
  destruct (decide (Forall (fun l => (l_cur l =? EXCLUSIVE) = false) ls)) as [Hn|Hn]; [left; by apply lcnt_zero|right].
  apply not_Forall_Exists in Hn; [|apply _]. apply Exists_exists in Hn as (l & Hl & Hc).
  apply not_false_iff_true, Z.eqb_eq in Hc. pose proof Hl as (a & b & ->)%list_elem_of_split.
  assert (Hz : forall l', l' ∈ a ++ b -> l_cur l' < SHARED).
  { intros l' Hl'. destruct (decide (l_cur l' < SHARED)) as [|Hs]; [done|]. exfalso.
    assert (E : l_client l = l_client l').
    { apply (Ha _ _ l l'); try done; [by apply lease_of_Some|apply lease_of_Some; [done|..]|lia]; [|done].
      rewrite elem_of_app in Hl'. in_list. }
    rewrite <- Permutation_middle in Hnd. simpl in Hnd. apply NoDup_cons in Hnd as [Hni _]. apply Hni.
    rewrite E. by apply list_elem_of_fmap_2. }
  assert (Hzero : forall st, SHARED <= st -> cnt (fun l => l_cur l =? st) a = 0 /\ cnt (fun l => l_cur l =? st) b = 0).
  { intros st Hst. rewrite !lcnt_zero, !Forall_forall. split; intros l' Hl'; apply Z.eqb_neq.
    all: pose proof (Hz l' ltac:(rewrite elem_of_app; tauto)); lia. }
  destruct (Hzero EXCLUSIVE ltac:(done)) as [E1 E2], (Hzero SHARED ltac:(done)) as [E3 E4].
  simpl. rewrite !cnt_app. simpl. by rewrite E1, E2, E3, E4, Hc.
Qed.

(** ** Changes of the list of leases *)

Lemma lease_of_app v ls1 ls2 : lease_of v (ls1 ++ ls2) = from_option Some (lease_of v ls2) (lease_of v ls1).
Proof. induction ls1 as [|l ls1 IH]; [done|]. simpl. rewrite !lease_of_cons. by destruct (decide _). Qed.

Lemma write_lease_clients l handle : l_client <$> s_leases (write_lease l handle) = l_client <$> s_leases handle.
Proof.
  simpl. rewrite <- list_fmap_compose. apply list_fmap_ext. intros _ l0 _. simpl. dif; congruence.
Qed.

Lemma lease_of_write v l handle :
  lease_of v (s_leases (write_lease l handle)) =
  if decide (v = l_client l) then (fun _ => l) <$> lease_of v (s_leases handle) else lease_of v (s_leases handle).
Proof.
  unfold write_lease. cbn [s_leases]. induction (s_leases handle) as [|l0 ls IH]; [simpl; by destruct (decide _)|].
  rewrite fmap_cons, !lease_of_cons, IH.
  dif; repeat destruct (decide _); subst; try done; congruence.
Qed.

Lemma lease_of_without v w ls :
  lease_of v (filter (fun l => l_client l <> w) ls) = if decide (v = w) then None else lease_of v ls.
Proof.
  induction ls as [|l0 ls IH]; simpl; [by destruct (decide _)|]. rewrite filter_cons, lease_of_cons.
  destruct (decide (l_client l0 <> w)) as [H|H]; rewrite ?lease_of_cons, IH; repeat destruct (decide _); subst; done.
Qed.

Lemma lease_of_move v w ls : NoDup (l_client <$> ls) -> lease_of v (move_to_tail w ls) = lease_of v ls.
Proof.
  intros Hnd. unfold move_to_tail. destruct (lease_of w ls) as [l|] eqn:E; [|done]. case_bool_decide; [done|].
  rewrite lease_of_app, lease_of_without, lease_of_cons. pose proof (lease_of_elem _ _ _ E) as [_ <-].
  destruct (decide (v = l_client l)) as [->|]; simpl; [by rewrite decide_True|].
  destruct (lease_of v ls); [done|]. simpl. by rewrite decide_False by done.
Qed.

Lemma move_NoDup w ls : NoDup (l_client <$> ls) -> NoDup (l_client <$> move_to_tail w ls).
Proof.
  intros Hnd. unfold move_to_tail. destruct (lease_of w ls) as [l|] eqn:E; [|done]. case_bool_decide; [done|].
  pose proof (lease_of_elem _ _ _ E) as [_ Hl]. rewrite fmap_app. apply NoDup_app. split_and!.
  - by apply NoDup_fmap_filter.
  - intros x (l0 & -> & [Hne _]%list_elem_of_filter)%list_elem_of_fmap. simpl. set_solver.
  - apply NoDup_singleton.
Qed.

(** ** Requests that are granted *)

(** The messages for one client. *)
Definition msgs_to (v : Z) (out : list addressed) : list sync_msg := snd <$> filter (fun a => fst a = v) out.

Lemma msgs_to_app v out1 out2 : msgs_to v (out1 ++ out2) = msgs_to v out1 ++ msgs_to v out2.
Proof. unfold msgs_to. by rewrite filter_app, fmap_app. Qed.

Lemma msgs_to_cons v w m out : msgs_to v ((w, m) :: out) = (if decide (w = v) then [m] else []) ++ msgs_to v out.
Proof. unfold msgs_to. rewrite filter_cons. simpl. by destruct (decide _). Qed.

(** A request that can be granted when the counters are [c]. *)
Definition grantable (c : counts) (l : server_lease) : Prop :=
  n_exclusive c = 0 /\
  (l_client_req l = SHARED \/
   l_client_req l = EXCLUSIVE /\ (n_shared c = 0 \/ n_shared c = 1 /\ l_cur l = SHARED)).

Section spec.
Context (id : Z).

(** How a lease changes and what its client is told. *)
Definition granted (data : list Z) (ol ol' : option server_lease) (ms : list sync_msg) : Prop :=
  match ol, ol' with
  | Some l, Some l' =>
      l' = l /\ ms = [] \/
      l_client_req l <> NONE /\ ms = [SyncMsg CONFIRM_UPGRADE id (l_client_req l) data] /\
      l' = Lease (l_client l) (l_client_req l) NONE (l_server_req l)
  | None, None => ms = []
  | _, _ => False
  end.

Definition asked (ol ol' : option server_lease) (ms : list sync_msg) : Prop :=
  match ol, ol' with
  | Some l, Some l' =>
      l' = l /\ ms = [] \/
      exists st, l_server_req l <> st /\ INVALID <= st < l_cur l /\ ms = [SyncMsg REQUEST_DOWNGRADE id st []] /\
        l' = Lease (l_client l) (l_cur l) (l_client_req l) st
  | None, None => ms = []
  | _, _ => False
  end.

Definition granted_lease (data : list Z) (l l' : server_lease) (out : list addressed) : Prop :=
  l' = l /\ out = [] \/
  l_client_req l <> NONE /\ out = [(l_client l, SyncMsg CONFIRM_UPGRADE id (l_client_req l) data)] /\
  l' = Lease (l_client l) (l_client_req l) NONE (l_server_req l).

Lemma granted_cons data l l' ls ls' out1 out2 v :
  granted_lease data l l' out1 -> l_client l ∉ (l_client <$> ls) ->
  (forall w, granted data (lease_of w ls) (lease_of w ls') (msgs_to w out2)) ->
  granted data (lease_of v (l :: ls)) (lease_of v (l' :: ls')) (msgs_to v (out1 ++ out2)).
Proof.
  intros Hg Hni Hr. specialize (Hr v). rewrite !lease_of_cons, msgs_to_app.
  assert (Hc : l_client l' = l_client l) by (destruct Hg as [[-> _]|(_ & _ & ->)]; done). rewrite Hc.
  destruct (decide (l_client l = v)) as [<-|Hne].
  - apply lease_of_None in Hni. rewrite Hni in Hr. destruct (lease_of (l_client l) ls'); [done|]. simpl in Hr. rewrite Hr, app_nil_r.
    destruct Hg as [[-> ->]|(? & -> & ->)]; [by left|]. right. by rewrite msgs_to_cons, decide_True.
  - destruct Hg as [[-> ->]|(? & -> & ->)]; [done|]. by rewrite msgs_to_cons, decide_False.
Qed.

(** The counters after a lease has got state [st]. *)
Definition grant_counts (c : counts) (cur st : Z) : counts :=
  Counts (n_shared c + (if st =? SHARED then 1 else 0) - (if cur =? SHARED then 1 else 0))
    (n_exclusive c + (if st =? EXCLUSIVE then 1 else 0) - (if cur =? EXCLUSIVE then 1 else 0))
    (want_shared c - (if st =? SHARED then 1 else 0)) (want_exclusive c - (if st =? EXCLUSIVE then 1 else 0)).

Lemma tally_grant pre l ls :
  tally (pre ++ Lease (l_client l) (l_client_req l) NONE (l_server_req l) :: ls) =
  grant_counts (tally (pre ++ l :: ls)) (l_cur l) (l_client_req l).
Proof. unfold tally, grant_counts. rewrite !cnt_app. simpl. f_equal; lia. Qed.

Lemma grant_lease_ok l : lease_ok l -> l_client_req l <> NONE ->
  lease_ok (Lease (l_client l) (l_client_req l) NONE (l_server_req l)).
Proof. intros [? [?|?] ?] ?; [done|]. split; simpl; states; lia. Qed.

(** What the counters say about a lease that is counted. *)
Definition counted (c : counts) (l : server_lease) : Prop :=
  0 <= n_shared c /\ (l_cur l = SHARED -> 1 <= n_shared c) /\ (l_cur l = EXCLUSIVE -> 1 <= n_exclusive c).

Lemma tally_counted ls l : l ∈ ls -> counted (tally ls) l.
Proof.
  intros Hin. split; [apply lcnt_nonneg|]. split; intros E; apply (cnt_pos _ _ l); try done; by rewrite E.
Qed.

Lemma fulfil_lease_eq data c l : counted c l -> lease_ok l ->
  (grantable c l /\ fulfil_lease id data c l =
     Some (Lease (l_client l) (l_client_req l) NONE (l_server_req l), grant_counts c (l_cur l) (l_client_req l),
           [send_confirm_upgrade id data (l_client l) (l_client_req l)])) \/
  (~ grantable c l /\ fulfil_lease id data c l = Some (l, c, [])).
Proof.
  intros (H0 & H1 & H2) [H3 H4 _]. unfold fulfil_lease, grantable. states.
  destruct c as [a b w x], l as [v cur r sr]; cbn in H0, H1, H2, H3, H4 |- *.
  do 3 (try dif); subst; unfold grant_counts.
  1-3: left. 4: right; split; [lia|done].
  1-2: assert (cur = 1) as -> by lia.
  all: (split; [lia|]); simpl; do 2 f_equal; f_equal; f_equal; lia.
Qed.

Lemma grant_counts_ok c l : counted c l -> lease_ok l -> grantable c l ->
  counts_ok (grant_counts c (l_cur l) (l_client_req l)) /\
  forall l0, ~ grantable c l0 -> ~ grantable (grant_counts c (l_cur l) (l_client_req l)) l0.
Proof.
  intros (H0 & H1 & H2) [H3 H4 _] [He Hg]. unfold grantable, grant_counts, counts_ok. states.
  destruct c as [a b w x], l as [v cur r sr]; simpl in *. subst b.
  destruct Hg as [->|[-> Hg]]; [assert (cur = 1) as -> by lia|assert (cur = 1 \/ cur = 2) as [-> | ->] by lia];
    simpl; (split; [lia|intros l0 Hl0; lia]).
Qed.

Lemma fulfil_lease_spec data pre l ls c :
  c = tally (pre ++ l :: ls) -> counts_ok c -> lease_ok l ->
  exists l' c' out, fulfil_lease id data c l = Some (l', c', out) /\
    c' = tally (pre ++ l' :: ls) /\ counts_ok c' /\ lease_ok l' /\ granted_lease data l l' out /\
    (forall l0, ~ grantable c l0 -> ~ grantable c' l0) /\ ~ grantable c' l'.
Proof.
  intros Ec Hc Hl. assert (Hn : counted c l) by (rewrite Ec; apply tally_counted; in_list).
  destruct (fulfil_lease_eq data c l Hn Hl) as [[Hg ->]|[Hg ->]].
  - destruct (grant_counts_ok c l Hn Hl Hg) as [Hc' Hm].
    assert (Hr : l_client_req l <> NONE) by (destruct Hg as [_ [->|[-> _]]]; done).
    do 3 eexists. split; [done|]. split; [by rewrite tally_grant, <- Ec|]. split; [done|].
    split; [by apply grant_lease_ok|]. split; [by right|]. split; [done|].
    intros [_ [Hx|[Hx _]]]; done.
  - exists l, c, []. split_and!; try done. by left.
Qed.

Lemma fulfil_spec data ls : forall pre c,
  c = tally (pre ++ ls) -> counts_ok c -> Forall lease_ok ls -> NoDup (l_client <$> ls) ->
  exists ls' c' out, fulfil id data c ls = Some (ls', c', out) /\
    c' = tally (pre ++ ls') /\ counts_ok c' /\ Forall lease_ok ls' /\ l_client <$> ls' = l_client <$> ls /\
    (forall v, granted data (lease_of v ls) (lease_of v ls') (msgs_to v out)) /\
    (forall l, ~ grantable c l -> ~ grantable c' l) /\ Forall (fun l => ~ grantable c' l) ls'.
Proof.
  induction ls as [|l ls IH]; intros pre c Ec Hc Hf Hnd; simpl.
  - exists [], c, []. by split_and!.
  - apply Forall_cons in Hf as [Hl Hf]. simpl in Hnd. apply NoDup_cons in Hnd as [Hni Hnd].
    destruct (fulfil_lease_spec data pre l ls c Ec Hc Hl) as (l1 & c1 & out1 & -> & Ec1 & Hc1 & Hl1 & Hg1 & Hm1 & Hn1). simpl.
    destruct (IH (pre ++ [l1]) c1) as (ls2 & c2 & out2 & -> & Ec2 & Hc2 & Hf2 & Ei2 & Hg2 & Hm2 & Hn2); try done.
    { by rewrite <- app_assoc. }
    rewrite <- app_assoc in Ec2. simpl. do 3 eexists. split; [done|]. split; [done|]. split; [done|].
    split; [by constructor|]. split; [destruct Hg1 as [[-> _]|(_ & _ & ->)]; simpl; by f_equal|].
    split; [intros; by apply granted_cons|]. split; [auto|]. constructor; auto.
Qed.

(** ** Leases that have to be given up *)

(** A test of [process_handle] and the state it asks for. *)
Definition asks_ok (test : server_lease -> bool) (state : Z) : Prop :=
  INVALID <= state /\ forall l, lease_ok l -> test l = true -> state < l_cur l /\ l_server_req l <> state.

Lemma to_invalid_ok : asks_ok to_invalid INVALID.
Proof. split; [done|]. intros l _ H. unfold to_invalid in H. breflect. apply orb_true_iff in H. states. lia. Qed.

Lemma to_shared_ok : asks_ok to_shared SHARED.
Proof. split; [done|]. intros l _ H. unfold to_shared in H. breflect. states. lia. Qed.

Lemma downgrade_spec test state ls ls' out :
  asks_ok test state -> Forall lease_ok ls -> NoDup (l_client <$> ls) ->
  downgrade id test state ls = (ls', out) ->
  tally ls' = tally ls /\ Forall lease_ok ls' /\ l_client <$> ls' = l_client <$> ls /\
  (forall v, asked (lease_of v ls) (lease_of v ls') (msgs_to v out)) /\
  Forall (fun l => test l = false \/ l_server_req l = state) ls'.
Proof.
  intros [Hst Ht]. revert ls' out. induction ls as [|l ls IH]; intros ls' out Hf Hnd; simpl.
  { intros [= <- <-]. by split_and!. }
  apply Forall_cons in Hf as [Hl Hf]. simpl in Hnd. apply NoDup_cons in Hnd as [Hni Hnd].
  destruct (downgrade id test state ls) as [ls1 out1].
  destruct (IH ls1 out1 Hf Hnd eq_refl) as (Et & Hf1 & Ec & Ha & Hd). injection Et as E1 E2 E3 E4.
  apply lease_of_None in Hni. destruct (test l) eqn:Htl; intros [= <- <-]; simpl.
  - pose proof (Ht l Hl Htl) as [? ?]. destruct Hl as [? ? ?].
    split; [unfold tally; simpl; by rewrite E1, E2, E3, E4|].
    split; [constructor; [split; simpl; auto; right; lia|done]|]. split; [by f_equal|].
    split; [|constructor; [by right|done]].
    intros v. specialize (Ha v). unfold send_request_downgrade. rewrite !lease_of_cons, msgs_to_cons. simpl.
    destruct (decide _) as [<-|]; [|done]. rewrite Hni in Ha. destruct (lease_of _ ls1); [done|]. simpl in Ha.
    rewrite Ha, app_nil_r. right. by exists state.
  - split; [unfold tally; simpl; by rewrite E1, E2, E3, E4|].
    split; [by constructor|]. split; [by f_equal|]. split; [|constructor; [by left|done]].
    intros v. specialize (Ha v). rewrite !lease_of_cons.
    destruct (decide _) as [<-|]; [|done]. rewrite Hni in Ha. destruct (lease_of _ ls1); [done|]. simpl in Ha.
    rewrite Ha. by left.
Qed.

(** ** A pass over a handle *)

(** What a pass does with one lease and tells its client: the lease is upgraded
    exactly if the client gets CONFIRM_UPGRADE, and the state that is asked for
    changes exactly if the client gets REQUEST_DOWNGRADE. *)
Definition served (data : list Z) (ol ol' : option server_lease) (ms : list sync_msg) : Prop :=
  match ol, ol' with
  | Some l, Some l' =>
      exists rds,
      (l_server_req l' = l_server_req l /\ rds = [] \/
       l_server_req l' <> l_server_req l /\ INVALID <= l_server_req l' < l_cur l' /\
       rds = [SyncMsg REQUEST_DOWNGRADE id (l_server_req l') []]) /\
      (l_cur l' = l_cur l /\ l_client_req l' = l_client_req l /\ ms = rds \/
       l_client_req l <> NONE /\ l_cur l' = l_client_req l /\ l_client_req l' = NONE /\
       ms = SyncMsg CONFIRM_UPGRADE id (l_client_req l) data :: rds)
  | None, None => ms = []
  | _, _ => False
  end.

Lemma asked_same l l' ms :
  asked (Some l) (Some l') ms -> l_cur l' = l_cur l /\ l_client_req l' = l_client_req l.
Proof. by intros [[-> _]|(st & _ & _ & _ & ->)]. Qed.

Lemma granted_asked data o1 o2 o3 ms1 ms2 :
  granted data o1 o2 ms1 -> asked o2 o3 ms2 -> served data o1 o3 (ms1 ++ ms2).
Proof.
  destruct o1 as [l1|], o2 as [l2|], o3 as [l3|]; simpl; try done; [|by intros -> ->].
  intros Hg Ha. exists ms2.
  destruct (asked_same _ _ _ Ha) as [Ec Er]. split.
  - rewrite Ec. destruct Ha as [[-> ->]|(st & Hne & ? & -> & ->)];
      destruct Hg as [[-> _]|(_ & _ & ->)]; simpl in *; [by left|by left|right; auto..].
  - rewrite Ec, Er. destruct Hg as [[-> ->]|(? & -> & ->)]; [by left|by right].
Qed.

(** The requests for downgrades among the messages. *)
Lemma served_msgs data l l' ms :
  served data (Some l) (Some l') ms ->
  exists rds, Forall (fun m => exists st, m = SyncMsg REQUEST_DOWNGRADE id st [] /\ INVALID <= st < l_cur l') rds /\
    (l_cur l' = l_cur l /\ l_client_req l' = l_client_req l /\ ms = rds \/
     l_client_req l <> NONE /\ l_cur l' = l_client_req l /\ l_client_req l' = NONE /\
     ms = SyncMsg CONFIRM_UPGRADE id (l_client_req l) data :: rds).
Proof.
  intros (rds & Hr & Hm). exists rds. split; [|done].
  destruct Hr as [[_ ->]|(_ & ? & ->)]; [constructor|]. apply Forall_singleton. eauto.
Qed.

(** The leases for which somebody waits have been asked for. *)
Definition all_asked (ls : list server_lease) : Prop :=
  (want_exclusive (tally ls) <> 0 -> Forall (fun l => SHARED <= l_cur l -> l_server_req l = INVALID) ls) /\
  (want_shared (tally ls) <> 0 -> Forall (fun l => l_cur l = EXCLUSIVE -> l_server_req l <> NONE) ls).

Lemma ask_spec ls :
  Forall lease_ok ls -> NoDup (l_client <$> ls) ->
  exists ls2 out2,
    (if negb (want_exclusive (tally ls) =? 0) then downgrade id to_invalid INVALID ls
     else if negb (want_shared (tally ls) =? 0) then downgrade id to_shared SHARED ls
     else (ls, [])) = (ls2, out2) /\
    tally ls2 = tally ls /\ Forall lease_ok ls2 /\ l_client <$> ls2 = l_client <$> ls /\
    (forall v, asked (lease_of v ls) (lease_of v ls2) (msgs_to v out2)) /\ all_asked ls2.
Proof.
  intros Hf Hnd. destruct (negb (want_exclusive (tally ls) =? 0)) eqn:Hx; [|destruct (negb (want_shared (tally ls) =? 0)) eqn:Hs].
  - destruct (downgrade id to_invalid INVALID ls) as [ls2 out2] eqn:E.
    destruct (downgrade_spec _ _ _ _ _ to_invalid_ok Hf Hnd E) as (Et & Hf2 & Ei & Ha & Hd).
    exists ls2, out2. do 5 (split; [done|]).
    assert (Hi : Forall (fun l => SHARED <= l_cur l -> l_server_req l = INVALID) ls2).
    { rewrite Forall_forall in Hd, Hf2 |- *. intros l Hl Hcur. destruct (Hd l Hl) as [Ht|]; [|done].
      destruct (Hf2 l Hl) as [? _ _]. unfold to_invalid in Ht. states.
      destruct (l_server_req l =? 1) eqn:Hr; [by apply Z.eqb_eq in Hr|]. rewrite andb_true_r in Ht. breflect. lia. }
    split; [done|]. intros _. eapply Forall_impl; [exact Hi|]. simpl. intros l Hl Hc. rewrite Hl; [done|]. by rewrite Hc.
  - destruct (downgrade id to_shared SHARED ls) as [ls2 out2] eqn:E.
    destruct (downgrade_spec _ _ _ _ _ to_shared_ok Hf Hnd E) as (Et & Hf2 & Ei & Ha & Hd).
    exists ls2, out2. do 5 (split; [done|]). split; rewrite Et; breflect; [done|]. intros _.
    eapply Forall_impl; [exact Hd|]. simpl. intros l [Ht| ->] Hc; [|done]. intros Hr. unfold to_shared in Ht.
    by rewrite Hr, Hc in Ht.
  - exists ls, []. breflect. split; [done|]. split; [done|]. split; [done|]. split; [done|]. split; [|done].
    intros v. destruct (lease_of v ls); [by left|done].
Qed.

Lemma process_handle_spec handle :
  leases_ok (s_leases handle) ->
  exists handle' out, process_handle id handle = Some (handle', out) /\
    s_data handle' = s_data handle /\ leases_ok (s_leases handle') /\
    l_client <$> s_leases handle' = l_client <$> s_leases handle /\
    (forall v, served (s_data handle) (lease_of v (s_leases handle)) (lease_of v (s_leases handle')) (msgs_to v out)) /\
    Forall (fun l => ~ grantable (tally (s_leases handle')) l) (s_leases handle') /\
    all_asked (s_leases handle').
Proof.
  intros [Hf Hc Hnd]. unfold process_handle. rewrite count_leases_tally. cbn [n_shared n_exclusive want_shared want_exclusive Z.add].
  destruct (fulfil_spec (s_data handle) (s_leases handle) [] (tally (s_leases handle)))
    as (ls & c & out & E & Ec & Hc1 & Hf1 & Ei & Hg & _ & Hn); try done.
  change (Counts _ _ _ _) with (tally (s_leases handle)). rewrite E. simpl in Ec |- *. subst c.
  rewrite <- Ei in Hnd.
  destruct (ask_spec ls) as (ls2 & out2 & -> & Et & Hf2 & Ei2 & Ha & Hall); try done.
  do 2 eexists. split; [done|]. simpl. split; [done|]. split; [split; [done|by rewrite Et|by rewrite Ei2]|].
  split; [congruence|]. split; [|split; [|done]].
  - intros v. rewrite msgs_to_app. by eapply granted_asked.
  - rewrite Et. rewrite Forall_forall in Hn |- *. intros l Hl. specialize (Ha (l_client l)).
    rewrite (lease_of_Some _ ls2 l) in Ha by (rewrite ?Ei2; done).
    destruct (lease_of (l_client l) ls) as [l0|] eqn:El; [|done]. destruct (asked_same _ _ _ Ha) as [E1 E2].
    apply lease_of_elem in El as [El _]. apply Hn in El. unfold grantable in *. by rewrite E1, E2.
Qed.

End spec.
