(* ===== verification/SyncSystem.v ===== *)
(** * The sync engine as a whole

    Any number of processes and the server, with a first-in-first-out channel in each
    direction between each process and the server.  An [action] is one atomic part of
    the code: a call of the user up to the point where it waits, the continuation of a
    call that waits, or the handling of a message.  [enabled] says when the action can
    happen; it contains what the users of the engine have to observe.  [exec] runs the
    code; [None] is a failed assertion or a fatal error. *)

From stdpp Require Import functions.
From S2P Require Import Prelude Sync SyncClient SyncServer SyncServerSpec.

(** What the thread that uses a handle is doing: nothing, waiting in [sync_lock], using
    the object after [sync_lock] with a state, waiting in [sync_destroy]; or the
    process is shutting down. *)
Inductive user : Type :=
  | UIdle
  | ULock (state data_size : Z)
  | UHold (state : Z)
  | UDestroy
  | UShutdown.

Record proc : Type := Proc {
  p_handles : gmap Z sync_handle;
  p_users : Z -> user;
  p_up : list sync_msg;
  p_down : list sync_msg;
}.

(** [written] is not part of the program: the data that was last stored under an
    EXCLUSIVE lock while the server knows the handle. *)
Record sys : Type := Sys {
  server : server_state;
  procs : Z -> proc;
  written : Z -> list Z;
}.

Definition sys_init : sys :=
  Sys (ServerState ∅ ∅) (fun _ => Proc ∅ (fun _ => UIdle) [] []) (fun _ => []).

Inductive action : Type :=
  | ACreate (c id : Z)
  | ALock (c id state data_size : Z)
  | ALockResume (c id : Z)
  | AUnlock (c id : Z) (data : list Z)
  | ADestroy (c id : Z)
  | ADestroyResume (c id : Z)
  | AShutdown (c id : Z)
  | AServe (c : Z)
  | AReceive (c : Z).

(** The process is between [sync_lock] and [sync_unlock]. *)
Definition holds_lock (s : sys) (c id : Z) : bool :=
  match p_users (procs s c) id with
  | UHold _ => true
  | _ => false
  end.

Section sys.
(** The size of the data of a handle, [sizeof] of a structure of its users. *)
Context (dsize : Z -> Z).

Definition set_proc (c : Z) (p : proc) (s : sys) : sys := Sys (server s) (<[c := p]> (procs s)) (written s).

(** The handle [id] of process [c] changes, and messages are sent to the server. *)
Definition set_handle (c id : Z) (oh : option sync_handle) (u : user) (out : list sync_msg) (s : sys) : sys :=
  let p := procs s c in
  set_proc c (Proc (partial_alter (fun _ => oh) id (p_handles p)) (<[id := u]> (p_users p))
                (p_up p ++ out) (p_down p)) s.

(** The server sends messages. *)
Definition deliver (out : list addressed) (ps : Z -> proc) : Z -> proc :=
  fun c => Proc (p_handles (ps c)) (p_users (ps c)) (p_up (ps c)) (p_down (ps c) ++ msgs_to c out).

Definition pop_up (c : Z) (s : sys) : sys :=
  let p := procs s c in set_proc c (Proc (p_handles p) (p_users p) (tail (p_up p)) (p_down p)) s.

Definition size_ok (id n : Z) : bool := (n =? 0) || (n =? dsize id).

(** Data may be changed under an EXCLUSIVE lock only. *)
Definition enabled (a : action) (s : sys) : bool :=
  match a with
  | ACreate c id => negb (id =? 0)
  | ALock c id state data_size =>
      match p_handles (procs s c) !! id, p_users (procs s c) id with
      | Some _, UIdle => ((state =? SHARED) || (state =? EXCLUSIVE)) && size_ok id data_size
      | _, _ => false
      end
  | ALockResume c id =>
      match p_handles (procs s c) !! id, p_users (procs s c) id with
      | Some h, ULock _ _ => event h
      | _, _ => false
      end
  | AUnlock c id data =>
      match p_handles (procs s c) !! id, p_users (procs s c) id with
      | Some h, UHold state =>
          size_ok id (Z.of_nat (length data)) &&
          ((state =? EXCLUSIVE) || bool_decide (data = []) || bool_decide (data = h_data h))
      | _, _ => false
      end
  | ADestroy c id | AShutdown c id =>
      match p_handles (procs s c) !! id, p_users (procs s c) id with
      | Some _, UIdle => true
      | _, _ => false
      end
  | ADestroyResume c id =>
      match p_handles (procs s c) !! id, p_users (procs s c) id with
      | Some h, UDestroy => event h
      | _, _ => false
      end
  | AServe c => negb (bool_decide (p_up (procs s c) = []))
  | AReceive c => negb (bool_decide (p_down (procs s c) = []))
  end.

Definition after_lock (state data_size : Z) (r : lock_res) : user :=
  match r with
  | Waits => ULock state data_size
  | Locked _ => UHold state
  end.

(** The steps of the processes. *)
Definition exec_lock (c id state data_size : Z) (s : sys) : option sys :=
  h ← p_handles (procs s c) !! id;
  '(h', out, r) ← sync_lock_begin true id state h;
  Some (set_handle c id (Some h') (after_lock state data_size r) out s).

Definition exec_lock_resume (c id : Z) (s : sys) : option sys :=
  h ← p_handles (procs s c) !! id;
  match p_users (procs s c) id with
  | ULock state data_size =>
      '(h', out, r) ← sync_lock_resume id state data_size h;
      Some (set_handle c id (Some h') (after_lock state data_size r) out s)
  | _ => None
  end.

Definition exec_unlock (c id : Z) (data : list Z) (s : sys) : option sys :=
  h ← p_handles (procs s c) !! id;
  match p_users (procs s c) id with
  | UHold state =>
      '(h', out) ← sync_unlock true id data h;
      let s' := set_handle c id (Some h') UIdle out s in
      Some (if (state =? EXCLUSIVE) && negb (bool_decide (data = []))
            then Sys (server s') (procs s') (<[id := data]> (written s')) else s')
  | _ => None
  end.

Definition exec_destroy (c id : Z) (s : sys) : option sys :=
  h ← p_handles (procs s c) !! id;
  '(h', out, waits) ← sync_destroy_begin true id h;
  Some (if waits : bool then set_handle c id (Some h') UDestroy out s else set_handle c id None UIdle out s).

Definition exec_destroy_resume (c id : Z) (s : sys) : option sys :=
  h ← p_handles (procs s c) !! id;
  let '(h', closed) := sync_destroy_resume h in
  Some (if closed : bool then set_handle c id None UIdle [] s else set_handle c id (Some h') UDestroy [] s).

Definition exec_shutdown (c id : Z) (s : sys) : option sys :=
  h ← p_handles (procs s c) !! id;
  let '(h', out) := shutdown_close true id h in
  Some (set_handle c id (Some h') UShutdown out s).

(** The handling of messages. *)
Definition exec_serve (c : Z) (s : sys) : option sys :=
  m ← head (p_up (procs s c));
  '(srv, out) ← sync_server_message_callback c m (server s);
  let w := if bool_decide (g_server_handles srv !! m_id m = None) then <[m_id m := []]> (written s) else written s in
  Some (Sys srv (deliver out (procs (pop_up c s))) w).

Definition exec_receive (c : Z) (s : sys) : option sys :=
  let p := procs s c in
  m ← head (p_down p);
  '(hs, out) ← sync_client_message_callback true (p_handles p) m;
  Some (set_proc c (Proc hs (p_users p) (p_up p ++ out) (tail (p_down p))) s).

Definition exec_create (c id : Z) (s : sys) : option sys :=
  let p := procs s c in
  '(_, hs) ← sync_create (p_handles p) id;
  Some (set_proc c (Proc hs (p_users p) (p_up p) (p_down p)) s).

Definition exec (a : action) (s : sys) : option sys :=
  match a with
  | ACreate c id => exec_create c id s
  | ALock c id state data_size => exec_lock c id state data_size s
  | ALockResume c id => exec_lock_resume c id s
  | AUnlock c id data => exec_unlock c id data s
  | ADestroy c id => exec_destroy c id s
  | ADestroyResume c id => exec_destroy_resume c id s
  | AShutdown c id => exec_shutdown c id s
  | AServe c => exec_serve c s
  | AReceive c => exec_receive c s
  end.

Definition step (s s' : sys) : Prop := exists a, enabled a s = true /\ exec a s = Some s'.

Definition reachable (s : sys) : Prop := rtc step sys_init s.

(** A run, for concrete executions. *)
Fixpoint run (l : list action) (s : sys) : option sys :=
  match l with
  | [] => Some s
  | a :: l' => if enabled a s then s' ← exec a s; run l' s' else None
  end.

Lemma run_rtc l s s' : run l s = Some s' -> rtc step s s'.
Proof.
  revert s. induction l as [|a l IH]; intros s; simpl; [by intros [= ->]|].
  destruct (enabled a s) eqn:He; [|done]. destruct (exec a s) as [s1|] eqn:E; [|done]. simpl.
  intros Hr. eapply rtc_l; [by exists a|auto].
Qed.

End sys.
