(* ===== verification/SyncInv.v ===== *)
(** * The invariant of the sync engine

    How the state of a handle in a process, the lease that the server has for it and the
    messages in between fit together. *)

From stdpp Require Import functions.
From S2P Require Import Prelude Sync SyncClient SyncServer SyncServerSpec SyncSystem.

(** What concerns one handle in one process. *)
Record view : Type := View {
  v_handle : option sync_handle;
  v_user : user;
  v_up : list sync_msg;
  v_down : list sync_msg;
}.

Definition of_id (id : Z) (ms : list sync_msg) : list sync_msg := filter (fun m => m_id m = id) ms.

Definition view_of (id : Z) (p : proc) : view :=
  View (p_handles p !! id) (p_users p id) (of_id id (p_up p)) (of_id id (p_down p)).

Section inv.
Context (dsize : Z -> Z) (id : Z).

(** [w] is the last data written. *)
Section link.
Context (w : list Z).

(** The server asks for downgrades at any time. *)
Definition requests (down : list sync_msg) : Prop :=
  Forall (fun m => exists st, m = SyncMsg REQUEST_DOWNGRADE id st [] /\ INVALID <= st) down.

(** The data that goes with a state that is given up. *)
Definition data_of (st : Z) : list Z := if st =? EXCLUSIVE then w else [].

(** A chain of downgrades that leads from the server's state to the client's. *)
Fixpoint chain (prev : Z) (up : list sync_msg) (cur : Z) : Prop :=
  match up with
  | [] => prev = cur
  | m :: up' => exists st, m = SyncMsg CONFIRM_DOWNGRADE id st (data_of prev) /\ INVALID <= st < prev /\ chain st up' cur
  end.

(** An open handle. *)
Record open_ok (h : sync_handle) : Prop := {
  op_phase : phase h = SYNC_PHASE_OPEN;
  op_cur : INVALID <= cur_state h <= EXCLUSIVE;
  op_server_req : server_req_state h = NONE \/ INVALID <= server_req_state h < cur_state h;
  op_data : SHARED <= cur_state h -> h_data h = w;
  op_empty : w = [] -> h_data h = [];
}.

(** The user has no request at the server. *)
Definition quiet_user (h : sync_handle) (u : user) : Prop :=
  client_req_state h = NONE /\
  match u with
  | UIdle => used h = false /\ n_waiters h = 0 /\ event h = false /\ server_req_state h = NONE
  | UHold st => used h = true /\ n_waiters h = 0 /\ event h = false /\ SHARED <= st <= cur_state h
  | ULock st n => used h = true /\ n_waiters h = 1 /\ event h = true /\ SHARED <= st <= cur_state h /\ size_ok dsize id n = true
  | _ => False
  end.

(** The user waits for state [st]. *)
Definition waiting_user (h : sync_handle) (u : user) (st : Z) : Prop :=
  client_req_state h = st /\ used h = true /\ n_waiters h = 1 /\ event h = false /\
  SHARED <= st <= EXCLUSIVE /\ cur_state h < st /\ exists n, u = ULock st n /\ size_ok dsize id n = true.

(** The handle is being closed. *)
Definition closing_user (h : sync_handle) (u : user) (done : bool) : Prop :=
  u = UDestroy /\ n_waiters h = 1 /\ event h = done \/ u = UShutdown /\ n_waiters h = 0.

Inductive link : option server_lease -> view -> Prop :=
  | LinkNone : link None (View None UIdle [] [])
  | LinkNew u : u = UIdle \/ u = UShutdown -> link None (View (Some sync_init) u [] [])
  | LinkQuiet l h u up down :
      l_client_req l = NONE -> chain (l_cur l) up (cur_state h) -> requests down ->
      open_ok h -> quiet_user h u ->
      link (Some l) (View (Some h) u up down)
  | LinkFirst h u st down :
      requests down -> open_ok h -> waiting_user h u st -> cur_state h = INVALID -> h_data h = [] ->
      link None (View (Some h) u [SyncMsg REQUEST_UPGRADE id st []] down)
  | LinkAsking l h u st up down :
      l_client_req l = NONE -> chain (l_cur l) up (cur_state h) -> requests down ->
      open_ok h -> waiting_user h u st ->
      link (Some l) (View (Some h) u (up ++ [SyncMsg REQUEST_UPGRADE id st []]) down)
  | LinkPending l h u st down :
      l_client_req l = st -> l_cur l = cur_state h -> requests down ->
      open_ok h -> waiting_user h u st ->
      link (Some l) (View (Some h) u [] down)
  | LinkGranted l h u st down1 down2 :
      l_client_req l = NONE -> l_cur l = st -> requests down1 -> requests down2 ->
      open_ok h -> waiting_user h u st ->
      link (Some l) (View (Some h) u [] (down1 ++ SyncMsg CONFIRM_UPGRADE id st w :: down2))
  | LinkClosing l h u st up down :
      l_client_req l = NONE -> chain (l_cur l) up st -> INVALID <= st -> requests down ->
      phase h = SYNC_PHASE_CLOSING -> cur_state h = INVALID -> closing_user h u false ->
      link (Some l) (View (Some h) u (up ++ [SyncMsg REQUEST_CLOSE id st (data_of st)]) down)
  | LinkConfirmed h u down :
      requests down -> phase h = SYNC_PHASE_CLOSING -> cur_state h = INVALID -> closing_user h u false ->
      link None (View (Some h) u [] (down ++ [SyncMsg CONFIRM_CLOSE id INVALID []]))
  | LinkClosed h u :
      phase h = SYNC_PHASE_CLOSED -> cur_state h = INVALID -> closing_user h u true ->
      link None (View (Some h) u [] []).

End link.

Definition leases_at (srv : server_state) : list server_lease :=
  from_option s_leases [] (g_server_handles srv !! id).

(** The server has the data unless a client is in EXCLUSIVE state. *)
Record handle_ok (w : list Z) (oh : option server_handle) : Prop := {
  ho_leases : forall sh, oh = Some sh -> leases_ok (s_leases sh) /\ s_leases sh <> [] /\
    ((forall v l, lease_of v (s_leases sh) = Some l -> l_cur l <> EXCLUSIVE) -> s_data sh = w);
  ho_none : oh = None -> w = [];
  ho_size : w = [] \/ Z.of_nat (length w) = dsize id;
}.

Definition id_ok (s : sys) : Prop :=
  handle_ok (written s id) (g_server_handles (server s) !! id) /\
  forall c, link (written s id) (lease_of c (leases_at (server s))) (view_of id (procs s c)).

End inv.

(** The lists of the clients agree with the leases. *)
Definition clients_ok (srv : server_state) : Prop :=
  forall c, match g_server_clients srv !! c with
            | Some ids => ids <> [] /\ forall id, id ∈ ids <-> lease_of c (leases_at id srv) <> None
            | None => forall id, lease_of c (leases_at id srv) = None
            end.

Definition inv (dsize : Z -> Z) (s : sys) : Prop :=
  clients_ok (server s) /\ (forall c, p_handles (procs s c) !! 0 = None) /\ forall id, id_ok dsize id s.

Lemma sys_init_inv dsize : inv dsize sys_init.
Proof.
  assert (E : forall id, leases_at id (server sys_init) = []) by (intros id; unfold leases_at; simpl; by rewrite lookup_empty).
  split; [|split].
  - intros c. simpl. rewrite lookup_empty. intros id. by rewrite E.
  - intros c. apply lookup_empty.
  - intros id. split; [|intros c; rewrite E; apply LinkNone].
    split; simpl; [by rewrite lookup_empty|done|by left].
Qed.

(** ** Changes of one handle in one process *)

Lemma of_id_app id ms1 ms2 : of_id id (ms1 ++ ms2) = of_id id ms1 ++ of_id id ms2.
Proof. apply filter_app. Qed.

Lemma of_id_cons id m ms : of_id id (m :: ms) = (if decide (m_id m = id) then [m] else []) ++ of_id id ms.
Proof. unfold of_id. rewrite filter_cons. by destruct (decide _). Qed.

Lemma of_id_all id ms : Forall (fun m => m_id m = id) ms -> of_id id ms = ms.
Proof. apply list_filter_all. Qed.

Lemma of_id_none id id' ms : id <> id' -> Forall (fun m => m_id m = id) ms -> of_id id' ms = [].
Proof. intros Hne Hf. apply list_filter_none. eapply Forall_impl; [exact Hf|]. simpl. congruence. Qed.

Lemma view_set_proc id c c' p s :
  view_of id (procs (set_proc c p s) c') = if decide (c' = c) then view_of id p else view_of id (procs s c').
Proof.
  simpl. destruct (decide (c' = c)) as [->|]; [by rewrite fn_lookup_insert|by rewrite fn_lookup_insert_ne].
Qed.

Section update.
Context (dsize : Z -> Z).

(** Process [c] has changed, as far as it concerns the handle [id]. *)
Lemma set_proc_inv c id p s :
  inv dsize s ->
  link dsize id (written s id) (lease_of c (leases_at id (server s))) (view_of id p) ->
  (forall id', id' <> id -> view_of id' p = view_of id' (procs s c)) -> p_handles p !! 0 = None ->
  inv dsize (set_proc c p s).
Proof.
  intros (Hc & Hz & Hi) Hl Hv H0. split; [done|]. split.
  { intros c'. simpl. destruct (decide (c' = c)) as [->|]; [by rewrite fn_lookup_insert|by rewrite fn_lookup_insert_ne]. }
  intros id'. destruct (Hi id') as [Hh Hk]. split; [done|].
  intros c'. rewrite view_set_proc. destruct (decide (c' = c)) as [->|]; [|apply Hk].
  destruct (decide (id' = id)) as [->|Hne]; [done|]. rewrite (Hv id' Hne). apply Hk.
Qed.

Lemma set_handle_inv c id oh u out s :
  inv dsize s -> id <> 0 -> Forall (fun m => m_id m = id) out ->
  link dsize id (written s id) (lease_of c (leases_at id (server s)))
    (View oh u (of_id id (p_up (procs s c)) ++ out) (of_id id (p_down (procs s c)))) ->
  inv dsize (set_handle c id oh u out s).
Proof.
  intros Hi Hid Ho Hl. apply (set_proc_inv c id); [done|..]; unfold view_of; simpl.
  - by rewrite lookup_partial_alter_eq, fn_lookup_insert, of_id_app, (of_id_all id out).
  - intros id' Hne. rewrite lookup_partial_alter_ne, fn_lookup_insert_ne, of_id_app, (of_id_none id id' out), app_nil_r by done.
    done.
  - rewrite lookup_partial_alter_ne by done. by apply Hi.
Qed.

End update.
