(* ===== verification/SyncClientSpec.v ===== *)
(** * Correctness of the client of the sync engine

    Each operation on a handle runs without a failed assertion and keeps the agreement
    with the server's lease that [SyncInv] describes. *)

From stdpp Require Import functions.
From S2P Require Import Prelude Sync SyncClient SyncServer SyncServerSpec SyncSystem SyncInv.

Section client.
Context (dsize : Z -> Z) (id : Z) (w : list Z).
Hypothesis w_size : w = [] \/ Z.of_nat (length w) = dsize id.

Abbreviation link := (SyncInv.link dsize id w).
Abbreviation chain := (SyncInv.chain id w).
Abbreviation requests := (SyncInv.requests id).
Abbreviation for_id := (Forall (fun m => m_id m = id)).

Lemma chain_le prev up cur : chain prev up cur -> cur <= prev.
Proof.
  revert prev. induction up as [|m up IH]; intros prev; simpl; [lia|].
  intros (st & _ & ? & ?%IH). lia.
Qed.

Lemma chain_app prev up cur st :
  chain prev up cur -> INVALID <= st < cur -> chain prev (up ++ [SyncMsg CONFIRM_DOWNGRADE id st (data_of w cur)]) st.
Proof.
  revert prev. induction up as [|m up IH]; intros prev; simpl.
  - intros -> ?. by exists st.
  - intros (st' & -> & ? & ?) ?. exists st'. split_and!; try done; try lia. by apply IH.
Qed.

(** At the top or at the bottom no downgrade is on its way. *)
Lemma chain_top prev up : prev <= EXCLUSIVE -> chain prev up EXCLUSIVE -> up = [].
Proof. destruct up as [|m up]; [done|]. intros ? (st & _ & ? & ?%chain_le). lia. Qed.

Lemma chain_bottom prev up cur : prev <= INVALID -> chain prev up cur -> up = [].
Proof. destruct up as [|m up]; [done|]. intros ? (st & _ & ? & _). lia. Qed.

(** ** The state of a handle, from what its user does *)

Ltac contra_user :=
  repeat match goal with
  | H : waiting_user _ _ _ _ _ |- _ => destruct H as (? & ? & ? & ? & ? & ? & ? & ? & ?)
  | H : closing_user _ _ _ |- _ => destruct H as [(? & ? & ?)|(? & ?)]
  | H : quiet_user _ _ _ UDestroy |- _ => destruct H as [_ []]
  | H : _ = UIdle \/ _ = UShutdown |- _ => destruct H as [?|?]
  end; try done; try congruence.

Definition quiet (ol : option server_lease) (v : view) : Prop :=
  exists l h u up down, ol = Some l /\ v = View (Some h) u up down /\ l_client_req l = NONE /\
    chain (l_cur l) up (cur_state h) /\ requests down /\ open_ok w h /\ quiet_user dsize id h u.

Lemma link_idle ol h up down :
  link ol (View (Some h) UIdle up down) ->
  ol = None /\ h = sync_init /\ up = [] /\ down = [] \/ quiet ol (View (Some h) UIdle up down).
Proof.
  intros Hl. inversion Hl; subst; contra_user; [by left|right]. by do 5 eexists; split_and!.
Qed.

Lemma link_hold ol h st up down : link ol (View (Some h) (UHold st) up down) -> quiet ol (View (Some h) (UHold st) up down).
Proof. intros Hl. inversion Hl; subst; contra_user. by do 5 eexists; split_and!. Qed.

Lemma link_woken ol h st n up down :
  link ol (View (Some h) (ULock st n) up down) -> event h = true -> quiet ol (View (Some h) (ULock st n) up down).
Proof. intros Hl He. inversion Hl; subst; contra_user. by do 5 eexists; split_and!. Qed.

Lemma link_destroyed ol h up down :
  link ol (View (Some h) UDestroy up down) -> event h = true ->
  ol = None /\ phase h = SYNC_PHASE_CLOSED /\ up = [] /\ down = [].
Proof. intros Hl He. inversion Hl; subst; contra_user. Qed.

Lemma link_absent ol u up down :
  link ol (View None u up down) -> ol = None /\ u = UIdle /\ up = [] /\ down = [].
Proof. intros Hl. by inversion Hl. Qed.

(** ** The calls of the user *)

Lemma lock_spec ol h up down st n :
  link ol (View (Some h) UIdle up down) -> SHARED <= st <= EXCLUSIVE -> size_ok dsize id n = true ->
  exists h' out r, sync_lock_begin true id st h = Some (h', out, r) /\ for_id out /\
    link ol (View (Some h') (after_lock st n r) (up ++ out) down).
Proof.
  intros Hl Hst Hn. unfold sync_lock_begin. assert (Hs : (st =? SHARED) || (st =? EXCLUSIVE) = true).
  { apply orb_true_iff. states. lia. }
  rewrite Hs. cbn [check mbind option_bind negb].
  destruct (link_idle _ _ _ _ Hl) as [(-> & -> & -> & ->)|(l & h0 & u & up0 & down0 & -> & [= <- <- <- <-] & Hr & Hch & Hrq & Ho & Hq)].
  - simpl. unfold sync_lock_loop. simpl.
    rewrite (proj2 (Z.ltb_lt INVALID st)), (proj2 (Z.ltb_lt NONE st)) by (states; lia).
    simpl. do 3 eexists. split; [done|]. split; [by repeat constructor|].
    apply LinkFirst; simpl; try done; [constructor| |].
    + split; simpl; try done; by left.
    + split_and!; simpl; try done; try (states; lia). by exists n.
  - destruct Hq as (Hcr & Hu & Hw & He & Hsr). rewrite Hu. simpl. destruct Ho as [Hp Hc Hs1 Hd Hem].
    destruct (cur_state h <? st) eqn:Hlt; breflect.
    + unfold sync_lock_loop. simpl. rewrite Hp, Hcr. simpl. rewrite (proj2 (Z.ltb_lt NONE st)) by (states; lia).
      simpl. do 3 eexists. split; [done|]. split; [by repeat constructor|]. simpl.
      apply LinkAsking; try done. split_and!; simpl; try done; try lia; try (by rewrite Hw). by exists n.
    + do 3 eexists. split; [done|]. split; [constructor|]. rewrite app_nil_r. simpl.
      apply LinkQuiet; try done. split; simpl; [done|]. split_and!; try done; lia.
Qed.

Lemma lock_resume_spec ol h up down st n :
  link ol (View (Some h) (ULock st n) up down) -> event h = true ->
  exists h' upd, sync_lock_resume id st n h = Some (h', [], Locked upd) /\
    upd = (if (0 <? n) && negb (bool_decide (w = [])) then Some w else None) /\ link ol (View (Some h') (UHold st) up down).
Proof.
  intros Hl He. destruct (link_woken _ _ _ _ _ _ Hl He) as (l & h0 & u & up0 & down0 & -> & [= <- <- <- <-] & Hr & Hch & Hrq & Ho & Hq).
  destruct Hq as (Hcr & Hu & Hw & _ & Hst & Hn). unfold sync_lock_resume, sync_wait_end. rewrite Hw. simpl.
  rewrite (proj2 (Z.ltb_ge _ _)) by lia. destruct Ho as [Hp Hc Hs Hd Hem].
  pose proof (Hd ltac:(lia)) as Ed. unfold sync_lock_data. simpl. rewrite Ed.
  assert (Hlink : link (Some l) (View (Some (set_waiters false 0 h)) (UHold st) up down)).
  { by apply LinkQuiet. }
  assert (Eb : (0 <? Z.of_nat (length w)) = negb (bool_decide (w = []))) by (by destruct w).
  rewrite Eb. destruct ((0 <? n) && negb (bool_decide (w = []))) eqn:Hb; simpl; [|by do 2 eexists].
  breflect. apply bool_decide_eq_false in H0. unfold size_ok in Hn. apply orb_true_iff in Hn. rewrite !Z.eqb_eq in Hn.
  rewrite (proj2 (Z.eqb_eq n _)) by (destruct w_size; [done|lia]). by do 2 eexists.
Qed.

Lemma downgrade_link l h up down :
  l_client_req l = NONE -> chain (l_cur l) up (cur_state h) -> requests down -> open_ok w h ->
  client_req_state h = NONE -> used h = false -> n_waiters h = 0 -> event h = false -> server_req_state h <> NONE ->
  exists h' out, sync_downgrade id h = Some (h', out) /\ for_id out /\ link (Some l) (View (Some h') UIdle (up ++ out) down).
Proof.
  intros Hr Hch Hrq [Hp Hc [Hs|Hs] Hd Hem] Hcr Hu Hw He Hsr; [done|]. unfold sync_downgrade.
  rewrite Hu, Hp. simpl. rewrite (proj2 (Z.eqb_neq (server_req_state h) NONE)) by done.
  rewrite (proj2 (Z.ltb_lt (server_req_state h) (cur_state h))) by lia. simpl.
  do 2 eexists. split; [done|]. split; [by repeat constructor|].
  assert (Edata : (if cur_state h =? EXCLUSIVE then h_data h else []) = data_of w (cur_state h)).
  { unfold data_of. dif; [|done]. apply Hd. states. lia. }
  rewrite Edata. apply LinkQuiet; simpl; try done.
  - apply chain_app; [done|lia].
  - split; simpl; try done; [lia|by left|]. intros. apply Hd. lia.
Qed.

Lemma destroy_spec ol h up down :
  id <> 0 -> link ol (View (Some h) UIdle up down) ->
  exists h' out b, sync_destroy_begin true id h = Some (h', out, b) /\ for_id out /\
    if b : bool then link ol (View (Some h') UDestroy (up ++ out) down) else link ol (View None UIdle (up ++ out) down).
Proof.
  intros Hid Hl. unfold sync_destroy_begin. rewrite (proj2 (Z.eqb_neq id 0)) by done. cbn [check mbind option_bind negb].
  destruct (link_idle _ _ _ _ Hl) as [(-> & -> & -> & ->)|(l & h0 & u & up0 & down0 & -> & [= <- <- <- <-] & Hr & Hch & Hrq & Ho & Hq)].
  - do 3 eexists. split; [done|]. split; [constructor|]. apply LinkNone.
  - destruct Hq as (Hcr & Hu & Hw & He & Hsr), Ho as [Hp Hc Hs1 Hd Hem]. rewrite Hu, Hw, Hp. simpl.
    do 3 eexists. split; [done|]. split; [by repeat constructor|]. unfold send_request_close.
    replace (if cur_state h =? EXCLUSIVE then h_data h else []) with (data_of w (cur_state h))
      by (unfold data_of; dif; [symmetry; apply Hd; states; lia|done]).
    apply LinkClosing; simpl; try done; [lia|]. left. split_and!; try done. simpl. by rewrite Hw.
Qed.

Lemma destroy_resume_spec ol h up down :
  link ol (View (Some h) UDestroy up down) -> event h = true ->
  snd (sync_destroy_resume h) = true /\ link ol (View None UIdle up down).
Proof.
  intros Hl He. destruct (link_destroyed _ _ _ _ Hl He) as (-> & Hp & -> & ->).
  unfold sync_destroy_resume, sync_wait_end. simpl. rewrite Hp. simpl. split; [done|apply LinkNone].
Qed.

Lemma shutdown_spec ol h up down :
  link ol (View (Some h) UIdle up down) ->
  for_id (snd (shutdown_close true id h)) /\
  link ol (View (Some (fst (shutdown_close true id h))) UShutdown (up ++ snd (shutdown_close true id h)) down).
Proof.
  intros Hl. unfold shutdown_close.
  destruct (link_idle _ _ _ _ Hl) as [(-> & -> & -> & ->)|(l & h0 & u & up0 & down0 & -> & [= <- <- <- <-] & Hr & Hch & Hrq & Ho & Hq)].
  - simpl. split; [constructor|]. apply LinkNew. by right.
  - destruct Hq as (Hcr & Hu & Hw & He & Hsr), Ho as [Hp Hc Hs1 Hd Hem]. rewrite Hp. simpl.
    split; [by repeat constructor|]. unfold send_request_close.
    replace (if cur_state h =? EXCLUSIVE then h_data h else []) with (data_of w (cur_state h))
      by (unfold data_of; dif; [symmetry; apply Hd; states; lia|done]).
    apply LinkClosing; simpl; try done; [lia|]. by right.
Qed.

(** ** Messages from the server *)

Definition receive (m : sync_msg) (h : sync_handle) : option (sync_handle * list sync_msg) :=
  match m_code m with
  | REQUEST_DOWNGRADE =>
      check (Z.of_nat (length (m_data m)) =? 0);; do_request_downgrade true (m_id m) (m_state m) h
  | CONFIRM_UPGRADE => do_confirm_upgrade true (m_state m) (m_data m) h
  | CONFIRM_CLOSE => do_confirm_close true h
  | _ => None
  end.

(** A request for a downgrade of a handle in use is remembered. *)
Lemma downgrade_later st h :
  open_ok w h -> used h = true -> INVALID <= st ->
  exists h', do_request_downgrade true id st h = Some (h', []) /\ open_ok w h' /\
    (h' = h \/ h' = set_server_req st h).
Proof.
  intros Ho Hu Hst. unfold do_request_downgrade. rewrite (op_phase _ _ Ho). simpl. rewrite Hu. simpl.
  dif; [|by exists h; split_and!; [| |left]]. eexists. split_and!; [done| |by right].
  destruct Ho as [? ? ? ? ?]. split; simpl; try done. right. lia.
Qed.

Lemma quiet_user_set st h u : used h = true -> quiet_user dsize id h u -> quiet_user dsize id (set_server_req st h) u.
Proof. intros Hu [Hcr Hq]. split; [done|]. destruct u; simpl in *; try done. by rewrite Hu in Hq; destruct Hq. Qed.

Lemma waiting_used h u st : waiting_user dsize id h u st -> used h = true.
Proof. by intros (_ & ? & _). Qed.

(** When the handle is not in use, the downgrade happens at once. *)
Lemma request_downgrade_quiet l h u up down st :
  INVALID <= st -> l_client_req l = NONE -> chain (l_cur l) up (cur_state h) -> requests down ->
  open_ok w h -> quiet_user dsize id h u ->
  exists h' out, do_request_downgrade true id st h = Some (h', out) /\ for_id out /\
    link (Some l) (View (Some h') u (up ++ out) down).
Proof.
  intros Hst Hr Hch Hrq Ho Hq. destruct (used h) eqn:Hu.
  - destruct (downgrade_later st h Ho Hu Hst) as (h' & -> & Ho' & Hh').
    exists h', []. rewrite app_nil_r. split_and!; [done|constructor|].
    destruct Hh' as [-> | ->]; apply LinkQuiet; try done. by apply quiet_user_set.
  - assert (u = UIdle) as -> by (destruct Hq as [_ Hq]; destruct u; simpl in Hq; try done; destruct Hq; congruence).
    unfold do_request_downgrade. rewrite (op_phase _ _ Ho). destruct Hq as (Hcr & _ & Hw & He & Hsr).
    simpl. rewrite Hu, Hsr, orb_true_r, andb_true_r. simpl.
    destruct (st <? cur_state h) eqn:Hlt; breflect.
    + apply downgrade_link; simpl; try done; [|states; lia]. destruct Ho as [? ? ? ? ?]. split; simpl; try done. right. lia.
    + do 2 eexists. split; [done|]. split; [constructor|]. rewrite app_nil_r. by apply LinkQuiet.
Qed.

Lemma request_downgrade_link ol h u up down st :
  INVALID <= st -> link ol (View (Some h) u up (SyncMsg REQUEST_DOWNGRADE id st [] :: down)) ->
  exists h' out, do_request_downgrade true id st h = Some (h', out) /\ for_id out /\
    link ol (View (Some h') u (up ++ out) down).
Proof.
  intros Hst Hl.
  assert (Hclosed : phase h <> SYNC_PHASE_OPEN -> link ol (View (Some h) u up down) -> exists h' out,
    do_request_downgrade true id st h = Some (h', out) /\ for_id out /\ link ol (View (Some h') u (up ++ out) down)).
  { intros Hp Hk. unfold do_request_downgrade. rewrite bool_decide_false by done. simpl. exists h, [].
    rewrite app_nil_r. by split_and!. }
  assert (Hused : used h = true -> open_ok w h -> (forall h', open_ok w h' -> h' = h \/ h' = set_server_req st h ->
    link ol (View (Some h') u up down)) -> exists h' out, do_request_downgrade true id st h = Some (h', out) /\
    for_id out /\ link ol (View (Some h') u (up ++ out) down)).
  { intros Hu Ho Hk. destruct (downgrade_later st h Ho Hu Hst) as (h' & -> & Ho' & Hh').
    exists h', []. rewrite app_nil_r. split_and!; [done|constructor|auto]. }
  inversion Hl as [| |l h0 u0 up0 dn0 Hr Hch Hrq Ho Hq|h0 u0 st0 dn0 Hrq Ho Hq Hc Hd|l h0 u0 st0 up0 dn0 Hr Hch Hrq Ho Hq
    |l h0 u0 st0 dn0 Hr Hch Hrq Ho Hq|l h0 u0 st0 d1 d2 Hr Hch Hr1 Hr2 Ho Hq|l h0 u0 st0 up0 dn0 Hr Hch Hs Hrq Hp Hc Hq
    |h0 u0 dn0 Hrq Hp Hc Hq|]; subst; clear Hl; try (apply Forall_cons in Hrq as [_ Hrq]).
  - by apply request_downgrade_quiet.
  - apply Hused; [by eapply waiting_used|done|]. intros h' Ho' [-> | ->]; by apply LinkFirst.
  - apply Hused; [by eapply waiting_used|done|]. intros h' Ho' [-> | ->]; by apply LinkAsking.
  - apply Hused; [by eapply waiting_used|done|]. intros h' Ho' [-> | ->]; by eapply LinkPending.
  - destruct d1 as [|m d1]; [done|]. simplify_eq/=.
    apply Forall_cons in Hr1 as [_ Hr1].
    apply Hused; [by eapply waiting_used|done|]. intros h' Ho' [-> | ->]; by apply LinkGranted.
  - apply Hclosed; [by rewrite Hp|]. by apply LinkClosing.
  - destruct dn0 as [|m d1]; [done|]. simplify_eq/=.
    apply Forall_cons in Hrq as [_ Hrq]. apply Hclosed; [by rewrite Hp|]. by apply LinkConfirmed.
Qed.

Lemma confirm_upgrade_link l h u st down :
  l_client_req l = NONE -> l_cur l = st -> requests down -> open_ok w h -> waiting_user dsize id h u st ->
  exists h', do_confirm_upgrade true st w h = Some (h', []) /\ link (Some l) (View (Some h') u [] down).
Proof.
  intros Hr Hc Hrq [Hp Hcur Hs Hd Hem] (Hcr & Hu & Hw & He & Hst & Hlt & n & -> & Hn).
  unfold do_confirm_upgrade. rewrite Hp, (proj2 (Z.ltb_lt (cur_state h) st)) by done. simpl.
  unfold sync_notify. simpl. rewrite Hw. simpl.
  assert (Hk : forall d, (w = [] -> d = h_data h) -> (w <> [] -> d = w) -> link (Some l) (View (Some
    (set_data d (set_waiters true 1 (set_client_req NONE (set_cur st h))))) (ULock st n) [] down)).
  { intros d Hd1 Hd2. assert (Ed : d = w) by (destruct (decide (w = [])); [rewrite Hd1, Hem; congruence|auto]).
    apply LinkQuiet; simpl; try done; [|split; simpl; [done|split_and!; try done; lia]].
    split; simpl; try done; [states; lia|destruct Hs; [by left|right; lia]|congruence]. }
  destruct w as [|x w'] eqn:E; simpl.
  - eexists. split; [done|]. rewrite <- E in *. destruct h. apply (Hk h_data); [done|]. congruence.
  - eexists. split; [done|]. by apply Hk.
Qed.

Lemma confirm_close_link h u :
  phase h = SYNC_PHASE_CLOSING -> cur_state h = INVALID -> closing_user h u false ->
  exists h', do_confirm_close true h = Some (h', []) /\ link None (View (Some h') u [] []).
Proof.
  intros Hp Hc Hq. unfold do_confirm_close. rewrite Hp. simpl. eexists. split; [done|]. unfold sync_notify.
  destruct Hq as [(-> & Hw & He)|(-> & Hw)]; simpl; rewrite Hw; simpl; apply LinkClosed; try done;
    [by left; split_and!|by right].
Qed.

Lemma link_down ol oh u up m down :
  link ol (View oh u up (m :: down)) ->
  exists h, oh = Some h /\
    ((exists st, m = SyncMsg REQUEST_DOWNGRADE id st [] /\ INVALID <= st) \/
     (exists l st, ol = Some l /\ up = [] /\ m = SyncMsg CONFIRM_UPGRADE id st w /\ l_client_req l = NONE /\ l_cur l = st /\
        requests down /\ open_ok w h /\ waiting_user dsize id h u st) \/
     (ol = None /\ up = [] /\ m = SyncMsg CONFIRM_CLOSE id INVALID [] /\ down = [] /\
        phase h = SYNC_PHASE_CLOSING /\ cur_state h = INVALID /\ closing_user h u false)).
Proof.
  intros Hl. inversion Hl as [| |l h0 u0 up0 dn0 Hr Hch Hrq Ho Hq|h0 u0 st0 dn0 Hrq Ho Hq Hc Hd|l h0 u0 st0 up0 dn0 Hr Hch Hrq Ho Hq
    |l h0 u0 st0 dn0 Hr Hch Hrq Ho Hq|l h0 u0 st0 d1 d2 Hr Hch Hr1 Hr2 Ho Hq|l h0 u0 st0 up0 dn0 Hr Hch Hs Hrq Hp Hc Hq
    |h0 u0 dn0 Hrq Hp Hc Hq|]; subst; clear Hl; eexists; (split; [done|]).
  all: try (left; by apply Forall_cons in Hrq as [? _]).
  - destruct d1 as [|m1 d1]; simplify_eq/=; [|left; by apply Forall_cons in Hr1 as [? _]].
    right; left. by do 2 eexists; split_and!.
  - destruct dn0 as [|m1 d1]; simplify_eq/=; [|left; by apply Forall_cons in Hrq as [? _]]. by right; right.
Qed.

Lemma receive_spec ol oh u up m down :
  link ol (View oh u up (m :: down)) ->
  exists h h' out, oh = Some h /\ receive m h = Some (h', out) /\ for_id out /\ m_id m = id /\
    link ol (View (Some h') u (up ++ out) down).
Proof.
  intros Hl. destruct (link_down _ _ _ _ _ _ Hl) as (h & -> & [(st & -> & Hst)|[(l & st & -> & -> & -> & Hk)|(-> & -> & -> & -> & Hk)]]).
  - destruct (request_downgrade_link _ _ _ _ _ _ Hst Hl) as (h' & out & E & Ho & Hl').
    exists h, h', out. unfold receive. simpl. by rewrite E.
  - destruct Hk as (Hr & Hc & Hrq & Ho & Hq). destruct (confirm_upgrade_link l h u st down) as (h' & E & Hl'); try done.
    exists h, h', []. unfold receive. simpl. rewrite E. by split_and!.
  - destruct Hk as (Hp & Hc & Hq). destruct (confirm_close_link h u) as (h' & E & Hl'); try done.
    exists h, h', []. unfold receive. simpl. rewrite E. by split_and!.
Qed.

End client.

(** Releasing a handle, possibly with new data. *)
Lemma unlock_spec dsize id w l h st up down data :
  link dsize id w (Some l) (View (Some h) (UHold st) up down) -> l_cur l <= EXCLUSIVE ->
  st = EXCLUSIVE \/ data = [] \/ data = h_data h ->
  let w' := if (st =? EXCLUSIVE) && negb (bool_decide (data = [])) then data else w in
  exists h' out, sync_unlock true id data h = Some (h', out) /\ Forall (fun m => m_id m = id) out /\
    link dsize id w' (Some l) (View (Some h') UIdle (up ++ out) down).
Proof.
  intros Hl Hlc Hdata w'.
  destruct (link_hold _ _ _ _ _ _ _ _ Hl) as (l0 & h0 & u & up0 & down0 & [= <-] & [= <- <- <- <-] & Hr & Hch & Hrq & Ho & Hq).
  destruct Ho as [Hp Hc Hs Hd Hem], Hq as (Hcr & Hu & Hw & He & Hst). specialize (Hd ltac:(lia)).
  set (h1 := if 0 <? Z.of_nat (length data) then set_data data h else h).
  assert (E1 : h_data h1 = w').
  { unfold h1, w'. destruct data as [|x data']; simpl; [by rewrite andb_false_r|]. rewrite andb_true_r.
    destruct (st =? EXCLUSIVE) eqn:E; breflect; [done|]. destruct Hdata as [?|[?|?]]; congruence. }
  assert (E2 : set_used false h1 = set_data w' (set_used false h)).
  { rewrite <- E1. unfold h1. dif; [done|]. by destruct h. }
  assert (Hch' : chain id w' (l_cur l) up (cur_state h)).
  { unfold w'. destruct (st =? EXCLUSIVE) eqn:E; simpl; [|done]. apply Z.eqb_eq in E. assert (Ec : cur_state h = EXCLUSIVE) by lia.
    rewrite Ec in Hch |- *. pose proof (chain_top _ _ _ _ Hlc Hch) as ->. done. }
  assert (Ho' : open_ok w' (set_used false h1)) by (rewrite E2; split; simpl; auto).
  assert (Eu : sync_unlock true id data h = if bool_decide (phase h = SYNC_PHASE_OPEN) &&
    (server_req_state h <? cur_state h) && negb (server_req_state h =? NONE)
    then sync_downgrade id (set_used false h1) else Some (set_used false h1, [])).
  { unfold sync_unlock, h1, update_handle_data. rewrite Hu. by destruct data. }
  rewrite Eu. dif.
  - destruct (downgrade_link dsize id w' l (set_used false h1) up down) as (h' & out & -> & Hout & Hl'); try done.
    all: try (rewrite E2; done). by exists h', out.
  - exists (set_used false h1), []. rewrite app_nil_r. split_and!; [done|constructor|].
    assert (Hsr : server_req_state h = NONE).
    { destruct Hs as [|Hs]; [done|]. rewrite Hp, (proj2 (Z.ltb_lt _ _)) in Heqb by lia. simpl in Heqb. by breflect. }
    apply LinkQuiet; try done; rewrite E2; done.
Qed.

(** A client without a state does not notice that the data changes. *)
Lemma open_ok_change w w' h :
  open_ok w h -> cur_state h = INVALID -> w' <> [] \/ h_data h = [] -> open_ok w' h.
Proof.
  intros [Hp Hc Hs Hd Hem] Hi Hw. split; try done; [rewrite Hi; intros Hx; exfalso; states; lia|]. destruct Hw; [done|auto].
Qed.

Lemma chain_invalid id w prev up cur : chain id w prev up cur -> prev = INVALID -> up = [] /\ cur = INVALID.
Proof. intros Hch ->. assert (up = []) as -> by by eapply chain_bottom. simpl in Hch. by subst. Qed.

Lemma link_change dsize id w w' ol v :
  link dsize id w ol v -> (forall l, ol = Some l -> l_cur l = INVALID) -> w' <> [] \/ ol = None -> link dsize id w' ol v.
Proof.
  intros Hl Hi Hw. inversion Hl as [|u Hu|l h u up dn Hr Hch Hrq Ho Hq|h u st dn Hrq Ho Hq Hc Hd|l h u st up dn Hr Hch Hrq Ho Hq
    |l h u st dn Hr Hch Hrq Ho Hq|l h u st d1 d2 Hr Hch Hr1 Hr2 Ho Hq|l h u st up dn Hr Hch Hs Hrq Hp Hc Hq
    |h u dn Hrq Hp Hc Hq|h u Hp Hc Hq]; subst; try (specialize (Hi l eq_refl); destruct Hw as [Hw|]; [|done]).
  - apply LinkNone.
  - by apply LinkNew.
  - destruct (chain_invalid _ _ _ _ _ Hch Hi) as [-> Hc]. apply LinkQuiet; try done.
    eapply open_ok_change; eauto.
  - apply LinkFirst; try done. eapply open_ok_change; eauto.
  - destruct (chain_invalid _ _ _ _ _ Hch Hi) as [-> Hc]. apply (LinkAsking _ _ _ _ _ _ _ []); try done.
    eapply open_ok_change; eauto.
  - eapply LinkPending; try done. eapply open_ok_change; [done|congruence|by left].
  - destruct Hq as (_ & _ & _ & _ & Hst & _). rewrite Hi in Hst. states. lia.
  - destruct (chain_invalid _ _ _ _ _ Hch Hi) as [-> ->].
    change (data_of w INVALID) with (data_of w' INVALID). by apply (LinkClosing _ _ _ _ _ _ _ []).
  - by apply LinkConfirmed.
  - by apply LinkClosed.
Qed.
