(* ===== verification/SyncServeSpec.v ===== *)
(** * The server keeps the invariant

    Handling a message of a client, and the pass over the leases that follows, keep the
    agreement of all clients with their leases. *)

From stdpp Require Import functions.
From S2P Require Import Prelude Sync SyncClient SyncServer SyncServerSpec SyncSystem SyncInv SyncClientSpec.

Section serve.
Context (dsize : Z -> Z) (id : Z).

Section data.
Context (w : list Z).

Abbreviation link := (SyncInv.link dsize id w).
Abbreviation chain := (SyncInv.chain id w).
Abbreviation requests := (SyncInv.requests id).

(** More messages to the client. *)
Definition add_down (v : view) (ms : list sync_msg) : view := View (v_handle v) (v_user v) (v_up v) (v_down v ++ ms).

Lemma requests_app ms1 ms2 : requests ms1 -> requests ms2 -> requests (ms1 ++ ms2).
Proof. intros. by apply Forall_app. Qed.

(** Requests of the server and changes of [server_req_state] do not matter. *)
Lemma link_append l l' v ms :
  link (Some l) v -> l_cur l' = l_cur l -> l_client_req l' = l_client_req l -> requests ms ->
  link (Some l') (add_down v ms).
Proof.
  intros Hl Ec Er Hms. unfold add_down.
  inversion Hl as [| |l0 h u up dn Hr Hch Hrq Ho Hq| |l0 h u st up dn Hr Hch Hrq Ho Hq
    |l0 h u st dn Hr Hch Hrq Ho Hq|l0 h u st d1 d2 Hr Hch Hr1 Hr2 Ho Hq|l0 h u st up dn Hr Hch Hs Hrq Hp Hc Hq| |]; subst; simpl.
  - apply LinkQuiet; rewrite ?Ec, ?Er; try done. by apply requests_app.
  - apply LinkAsking; rewrite ?Ec, ?Er; try done. by apply requests_app.
  - apply (LinkPending _ _ _ _ _ _ (l_client_req l)); rewrite ?Ec, ?Er; try done. by apply requests_app.
  - rewrite <- app_assoc. simpl. apply LinkGranted; rewrite ?Ec, ?Er; try done. by apply requests_app.
  - apply LinkClosing; rewrite ?Ec, ?Er; try done. by apply requests_app.
Qed.

Lemma link_grant l l' v ms :
  link (Some l) v -> l_client_req l <> NONE -> l_cur l' = l_client_req l -> l_client_req l' = NONE -> requests ms ->
  link (Some l') (add_down v (SyncMsg CONFIRM_UPGRADE id (l_client_req l) w :: ms)).
Proof.
  intros Hl Hn Ec Er Hms. inversion Hl as [| | | | |l0 h u st dn Hr Hch Hrq Ho Hq| | | |]; subst; try done.
  unfold add_down. simpl. by apply LinkGranted.
Qed.

Lemma served_link l l' v data ms :
  link (Some l) v -> served id data (Some l) (Some l') ms -> (SHARED <= l_cur l' -> l_cur l' = l_cur l \/ data = w) ->
  lease_ok l -> link (Some l') (add_down v ms).
Proof.
  intros Hl (rds & Hrds & Hs)%served_msgs Hd Hok.
  assert (Hr : requests rds) by (eapply Forall_impl; [exact Hrds|]; simpl; intros m (st & -> & ?); exists st; split; [done|lia]).
  destruct Hs as [(Ec & Er & ->)|(Hn & Ec & Er & ->)]; [by apply (link_append l)|].
  destruct (lok_client_req _ Hok) as [?|Hq]; [done|]. pose proof (lok_cur _ Hok).
  destruct Hd as [?|E]; [states; lia|lia|]. rewrite E. by apply link_grant.
Qed.

(** The server's data is current unless a client is in EXCLUSIVE state. *)
Definition data_ok (sh : server_handle) : Prop :=
  (forall v l, lease_of v (s_leases sh) = Some l -> l_cur l <> EXCLUSIVE) -> s_data sh = w.

(** States only rise in a pass. *)
Lemma served_rises data ls ls' v l ms :
  leases_ok ls -> leases_ok ls' -> lease_of v ls = Some l -> served id data (lease_of v ls) (lease_of v ls') ms ->
  exists l', lease_of v ls' = Some l' /\ lease_ok l /\ lease_ok l' /\ l_cur l <= l_cur l'.
Proof.
  intros Hok Hok' El Hs. rewrite El in Hs. destruct (lease_of v ls') as [l'|] eqn:El'; [|done].
  apply lease_of_elem in El as [El _], El' as [El' _].
  pose proof (ls_lease _ Hok) as Hf. pose proof (ls_lease _ Hok') as Hf'. rewrite Forall_forall in Hf, Hf'.
  exists l'. split_and!; [done|auto|auto|]. destruct Hs as (rds & _ & [(-> & _)|(Hn & -> & _)]); [done|].
  destruct (lok_client_req _ (Hf l El)); [done|lia].
Qed.

Lemma served_ids data ol ol' ms : served id data ol ol' ms -> Forall (fun m => m_id m = id) ms.
Proof.
  destruct ol as [l|], ol' as [l'|]; simpl; try done; [|by intros ->]. intros (rds & Hrds & Hs)%served_msgs.
  assert (Hr : Forall (fun m => m_id m = id) rds).
  { eapply Forall_impl; [exact Hrds|]. by intros m (st & -> & _). }
  destruct Hs as [(_ & _ & ->)|(_ & _ & _ & ->)]; [done|]. by constructor.
Qed.

(** A pass over the leases. *)
Lemma pass_link sh (vs : Z -> view) :
  leases_ok (s_leases sh) -> data_ok sh -> (forall c, link (lease_of c (s_leases sh)) (vs c)) ->
  exists sh' out, process_handle id sh = Some (sh', out) /\ leases_ok (s_leases sh') /\ data_ok sh' /\
    l_client <$> s_leases sh' = l_client <$> s_leases sh /\
    (forall c, Forall (fun m => m_id m = id) (msgs_to c out)) /\
    (forall c, link (lease_of c (s_leases sh')) (add_down (vs c) (msgs_to c out))).
Proof.
  intros Hok Hd Hl. destruct (process_handle_spec id sh Hok) as (sh' & out & E & Ed & Hok' & Ei & Hs & _).
  assert (Hup := fun v l El => served_rises _ _ _ v l _ Hok Hok' El (Hs v)).
  exists sh', out. split; [done|]. split; [done|]. split.
  { unfold data_ok. rewrite Ed. intros Hne. apply Hd. intros v l El Ec. destruct (Hup v l El) as (l' & El' & _ & Hl' & Hle).
    apply (Hne v l' El'). pose proof (lok_cur _ Hl'). lia. }
  split; [done|]. split; [intros c; by eapply served_ids|]. intros c. specialize (Hl c).
  destruct (lease_of c (s_leases sh)) as [l|] eqn:El.
  - destruct (Hup c l El) as (l' & El' & Hlok & Hlok' & Hle). pose proof (Hs c) as Hsc. rewrite El, El' in Hsc. rewrite El'.
    eapply served_link; [done|done| |done]. intros Hsh. destruct (decide (l_cur l' = l_cur l)) as [|Hne]; [by left|right].
    apply Hd. intros v2 l2 El2 Ec2. destruct (Hup v2 l2 El2) as (l2' & El2' & _ & Hlok2' & Hle2).
    apply Hne. pose proof (lok_cur _ Hlok2'). pose proof (lok_cur _ Hlok').
    apply lease_of_elem in El2' as [Hin2 Ev2], El' as [Hin' Ec'].
    pose proof (exclusive_alone _ _ _ Hok' Hin2 Hin' ltac:(lia) Hsh) as Heq. subst l2'.
    assert (v2 = c) as -> by congruence. rewrite El in El2. injection El2 as <-. lia.
  - specialize (Hs c). rewrite El in Hs. destruct (lease_of c (s_leases sh')); [done|]. simpl in Hs. rewrite Hs.
    unfold add_down. rewrite app_nil_r. by destruct (vs c).
Qed.

(** ** The messages of the clients *)

Definition asks_upgrade (ol : option server_lease) (oh : option sync_handle) (u : user) (m : sync_msg) (up down : list sync_msg) : Prop :=
  exists st, m = SyncMsg REQUEST_UPGRADE id st [] /\ up = [] /\ SHARED <= st <= EXCLUSIVE /\
    from_option l_cur INVALID ol < st /\ from_option l_client_req NONE ol = NONE /\
    forall l', l_cur l' = from_option l_cur INVALID ol -> l_client_req l' = st -> link (Some l') (View oh u [] down).

Definition confirms_downgrade (ol : option server_lease) (oh : option sync_handle) (u : user) (m : sync_msg) (up down : list sync_msg) : Prop :=
  exists l st, ol = Some l /\ m = SyncMsg CONFIRM_DOWNGRADE id st (data_of w (l_cur l)) /\ INVALID <= st < l_cur l /\
    l_client_req l = NONE /\
    forall l', l_cur l' = st -> l_client_req l' = NONE -> link (Some l') (View oh u up down).

Definition asks_close (ol : option server_lease) (oh : option sync_handle) (u : user) (m : sync_msg) (up down : list sync_msg) : Prop :=
  exists l, ol = Some l /\ m = SyncMsg REQUEST_CLOSE id (l_cur l) (data_of w (l_cur l)) /\ INVALID <= l_cur l /\ up = [] /\
    link None (View oh u [] (down ++ [SyncMsg CONFIRM_CLOSE id INVALID []])).

Lemma link_up ol oh u m up down :
  link ol (View oh u (m :: up) down) ->
  asks_upgrade ol oh u m up down \/ confirms_downgrade ol oh u m up down \/ asks_close ol oh u m up down.
Proof.
  intros Hl. inversion Hl as [| |l h0 u0 up0 dn0 Hr Hch Hrq Ho Hq|h0 u0 st0 dn0 Hrq Ho Hq Hc Hd|l h0 u0 st0 up0 dn0 Hr Hch Hrq Ho Hq
    | | |l h0 u0 st0 up0 dn0 Hr Hch Hs Hrq Hp Hc Hq| |]; subst; clear Hl.
  - right; left. destruct Hch as (st & -> & Hst & Hch). exists l, st. split_and!; try done; try lia.
    intros l' <- Hr'. by apply LinkQuiet.
  - left. destruct Hq as (? & ? & ? & ? & ? & ? & ?). exists st0. split_and!; try done; try (simpl; lia).
    intros l' Hc' Hr'. apply (LinkPending _ _ _ _ _ _ st0); try done; first [by rewrite Hc', Hc|by split_and!].
  - destruct up0 as [|m0 up0]; simplify_eq/=.
    + left. pose proof Hq as (? & ? & ? & ? & ? & ? & ?). exists st0. split_and!; try done; try (simpl; lia).
      intros l' Hc' Hr'. apply (LinkPending _ _ _ _ _ _ st0); try done. simpl in *. congruence.
    + right; left. destruct Hch as (st & -> & Hst & Hch). exists l, st. split_and!; try done; try lia.
      intros l' <- Hr'. by apply LinkAsking.
  - destruct up0 as [|m0 up0]; simplify_eq/=.
    + right; right. exists l. split_and!; try done. by apply LinkConfirmed.
    + right; left. destruct Hch as (st & -> & Hst & Hch). exists l, st. split_and!; try done; try lia.
      intros l' <- Hr'. by apply LinkClosing.
Qed.

End data.

(** ** The lists of the clients *)

Lemma leases_at_put sh srv id' :
  leases_at id' (put_handle id sh srv) = if decide (id' = id) then s_leases sh else leases_at id' srv.
Proof.
  unfold leases_at, put_handle. simpl.
  destruct (decide (id' = id)) as [->|]; [by rewrite lookup_insert_eq|by rewrite lookup_insert_ne].
Qed.

Lemma clients_ok_same srv srv' :
  clients_ok srv -> g_server_clients srv' = g_server_clients srv ->
  (forall id' c, lease_of c (leases_at id' srv') = None <-> lease_of c (leases_at id' srv) = None) -> clients_ok srv'.
Proof.
  intros Hc Ec Hp c. specialize (Hc c). rewrite Ec. destruct (g_server_clients srv !! c) as [ids|].
  - destruct Hc as [? Hc]. split; [done|]. intros id'. by rewrite Hc, Hp.
  - intros id'. by apply Hp.
Qed.

Lemma clients_ok_add srv srv' c :
  clients_ok srv -> g_server_clients srv' = <[c := default [] (g_server_clients srv !! c) ++ [id]]> (g_server_clients srv) ->
  lease_of c (leases_at id srv') <> None ->
  (forall id' c', id' <> id \/ c' <> c -> lease_of c' (leases_at id' srv') = lease_of c' (leases_at id' srv)) -> clients_ok srv'.
Proof.
  intros Hc Ec Hin Hp c'. rewrite Ec. destruct (decide (c' = c)) as [->|Hne].
  - rewrite lookup_insert_eq. split; [by destruct (default [] _)|]. intros id'. rewrite elem_of_app, list_elem_of_singleton.
    specialize (Hc c). destruct (decide (id' = id)) as [->|Hi]; [naive_solver|]. rewrite Hp by auto.
    destruct (g_server_clients srv !! c) as [ids|]; simpl.
    + destruct Hc as [_ Hc]. rewrite Hc. naive_solver.
    + rewrite Hc, elem_of_nil. naive_solver.
  - rewrite lookup_insert_ne by done. specialize (Hc c'). destruct (g_server_clients srv !! c') as [ids|].
    + destruct Hc as [? Hc]. split; [done|]. intros id'. by rewrite Hc, Hp by auto.
    + intros id'. by rewrite Hp by auto.
Qed.

Lemma clients_ok_remove srv srv' c ids :
  clients_ok srv -> g_server_clients srv !! c = Some ids ->
  g_server_clients srv' = (if bool_decide (filter (fun i => i <> id) ids = []) then delete c (g_server_clients srv)
                           else <[c := filter (fun i => i <> id) ids]> (g_server_clients srv)) ->
  lease_of c (leases_at id srv') = None ->
  (forall id' c', id' <> id \/ c' <> c -> lease_of c' (leases_at id' srv') = lease_of c' (leases_at id' srv)) -> clients_ok srv'.
Proof.
  intros Hc Eids Ec Hout Hp c'. rewrite Ec. clear Ec. destruct (decide (c' = c)) as [->|Hne].
  - specialize (Hc c). rewrite Eids in Hc. destruct Hc as [_ Hc].
    assert (Hm : forall id', id' ∈ filter (fun i => i <> id) ids <-> lease_of c (leases_at id' srv') <> None).
    { intros id'. rewrite list_elem_of_filter, Hc. destruct (decide (id' = id)) as [->|]; [naive_solver|].
      rewrite Hp by auto. naive_solver. }
    case_bool_decide as Hemp.
    + rewrite lookup_delete_eq. intros id'. specialize (Hm id'). rewrite Hemp, elem_of_nil in Hm.
      destruct (lease_of c (leases_at id' srv')); naive_solver.
    + by rewrite lookup_insert_eq.
  - assert (E : forall b : bool, (if b then delete c (g_server_clients srv)
      else <[c := filter (fun i => i <> id) ids]> (g_server_clients srv)) !! c' = g_server_clients srv !! c').
    { intros []; [by rewrite lookup_delete_ne|by rewrite lookup_insert_ne]. }
    rewrite E. specialize (Hc c'). destruct (g_server_clients srv !! c') as [ids'|].
    + destruct Hc as [? Hc]. split; [done|]. intros id'. by rewrite Hc, Hp by auto.
    + intros id'. by rewrite Hp by auto.
Qed.

(** ** The handlers *)

(** What the server has done after a message about [id]; [w] is reset with the handle. *)
Definition serve_post (srv : server_state) (w : list Z) (vs : Z -> view) (srv' : server_state) (out : list addressed) : Prop :=
  clients_ok srv' /\ (forall id', id' <> id -> g_server_handles srv' !! id' = g_server_handles srv !! id') /\
  (forall c, Forall (fun m => m_id m = id) (msgs_to c out)) /\
  let w' := if bool_decide (g_server_handles srv' !! id = None) then [] else w in
  handle_ok dsize id w' (g_server_handles srv' !! id) /\
  forall c, link dsize id w' (lease_of c (leases_at id srv')) (add_down (vs c) (msgs_to c out)).

Lemma finish_spec srv s1 w vs sh :
  (forall id', id' <> id -> g_server_handles s1 !! id' = g_server_handles srv !! id') ->
  clients_ok (put_handle id sh s1) -> leases_ok (s_leases sh) -> s_leases sh <> [] -> data_ok w sh ->
  w = [] \/ Z.of_nat (length w) = dsize id ->
  (forall c, link dsize id w (lease_of c (s_leases sh)) (vs c)) ->
  exists sh' out, process_handle id sh = Some (sh', out) /\ serve_post srv w vs (put_handle id sh' s1) out.
Proof.
  intros Hs1 Hc Hok Hne Hd Hw Hl. destruct (pass_link w sh vs Hok Hd Hl) as (sh' & out & E & Hok' & Hd' & Ei & Hid & Hl').
  exists sh', out. split; [done|]. split; [|split; [|split; [done|]]].
  - eapply clients_ok_same; [exact Hc|done|]. intros id' c. rewrite !leases_at_put.
    destruct (decide _); [|done]. by rewrite !lease_of_None, Ei.
  - intros id' Hne'. simpl. rewrite lookup_insert_ne by done. auto.
  - simpl. rewrite lookup_insert_eq. simpl. split; [split; [|done|done]|].
    + intros sh0 [= <-]. split_and!; [done| |done]. intros E0. rewrite E0 in Ei. by destruct (s_leases sh).
    + intros c. unfold leases_at, put_handle. simpl. by rewrite lookup_insert_eq.
Qed.

Section handlers.
Context (srv : server_state) (w : list Z) (vs : Z -> view) (c : Z).
Context (oh : option sync_handle) (u : user) (m : sync_msg) (up down : list sync_msg).
Hypothesis Hclients : clients_ok srv.
Hypothesis Hhandle : handle_ok dsize id w (g_server_handles srv !! id).
Hypothesis Hlinks : forall c', c' <> c -> link dsize id w (lease_of c' (leases_at id srv)) (vs c').
Hypothesis Hview : vs c = View oh u up down.

(** The leases of the handle after an assignment to the lease of [c]. *)
Lemma assigned_ok sh l :
  NoDup (l_client <$> s_leases sh) -> lease_ok l -> l_client l = c ->
  lease_of c (s_leases sh) = Some l ->
  (forall v, v <> c -> lease_of v (s_leases sh) = lease_of v (leases_at id srv)) ->
  (l_cur l <= from_option l_cur INVALID (lease_of c (leases_at id srv))) ->
  leases_ok (s_leases sh).
Proof using Hhandle.
  intros Hnd Hl Hc El Hv Hle.
  assert (Hold : leases_ok (leases_at id srv)).
  { unfold leases_at. destruct (g_server_handles srv !! id) as [sh0|] eqn:E; simpl; [|by apply leases_ok_lookup; [constructor|..]].
    by destruct (ho_leases _ _ _ _ Hhandle sh0 eq_refl). }
  assert (Hcur : forall v l1, lease_of v (s_leases sh) = Some l1 -> SHARED <= l_cur l1 ->
    exists l0, lease_of v (leases_at id srv) = Some l0 /\ l_cur l1 <= l_cur l0).
  { intros v l1 E1 Hs. destruct (decide (v = c)) as [->|Hne]; [|rewrite Hv in E1 by done; by exists l1].
    rewrite El in E1. injection E1 as <-. destruct (lease_of c (leases_at id srv)) as [l0|]; simpl in Hle; [by exists l0|].
    states. lia. }
  assert (Hlok : forall v l0, lease_of v (leases_at id srv) = Some l0 -> lease_ok l0).
  { intros v l0 [Hin _]%lease_of_elem. pose proof (ls_lease _ Hold) as Hf. rewrite Forall_forall in Hf. auto. }
  apply leases_ok_lookup; [done|..].
  - intros v l1 E1. destruct (decide (v = c)) as [->|Hne]; [congruence|]. rewrite Hv in E1 by done. eauto.
  - intros v1 v2 l1 l2 E1 E2 Hx Hs.
    destruct (Hcur v1 l1 E1 ltac:(rewrite Hx; done)) as (l1' & E1' & Hle1), (Hcur v2 l2 E2 Hs) as (l2' & E2' & Hle2).
    pose proof (lok_cur _ (Hlok _ _ E1')). apply lease_of_elem in E1' as [Hin1 <-], E2' as [Hin2 <-].
    f_equal. apply (exclusive_alone (leases_at id srv)); try done; lia.
Qed.

(** The lease is there, or a new one. *)
Lemma find_lease_spec :
  exists lease handle handle1 s1, lease = default (Lease c INVALID NONE NONE) (lease_of c (leases_at id srv)) /\ find_handle srv id true = Some handle /\
    find_lease srv id handle c true = Some (lease, handle1, s1) /\
    lease_ok lease /\ l_client lease = c /\ NoDup (l_client <$> s_leases handle1) /\ data_ok w handle1 /\
    (forall v, lease_of v (s_leases handle1) = if decide (v = c) then Some lease else lease_of v (leases_at id srv)) /\
    g_server_handles s1 = g_server_handles srv /\
    (forall sh, (forall v, lease_of v (s_leases sh) = None <-> lease_of v (s_leases handle1) = None) ->
      (forall v, v <> c -> lease_of v (s_leases sh) = lease_of v (leases_at id srv)) ->
      clients_ok (put_handle id sh s1)).
Proof using Hclients Hhandle.
  clear Hlinks Hview vs.
  set (handle := default (ServerHandle [] []) (g_server_handles srv !! id)).
  assert (Eh : s_leases handle = leases_at id srv) by (unfold handle, leases_at; by destruct (g_server_handles srv !! id)).
  assert (Hok : leases_ok (s_leases handle) /\ data_ok w handle).
  { unfold handle. destruct (g_server_handles srv !! id) as [sh|] eqn:E; simpl.
    - destruct (ho_leases _ _ _ _ Hhandle sh eq_refl) as (? & _ & ?). done.
    - split; [by apply leases_ok_lookup; [constructor|..]|]. intros _. symmetry. by apply (ho_none _ _ _ _ Hhandle). }
  destruct Hok as [Hok Hd].
  assert (Ef : find_handle srv id true = Some handle) by (unfold find_handle, handle; by destruct (g_server_handles srv !! id)).
  destruct (lease_of c (leases_at id srv)) as [l|] eqn:El; simpl.
  - exists l, handle, handle, srv. unfold find_lease. rewrite Eh, El in *. apply lease_of_elem in El as [Hin Ec].
    split_and!; try done; [|apply Hok| |].
    + pose proof (ls_lease _ Hok) as Hf. rewrite Forall_forall in Hf. auto.
    + intros v. destruct (decide _) as [->|]; [|done]. by apply lease_of_Some; [apply Hok|..].
    + intros sh Hn _. eapply clients_ok_same; [exact Hclients|done|]. intros id' v. rewrite leases_at_put.
      destruct (decide _) as [->|]; [apply Hn|done].
  - set (l := Lease c INVALID NONE NONE).
    exists l, handle, (ServerHandle (s_data handle) (leases_at id srv ++ [l])),
      (ServerState (g_server_handles srv) (<[c := default [] (g_server_clients srv !! c) ++ [id]]> (g_server_clients srv))).
    unfold find_lease. rewrite Eh, El in *.
    assert (Hv : forall v, lease_of v (leases_at id srv ++ [l]) = if decide (v = c) then Some l else lease_of v (leases_at id srv)).
    { intros v. rewrite lease_of_app, lease_of_cons. simpl. destruct (decide (v = c)) as [->|Hne].
      - rewrite El. simpl. by rewrite decide_True.
      - rewrite (decide_False (P := c = v)) by done. by destruct (lease_of v (leases_at id srv)). }
    simpl. split_and!; try done.
    + unfold find_client. destruct (g_server_clients srv !! c); done.
    + split; simpl; states; lia.
    + rewrite fmap_app. apply NoDup_app. split_and!; [apply Hok| |apply NoDup_singleton].
      apply lease_of_None in El. simpl. set_solver.
    + intros Hne. apply Hd. simpl in Hne. intros v l0 E0. rewrite Eh in E0. apply (Hne v). rewrite Hv.
      destruct (decide _) as [->|]; [congruence|done].
    + intros sh Hn Ho. eapply (clients_ok_add srv _ c); [exact Hclients|done| |].
      * rewrite leases_at_put, decide_True by done. rewrite Hn, Hv, decide_True by done. done.
      * intros id' c' Hne. rewrite leases_at_put. destruct (decide (id' = id)) as [->|]; [|done].
        apply Ho. naive_solver.
Qed.

(** The lease of [c] has changed, and the pass follows. *)
Lemma assign_spec sh s1 l :
  NoDup (l_client <$> s_leases sh) -> lease_ok l -> l_client l = c ->
  (forall v, lease_of v (s_leases sh) = if decide (v = c) then Some l else lease_of v (leases_at id srv)) ->
  l_cur l <= from_option l_cur INVALID (lease_of c (leases_at id srv)) -> data_ok w sh ->
  g_server_handles s1 = g_server_handles srv -> clients_ok (put_handle id sh s1) ->
  link dsize id w (Some l) (View oh u up down) ->
  exists sh' out, process_handle id sh = Some (sh', out) /\ serve_post srv w vs (put_handle id sh' s1) out.
Proof.
  intros Hnd Hl Hc Hv Hle Hd Es Hcl Hk.
  assert (El : lease_of c (s_leases sh) = Some l) by (by rewrite Hv, decide_True).
  apply finish_spec; try done.
  - by rewrite Es.
  - eapply assigned_ok; eauto. intros v Hne. by rewrite Hv, decide_False.
  - intros E. by rewrite E in El.
  - by destruct Hhandle.
  - intros v. rewrite Hv. destruct (decide (v = c)) as [->|]; [by rewrite Hview|auto].
Qed.

Lemma upgrade_spec :
  asks_upgrade w (lease_of c (leases_at id srv)) oh u m up down ->
  exists srv' out, sync_server_message_callback c m srv = Some (srv', out) /\ serve_post srv w vs srv' out.
Proof.
  intros (st & -> & Hup & Hst & Hlt & Hr & Hk). unfold sync_server_message_callback.
  cbn [m_code m_data m_id m_state length check mbind option_bind Z.of_nat Z.eqb]. unfold do_request_upgrade.
  assert (E : (st =? SHARED) || (st =? EXCLUSIVE) = true) by (apply orb_true_iff; states; lia). rewrite E. clear E. cbn [check mbind option_bind].
  destruct find_lease_spec as (lease & handle & handle1 & s1 & El & -> & E & Hl & Ec & Hnd & Hd & Hv & Es & Hcl).
  cbn [mbind option_bind]. rewrite E. clear E. cbn [mbind option_bind].
  assert (Ecur : l_cur lease = from_option l_cur INVALID (lease_of c (leases_at id srv)))
    by (rewrite El; by destruct (lease_of c (leases_at id srv))).
  rewrite (proj2 (Z.ltb_lt _ _)) by lia. cbn [check mbind option_bind].
  set (l := Lease c (l_cur lease) st (l_server_req lease)).
  set (sh := ServerHandle _ (move_to_tail c _)).
  assert (Hnd2 : NoDup (l_client <$> s_leases (write_lease l handle1))) by (by rewrite write_lease_clients).
  assert (Hlk : forall v, lease_of v (s_leases sh) = if decide (v = c) then Some l else lease_of v (leases_at id srv)).
  { intros v. unfold sh. cbn [s_leases]. rewrite (lease_of_move v c _ Hnd2), lease_of_write. simpl.
    rewrite Hv. by destruct (decide (v = c)). }
  destruct (assign_spec sh s1 l) as (sh' & out & -> & Hp); try done.
  - by apply move_NoDup.
  - destruct Hl as [? ? ?]. split; simpl; [done|right; lia|done].
  - simpl. lia.
  - intros Hne. apply Hd. intros v l0 E0. rewrite Hv in E0. destruct (decide (v = c)) as [->|Hvc].
    + injection E0 as <-. apply (Hne c l). by rewrite Hlk, decide_True.
    + apply (Hne v). by rewrite Hlk, decide_False.
  - apply Hcl; intros v; rewrite Hlk, ?Hv; [by destruct (decide (v = c))|]. intros. by rewrite decide_False.
  - rewrite Hup. by apply Hk.
  - by do 2 eexists.
Qed.

Lemma downgrade_msg_spec :
  confirms_downgrade w (lease_of c (leases_at id srv)) oh u m up down ->
  exists srv' out, sync_server_message_callback c m srv = Some (srv', out) /\ serve_post srv w vs srv' out.
Proof.
  intros (l0 & st & E0 & -> & Hst & Hr & Hk). unfold sync_server_message_callback. cbn [m_code m_data m_id m_state].
  unfold do_confirm_downgrade.
  destruct find_lease_spec as (lease & handle & handle1 & s1 & El & -> & E & Hl & Ec & Hnd & Hd & Hv & Es & Hcl).
  rewrite E0 in El. simpl in El. subst lease. pose proof (lok_cur _ Hl) as Hcur.
  assert (Es1 : (st =? INVALID) || (st =? SHARED) = true) by (apply orb_true_iff; states; lia). rewrite Es1.
  cbn [check mbind option_bind]. rewrite E. clear E. cbn [mbind option_bind].
  rewrite (proj2 (Z.ltb_lt _ _)) by lia. cbn [check mbind option_bind].
  assert (E2 : exists handle2, (if l_cur l0 =? EXCLUSIVE then Some (update_handle_data (data_of w (l_cur l0)) handle1)
    else check (Z.of_nat (length (data_of w (l_cur l0))) =? 0);; Some handle1) = Some handle2 /\
    s_leases handle2 = s_leases handle1 /\ s_data handle2 = (if l_cur l0 =? EXCLUSIVE then w else s_data handle1)).
  { unfold data_of. destruct (l_cur l0 =? EXCLUSIVE); by eexists. }
  destruct E2 as (handle2 & -> & El2 & Ed2). cbn [mbind option_bind].
  set (l := Lease c st _ _). set (sh := write_lease l handle2).
  assert (Hlk : forall v, lease_of v (s_leases sh) = if decide (v = c) then Some l else lease_of v (leases_at id srv)).
  { intros v. unfold sh. rewrite lease_of_write, El2, Hv. simpl. by destruct (decide (v = c)). }
  destruct (assign_spec sh s1 l) as (sh' & out & -> & Hp); try done.
  - unfold sh. by rewrite write_lease_clients, El2.
  - destruct Hl as [? ? Hs]. split; simpl; [states; lia|by left|]. dif; [by left|]. destruct Hs; [by left|right; lia].
  - simpl. rewrite E0. simpl. lia.
  - intros Hne. simpl. rewrite Ed2. dif; [done|]. apply Hd. intros v l1 E1. rewrite Hv in E1. destruct (decide (v = c)) as [->|Hvc].
    + by injection E1 as <-.
    + apply (Hne v). by rewrite Hlk, decide_False.
  - apply Hcl; intros v; rewrite Hlk, ?Hv; [by destruct (decide (v = c))|]. intros. by rewrite decide_False.
  - by apply Hk.
  - by do 2 eexists.
Qed.

(** The views after CONFIRM_CLOSE has been sent. *)
Definition closed_views (v : Z) : view :=
  if decide (v = c) then add_down (vs c) [SyncMsg CONFIRM_CLOSE id INVALID []] else vs v.

Lemma closed_views_msgs v out :
  add_down (closed_views v) (msgs_to v out) = add_down (vs v) (msgs_to v (send_confirm_close id c :: out)).
Proof.
  unfold send_confirm_close, closed_views. rewrite msgs_to_cons. destruct (decide (v = c)) as [->|Hne].
  - rewrite decide_True by done. unfold add_down. simpl. by rewrite <- app_assoc.
  - by rewrite decide_False.
Qed.

Lemma serve_post_close srv' out :
  serve_post srv w closed_views srv' out -> serve_post srv w vs srv' (send_confirm_close id c :: out).
Proof.
  intros (H1 & H2 & H3 & H4 & H5). split; [done|]. split; [done|]. split; [|split; [done|]].
  - intros v. unfold send_confirm_close. rewrite msgs_to_cons. destruct (decide _); simpl; [by constructor|done].
  - intros v. rewrite <- closed_views_msgs. apply H5.
Qed.

Lemma without_ok ls : leases_ok ls -> leases_ok (filter (fun l => l_client l <> c) ls).
Proof.
  intros Hok. apply leases_ok_lookup; [apply NoDup_fmap_filter, Hok|..].
  - intros v l. rewrite lease_of_without. destruct (decide _); [done|]. intros [Hin _]%lease_of_elem.
    pose proof (ls_lease _ Hok) as Hf. rewrite Forall_forall in Hf. auto.
  - intros v1 v2 l1 l2. rewrite !lease_of_without. destruct (decide (v1 = c)), (decide (v2 = c)); try done.
    intros [H1 <-]%lease_of_elem [H2 <-]%lease_of_elem ? ?. f_equal. by apply (exclusive_alone ls).
Qed.

(** What follows once the lease is removed. *)
Lemma close_tail data clients1 :
  let ls := filter (fun l => l_client l <> c) (leases_at id srv) in
  leases_ok (leases_at id srv) -> w = [] \/ Z.of_nat (length w) = dsize id ->
  ((forall v l, lease_of v ls = Some l -> l_cur l <> EXCLUSIVE) -> data = w) ->
  link dsize id w None (closed_views c) ->
  (forall srv', g_server_clients srv' = clients1 ->
    (forall id', id' <> id -> leases_at id' srv' = leases_at id' srv) ->
    (forall v, lease_of v (leases_at id srv') = if decide (v = c) then None else lease_of v (leases_at id srv)) -> clients_ok srv') ->
  exists srv' out, (if bool_decide (ls = []) then Some (ServerState (delete id (g_server_handles srv)) clients1, [send_confirm_close id c])
    else '(handle3, out1) ← process_handle id (ServerHandle data ls);
      Some (ServerState (<[id := handle3]> (g_server_handles srv)) clients1, [send_confirm_close id c] ++ out1)) = Some (srv', out) /\
    serve_post srv w vs srv' out.
Proof.
  intros ls Hok Hw Hd Hkc Hcl.
  assert (Hv : forall v, lease_of v ls = if decide (v = c) then None else lease_of v (leases_at id srv)) by (intros; apply lease_of_without).
  assert (Hk : forall v, link dsize id w (lease_of v ls) (closed_views v)).
  { intros v. rewrite Hv. destruct (decide (v = c)) as [->|Hne]; [done|]. unfold closed_views. rewrite decide_False by done. auto. }
  case_bool_decide as Hemp.
  - do 2 eexists. split; [done|]. apply serve_post_close.
    assert (E : leases_at id (ServerState (delete id (g_server_handles srv)) clients1) = []).
    { unfold leases_at. simpl. by rewrite lookup_delete_eq. }
    split; [apply Hcl; [done|..]|split; [|split; [constructor|]]].
    + intros id' Hne. unfold leases_at. simpl. by rewrite lookup_delete_ne.
    + intros v. by rewrite E, <- Hv, Hemp.
    + intros id' Hne. simpl. by rewrite lookup_delete_ne.
    + simpl. rewrite lookup_delete_eq. simpl. split; [by split; [|done|left]|]. intros v. rewrite E.
      specialize (Hk v). rewrite Hemp in Hk. unfold add_down. rewrite app_nil_r.
      eapply link_change; [by destruct (closed_views v)|done|by right].
  - destruct (finish_spec srv (ServerState (g_server_handles srv) clients1) w closed_views (ServerHandle data ls))
      as (sh' & out & -> & Hp); try done.
    + apply Hcl; [done|..].
      * intros id' Hne. by rewrite leases_at_put, decide_False.
      * intros v. by rewrite leases_at_put, decide_True.
    + by apply without_ok.
    + do 2 eexists. split; [done|]. by apply serve_post_close.
Qed.

Lemma close_spec :
  asks_close w (lease_of c (leases_at id srv)) oh u m up down ->
  exists srv' out, sync_server_message_callback c m srv = Some (srv', out) /\ serve_post srv w vs srv' out.
Proof.
  intros (l & El & -> & Hcur & Hup & Hk). unfold sync_server_message_callback. cbn [m_code m_data m_id m_state].
  unfold do_request_close, find_handle, find_client, find_lease.
  destruct (g_server_handles srv !! id) as [sh|] eqn:Esh; [|unfold leases_at in El; by rewrite Esh in El].
  destruct (ho_leases _ _ _ _ Hhandle sh eq_refl) as (Hok & _ & Hd).
  assert (Els : s_leases sh = leases_at id srv) by (unfold leases_at; by rewrite Esh).
  rewrite Els in Hok, Hd.
  assert (Hl : lease_ok l).
  { apply lease_of_elem in El as [Hin _]. pose proof (ls_lease _ Hok) as Hf. rewrite Forall_forall in Hf. auto. }
  pose proof (lok_cur _ Hl).
  assert (E1 : (l_cur l =? INVALID) || (l_cur l =? SHARED) || (l_cur l =? EXCLUSIVE) = true).
  { rewrite !orb_true_iff, !Z.eqb_eq. states. lia. }
  rewrite E1. cbn [check mbind option_bind]. rewrite Els, El. cbn [mbind option_bind].
  assert (E2 : exists handle1, (if l_cur l =? EXCLUSIVE then Some (update_handle_data (data_of w (l_cur l)) sh)
    else check (Z.of_nat (length (data_of w (l_cur l))) =? 0);; Some sh) = Some handle1 /\
    s_leases handle1 = leases_at id srv /\ s_data handle1 = (if l_cur l =? EXCLUSIVE then w else s_data sh)).
  { unfold data_of. destruct (l_cur l =? EXCLUSIVE); by eexists. }
  destruct E2 as (handle1 & -> & El1 & Ed1). cbn [mbind option_bind].
  pose proof (Hclients c) as Hcl. destruct (g_server_clients srv !! c) as [ids|] eqn:Eids; [|by rewrite Hcl in El].
  cbn [mbind option_bind]. rewrite El1. set (clients1 := if bool_decide (filter _ ids = []) then _ else _).
  assert (Hkc : link dsize id w None (closed_views c)).
  { unfold closed_views. rewrite decide_True, Hview, Hup by done. exact Hk. }
  apply close_tail; try done.
  - by destruct Hhandle.
  - intros Hne. rewrite Ed1. dif; [done|]. apply Hd. intros v l1 E2. destruct (decide (v = c)) as [->|]; [congruence|].
    apply (Hne v). by rewrite lease_of_without, decide_False.
  - intros srv' Ec Ho Hv. eapply (clients_ok_remove srv srv' c ids); try done.
    + by rewrite Hv, decide_True.
    + intros id' c' Hne. destruct (decide (id' = id)) as [->|]; [|by rewrite Ho]. by rewrite Hv, decide_False by naive_solver.
Qed.

Lemma serve_spec :
  link dsize id w (lease_of c (leases_at id srv)) (View oh u (m :: up) down) ->
  exists srv' out, sync_server_message_callback c m srv = Some (srv', out) /\ serve_post srv w vs srv' out.
Proof.
  intros Hl. destruct (link_up _ _ _ _ _ _ _ Hl) as [?|[?|?]];
    [by apply upgrade_spec|by apply downgrade_msg_spec|by apply close_spec].
Qed.

End handlers.

End serve.
