(* ===== verification/SyncSafe.v ===== *)
(** * What the sync engine promises

    The invariant holds in every reachable state, no assertion of the client or the
    server fails, locks exclude each other and whoever holds a lock has the latest
    data. *)

From stdpp Require Import functions.
From S2P Require Import Prelude Sync SyncClient SyncServer SyncServerSpec SyncSystem SyncInv SyncClientSpec SyncServeSpec.

Section safe.
Context (dsize : Z -> Z).

Section step.
Context (s : sys) (Hinv : inv dsize s).

Lemma inv_size id : written s id = [] \/ Z.of_nat (length (written s id)) = dsize id.
Proof. destruct Hinv as (_ & _ & Hi). destruct (Hi id) as [[_ _ ?] _]. done. Qed.

Lemma inv_link c id h u :
  p_handles (procs s c) !! id = Some h -> p_users (procs s c) id = u ->
  link dsize id (written s id) (lease_of c (leases_at id (server s)))
    (View (Some h) u (of_id id (p_up (procs s c))) (of_id id (p_down (procs s c)))).
Proof. intros Eh Eu. destruct Hinv as (_ & _ & Hi). destruct (Hi id) as [_ Hl]. specialize (Hl c). unfold view_of in Hl. by rewrite Eh, Eu in Hl. Qed.

Lemma inv_nonzero c id h : p_handles (procs s c) !! id = Some h -> id <> 0.
Proof. intros Eh ->. destruct Hinv as (_ & Hz & _). by rewrite Hz in Eh. Qed.

Lemma create_step c id : enabled dsize (ACreate c id) s = true -> exists s', exec_create c id s = Some s' /\ inv dsize s'.
Proof.
  simpl. intros Hid. unfold exec_create, sync_create. rewrite Hid. simpl.
  destruct (p_handles (procs s c) !! id) as [h|] eqn:E; simpl; eexists; (split; [done|]).
  - apply (set_proc_inv _ c id); [done| |by intros|by apply Hinv]. destruct Hinv as (_ & _ & Hi). apply (Hi id).
  - apply (set_proc_inv _ c id); [done|..]; unfold view_of; simpl.
    + rewrite lookup_insert_eq. destruct Hinv as (_ & _ & Hi). destruct (Hi id) as [_ Hl]. specialize (Hl c). unfold view_of in Hl. rewrite E in Hl.
      apply link_absent in Hl as (-> & -> & -> & ->). apply LinkNew. by left.
    + intros id' Hne. by rewrite lookup_insert_ne.
    + rewrite lookup_insert_ne; [by apply Hinv|]. by breflect.
Qed.

Lemma lock_step c id st n :
  enabled dsize (ALock c id st n) s = true -> exists s', exec_lock c id st n s = Some s' /\ inv dsize s'.
Proof.
  simpl. intros He. unfold exec_lock. destruct (p_handles (procs s c) !! id) as [h|] eqn:Eh; [|done].
  pose proof (inv_nonzero _ _ _ Eh) as Hid.
  destruct (p_users (procs s c) id) eqn:Eu; try done. breflect. apply orb_true_iff in H. rewrite !Z.eqb_eq in H.
  destruct (lock_spec dsize id (written s id) _ _ _ _ st n (inv_link c id _ _ Eh Eu)) as (h' & out & r & E & Ho & Hl); [states; lia|done|].
  simpl. rewrite E. simpl. eexists. split; [done|]. by apply set_handle_inv.
Qed.

Lemma lock_resume_step c id :
  enabled dsize (ALockResume c id) s = true -> exists s', exec_lock_resume c id s = Some s' /\ inv dsize s'.
Proof.
  simpl. intros He. unfold exec_lock_resume. destruct (p_handles (procs s c) !! id) as [h|] eqn:Eh; [|done].
  pose proof (inv_nonzero _ _ _ Eh) as Hid.
  destruct (p_users (procs s c) id) as [|st n| | |] eqn:Eu; try done.
  destruct (lock_resume_spec dsize id (written s id) (inv_size id) _ _ _ _ _ _ (inv_link c id _ _ Eh Eu) He) as (h' & upd & E & _ & Hl).
  simpl. rewrite E. simpl. eexists. split; [done|]. apply set_handle_inv; [done|done|constructor|]. by rewrite app_nil_r.
Qed.

Lemma destroy_step c id :
  enabled dsize (ADestroy c id) s = true -> exists s', exec_destroy c id s = Some s' /\ inv dsize s'.
Proof.
  simpl. intros He. unfold exec_destroy. destruct (p_handles (procs s c) !! id) as [h|] eqn:Eh; [|done].
  pose proof (inv_nonzero _ _ _ Eh) as Hid.
  destruct (p_users (procs s c) id) eqn:Eu; try done.
  destruct (destroy_spec dsize id (written s id) _ _ _ _ Hid (inv_link c id _ _ Eh Eu)) as (h' & out & b & E & Ho & Hl).
  simpl. rewrite E. simpl. eexists. split; [done|]. destruct b; by apply set_handle_inv.
Qed.

Lemma destroy_resume_step c id :
  enabled dsize (ADestroyResume c id) s = true -> exists s', exec_destroy_resume c id s = Some s' /\ inv dsize s'.
Proof.
  simpl. intros He. unfold exec_destroy_resume. destruct (p_handles (procs s c) !! id) as [h|] eqn:Eh; [|done].
  pose proof (inv_nonzero _ _ _ Eh) as Hid.
  destruct (p_users (procs s c) id) eqn:Eu; try done.
  destruct (destroy_resume_spec dsize id (written s id) _ _ _ _ (inv_link c id _ _ Eh Eu) He) as [E Hl].
  simpl. destruct (sync_destroy_resume h) as [h' b]. simpl in E. subst b. eexists. split; [done|].
  apply set_handle_inv; [done|done|constructor|]. by rewrite app_nil_r.
Qed.

Lemma shutdown_step c id :
  enabled dsize (AShutdown c id) s = true -> exists s', exec_shutdown c id s = Some s' /\ inv dsize s'.
Proof.
  simpl. intros He. unfold exec_shutdown. destruct (p_handles (procs s c) !! id) as [h|] eqn:Eh; [|done].
  pose proof (inv_nonzero _ _ _ Eh) as Hid.
  destruct (p_users (procs s c) id) eqn:Eu; try done.
  destruct (shutdown_spec dsize id (written s id) _ _ _ _ (inv_link c id _ _ Eh Eu)) as [Ho Hl].
  simpl. destruct (shutdown_close true id h) as [h' out]. eexists. split; [done|]. by apply set_handle_inv.
Qed.

Lemma receive_step c :
  enabled dsize (AReceive c) s = true -> exists s', exec_receive c s = Some s' /\ inv dsize s'.
Proof.
  simpl. intros He. unfold exec_receive. destruct (p_down (procs s c)) as [|m down] eqn:Ed; [done|]. simpl.
  set (id := m_id m). destruct Hinv as (_ & Hz & Hi). destruct (Hi id) as [_ Hl]. specialize (Hl c). unfold view_of in Hl.
  rewrite Ed, of_id_cons, decide_True in Hl by done. simpl in Hl.
  destruct (receive_spec dsize id (written s id) (inv_size id) _ _ _ _ _ _ Hl) as (h & h' & out & Eh & E & Ho & _ & Hl').
  assert (Ec : sync_client_message_callback true (p_handles (procs s c)) m = Some (<[id := h']> (p_handles (procs s c)), out)).
  { unfold sync_client_message_callback, SyncClient.find_handle. fold id. rewrite Eh. unfold receive in E. fold id in E.
    destruct (m_code m); simpl in E |- *; by rewrite ?E. }
  rewrite Ec. simpl. eexists. split; [done|]. apply (set_proc_inv _ c id); [done|..]; unfold view_of; simpl.
  - rewrite lookup_insert_eq. rewrite of_id_app, (of_id_all id out) by done. done.
  - intros id' Hne. rewrite lookup_insert_ne, of_id_app, (of_id_none id id' out), app_nil_r by done.
    by rewrite Ed, of_id_cons, decide_False.
  - rewrite lookup_insert_ne; [apply Hz|]. by eapply inv_nonzero.
Qed.

Lemma serve_step c :
  enabled dsize (AServe c) s = true -> exists s', exec_serve c s = Some s' /\ inv dsize s'.
Proof.
  simpl. intros He. unfold exec_serve. destruct (p_up (procs s c)) as [|m up] eqn:Eu; [done|]. simpl.
  set (id := m_id m). destruct Hinv as (Hcl & Hz & Hi). destruct (Hi id) as [Hh Hl].
  set (vs := fun c' => view_of id (procs (pop_up c s) c')).
  assert (Hpop : forall id' c', view_of id' (procs (pop_up c s) c') =
    if decide (c' = c) then View (p_handles (procs s c) !! id') (p_users (procs s c) id') (of_id id' up) (of_id id' (p_down (procs s c)))
    else view_of id' (procs s c')).
  { intros id' c'. unfold pop_up. rewrite view_set_proc. unfold view_of. simpl. by rewrite Eu. }
  destruct (serve_spec dsize id (server s) (written s id) vs c (p_handles (procs s c) !! id) (p_users (procs s c) id) m
    (of_id id up) (of_id id (p_down (procs s c)))) as (srv & out & E & Hcl' & Ho & Hids & Hh' & Hl'); try done.
  { intros c' Hne. unfold vs. rewrite Hpop, decide_False by done. apply Hl. }
  { unfold vs. by rewrite Hpop, decide_True. }
  { specialize (Hl c). unfold view_of in Hl. by rewrite Eu, of_id_cons, decide_True in Hl. }
  rewrite E. simpl. eexists. split; [done|]. split; [done|]. split; [intros c'; simpl|intros id'].
  { destruct (decide (c' = c)) as [->|]; [rewrite fn_lookup_insert|rewrite fn_lookup_insert_ne by done]; apply Hz. }
  assert (Ew : (if bool_decide (g_server_handles srv !! id = None) then <[id := []]> (written s) else written s) id' =
    if decide (id' = id) then (if bool_decide (g_server_handles srv !! id = None) then [] else written s id) else written s id').
  { case_bool_decide; destruct (decide (id' = id)) as [->|]; rewrite ?fn_lookup_insert, ?fn_lookup_insert_ne by done; done. }
  fold (procs (pop_up c s)). split; cbn [server written procs]; rewrite Ew.
  - destruct (decide (id' = id)) as [->|Hne]; [done|]. rewrite Ho by done. apply (Hi id').
  - intros c'. assert (Ev : view_of id' (deliver out (procs (pop_up c s)) c') =
      add_down (view_of id' (procs (pop_up c s) c')) (of_id id' (msgs_to c' out))).
    { unfold view_of, add_down. simpl. by rewrite of_id_app. }
    change (deliver out _ c') with (deliver out (procs (pop_up c s)) c'). rewrite Ev.
    destruct (decide (id' = id)) as [->|Hne]; [rewrite of_id_all by done; apply Hl'|].
    rewrite (of_id_none id id') by done. unfold leases_at. rewrite Ho by done. unfold add_down. rewrite app_nil_r.
    destruct (Hi id') as [_ Hli]. specialize (Hli c'). rewrite Hpop. destruct (decide (c' = c)) as [->|]; simpl; [|done].
    unfold view_of in Hli. by rewrite Eu, of_id_cons, decide_False in Hli.
Qed.

Lemma inv_leases id : leases_ok (leases_at id (server s)).
Proof.
  destruct Hinv as (_ & _ & Hi). destruct (Hi id) as [Hh _]. unfold leases_at.
  destruct (g_server_handles (server s) !! id) as [sh|] eqn:E; simpl; [|by apply leases_ok_lookup; [constructor|..]].
  by destruct (ho_leases _ _ _ _ Hh sh eq_refl).
Qed.

Lemma inv_lease c id l : lease_of c (leases_at id (server s)) = Some l -> lease_ok l.
Proof. intros [Hin _]%lease_of_elem. pose proof (ls_lease _ (inv_leases id)) as Hf. rewrite Forall_forall in Hf. auto. Qed.

(** A client in EXCLUSIVE state stores data. *)
Lemma store_inv c id l h out data :
  id <> 0 -> Forall (fun m => m_id m = id) out -> data <> [] -> Z.of_nat (length data) = dsize id ->
  lease_of c (leases_at id (server s)) = Some l -> l_cur l = EXCLUSIVE ->
  link dsize id data (Some l) (View (Some h) UIdle (of_id id (p_up (procs s c)) ++ out) (of_id id (p_down (procs s c)))) ->
  inv dsize (Sys (server s) (procs (set_handle c id (Some h) UIdle out s)) (<[id := data]> (written s))).
Proof.
  intros Hid Ho Hne Hlen El Hx Hl. pose proof Hinv as (Hcl & Hz & Hi). set (s' := Sys _ _ _).
  assert (Hold : forall id' c', c' <> c \/ id' <> id -> view_of id' (procs s' c') = view_of id' (procs s c')).
  { intros id' c' Hd. unfold s', set_handle. cbn [procs]. rewrite view_set_proc. destruct (decide (c' = c)) as [->|]; [|done].
    destruct Hd as [|Hd]; [done|]. unfold view_of. simpl.
    by rewrite lookup_partial_alter_ne, fn_lookup_insert_ne, of_id_app, (of_id_none id id' out), app_nil_r by done. }
  split; [done|]. split.
  { intros c'. pose proof (Hold 0 c' ltac:(right; done)) as Ev. rewrite <- (Hz c'). exact (f_equal v_handle Ev). }
  intros id'. destruct (Hi id') as [Hh Hk]. unfold id_ok. cbn [server written s'].
  destruct (decide (id' = id)) as [->|Hd]; [rewrite fn_lookup_insert|rewrite fn_lookup_insert_ne by done].
  - split; [split|].
    + intros sh Esh. destruct (ho_leases _ _ _ _ Hh sh Esh) as (? & ? & _). split_and!; [done|done|].
      intros Hn. exfalso. apply (Hn c l); [|done]. unfold leases_at in El. by rewrite Esh in El.
    + intros Esh. unfold leases_at in El. by rewrite Esh in El.
    + by right.
    + intros c'. destruct (decide (c' = c)) as [->|Hc].
      * rewrite El. unfold s', set_handle. cbn [procs]. rewrite view_set_proc, decide_True by done. unfold view_of. simpl.
        by rewrite lookup_partial_alter_eq, fn_lookup_insert, of_id_app, (of_id_all id out).
      * rewrite Hold by auto. eapply link_change; [apply Hk| |by left]. intros l' El'. pose proof (inv_lease _ _ _ El') as Hl'.
        destruct (decide (l_cur l' = INVALID)) as [|Hni]; [done|]. exfalso. apply Hc.
        apply lease_of_elem in El as [Hin Ec], El' as [Hin' Ec']. rewrite <- Ec, <- Ec'. f_equal. symmetry.
        apply (exclusive_alone _ _ _ (inv_leases id)); try done. pose proof (lok_cur _ Hl'). states. lia.
  - split; [done|]. intros c'. rewrite Hold by auto. apply Hk.
Qed.

Lemma unlock_step c id data :
  enabled dsize (AUnlock c id data) s = true -> exists s', exec_unlock c id data s = Some s' /\ inv dsize s'.
Proof.
  simpl. intros He. unfold exec_unlock. destruct (p_handles (procs s c) !! id) as [h|] eqn:Eh; [|done].
  pose proof (inv_nonzero _ _ _ Eh) as Hid. destruct (p_users (procs s c) id) as [| |st| |] eqn:Eu; try done.
  pose proof (inv_link c id _ _ Eh Eu) as Hl. pose proof (link_hold _ _ _ _ _ _ _ _ Hl) as Hq.
  destruct Hq as (l & h0 & u & up0 & dn0 & El & [= <- <- <- <-] & _ & Hch & _ & Ho & (_ & Hu & _ & _ & Hst)).
  rewrite El in Hl. pose proof (lok_cur _ (inv_lease _ _ _ El)) as Hlc. apply chain_le in Hch.
  apply andb_true_iff in He as [Hn He].
  destruct (unlock_spec dsize id _ l h st _ _ data Hl) as (h' & out & E & Hout & Hl'); [lia|..].
  { rewrite !orb_true_iff, Z.eqb_eq, !bool_decide_eq_true in He. tauto. }
  simpl. rewrite E. simpl. eexists. split; [done|].
  destruct ((st =? EXCLUSIVE) && negb (bool_decide (data = []))) eqn:Hw.
  - breflect. apply bool_decide_eq_false in H0. apply store_inv with (l := l); try done; [|lia].
    unfold size_ok in Hn. apply orb_true_iff in Hn as [Hn|Hn]; breflect; [by destruct data|done].
  - apply set_handle_inv; try done. by rewrite El.
Qed.

End step.

(** Everything that can happen keeps the invariant. *)
Lemma exec_inv s a : inv dsize s -> enabled dsize a s = true -> exists s', exec a s = Some s' /\ inv dsize s'.
Proof.
  intros Hi. destruct a; simpl exec.
  - by apply create_step.
  - by apply lock_step.
  - by apply lock_resume_step.
  - by apply unlock_step.
  - by apply destroy_step.
  - by apply destroy_resume_step.
  - by apply shutdown_step.
  - by apply serve_step.
  - by apply receive_step.
Qed.

Lemma reachable_inv s : reachable dsize s -> inv dsize s.
Proof.
  intros Hr. apply (rtc_ind_r (R := step dsize) (inv dsize) sys_init); [apply sys_init_inv| |exact Hr].
  intros s1 s2 _ (a & He & E) Hi. destruct (exec_inv s1 a Hi He) as (s' & E' & Hi'). congruence.
Qed.

(** What the holder of a lock can rely on. *)
Lemma holder_spec s c id st :
  inv dsize s -> p_users (procs s c) id = UHold st ->
  exists h l, p_handles (procs s c) !! id = Some h /\ h_data h = written s id /\ SHARED <= st <= cur_state h /\
    lease_of c (leases_at id (server s)) = Some l /\ cur_state h <= l_cur l /\ lease_ok l.
Proof.
  intros Hi Eu. destruct (p_handles (procs s c) !! id) as [h|] eqn:Eh.
  - pose proof (inv_link s Hi c id _ _ Eh Eu) as Hl. apply link_hold in Hl.
    destruct Hl as (l & h0 & u & up0 & dn0 & El & [= <- <- <- <-] & _ & Hch & _ & Ho & (_ & Hu & _ & _ & Hst)).
    exists h, l. apply chain_le in Hch. split_and!; try done; try lia; [|by eapply inv_lease].
    apply (op_data _ _ Ho). lia.
  - destruct Hi as (_ & _ & Hi). destruct (Hi id) as [_ Hl]. specialize (Hl c). unfold view_of in Hl. rewrite Eh, Eu in Hl.
    apply link_absent in Hl. naive_solver.
Qed.

(** C7: if a process holds a lock in EXCLUSIVE state, no other process holds a lock on
    the same handle in any state, whatever messages are on their way. *)
Theorem sync_lock_exclusive s c1 c2 id :
  reachable dsize s -> p_users (procs s c1) id = UHold EXCLUSIVE -> c1 <> c2 ->
  holds_lock s c2 id = false.
Proof.
  intros Hr%reachable_inv E1 Hne. unfold holds_lock. destruct (p_users (procs s c2) id) as [| |st| |] eqn:E2; try done.
  destruct Hne.
  destruct (holder_spec s c1 id _ Hr E1) as (h1 & l1 & _ & _ & H1 & El1 & Hc1 & Hl1).
  destruct (holder_spec s c2 id _ Hr E2) as (h2 & l2 & _ & _ & H2 & El2 & Hc2 & Hl2).
  apply lease_of_elem in El1 as [Hin1 <-], El2 as [Hin2 <-]. pose proof (lok_cur _ Hl1).
  f_equal. apply (exclusive_alone _ _ _ (inv_leases s Hr id)); try done; lia.
Qed.

(** C8: whoever holds a lock has the data that was stored last under an EXCLUSIVE lock;
    and when [sync_lock] has waited, this data is what it copies to its caller. *)
Theorem sync_lock_latest_data s c id :
  reachable dsize s ->
  (forall st, p_users (procs s c) id = UHold st ->
    exists h, p_handles (procs s c) !! id = Some h /\ h_data h = written s id /\ st <= cur_state h) /\
  (forall st n h, p_users (procs s c) id = ULock st n -> p_handles (procs s c) !! id = Some h -> event h = true ->
    exists h', sync_lock_resume id st n h = Some (h', [],
      Locked (if (0 <? n) && negb (bool_decide (written s id = [])) then Some (written s id) else None))).
Proof.
  intros Hr%reachable_inv. split.
  - intros st Eu. destruct (holder_spec s c id st Hr Eu) as (h & l & Eh & Ed & Hst & _). exists h. split_and!; try done; lia.
  - intros st n h Eu Eh He.
    destruct (lock_resume_spec dsize id (written s id) (inv_size s Hr id) _ _ _ _ _ _ (inv_link s Hr c id _ _ Eh Eu) He)
      as (h' & upd & E & -> & _). by exists h'.
Qed.

(** C28: no assertion of the client or the server fails and no fatal error occurs,
    whatever happens next in a reachable state. *)
Theorem sync_never_aborts s a : reachable dsize s -> enabled dsize a s = true -> exists s', exec a s = Some s'.
Proof. intros Hr%reachable_inv He. destruct (exec_inv s a Hr He) as (s' & E & _). by exists s'. Qed.

End safe.

