(* ===== verification/SyncDeadlock.v ===== *)
(** * Concurrent upgrades block each other

    Two processes that have a handle in SHARED state and lock it in EXCLUSIVE state at
    the same time wait for each other forever: [sync_lock] marks the handle as used
    before it waits, and a handle in use is not downgraded.  The file also applies the
    theorems of [SyncSafe] to concrete runs. *)

From stdpp Require Import functions.
From S2P Require Import Prelude Sync SyncClient SyncServer SyncServerSpec SyncSystem SyncInv SyncClientSpec SyncServeSpec SyncSafe.

Section deadlock.
Context (dsize : Z -> Z) (id : Z).

(** Process [c] is in [sync_lock], which waits for the upgrade from SHARED to EXCLUSIVE. *)
Definition upgrading (s : sys) (c n : Z) : Prop :=
  exists h, p_handles (procs s c) !! id = Some h /\ p_users (procs s c) id = ULock EXCLUSIVE n /\ cur_state h = SHARED.

Lemma link_upgrading w ol h n up down :
  link dsize id w ol (View (Some h) (ULock EXCLUSIVE n) up down) -> cur_state h = SHARED ->
  used h = true /\ event h = false /\ exists l, ol = Some l /\ SHARED <= l_cur l /\
    (requests id down \/ l_cur l = EXCLUSIVE).
Proof.
  intros Hl Hc. inversion Hl as [|u [Hu|Hu]|l h0 u up0 dn Hr Hch Hrq Ho Hq|h0 u st dn Hrq Ho Hq Hc0 Hd|l h0 u st up0 dn Hr Hch Hrq Ho Hq
    |l h0 u st dn Hr Hch Hrq Ho Hq|l h0 u st d1 d2 Hr Hch Hr1 Hr2 Ho Hq|l h0 u st up0 dn Hr Hch Hs Hrq Hp Hc0 Hq
    |h0 u dn Hrq Hp Hc0 Hq|h0 u Hp Hc0 Hq]; subst; try done; try congruence.
  - destruct Hq as (_ & _ & _ & _ & Hst & _). rewrite Hc in Hst. states. lia.
  - by rewrite Hc in Hc0.
  - destruct Hq as (_ & ? & _ & ? & _). split_and!; try done. exists l. apply chain_le in Hch.
    split; [done|]. split; [by rewrite <- Hc|by left].
  - destruct Hq as (_ & ? & _ & ? & _). split_and!; try done. exists l. rewrite Hch, Hc. split_and!; [done|done|by left].
  - destruct Hq as (_ & ? & _ & ? & _ & _ & n' & [= E _] & _). split_and!; try done. exists l. states. split_and!; [done|lia|right; lia].
  - by destruct Hq as [[? _]|[? _]].
  - by destruct Hq as [[? _]|[? _]].
  - by destruct Hq as [[? _]|[? _]].
Qed.

(** While another process has the handle too, the answer is not on its way. *)
Lemma upgrading_spec s c1 c2 n1 n2 :
  inv dsize s -> c1 <> c2 -> upgrading s c1 n1 -> upgrading s c2 n2 ->
  exists h, p_handles (procs s c1) !! id = Some h /\ used h = true /\ event h = false /\
    requests id (of_id id (p_down (procs s c1))).
Proof.
  intros Hi Hne (h1 & Eh1 & Eu1 & Hc1) (h2 & Eh2 & Eu2 & Hc2). exists h1.
  pose proof (inv_link dsize s Hi c1 id _ _ Eh1 Eu1) as Hl1. pose proof (inv_link dsize s Hi c2 id _ _ Eh2 Eu2) as Hl2.
  destruct (link_upgrading _ _ _ _ _ _ Hl1 Hc1) as (? & ? & l1 & El1 & ? & Hr).
  destruct (link_upgrading _ _ _ _ _ _ Hl2 Hc2) as (_ & _ & l2 & El2 & ? & _).
  split_and!; try done. destruct Hr as [?|Hx]; [done|]. destruct Hne.
  apply lease_of_elem in El1 as [Hin1 <-], El2 as [Hin2 <-]. f_equal.
  by apply (exclusive_alone _ _ _ (inv_leases dsize s Hi id)).
Qed.

(** The process does nothing with the handle. *)
Definition untouched (s s' : sys) (c : Z) : Prop :=
  p_handles (procs s' c) !! id = p_handles (procs s c) !! id /\ p_users (procs s' c) id = p_users (procs s c) id.

Lemma untouched_set_handle s c0 id0 oh u out c :
  c0 <> c \/ id0 <> id -> untouched s (set_handle c0 id0 oh u out s) c.
Proof.
  intros Hne. unfold untouched, set_handle. simpl. destruct (decide (c = c0)) as [->|]; [|by rewrite fn_lookup_insert_ne].
  destruct Hne as [|Hne]; [done|]. rewrite fn_lookup_insert. simpl.
  by rewrite lookup_partial_alter_ne, fn_lookup_insert_ne by done.
Qed.

(** Case analysis of the code. *)
Ltac code_cases :=
  repeat match goal with
  | H : context [if ?b then _ else _] |- _ => destruct b eqn:?; simpl in H
  | H : context [check ?b] |- _ => destruct b eqn:?; simpl in H
  end; simplify_eq/=.

Lemma receive_used hs m hs' out :
  sync_client_message_callback true hs m = Some (hs', out) ->
  exists h h', hs !! m_id m = Some h /\ hs' = <[m_id m := h']> hs /\
    (used h = true -> m_code m <> CONFIRM_UPGRADE -> cur_state h' = cur_state h).
Proof.
  unfold sync_client_message_callback, SyncClient.find_handle. intros E.
  destruct (hs !! m_id m) as [h|]; [|destruct (m_code m); simpl in E; code_cases].
  unfold do_request_downgrade, do_confirm_upgrade, do_confirm_close, sync_downgrade, SyncClient.update_handle_data, sync_notify in E.
  destruct (m_code m); simpl in E; try done; code_cases.
  all: exists h; eexists; (split; [done|]); (split; [reflexivity|]); intros; breflect; first [done|congruence].
Qed.

Section upgrading_step.
Context (s : sys) (c : Z) (h : sync_handle) (n : Z).
Hypothesis Eh : p_handles (procs s c) !! id = Some h.
Hypothesis Eu : p_users (procs s c) id = ULock EXCLUSIVE n.
Hypothesis Hev : event h = false.

(** No call of the process concerns the handle. *)
Lemma call_elsewhere a c0 id0 :
  enabled dsize a s = true ->
  match a with
  | ALock c' i _ _ | ALockResume c' i | AUnlock c' i _ | ADestroy c' i | ADestroyResume c' i | AShutdown c' i => c' = c0 /\ i = id0
  | _ => False
  end -> c0 <> c \/ id0 <> id.
Proof.
  intros He Ha. destruct (decide (c0 = c)) as [->|]; [|by left]. destruct (decide (id0 = id)) as [->|]; [|by right].
  destruct a; try done; destruct Ha as [-> ->]; simpl in He; rewrite Eh, Eu in He; try done. congruence.
Qed.

Lemma call_untouched a s' :
  enabled dsize a s = true -> exec a s = Some s' ->
  match a with ACreate _ _ | AServe _ | AReceive _ => False | _ => True end -> untouched s s' c.
Proof.
  intros He E Ha.
  assert (Hel : forall c0 id0, match a with
    | ALock c' i _ _ | ALockResume c' i | AUnlock c' i _ | ADestroy c' i | ADestroyResume c' i | AShutdown c' i => c' = c0 /\ i = id0
    | _ => False end -> c0 <> c \/ id0 <> id) by (intros; by eapply call_elsewhere).
  destruct a as [|c0 id0 st n0|c0 id0|c0 id0 data|c0 id0|c0 id0|c0 id0| |]; try done; specialize (Hel c0 id0 ltac:(done)); simpl in E;
    unfold exec_lock, exec_lock_resume, exec_unlock, exec_destroy, exec_destroy_resume, exec_shutdown in E;
    (destruct (p_handles (procs s c0) !! id0) as [h0|]; [|done]); simpl in E.
  - destruct (sync_lock_begin true id0 st _) as [[[h' out] r]|]; [|done]. simplify_eq/=. by apply untouched_set_handle.
  - destruct (p_users (procs s c0) id0) as [|st n0| | |]; try done.
    destruct (sync_lock_resume id0 st n0 _) as [[[h' out] r]|]; [|done]. simplify_eq/=. by apply untouched_set_handle.
  - destruct (p_users (procs s c0) id0) as [| |st| |]; try done.
    destruct (sync_unlock true id0 data _) as [[h' out]|]; [|done]. simplify_eq/=.
    pose proof (untouched_set_handle s c0 id0 (Some h') UIdle out c Hel). by dif.
  - destruct (sync_destroy_begin true id0 _) as [[[h' out] []]|]; simplify_eq/=; by apply untouched_set_handle.
  - destruct (sync_destroy_resume _) as [h' []]; simplify_eq/=; by apply untouched_set_handle.
  - destruct (shutdown_close true id0 _) as [h' out]. simplify_eq/=. by apply untouched_set_handle.
Qed.

Lemma create_untouched c0 id0 s' : exec_create c0 id0 s = Some s' -> untouched s s' c.
Proof.
  unfold exec_create, sync_create, untouched. intros E. destruct (id0 =? 0); [done|]. simpl in E.
  destruct (p_handles (procs s c0) !! id0) as [h0|] eqn:E0; simplify_eq/=;
    (destruct (decide (c = c0)) as [->|]; [rewrite fn_lookup_insert|by rewrite fn_lookup_insert_ne]); simpl; [done|].
  rewrite lookup_insert_ne; [done|]. congruence.
Qed.

Lemma serve_untouched c0 s' : exec_serve c0 s = Some s' -> untouched s s' c.
Proof.
  unfold exec_serve, untouched. intros E. destruct (p_up (procs s c0)) as [|m up]; [done|]. simpl in E.
  destruct (sync_server_message_callback c0 m (server s)) as [[srv out]|]; [|done]. simplify_eq/=.
  by destruct (decide (c = c0)) as [->|]; [rewrite fn_lookup_insert|rewrite fn_lookup_insert_ne].
Qed.

Lemma receive_kept c0 s' :
  used h = true -> cur_state h = SHARED -> requests id (of_id id (p_down (procs s c))) ->
  exec_receive c0 s = Some s' -> upgrading s' c n.
Proof.
  unfold exec_receive, upgrading. intros Hu Hc Hd E. destruct (p_down (procs s c0)) as [|m down] eqn:E0; [done|]. simpl in E.
  destruct (sync_client_message_callback true (p_handles (procs s c0)) m) as [[hs out]|] eqn:Em; [|done]. simplify_eq/=.
  destruct (decide (c = c0)) as [->|Hne]; [rewrite fn_lookup_insert|rewrite fn_lookup_insert_ne by done; by exists h].
  simpl. apply receive_used in Em as (h0 & h' & Eh0 & -> & Hk).
  rewrite E0, of_id_cons in Hd. destruct (decide (m_id m = id)) as [E1|Hne].
  - rewrite E1 in *. assert (h0 = h) as -> by congruence. simpl in Hd. apply Forall_cons in Hd as [(st & -> & _) _].
    exists h'. rewrite lookup_insert_eq. split_and!; [done..|]. by rewrite Hk.
  - exists h. by rewrite lookup_insert_ne.
Qed.

End upgrading_step.

(** A step leaves both processes where they are. *)
Lemma upgrading_kept s a s' c1 c2 n1 n2 :
  inv dsize s -> c1 <> c2 -> upgrading s c1 n1 -> upgrading s c2 n2 ->
  enabled dsize a s = true -> exec a s = Some s' -> upgrading s' c1 n1.
Proof.
  intros Hi Hne H1 H2 He E. destruct (upgrading_spec s c1 c2 n1 n2 Hi Hne H1 H2) as (h & Eh & Hused & Hev & Hreq).
  destruct H1 as (h0 & Eh0 & Eu & Hc). assert (h0 = h) as -> by congruence.
  assert (Hun : untouched s s' c1 -> upgrading s' c1 n1).
  { intros [E1 E2]. exists h. by rewrite E1, E2. }
  destruct a; try (apply Hun; by eapply call_untouched); simpl in E.
  - apply Hun. by eapply create_untouched.
  - apply Hun. by eapply serve_untouched.
  - by eapply receive_kept.
Qed.

Lemma upgrading_forever s s' c1 c2 n1 n2 :
  inv dsize s -> c1 <> c2 -> upgrading s c1 n1 -> upgrading s c2 n2 -> rtc (step dsize) s s' ->
  inv dsize s' /\ upgrading s' c1 n1 /\ upgrading s' c2 n2.
Proof.
  intros Hi Hne H1 H2 Hs. revert Hi H1 H2. induction Hs as [|s s1 s' (a & He & E) _ IH]; [done|]. intros Hi H1 H2.
  destruct (exec_inv dsize s a Hi He) as (s2 & E2 & Hi2). assert (s2 = s1) as -> by congruence.
  apply IH; [done|by eapply (upgrading_kept s a s1 c1 c2)|by eapply (upgrading_kept s a s1 c2 c1)].
Qed.

End deadlock.

(** C31: two processes that have a handle in SHARED state and are in [sync_lock] for EXCLUSIVE
    at the same time wait for each other forever: whatever all processes and the server do
    afterwards, both are still in this call, with the handle in SHARED state, and cannot go on. *)
Theorem concurrent_upgrades_deadlock dsize id s s' c1 c2 n1 n2 :
  reachable dsize s -> c1 <> c2 -> upgrading id s c1 n1 -> upgrading id s c2 n2 -> rtc (step dsize) s s' ->
  upgrading id s' c1 n1 /\ upgrading id s' c2 n2 /\
  enabled dsize (ALockResume c1 id) s' = false /\ enabled dsize (ALockResume c2 id) s' = false.
Proof.
  intros Hr%reachable_inv Hne H1 H2 Hs.
  destruct (upgrading_forever dsize id s s' c1 c2 n1 n2 Hr Hne H1 H2 Hs) as (Hi & H1' & H2').
  destruct (upgrading_spec dsize id s' c1 c2 n1 n2 Hi Hne H1' H2') as (h1 & Eh1 & _ & Hev1 & _).
  destruct (upgrading_spec dsize id s' c2 c1 n2 n1 Hi ltac:(done) H2' H1') as (h2 & Eh2 & _ & Hev2 & _).
  split_and!; [done..| |]; simpl; rewrite ?Eh1, ?Eh2.
  - by destruct (p_users (procs s' c1) id).
  - by destruct (p_users (procs s' c2) id).
Qed.

(** Two processes have used the handle 7 for reading, and now both want to write. *)
Definition upgrade_run : list action :=
  [ACreate 1 7; ALock 1 7 SHARED 0; AServe 1; AReceive 1; ALockResume 1 7; AUnlock 1 7 [];
   ACreate 2 7; ALock 2 7 SHARED 0; AServe 2; AReceive 2; ALockResume 2 7; AUnlock 2 7 [];
   ALock 1 7 EXCLUSIVE 0; ALock 2 7 EXCLUSIVE 0].

(** [upgrading] as a test. *)
Definition is_upgrading (s : sys) (c id : Z) : bool :=
  match p_handles (procs s c) !! id, p_users (procs s c) id with
  | Some h, ULock st n => (st =? EXCLUSIVE) && (n =? 0) && (cur_state h =? SHARED)
  | _, _ => false
  end.

Lemma is_upgrading_spec id s c : is_upgrading s c id = true -> upgrading id s c 0.
Proof.
  unfold is_upgrading, upgrading. destruct (p_handles (procs s c) !! id) as [h|]; [|done].
  destruct (p_users (procs s c) id); try done. intros H. breflect. subst. eauto.
Qed.

(** Both requests are served afterwards, and the server asks both to give up the state. *)
Lemma concurrent_upgrades_witness :
  exists s s', reachable (fun _ => 0) s /\ rtc (step (fun _ => 0)) s s' /\ upgrading 7 s' 1 0 /\ upgrading 7 s' 2 0 /\
    enabled (fun _ => 0) (ALockResume 1 7) s' = false /\ enabled (fun _ => 0) (ALockResume 2 7) s' = false.
Proof.
  assert (Hb : match run (fun _ => 0) upgrade_run sys_init with
               | Some s => is_upgrading s 1 7 && is_upgrading s 2 7 &&
                   match run (fun _ => 0) [AServe 1; AServe 2; AReceive 1; AReceive 2] s with Some _ => true | None => false end
               | None => false
               end = true) by (vm_compute; reflexivity).
  destruct (run (fun _ => 0) upgrade_run sys_init) as [s|] eqn:E; [|discriminate Hb].
  apply andb_true_iff in Hb as [[H1%is_upgrading_spec H2%is_upgrading_spec]%andb_true_iff Hb].
  destruct (run (fun _ => 0) _ s) as [s'|] eqn:E'; [|discriminate Hb].
  apply run_rtc in E, E'. exists s, s'. split; [exact E|]. split; [exact E'|].
  apply (concurrent_upgrades_deadlock (fun _ => 0) 7 s s' 1 2 0 0 E); done.
Defined.
