(* ===== verification/SyncExamples.v ===== *)
(** * Runs of the sync engine

    Concrete runs to which the theorems of [SyncSafe] apply. *)

From stdpp Require Import functions.
From S2P Require Import Prelude Sync SyncClient SyncServer SyncServerSpec SyncSystem SyncInv SyncSafe.

(** All handles have data of two bytes. *)
Definition size2 (_ : Z) : Z := 2.

(** The state after a run. *)
Definition after (l : list action) : sys := default sys_init (run size2 l sys_init).

Definition runs (l : list action) : bool := match run size2 l sys_init with Some _ => true | None => false end.

Lemma after_reachable l : runs l = true -> reachable size2 (after l).
Proof. unfold after, runs. destruct (run size2 l sys_init) as [s|] eqn:E; [|done]. intros _. exact (run_rtc _ _ _ _ E). Qed.

(** Process 1 has stored data and locked the handle again; process 2 asks for it. *)
Definition held_run : list action :=
  [ACreate 1 7; ALock 1 7 EXCLUSIVE 2; AServe 1; AReceive 1; ALockResume 1 7; AUnlock 1 7 [5; 6];
   ALock 1 7 EXCLUSIVE 2; ACreate 2 7; ALock 2 7 SHARED 2; AServe 2; AReceive 1].

Lemma sync_lock_exclusive_witness : holds_lock (after held_run) 2 7 = false.
Proof.
  apply (sync_lock_exclusive size2 (after held_run) 1 2 7); [|vm_compute; reflexivity|done].
  apply after_reachable. vm_compute. reflexivity.
Defined.

(** Then process 1 gives the handle up, and process 2 gets it with the data. *)
Definition passed_run : list action := held_run ++ [AUnlock 1 7 []; AServe 1; AReceive 2].

Lemma sync_lock_latest_data_witness :
  written (after passed_run) 7 = [5; 6] /\
  exists h h', p_handles (procs (after passed_run) 2) !! 7 = Some h /\
    sync_lock_resume 7 SHARED 2 h = Some (h', [], Locked (Some [5; 6])).
Proof.
  assert (Hr : reachable size2 (after passed_run)) by (apply after_reachable; vm_compute; reflexivity).
  destruct (sync_lock_latest_data size2 (after passed_run) 2 7 Hr) as [_ H].
  split; [vm_compute; reflexivity|].
  destruct (p_handles (procs (after passed_run) 2) !! 7) as [h|] eqn:Eh; [|vm_compute in Eh; discriminate].
  destruct (H SHARED 2 h) as [h' E]; [vm_compute; reflexivity|done|vm_compute in Eh; injection Eh as <-; reflexivity|].
  exists h, h'. split; [done|]. rewrite E. vm_compute. reflexivity.
Defined.

Lemma sync_never_aborts_witness : exists s', exec (AServe 1) (after (held_run ++ [AUnlock 1 7 []])) = Some s'.
Proof.
  apply (sync_never_aborts size2); [apply after_reachable; vm_compute; reflexivity|vm_compute; reflexivity].
Defined.

(** Two clients in SHARED state, and a third that wants to write. *)
Definition three_leases : server_handle :=
  ServerHandle [5; 6] [Lease 1 SHARED NONE NONE; Lease 2 SHARED NONE NONE; Lease 3 INVALID EXCLUSIVE NONE].

