(* ===== verification/PathUtils.v ===== *)
(** * Paths: [common/src/path_utils.c]

    [get_norm_path] removes ["."], [".."] and repeated slashes from a path, in a buffer of the
    caller.  A string is the list of its bytes without the final zero; the buffer is an array,
    and [None] is an access outside of it or a failed assertion. *)

From S2P Require Import Prelude.

Abbreviation str := (list Z).

Definition SLASH : Z := 47.
Definition DOT : Z := 46.

(** ** The code *)

(** The token up to the next ['/'], and the rest of the path from there on. *)
Fixpoint find_next_slash (path : str) : str * str :=
  match path with
  | [] => ([], [])
  | c :: path' => if c =? SLASH then ([], path) else let '(tok, end_) := find_next_slash path' in (c :: tok, end_)
  end.

(** [while (off && path[off] != '/') off--;] *)
Fixpoint back_to_slash (path : str) (off : nat) : option nat :=
  match off with
  | O => Some O
  | S off' => c ← path !! off; if c =? SLASH then Some off else back_to_slash path off'
  end.

(** Whether ['/'] was found, and the new offset. *)
Definition find_prev_slash_offset (path : str) (offset : nat) : option (bool * nat) :=
  match offset with
  | O => Some (false, O)
  | S off =>
      c ← path !! off;
      off1 ← back_to_slash path (if negb (off =? 0)%nat && (c =? SLASH) then (off - 1)%nat else off);
      c1 ← path !! off1;
      Some (c1 =? SLASH, off1)
  end.

(** [memcpy] into the buffer. *)
Definition put (buf : str) (i : nat) (x : str) : option str :=
  if (i + length x <=? length buf)%nat then Some (take i buf ++ x ++ drop (i + length x) buf) else None.

(** The variables of the loop: [buf] is the whole buffer, of which [ret_size] bytes are final;
    [size] is what is left after them. *)
Record norm_state : Type := Norm {
  n_buf : str;
  n_size : Z;
  n_offset : nat;
  n_ret_size : nat;
  n_need_slash : bool;
}.

Definition one_if (b : bool) : Z := if b then 1 else 0.

Definition slash_if (b : bool) : str := if b then [SLASH] else [].

(** The body of the loop for one token; [Some None] is [return false]. *)
Definition norm_token (is_absolute_path : bool) (tok : str) (st : norm_state) : option (option norm_state) :=
  if bool_decide (tok = [DOT; DOT]) then
    if negb (n_offset st =? 0)%nat then
      '(need_slash, offset) ← find_prev_slash_offset (drop (n_ret_size st) (n_buf st)) (n_offset st);
      Some (Some (Norm (n_buf st) (n_size st) offset (n_ret_size st) need_slash))
    else if negb is_absolute_path then
      if n_size st <? one_if (n_need_slash st) + 2 then Some None
      else
        buf ← put (n_buf st) (n_ret_size st) (slash_if (n_need_slash st) ++ [DOT; DOT]);
        let n := one_if (n_need_slash st) + 2 in
        Some (Some (Norm buf (n_size st - n) (n_offset st) (n_ret_size st + Z.to_nat n) true))
    else Some (Some st)
  else if bool_decide (tok = []) || bool_decide (tok = [DOT]) then Some (Some st)
  else
    let len := Z.of_nat (length tok) in
    if u64 (n_size st - Z.of_nat (n_offset st)) <? one_if (n_need_slash st) + len then Some None
    else
      buf ← put (n_buf st) (n_ret_size st + n_offset st) (slash_if (n_need_slash st) ++ tok);
      Some (Some (Norm buf (n_size st) (n_offset st + length (slash_if (n_need_slash st)) + length tok) (n_ret_size st) true)).

Fixpoint norm_loop (fuel : nat) (is_absolute_path : bool) (path : str) (st : norm_state) : option (option norm_state) :=
  match fuel with
  | O => None
  | S fuel' =>
      let '(tok, end_) := find_next_slash path in
      r ← norm_token is_absolute_path tok st;
      match r, end_ with
      | None, _ => Some None
      | Some st', [] => Some (Some st')
      | Some st', _ :: path' => norm_loop fuel' is_absolute_path path' st'
      end
  end.

(** The number of bytes written and the buffer, or [Some None] for [false]. *)
Definition get_norm_path (path buf : str) : option (option (nat * str)) :=
  if Z.of_nat (length buf) =? 0 then Some None
  else
    let size := Z.of_nat (length buf) - 1 in
    let is_absolute_path := bool_decide (head path = Some SLASH) in
    if is_absolute_path && (size <? 1) then Some None
    else
      buf1 ← put buf 0 (slash_if is_absolute_path);
      let n := length (slash_if is_absolute_path) in
      r ← norm_loop (S (length path)) is_absolute_path (drop n path) (Norm buf1 (size - Z.of_nat n) 0 n false);
      match r with
      | None => Some None
      | Some st =>
          buf2 ← put (n_buf st) (n_ret_size st + n_offset st) [0];
          let written := (n_ret_size st + n_offset st + 1)%nat in
          if (written <=? length path + 1)%nat then Some (Some (written, buf2)) else None
      end.

(** The loop of [get_base_name], with fuel for the tokens. *)
Fixpoint base_name_loop (fuel : nat) (path : str) : option str :=
  match fuel with
  | O => None
  | S fuel' => match find_next_slash path with (tok, []) => Some tok | (_, _ :: path') => base_name_loop fuel' path' end
  end.

Definition get_base_name (path buf : str) : option (option (nat * str)) :=
  tok ← base_name_loop (S (length path)) path;
  if (length buf <? length tok + 1)%nat then Some None
  else buf1 ← put buf 0 (tok ++ [0]); Some (Some ((length tok + 1)%nat, buf1)).

(** [name] with its final zero. *)
Definition is_dot_or_dotdot (name : str) : bool :=
  let at_ i := default 0 (name !! i) in
  (at_ 0%nat =? DOT) && (at_ 1%nat =? 0) || (at_ 0%nat =? DOT) && (at_ 1%nat =? DOT) && (at_ 2%nat =? 0).

(** ** The reference: paths as sequences of names *)

Fixpoint split (path : str) : list str :=
  match path with
  | [] => [[]]
  | c :: path' =>
      if c =? SLASH then [] :: split path'
      else match split path' with tok :: toks => (c :: tok) :: toks | [] => [[c]] end
  end.

Fixpoint join (toks : list str) : str :=
  match toks with
  | [] => []
  | [tok] => tok
  | tok :: toks' => tok ++ SLASH :: join toks'
  end.

Definition DOTDOT : str := [DOT; DOT].

Definition walk (absolute : bool) (names : list str) (tok : str) : list str :=
  if decide (tok = [] \/ tok = [DOT]) then names
  else if decide (tok = DOTDOT) then
    match last names with
    | Some name => if decide (name = DOTDOT) then names ++ [DOTDOT] else removelast names
    | None => if absolute then names else [DOTDOT]
    end
  else names ++ [tok].

Definition is_absolute (path : str) : bool := bool_decide (head path = Some SLASH).

Definition names (path : str) : list str := foldl (walk (is_absolute path)) [] (split path).

Definition normalize (path : str) : str := slash_if (is_absolute path) ++ join (names path).

(** The longest intermediate result decides whether the buffer is big enough. *)
Definition prefix_form (path : str) (k : nat) : str :=
  slash_if (is_absolute path) ++ join (foldl (walk (is_absolute path)) [] (take k (split path))).

Definition fits (path : str) (size : nat) : Prop := forall k, (length (prefix_form path k) < size)%nat.

(** A name that [get_norm_path] copies. *)
Definition plain (tok : str) : Prop := tok <> [] /\ tok <> [DOT] /\ tok <> DOTDOT /\ SLASH ∉ tok.

(** ** Splitting and joining *)

Lemma find_next_slash_split path tok end_ :
  find_next_slash path = (tok, end_) ->
  split path = tok :: match end_ with [] => [] | _ :: rest => split rest end /\ SLASH ∉ tok /\
  (length end_ + length tok = length path)%nat.
Proof.
  revert tok end_. induction path as [|c path IH]; intros tok end_; cbn.
  { intros [= <- <-]. split_and!; [done|apply not_elem_of_nil|done]. }
  destruct (Z.eqb_spec c SLASH) as [->|Hc].
  { intros [= <- <-]. split_and!; [done|apply not_elem_of_nil|cbn; lia]. }
  destruct (find_next_slash path) as [t e] eqn:E. intros [= <- <-].
  destruct (IH t e eq_refl) as (-> & Hin & Hlen). split_and!; [done| |cbn; lia].
  rewrite not_elem_of_cons. auto.
Qed.

Lemma join_snoc toks tok :
  join (toks ++ [tok]) = join toks ++ slash_if (negb (bool_decide (toks = []))) ++ tok.
Proof.
  induction toks as [|t toks IH]; [done|].
  destruct toks as [|t' toks]; [done|].
  change (t ++ SLASH :: join ((t' :: toks) ++ [tok]) = (t ++ SLASH :: join (t' :: toks)) ++ slash_if true ++ tok).
  rewrite IH. by rewrite <- app_assoc.
Qed.

Lemma split_no_slash path : Forall (fun tok => SLASH ∉ tok) (split path).
Proof.
  induction path as [|c path IH]; cbn; [repeat constructor; apply not_elem_of_nil|].
  destruct (Z.eqb_spec c SLASH) as [->|Hc]; [constructor; [apply not_elem_of_nil|done]|].
  destruct (split path) as [|t ts]; inversion IH; subst; repeat constructor; rewrite ?not_elem_of_cons; try done.
  split; [auto|apply not_elem_of_nil].
Qed.

Lemma split_token tok : SLASH ∉ tok -> split tok = [tok].
Proof.
  induction tok as [|c tok IH]; [done|]. rewrite not_elem_of_cons. intros [Hc Hin]. cbn.
  destruct (Z.eqb_spec c SLASH) as [->|_]; [done|]. by rewrite IH.
Qed.

Lemma split_app tok path : SLASH ∉ tok -> split (tok ++ SLASH :: path) = tok :: split path.
Proof.
  induction tok as [|c tok IH]; [done|]. rewrite not_elem_of_cons. intros [Hc Hin]. cbn.
  destruct (Z.eqb_spec c SLASH) as [->|_]; [done|]. by rewrite IH.
Qed.

Lemma split_join toks : toks <> [] -> Forall (fun tok => SLASH ∉ tok) toks -> split (join toks) = toks.
Proof.
  induction toks as [|t toks IH]; [done|]. intros _ [Ht Hts]%Forall_cons.
  destruct toks as [|t' toks]; [by apply split_token|].
  change (split (t ++ SLASH :: join (t' :: toks)) = t :: t' :: toks).
  rewrite split_app by done. by rewrite IH.
Qed.

(** ** The buffer *)

Lemma put_spec buf i x :
  (i + length x <= length buf)%nat ->
  exists buf', put buf i x = Some buf' /\ length buf' = length buf /\ take (i + length x) buf' = take i buf ++ x.
Proof.
  intros Hle. unfold put. destruct (Nat.leb_spec (i + length x) (length buf)); [|lia].
  eexists. split; [done|]. split.
  - rewrite !length_app, length_take, length_drop. lia.
  - rewrite app_assoc. apply take_app_length'. rewrite length_app, length_take. lia.
Qed.

Lemma back_to_slash_spec s p n :
  (forall i, (p < i <= p + n)%nat -> exists c, s !! i = Some c /\ c <> SLASH) -> p = 0%nat \/ s !! p = Some SLASH ->
  back_to_slash s (p + n) = Some p.
Proof.
  intros Hn Hp. induction n as [|n IH].
  - rewrite Nat.add_0_r. destruct p as [|p]; [done|]. destruct Hp as [|Hp]; [done|]. cbn [back_to_slash]. by rewrite Hp.
  - rewrite Nat.add_succ_r. cbn [back_to_slash]. destruct (Hn (S (p + n))) as (c & -> & Hc); [lia|]. cbn.
    destruct (Z.eqb_spec c SLASH); [done|]. apply IH. intros i Hi. apply Hn. lia.
Qed.

(** The written bytes end with a name, after a slash unless it is the first. *)
Lemma find_prev_slash_offset_spec s x b t :
  take (length (x ++ slash_if b ++ t)) s = x ++ slash_if b ++ t -> (b = false -> x = []) -> SLASH ∉ t -> t <> [] ->
  find_prev_slash_offset s (length (x ++ slash_if b ++ t)) = Some (b, length x).
Proof.
  intros Hs Hb Hin Ht.
  assert (Hat : forall i, (i < length (x ++ slash_if b ++ t))%nat -> s !! i = (x ++ slash_if b ++ t) !! i).
  { intros i Hi. rewrite <- Hs. by rewrite lookup_take_lt. }
  assert (Hname : forall i, (length (x ++ slash_if b) <= i < length (x ++ slash_if b ++ t))%nat ->
                            exists c, s !! i = Some c /\ c <> SLASH).
  { intros i Hi. rewrite Hat by lia. rewrite app_assoc, lookup_app_r by lia.
    destruct (lookup_lt_is_Some_2 t (i - length (x ++ slash_if b))) as [c Hc].
    { rewrite !length_app in *. lia. }
    exists c. split; [done|]. intros ->. apply Hin. by eapply list_elem_of_lookup_2. }
  assert (Hlen : (0 < length t)%nat) by (destruct t; [done|cbn; lia]).
  assert (Hfirst : length x = 0%nat \/ s !! length x = Some SLASH).
  { destruct b; [right|left; by rewrite Hb]. rewrite Hat by (rewrite !length_app; cbn; lia).
    by rewrite lookup_app_r, Nat.sub_diag by lia. }
  rewrite !length_app in *. unfold find_prev_slash_offset.
  destruct (length x + (length (slash_if b) + length t))%nat as [|off] eqn:E; [lia|].
  destruct (Hname off) as (c & Hc & Hne); [lia|]. rewrite Hc. cbn.
  destruct (Z.eqb_spec c SLASH); [done|]. rewrite andb_false_r.
  replace off with (length x + (off - length x))%nat by lia.
  rewrite back_to_slash_spec; [| |done].
  2:{ intros i Hi. apply Hname. destruct b; cbn in *; lia. }
  cbn. destruct b; cbn in *.
  - rewrite (Hat (length x)) by lia. rewrite lookup_app_r, Nat.sub_diag by lia. done.
  - assert (x = []) as -> by auto. destruct (Hname 0%nat) as (c' & Hc' & Hne'); [cbn in *; lia|]. cbn. rewrite Hc'. cbn.
    destruct (Z.eqb_spec c' SLASH); done.
Qed.

(** ** One token *)

(** [names] are the names in the buffer: [u] are the [".."] that stay, [d] may be removed. *)
Record norm_rep (absolute : bool) (size : nat) (names u d : list str) (st : norm_state) : Prop := {
  nr_names : names = u ++ d;
  nr_up : Forall (eq DOTDOT) u;
  nr_abs : absolute = true -> u = [];
  nr_plain : Forall plain d;
  nr_length : length (n_buf st) = size;
  nr_ret : n_ret_size st = length (slash_if absolute ++ join u);
  nr_offset : (n_ret_size st + n_offset st)%nat = length (slash_if absolute ++ join names);
  nr_buf : take (n_ret_size st + n_offset st) (n_buf st) = slash_if absolute ++ join names;
  nr_size : n_size st = Z.of_nat size - 1 - Z.of_nat (n_ret_size st);
  nr_fits : (n_ret_size st + n_offset st < size)%nat;
  nr_slash : n_need_slash st = negb (bool_decide (names = []));
}.

Lemma join_prefix u d : exists y, join (u ++ d) = join u ++ y.
Proof.
  induction d as [|t d [y Hy]] using rev_ind; [exists []; by rewrite !app_nil_r|].
  rewrite app_assoc, join_snoc, Hy, <- app_assoc. eauto.
Qed.

Lemma slash_if_length b : Z.of_nat (length (slash_if b)) = one_if b.
Proof. by destruct b. Qed.

Lemma walk_skip absolute names tok : tok = [] \/ tok = [DOT] -> walk absolute names tok = names.
Proof. intros H. unfold walk. by rewrite decide_True. Qed.

Lemma walk_plain absolute names tok : plain tok -> walk absolute names tok = names ++ [tok].
Proof. intros (? & ? & ? & _). unfold walk. rewrite !decide_False by tauto. done. Qed.

Lemma walk_up_plain absolute names tok : plain tok -> walk absolute (names ++ [tok]) DOTDOT = names.
Proof.
  intros (_ & _ & Hne & _). unfold walk. rewrite decide_False by naive_solver. rewrite decide_True by done.
  rewrite last_snoc, decide_False by done. apply removelast_last.
Qed.

Lemma walk_up_root u : Forall (eq DOTDOT) u -> walk false u DOTDOT = u ++ [DOTDOT].
Proof.
  intros Hu. unfold walk. rewrite decide_False by naive_solver. rewrite decide_True by done.
  destruct u as [|x u _] using rev_ind; [done|]. rewrite last_snoc.
  apply Forall_app in Hu as [_ [-> _]%Forall_cons]. by rewrite decide_True.
Qed.

(** The three effects of a token on the variables of the loop. *)
Lemma norm_push absolute size names u d st tok buf :
  norm_rep absolute size names u d st -> plain tok -> length buf = size ->
  take (n_ret_size st + n_offset st + length (slash_if (n_need_slash st) ++ tok)) buf =
    take (n_ret_size st + n_offset st) (n_buf st) ++ slash_if (n_need_slash st) ++ tok ->
  (n_ret_size st + n_offset st + length (slash_if (n_need_slash st) ++ tok) < size)%nat ->
  norm_rep absolute size (names ++ [tok]) u (d ++ [tok])
    (Norm buf (n_size st) (n_offset st + length (slash_if (n_need_slash st)) + length tok) (n_ret_size st) true).
Proof.
  intros [-> Hu Ha Hd Hl Hr Ho Hb Hs Hf Hn] Htok Hlen Htake Hfit.
  assert (Hj : slash_if absolute ++ join ((u ++ d) ++ [tok]) =
               (slash_if absolute ++ join (u ++ d)) ++ slash_if (n_need_slash st) ++ tok).
  { by rewrite join_snoc, Hn, <- app_assoc. }
  rewrite Hb, <- Hj in Htake. rewrite length_app in Htake, Hfit.
  split; cbn; rewrite ?app_assoc; try done.
  - apply Forall_app. auto.
  - rewrite Hj, length_app, <- Ho, length_app. lia.
  - rewrite <- Htake. f_equal. lia.
  - lia.
  - rewrite bool_decide_eq_false_2; [done|]. by destruct (u ++ d).
Qed.

Lemma norm_pop absolute size names u d tok st :
  norm_rep absolute size names u (d ++ [tok]) st ->
  exists offset, find_prev_slash_offset (drop (n_ret_size st) (n_buf st)) (n_offset st) =
                   Some (negb (bool_decide (u ++ d = [])), offset) /\
    norm_rep absolute size (u ++ d) u d
      (Norm (n_buf st) (n_size st) offset (n_ret_size st) (negb (bool_decide (u ++ d = [])))).
Proof.
  intros [-> Hu Ha Hd Hl Hr Ho Hb Hs Hf Hn]. apply Forall_app in Hd as [Hd [(Hne & _ & _ & Hin) _]%Forall_cons].
  destruct (join_prefix u d) as [y Hy]. set (b := negb (bool_decide (u ++ d = []))).
  rewrite app_assoc, join_snoc, Hy in Ho, Hb. fold b in Ho, Hb. rewrite <- app_assoc, app_assoc in Ho, Hb.
  assert (Hoff : n_offset st = length (y ++ slash_if b ++ tok)) by (rewrite length_app in Ho; lia).
  exists (length y). split.
  - rewrite Hoff. apply find_prev_slash_offset_spec; [|unfold b|done|done].
    + rewrite <- Hoff, take_drop_commute, Hb, Hr. apply drop_app_length.
    + destruct (u ++ d) eqn:E; [|done]. intros _. apply app_nil in E as [-> ->]. by rewrite Hy in *.
  - split; cbn; try done; rewrite ?Hy, ?app_assoc.
    + by rewrite length_app, Hr.
    + apply (f_equal (take (n_ret_size st + length y))) in Hb. rewrite take_take in Hb.
      rewrite Nat.min_l in Hb by (rewrite Hoff, !length_app; lia). rewrite Hb, app_assoc. apply take_app_length'.
      by rewrite length_app, Hr.
    + rewrite Hoff, !length_app in Hf. lia.
Qed.

Lemma norm_rep_up absolute size names u st :
  norm_rep absolute size names u [] st ->
  n_offset st = 0%nat /\ names = u /\ take (n_ret_size st) (n_buf st) = slash_if absolute ++ join u.
Proof.
  intros [-> _ _ _ _ Hr Ho Hb _ _ _]. rewrite !app_nil_r in *. assert (n_offset st = 0%nat) as Hz by lia.
  rewrite Hz, Nat.add_0_r in Hb. done.
Qed.

Lemma norm_up size u st buf :
  norm_rep false size u u [] st -> length buf = size ->
  let piece := slash_if (n_need_slash st) ++ DOTDOT in
  take (n_ret_size st + length piece) buf = take (n_ret_size st) (n_buf st) ++ piece ->
  (n_ret_size st + length piece < size)%nat ->
  norm_rep false size (u ++ [DOTDOT]) (u ++ [DOTDOT]) []
    (Norm buf (n_size st - Z.of_nat (length piece)) (n_offset st) (n_ret_size st + length piece) true).
Proof.
  intros Hrep Hlen piece Htake Hfit. destruct (norm_rep_up _ _ _ _ _ Hrep) as (Hz & _ & Hb).
  destruct Hrep as [_ Hu _ _ Hl Hr _ _ Hs Hf Hn]. rewrite Hb in Htake.
  assert (Hj : join (u ++ [DOTDOT]) = join u ++ piece) by (unfold piece; by rewrite join_snoc, Hn).
  clearbody piece.
  split; cbn; rewrite ?app_nil_r, ?Hz, ?Nat.add_0_r, ?Hj, ?length_app; try done.
  - apply Forall_app. repeat constructor. done.
  - cbn in Hr. lia.
  - cbn in Hr. lia.
  - lia.
  - rewrite bool_decide_eq_false_2; [done|]. by destruct u.
Qed.

Definition norm_at (absolute : bool) (size : nat) (names : list str) (st : norm_state) : Prop :=
  exists u d, norm_rep absolute size names u d st.

(** A token either leads to the state for the next sequence of names or does not fit. *)
Definition token_done (absolute : bool) (size : nat) (names : list str) (r : option (option norm_state)) : Prop :=
  match r with
  | None => False
  | Some None => (size <= length (slash_if absolute ++ join names))%nat
  | Some (Some st) => norm_at absolute size names st
  end.

Lemma norm_copy absolute size names u d st tok :
  Z.of_nat size < u64_mod -> norm_rep absolute size names u d st -> plain tok ->
  token_done absolute size (names ++ [tok]) (norm_token absolute tok st).
Proof.
  intros Hsize Hrep Hp. pose proof Hrep as [_ _ _ _ Hl _ Ho _ Hs Hf Hn]. pose proof Hp as (H1 & H2 & H3 & _).
  unfold norm_token. rewrite !bool_decide_eq_false_2 by done. cbn [orb].
  rewrite u64_small, <- slash_if_length by lia. destruct (Z.ltb_spec (n_size st - Z.of_nat (n_offset st))
    (Z.of_nat (length (slash_if (n_need_slash st))) + Z.of_nat (length tok))); cbn.
  - rewrite join_snoc, <- Hn, app_assoc, length_app, <- Ho, length_app. lia.
  - destruct (put_spec (n_buf st) (n_ret_size st + n_offset st) (slash_if (n_need_slash st) ++ tok))
      as (buf & -> & Hlen & Htake); [rewrite length_app; lia|].
    exists u, (d ++ [tok]). apply (norm_push absolute size names u d st tok buf); try done; [congruence|].
    rewrite length_app. lia.
Qed.

Lemma norm_dotdot absolute size names u d st :
  norm_rep absolute size names u d st ->
  token_done absolute size (walk absolute names DOTDOT) (norm_token absolute DOTDOT st).
Proof.
  intros Hrep. unfold norm_token. rewrite bool_decide_eq_true_2 by done.
  destruct d as [|tok d _] using rev_ind.
  - destruct (norm_rep_up _ _ _ _ _ Hrep) as (Hz & -> & Hb). pose proof Hrep as [_ Hu Ha _ Hl Hr _ _ Hs Hf Hn].
    rewrite Hz. cbn [Nat.eqb negb]. destruct absolute; cbn [negb].
    { rewrite Ha in * by done. exists [], []. done. }
    rewrite walk_up_root by done. rewrite <- slash_if_length.
    destruct (Z.ltb_spec (n_size st) (Z.of_nat (length (slash_if (n_need_slash st))) + 2)); cbn.
    { rewrite join_snoc, <- Hn, length_app, length_app. cbn in *. lia. }
    destruct (put_spec (n_buf st) (n_ret_size st) (slash_if (n_need_slash st) ++ DOTDOT))
      as (buf & Hput & Hlen & Htake); [rewrite length_app; cbn; lia|].
    unfold DOTDOT in Hput. rewrite Hput. cbn. exists (u ++ [DOTDOT]), [].
    pose proof (norm_up size u st buf Hrep) as H'. cbv zeta in H'. rewrite length_app in H'.
    change (length DOTDOT) with 2%nat in *.
    rewrite Hz, Nat2Z.inj_add in H'. rewrite length_app in Htake.
    replace (Z.to_nat (Z.of_nat (length (slash_if (n_need_slash st))) + 2))
      with (length (slash_if (n_need_slash st)) + 2)%nat by lia.
    apply H'; [congruence|done|lia].
  - destruct (norm_pop _ _ _ _ _ _ _ Hrep) as (off & Hfind & Hpop). pose proof Hrep as [-> Hu Ha Hd Hl Hr Ho Hb Hs Hf Hn].
    apply Forall_app in Hd as [Hd [Hp _]%Forall_cons]. rewrite app_assoc, walk_up_plain by done.
    destruct (Nat.eqb_spec (n_offset st) 0) as [Hz|Hz]; cbn [negb].
    + exfalso. rewrite app_assoc, join_snoc in Ho. destruct (join_prefix u d) as [y Hy]. destruct tok; [by destruct Hp|].
      rewrite Hy, !length_app in Ho. rewrite !length_app in Hr. cbn in Ho. lia.
    + rewrite Hfind. cbn. by exists u, d.
Qed.

Lemma norm_token_spec absolute size names st tok :
  Z.of_nat size < u64_mod -> norm_at absolute size names st -> SLASH ∉ tok ->
  token_done absolute size (walk absolute names tok) (norm_token absolute tok st).
Proof.
  intros Hsize (u & d & Hrep) Hin. destruct (decide (tok = DOTDOT)) as [->|H3]; [by eapply norm_dotdot|].
  destruct (decide (tok = [] \/ tok = [DOT])) as [H12|H12].
  - rewrite walk_skip by done. unfold norm_token. rewrite bool_decide_eq_false_2 by done.
    replace (bool_decide (tok = []) || bool_decide (tok = [DOT])) with true; [by exists u, d|].
    symmetry. rewrite orb_true_iff, !bool_decide_eq_true. done.
  - assert (plain tok) as Hp by (unfold plain; tauto). rewrite walk_plain by done. by eapply norm_copy.
Qed.

(** ** All tokens *)

Definition form (absolute : bool) (names : list str) : str := slash_if absolute ++ join names.

Lemma norm_at_fits absolute size names st : norm_at absolute size names st -> (length (form absolute names) < size)%nat.
Proof. intros (u & d & [_ _ _ _ _ _ Ho _ _ Hf _]). unfold form. lia. Qed.

Lemma norm_loop_spec absolute size fuel : forall path names st,
  Z.of_nat size < u64_mod -> norm_at absolute size names st -> (length path < fuel)%nat ->
  let after k := foldl (walk absolute) names (take k (split path)) in
  match norm_loop fuel absolute path st with
  | None => False
  | Some None => exists k, (size <= length (form absolute (after k)))%nat
  | Some (Some st') =>
      norm_at absolute size (foldl (walk absolute) names (split path)) st' /\
      forall k, (length (form absolute (after k)) < size)%nat
  end.
Proof.
  induction fuel as [|fuel IH]; intros path names st Hsize Hat Hfuel after; [lia|].
  cbn [norm_loop]. destruct (find_next_slash path) as [tok end_] eqn:E. unfold after.
  destruct (find_next_slash_split _ _ _ E) as (-> & Hin & Hlen).
  pose proof (norm_token_spec absolute size names st tok Hsize Hat Hin) as Htok.
  pose proof (norm_at_fits _ _ _ _ Hat) as H0.
  destruct (norm_token absolute tok st) as [[st'|]|]; cbn [mbind option_bind]; [|by exists 1%nat|done].
  pose proof (norm_at_fits _ _ _ _ Htok) as H1.
  destruct end_ as [|c rest].
  { split; [done|]. intros [|k]; [done|]. cbn [take]. rewrite take_nil. done. }
  specialize (IH rest (walk absolute names tok) st' Hsize Htok ltac:(cbn in Hlen; lia)). cbv zeta in IH.
  destruct (norm_loop fuel absolute rest st') as [[st''|]|]; [| |done].
  - destruct IH as [IH1 IH2]. split; [done|]. intros [|k]; [done|]. apply IH2.
  - destruct IH as [k Hk]. by exists (S k).
Qed.

(** *** The normal form is not longer than the path *)

Definition weight (names : list str) : nat := sum_list_with (fun tok => S (length tok)) names.

Lemma weight_join names : (length (join names) + if bool_decide (names = []) then 0 else 1)%nat = weight names.
Proof.
  induction names as [|t names IH]; [done|]. rewrite bool_decide_eq_false_2 by done.
  destruct names as [|t' names]; [cbn; lia|]. rewrite bool_decide_eq_false_2 in IH by done.
  change (length (t ++ SLASH :: join (t' :: names)) + 1 = S (length t) + weight (t' :: names))%nat.
  rewrite <- IH, length_app. cbn [length]. lia.
Qed.

Lemma weight_split path : weight (split path) = S (length path).
Proof.
  induction path as [|c path IH]; [done|]. cbn [split]. destruct (c =? SLASH).
  { change (S (weight (split path)) = S (S (length path))). lia. }
  destruct (split path) as [|t ts]; cbn in *; lia.
Qed.

Lemma weight_app x y : weight (x ++ y) = (weight x + weight y)%nat.
Proof. apply sum_list_with_app. Qed.

Lemma weight_take k names : (weight (take k names) <= weight names)%nat.
Proof. rewrite <- (take_drop k names) at 2. rewrite weight_app. lia. Qed.

Lemma weight_walk absolute names tok : (weight (walk absolute names tok) <= weight names + S (length tok))%nat.
Proof.
  unfold walk. repeat case_decide; subst; rewrite ?weight_app; cbn; try lia.
  destruct names as [|x names _] using rev_ind; [destruct absolute; cbn; lia|]. rewrite last_snoc.
  case_decide; [rewrite !weight_app; cbn; lia|]. rewrite removelast_last, weight_app. lia.
Qed.

Lemma weight_foldl absolute toks : forall names,
  (weight (foldl (walk absolute) names toks) <= weight names + weight toks)%nat.
Proof.
  induction toks as [|t toks IH]; intros names; cbn [foldl]; [lia|].
  etransitivity; [apply IH|]. pose proof (weight_walk absolute names t).
  change (weight (t :: toks)) with (S (length t) + weight toks)%nat. lia.
Qed.

Lemma prefix_form_length path k : (length (prefix_form path k) <= length path)%nat.
Proof.
  assert (Hrel : forall a p j, (length (join (foldl (walk a) [] (take j (split p)))) <= length p)%nat).
  { intros a p j. pose proof (weight_foldl a (take j (split p)) []) as H1. pose proof (weight_take j (split p)) as H2.
    rewrite weight_split in H2. pose proof (weight_join (foldl (walk a) [] (take j (split p)))) as H3.
    case_bool_decide as Hnil; [rewrite Hnil; cbn; lia|]. cbn in H1. lia. }
  unfold prefix_form, is_absolute. case_bool_decide as Ha; [|apply Hrel].
  destruct path as [|c path]; [done|]. cbn in Ha. injection Ha as ->.
  destruct k as [|k]; [cbn; lia|]. cbn [split length]. rewrite Z.eqb_refl. cbn [take foldl].
  rewrite walk_skip by auto. rewrite length_app. specialize (Hrel true path k). cbn [slash_if length]. lia.
Qed.

Lemma fits_path path size : (length path < size)%nat -> fits path size.
Proof. intros H k. pose proof (prefix_form_length path k). lia. Qed.

Lemma prefix_form_all path : prefix_form path (length (split path)) = normalize path.
Proof. unfold prefix_form, normalize, names. by rewrite firstn_all. Qed.

(** ** Normal forms *)

(** ["."], [""] and, behind another name or in an absolute path, [".."] do not occur. *)
Definition normal (absolute : bool) (names : list str) : Prop :=
  exists u d, names = u ++ d /\ Forall (eq DOTDOT) u /\ (absolute = true -> u = []) /\ Forall plain d.

Lemma walk_normal absolute names tok : SLASH ∉ tok -> normal absolute names -> normal absolute (walk absolute names tok).
Proof.
  intros Hin (u & d & -> & Hu & Ha & Hd). destruct (decide (tok = DOTDOT)) as [->|H3].
  - destruct d as [|t d _] using rev_ind.
    + rewrite app_nil_r. destruct absolute.
      { rewrite Ha by done. by exists [], []. }
      rewrite walk_up_root by done. exists (u ++ [DOTDOT]), []. rewrite app_nil_r, Forall_app. split_and!; auto. done.
    + apply Forall_app in Hd as [Hd [Ht _]%Forall_cons]. rewrite app_assoc, walk_up_plain by done. by exists u, d.
  - destruct (decide (tok = [] \/ tok = [DOT])) as [H12|H12]; [rewrite walk_skip by done; by exists u, d|].
    assert (plain tok) as Hp by (unfold plain; tauto). rewrite walk_plain by done.
    exists u, (d ++ [tok]). rewrite app_assoc, Forall_app. split_and!; auto.
Qed.

Lemma foldl_walk_normal absolute toks : Forall (fun tok => SLASH ∉ tok) toks -> forall names,
  normal absolute names -> normal absolute (foldl (walk absolute) names toks).
Proof. induction 1 as [|t toks Ht _ IH]; intros names Hn; [done|]. cbn. by apply IH, walk_normal. Qed.

Lemma names_normal path : normal (is_absolute path) (names path).
Proof. apply foldl_walk_normal; [apply split_no_slash|]. by exists [], []. Qed.

Lemma walk_same absolute names : normal absolute names -> foldl (walk absolute) [] names = names.
Proof.
  intros (u & d & -> & Hu & Ha & Hd). induction d as [|t d IH] using rev_ind.
  - rewrite app_nil_r. destruct absolute; [by rewrite Ha|]. clear Ha.
    induction u as [|x u IHu] using rev_ind; [done|]. apply Forall_app in Hu as [Hu [<- _]%Forall_cons].
    rewrite foldl_snoc, IHu by done. by apply walk_up_root.
  - apply Forall_app in Hd as [Hd [Ht _]%Forall_cons]. rewrite app_assoc, foldl_snoc, IH by done. by apply walk_plain.
Qed.

Lemma normal_tokens absolute names : normal absolute names -> Forall (fun tok => SLASH ∉ tok /\ tok <> []) names.
Proof.
  intros (u & d & -> & Hu & _ & Hd). apply Forall_app. split; eapply Forall_impl; try done.
  - intros ? <-. split; [|done]. unfold DOTDOT. rewrite !not_elem_of_cons. split_and!; [done|done|apply not_elem_of_nil].
  - intros t (? & _ & _ & ?). done.
Qed.

Lemma names_form absolute ns : normal absolute ns ->
  is_absolute (form absolute ns) = absolute /\ names (form absolute ns) = ns.
Proof.
  intros Hn. pose proof (normal_tokens _ _ Hn) as Ht.
  assert (Ha : is_absolute (form absolute ns) = absolute).
  { unfold is_absolute, form. destruct absolute; [done|]. apply bool_decide_eq_false_2. cbn.
    destruct ns as [|[|c t] ns]; [done|by apply Forall_cons in Ht as [[_ ?] _]|]. apply Forall_cons in Ht as [[Hs _] _].
    rewrite not_elem_of_cons in Hs. destruct ns; cbn; naive_solver. }
  split; [done|]. unfold names. rewrite Ha.
  assert (Hsplit : foldl (walk absolute) [] (split (join ns)) = ns).
  { destruct ns as [|t ns]; [cbn; by apply walk_skip; left|]. rewrite split_join; [by apply walk_same|done|].
    eapply Forall_impl; [exact Ht|]. naive_solver. }
  unfold form. destruct absolute; [|done]. cbn [slash_if app split]. rewrite Z.eqb_refl. cbn [foldl].
  by rewrite walk_skip by auto.
Qed.

Lemma normalize_idem path : normalize (normalize path) = normalize path.
Proof.
  destruct (names_form _ _ (names_normal path)) as [Ha Hn]. unfold normalize at 1.
  change (normalize path) with (form (is_absolute path) (names path)). by rewrite Ha, Hn.
Qed.

(** ** [get_norm_path] *)

Definition norm_result (path : str) (size : nat) (r : option (option (nat * str))) : Prop :=
  match r with
  | None => False
  | Some None => ~ fits path size
  | Some (Some (n, buf)) =>
      fits path size /\ n = S (length (normalize path)) /\ length buf = size /\ take n buf = normalize path ++ [0]
  end.

Lemma prefix_form_tail path k :
  exists k', prefix_form path k' =
    form (is_absolute path) (foldl (walk (is_absolute path)) [] (take k (split (drop (length (slash_if (is_absolute path))) path)))).
Proof.
  unfold prefix_form, form, is_absolute. case_bool_decide as Ha; [|by exists k].
  destruct path as [|c path]; [done|]. injection Ha as ->. exists (S k). cbn [split slash_if length drop].
  rewrite Z.eqb_refl. cbn [take foldl]. by rewrite walk_skip by auto.
Qed.

Lemma prefix_form_head path k :
  exists k', prefix_form path k =
    form (is_absolute path) (foldl (walk (is_absolute path)) [] (take k' (split (drop (length (slash_if (is_absolute path))) path)))).
Proof.
  unfold prefix_form, form, is_absolute. case_bool_decide as Ha; [|by exists k].
  destruct path as [|c path]; [done|]. injection Ha as ->. exists (pred k). cbn [split slash_if length drop].
  rewrite Z.eqb_refl. destruct k; cbn [take foldl pred]; [done|]. by rewrite walk_skip by auto.
Qed.

Lemma names_tail path :
  names path = foldl (walk (is_absolute path)) [] (split (drop (length (slash_if (is_absolute path))) path)).
Proof.
  unfold names, is_absolute. case_bool_decide as Ha; [|done].
  destruct path as [|c path]; [done|]. injection Ha as ->. cbn [split slash_if length drop].
  rewrite Z.eqb_refl. cbn [foldl]. by rewrite walk_skip by auto.
Qed.

Lemma norm_start absolute buf :
  (length (slash_if absolute) < length buf)%nat ->
  exists buf1, put buf 0 (slash_if absolute) = Some buf1 /\
    norm_at absolute (length buf) [] (Norm buf1 (Z.of_nat (length buf) - 1 - Z.of_nat (length (slash_if absolute))) 0
                                           (length (slash_if absolute)) false).
Proof.
  intros Hlen. destruct (put_spec buf 0 (slash_if absolute)) as (buf1 & -> & Hl & Ht); [lia|].
  exists buf1. split; [done|]. exists [], [].
  split; cbn; rewrite ?app_nil_r, ?Nat.add_0_r; try done; constructor.
Qed.

Lemma get_norm_path_spec path buf :
  Z.of_nat (length buf) < u64_mod -> norm_result path (length buf) (get_norm_path path buf).
Proof.
  intros Hsize. unfold get_norm_path. fold (is_absolute path). set (a := is_absolute path).
  destruct (Z.eqb_spec (Z.of_nat (length buf)) 0) as [Hz|Hz]; [intros Hf; specialize (Hf 0%nat); lia|].
  destruct (a && _) eqn:E1.
  { apply andb_true_iff in E1 as [Ea E1]. breflect. intros Hf. specialize (Hf 0%nat). unfold prefix_form in Hf.
    fold a in Hf. rewrite Ea in Hf. cbn in Hf. lia. }
  destruct (norm_start a buf) as (buf1 & -> & Hat); [destruct a; cbn in *; breflect; lia|]. cbn [mbind option_bind].
  pose proof (norm_loop_spec a (length buf) (S (length path)) (drop (length (slash_if a)) path) [] _ Hsize Hat
                ltac:(rewrite length_drop; lia)) as Hloop. cbv zeta in Hloop.
  destruct norm_loop as [[st|]|]; cbn [mbind option_bind]; [| |done].
  - destruct Hloop as [Hst Hfit]. unfold a in Hst. rewrite <- names_tail in Hst.
    destruct Hst as (u & d & [_ _ _ _ Hl _ Ho Hb _ Hf _]).
    change (slash_if (is_absolute path) ++ join (names path)) with (normalize path) in Ho, Hb.
    destruct (put_spec (n_buf st) (n_ret_size st + n_offset st) [0]) as (buf2 & -> & Hl2 & Ht2); [cbn; lia|].
    cbn [mbind option_bind]. pose proof (prefix_form_length path (length (split path))) as Hshort.
    rewrite prefix_form_all in Hshort. destruct (Nat.leb_spec (n_ret_size st + n_offset st + 1) (length path + 1)); [|lia].
    rewrite Hb in Ht2. cbn [length] in Ht2. split_and!; [|lia|congruence|done].
    intros k. destruct (prefix_form_head path k) as [k' ->]. apply Hfit.
  - destruct Hloop as [k Hk]. intros Hf. destruct (prefix_form_tail path k) as [k' E]. specialize (Hf k').
    rewrite E in Hf. unfold a in Hk. lia.
Qed.

(** C11: [get_norm_path] computes the reference normal form: it never accesses the buffer outside
    its bounds and its final assertion holds; it fails exactly if the normal form of some prefix
    of the path does not fit, which cannot happen with a buffer for the path itself; otherwise
    the buffer holds the normal form of the path, its size is returned, and of the names in it
    none is empty or ["."], and [".."] only occurs at the start of a relative path. *)
Theorem get_norm_path_correct path buf :
  Z.of_nat (length buf) < u64_mod ->
  norm_result path (length buf) (get_norm_path path buf) /\
  ((length path < length buf)%nat -> fits path (length buf)) /\
  normal (is_absolute path) (names path).
Proof. intros H. split_and!; [by apply get_norm_path_spec|apply fits_path|apply names_normal]. Qed.

(** C22: the output of [get_norm_path] is a fixed point: given to [get_norm_path] with any buffer
    that can hold it, it comes out unchanged. *)
Theorem get_norm_path_idempotent path buf n buf' buf2 :
  Z.of_nat (length buf) < u64_mod -> Z.of_nat (length buf2) < u64_mod ->
  get_norm_path path buf = Some (Some (n, buf')) -> (n <= length buf2)%nat ->
  exists buf3, get_norm_path (take (n - 1) buf') buf2 = Some (Some (n, buf3)) /\ take n buf3 = take n buf'.
Proof.
  intros H1 H2 Hget Hn. pose proof (get_norm_path_spec path buf H1) as Hspec. rewrite Hget in Hspec.
  destruct Hspec as (_ & -> & Hl & Ht). rewrite Ht.
  assert (take (S (length (normalize path)) - 1) buf' = normalize path) as ->.
  { replace (S (length (normalize path)) - 1)%nat with (length (normalize path)) by lia.
    apply (f_equal (take (length (normalize path)))) in Ht. rewrite take_take, Nat.min_l, take_app_length in Ht by lia. done. }
  pose proof (get_norm_path_spec (normalize path) buf2 H2) as Hspec.
  destruct (get_norm_path (normalize path) buf2) as [[[m buf3]|]|]; cbn in Hspec; [| |done].
  - destruct Hspec as (_ & -> & _ & Ht3). rewrite normalize_idem in *. eauto.
  - destruct Hspec. apply fits_path. lia.
Qed.

Lemma get_norm_path_correct_witness :
  (* "/a/../../b//./c" *)
  let path := [47; 97; 47; 46; 46; 47; 46; 46; 47; 98; 47; 47; 46; 47; 99] in
  get_norm_path path (replicate 20 1) = Some (Some (5%nat, [47; 98; 47; 99; 0] ++ replicate 15 1)) /\
  norm_result path 20 (get_norm_path path (replicate 20 1)) /\ fits path 20.
Proof.
  split; [by vm_compute|]. destruct (get_norm_path_correct
    [47; 97; 47; 46; 46; 47; 46; 46; 47; 98; 47; 47; 46; 47; 99] (replicate 20 1)) as (H1 & H2 & _); [by vm_compute|].
  split; [exact H1|apply H2; cbn; lia].
Defined.

Lemma get_norm_path_idempotent_witness :
  (* "../x/.././../y" *)
  exists buf3, get_norm_path [46; 46; 47; 46; 46; 47; 121] (replicate 8 0) = Some (Some (8%nat, buf3)) /\
    take 8 buf3 = [46; 46; 47; 46; 46; 47; 121; 0].
Proof.
  refine (get_norm_path_idempotent [46; 46; 47; 120; 47; 46; 46; 47; 46; 47; 46; 46; 47; 121] (replicate 15 0) 8
    ([46; 46; 47; 46; 46; 47; 121] ++ replicate 8 0) (replicate 8 0) _ _ _ _); [by vm_compute..|cbn; lia].
Defined.

(** A buffer that holds the result but not the intermediate path is refused: "abc/.." needs no
    byte besides the final zero. *)
Example get_norm_path_too_small : get_norm_path [97; 98; 99; 47; 46; 46] [1; 1] = Some None.
Proof. by vm_compute. Qed.

(** ** [get_base_name] *)

Lemma base_name_loop_spec fuel : forall path, (length path < fuel)%nat -> base_name_loop fuel path = last (split path).
Proof.
  induction fuel as [|fuel IH]; intros path Hfuel; [lia|]. cbn [base_name_loop].
  destruct (find_next_slash path) as [tok end_] eqn:E. destruct (find_next_slash_split _ _ _ E) as (-> & _ & Hlen).
  destruct end_ as [|c rest]; [done|]. rewrite IH by (cbn in Hlen; lia).
  destruct (split rest) eqn:Es; [|done]. pose proof (weight_split rest) as Hw. rewrite Es in Hw. done.
Qed.

(** [get_base_name] returns the part after the last ['/'], if there is room for it. *)
Lemma get_base_name_spec path buf :
  exists tok, last (split path) = Some tok /\
  if decide (length tok < length buf)%nat then
    exists buf', get_base_name path buf = Some (Some (S (length tok), buf')) /\ take (S (length tok)) buf' = tok ++ [0]
  else get_base_name path buf = Some None.
Proof.
  destruct (last (split path)) as [tok|] eqn:Hlast.
  2:{ apply last_None in Hlast. pose proof (weight_split path) as Hw. rewrite Hlast in Hw. done. }
  exists tok. split; [done|]. unfold get_base_name. rewrite base_name_loop_spec, Hlast by lia. cbn [mbind option_bind].
  destruct (Nat.ltb_spec (length buf) (length tok + 1)); case_decide; try lia; [done|].
  destruct (put_spec buf 0 (tok ++ [0])) as (buf' & -> & _ & Ht); [rewrite length_app; cbn; lia|].
  cbn [mbind option_bind]. rewrite length_app in Ht. cbn in Ht. rewrite Nat.add_1_r in *. eauto.
Qed.

(** [is_dot_or_dotdot] recognises the names that [get_norm_path] does not copy. *)
Lemma is_dot_or_dotdot_spec name : 0 ∉ name -> is_dot_or_dotdot (name ++ [0]) = true <-> name = [DOT] \/ name = DOTDOT.
Proof.
  intros H0. unfold is_dot_or_dotdot, DOTDOT. split; [|by intros [-> | ->]].
  destruct name as [|a [|b [|c name]]]; cbn; rewrite ?not_elem_of_cons in H0; try done;
    rewrite orb_true_iff, !andb_true_iff, !Z.eqb_eq; intros [?|?]; naive_solver.
Qed.
