(* ===== verification/Futex.v ===== *)
(** * Futexes: [libos/src/sys/libos_futex.c]

    The futexes of one process, used by any number of threads.  The state holds the structures
    on the heap with their locks and reference counts; a thread runs a program whose steps are
    the acquisition or release of a spinlock, the code between two such steps, a wait for the
    thread's event and a question to the host.  [None] in a step is a failed assertion, a
    negative reference count or an access to freed memory; the assertions on the locks are those
    of a debug build, where [spinlock_is_locked] also compares the owner. *)

From stdpp Require Import functions.
From S2P Require Import Prelude OrdSeq.

Definition ETIMEDOUT : Z := 110.
Definition EFAULT : Z := 14.
Definition ESRCH : Z := 3.
Definition ERESTARTSYS : Z := 512.

(** ** Data *)

(** A waiter is a local variable of [futex_wait]; it is named by its thread.  [on_list] says
    whether its list pointers are set. *)
Record futex_waiter : Type := Waiter {
  w_bitset : Z;
  w_futex : Z;
  w_on_list : bool;
}.

Record libos_futex : Type := Futex {
  uaddr : Z;
  waiters : list Z;
  in_tree : bool;
  f_lock : option Z;
  ref_count : Z;
}.

(** [words] are the 32-bit words of the user's memory and [user_ok] the answers of
    [is_user_memory_readable] and [is_user_memory_writable]; [queued] are the threads whose
    [wake_queue.next] is set, [events] those whose [scheduler_event] is signalled;
    [thread_refs] counts references to a thread besides the one of its existence. *)
Record fstate : Type := FState {
  heap : gmap Z libos_futex;
  next_ptr : Z;
  g_futex_tree : list (Z * Z);
  g_futex_tree_lock : option Z;
  wnodes : gmap Z futex_waiter;
  words : Z -> Z;
  user_ok : Z -> Z -> bool -> bool;
  queued : gset Z;
  events : gset Z;
  thread_refs : Z -> Z;
  robust_list : gmap Z Z;
}.

Definition set_heap (h : gmap Z libos_futex) (s : fstate) : fstate :=
  FState h (next_ptr s) (g_futex_tree s) (g_futex_tree_lock s) (wnodes s) (words s) (user_ok s) (queued s) (events s)
         (thread_refs s) (robust_list s).
Definition set_tree (t : list (Z * Z)) (s : fstate) : fstate :=
  FState (heap s) (next_ptr s) t (g_futex_tree_lock s) (wnodes s) (words s) (user_ok s) (queued s) (events s)
         (thread_refs s) (robust_list s).
Definition set_tree_lock (o : option Z) (s : fstate) : fstate :=
  FState (heap s) (next_ptr s) (g_futex_tree s) o (wnodes s) (words s) (user_ok s) (queued s) (events s)
         (thread_refs s) (robust_list s).
Definition set_wnodes (w : gmap Z futex_waiter) (s : fstate) : fstate :=
  FState (heap s) (next_ptr s) (g_futex_tree s) (g_futex_tree_lock s) w (words s) (user_ok s) (queued s) (events s)
         (thread_refs s) (robust_list s).
Definition set_words (w : Z -> Z) (s : fstate) : fstate :=
  FState (heap s) (next_ptr s) (g_futex_tree s) (g_futex_tree_lock s) (wnodes s) w (user_ok s) (queued s) (events s)
         (thread_refs s) (robust_list s).
Definition set_user_ok (u : Z -> Z -> bool -> bool) (s : fstate) : fstate :=
  FState (heap s) (next_ptr s) (g_futex_tree s) (g_futex_tree_lock s) (wnodes s) (words s) u (queued s) (events s)
         (thread_refs s) (robust_list s).
Definition set_queued (q : gset Z) (s : fstate) : fstate :=
  FState (heap s) (next_ptr s) (g_futex_tree s) (g_futex_tree_lock s) (wnodes s) (words s) (user_ok s) q (events s)
         (thread_refs s) (robust_list s).
Definition set_events (e : gset Z) (s : fstate) : fstate :=
  FState (heap s) (next_ptr s) (g_futex_tree s) (g_futex_tree_lock s) (wnodes s) (words s) (user_ok s) (queued s) e
         (thread_refs s) (robust_list s).
Definition set_thread_refs (r : Z -> Z) (s : fstate) : fstate :=
  FState (heap s) (next_ptr s) (g_futex_tree s) (g_futex_tree_lock s) (wnodes s) (words s) (user_ok s) (queued s) (events s)
         r (robust_list s).
Definition set_robust_list (r : gmap Z Z) (s : fstate) : fstate :=
  FState (heap s) (next_ptr s) (g_futex_tree s) (g_futex_tree_lock s) (wnodes s) (words s) (user_ok s) (queued s) (events s)
         (thread_refs s) r.

Definition with_waiters (l : list Z) (x : libos_futex) : libos_futex :=
  Futex (uaddr x) l (in_tree x) (f_lock x) (ref_count x).
Definition with_in_tree (b : bool) (x : libos_futex) : libos_futex :=
  Futex (uaddr x) (waiters x) b (f_lock x) (ref_count x).
Definition with_lock (o : option Z) (x : libos_futex) : libos_futex :=
  Futex (uaddr x) (waiters x) (in_tree x) o (ref_count x).
Definition with_ref (n : Z) (x : libos_futex) : libos_futex :=
  Futex (uaddr x) (waiters x) (in_tree x) (f_lock x) n.

(** ** Threads *)

Inductive lock_id : Type :=
  | TreeLock
  | FutexLock (f : Z).

(** [Sleep] is [thread_wait], with or without a timeout. *)
Inductive prog (A : Type) : Type :=
  | Ret (a : A)
  | Lock (l : lock_id) (k : prog A)
  | Unlock (l : lock_id) (k : prog A)
  | Atomic {B : Type} (m : SM fstate B) (k : B -> prog A)
  | Sleep (timed : bool) (k : Z -> prog A)
  | Host (k : Z -> prog A).
Arguments Ret {A} _.
Arguments Lock {A} _ _.
Arguments Unlock {A} _ _.
Arguments Atomic {A B} _ _.
Arguments Sleep {A} _ _.
Arguments Host {A} _.

Fixpoint prog_bind {A B} (f : A -> prog B) (p : prog A) : prog B :=
  match p with
  | Ret a => f a
  | Lock l k => Lock l (prog_bind f k)
  | Unlock l k => Unlock l (prog_bind f k)
  | Atomic m k => Atomic m (fun b => prog_bind f (k b))
  | Sleep timed k => Sleep timed (fun r => prog_bind f (k r))
  | Host k => Host (fun r => prog_bind f (k r))
  end.
#[global] Instance prog_mret : MRet prog := @Ret.
#[global] Instance prog_mbind : MBind prog := @prog_bind.

Definition spinlock_lock (l : lock_id) : prog unit := Lock l (Ret ()).
Definition spinlock_unlock (l : lock_id) : prog unit := Unlock l (Ret ()).
Definition atomic {A} (m : SM fstate A) : prog A := Atomic m Ret.
Definition thread_wait (timed : bool) : prog Z := Sleep timed Ret.
Definition host : prog Z := Host Ret.

(** Whether the thread [me] holds a lock. *)
Definition spinlock_is_locked (me : Z) (l : lock_id) (s : fstate) : bool :=
  match l with
  | TreeLock => bool_decide (g_futex_tree_lock s = Some me)
  | FutexLock f => bool_decide ((f_lock <$> heap s !! f) = Some (Some me))
  end.

Definition assert_locked (me : Z) (l : lock_id) : SM fstate unit :=
  fun s => if spinlock_is_locked me l s then Some ((), s) else None.

(** ** Memory *)

Definition deref (f : Z) : SM fstate libos_futex := fun s => match heap s !! f with Some x => Some (x, s) | None => None end.

Definition store (f : Z) (x : libos_futex) : SM fstate unit := sm_modify (fun s => set_heap (<[f := x]> (heap s)) s).

Definition waiter_of (w : Z) : SM fstate futex_waiter := fun s => match wnodes s !! w with Some n => Some (n, s) | None => None end.

Definition set_waiter (w : Z) (n : futex_waiter) : SM fstate unit :=
  sm_modify (fun s => set_wnodes (<[w := n]> (wnodes s)) s).

Definition get_thread (t : Z) : SM fstate unit :=
  sm_modify (fun s => set_thread_refs (<[t := thread_refs s t + 1]> (thread_refs s)) s).

Definition put_thread (t : Z) : SM fstate unit := fun s =>
  if thread_refs s t <=? 0 then None else Some ((), set_thread_refs (<[t := thread_refs s t - 1]> (thread_refs s)) s).

(** ** Lists of waiters: [list.h] on the lists in the futexes *)

Definition LISTP_ADD_TAIL (w f : Z) : SM fstate unit :=
  x ← deref f;
  n ← waiter_of w;
  store f (with_waiters (waiters x ++ [w]) x);;
  set_waiter w (Waiter (w_bitset n) (w_futex n) true).

Definition LISTP_DEL_INIT (w f : Z) : SM fstate unit :=
  x ← deref f;
  n ← waiter_of w;
  (if bool_decide (w ∈ waiters x) then mret () else sm_bug);;
  store f (with_waiters (filter (fun y => y <> w) (waiters x)) x);;
  set_waiter w (Waiter (w_bitset n) (w_futex n) false).

Definition LISTP_EMPTY (x : libos_futex) : bool := match waiters x with [] => true | _ => false end.

(** The element after [w] in a circular list. *)
Fixpoint succ_in (first : Z) (l : list Z) (w : Z) : option Z :=
  match l with
  | [] => None
  | y :: l' => if y =? w then Some (match l' with z :: _ => z | [] => first end) else succ_in first l' w
  end.

Definition circular_next (l : list Z) (w : Z) : option Z :=
  match l with [] => None | first :: _ => succ_in first l w end.

(** [w->list.next], which must not be used when [w] is on no list. *)
Definition list_next (w : Z) : SM fstate Z :=
  n ← waiter_of w;
  x ← deref (w_futex n);
  match circular_next (waiters x) w with Some y => mret y | None => sm_bug end.

(** [LISTP_FOR_EACH_ENTRY_SAFE], with the variables of the body in [acc]; the body says whether
    to go on. *)
Fixpoint for_each_loop {A} (fuel : nat) (f : Z) (body : A -> Z -> SM fstate (bool * A)) (acc : A)
    (cursor tmp : Z) (first_iter : bool) : SM fstate A :=
  match fuel with
  | O => sm_bug
  | S fuel' =>
      x ← deref f;
      match waiters x with
      | [] => mret acc
      | first :: _ =>
          if first_iter || negb (cursor =? first) then
            '(go, acc') ← body acc cursor;
            if go : bool then
              x' ← deref f;
              let first_iter' := first_iter && negb (tmp =? cursor) && bool_decide (head (waiters x') = Some tmp) in
              if negb (tmp =? cursor) then
                tmp' ← list_next tmp;
                for_each_loop fuel' f body acc' tmp tmp' first_iter'
              else for_each_loop fuel' f body acc' cursor tmp first_iter'
            else mret acc'
          else mret acc
      end
  end.

Definition LISTP_FOR_EACH_ENTRY_SAFE {A} (fuel : nat) (f : Z) (body : A -> Z -> SM fstate (bool * A)) (acc : A) : SM fstate A :=
  x ← deref f;
  match waiters x with
  | [] => mret acc
  | cursor :: _ => tmp ← list_next cursor; for_each_loop fuel f body acc cursor tmp true
  end.

(** ** References and the tree *)

Definition get_futex (f : Z) : SM fstate unit := x ← deref f; store f (with_ref (ref_count x + 1) x).

Definition put_futex (f : Z) : SM fstate unit :=
  x ← deref f;
  let n := ref_count x - 1 in
  if n <? 0 then sm_bug
  else if n =? 0 then sm_modify (fun s => set_heap (delete f (heap s)) s)
  else store f (with_ref n x).

(** A node of the tree with the address that [futex_tree_cmp] reads through it. *)
Definition futex_tree_cmp (node_a node_b : Z * Z) : bool := fst node_a <=? fst node_b.

(** [avl_tree_find]: the element that compares equal. *)
Definition tree_find (a : Z) (l : list (Z * Z)) : option (Z * Z) :=
  List.find (fun node => futex_tree_cmp (a, 0) node && futex_tree_cmp node (a, 0)) l.

Definition cmp_futexes (futex1 futex2 : Z) : SM fstate Z :=
  x1 ← deref futex1;
  x2 ← deref futex2;
  mret (if uaddr x1 <? uaddr x2 then -1 else if uaddr x1 =? uaddr x2 then 0 else 1).

Section thread.
Variable me : Z.

Definition enqueue_futex (f : Z) : SM fstate unit :=
  assert_locked me TreeLock;;
  get_futex f;;
  x ← deref f;
  sm_modify (fun s => set_tree (seq_insert (futex_tree_cmp (uaddr x, f)) (uaddr x, f) (g_futex_tree s)) s);;
  store f (with_in_tree true x).

Definition check_dequeue_futex (f : Z) : SM fstate bool :=
  assert_locked me (FutexLock f);;
  x ← deref f;
  mret (LISTP_EMPTY x && in_tree x).

Definition _maybe_dequeue_futex (f : Z) : SM fstate unit :=
  assert_locked me (FutexLock f);;
  assert_locked me TreeLock;;
  needed ← check_dequeue_futex f;
  if needed : bool then
    sm_modify (fun s => set_tree (filter (fun node => snd node <> f) (g_futex_tree s)) s);;
    x ← deref f;
    store f (with_in_tree false x);;
    put_futex f
  else mret ().

Definition maybe_dequeue_futex (f : Z) : prog unit :=
  spinlock_lock TreeLock;;
  spinlock_lock (FutexLock f);;
  atomic (_maybe_dequeue_futex f);;
  spinlock_unlock (FutexLock f);;
  spinlock_unlock TreeLock.

Definition lock_two_futexes (futex1 futex2 : option Z) : prog unit :=
  match futex1, futex2 with
  | None, None => mret ()
  | Some f1, None => spinlock_lock (FutexLock f1)
  | None, Some f2 => spinlock_lock (FutexLock f2)
  | Some f1, Some f2 =>
      cmp ← atomic (cmp_futexes f1 f2);
      if cmp <? 0 then spinlock_lock (FutexLock f1);; spinlock_lock (FutexLock f2)
      else if cmp =? 0 then spinlock_lock (FutexLock f1)
      else spinlock_lock (FutexLock f2);; spinlock_lock (FutexLock f1)
  end.

Definition unlock_two_futexes (futex1 futex2 : option Z) : prog unit :=
  match futex1, futex2 with
  | None, None => mret ()
  | Some f1, None => spinlock_unlock (FutexLock f1)
  | None, Some f2 => spinlock_unlock (FutexLock f2)
  | Some f1, Some f2 =>
      cmp ← atomic (cmp_futexes f1 f2);
      if negb (cmp =? 0) then spinlock_unlock (FutexLock f1);; spinlock_unlock (FutexLock f2)
      else spinlock_unlock (FutexLock f1)
  end.

Definition when {A} (o : option A) (m : A -> SM fstate unit) : SM fstate unit :=
  match o with Some a => m a | None => mret () end.

Definition maybe_dequeue_two_futexes (futex1 futex2 : option Z) : prog unit :=
  spinlock_lock TreeLock;;
  lock_two_futexes futex1 futex2;;
  atomic (when futex1 _maybe_dequeue_futex;; when futex2 _maybe_dequeue_futex);;
  unlock_two_futexes futex1 futex2;;
  spinlock_unlock TreeLock.

Definition add_futex_waiter (f bitset : Z) : SM fstate unit :=
  assert_locked me (FutexLock f);;
  get_thread me;;
  get_futex f;;
  set_waiter me (Waiter bitset f false);;
  LISTP_ADD_TAIL me f.

(** Returns the thread of the waiter. *)
Definition remove_futex_waiter (w f : Z) : SM fstate Z :=
  assert_locked me (FutexLock f);;
  LISTP_DEL_INIT w f;;
  mret w.

Definition move_futex_waiter (w f1 f2 : Z) : SM fstate unit :=
  assert_locked me TreeLock;;
  assert_locked me (FutexLock f1);;
  assert_locked me (FutexLock f2);;
  LISTP_DEL_INIT w f1;;
  get_futex f2;;
  n ← waiter_of w;
  put_futex (w_futex n);;
  set_waiter w (Waiter (w_bitset n) f2 false);;
  LISTP_ADD_TAIL w f2.

(** After a successful [calloc]. *)
Definition create_new_futex (a : Z) : SM fstate Z := fun s =>
  Some (next_ptr s,
        FState (<[next_ptr s := Futex a [] false None 1]> (heap s)) (next_ptr s + 1) (g_futex_tree s) (g_futex_tree_lock s)
               (wnodes s) (words s) (user_ok s) (queued s) (events s) (thread_refs s) (robust_list s)).

Definition find_futex (a : Z) : SM fstate (option Z) :=
  assert_locked me TreeLock;;
  tree ← sm_gets g_futex_tree;
  match tree_find a tree with
  | None => mret None
  | Some node => get_futex (snd node);; mret (Some (snd node))
  end.

(** ** The wake queue: [libos_thread.h] *)

(** The queue is the list of its threads. *)
Definition add_thread_to_queue (queue : list Z) (t : Z) : SM fstate (list Z) :=
  q ← sm_gets queued;
  if bool_decide (t ∈ q) then mret queue
  else
    sm_modify (fun s => set_queued ({[t]} ∪ queued s) s);;
    get_thread t;;
    mret (t :: queue).

Definition unqueue (t : Z) : SM fstate unit := sm_modify (fun s => set_queued (queued s ∖ {[t]}) s).

Definition thread_wakeup (t : Z) : SM fstate unit := sm_modify (fun s => set_events ({[t]} ∪ events s) s).

Fixpoint wake_queue (queue : list Z) : prog unit :=
  match queue with
  | [] => mret ()
  | t :: queue' =>
      atomic (unqueue t);;
      atomic (thread_wakeup t;; put_thread t);;
      wake_queue queue'
  end.

Definition thread_prepare_wait : SM fstate unit := sm_modify (fun s => set_events (events s ∖ {[me]}) s).

(** ** [futex_wait] *)

(** The second search, with [g_futex_tree_lock] held again: the futex to use, and [tmp] if it
    was not needed. *)
Definition find_or_enqueue (a tmp : Z) : SM fstate (Z * option Z) :=
  found ← find_futex a;
  match found with
  | Some f => mret (f, Some tmp)
  | None => enqueue_futex tmp;; mret (tmp, None)
  end.

(** Leaves [g_futex_tree_lock] locked unless there is no memory. *)
Definition find_or_create_futex (a : Z) : prog (option (Z * option Z)) :=
  spinlock_lock TreeLock;;
  found ← atomic (find_futex a);
  match found with
  | Some f => mret (Some (f, None))
  | None =>
      spinlock_unlock TreeLock;;
      memory ← host;
      if memory =? 0 then mret None
      else
        tmp ← atomic (create_new_futex a);
        spinlock_lock TreeLock;;
        r ← atomic (find_or_enqueue a tmp);
        mret (Some r)
  end.

Definition load_word (a : Z) : SM fstate Z := sm_gets (fun s => words s a).

(** Whether the caller now waits on [f]; otherwise whether [f] may have to be dequeued. *)
Definition wait_enqueue (f a val bitset : Z) : SM fstate (bool * bool) :=
  value ← load_word a;
  if negb (value =? val) then
    needs_dequeue ← check_dequeue_futex f;
    mret (false, needs_dequeue)
  else
    thread_prepare_wait;;
    add_futex_waiter f bitset;;
    mret (true, false).

Definition current_futex : SM fstate Z :=
  n ← waiter_of me;
  get_futex (w_futex n);;
  mret (w_futex n).

(** The waiter is not used any more; returns the result of the call, the thread whose reference
    is to be dropped and whether [f] may have to be dequeued. *)
Definition wait_finish (f ret : Z) : SM fstate (Z * option Z * bool) :=
  n ← waiter_of me;
  r ← (if w_on_list n then
         thread ← remove_futex_waiter me f;
         mret (if (ret =? 0) || (ret =? - EINTR) then - ERESTARTSYS else ret, Some thread)
       else mret (if ret =? - EINTR then 0 else ret, None));
  put_futex (w_futex n);;
  sm_modify (fun s => set_wnodes (delete me (wnodes s)) s);;
  needs_dequeue ← check_dequeue_futex f;
  mret (fst r, snd r, needs_dequeue).

Definition prog_if (b : bool) (p : prog unit) : prog unit := if b then p else mret ().

Definition wait_out (f ret : Z) (thread tmp : option Z) (needs_dequeue : bool) : prog Z :=
  spinlock_unlock (FutexLock f);;
  prog_if needs_dequeue (maybe_dequeue_futex f);;
  atomic (when thread put_thread);;
  atomic (put_futex f);;
  atomic (when tmp put_futex);;
  mret ret.

Definition futex_wait (a val : Z) (timed : bool) (bitset : Z) : prog Z :=
  r ← find_or_create_futex a;
  match r with
  | None => mret (- ENOMEM)
  | Some (f, tmp) =>
      spinlock_lock (FutexLock f);;
      spinlock_unlock TreeLock;;
      '(waiting, needs_dequeue) ← atomic (wait_enqueue f a val bitset);
      if waiting : bool then
        spinlock_unlock (FutexLock f);;
        atomic (put_futex f);;
        ret ← thread_wait timed;
        spinlock_lock TreeLock;;
        f' ← atomic current_futex;
        spinlock_lock (FutexLock f');;
        spinlock_unlock TreeLock;;
        '(ret', thread, needs_dequeue') ← atomic (wait_finish f' ret);
        wait_out f' ret' thread tmp needs_dequeue'
      else wait_out f (- EAGAIN) None tmp needs_dequeue
  end.

(** ** [futex_wake] *)

(** Removes a waiter from its list and puts its thread into the queue. *)
Definition wake_waiter (f : Z) (queue : list Z) (w : Z) : SM fstate (list Z) :=
  thread ← remove_futex_waiter w f;
  queue' ← add_thread_to_queue queue thread;
  put_thread thread;;
  mret queue'.

Definition wake_body (f bitset to_wake : Z) (acc : Z * list Z) (w : Z) : SM fstate (bool * (Z * list Z)) :=
  let '(woken, queue) := acc in
  n ← waiter_of w;
  if negb (bitset =? 0) && (Z.land (w_bitset n) bitset =? 0) then mret (true, acc)
  else
    queue' ← wake_waiter f queue w;
    mret (negb (to_wake <=? woken + 1), (woken + 1, queue')).

Definition move_to_wake_queue (f bitset to_wake : Z) (queue : list Z) : SM fstate (Z * list Z) :=
  assert_locked me (FutexLock f);;
  x ← deref f;
  LISTP_FOR_EACH_ENTRY_SAFE (S (length (waiters x))) f (wake_body f bitset to_wake) (0, queue).

(** With [f]'s lock held: the number of woken threads, the queue, and whether [f] may have to be
    dequeued. *)
Definition wake_and_check (f bitset to_wake : Z) (queue : list Z) : SM fstate (Z * list Z * bool) :=
  r ← move_to_wake_queue f bitset to_wake queue;
  needs_dequeue ← check_dequeue_futex f;
  mret (r, needs_dequeue).

Definition futex_wake (a to_wake bitset : Z) : prog Z :=
  if bitset =? 0 then mret (- EINVAL)
  else
    spinlock_lock TreeLock;;
    found ← atomic (find_futex a);
    match found with
    | None => spinlock_unlock TreeLock;; mret 0
    | Some f =>
        spinlock_lock (FutexLock f);;
        spinlock_unlock TreeLock;;
        '(woken, queue, needs_dequeue) ← atomic (wake_and_check f bitset to_wake []);
        spinlock_unlock (FutexLock f);;
        prog_if needs_dequeue (maybe_dequeue_futex f);;
        wake_queue queue;;
        atomic (put_futex f);;
        mret woken
    end.

(** ** [futex_wake_op] *)

Definition s32 (x : Z) : Z := (x + 2 ^ 31) mod 2 ^ 32 - 2 ^ 31.

Definition wakeop_arg_extend (x : Z) : Z := if 2048 <=? x then s32 (Z.lor 4294963200 x) else x.

(** The fields of [val3]: [op], [cmp], [oparg] and [cmparg]. *)
Definition wakeop_fields (val3 : Z) : Z * Z * Z * Z :=
  let op := Z.land (Z.shiftr val3 28) 7 in
  let cmp := Z.land (Z.shiftr val3 24) 15 in
  let oparg := wakeop_arg_extend (Z.land (Z.shiftr val3 12) 4095) in
  let cmparg := wakeop_arg_extend (Z.land val3 4095) in
  let oparg' :=
    if negb (Z.land (Z.shiftr val3 28) 8 =? 0) then
      let shift := if (oparg <? 0) || (31 <? oparg) then Z.land oparg 31 else oparg in
      if shift =? 31 then -2147483648 else Z.shiftl 1 shift
    else oparg in
  (op, cmp, oparg', cmparg).

(** What is stored for the old value, if [op] is known. *)
Definition wakeop_apply (op oparg oldval : Z) : option Z :=
  if op =? 0 then Some (u32 oparg)
  else if op =? 1 then Some (u32 (oldval + oparg))
  else if op =? 2 then Some (Z.lor oldval (u32 oparg))
  else if op =? 3 then Some (Z.land oldval (u32 (Z.lnot oparg)))
  else if op =? 4 then Some (Z.lxor oldval (u32 oparg))
  else None.

Definition wakeop_compare (cmp oldval cmparg : Z) : option bool :=
  if cmp =? 0 then Some (oldval =? cmparg)
  else if cmp =? 1 then Some (negb (oldval =? cmparg))
  else if cmp =? 2 then Some (oldval <? cmparg)
  else if cmp =? 3 then Some (oldval <=? cmparg)
  else if cmp =? 4 then Some (cmparg <? oldval)
  else if cmp =? 5 then Some (cmparg <=? oldval)
  else None.

(** The two switches: the operation on the word, and whether the second futex is woken. *)
Definition wakeop_execute (a2 val3 : Z) : SM fstate (option bool) :=
  let '(op, cmp, oparg, cmparg) := wakeop_fields val3 in
  oldval ← load_word a2;
  match wakeop_apply op oparg oldval with
  | None => mret None
  | Some new =>
      sm_modify (fun s => set_words (<[a2 := new]> (words s)) s);;
      mret (wakeop_compare cmp (s32 oldval) cmparg)
  end.

Definition wake_and_check_opt (futex : option Z) (to_wake : Z) (acc : Z * list Z) : SM fstate (Z * list Z * bool) :=
  match futex with
  | None => mret (acc, false)
  | Some f =>
      '(woken, queue, needs_dequeue) ← wake_and_check f 0 to_wake (snd acc);
      mret (fst acc + woken, queue, needs_dequeue)
  end.

(** The part with both locks held: the result, the queue and whether to dequeue. *)
Definition wakeop_region (futex1 futex2 : option Z) (a2 to_wake1 to_wake2 val3 : Z) : SM fstate (Z * list Z * bool) :=
  r ← wakeop_execute a2 val3;
  match r with
  | None => mret (- ENOSYS, [], false)
  | Some cmpval =>
      '(acc1, needs_dequeue1) ← wake_and_check_opt futex1 to_wake1 (0, []);
      '(acc2, needs_dequeue2) ← wake_and_check_opt (if cmpval : bool then futex2 else None) to_wake2 acc1;
      mret (acc2, needs_dequeue1 || needs_dequeue2)
  end.

(** Both searches under [g_futex_tree_lock]. *)
Definition find_two (a1 a2 : Z) : SM fstate (option Z * option Z) :=
  futex1 ← find_futex a1;
  futex2 ← find_futex a2;
  mret (futex1, futex2).

Definition futex_wake_op (a1 a2 to_wake1 to_wake2 val3 : Z) : prog Z :=
  spinlock_lock TreeLock;;
  '(futex1, futex2) ← atomic (find_two a1 a2);
  lock_two_futexes futex1 futex2;;
  spinlock_unlock TreeLock;;
  '(ret, queue, needs_dequeue) ← atomic (wakeop_region futex1 futex2 a2 to_wake1 to_wake2 val3);
  unlock_two_futexes futex1 futex2;;
  prog_if needs_dequeue (maybe_dequeue_two_futexes futex1 futex2);;
  prog_if (0 <? ret) (wake_queue queue);;
  atomic (when futex1 put_futex);;
  atomic (when futex2 put_futex);;
  mret ret.

(** ** [futex_requeue] *)

(** [woken], [requeued] and the queue. *)
Definition requeue_body (f1 f2 to_wake to_requeue : Z) (acc : Z * Z * list Z) (w : Z) :
    SM fstate (bool * (Z * Z * list Z)) :=
  let '(woken, requeued, queue) := acc in
  if woken <? to_wake then
    queue' ← wake_waiter f1 queue w;
    mret (true, (woken + 1, requeued, queue'))
  else if requeued <? to_requeue then
    move_futex_waiter w f1 f2;;
    mret (true, (woken, requeued + 1, queue))
  else mret (false, acc).

Definition requeue_waiters (f1 f2 to_wake to_requeue : Z) : SM fstate (Z * Z * list Z) :=
  x ← deref f1;
  LISTP_FOR_EACH_ENTRY_SAFE (S (length (waiters x) + Z.to_nat (to_wake + to_requeue))) f1
    (requeue_body f1 f2 to_wake to_requeue) (0, 0, []).

(** The part with all locks held: the result, [woken], the queue and whether to dequeue. *)
Definition requeue_region (futex1 : option Z) (f2 a1 to_wake to_requeue : Z) (val : option Z) (created : bool) :
    SM fstate (Z * Z * list Z * bool) :=
  value ← load_word a1;
  if match val with Some v => negb (value =? v) | None => false end then mret (- EAGAIN, 0, [], created)
  else
    match futex1 with
    | None => mret (0, 0, [], created)
    | Some f1 =>
        '(woken, requeued, queue) ← requeue_waiters f1 f2 to_wake to_requeue;
        needs_dequeue1 ← check_dequeue_futex f1;
        needs_dequeue2 ← check_dequeue_futex f2;
        mret (woken + requeued, woken, queue, needs_dequeue1 || needs_dequeue2)
    end.

(** [find_or_create_futex] as [futex_requeue] does it, with the value of [needs_dequeue2]. *)
Definition requeue_target (a2 : Z) : prog (option (Z * option Z * bool)) :=
  spinlock_lock TreeLock;;
  found ← atomic (find_futex a2);
  match found with
  | Some f => mret (Some (f, None, false))
  | None =>
      spinlock_unlock TreeLock;;
      memory ← host;
      if memory =? 0 then mret None
      else
        tmp ← atomic (create_new_futex a2);
        spinlock_lock TreeLock;;
        r ← atomic (find_or_enqueue a2 tmp);
        mret (Some (r, true))
  end.

Definition futex_requeue (a1 a2 to_wake to_requeue : Z) (val : option Z) : prog Z :=
  if (to_wake <? 0) || (to_requeue <? 0) then mret (- EINVAL)
  else
    r ← requeue_target a2;
    match r with
    | None => mret (- ENOMEM)
    | Some (f2, tmp, created) =>
        futex1 ← atomic (find_futex a1);
        lock_two_futexes futex1 (Some f2);;
        '(ret, woken, queue, needs_dequeue) ← atomic (requeue_region futex1 f2 a1 to_wake to_requeue val created);
        unlock_two_futexes futex1 (Some f2);;
        spinlock_unlock TreeLock;;
        prog_if needs_dequeue (maybe_dequeue_two_futexes futex1 (Some f2));;
        prog_if (0 <? woken) (wake_queue queue);;
        atomic (when futex1 put_futex);;
        atomic (put_futex f2);;
        atomic (when tmp put_futex);;
        mret ret
    end.

(** ** The system call *)

Definition FUTEX_WAIT : Z := 0.
Definition FUTEX_WAKE : Z := 1.
Definition FUTEX_REQUEUE : Z := 3.
Definition FUTEX_CMP_REQUEUE : Z := 4.
Definition FUTEX_WAKE_OP : Z := 5.
Definition FUTEX_LOCK_PI : Z := 6.
Definition FUTEX_WAIT_BITSET : Z := 9.
Definition FUTEX_WAKE_BITSET : Z := 10.
Definition FUTEX_WAIT_REQUEUE_PI : Z := 11.
Definition FUTEX_CMP_REQUEUE_PI : Z := 12.
Definition FUTEX_PRIVATE_FLAG : Z := 128.
Definition FUTEX_CLOCK_REALTIME : Z := 256.
Definition FUTEX_CMD_MASK : Z := Z.lnot (Z.lor FUTEX_PRIVATE_FLAG FUTEX_CLOCK_REALTIME).
Definition FUTEX_BITSET_MATCH_ANY : Z := 4294967295.
Definition FUTEX_WAITERS : Z := 2147483648.
Definition FUTEX_OWNER_DIED : Z := 1073741824.
Definition FUTEX_TID_MASK : Z := 1073741823.
Definition ROBUST_LIST_LIMIT : nat := 2048.

Definition user_memory (a size : Z) (writable : bool) : SM fstate bool := sm_gets (fun s => user_ok s a size writable).

(** A 64-bit word of the user's memory. *)
Definition load64 (a : Z) : SM fstate Z := sm_gets (fun s => words s a + 2 ^ 32 * words s (a + 4)).

Definition store64 (a v : Z) : SM fstate unit :=
  sm_modify (fun s => set_words (<[a + 4 := Z.shiftr v 32]> (<[a := u32 v]> (words s))) s).

Definition check_futex_ptr (ptr : Z) (check_write : bool) : SM fstate Z :=
  if negb (ptr mod 4 =? 0) then mret (- EINVAL)
  else ok ← user_memory ptr 4 check_write; mret (if ok : bool then 0 else - EFAULT).

(** All operands are converted to [unsigned long]. *)
Definition timespec_to_us (tv_sec tv_nsec : Z) : Z := u64 (tv_sec * 1000000 + tv_nsec / 1000).

(** The time to wait: [inl] is an early return, [inr None] no timeout.  The host's clock is
    [PalSystemTimeQuery], whose error is a negative errno. *)
Definition futex_timeout (cmd utime : Z) : prog (Z + option Z) :=
  if negb (utime =? 0) && ((cmd =? FUTEX_WAIT) || (cmd =? FUTEX_WAIT_BITSET) || (cmd =? FUTEX_LOCK_PI)
                           || (cmd =? FUTEX_WAIT_REQUEUE_PI)) then
    ok ← atomic (user_memory utime 16 false);
    if negb ok then mret (inl (- EFAULT))
    else
      tv_sec ← atomic (load64 utime);
      tv_nsec ← atomic (load64 (utime + 8));
      let timeout := timespec_to_us tv_sec tv_nsec in
      if negb (cmd =? FUTEX_WAIT) then
        ret ← host;
        if ret <? 0 then mret (inl ret)
        else
          time ← host;
          let current_time := u64 time in
          if timeout <? current_time then mret (inl (- ETIMEDOUT)) else mret (inr (Some (timeout - current_time)))
      else mret (inr (Some timeout))
  else mret (inr None).

Definition syscall_futex (a op val utime a2 val3 : Z) : prog Z :=
  let cmd := Z.land op FUTEX_CMD_MASK in
  t ← futex_timeout cmd utime;
  match t with
  | inl err => mret err
  | inr timeout =>
      let val2 := if (cmd =? FUTEX_CMP_REQUEUE) || (cmd =? FUTEX_REQUEUE) || (cmd =? FUTEX_WAKE_OP)
                     || (cmd =? FUTEX_CMP_REQUEUE_PI) then u32 utime else 0 in
      if negb (Z.land op FUTEX_CLOCK_REALTIME =? 0)
         && negb (cmd =? FUTEX_WAIT) && negb (cmd =? FUTEX_WAIT_BITSET) && negb (cmd =? FUTEX_WAIT_REQUEUE_PI)
      then mret (- ENOSYS)
      else
        ret ← atomic (check_futex_ptr a false);
        if ret <? 0 then mret ret
        else if (cmd =? FUTEX_WAIT) || (cmd =? FUTEX_WAIT_BITSET) then
          let bitset := if cmd =? FUTEX_WAIT then FUTEX_BITSET_MATCH_ANY else val3 in
          futex_wait a val (match timeout with Some _ => true | None => false end) bitset
        else if (cmd =? FUTEX_WAKE) || (cmd =? FUTEX_WAKE_BITSET) then
          let bitset := if cmd =? FUTEX_WAKE then FUTEX_BITSET_MATCH_ANY else val3 in
          futex_wake a (s32 val) bitset
        else if (cmd =? FUTEX_WAKE_OP) || (cmd =? FUTEX_REQUEUE) || (cmd =? FUTEX_CMP_REQUEUE) then
          ret ← atomic (check_futex_ptr a2 (cmd =? FUTEX_WAKE_OP));
          if ret <? 0 then mret ret
          else if cmd =? FUTEX_WAKE_OP then futex_wake_op a a2 (s32 val) (s32 val2) val3
          else futex_requeue a a2 (s32 val) (s32 val2) (if cmd =? FUTEX_CMP_REQUEUE then Some val3 else None)
        else mret (- ENOSYS)
  end.

(** The parameters are [int] and converted to [uint32_t]. *)
Definition libos_syscall_futex (a op val utime a2 val3 : Z) : prog Z := syscall_futex a op (u32 val) utime a2 (u32 val3).

(** ** Robust futexes *)

Definition libos_syscall_set_robust_list (head len : Z) : prog Z :=
  if negb (len =? 24) then mret (- EINVAL)
  else atomic (sm_modify (fun s => set_robust_list (<[me := head]> (robust_list s)) s));; mret 0.

(** [robust_list] has an entry for every thread of the process. *)
Definition lookup_thread (pid : Z) : SM fstate (option Z) :=
  threads ← sm_gets robust_list;
  match threads !! pid with
  | None => mret None
  | Some _ => get_thread pid;; mret (Some pid)
  end.

Definition libos_syscall_get_robust_list (pid head len : Z) : prog Z :=
  thread ← (if negb (pid =? 0) then atomic (lookup_thread pid) else atomic (get_thread me);; mret (Some me));
  match thread with
  | None => mret (- ESRCH)
  | Some t =>
      ok1 ← atomic (user_memory head 8 true);
      ok2 ← (if ok1 : bool then atomic (user_memory len 8 true) else mret false);
      if negb ok2 then atomic (put_thread t);; mret (- EFAULT)
      else
        atomic (v ← sm_gets (fun s => default 0 (robust_list s !! t)); store64 head v);;
        atomic (store64 len 24);;
        atomic (put_thread t);;
        mret 0
  end.

(** The loop with [__atomic_compare_exchange_n], as of the round that ends it: the old value if
    the word was changed. *)
Definition mark_owner_died (a : Z) : SM fstate (option Z) :=
  val ← load_word a;
  if negb (Z.land val FUTEX_TID_MASK =? me) then mret None
  else
    sm_modify (fun s => set_words (<[a := Z.lor (Z.land val FUTEX_WAITERS) FUTEX_OWNER_DIED]> (words s)) s);;
    mret (Some val).

Definition handle_futex_death (a : Z) : prog Z :=
  if negb (a mod 4 =? 0) then mret (- EINVAL)
  else
    ret ← atomic (check_futex_ptr a true);
    if ret <? 0 then mret ret
    else
      val ← atomic (mark_owner_died a);
      match val with
      | None => mret 0
      | Some v =>
          if negb (Z.land v FUTEX_WAITERS =? 0) then futex_wake a 1 FUTEX_BITSET_MATCH_ANY;; mret 0 else mret 0
      end.

Definition fetch_robust_entry (head : Z) : prog (option Z) :=
  ok ← atomic (user_memory head 8 false);
  if ok : bool then entry ← atomic (load64 head); mret (Some entry) else mret None.

Definition entry_to_futex (entry futex_offset : Z) : Z := u64 (entry + futex_offset).

(** The loop over the list; [false] is an early return. *)
Fixpoint robust_loop (limit : nat) (head futex_offset pending entry : Z) : prog bool :=
  match limit with
  | O => mret true
  | S limit' =>
      if entry =? head then mret true
      else if entry =? 0 then mret false
      else
        next_entry ← fetch_robust_entry entry;
        ret ← (if negb (entry =? pending) then handle_futex_death (entry_to_futex entry futex_offset) else mret 0);
        if ret <? 0 then mret false
        else
          match next_entry with
          | None => mret false
          | Some next => robust_loop limit' head futex_offset pending next
          end
  end.

Definition release_robust_list (head : Z) : prog unit :=
  if head =? 0 then mret ()
  else
    entry ← fetch_robust_entry head;
    match entry with
    | None => mret ()
    | Some entry =>
        ok ← atomic (user_memory (head + 8) 8 false);
        if negb ok then mret ()
        else
          futex_offset ← atomic (load64 (head + 8));
          pending ← fetch_robust_entry (head + 16);
          match pending with
          | None => mret ()
          | Some pending =>
              go_on ← robust_loop ROBUST_LIST_LIMIT head futex_offset pending entry;
              if (go_on : bool) && negb (pending =? 0)
              then handle_futex_death (entry_to_futex pending futex_offset);; mret ()
              else mret ()
          end
    end.

Definition release_clear_child_tid (clear_child_tid : Z) : prog unit :=
  if (clear_child_tid =? 0) || negb (clear_child_tid mod 4 =? 0) then mret ()
  else
    ok ← atomic (user_memory clear_child_tid 4 true);
    if negb ok then mret ()
    else
      atomic (sm_modify (fun s => set_words (<[clear_child_tid := 0]> (words s)) s));;
      futex_wake clear_child_tid 1 FUTEX_BITSET_MATCH_ANY;;
      mret ().
End thread.
