(* ===== verification/FutexOp.v ===== *)
(** * The operation of [futex_wake_op]

    The argument [val3] packs an operation on the second word and a comparison of its old value.
    Decoding and execution agree with the encoding of the Linux interface and with operations on
    integers. *)

From stdpp Require Import functions.
From S2P Require Import Prelude OrdSeq Futex.

(** The macro [FUTEX_OP] of the Linux interface. *)
Definition FUTEX_OP (op oparg cmp cmparg : Z) : Z :=
  Z.lor (Z.lor (Z.shiftl (Z.land op 15) 28) (Z.shiftl (Z.land cmp 15) 24))
        (Z.lor (Z.shiftl (Z.land oparg 4095) 12) (Z.land cmparg 4095)).

Lemma lor_split n a b : 0 <= n -> 0 <= b < 2 ^ n -> Z.lor (Z.shiftl a n) b = a * 2 ^ n + b.
Proof.
  intros Hn Hb. rewrite <- (Z.shiftl_mul_pow2 a n Hn). symmetry. apply Z.add_nocarry_lor.
  apply Z.bits_inj'. intros i Hi. rewrite Z.land_spec, Z.bits_0. destruct (Z.lt_ge_cases i n).
  - by rewrite Z.shiftl_spec_low.
  - destruct (Z.eq_dec b 0) as [->|Hb0]; [by rewrite Z.bits_0, andb_false_r|]. rewrite (Z.bits_above_log2 b), andb_false_r; [done|lia|].
    apply Z.log2_lt_pow2; [lia|]. pose proof (Z.pow_le_mono_r 2 n i ltac:(lia) ltac:(lia)). lia.
Qed.

Lemma land_mod n x : 0 <= n -> Z.land x (Z.ones n) = x mod 2 ^ n.
Proof. apply Z.land_ones. Qed.

Lemma FUTEX_OP_sum op oparg cmp cmparg :
  FUTEX_OP op oparg cmp cmparg = (op mod 16) * 2 ^ 28 + (cmp mod 16) * 2 ^ 24 + (oparg mod 4096) * 2 ^ 12 + cmparg mod 4096.
Proof.
  unfold FUTEX_OP. change 15 with (Z.ones 4). change 4095 with (Z.ones 12). rewrite !land_mod by lia.
  change (2 ^ 4) with 16. change (2 ^ 12) with 4096.
  pose proof (Z.mod_pos_bound op 16 ltac:(lia)). pose proof (Z.mod_pos_bound cmp 16 ltac:(lia)).
  pose proof (Z.mod_pos_bound oparg 4096 ltac:(lia)). pose proof (Z.mod_pos_bound cmparg 4096 ltac:(lia)).
  rewrite (lor_split 12) by lia. rewrite <- Z.lor_assoc, (lor_split 24), (lor_split 28) by lia. lia.
Qed.

Lemma wakeop_arg_extend_mod x : -2048 <= x < 2048 -> wakeop_arg_extend (x mod 4096) = x.
Proof.
  intros Hx. unfold wakeop_arg_extend. destruct (Z.lt_ge_cases x 0).
  - replace (x mod 4096) with (x + 4096) by (apply (Z.mod_unique x 4096 (-1)); lia).
    destruct (Z.leb_spec 2048 (x + 4096)); [|lia]. change 4294963200 with (Z.shiftl 1048575 12). rewrite lor_split by lia.
    unfold s32. rewrite <- (Z.mod_unique_pos (1048575 * 2 ^ 12 + (x + 4096) + 2 ^ 31) (2 ^ 32) 1 (x + 2 ^ 31)) by lia. lia.
  - rewrite Z.mod_small by lia. destruct (Z.leb_spec 2048 x); [lia|done].
Qed.

Lemma div_field a n b : 0 <= n -> 0 <= b < 2 ^ n -> (a * 2 ^ n + b) / 2 ^ n = a.
Proof. intros Hn Hb. rewrite Z.div_add_l by (pose proof (Z.pow_pos_nonneg 2 n); lia). rewrite Z.div_small by done. lia. Qed.

Lemma shift_mod oparg : (if (oparg <? 0) || (31 <? oparg) then Z.land oparg 31 else oparg) = oparg mod 32.
Proof.
  change 31 with (Z.ones 5). rewrite land_mod by lia. destruct (_ || _) eqn:E; [done|]. apply orb_false_iff in E as [E1 E2]. breflect.
  change (Z.ones 5) with 31 in *. symmetry. apply Z.mod_small. lia.
Qed.

Lemma small_cases (P : Z -> Prop) x : 0 <= x < 16 -> Forall P [0; 1; 2; 3; 4; 5; 6; 7; 8; 9; 10; 11; 12; 13; 14; 15] -> P x.
Proof. intros Hx HP. rewrite Forall_forall in HP. apply HP. rewrite !elem_of_cons. lia. Qed.

(** The operand, with [FUTEX_OP_OPARG_SHIFT] a power of two as an [int]. *)
Definition op_arg (op oparg : Z) : Z := if 8 <=? op then s32 (2 ^ (oparg mod 32)) else oparg.

Lemma op_arg_shift x : 0 <= x < 32 -> (if x =? 31 then -2147483648 else Z.shiftl 1 x) = s32 (2 ^ x).
Proof.
  intros Hx. destruct (Z.eqb_spec x 31) as [->|]; [done|]. rewrite Z.shiftl_1_l.
  assert (0 < 2 ^ x < 2 ^ 31) by (split; [apply Z.pow_pos_nonneg; lia|apply Z.pow_lt_mono_r; lia]).
  unfold s32. rewrite Z.mod_small; lia.
Qed.

(** The fields of an encoded operation, without and with [FUTEX_OP_OPARG_SHIFT]. *)
Lemma wakeop_fields_decode op oparg cmp cmparg :
  0 <= op < 16 -> 0 <= cmp < 16 -> -2048 <= oparg < 2048 -> -2048 <= cmparg < 2048 ->
  wakeop_fields (FUTEX_OP op oparg cmp cmparg) =
  (op mod 8, cmp, op_arg op oparg, cmparg).
Proof.
  intros Hop Hcmp Ha Hb. rewrite FUTEX_OP_sum, (Z.mod_small op), (Z.mod_small cmp) by done.
  pose proof (Z.mod_pos_bound oparg 4096 ltac:(lia)) as Hma. pose proof (Z.mod_pos_bound cmparg 4096 ltac:(lia)) as Hmb.
  set (v := op * 2 ^ 28 + cmp * 2 ^ 24 + oparg mod 4096 * 2 ^ 12 + cmparg mod 4096).
  assert (E28 : Z.shiftr v 28 = op).
  { rewrite Z.shiftr_div_pow2 by lia. unfold v. rewrite <- !Z.add_assoc. apply div_field; lia. }
  assert (E24 : Z.shiftr v 24 = op * 16 + cmp).
  { rewrite Z.shiftr_div_pow2 by lia. unfold v. rewrite <- (div_field (op * 16 + cmp) 24 (oparg mod 4096 * 2 ^ 12 + cmparg mod 4096)) by lia.
    f_equal. lia. }
  assert (E12 : Z.shiftr v 12 = (op * 16 + cmp) * 4096 + oparg mod 4096).
  { rewrite Z.shiftr_div_pow2 by lia. unfold v. rewrite <- (div_field ((op * 16 + cmp) * 4096 + oparg mod 4096) 12 (cmparg mod 4096)) by lia.
    f_equal. lia. }
  assert (Eop : negb (Z.land op 8 =? 0) = (8 <=? op)) by (apply (small_cases (fun op => negb (Z.land op 8 =? 0) = (8 <=? op)) op Hop); repeat constructor).
  unfold wakeop_fields. rewrite E28, E24, E12, Eop. change 7 with (Z.ones 3). change 15 with (Z.ones 4). change 4095 with (Z.ones 12).
  rewrite !land_mod by lia. change (2 ^ 3) with 8. change (2 ^ 4) with 16. change (2 ^ 12) with 4096.
  rewrite (Z.add_comm (op * 16)), (Z.add_comm ((cmp + op * 16) * 4096)), !Z_mod_plus_full, Z.mod_mod, (Z.mod_small cmp), !wakeop_arg_extend_mod by lia.
  replace (v mod 4096) with (cmparg mod 4096).
  2:{ unfold v. replace (op * 2 ^ 28 + cmp * 2 ^ 24 + oparg mod 4096 * 2 ^ 12 + cmparg mod 4096)
        with (cmparg mod 4096 + (op * 2 ^ 16 + cmp * 2 ^ 12 + oparg mod 4096) * 4096) by lia. by rewrite Z_mod_plus_full, Z.mod_mod by lia. }
  rewrite wakeop_arg_extend_mod by done. cbv zeta. unfold op_arg. rewrite shift_mod. destruct (8 <=? op); [|done].
  by rewrite op_arg_shift by (apply Z.mod_pos_bound; lia).
Qed.

(** ** What the operation does *)

(** The operations on integers, and the comparisons of the interface. *)
Definition op_result (op oparg old : Z) : Z :=
  match op with
  | 0 => oparg
  | 1 => old + oparg
  | 2 => Z.lor old oparg
  | 3 => Z.ldiff old oparg
  | _ => Z.lxor old oparg
  end.

Definition cmp_holds (cmp old cmparg : Z) : bool :=
  match cmp with
  | 0 => old =? cmparg
  | 1 => negb (old =? cmparg)
  | 2 => old <? cmparg
  | 3 => old <=? cmparg
  | 4 => cmparg <? old
  | _ => cmparg <=? old
  end.

(** Words and the bits of integers. *)
Lemma u32_bits x y :
  (forall i, 0 <= i < 32 -> Z.testbit x i = Z.testbit y i) -> (forall i, 32 <= i -> Z.testbit x i = false) -> x = u32 y.
Proof.
  intros Hl Hh. apply Z.bits_inj'. intros i Hi. unfold u32, u32_mod. destruct (Z.lt_ge_cases i 32).
  - rewrite Z.mod_pow2_bits_low by done. by apply Hl.
  - rewrite Z.mod_pow2_bits_high by lia. by apply Hh.
Qed.

Lemma u32_low x i : i < 32 -> Z.testbit (u32 x) i = Z.testbit x i.
Proof. intros Hi. unfold u32, u32_mod. by apply Z.mod_pow2_bits_low. Qed.

Lemma u32_high x i : 32 <= i -> Z.testbit (u32 x) i = false.
Proof. intros Hi. unfold u32, u32_mod. apply Z.mod_pow2_bits_high. lia. Qed.

Lemma wakeop_apply_result op arg old :
  0 <= op <= 4 -> 0 <= old < 2 ^ 32 -> wakeop_apply op arg old = Some (u32 (op_result op arg old)).
Proof.
  intros Hop Hold. assert (E : old = u32 old) by (symmetry; apply Z.mod_small; exact Hold).
  assert (op = 0 \/ op = 1 \/ op = 2 \/ op = 3 \/ op = 4) as [E0|[E0|[E0|[E0|E0]]]] by lia; subst op; cbn; f_equal; try done.
  all: rewrite E at 1; apply u32_bits; intros i Hi; rewrite ?Z.lor_spec, ?Z.land_spec, ?Z.lxor_spec, ?Z.ldiff_spec.
  all: by rewrite ?u32_low, ?u32_high, ?Z.lnot_spec by lia.
Qed.

Lemma wakeop_apply_unknown op arg old : 4 < op -> wakeop_apply op arg old = None.
Proof. intros Hop. unfold wakeop_apply. by rewrite !(proj2 (Z.eqb_neq op _)) by lia. Qed.

Lemma wakeop_compare_holds cmp old arg :
  0 <= cmp < 16 -> wakeop_compare cmp old arg = if cmp <=? 5 then Some (cmp_holds cmp old arg) else None.
Proof.
  intros Hc. apply (small_cases (fun cmp => wakeop_compare cmp old arg = if cmp <=? 5 then Some (cmp_holds cmp old arg) else None) cmp Hc).
  repeat constructor.
Qed.

(** C30: [futex_wake_op] decodes an operation that was packed with [FUTEX_OP] and executes it: the
    word becomes the result of the operation on its old value, modulo 2^32, and the answer is the
    comparison of the old value as an [int]; an unknown operation changes nothing, an unknown
    comparison is an error only after the word has been changed. *)
Theorem wakeop_execute_correct s a op oparg cmp cmparg :
  0 <= op < 16 -> 0 <= cmp < 16 -> -2048 <= oparg < 2048 -> -2048 <= cmparg < 2048 -> 0 <= words s a < 2 ^ 32 ->
  wakeop_execute a (FUTEX_OP op oparg cmp cmparg) s =
  if op mod 8 <=? 4 then
    Some (if cmp <=? 5 then Some (cmp_holds cmp (s32 (words s a)) cmparg) else None,
          set_words (<[a := u32 (op_result (op mod 8) (op_arg op oparg) (words s a))]> (words s)) s)
  else Some (None, s).
Proof.
  intros Hop Hcmp Ha Hb Hw. unfold wakeop_execute. rewrite wakeop_fields_decode by done.
  unfold load_word, sm_gets, sm_modify, mbind, SM_bind, mret, SM_ret. cbv beta iota.
  pose proof (Z.mod_pos_bound op 8 ltac:(lia)) as Hm. destruct (Z.leb_spec (op mod 8) 4).
  - rewrite wakeop_apply_result by lia. by rewrite wakeop_compare_holds.
  - by rewrite wakeop_apply_unknown.
Qed.

(** An instance: add -3 to a word with value 1, and compare its old value with 2. *)
Lemma wakeop_execute_correct_witness :
  let s := FState ∅ 1 [] None ∅ (fun _ => 1) (fun _ _ _ => true) ∅ ∅ (fun _ => 0) ∅ in
  exists s', wakeop_execute 100 (FUTEX_OP 1 (-3) 2 2) s = Some (Some true, s') /\ words s' 100 = 4294967294.
Proof.
  intros s. eexists. split; [exact (wakeop_execute_correct s 100 1 (-3) 2 2 ltac:(lia) ltac:(lia) ltac:(lia) ltac:(lia) ltac:(cbn; lia))|].
  reflexivity.
Defined.
