(* ===== verification/FutexInv.v ===== *)
(** * The invariant of the futexes

    What each thread knows and owns between its steps is a ghost state: references to futexes
    and threads, locks, and obligations.  A reference is a token; the reference counts are the
    numbers of tokens.  The invariant is a conjunction of parts that speak about few fields each,
    so that a step only has to prove the parts whose fields it changes. *)

From stdpp Require Import functions.
From S2P Require Import Prelude OrdSeq Futex.

(** ** Tokens *)

(** Who holds a reference to a futex: the tree, the waiter of a thread, or a local variable. *)
Inductive owner : Type :=
  | OTree
  | OWaiter (t : Z)
  | OSlot (t : Z) (i : nat).

(** Who holds a reference to a thread: the list its waiter is on, a wake queue, or a local variable. *)
Inductive towner : Type :=
  | OList
  | OQueue (u : Z)
  | OHeld (u : Z).

#[global] Instance owner_eq_dec : EqDecision owner.
Proof. solve_decision. Defined.
#[global] Instance towner_eq_dec : EqDecision towner.
Proof. solve_decision. Defined.
#[global] Program Instance owner_countable : Countable owner :=
  inj_countable' (fun o => match o with OTree => None | OWaiter t => Some (t, None) | OSlot t i => Some (t, Some i) end)
    (fun x => match x with None => OTree | Some (t, None) => OWaiter t | Some (t, Some i) => OSlot t i end) _.
Next Obligation. by intros []. Qed.
#[global] Program Instance towner_countable : Countable towner :=
  inj_countable' (fun o => match o with OList => None | OQueue t => Some (t, true) | OHeld t => Some (t, false) end)
    (fun x => match x with None => OList | Some (t, true) => OQueue t | Some (t, false) => OHeld t end) _.
Next Obligation. by intros []. Qed.

Section tokens.
Context {O : Type} `{Countable O}.
Implicit Types (T : gset (Z * O)) (f g : Z) (o : O).

Definition count f T : Z := Z.of_nat (size (filter (fun p => fst p = f) T)).

Lemma count_add f o g T : (f, o) ∉ T -> count g ({[(f, o)]} ∪ T) = count g T + if decide (g = f) then 1 else 0.
Proof.
  intros Hn. unfold count. case_decide as E.
  - subst g. replace (filter (fun p => fst p = f) ({[(f, o)]} ∪ T)) with ({[(f, o)]} ∪ filter (fun p => fst p = f) T)
      by set_solver.
    rewrite size_union, size_singleton by set_solver. lia.
  - replace (filter (fun p => fst p = g) ({[(f, o)]} ∪ T)) with (filter (fun p => fst p = g) T); [lia|].
    apply set_eq. intros [h o']. rewrite !elem_of_filter, elem_of_union, elem_of_singleton. cbn. naive_solver.
Qed.

Lemma count_del f o g T : (f, o) ∈ T -> count g (T ∖ {[(f, o)]}) = count g T - if decide (g = f) then 1 else 0.
Proof.
  intros Hin. rewrite (union_difference_singleton_L (f, o) T) at 2 by done. rewrite count_add by set_solver. lia.
Qed.

Lemma count_pos f o T : (f, o) ∈ T -> 1 <= count f T.
Proof.
  intros Hin. unfold count. assert (size (filter (fun p => fst p = f) T) <> 0%nat); [|lia].
  intros E%size_empty_inv. apply leibniz_equiv in E. assert ((f, o) ∈ (∅ : gset (Z * O))); [|set_solver]. rewrite <- E.
  by apply elem_of_filter.
Qed.

Lemma count_nonneg f T : 0 <= count f T.
Proof. unfold count. lia. Qed.

Lemma count_two f o o' T : (f, o) ∈ T -> (f, o') ∈ T -> o <> o' -> 2 <= count f T.
Proof.
  intros H1 H2 Hne. pose proof (count_del f o f T H1) as Hd. rewrite decide_True in Hd by done.
  pose proof (count_pos f o' (T ∖ {[(f, o)]}) ltac:(set_solver)). lia.
Qed.
End tokens.

(** ** The ghost state *)

(** References by local variable, with the address of the futex; whether the tree lock is held,
    and the locked futexes; futexes that are known to be in the tree; whether the thread's waiter
    is in use, with its futex if that is known, and whether the thread has not yet returned from [thread_wait] for it; its wake
    queue, a thread it is about to wake up, a reference to a thread; and the futexes it has to
    take off the tree if they have no waiters. *)
Record local : Type := Local {
  l_refs : gmap nat (Z * Z);
  l_tree : bool;
  l_locks : list (Z * Z);
  l_known : list Z;
  l_node : option (option Z);
  l_asleep : bool;
  l_queue : list Z;
  l_waking : option Z;
  l_thread : option Z;
  l_duty : list Z;
}.

Definition no_local : local := Local ∅ false [] [] None false [] None None [].

Record ghost : Type := Ghost {
  g_toks : gset (Z * owner);
  g_ttoks : gset (Z * towner);
  g_refs : Z -> gmap nat (Z * Z);
  g_tree : Z -> bool;
  g_locks : Z -> list (Z * Z);
  g_known : Z -> list Z;
  g_node : Z -> option (option Z);
  g_asleep : Z -> bool;
  g_queue : Z -> list Z;
  g_waking : Z -> option Z;
  g_thread : Z -> option Z;
  g_duty : Z -> list Z;
}.

Definition at_thread (g : ghost) (t : Z) : local :=
  Local (g_refs g t) (g_tree g t) (g_locks g t) (g_known g t) (g_node g t) (g_asleep g t) (g_queue g t) (g_waking g t)
        (g_thread g t) (g_duty g t).

(** ** The parts of the invariant *)

Definition refs_ok (R : gmap Z Z) (T : gset (Z * owner)) : Prop :=
  (forall f n, R !! f = Some n -> n = count f T /\ 1 <= n) /\ (forall f o, (f, o) ∈ T -> is_Some (R !! f)).

Definition toks_ok (T : gset (Z * owner)) (I : gmap Z bool) (W : gmap Z Z) (refs : Z -> gmap nat (Z * Z)) : Prop :=
  (forall f, (f, OTree) ∈ T <-> I !! f = Some true) /\
  (forall f t, (f, OWaiter t) ∈ T <-> W !! t = Some f) /\
  (forall f t i, (f, OSlot t i) ∈ T <-> exists a, refs t !! i = Some (f, a)).

(** The local variable [tmp]: a futex that nobody else knows. *)
Definition TMP : nat := 2.

Definition spare_ok (T : gset (Z * owner)) : Prop :=
  forall f t o, (f, OSlot t TMP) ∈ T -> (f, o) ∈ T -> o = OSlot t TMP.

Definition addr_ok (A : gmap Z Z) (next : Z) (refs : Z -> gmap nat (Z * Z)) (locks : Z -> list (Z * Z)) : Prop :=
  (forall t i f a, refs t !! i = Some (f, a) -> A !! f = Some a) /\
  (forall t f a, (f, a) ∈ locks t -> exists i, refs t !! i = Some (f, a)) /\
  (forall f, next <= f -> A !! f = None).

Definition tree_ok (A : gmap Z Z) (I : gmap Z bool) (tree : list (Z * Z)) : Prop :=
  StronglySorted (fun x y => fst x < fst y) tree /\
  (forall a f, (a, f) ∈ tree <-> A !! f = Some a /\ I !! f = Some true).

Definition lists_ok (WL : gmap Z (list Z)) (nodes : gmap Z futex_waiter) (I : gmap Z bool) : Prop :=
  forall f l, WL !! f = Some l ->
    NoDup l /\ (l <> [] -> I !! f = Some true) /\
    (forall t, t ∈ l <-> exists b, nodes !! t = Some (Waiter b f true)).

Definition locks_ok (LK : gmap Z (option Z)) (tree_lock : option Z) (locks : Z -> list (Z * Z)) (tree : Z -> bool) : Prop :=
  (forall t, tree_lock = Some t <-> tree t = true) /\
  (forall f t, LK !! f = Some (Some t) <-> exists a, (f, a) ∈ locks t) /\
  (forall t, NoDup (fst <$> locks t)).

Definition known_ok (I : gmap Z bool) (known : Z -> list Z) (tree : Z -> bool) (locks : Z -> list (Z * Z)) : Prop :=
  forall t f, f ∈ known t -> I !! f = Some true /\ (tree t = true \/ f ∈ fst <$> locks t).

Definition wake_ok (nodes : gmap Z futex_waiter) (q e : gset Z) (node : Z -> option (option Z)) (asleep : Z -> bool) (queue : Z -> list Z)
    (waking : Z -> option Z) : Prop :=
  (forall t, is_Some (nodes !! t) <-> is_Some (node t)) /\
  (forall t, asleep t = true -> exists n, nodes !! t = Some n /\
     (w_on_list n = true \/ t ∈ e \/ t ∈ q \/ exists u, waking u = Some t)) /\
  (forall t, t ∈ q <-> exists u, t ∈ queue u) /\
  (forall u, NoDup (queue u)) /\
  (forall t u v, t ∈ queue u -> t ∈ queue v -> u = v).

Definition at_ok (nodes : gmap Z futex_waiter) (node : Z -> option (option Z)) (tree : Z -> bool) (locks : Z -> list (Z * Z)) : Prop :=
  forall t f, node t = Some (Some f) ->
    (exists b o, nodes !! t = Some (Waiter b f o)) /\ (tree t = true \/ f ∈ fst <$> locks t).

Definition trefs_ok (r : Z -> Z) (TT : gset (Z * towner)) (nodes : gmap Z futex_waiter) (queue : Z -> list Z)
    (thread : Z -> option Z) : Prop :=
  (forall t, r t = count t TT) /\
  (forall t, (t, OList) ∈ TT <-> exists b f, nodes !! t = Some (Waiter b f true)) /\
  (forall t u, (t, OQueue u) ∈ TT <-> t ∈ queue u) /\
  (forall t u, (t, OHeld u) ∈ TT <-> thread u = Some t).

Definition duty_ok (WL : gmap Z (list Z)) (I : gmap Z bool) (duty : Z -> list Z) : Prop :=
  forall f, WL !! f = Some [] -> I !! f = Some true -> exists t, f ∈ duty t.

Record inv (s : fstate) (g : ghost) : Prop := {
  inv_refs : refs_ok (ref_count <$> heap s) (g_toks g);
  inv_toks : toks_ok (g_toks g) (in_tree <$> heap s) (w_futex <$> wnodes s) (g_refs g);
  inv_spare : spare_ok (g_toks g);
  inv_addr : addr_ok (uaddr <$> heap s) (next_ptr s) (g_refs g) (g_locks g);
  inv_tree : tree_ok (uaddr <$> heap s) (in_tree <$> heap s) (g_futex_tree s);
  inv_lists : lists_ok (waiters <$> heap s) (wnodes s) (in_tree <$> heap s);
  inv_locks : locks_ok (f_lock <$> heap s) (g_futex_tree_lock s) (g_locks g) (g_tree g);
  inv_known : known_ok (in_tree <$> heap s) (g_known g) (g_tree g) (g_locks g);
  inv_at : at_ok (wnodes s) (g_node g) (g_tree g) (g_locks g);
  inv_wake : wake_ok (wnodes s) (queued s) (events s) (g_node g) (g_asleep g) (g_queue g) (g_waking g);
  inv_trefs : trefs_ok (thread_refs s) (g_ttoks g) (wnodes s) (g_queue g) (g_thread g);
  inv_duty : duty_ok (waiters <$> heap s) (in_tree <$> heap s) (g_duty g);
}.

(** ** How the parts change *)

Section parts.
Implicit Types (T : gset (Z * owner)) (f t a n : Z).

Lemma refs_add R T f o n :
  R !! f = Some n -> (f, o) ∉ T -> refs_ok R T -> refs_ok (<[f := n + 1]> R) ({[(f, o)]} ∪ T).
Proof.
  intros Hf Hn [H1 H2]. split.
  - intros g m. rewrite count_add by done. rewrite lookup_insert_Some. intros [[<- <-]|[Hne Hg]].
    + rewrite decide_True by done. destruct (H1 _ _ Hf). lia.
    + rewrite decide_False by done. destruct (H1 _ _ Hg). lia.
  - intros g o'. rewrite elem_of_union, elem_of_singleton, lookup_insert_is_Some. intros [[= -> ->]|Hin]; [by left|].
    destruct (decide (f = g)); [by left|right; eauto].
Qed.

Lemma refs_del R T f o n :
  R !! f = Some n -> (f, o) ∈ T -> n <> 1 -> refs_ok R T -> refs_ok (<[f := n - 1]> R) (T ∖ {[(f, o)]}).
Proof.
  intros Hf Hin Hn [H1 H2]. split.
  - intros g m. rewrite count_del by done. rewrite lookup_insert_Some. intros [[<- <-]|[Hne Hg]].
    + rewrite decide_True by done. destruct (H1 _ _ Hf). lia.
    + rewrite decide_False by done. destruct (H1 _ _ Hg). lia.
  - intros g o' Hg. rewrite lookup_insert_is_Some. destruct (decide (f = g)); [by left|]. right. split; [done|].
    apply (H2 g o'). set_solver.
Qed.

Lemma refs_free R T f o : R !! f = Some 1 -> (f, o) ∈ T -> refs_ok R T -> refs_ok (delete f R) (T ∖ {[(f, o)]}).
Proof.
  intros Hf Hin [H1 H2]. split.
  - intros g m. rewrite lookup_delete_Some. intros [Hne Hg]. rewrite count_del by done.
    rewrite decide_False by done. destruct (H1 _ _ Hg). lia.
  - intros g o' [Hg Hne]%elem_of_difference. rewrite lookup_delete_is_Some. split; [|by eapply H2].
    intros <-. destruct (H1 _ _ Hf) as [Hc _]. pose proof (count_two f o o' T Hin Hg ltac:(set_solver)). lia.
Qed.

Lemma refs_new R T f o : R !! f = None -> refs_ok R T -> refs_ok (<[f := 1]> R) ({[(f, o)]} ∪ T).
Proof.
  intros Hf [H1 H2].
  assert (Hno : forall o', (f, o') ∉ T) by (intros o' Hin; destruct (H2 _ _ Hin); congruence).
  assert (Hc : count f T = 0).
  { unfold count. replace (filter (fun p => fst p = f) T) with (∅ : gset (Z * owner)); [by rewrite size_empty|].
    apply set_eq. intros [h o']. rewrite elem_of_filter. cbn. set_solver. }
  split.
  - intros g m. rewrite count_add by done. rewrite lookup_insert_Some. intros [[<- <-]|[Hne Hg]].
    + rewrite decide_True by done. lia.
    + rewrite decide_False by done. destruct (H1 _ _ Hg). lia.
  - intros g o'. rewrite elem_of_union, elem_of_singleton, lookup_insert_is_Some. intros [[= -> ->]|Hin]; [by left|].
    destruct (decide (f = g)); [by left|right; eauto].
Qed.

Lemma refs_swap R T f o o' :
  (f, o) ∈ T -> (f, o') ∉ T -> refs_ok R T -> refs_ok R ({[(f, o')]} ∪ (T ∖ {[(f, o)]})).
Proof.
  intros Ho Ho' [H1 H2]. split.
  - intros g m Hg. rewrite count_add, count_del by set_solver. destruct (H1 _ _ Hg). case_decide; lia.
  - intros g o1 Hg. assert (exists o2, (g, o2) ∈ T) as [o2 Ho2] by set_solver. by eapply H2.
Qed.

Ltac toks := intros (H1 & H2 & H3); split_and!; intros;
  rewrite ?elem_of_union, ?elem_of_difference, ?elem_of_singleton, ?H1, ?H2, ?H3.

Lemma toks_slot_add T I W refs f t i a :
  refs t !! i = None -> toks_ok T I W refs ->
  toks_ok ({[(f, OSlot t i)]} ∪ T) I W (<[t := <[i := (f, a)]> (refs t)]> refs).
Proof.
  intros Hn. toks; [naive_solver|naive_solver|].
  destruct (decide (t = t0)) as [<-|]; [rewrite fn_lookup_insert|rewrite fn_lookup_insert_ne by done; naive_solver].
  destruct (decide (i = i0)) as [<-|]; [rewrite lookup_insert|rewrite lookup_insert_ne by done; naive_solver].
  rewrite decide_True by done. naive_solver.
Qed.

Lemma toks_slot_del T I W refs f t i a :
  refs t !! i = Some (f, a) -> toks_ok T I W refs ->
  toks_ok (T ∖ {[(f, OSlot t i)]}) I W (<[t := delete i (refs t)]> refs).
Proof.
  intros Hn. toks; [naive_solver|naive_solver|].
  destruct (decide (t = t0)) as [<-|]; [rewrite fn_lookup_insert|rewrite fn_lookup_insert_ne by done; naive_solver].
  destruct (decide (i = i0)) as [<-|]; [rewrite lookup_delete|rewrite lookup_delete_ne by done; naive_solver].
  rewrite decide_True by done. naive_solver.
Qed.

Lemma toks_tree_add T I W refs f : toks_ok T I W refs -> toks_ok ({[(f, OTree)]} ∪ T) (<[f := true]> I) W refs.
Proof. toks; [|naive_solver|naive_solver]. rewrite lookup_insert_Some. destruct (decide (f = f0)); naive_solver. Qed.

Lemma toks_tree_del T I W refs f : toks_ok T I W refs -> toks_ok (T ∖ {[(f, OTree)]}) (<[f := false]> I) W refs.
Proof. toks; [|naive_solver|naive_solver]. rewrite lookup_insert_Some. destruct (decide (f = f0)); naive_solver. Qed.

Lemma toks_wait_add T I W refs f t :
  W !! t = None -> toks_ok T I W refs -> toks_ok ({[(f, OWaiter t)]} ∪ T) I (<[t := f]> W) refs.
Proof.
  intros Hn. toks; [naive_solver| |naive_solver]. rewrite lookup_insert_Some. destruct (decide (t = t0)); naive_solver.
Qed.

Lemma toks_wait_del T I W refs f t :
  W !! t = Some f -> toks_ok T I W refs -> toks_ok (T ∖ {[(f, OWaiter t)]}) I (delete t W) refs.
Proof.
  intros Hn. toks; [naive_solver| |naive_solver]. rewrite lookup_delete_Some. destruct (decide (t = t0)); naive_solver.
Qed.

Lemma toks_wait_move T I W refs f f' t :
  W !! t = Some f -> toks_ok T I W refs -> toks_ok ({[(f', OWaiter t)]} ∪ (T ∖ {[(f, OWaiter t)]})) I (<[t := f']> W) refs.
Proof.
  intros Hn Ht. rewrite <- insert_delete_eq. apply toks_wait_add; [by rewrite lookup_delete_eq|]. by apply toks_wait_del.
Qed.

Lemma toks_free T I W refs f : I !! f <> Some true -> toks_ok T I W refs -> toks_ok T (delete f I) W refs.
Proof. intros Hn. toks; [|naive_solver|naive_solver]. rewrite lookup_delete_Some. naive_solver. Qed.

Lemma toks_new T I W refs f : I !! f = None -> toks_ok T I W refs -> toks_ok T (<[f := false]> I) W refs.
Proof. intros Hn. toks; [|naive_solver|naive_solver]. rewrite lookup_insert_Some. naive_solver. Qed.

Lemma spare_sub T T' : T' ⊆ T -> spare_ok T -> spare_ok T'.
Proof. intros Hs H f t o H1 H2. apply (H f t o); by apply Hs. Qed.

Lemma spare_new T f o : (forall o', (f, o') ∉ T) -> spare_ok T -> spare_ok ({[(f, o)]} ∪ T).
Proof.
  intros Hno H g t o1. rewrite !elem_of_union, !elem_of_singleton. intros [[= -> <-]|H1] [[= ->]|H2]; try done.
  - by destruct (Hno o1).
  - by destruct (Hno (OSlot t TMP)).
  - by apply (H g).
Qed.

Lemma spare_add T f o o' :
  (f, o') ∈ T -> (forall t, o' <> OSlot t TMP) -> (forall t, o <> OSlot t TMP) -> spare_ok T -> spare_ok ({[(f, o)]} ∪ T).
Proof.
  intros Hin Ho' Ho H g t o1. rewrite !elem_of_union, !elem_of_singleton. intros [[= -> <-]|H1]; [by destruct (Ho t)|].
  intros [[= -> ->]|H2]; [|by apply (H g)]. destruct (Ho' t). by apply (H f t o').
Qed.

Ltac cases x y := destruct (decide (x = y)) as [<-|];
  [rewrite ?fn_lookup_insert, ?lookup_insert_eq, ?lookup_delete_eq
  |rewrite ?fn_lookup_insert_ne, ?lookup_insert_ne, ?lookup_delete_ne by done].

Lemma addr_slot_add A n refs locks f t i a :
  refs t !! i = None -> A !! f = Some a -> addr_ok A n refs locks -> addr_ok A n (<[t := <[i := (f, a)]> (refs t)]> refs) locks.
Proof.
  intros Hn Ha (H1 & H2 & H3). split_and!; [| |done].
  - intros u j g b. cases t u; [|apply H1]. cases i j; [|apply H1]. by intros [= <- <-].
  - intros u g b Hg. destruct (H2 u g b Hg) as [j Hj]. cases t u; [|by exists j]. exists j.
    rewrite lookup_insert_ne; [done|]. intros <-. congruence.
Qed.

Lemma addr_slot_del A n refs locks f t i a :
  refs t !! i = Some (f, a) -> f ∉ fst <$> locks t -> addr_ok A n refs locks ->
  addr_ok A n (<[t := delete i (refs t)]> refs) locks.
Proof.
  intros Hi Hf (H1 & H2 & H3). split_and!; [| |done].
  - intros u j g b. cases t u; [|apply H1]. rewrite lookup_delete_Some. intros [_ Hj]. by eapply H1.
  - intros u g b Hg. destruct (H2 u g b Hg) as [j Hj]. cases t u; [|by exists j]. exists j.
    rewrite lookup_delete_ne; [done|]. intros <-. rewrite Hi in Hj. injection Hj as <- <-. apply Hf.
    apply list_elem_of_fmap. by exists (f, a).
Qed.

Lemma addr_new A n refs locks a : addr_ok A n refs locks -> addr_ok (<[n := a]> A) (n + 1) refs locks.
Proof.
  intros (H1 & H2 & H3). split_and!; [|done|].
  - intros u j g b Hj. apply H1 in Hj. rewrite lookup_insert_ne; [done|]. intros <-. rewrite H3 in Hj by lia. done.
  - intros f Hf. rewrite lookup_insert_ne by lia. apply H3. lia.
Qed.

Lemma addr_free A n refs locks f :
  (forall t i a, refs t !! i <> Some (f, a)) -> addr_ok A n refs locks -> addr_ok (delete f A) n refs locks.
Proof.
  intros Hf (H1 & H2 & H3). split_and!; [|done|].
  - intros u j g b Hj. rewrite lookup_delete_ne; [by eapply H1|]. intros <-. by eapply Hf.
  - intros g Hg. rewrite lookup_delete_None. right. by apply H3.
Qed.

Lemma addr_lock A n refs locks f t i a :
  refs t !! i = Some (f, a) -> addr_ok A n refs locks -> addr_ok A n refs (<[t := (f, a) :: locks t]> locks).
Proof.
  intros Hi (H1 & H2 & H3). split_and!; [done| |done]. intros u g b. cases t u; [|apply H2].
  rewrite elem_of_cons. intros [[= -> ->]|Hg]; [by exists i|by apply H2].
Qed.

Lemma addr_unlock A n refs locks t l :
  l ⊆ locks t -> addr_ok A n refs locks -> addr_ok A n refs (<[t := l]> locks).
Proof.
  intros Hl (H1 & H2 & H3). split_and!; [done| |done]. intros u g b. cases t u; [|apply H2]. intros Hg. by apply H2, Hl.
Qed.

Lemma tree_add A I tree f a :
  A !! f = Some a -> I !! f = Some false -> (forall h, (a, h) ∉ tree) -> tree_ok A I tree ->
  tree_ok A (<[f := true]> I) (seq_insert (futex_tree_cmp (a, f)) (a, f) tree).
Proof.
  intros Ha Hi Hno (H1 & H2). split.
  - unfold seq_insert. destruct (span (futex_tree_cmp (a, f)) tree) as [x y] eqn:E.
    destruct (span_spec _ _ _ _ E) as (-> & Hx & Hy). apply StronglySorted_app_iff in H1 as (Hs1 & Hs2 & Hs).
    assert (Hlt : forall p, p ∈ y -> a < fst p).
    { intros p Hp. destruct y as [|q y]; [by apply elem_of_nil in Hp|]. specialize (Hy q y eq_refl).
      unfold futex_tree_cmp in Hy. cbn in Hy. apply Z.leb_le in Hy.
      assert (fst q <> a) by (intros <-; apply (Hno (snd q)); rewrite <- surjective_pairing; set_solver).
      apply elem_of_cons in Hp as [->|Hp]; [lia|]. inversion Hs2 as [|? ? ? Hq]; subst.
      rewrite Forall_forall in Hq. specialize (Hq p Hp). lia. }
    apply StronglySorted_app_iff. split_and!; [done| |].
    + constructor; [done|]. apply Forall_forall. auto.
    + intros p q Hp. rewrite Forall_forall in Hx. specialize (Hx p Hp). unfold futex_tree_cmp in Hx. cbn in Hx.
      apply Z.leb_gt in Hx. rewrite elem_of_cons. intros [->|Hq]; [done|]. by apply Hs.
  - intros b g. rewrite (seq_insert_perm (futex_tree_cmp (a, f)) (a, f) tree), elem_of_cons, H2.
    rewrite (lookup_insert_Some I). destruct (decide (f = g)) as [<-|]; naive_solver.
Qed.

Lemma tree_del A I tree f :
  tree_ok A I tree -> tree_ok A (<[f := false]> I) (filter (fun node => snd node <> f) tree).
Proof.
  intros (H1 & H2). split.
  - clear H2. induction H1 as [|x l Hl IH Hx]; [constructor|]. rewrite filter_cons. case_decide; [|done].
    constructor; [done|]. by apply list_Forall_filter.
  - intros b g. rewrite list_elem_of_filter, H2, lookup_insert_Some. cbn. naive_solver.
Qed.

Lemma tree_new A I tree f a :
  A !! f = None -> tree_ok A I tree -> tree_ok (<[f := a]> A) (<[f := false]> I) tree.
Proof.
  intros Ha (H1 & H2). split; [done|]. intros b g. rewrite H2, !lookup_insert_Some.
  destruct (decide (f = g)) as [<-|]; naive_solver.
Qed.

Lemma tree_free A I tree f : I !! f <> Some true -> tree_ok A I tree -> tree_ok (delete f A) (delete f I) tree.
Proof. intros Ha (H1 & H2). split; [done|]. intros b g. rewrite H2, !lookup_delete_Some. naive_solver. Qed.

Lemma lists_add WL nodes I f l t b :
  WL !! f = Some l -> I !! f = Some true -> (forall b' f', nodes !! t <> Some (Waiter b' f' true)) ->
  lists_ok WL nodes I -> lists_ok (<[f := l ++ [t]]> WL) (<[t := Waiter b f true]> nodes) I.
Proof.
  intros Hf Hi Hn H g l'. rewrite lookup_insert_Some. intros [[<- <-]|[Hne Hg]].
  - destruct (H f l Hf) as (H1 & _ & H3). assert (t ∉ l) by (rewrite H3; naive_solver). split_and!; [|done|].
    + apply NoDup_app. split_and!; [done|set_solver|apply NoDup_singleton].
    + intros u. rewrite elem_of_app, list_elem_of_singleton, H3. cases t u; naive_solver.
  - destruct (H g l' Hg) as (H1 & H2 & H3). split_and!; [done|done|].
    intros u. rewrite H3. cases t u; naive_solver.
Qed.

Lemma lists_remove WL nodes I f l t b :
  WL !! f = Some l -> nodes !! t = Some (Waiter b f true) ->
  lists_ok WL nodes I -> lists_ok (<[f := filter (fun y => y <> t) l]> WL) (<[t := Waiter b f false]> nodes) I.
Proof.
  intros Hf Hn H g l'. rewrite lookup_insert_Some. intros [[<- <-]|[Hne Hg]].
  - destruct (H f l Hf) as (H1 & H2 & H3). split_and!; [by apply NoDup_filter| |].
    + intros _. apply H2. intros ->. assert (t ∈ ([] : list Z)) as Ht by (apply H3; eauto). by apply elem_of_nil in Ht.
    + intros u. rewrite list_elem_of_filter, H3. cases t u; naive_solver.
  - destruct (H g l' Hg) as (H1 & H2 & H3). split_and!; [done|done|].
    intros u. rewrite H3. cases t u; naive_solver.
Qed.

Lemma lists_node_del WL nodes I t b f :
  nodes !! t = Some (Waiter b f false) -> lists_ok WL nodes I -> lists_ok WL (delete t nodes) I.
Proof.
  intros Hn H g l Hg. destruct (H g l Hg) as (H1 & H2 & H3). split_and!; [done|done|].
  intros u. rewrite H3. cases t u; naive_solver.
Qed.

Lemma lists_tree WL nodes I f b :
  b = true \/ WL !! f = Some [] -> lists_ok WL nodes I -> lists_ok WL nodes (<[f := b]> I).
Proof.
  intros Hb H g l Hg. destruct (H g l Hg) as (H1 & H2 & H3). split_and!; [done| |done].
  intros Hl. cases f g; [|by apply H2]. destruct Hb as [-> |Hf]; [done|]. congruence.
Qed.

Lemma lists_new WL nodes I f :
  I !! f = None -> (forall t nd, nodes !! t = Some nd -> w_futex nd <> f) -> lists_ok WL nodes I ->
  lists_ok (<[f := []]> WL) nodes (<[f := false]> I).
Proof.
  intros Hi Hn H g l. rewrite lookup_insert_Some. intros [[<- <-]|[Hne Hg]].
  - split_and!; [constructor|done|]. intros u. split; [by intros ?%elem_of_nil|]. intros [b Hb]. by apply Hn in Hb.
  - destruct (H g l Hg) as (H1 & H2 & H3). split_and!; [done| |done]. by rewrite lookup_insert_ne.
Qed.

Lemma lists_free WL nodes I f : lists_ok WL nodes I -> lists_ok (delete f WL) nodes (delete f I).
Proof.
  intros H g l [Hne Hg]%lookup_delete_Some. destruct (H g l Hg) as (H1 & H2 & H3). split_and!; [done| |done].
  by rewrite lookup_delete_ne.
Qed.

Lemma locks_tree LK o locks tree t b :
  (o = None /\ b = true) \/ (o = Some t /\ b = false) -> locks_ok LK o locks tree ->
  locks_ok LK (if b : bool then Some t else None) locks (<[t := b]> tree).
Proof.
  intros Hb (H1 & H2 & H3). split_and!; [|done|done]. intros u. specialize (H1 u).
  cases t u; destruct Hb as [[-> ->]|[-> ->]]; try naive_solver.
Qed.

Lemma locks_acquire LK o locks tree f t a :
  LK !! f = Some None -> locks_ok LK o locks tree ->
  locks_ok (<[f := Some t]> LK) o (<[t := (f, a) :: locks t]> locks) tree.
Proof.
  intros Hf (H1 & H2 & H3). assert (Hno : forall u b, (f, b) ∉ locks u).
  { intros u b Hb. assert (LK !! f = Some (Some u)) by (apply H2; eauto). congruence. }
  split_and!; [done| |].
  - intros g u. cases f g.
    + cases t u; [set_solver|]. split; [naive_solver|]. intros [b Hb]. by apply Hno in Hb.
    + rewrite H2. cases t u; [|done]. set_solver.
  - intros u. cases t u; [|done]. cbn. constructor; [|done]. intros (p & Hp & Hin)%list_elem_of_fmap.
    destruct p as [f' b]. cbn in Hp. subst f'. by apply Hno in Hin.
Qed.

Definition drop_lock f (l : list (Z * Z)) : list (Z * Z) := filter (fun p => fst p <> f) l.

Lemma locks_release LK o locks tree f t :
  LK !! f = Some (Some t) -> locks_ok LK o locks tree ->
  locks_ok (<[f := None]> LK) o (<[t := drop_lock f (locks t)]> locks) tree.
Proof.
  intros Hf (H1 & H2 & H3). split_and!; [done| |].
  - intros g u. cases f g.
    + split; [done|]. intros [b Hb]. exfalso. revert Hb. cases t u.
      * unfold drop_lock. rewrite list_elem_of_filter. naive_solver.
      * intros Hb. assert (LK !! f = Some (Some u)) by (apply H2; eauto). congruence.
    + rewrite H2. cases t u; [|done]. unfold drop_lock. split; intros [b Hb]; exists b; revert Hb; rewrite list_elem_of_filter; naive_solver.
  - intros u. cases t u; [|done]. by apply NoDup_fmap_filter.
Qed.

Lemma locks_new LK o locks tree f :
  LK !! f = None -> locks_ok LK o locks tree -> locks_ok (<[f := None]> LK) o locks tree.
Proof. intros Hf (H1 & H2 & H3). split_and!; [done| |done]. intros g u. rewrite <- H2. cases f g; naive_solver. Qed.

Lemma locks_free LK o locks tree f :
  (forall t, LK !! f <> Some (Some t)) -> locks_ok LK o locks tree -> locks_ok (delete f LK) o locks tree.
Proof. intros Hf (H1 & H2 & H3). split_and!; [done| |done]. intros g u. rewrite <- H2. cases f g; naive_solver. Qed.

Lemma known_set I known tree locks f b :
  b = true \/ (forall t, f ∉ known t) -> known_ok I known tree locks -> known_ok (<[f := b]> I) known tree locks.
Proof.
  intros Hb H t g Hg. destruct (H t g Hg) as [H1 H2]. split; [|done]. cases f g; [|done]. naive_solver.
Qed.

Lemma known_free I known tree locks f :
  I !! f <> Some true -> known_ok I known tree locks -> known_ok (delete f I) known tree locks.
Proof. intros Hb H t g Hg. destruct (H t g Hg) as [H1 H2]. split; [|done]. cases f g; naive_solver. Qed.

Lemma known_new I known tree locks f b :
  I !! f = None -> known_ok I known tree locks -> known_ok (<[f := b]> I) known tree locks.
Proof. intros Hb H t g Hg. destruct (H t g Hg) as [H1 H2]. split; [|done]. cases f g; naive_solver. Qed.

Lemma known_local I known tree locks t k tr l :
  (forall f, f ∈ k -> I !! f = Some true /\ (tr = true \/ f ∈ fst <$> l)) -> known_ok I known tree locks ->
  known_ok I (<[t := k]> known) (<[t := tr]> tree) (<[t := l]> locks).
Proof. intros Hk H u f. cases t u; [apply Hk|apply H]. Qed.

Lemma duty_new WL I duty f : duty_ok WL I duty -> duty_ok (<[f := []]> WL) (<[f := false]> I) duty.
Proof. intros H g. cases f g; [done|apply H]. Qed.

Lemma duty_free WL I duty f : duty_ok WL I duty -> duty_ok (delete f WL) (delete f I) duty.
Proof. intros H g. cases f g; [done|apply H]. Qed.

Lemma duty_local WL I duty t d :
  (forall f, f ∈ duty t -> f ∈ d \/ WL !! f <> Some [] \/ I !! f <> Some true) ->
  duty_ok WL I duty -> duty_ok WL I (<[t := d]> duty).
Proof.
  intros Hd H f Hw Hi. destruct (H f Hw Hi) as [u Hu]. exists u. cases t u; [|done]. destruct (Hd f Hu) as [|[|]]; done.
Qed.
End parts.
