(* ===== verification/FutexSteps.v ===== *)
(** * The steps of the futex code preserve the invariant

    [becomes me g s L]: the invariant holds in [s] for a ghost state that differs from [g] only
    for the thread [me], which now has [L].  One lemma for each piece of code between two lock
    operations says what becomes of the thread. *)

From stdpp Require Import functions.
From S2P Require Import Prelude OrdSeq Futex FutexInv.

(** ** Local ghost states *)

Definition with_refs r (L : local) : local :=
  Local r (l_tree L) (l_locks L) (l_known L) (l_node L) (l_asleep L) (l_queue L) (l_waking L) (l_thread L) (l_duty L).
Definition with_tree b (L : local) : local :=
  Local (l_refs L) b (l_locks L) (l_known L) (l_node L) (l_asleep L) (l_queue L) (l_waking L) (l_thread L) (l_duty L).
Definition with_locks l (L : local) : local :=
  Local (l_refs L) (l_tree L) l (l_known L) (l_node L) (l_asleep L) (l_queue L) (l_waking L) (l_thread L) (l_duty L).
Definition with_known k (L : local) : local :=
  Local (l_refs L) (l_tree L) (l_locks L) k (l_node L) (l_asleep L) (l_queue L) (l_waking L) (l_thread L) (l_duty L).
Definition with_node b c (L : local) : local :=
  Local (l_refs L) (l_tree L) (l_locks L) (l_known L) b c (l_queue L) (l_waking L) (l_thread L) (l_duty L).
Definition with_queue q (L : local) : local :=
  Local (l_refs L) (l_tree L) (l_locks L) (l_known L) (l_node L) (l_asleep L) q (l_waking L) (l_thread L) (l_duty L).
Definition with_thread w t (L : local) : local :=
  Local (l_refs L) (l_tree L) (l_locks L) (l_known L) (l_node L) (l_asleep L) (l_queue L) w t (l_duty L).
Definition with_duty d (L : local) : local :=
  Local (l_refs L) (l_tree L) (l_locks L) (l_known L) (l_node L) (l_asleep L) (l_queue L) (l_waking L) (l_thread L) d.

(** The transitions of a thread. *)
Definition take_ref i v L : local := with_refs (<[i := v]> (l_refs L)) L.
Definition drop_ref i L : local := with_refs (delete i (l_refs L)) L.
Definition learn f L : local := with_known (f :: l_known L) L.

Definition frame (me : Z) (g g' : ghost) : Prop := forall t, t <> me -> at_thread g' t = at_thread g t.

Definition becomes (me : Z) (g : ghost) (s : fstate) (L : local) : Prop :=
  exists g', inv s g' /\ frame me g g' /\ at_thread g' me = L.

Lemma becomes_trans me g s L s' L' :
  becomes me g s L -> (forall g', inv s g' -> at_thread g' me = L -> becomes me g' s' L') -> becomes me g s' L'.
Proof.
  intros (g1 & H1 & F1 & E1) H. destruct (H g1 H1 E1) as (g2 & H2 & F2 & E2). exists g2. split_and!; [done| |done].
  intros t Ht. rewrite F2 by done. by apply F1.
Qed.

Lemma becomes_refl me g s L : inv s g -> at_thread g me = L -> becomes me g s L.
Proof. intros H E. by exists g. Qed.

(** Proves the frame and the local state for an explicit ghost state. *)
Ltac ghosts :=
  lazymatch goal with
  | |- frame _ _ _ => intros ? ?; unfold at_thread; cbn; rewrite ?fn_lookup_insert_ne by done; try reflexivity
  | |- at_thread _ _ = _ => unfold at_thread; cbn; rewrite ?fn_lookup_insert; try reflexivity
  end.

Ltac become g' := exists g'; split; [|split; [ghosts|ghosts]].

(** Fields that an assignment does not change. *)
Lemma proj_same {B} (p : libos_futex -> B) (h : gmap Z libos_futex) f x x' :
  h !! f = Some x -> p x' = p x -> p <$> <[f := x']> h = p <$> h.
Proof. intros Hx Hp. rewrite fmap_insert, Hp. apply insert_id. by rewrite lookup_fmap, Hx. Qed.

Lemma proj_at {B} (p : libos_futex -> B) (h : gmap Z libos_futex) f x : h !! f = Some x -> (p <$> h) !! f = Some (p x).
Proof. intros Hx. by rewrite lookup_fmap, Hx. Qed.

Lemma at_proj {B} (p : libos_futex -> B) (h : gmap Z libos_futex) f y :
  (p <$> h) !! f = Some y -> exists x, h !! f = Some x /\ p x = y.
Proof. rewrite lookup_fmap, fmap_Some. naive_solver. Qed.

Ltac same Hx :=
  rewrite ?(proj_same uaddr _ _ _ _ Hx) by done; rewrite ?(proj_same waiters _ _ _ _ Hx) by done;
  rewrite ?(proj_same in_tree _ _ _ _ Hx) by done; rewrite ?(proj_same f_lock _ _ _ _ Hx) by done;
  rewrite ?(proj_same ref_count _ _ _ _ Hx) by done.

Ltac projs Hx := same Hx; rewrite ?fmap_insert.

(** ** Changes of the ghost state alone *)

Section steps.
Variable me : Z.
Implicit Types (s : fstate) (g : ghost) (f : Z) (i : nat) (L : local).

Lemma know f s g L :
  inv s g -> at_thread g me = L -> (in_tree <$> heap s) !! f = Some true -> l_tree L = true \/ f ∈ fst <$> l_locks L ->
  becomes me g s (learn f L).
Proof.
  intros [] <- Hf Hl.
  become (Ghost (g_toks g) (g_ttoks g) (g_refs g) (g_tree g) (g_locks g) (<[me := f :: g_known g me]> (g_known g))
                (g_node g) (g_asleep g) (g_queue g) (g_waking g) (g_thread g) (g_duty g)).
  constructor; cbn; try done. intros t h. destruct (decide (t = me)) as [->|].
  - rewrite fn_lookup_insert, elem_of_cons. intros [->|Hh]; [done|by apply inv_known].
  - rewrite fn_lookup_insert_ne by done. apply inv_known.
Qed.

Lemma forget k s g L : inv s g -> at_thread g me = L -> k ⊆ l_known L -> becomes me g s (with_known k L).
Proof.
  intros [] <- Hk.
  become (Ghost (g_toks g) (g_ttoks g) (g_refs g) (g_tree g) (g_locks g) (<[me := k]> (g_known g))
                (g_node g) (g_asleep g) (g_queue g) (g_waking g) (g_thread g) (g_duty g)).
  constructor; cbn; try done. intros t h. destruct (decide (t = me)) as [->|].
  - rewrite fn_lookup_insert. intros Hh. by apply inv_known, Hk.
  - rewrite fn_lookup_insert_ne by done. apply inv_known.
Qed.

Lemma change_duty d s g L :
  inv s g -> at_thread g me = L ->
  (forall f, f ∈ l_duty L -> f ∈ d \/ (waiters <$> heap s) !! f <> Some [] \/ (in_tree <$> heap s) !! f <> Some true) ->
  becomes me g s (with_duty d L).
Proof.
  intros [] <- Hd.
  become (Ghost (g_toks g) (g_ttoks g) (g_refs g) (g_tree g) (g_locks g) (g_known g)
                (g_node g) (g_asleep g) (g_queue g) (g_waking g) (g_thread g) (<[me := d]> (g_duty g))).
  constructor; cbn; try done. by apply duty_local.
Qed.

(** ** References *)

Lemma get_slot i f x s g L :
  inv s g -> at_thread g me = L -> heap s !! f = Some x -> l_refs L !! i = None -> i <> TMP ->
  (exists o, (f, o) ∈ g_toks g /\ forall t, o <> OSlot t TMP) ->
  wp (get_futex f) (fun _ s' => s' = set_heap (<[f := with_ref (ref_count x + 1) x]> (heap s)) s /\
                      becomes me g s' (take_ref i (f, uaddr x) L)) s.
Proof.
  intros [] <- Hx Hi Htmp (o & Ho & Hne). unfold get_futex, deref, store. unfold wp, mbind, SM_bind. rewrite Hx. cbn. split; [done|].
  become (Ghost ({[(f, OSlot me i)]} ∪ g_toks g) (g_ttoks g) (<[me := <[i := (f, uaddr x)]> (g_refs g me)]> (g_refs g))
                (g_tree g) (g_locks g) (g_known g) (g_node g) (g_asleep g) (g_queue g) (g_waking g) (g_thread g) (g_duty g)).
  constructor; cbn; projs Hx; try done.
  - apply refs_add; [by apply proj_at| |done]. destruct inv_toks as (_ & _ & H3). rewrite H3. naive_solver.
  - by apply toks_slot_add.
  - eapply spare_add; [done..| |done]. intros t [= _ ->]. done.
  - apply addr_slot_add; [done| |done]. by apply (proj_at uaddr).
Qed.

Lemma put_slot i f a s g L :
  inv s g -> at_thread g me = L -> l_refs L !! i = Some (f, a) -> f ∉ fst <$> l_locks L ->
  wp (put_futex f) (fun _ s' => becomes me g s' (drop_ref i L)) s.
Proof.
  intros [] <- Hi Hf. cbn in Hi, Hf. assert (Htok : (f, OSlot me i) ∈ g_toks g) by (destruct inv_toks as (_ & _ & H3); apply H3; eauto).
  pose proof inv_addr as (Ha & Hb & _). pose proof (Ha _ _ _ _ Hi) as Hfa. apply at_proj in Hfa as (x & Hx & <-).
  pose proof inv_refs as [Hr _]. destruct (Hr f _ (proj_at ref_count _ _ _ Hx)) as [Hc Hpos].
  unfold put_futex, deref, wp, mbind, SM_bind. rewrite Hx. destruct (Z.ltb_spec (ref_count x - 1) 0); [lia|].
  set (g' := Ghost (g_toks g ∖ {[(f, OSlot me i)]}) (g_ttoks g) (<[me := delete i (g_refs g me)]> (g_refs g))
               (g_tree g) (g_locks g) (g_known g) (g_node g) (g_asleep g) (g_queue g) (g_waking g) (g_thread g) (g_duty g)).
  destruct (Z.eqb_spec (ref_count x - 1) 0) as [Hz|Hz]; cbn.
  - assert (Hone : forall o, (f, o) ∈ g_toks g -> o = OSlot me i).
    { intros o Ho. destruct (decide (o = OSlot me i)) as [|Hne]; [done|].
      pose proof (count_two f o (OSlot me i) _ Ho Htok Hne). lia. }
    assert (Hnt : (in_tree <$> heap s) !! f <> Some true).
    { destruct inv_toks as (H1 & _). intros Ht. apply H1, Hone in Ht. done. }
    become g'. constructor; cbn; rewrite ?fmap_delete; try done.
    + apply refs_free; [|done|done]. rewrite (proj_at ref_count _ _ _ Hx). f_equal. lia.
    + apply toks_free; [done|]. by eapply toks_slot_del.
    + eapply spare_sub, inv_spare. set_solver.
    + apply addr_free; [|by eapply addr_slot_del]. intros t j b Hj.
      assert (Hj' : exists b, g_refs g t !! j = Some (f, b) /\ (t, j) <> (me, i)).
      { destruct (decide (t = me)) as [->|]; [|rewrite fn_lookup_insert_ne in Hj by done; naive_solver].
        rewrite fn_lookup_insert, lookup_delete_Some in Hj. naive_solver. }
      destruct Hj' as (b' & Hj' & Hne). destruct inv_toks as (_ & _ & H3).
      assert (OSlot t j = OSlot me i) as [= -> ->] by (apply Hone, H3; eauto). done.
    + by apply tree_free.
    + by apply lists_free.
    + apply locks_free; [|done]. intros t Ht. destruct inv_locks as (_ & H2 & _). apply H2 in Ht as [b Ht].
      destruct (Hb _ _ _ Ht) as [j Hj]. destruct inv_toks as (_ & _ & H3).
      assert (OSlot t j = OSlot me i) as [= -> ->] by (apply Hone, H3; eauto).
      apply Hf, list_elem_of_fmap. by exists (f, b).
    + by apply known_free.
    + by apply duty_free.
  - become g'. constructor; cbn; projs Hx; try done.
    + apply refs_del; [by apply proj_at|done|lia|done].
    + by eapply toks_slot_del.
    + eapply spare_sub, inv_spare. set_solver.
    + by eapply addr_slot_del.
Qed.

Lemma tree_find_spec a tree :
  match tree_find a tree with Some (b, f) => b = a /\ (a, f) ∈ tree | None => forall f, (a, f) ∉ tree end.
Proof.
  unfold tree_find. destruct (List.find _ tree) as [[b f]|] eqn:E.
  - apply List.find_some in E as [Hin Hc]. unfold futex_tree_cmp in Hc. cbn in Hc. apply list_elem_of_In in Hin.
    breflect. assert (b = a) as -> by lia. done.
  - intros f Hin. apply list_elem_of_In in Hin. apply (List.find_none _ _ E) in Hin. unfold futex_tree_cmp in Hin.
    cbn in Hin. by rewrite Z.leb_refl in Hin.
Qed.

Lemma tree_unique A I tree a f f' : tree_ok A I tree -> (a, f) ∈ tree -> (a, f') ∈ tree -> f = f'.
Proof.
  intros [Hs _]. revert f f'. induction Hs as [|x l Hl IH Hx]; intros f f'; [by intros ?%elem_of_nil|].
  rewrite Forall_forall in Hx. rewrite !elem_of_cons. intros [<-|H1] [H2|H2].
  - by injection H2 as <-.
  - apply Hx in H2. cbn in H2. lia.
  - subst x. apply Hx in H1. cbn in H1. lia.
  - by apply IH.
Qed.

(** A futex that the thread knows to be in the tree is found. *)
Definition finds L a (r : option Z) : Prop := forall j f, l_refs L !! j = Some (f, a) -> f ∈ l_known L -> r = Some f.

Lemma known_in_tree s g L j f a :
  inv s g -> at_thread g me = L -> l_refs L !! j = Some (f, a) -> f ∈ l_known L -> (a, f) ∈ g_futex_tree s.
Proof.
  intros [] <- Hj Hk. destruct inv_tree as [_ Ht]. apply Ht. destruct inv_addr as (Ha & _).
  split; [exact (Ha me j f a Hj)|]. by apply (inv_known me).
Qed.

Lemma locked_tree s g L : inv s g -> at_thread g me = L -> l_tree L = true -> spinlock_is_locked me TreeLock s = true.
Proof. intros [] <- Ht. apply bool_decide_eq_true_2. by apply inv_locks. Qed.

Lemma locked_futex f s g L :
  inv s g -> at_thread g me = L -> f ∈ fst <$> l_locks L -> spinlock_is_locked me (FutexLock f) s = true.
Proof.
  intros [] <- ([f' a] & -> & Hin)%list_elem_of_fmap. apply bool_decide_eq_true_2. rewrite <- lookup_fmap.
  apply inv_locks. by exists a.
Qed.

Lemma wp_locked l (Q : unit -> fstate -> Prop) s : spinlock_is_locked me l s = true -> Q () s -> wp (assert_locked me l) Q s.
Proof. intros Hl HQ. unfold wp, assert_locked. by rewrite Hl. Qed.

Lemma find_spec i a s g L :
  inv s g -> at_thread g me = L -> l_tree L = true -> l_refs L !! i = None -> i <> TMP ->
  wp (find_futex me a) (fun r s' => finds L a r /\
    match r with
    | None => s' = s /\ forall f, (a, f) ∉ g_futex_tree s
    | Some f => becomes me g s' (learn f (take_ref i (f, a) L))
    end) s.
Proof.
  intros Hinv HL Ht Hi Htmp. pose proof Hinv as []. unfold find_futex. apply wp_bind, wp_locked; [by eapply locked_tree|].
  apply wp_bind, wp_gets. pose proof (tree_find_spec a (g_futex_tree s)) as Hfind.
  destruct (tree_find a (g_futex_tree s)) as [[b f]|].
  - destruct Hfind as [-> Hin]. pose proof inv_tree as [_ H2]. apply H2 in Hin as Hin'. destruct Hin' as [Ha Hf].
    apply at_proj in Ha as (x & Hx & <-). apply wp_bind. cbn [snd].
    eapply wp_mono. { apply (get_slot i f x _ g L); try done. exists OTree. split; [|done]. by apply inv_toks. }
    intros _ s' [-> Hb]. apply wp_ret. split.
    { intros j h Hj Hk. f_equal. eapply tree_unique; [done|done|]. by eapply known_in_tree. }
    eapply becomes_trans; [exact Hb|]. intros g' Hinv' E.
    apply know; [done|done| |by left]. cbn. by rewrite (proj_same in_tree _ _ _ _ Hx).
  - apply wp_ret. split; [|done]. intros j h Hj Hk. exfalso. eapply Hfind. by eapply known_in_tree.
Qed.

(** ** New futexes *)

Lemma create_spec a s g L :
  inv s g -> at_thread g me = L -> l_refs L !! TMP = None ->
  wp (create_new_futex a) (fun tmp s' => becomes me g s' (take_ref TMP (tmp, a) L)) s.
Proof.
  intros [] <- Hi. cbn in Hi. unfold create_new_futex, wp. set (n := next_ptr s).
  assert (Hn : heap s !! n = None).
  { destruct inv_addr as (_ & _ & H3). specialize (H3 n ltac:(lia)). by rewrite lookup_fmap, fmap_None in H3. }
  assert (Hno : forall o, (n, o) ∉ g_toks g).
  { intros o Ho. apply inv_refs in Ho. rewrite lookup_fmap, Hn in Ho. by destruct Ho. }
  assert (Hp : forall {B} (p : libos_futex -> B), (p <$> heap s) !! n = None) by (intros; by rewrite lookup_fmap, Hn).
  become (Ghost ({[(n, OSlot me TMP)]} ∪ g_toks g) (g_ttoks g) (<[me := <[TMP := (n, a)]> (g_refs g me)]> (g_refs g))
                (g_tree g) (g_locks g) (g_known g) (g_node g) (g_asleep g) (g_queue g) (g_waking g) (g_thread g) (g_duty g)).
  constructor; cbn; rewrite ?fmap_insert; cbn; try done.
  - by apply refs_new.
  - by apply toks_slot_add, toks_new.
  - by apply spare_new.
  - apply addr_slot_add; [done|apply lookup_insert_eq|]. by apply addr_new.
  - by apply tree_new.
  - apply lists_new; [done| |done]. intros t nd Hnd <-. destruct inv_toks as (_ & T2 & _).
    apply (Hno (OWaiter t)), T2. by rewrite lookup_fmap, Hnd.
  - by apply locks_new.
  - by apply known_new.
  - by apply duty_new.
Qed.

Lemma spare_private s g L f a : inv s g -> at_thread g me = L -> l_refs L !! TMP = Some (f, a) ->
  exists x, heap s !! f = Some x /\ uaddr x = a /\ in_tree x = false /\ waiters x = [] /\ (f, OSlot me TMP) ∈ g_toks g.
Proof.
  intros [] <- Hi. cbn in Hi. assert (Ht : (f, OSlot me TMP) ∈ g_toks g) by (apply inv_toks; eauto).
  destruct inv_addr as (Ha & _). destruct (at_proj _ _ _ _ (Ha _ _ _ _ Hi)) as (x & Hx & Hu).
  assert (Hin : in_tree x = false).
  { destruct (in_tree x) eqn:E; [|done]. assert (OTree = OSlot me TMP); [|done]. apply (inv_spare f me OTree Ht).
    apply inv_toks. by rewrite lookup_fmap, Hx, <- E. }
  exists x. split_and!; try done. destruct (inv_lists f (waiters x) (proj_at _ _ _ _ Hx)) as (_ & H2 & _).
  destruct (waiters x) as [|w l]; [done|]. rewrite lookup_fmap, Hx in H2. cbn in H2. specialize (H2 ltac:(done)). congruence.
Qed.

(** The local variable [futex] takes over the reference of [tmp]. *)
Definition use_tmp v L : local := with_refs (<[O := v]> (delete TMP (l_refs L))) L.

Lemma move_tmp f a s g L :
  inv s g -> at_thread g me = L -> l_refs L !! TMP = Some (f, a) -> l_refs L !! O = None -> becomes me g s (use_tmp (f, a) L).
Proof.
  intros [] <- Hi H0. cbn in *. set (r := <[O := (f, a)]> (delete TMP (g_refs g me))).
  assert (Hr : forall j v, r !! j = Some v <-> (j = O /\ v = (f, a)) \/ (j <> O /\ j <> TMP /\ g_refs g me !! j = Some v)).
  { intros j v. unfold r. rewrite lookup_insert_Some, lookup_delete_Some. naive_solver. }
  assert (H3 : forall h t j, (h, OSlot t j) ∈ g_toks g <-> exists b, g_refs g t !! j = Some (h, b)) by apply inv_toks.
  become (Ghost ({[(f, OSlot me O)]} ∪ (g_toks g ∖ {[(f, OSlot me TMP)]})) (g_ttoks g) (<[me := r]> (g_refs g))
                (g_tree g) (g_locks g) (g_known g) (g_node g) (g_asleep g) (g_queue g) (g_waking g) (g_thread g) (g_duty g)).
  constructor; cbn; try done.
  - apply refs_swap; [apply H3; eauto|rewrite H3; naive_solver|done].
  - destruct inv_toks as (H1 & H2 & _). split_and!; intros *; rewrite elem_of_union, elem_of_difference, !elem_of_singleton.
    + rewrite H1. naive_solver.
    + rewrite H2. naive_solver.
    + rewrite H3. destruct (decide (t = me)) as [->|]; [rewrite fn_lookup_insert|rewrite fn_lookup_insert_ne by done; naive_solver].
      setoid_rewrite Hr. destruct (decide (i = O)) as [->|]; [naive_solver|]. destruct (decide (i = TMP)) as [->|]; naive_solver.
  - intros h t o. rewrite !elem_of_union, !elem_of_difference, !elem_of_singleton. intros [?|[H1 H1']]; [naive_solver|].
    intros [[= -> ->]|[H2 _]]; [|by apply (inv_spare h)]. exfalso.
    assert ((f, OSlot me TMP) ∈ g_toks g) as H4 by (apply H3; eauto).
    apply (inv_spare f t _ H1) in H4. injection H4 as ->. done.
  - destruct inv_addr as (Ha & Hb & Hc). split_and!; [| |done]; intros t.
    + intros j h b. destruct (decide (t = me)) as [->|]; [rewrite fn_lookup_insert, Hr|rewrite fn_lookup_insert_ne by done; apply Ha].
      intros [[-> [= -> ->]]|(_ & _ & Hj)]; eauto.
    + intros h b Hl. destruct (Hb _ _ _ Hl) as [j Hj].
      destruct (decide (t = me)) as [->|]; [rewrite fn_lookup_insert|rewrite fn_lookup_insert_ne by done; by exists j].
      destruct (decide (j = TMP)) as [->|]; [exists O|exists j]; apply Hr; [left; naive_solver|right]. split_and!; try done.
      intros ->. congruence.
Qed.

Definition enqueued f a L : local := with_duty (f :: l_duty L) (learn f (use_tmp (f, a) L)).

Lemma enqueue_slot f a x s g L :
  inv s g -> at_thread g me = L -> l_tree L = true -> l_refs L !! O = Some (f, a) -> heap s !! f = Some x -> uaddr x = a ->
  in_tree x = false -> (forall h, (a, h) ∉ g_futex_tree s) ->
  wp (enqueue_futex me f) (fun _ s' => becomes me g s' (with_duty (f :: l_duty L) (learn f L))) s.
Proof.
  intros Hinv HL Ht Hi Hx <- Hin Hno. unfold enqueue_futex. apply wp_bind, wp_locked; [by eapply locked_tree|].
  destruct Hinv. subst L. cbn in *. unfold wp, get_futex, deref, store, mbind, SM_bind. rewrite Hx. cbn.
  rewrite lookup_insert_eq. cbn. rewrite insert_insert_eq. set (x' := with_in_tree true (with_ref (ref_count x + 1) x)).
  assert (Hf : (in_tree <$> heap s) !! f = Some false) by (by rewrite lookup_fmap, Hx, <- Hin).
  become (Ghost ({[(f, OTree)]} ∪ g_toks g) (g_ttoks g) (g_refs g) (g_tree g) (g_locks g)
                (<[me := f :: g_known g me]> (g_known g)) (g_node g) (g_asleep g) (g_queue g)
                (g_waking g) (g_thread g) (<[me := f :: g_duty g me]> (g_duty g))).
  constructor; cbn; projs Hx; try done.
  - apply refs_add; [by apply proj_at| |done]. destruct inv_toks as (H1 & _). rewrite H1. congruence.
  - by apply toks_tree_add.
  - eapply (spare_add _ f OTree (OSlot me O)); [|done..]. apply inv_toks. eauto.
  - apply tree_add; [by apply (proj_at uaddr)|done..].
  - by apply lists_tree; [left|].
  - pose proof (known_set _ _ _ _ f true (or_introl eq_refl) inv_known) as Hk. intros t h.
    destruct (decide (t = me)) as [->|]; [|rewrite fn_lookup_insert_ne by done; apply Hk].
    rewrite fn_lookup_insert, elem_of_cons. intros [->|Hh]; [rewrite lookup_insert_eq; auto|by apply Hk].
  - intros h Hw Hh. destruct (decide (h = f)) as [->|]; [exists me; rewrite fn_lookup_insert; set_solver|].
    rewrite lookup_insert_ne in Hh by done. destruct (inv_duty h Hw Hh) as [t Hd]. exists t.
    destruct (decide (t = me)) as [->|]; [rewrite fn_lookup_insert; set_solver|by rewrite fn_lookup_insert_ne].
Qed.

Lemma enqueue_spec f a s g L :
  inv s g -> at_thread g me = L -> l_tree L = true -> l_refs L !! TMP = Some (f, a) -> l_refs L !! O = None ->
  (forall h, (a, h) ∉ g_futex_tree s) -> wp (enqueue_futex me f) (fun _ s' => becomes me g s' (enqueued f a L)) s.
Proof.
  intros Hinv HL Ht Hi H0 Hno. destruct (spare_private _ _ _ _ _ Hinv HL Hi) as (x & Hx & Ha & Hin & _ & _).
  destruct (move_tmp f a s g L) as (g1 & Hinv1 & F1 & E1); [done..|].
  eapply wp_mono; [apply (enqueue_slot f a x s g1 _ Hinv1 E1); try done; cbn; apply lookup_insert_eq|].
  intros _ s' (g2 & Hinv2 & F2 & E2). exists g2. split_and!; [done| |done]. intros t Hne. rewrite F2 by done. by apply F1.
Qed.

Lemma find_or_enqueue_spec a tmp s g L :
  inv s g -> at_thread g me = L -> l_tree L = true -> l_refs L !! TMP = Some (tmp, a) -> l_refs L !! O = None ->
  wp (find_or_enqueue me a tmp) (fun r s' =>
    (snd r = Some tmp /\ becomes me g s' (learn (fst r) (take_ref O (fst r, a) L))) \/
    (r = (tmp, None) /\ becomes me g s' (enqueued tmp a L))) s.
Proof.
  intros Hinv HL Ht Hi H0. unfold find_or_enqueue. apply wp_bind.
  eapply wp_mono; [apply (find_spec O a s g L); done|]. intros [f|] s' [_ Hr].
  - apply wp_ret. left. done.
  - destruct Hr as [-> Hno]. apply wp_bind. eapply wp_mono; [by apply (enqueue_spec tmp a s g L)|].
    intros [] s' Hb. apply wp_ret. right. done.
Qed.
End steps.
