(* ===== verification/FutexWait.v ===== *)
(** * Waiting and leaving the tree

    The parts of [futex_wait] between two lock operations, and [_maybe_dequeue_futex]. *)

From stdpp Require Import functions.
From S2P Require Import Prelude OrdSeq Futex FutexInv FutexSteps.

Section wait.
Variable me : Z.
Implicit Types (s : fstate) (g : ghost) (f : Z) (i : nat) (L : local).

Definition settle f L : local := with_duty (filter (fun h => h <> f) (l_duty L)) L.

Lemma tree_lock_excl s g t u : inv s g -> g_tree g t = true -> g_tree g u = true -> t = u.
Proof. intros [] H1 H2. destruct inv_locks as (H & _). apply H in H1, H2. congruence. Qed.

Lemma lock_excl s g f t u : inv s g -> f ∈ fst <$> g_locks g t -> f ∈ fst <$> g_locks g u -> t = u.
Proof.
  intros [] ([? a] & -> & H1)%list_elem_of_fmap ([? b] & E & H2)%list_elem_of_fmap. cbn in E. subst.
  destruct inv_locks as (_ & H & _). match type of H1 with (?h, _) ∈ _ => assert ((f_lock <$> heap s) !! h = Some (Some t)) by (apply H; eauto);
    assert ((f_lock <$> heap s) !! h = Some (Some u)) by (apply H; eauto) end. congruence.
Qed.

(** Holding both locks excludes knowledge of other threads about the futex. *)
Lemma both_locks s g f t :
  inv s g -> g_tree g me = true -> f ∈ fst <$> g_locks g me -> g_tree g t = true \/ f ∈ fst <$> g_locks g t -> t = me.
Proof. intros Hinv H1 H2 [H3|H3]; [by eapply tree_lock_excl|by eapply lock_excl]. Qed.

(** A locked futex exists, and its holder has a reference. *)
Lemma locked_exists s g f :
  inv s g -> f ∈ fst <$> g_locks g me -> exists x i, heap s !! f = Some x /\ (f, OSlot me i) ∈ g_toks g.
Proof.
  intros [] ([? a] & -> & H1)%list_elem_of_fmap. destruct inv_addr as (Ha & Hb & _). destruct (Hb _ _ _ H1) as [i Hi].
  destruct (at_proj _ _ _ _ (Ha _ _ _ _ Hi)) as (x & Hx & _). exists x, i. split; [done|]. apply inv_toks. eauto.
Qed.

Lemma tok_waiter s g w b f o : inv s g -> wnodes s !! w = Some (Waiter b f o) -> (f, OWaiter w) ∈ g_toks g.
Proof. intros [] Hw. destruct inv_toks as (_ & H & _). apply H. by rewrite lookup_fmap, Hw. Qed.

Lemma tok_tree s g f x : inv s g -> heap s !! f = Some x -> in_tree x = true -> (f, OTree) ∈ g_toks g.
Proof. intros [] Hx Hi. destruct inv_toks as (H & _). apply H. by rewrite lookup_fmap, Hx, <- Hi. Qed.

Lemma check_dequeue_spec f s g L :
  inv s g -> at_thread g me = L -> f ∈ fst <$> l_locks L ->
  wp (check_dequeue_futex me f) (fun b s' => s' = s /\
    b = bool_decide ((waiters <$> heap s) !! f = Some [] /\ (in_tree <$> heap s) !! f = Some true)) s.
Proof.
  intros Hinv HL Hf. unfold check_dequeue_futex. apply wp_bind, wp_locked; [by eapply locked_futex|].
  destruct (locked_exists s g f Hinv) as (x & _ & Hx & _); [by subst L|].
  unfold wp, deref, mbind, SM_bind. rewrite Hx. cbn. split; [done|]. rewrite !lookup_fmap, Hx. cbn. unfold LISTP_EMPTY.
  destruct (waiters x), (in_tree x); symmetry; cbn; (apply bool_decide_eq_true_2 || apply bool_decide_eq_false_2); naive_solver.
Qed.

Lemma settle_spec f s g L :
  inv s g -> at_thread g me = L ->
  bool_decide ((waiters <$> heap s) !! f = Some [] /\ (in_tree <$> heap s) !! f = Some true) = false ->
  becomes me g s (settle f L).
Proof.
  intros Hinv HL Hb%bool_decide_eq_false. apply change_duty; [done..|]. intros h Hh.
  destruct (decide (h = f)) as [->|]; [|left; by apply list_elem_of_filter]. right.
  destruct (decide ((waiters <$> heap s) !! f = Some [])); [right|left]; naive_solver.
Qed.

(** ** Leaving the tree *)

Definition left_tree f L : local := settle f (with_known (filter (fun h => h <> f) (l_known L)) L).

Lemma put_tree f x n s :
  heap s !! f = Some x -> ref_count x = n -> 2 <= n -> put_futex f s = Some ((), set_heap (<[f := with_ref (n - 1) x]> (heap s)) s).
Proof.
  intros Hx <- Hn. unfold put_futex, deref, mbind, SM_bind. rewrite Hx.
  destruct (Z.ltb_spec (ref_count x - 1) 0); [lia|]. destruct (Z.eqb_spec (ref_count x - 1) 0); [lia|]. done.
Qed.

Lemma ref_two s g f x o o' :
  inv s g -> heap s !! f = Some x -> (f, o) ∈ g_toks g -> (f, o') ∈ g_toks g -> o <> o' -> 2 <= ref_count x.
Proof.
  intros [] Hx H1 H2 Hne. destruct inv_refs as [Hr _]. destruct (Hr f _ (proj_at ref_count _ _ _ Hx)) as [-> _].
  by apply (count_two f o o').
Qed.

Lemma dequeue_step f x s g L :
  inv s g -> at_thread g me = L -> l_tree L = true -> f ∈ fst <$> l_locks L -> heap s !! f = Some x -> waiters x = [] ->
  in_tree x = true ->
  becomes me g (set_heap (<[f := with_ref (ref_count x - 1) (with_in_tree false x)]> (heap s))
                 (set_tree (filter (fun node => snd node <> f) (g_futex_tree s)) s)) (left_tree f L).
Proof.
  intros Hinv <- Ht Hf Hx Hw Hin. cbn in Ht, Hf. destruct (locked_exists s g f Hinv Hf) as (_ & i & _ & Hslot).
  assert (Htok : (f, OTree) ∈ g_toks g) by (by eapply tok_tree).
  pose proof (ref_two _ _ _ _ _ _ Hinv Hx Htok Hslot ltac:(done)) as Hn.
  assert (Hexcl : forall t, f ∈ g_known g t -> t = me).
  { intros t Hk. apply (both_locks s g f t); [done..|]. by apply (inv_known _ _ Hinv). }
  destruct Hinv.
  become (Ghost (g_toks g ∖ {[(f, OTree)]}) (g_ttoks g) (g_refs g) (g_tree g) (g_locks g)
            (<[me := filter (fun h => h <> f) (g_known g me)]> (g_known g)) (g_node g) (g_asleep g) (g_queue g) (g_waking g)
            (g_thread g) (<[me := filter (fun h => h <> f) (g_duty g me)]> (g_duty g))).
  constructor; cbn; projs Hx; try done.
  - apply refs_del; [by apply proj_at|done|lia|done].
  - by apply toks_tree_del.
  - eapply spare_sub, inv_spare. set_solver.
  - by apply tree_del.
  - apply lists_tree; [right; by rewrite lookup_fmap, Hx, <- Hw|done].
  - apply known_set.
    + right. intros t. destruct (decide (t = me)) as [->|]; [rewrite fn_lookup_insert, list_elem_of_filter; naive_solver|].
      rewrite fn_lookup_insert_ne by done. naive_solver.
    + intros t h. destruct (decide (t = me)) as [->|]; [rewrite fn_lookup_insert|rewrite fn_lookup_insert_ne by done; apply inv_known].
      intros [_ Hh]%list_elem_of_filter. by apply inv_known.
  - apply duty_local.
    + intros h Hh. destruct (decide (h = f)) as [->|]; [right; right|left; by apply list_elem_of_filter].
      by rewrite lookup_insert_eq.
    + intros h Hh. destruct (decide (h = f)) as [->|]; [by rewrite lookup_insert_eq|]. rewrite lookup_insert_ne by done. auto.
Qed.

Lemma maybe_dequeue_step f s g L :
  inv s g -> at_thread g me = L -> l_tree L = true -> f ∈ fst <$> l_locks L ->
  wp (_maybe_dequeue_futex me f) (fun _ s' => becomes me g s' (left_tree f L)) s.
Proof.
  intros Hinv HL Ht Hf. unfold _maybe_dequeue_futex. apply wp_bind, wp_locked; [by eapply locked_futex|].
  apply wp_bind, wp_locked; [by eapply locked_tree|]. apply wp_bind. eapply wp_mono; [by eapply check_dequeue_spec|].
  intros b s' [-> Hb]. destruct b; symmetry in Hb.
  - apply bool_decide_eq_true in Hb as [Hw Hin]. apply at_proj in Hw as (x & Hx & Hw). rewrite lookup_fmap, Hx in Hin.
    injection Hin as Hin. pose proof (dequeue_step f x s g L Hinv HL Ht Hf Hx Hw Hin) as Hb.
    destruct (locked_exists s g f Hinv) as (_ & i & _ & Hslot); [by subst L|].
    assert (Htok : (f, OTree) ∈ g_toks g) by (by eapply tok_tree).
    pose proof (ref_two _ _ _ _ _ _ Hinv Hx Htok Hslot ltac:(done)) as Hn.
    unfold wp, deref, store, mbind, SM_bind. cbn. rewrite Hx. cbn.
    erewrite put_tree; [|apply lookup_insert_eq|reflexivity|done]. unfold set_heap in *. cbn in *. by rewrite insert_insert_eq.
  - apply wp_ret. eapply becomes_trans.
    { eapply (forget me (filter (fun h => h <> f) (l_known L)) s g L); [done..|]. intros h. rewrite list_elem_of_filter. tauto. }
    intros g' Hinv' HL'. by apply settle_spec.
Qed.

(** ** Becoming a waiter *)

Lemma trefs_add r TT nodes queue thread t b f :
  (forall b' f', nodes !! t <> Some (Waiter b' f' true)) -> trefs_ok r TT nodes queue thread ->
  trefs_ok (<[t := r t + 1]> r) ({[(t, OList)]} ∪ TT) (<[t := Waiter b f true]> nodes) queue thread.
Proof.
  intros Hno (H1 & H2 & H3 & H4). assert ((t, OList) ∉ TT) by (rewrite H2; naive_solver). split_and!.
  - intros u. rewrite count_add by done. destruct (decide (u = t)) as [->|].
    + by rewrite fn_lookup_insert, H1.
    + rewrite fn_lookup_insert_ne, H1 by done. lia.
  - intros u. rewrite elem_of_union, elem_of_singleton, H2. destruct (decide (u = t)) as [->|].
    + rewrite lookup_insert_eq. naive_solver.
    + rewrite lookup_insert_ne by done. naive_solver.
  - intros u v. rewrite elem_of_union, elem_of_singleton, <- H3. naive_solver.
  - intros u v. rewrite elem_of_union, elem_of_singleton, <- H4. naive_solver.
Qed.

Definition start_waiting f L : local := settle f (with_node (Some None) true L).

Lemma add_waiter_step f x b s g L :
  inv s g -> at_thread g me = L -> heap s !! f = Some x -> f ∈ l_known L -> l_node L = None ->
  becomes me g (FState (<[f := with_waiters (waiters x ++ [me]) (with_ref (ref_count x + 1) x)]> (heap s)) (next_ptr s)
                  (g_futex_tree s) (g_futex_tree_lock s) (<[me := Waiter b f true]> (wnodes s)) (words s) (user_ok s)
                  (queued s) (events s ∖ {[me]}) (<[me := thread_refs s me + 1]> (thread_refs s)) (robust_list s))
          (start_waiting f L).
Proof.
  intros [] <- Hx Hk Hnode. cbn in Hk, Hnode. pose proof (inv_known _ _ Hk) as [Hin _].
  assert (Hno : wnodes s !! me = None).
  { destruct inv_wake as (H1 & _). destruct (wnodes s !! me) eqn:E; [|done].
    assert (is_Some (g_node g me)) as [? ?] by (apply H1; eauto). congruence. }
  become (Ghost ({[(f, OWaiter me)]} ∪ g_toks g) ({[(me, OList)]} ∪ g_ttoks g) (g_refs g) (g_tree g) (g_locks g) (g_known g)
            (<[me := Some None]> (g_node g)) (<[me := true]> (g_asleep g)) (g_queue g) (g_waking g) (g_thread g)
            (<[me := filter (fun h => h <> f) (g_duty g me)]> (g_duty g))).
  constructor; cbn; projs Hx; try done.
  - apply refs_add; [by apply proj_at| |done]. destruct inv_toks as (_ & H2 & _). rewrite H2, lookup_fmap, Hno. done.
  - apply toks_wait_add; [by rewrite lookup_fmap, Hno|done].
  - apply (spare_add _ f _ OTree); [|done..]. by apply inv_toks.
  - apply lists_add; [by apply (proj_at waiters)|done|naive_solver|done].
  - intros t h. destruct (decide (t = me)) as [->|]; [by rewrite fn_lookup_insert|rewrite fn_lookup_insert_ne by done].
    rewrite lookup_insert_ne by done. apply inv_at.
  - destruct inv_wake as (H1 & H2 & H3 & H4 & H5). split_and!; try done; intros t;
      (destruct (decide (t = me)) as [->|]; [rewrite fn_lookup_insert, lookup_insert_eq|rewrite fn_lookup_insert_ne, lookup_insert_ne by done]).
    + split; eauto.
    + apply H1.
    + intros _. eexists. split; [done|]. by left.
    + intros Ht. destruct (H2 t Ht) as (nd & Hnd & H'). exists nd. split; [done|]. set_solver.
  - apply trefs_add; [naive_solver|done].
  - apply duty_local.
    + intros h Hh. destruct (decide (h = f)) as [->|]; [right; left|left; by apply list_elem_of_filter].
      rewrite lookup_insert_eq. cbn. by destruct (waiters x).
    + intros h Hw. destruct (decide (h = f)) as [->|]; [rewrite lookup_insert_eq in Hw; cbn in Hw; by destruct (waiters x)|].
      rewrite lookup_insert_ne in Hw by done. by apply inv_duty.
Qed.

Lemma wait_enqueue_spec f a val b s g L :
  inv s g -> at_thread g me = L -> f ∈ fst <$> l_locks L -> f ∈ l_known L -> l_node L = None ->
  wp (wait_enqueue me f a val b) (fun r s' =>
    match r with
    | (false, nd) => becomes me g s' (if nd : bool then L else settle f L)
    | (true, _) => becomes me g s' (start_waiting f L)
    end) s.
Proof.
  intros Hinv HL Hf Hk Hn. unfold wait_enqueue. apply wp_bind, wp_gets. destruct (words s a =? val); cbn [negb].
  - apply wp_bind. unfold thread_prepare_wait. apply wp_modify, wp_bind. unfold add_futex_waiter.
    apply wp_bind, wp_locked. { exact (locked_futex me f s g L Hinv HL Hf). }
    destruct (locked_exists s g f Hinv) as (x & _ & Hx & _); [by subst L|].
    pose proof (add_waiter_step f x b s g L Hinv HL Hx Hk Hn) as Hb.
    unfold wp, get_thread, get_futex, LISTP_ADD_TAIL, deref, store, waiter_of, set_waiter, mbind, SM_bind. cbn. rewrite Hx. cbn.
    rewrite lookup_insert_eq. cbn. rewrite lookup_insert_eq. cbn. unfold set_wnodes, set_heap, set_events, set_thread_refs. cbn.
    rewrite !insert_insert_eq. exact Hb.
  - apply wp_bind. eapply wp_mono; [by eapply check_dequeue_spec|]. intros nd s' [-> Hnd]. apply wp_ret.
    destruct nd; [by apply becomes_refl|]. by apply settle_spec.
Qed.

(** ** Waking up *)

Definition located f L : local := with_node (Some (Some f)) (l_asleep L) L.

Lemma current_futex_spec s g L :
  inv s g -> at_thread g me = L -> l_tree L = true -> l_refs L !! O = None -> l_node L = Some None ->
  wp (current_futex me) (fun f s' => exists a, becomes me g s' (located f (take_ref O (f, a) L))) s.
Proof.
  intros Hinv HL Ht H0 Hn. pose proof Hinv as []. unfold current_futex.
  assert (exists nd, wnodes s !! me = Some nd) as [nd Hnd].
  { destruct inv_wake as (H1 & _). apply H1. subst L. cbn in Hn. rewrite Hn. eauto. }
  assert (Htok : (w_futex nd, OWaiter me) ∈ g_toks g) by (destruct nd; by eapply tok_waiter).
  assert (exists x, heap s !! w_futex nd = Some x) as [x Hx].
  { destruct inv_refs as [_ H]. destruct (H _ _ Htok) as [n Hr]. apply at_proj in Hr as (x & Hx & _). eauto. }
  apply wp_bind. unfold wp at 1, waiter_of. rewrite Hnd. apply wp_bind.
  eapply wp_mono; [apply (get_slot me O (w_futex nd) x s g L); try done; by exists (OWaiter me)|].
  intros [] s' [-> Hb]. apply wp_ret. exists (uaddr x). eapply becomes_trans; [exact Hb|].
  intros g' [] HL'. assert (Ht' : g_tree g' me = true) by (by change (l_tree (at_thread g' me) = true); rewrite HL').
  replace (located _ _) with (with_node (Some (Some (w_futex nd))) (g_asleep g' me) (at_thread g' me)) by (unfold located; by rewrite <- HL').
  become (Ghost (g_toks g') (g_ttoks g') (g_refs g') (g_tree g') (g_locks g') (g_known g')
            (<[me := Some (Some (w_futex nd))]> (g_node g')) (g_asleep g') (g_queue g') (g_waking g') (g_thread g') (g_duty g')).
  constructor; cbn; try done.
  - intros t f. destruct (decide (t = me)) as [->|]; [rewrite fn_lookup_insert|rewrite fn_lookup_insert_ne by done; apply inv_at0].
    intros [= <-]. split; [|by left]. destruct nd as [b h o]. cbn in *. eauto.
  - destruct inv_wake0 as (H1 & H2). split; [|done]. intros t.
    destruct (decide (t = me)) as [->|]; [rewrite fn_lookup_insert|rewrite fn_lookup_insert_ne by done; apply H1].
    cbn. rewrite Hnd. split; eauto.
Qed.

Lemma trefs_finish r TT nodes queue thread b f :
  nodes !! me = Some (Waiter b f true) -> thread me = None -> trefs_ok r TT nodes queue thread ->
  trefs_ok r ({[(me, OHeld me)]} ∪ (TT ∖ {[(me, OList)]})) (delete me nodes) queue (<[me := Some me]> thread).
Proof.
  intros Hn Ht (H1 & H2 & H3 & H4). assert ((me, OList) ∈ TT) by (rewrite H2; eauto).
  assert ((me, OHeld me) ∉ TT) by (rewrite H4; congruence).
  assert (Hin : forall p, p ∈ ({[(me, OHeld me)]} ∪ (TT ∖ {[(me, OList)]})) <-> p = (me, OHeld me) \/ (p ∈ TT /\ p <> (me, OList)))
    by set_solver.
  split_and!; intros *; rewrite ?Hin.
  - rewrite count_add, count_del, H1 by set_solver. case_decide; lia.
  - rewrite H2. setoid_rewrite lookup_delete_Some. naive_solver.
  - rewrite H3. naive_solver.
  - rewrite H4. destruct (decide (u = me)) as [->|]; [rewrite fn_lookup_insert|rewrite fn_lookup_insert_ne by done]; naive_solver.
Qed.

Lemma trefs_unlisted r TT nodes queue thread b f :
  nodes !! me = Some (Waiter b f false) -> thread me = None -> trefs_ok r TT nodes queue thread ->
  trefs_ok r TT (delete me nodes) queue (<[me := None]> thread).
Proof.
  intros Hn Hth (H1 & H2 & H3 & H4). split_and!; try done.
  - intros t. rewrite H2. setoid_rewrite lookup_delete_Some.
    split; [|naive_solver]. intros (b' & f' & Ht). exists b', f'. split; [|done]. intros <-. congruence.
  - intros t u. rewrite H4. destruct (decide (u = me)) as [->|]; [by rewrite fn_lookup_insert, Hth|by rewrite fn_lookup_insert_ne].
Qed.

Lemma wake_finish nodes q e node asleep queue waking :
  asleep me = false -> wake_ok nodes q e node asleep queue waking ->
  wake_ok (delete me nodes) q e (<[me := None]> node) asleep queue waking.
Proof.
  intros Ha (H1 & H2 & H3 & H4 & H5). split_and!; try done; intros t; destruct (decide (t = me)) as [->|].
  - rewrite fn_lookup_insert, lookup_delete_eq. split; by intros [].
  - rewrite fn_lookup_insert_ne, lookup_delete_ne by done. apply H1.
  - congruence.
  - rewrite lookup_delete_ne by done. apply H2.
Qed.

Definition waited (thread : option Z) f L : local := with_duty (f :: l_duty L) (with_thread None thread (with_node None false L)).

Lemma finish_step f x b o s g L :
  inv s g -> at_thread g me = L -> heap s !! f = Some x -> wnodes s !! me = Some (Waiter b f o) -> (exists i, l_refs L !! i = Some (f, uaddr x)) ->
  l_asleep L = false -> l_thread L = None -> l_waking L = None ->
  let l := if o then filter (fun y => y <> me) (waiters x) else waiters x in
  becomes me g (set_wnodes (delete me (wnodes s)) (set_heap (<[f := with_ref (ref_count x - 1) (with_waiters l x)]> (heap s)) s))
    (waited (if o then Some me else None) f L).
Proof.
  intros Hinv <- Hx Hn (i & Hi) Ha Hth Hwk l. cbn in Ha, Hth, Hwk, Hi.
  assert (Htok : (f, OWaiter me) ∈ g_toks g) by (by eapply tok_waiter).
  assert (Hslot : (f, OSlot me i) ∈ g_toks g) by (apply (inv_toks _ _ Hinv); eauto).
  pose proof (ref_two _ _ _ _ _ _ Hinv Hx Htok Hslot ltac:(done)) as Href. destruct Hinv.
  become (Ghost (g_toks g ∖ {[(f, OWaiter me)]}) (if o then {[(me, OHeld me)]} ∪ (g_ttoks g ∖ {[(me, OList)]}) else g_ttoks g)
            (g_refs g) (g_tree g) (g_locks g) (g_known g) (<[me := None]> (g_node g)) (g_asleep g) (g_queue g) (g_waking g)
            (<[me := if o then Some me else None]> (g_thread g)) (<[me := f :: g_duty g me]> (g_duty g))).
  2:{ unfold waited, with_duty, with_thread, with_node. cbn. by rewrite Ha, Hwk. }
  constructor; cbn; projs Hx; rewrite ?fmap_delete; try done.
  - apply refs_del; [by apply proj_at|done|lia|done].
  - apply toks_wait_del; [by rewrite lookup_fmap, Hn|done].
  - eapply spare_sub, inv_spare. set_solver.
  - subst l. destruct o; cbn.
    + rewrite <- (delete_insert_eq (wnodes s) me (Waiter b f false)). eapply lists_node_del; [apply lookup_insert_eq|].
      apply lists_remove; [by apply (proj_at waiters)|done..].
    + rewrite insert_id by (by apply (proj_at waiters)). by eapply lists_node_del.
  - intros t h. destruct (decide (t = me)) as [->|]; [by rewrite fn_lookup_insert|rewrite fn_lookup_insert_ne by done].
    rewrite lookup_delete_ne by done. apply inv_at.
  - by apply wake_finish.
  - destruct o; [by eapply trefs_finish|by eapply trefs_unlisted].
  - intros h Hw Hh. destruct (decide (h = f)) as [->|]; [exists me; rewrite fn_lookup_insert; set_solver|].
    rewrite lookup_insert_ne in Hw by done. destruct (inv_duty h Hw Hh) as [t Ht]. exists t.
    destruct (decide (t = me)) as [->|]; [rewrite fn_lookup_insert; set_solver|by rewrite fn_lookup_insert_ne].
Qed.

Lemma waiter_in_list s g f x t b o : inv s g -> heap s !! f = Some x -> wnodes s !! t = Some (Waiter b f o) -> (t ∈ waiters x <-> o = true).
Proof.
  intros [] Hx Hn. destruct (inv_lists f _ (proj_at waiters _ _ _ Hx)) as (_ & _ & H3). rewrite H3. naive_solver.
Qed.

Lemma wait_finish_spec f ret s g L :
  inv s g -> at_thread g me = L -> l_node L = Some (Some f) -> f ∈ fst <$> l_locks L ->
  l_asleep L = false -> l_thread L = None -> l_waking L = None ->
  wp (wait_finish me f ret) (fun r s' => let '(_, thread, nd) := r in (thread = None \/ thread = Some me) /\
    becomes me g s' (if nd : bool then waited thread f L else settle f (waited thread f L))) s.
Proof.
  intros Hinv HL Hn Hf Ha Hth Hwk. pose proof (locked_futex me f s g L Hinv HL Hf) as Hlocked.
  assert (exists b o, wnodes s !! me = Some (Waiter b f o)) as (b & o & Hnd) by (apply (inv_at _ _ Hinv); by subst L).
  assert (exists x, heap s !! f = Some x /\ exists i, l_refs L !! i = Some (f, uaddr x)) as (x & Hx & Hi).
  { subst L. apply list_elem_of_fmap in Hf as ([? a] & -> & Hf). destruct (inv_addr _ _ Hinv) as (H1 & H2 & _).
    destruct (H2 _ _ _ Hf) as [i Hi]. destruct (at_proj _ _ _ _ (H1 _ _ _ _ Hi)) as (x & Hx & <-). exists x. split; [done|]. by exists i. }
  pose proof (finish_step f x b o s g L Hinv HL Hx Hnd Hi Ha Hth Hwk) as Hb. cbv zeta in Hb.
  assert (Href : 2 <= ref_count x).
  { destruct Hi as [i Hi]. destruct (inv_toks _ _ Hinv) as (_ & T2 & T3).
    apply (ref_two s g f x (OWaiter me) (OSlot me i) Hinv Hx); [| |done].
    - apply T2. by rewrite lookup_fmap, Hnd.
    - apply T3. exists (uaddr x). by subst L. }
  set (s' := set_wnodes _ _) in Hb. set (thread := if o then Some me else None) in Hb.
  assert (Hrun : exists ret', wait_finish me f ret s =
            (nd ← check_dequeue_futex me f; mret (ret', thread, nd)) s').
  { unfold wait_finish. unfold mbind at 1, SM_bind at 1, waiter_of at 1. rewrite Hnd. cbn [w_on_list w_futex].
    destruct o.
    - exists (if (ret =? 0) || (ret =? - EINTR) then - ERESTARTSYS else ret).
      unfold remove_futex_waiter, assert_locked, LISTP_DEL_INIT, deref, waiter_of, store, set_waiter, mbind, SM_bind. cbn -[spinlock_is_locked].
      rewrite Hlocked, Hx, Hnd. rewrite bool_decide_eq_true_2 by (by eapply (waiter_in_list s g f x)). cbn.
      erewrite put_tree; [|apply lookup_insert_eq|reflexivity|done]. cbn. unfold s', set_wnodes, set_heap. cbn.
      by rewrite insert_insert_eq, delete_insert_eq.
    - exists (if ret =? - EINTR then 0 else ret). unfold mbind, SM_bind. cbn.
      erewrite put_tree; [|exact Hx|reflexivity|done]. cbn. unfold s', set_wnodes, set_heap. cbn.
      by destruct x. }
  destruct Hrun as [ret' Hrun]. unfold wp. rewrite Hrun. destruct Hb as (g' & Hinv' & F' & E').
  assert (Hf' : f ∈ fst <$> l_locks (at_thread g' me)) by (by rewrite E').
  pose proof (check_dequeue_spec f s' g' _ Hinv' eq_refl Hf') as Hc. unfold wp in Hc. unfold mbind, SM_bind.
  destruct (check_dequeue_futex me f s') as [[nd s1]|]; [|done]. destruct Hc as [-> Hnd']. cbn.
  split; [by destruct o; [right|left]|]. destruct nd; [by exists g'|]. symmetry in Hnd'.
  destruct (settle_spec f s' g' _ Hinv' E' Hnd') as (g2 & Hinv2 & F2 & E2). exists g2. split_and!; [done| |done].
  intros t Ht. rewrite F2 by done. by apply F'.
Qed.
End wait.
