(* ===== verification/FutexWake.v ===== *)
(** * Waking and moving waiters

    The steps of a waker: taking a waiter off its list, moving it to another futex, and waking
    up its thread. *)

From stdpp Require Import functions.
From S2P Require Import Prelude OrdSeq Futex FutexInv FutexSteps FutexWait.

Section wake.
Variable me : Z.
Implicit Types (s : fstate) (g : ghost) (f t u w : Z) (L : local).

(** ** Threads in the queue *)

(** [w] leaves its list; its thread is put into the queue of [me] unless it is in a queue. *)
Definition wake_toks (q : bool) w (TT : gset (Z * towner)) : gset (Z * towner) :=
  if q then TT ∖ {[(w, OList)]} else {[(w, OQueue me)]} ∪ (TT ∖ {[(w, OList)]}).

Lemma trefs_wake r r' TT nodes queue thread w b f (q : bool) :
  nodes !! w = Some (Waiter b f true) -> (q = false -> w ∉ queue me) ->
  (forall t, r' t = if decide (t = w) then r w - (if q then 1 else 0) else r t) ->
  trefs_ok r TT nodes queue thread ->
  trefs_ok r' (wake_toks q w TT) (<[w := Waiter b f false]> nodes) (if q then queue else <[me := w :: queue me]> queue) thread.
Proof.
  intros Hn Hq Hr (H1 & H2 & H3 & H4). assert (Hl : (w, OList) ∈ TT) by (rewrite H2; eauto).
  assert (Hin : forall p, p ∈ wake_toks q w TT <-> (q = false /\ p = (w, OQueue me)) \/ (p ∈ TT /\ p <> (w, OList)))
    by (intros p; unfold wake_toks; destruct q; set_solver).
  split_and!; intros *; rewrite ?Hin.
  - rewrite Hr. unfold wake_toks. destruct q; [|rewrite count_add by (rewrite elem_of_difference, H3; naive_solver)];
      rewrite count_del by done; case_decide; subst; rewrite H1; lia.
  - rewrite H2. clear H1 H2 H3 H4 Hin Hr. destruct (decide (t = w)) as [->|].
    + rewrite lookup_insert_eq. split; [|naive_solver]. intros [[_ [= ]]|[_ Hne]]. done.
    + rewrite lookup_insert_ne by done. split; [|naive_solver]. intros [[_ [= ]]|[H _]]. done.
  - rewrite H3. clear H1 H2 H3 H4 Hin Hr Hl. destruct q.
    + split; [|naive_solver]. intros [[[=] _]|[H _]]. done.
    + destruct (decide (u = me)) as [->|].
      * rewrite fn_lookup_insert, elem_of_cons. split; [|naive_solver]. intros [[_ [= ->]]|[H _]]; auto.
      * rewrite fn_lookup_insert_ne by done. split; [|naive_solver]. intros [[_ [= ]]|[H _]]; done.
  - rewrite H4. clear. split; [|naive_solver]. intros [[_ [= ]]|[H _]]; done.
Qed.

Lemma wake_wake nodes qs e node asleep queue waking w b f (q : bool) :
  nodes !! w = Some (Waiter b f true) -> q = bool_decide (w ∈ qs) -> wake_ok nodes qs e node asleep queue waking ->
  wake_ok (<[w := Waiter b f false]> nodes) ({[w]} ∪ qs) e node asleep
    (if q then queue else <[me := w :: queue me]> queue) waking.
Proof.
  intros Hn Hq (H1 & H2 & H3 & H4 & H5). split_and!.
  - intros t. rewrite <- H1. destruct (decide (t = w)) as [->|]; [rewrite lookup_insert_eq, Hn|rewrite lookup_insert_ne by done; done].
    split; eauto.
  - intros t Ht. destruct (H2 t Ht) as (nd & Hnd & H'). destruct (decide (t = w)) as [->|].
    + eexists. rewrite lookup_insert_eq. split; [done|]. set_solver.
    + exists nd. rewrite lookup_insert_ne by done. split; [done|]. set_solver.
  - intros t. rewrite elem_of_union, elem_of_singleton, H3. destruct q; symmetry in Hq.
    + apply bool_decide_eq_true in Hq. split; [|naive_solver]. intros [->|]; [by apply H3|done].
    + split.
      * intros [->|[u Hu]]; [exists me; rewrite fn_lookup_insert; set_solver|]. exists u.
        destruct (decide (u = me)) as [->|]; [rewrite fn_lookup_insert; set_solver|by rewrite fn_lookup_insert_ne].
      * intros [u Hu]. destruct (decide (u = me)) as [->|]; [rewrite fn_lookup_insert in Hu|rewrite fn_lookup_insert_ne in Hu by done; eauto].
        apply elem_of_cons in Hu as [->|Hu]; eauto.
  - intros u. destruct q; [done|]. destruct (decide (u = me)) as [->|]; [rewrite fn_lookup_insert|by rewrite fn_lookup_insert_ne].
    constructor; [|done]. symmetry in Hq. apply bool_decide_eq_false in Hq. intros Hw. apply Hq, H3. eauto.
  - destruct q; [done|]. symmetry in Hq. apply bool_decide_eq_false in Hq.
    assert (Hno : forall u, w ∉ queue u) by (intros u Hu; apply Hq, H3; eauto).
    intros t u v. destruct (decide (u = me)) as [->|], (decide (v = me)) as [->|];
      rewrite ?fn_lookup_insert, ?fn_lookup_insert_ne by done; rewrite ?elem_of_cons; naive_solver.
Qed.

Lemma at_nodes nodes node tree locks w b f o o' :
  nodes !! w = Some (Waiter b f o) -> at_ok nodes node tree locks -> at_ok (<[w := Waiter b f o']> nodes) node tree locks.
Proof.
  intros Hn H t h Ht. destruct (H t h Ht) as [(b' & o1 & Hb) Hl]. split; [|done].
  destruct (decide (t = w)) as [->|]; [rewrite lookup_insert_eq; naive_solver|rewrite lookup_insert_ne by done; eauto].
Qed.

(** What [wake_waiter] does to the state. *)
Record woken_state f w x b s s' : Prop := {
  ws_heap : heap s' = <[f := with_waiters (filter (fun y => y <> w) (waiters x)) x]> (heap s);
  ws_nodes : wnodes s' = <[w := Waiter b f false]> (wnodes s);
  ws_queued : queued s' = {[w]} ∪ queued s;
  ws_words : words s' = words s;
}.

Lemma listed_node s g f x w : inv s g -> heap s !! f = Some x -> w ∈ waiters x -> exists b, wnodes s !! w = Some (Waiter b f true).
Proof. intros [] Hx Hw. by apply (inv_lists f _ (proj_at waiters _ _ _ Hx)). Qed.

Lemma wake_waiter_spec f x w queue s g L :
  inv s g -> at_thread g me = L -> f ∈ fst <$> l_locks L -> f ∈ l_duty L -> l_queue L = queue ->
  heap s !! f = Some x -> w ∈ waiters x ->
  wp (wake_waiter me f queue w) (fun queue' s' => exists b, wnodes s !! w = Some (Waiter b f true) /\
    woken_state f w x b s s' /\ becomes me g s' (with_queue queue' L)) s.
Proof.
  intros Hinv HL Hf Hd Hq Hx Hw. pose proof (locked_futex me f s g L Hinv HL Hf) as Hlocked.
  destruct (listed_node s g f x w Hinv Hx Hw) as [b Hnd]. set (q := bool_decide (w ∈ queued s)).
  destruct (inv_trefs _ _ Hinv) as (Hr & Hr2 & Hr3 & _). pose proof (Hr w) as Hrw.
  assert (Hpos : 1 <= thread_refs s w) by (rewrite Hrw; eapply count_pos; apply Hr2; eauto).
  assert (Hqme : q = false -> w ∉ g_queue g me).
  { intros E%bool_decide_eq_false Hin. apply E. destruct (inv_wake _ _ Hinv) as (_ & _ & H3 & _). apply H3. eauto. }
  set (r' := if q then <[w := thread_refs s w - 1]> (thread_refs s)
             else <[w := thread_refs s w + 1 - 1]> (<[w := thread_refs s w + 1]> (thread_refs s))).
  set (s' := FState (<[f := with_waiters (filter (fun y => y <> w) (waiters x)) x]> (heap s)) (next_ptr s) (g_futex_tree s)
               (g_futex_tree_lock s) (<[w := Waiter b f false]> (wnodes s)) (words s) (user_ok s) ({[w]} ∪ queued s) (events s)
               r' (robust_list s)).
  assert (Hrun : wake_waiter me f queue w s = Some (if q then queue else w :: queue, s')).
  { unfold wake_waiter, remove_futex_waiter, add_thread_to_queue, assert_locked, LISTP_DEL_INIT, deref, waiter_of, store,
      set_waiter, get_thread, put_thread, mbind, SM_bind. cbn -[spinlock_is_locked]. rewrite Hlocked, Hx, Hnd.
    rewrite bool_decide_eq_true_2 by done. cbn. fold q. unfold s', r'. destruct q eqn:Eq; cbn.
    - destruct (Z.leb_spec (thread_refs s w) 0); [lia|]. unfold q in Eq. apply bool_decide_eq_true in Eq.
      replace ({[w]} ∪ queued s) with (queued s) by set_solver. done.
    - rewrite fn_lookup_insert. destruct (Z.leb_spec (thread_refs s w + 1) 0); [lia|]. done. }
  unfold wp. rewrite Hrun. exists b. split; [done|]. split; [by constructor|]. subst L. cbn in Hq, Hd.
  destruct Hinv.
  become (Ghost (g_toks g) (wake_toks q w (g_ttoks g)) (g_refs g) (g_tree g) (g_locks g) (g_known g) (g_node g) (g_asleep g)
            (if q then g_queue g else <[me := w :: g_queue g me]> (g_queue g)) (g_waking g) (g_thread g) (g_duty g)).
  2:{ destruct q; [done|]. by rewrite fn_lookup_insert_ne. }
  2:{ unfold with_queue. cbn. destruct q; [by rewrite Hq|]. by rewrite fn_lookup_insert, Hq. }
  constructor; cbn; projs Hx; try done.
  - rewrite insert_id; [done|]. by rewrite lookup_fmap, Hnd.
  - cbn. apply lists_remove; [by apply (proj_at waiters)|done..].
  - by eapply at_nodes.
  - by apply wake_wake.
  - apply trefs_wake with (r := thread_refs s); [done|done| |done]. intros t. unfold r'. destruct q.
    + case_decide; [subst; by rewrite fn_lookup_insert|]. by rewrite fn_lookup_insert_ne.
    + case_decide; [subst; rewrite fn_lookup_insert; lia|]. by rewrite !fn_lookup_insert_ne.
  - intros h Hh Ht. destruct (decide (h = f)) as [->|]; [eauto|]. rewrite lookup_insert_ne in Hh by done. by apply inv_duty.
Qed.

(** ** Moving a waiter *)

Lemma trefs_move r TT nodes queue thread w b f f' :
  nodes !! w = Some (Waiter b f true) -> trefs_ok r TT nodes queue thread -> trefs_ok r TT (<[w := Waiter b f' true]> nodes) queue thread.
Proof.
  intros Hn (H1 & H2 & H3 & H4). split_and!; try done. intros t. rewrite H2.
  destruct (decide (t = w)) as [->|]; [rewrite lookup_insert_eq; naive_solver|by rewrite lookup_insert_ne].
Qed.

Lemma wake_move nodes q e node asleep queue waking w b f f' :
  nodes !! w = Some (Waiter b f true) -> wake_ok nodes q e node asleep queue waking ->
  wake_ok (<[w := Waiter b f' true]> nodes) q e node asleep queue waking.
Proof.
  intros Hn (H1 & H2 & H3). split_and!; try apply H3.
  - intros t. rewrite <- H1. destruct (decide (t = w)) as [->|]; [rewrite lookup_insert_eq, Hn; split; eauto|by rewrite lookup_insert_ne].
  - intros t Ht. destruct (decide (t = w)) as [->|]; [eexists; rewrite lookup_insert_eq; split; [done|by left]|].
    rewrite lookup_insert_ne by done. by apply H2.
Qed.

Definition moved f1 f2 x1 x2 w (h : gmap Z libos_futex) : gmap Z libos_futex :=
  <[f2 := with_waiters (waiters x2 ++ [w]) (with_ref (ref_count x2 + 1) x2)]>
    (<[f1 := with_ref (ref_count x1 - 1) (with_waiters (filter (fun y => y <> w) (waiters x1)) x1)]> h).

Lemma move_step f1 f2 x1 x2 w b s g L :
  inv s g -> at_thread g me = L -> l_tree L = true -> f1 ∈ fst <$> l_locks L -> f1 ∈ l_duty L -> f2 ∈ l_known L -> l_node L = None ->
  f1 <> f2 -> heap s !! f1 = Some x1 -> heap s !! f2 = Some x2 -> wnodes s !! w = Some (Waiter b f1 true) ->
  becomes me g (set_wnodes (<[w := Waiter b f2 true]> (wnodes s)) (set_heap (moved f1 f2 x1 x2 w (heap s)) s)) L.
Proof.
  intros Hinv <- Ht Hl Hd Hk Hnode Hne Hx1 Hx2 Hw. cbn in Ht, Hl, Hd, Hk, Hnode.
  destruct (locked_exists me s g f1 Hinv Hl) as (_ & i & _ & Hslot).
  assert (Htok : (f1, OWaiter w) ∈ g_toks g) by (by eapply tok_waiter).
  pose proof (ref_two _ _ _ _ _ _ Hinv Hx1 Htok Hslot ltac:(done)) as Href.
  assert (Hat : forall t, g_node g t <> Some (Some f1)).
  { intros t Hn. pose proof (inv_at _ _ Hinv _ _ Hn) as [_ Hlk].
    assert (t = me) as -> by (by eapply both_locks). congruence. }
  destruct Hinv. pose proof (inv_known _ _ Hk) as [Hin2 _].
  assert (Hx2' : (<[f1 := with_ref (ref_count x1 - 1) (with_waiters (filter (fun y => y <> w) (waiters x1)) x1)]> (heap s)) !! f2
                 = Some x2) by (by rewrite lookup_insert_ne).
  become (Ghost ({[(f2, OWaiter w)]} ∪ (g_toks g ∖ {[(f1, OWaiter w)]})) (g_ttoks g) (g_refs g) (g_tree g) (g_locks g) (g_known g)
            (g_node g) (g_asleep g) (g_queue g) (g_waking g) (g_thread g) (g_duty g)).
  unfold moved. constructor; cbn; same Hx2'; projs Hx1; try done.
  - apply refs_add; [rewrite lookup_insert_ne by done; by apply proj_at| |apply refs_del; [by apply proj_at|done|lia|done]].
    rewrite elem_of_difference. intros [H _]. destruct inv_toks as (_ & T2 & _). apply T2 in H. rewrite lookup_fmap, Hw in H. cbn in H. congruence.
  - apply toks_wait_move; [by rewrite lookup_fmap, Hw|done].
  - apply (spare_add _ f2 _ OTree); [|done|done|eapply spare_sub, inv_spare; set_solver].
    apply elem_of_difference. split; [by apply inv_toks|set_solver].
  - cbn. rewrite <- (insert_insert_eq (wnodes s) w (Waiter b f2 true) (Waiter b f1 false)).
    apply lists_add; [rewrite lookup_insert_ne by done; by apply (proj_at waiters)|done| |].
    + intros b' f'. rewrite lookup_insert_eq. congruence.
    + apply lists_remove; [by apply (proj_at waiters)|done..].
  - intros t h Hn. destruct (inv_at t h Hn) as [(b' & o & Hb) Hlk]. split; [|done].
    destruct (decide (t = w)) as [->|]; [|rewrite lookup_insert_ne by done; eauto]. exfalso. apply (Hat w). congruence.
  - by eapply wake_move.
  - by eapply trefs_move.
  - intros h Hh Hin. cbn in Hh. destruct (decide (h = f2)) as [->|].
    { rewrite lookup_insert_eq in Hh. by destruct (waiters x2). }
    rewrite lookup_insert_ne in Hh by done. destruct (decide (h = f1)) as [->|]; [eauto|].
    rewrite lookup_insert_ne in Hh by done. by apply inv_duty.
Qed.

Lemma rotate_step f x w s g L :
  inv s g -> at_thread g me = L -> heap s !! f = Some x -> w ∈ waiters x ->
  becomes me g (set_heap (<[f := with_waiters (filter (fun y => y <> w) (waiters x) ++ [w]) x]> (heap s)) s) L.
Proof.
  intros Hinv <- Hx Hw. destruct (listed_node s g f x w Hinv Hx Hw) as [b Hnd]. destruct Hinv.
  assert (Hin : (in_tree <$> heap s) !! f = Some true).
  { destruct (inv_lists f _ (proj_at waiters _ _ _ Hx)) as (_ & H2 & _). apply H2. intros E. rewrite E in Hw. by apply elem_of_nil in Hw. }
  exists g. split; [|done]. constructor; cbn; projs Hx; try done.
  - cbn. rewrite <- (insert_id (wnodes s) w (Waiter b f true)) by done.
    rewrite <- (insert_insert_eq (wnodes s) w (Waiter b f true) (Waiter b f false)).
    rewrite <- (insert_insert_eq (waiters <$> heap s) f _ (filter (fun y => y <> w) (waiters x))).
    apply lists_add; [apply lookup_insert_eq|done| |apply lists_remove; [by apply (proj_at waiters)|done..]].
    intros b' f'. rewrite lookup_insert_eq. congruence.
  - intros h Hh Hi. destruct (decide (h = f)) as [->|]; [|rewrite lookup_insert_ne in Hh by done; by apply inv_duty].
    rewrite lookup_insert_eq in Hh. cbn in Hh. by destruct (filter _ _).
Qed.

(** Successive assignments to the state. *)
Lemma set_heap_heap h h' s : set_heap h (set_heap h' s) = set_heap h s.
Proof. done. Qed.
Lemma set_heap_wnodes h n s : set_heap h (set_wnodes n s) = set_wnodes n (set_heap h s).
Proof. done. Qed.
Lemma set_wnodes_wnodes n n' s : set_wnodes n (set_wnodes n' s) = set_wnodes n s.
Proof. done. Qed.

Ltac sets := cbn [heap wnodes set_heap set_wnodes w_bitset w_futex];
  rewrite ?set_heap_wnodes, ?set_heap_heap, ?set_wnodes_wnodes; rewrite ?insert_insert_eq.

(** The effect of the list operations. *)
Lemma del_init_run w f x n s :
  heap s !! f = Some x -> wnodes s !! w = Some n -> w ∈ waiters x ->
  LISTP_DEL_INIT w f s = Some ((), set_wnodes (<[w := Waiter (w_bitset n) (w_futex n) false]> (wnodes s))
    (set_heap (<[f := with_waiters (filter (fun y => y <> w) (waiters x)) x]> (heap s)) s)).
Proof.
  intros Hx Hn Hw. unfold LISTP_DEL_INIT, deref, waiter_of, mbind, SM_bind. rewrite Hx, Hn.
  by rewrite bool_decide_eq_true_2 by done.
Qed.

Lemma add_tail_run w f x n s :
  heap s !! f = Some x -> wnodes s !! w = Some n ->
  LISTP_ADD_TAIL w f s = Some ((), set_wnodes (<[w := Waiter (w_bitset n) (w_futex n) true]> (wnodes s))
    (set_heap (<[f := with_waiters (waiters x ++ [w]) x]> (heap s)) s)).
Proof. intros Hx Hn. unfold LISTP_ADD_TAIL, deref, waiter_of, mbind, SM_bind. by rewrite Hx, Hn. Qed.

Lemma get_futex_run f x s :
  heap s !! f = Some x -> get_futex f s = Some ((), set_heap (<[f := with_ref (ref_count x + 1) x]> (heap s)) s).
Proof. intros Hx. unfold get_futex, deref, mbind, SM_bind. by rewrite Hx. Qed.

Lemma waiter_run w n s : wnodes s !! w = Some n -> waiter_of w s = Some (n, s).
Proof. intros Hn. unfold waiter_of. by rewrite Hn. Qed.

Lemma wp_eq {A} (m : SM fstate A) a s' (Q : A -> fstate -> Prop) s : m s = Some (a, s') -> Q a s' -> wp m Q s.
Proof. unfold wp. by intros ->. Qed.

(** After [move_futex_waiter] from [f1] to [f2], which may be the same. *)
Definition moved_state f1 f2 w s s' : Prop :=
  words s' = words s /\ queued s' = queued s /\
  exists x1 x2 b, heap s !! f1 = Some x1 /\ heap s !! f2 = Some x2 /\ wnodes s !! w = Some (Waiter b f1 true) /\
    wnodes s' = <[w := Waiter b f2 true]> (wnodes s) /\
    heap s' = if decide (f1 = f2) then <[f1 := with_waiters (filter (fun y => y <> w) (waiters x1) ++ [w]) x1]> (heap s)
              else moved f1 f2 x1 x2 w (heap s).

Lemma move_spec f1 f2 x1 w s g L :
  inv s g -> at_thread g me = L -> l_tree L = true -> f1 ∈ fst <$> l_locks L -> f2 ∈ fst <$> l_locks L -> f1 ∈ l_duty L ->
  f2 ∈ l_known L -> l_node L = None -> heap s !! f1 = Some x1 -> w ∈ waiters x1 ->
  wp (move_futex_waiter me w f1 f2) (fun _ s' => moved_state f1 f2 w s s' /\ becomes me g s' L) s.
Proof.
  intros Hinv HL Ht Hl1 Hl2 Hd Hk Hn Hx1 Hw. destruct (listed_node s g f1 x1 w Hinv Hx1 Hw) as [b Hnd].
  destruct (locked_exists me s g f2 Hinv) as (x2 & _ & Hx2 & _); [by subst L|].
  destruct (locked_exists me s g f1 Hinv) as (_ & i & _ & Hslot); [by subst L|].
  assert (Htok : (f1, OWaiter w) ∈ g_toks g) by (by eapply tok_waiter).
  pose proof (ref_two _ _ _ _ _ _ Hinv Hx1 Htok Hslot ltac:(done)) as Href.
  unfold move_futex_waiter. apply wp_bind, wp_locked; [by eapply locked_tree|]. apply wp_bind, wp_locked; [by eapply locked_futex|].
  apply wp_bind, wp_locked; [by eapply locked_futex|].
  apply wp_bind. eapply wp_eq; [by apply (del_init_run w f1 x1 _ s Hx1 Hnd)|]. cbn [w_bitset w_futex].
  destruct (decide (f1 = f2)) as [<-|Hne].
  - apply wp_bind. eapply wp_eq; [apply get_futex_run, lookup_insert_eq|].
    apply wp_bind. eapply wp_eq; [apply waiter_run, lookup_insert_eq|]. cbn [w_bitset w_futex].
    apply wp_bind. eapply wp_eq; [eapply put_tree; [apply lookup_insert_eq|reflexivity|cbn; lia]|].
    apply wp_bind. unfold set_waiter. apply wp_modify. eapply wp_eq; [eapply add_tail_run; apply lookup_insert_eq|].
    pose proof (rotate_step f1 x1 w s g L Hinv HL Hx1 Hw) as Hb.
    sets. rewrite (insert_id (wnodes s)) by done.
    match goal with |- context [<[f1 := ?z]> (heap s)] =>
      replace z with (with_waiters (filter (fun y => y <> w) (waiters x1) ++ [w]) x1)
        by (unfold with_waiters, with_ref; cbn; f_equal; lia) end.
    split; [|done]. split; [done|]. split; [done|]. exists x1, x1, b. rewrite decide_True by done. split_and!; try done. cbn.
    by rewrite insert_id.
  - apply wp_bind. eapply wp_eq; [apply get_futex_run; cbn; rewrite lookup_insert_ne by done; exact Hx2|].
    apply wp_bind. eapply wp_eq; [apply waiter_run, lookup_insert_eq|]. cbn [w_bitset w_futex].
    apply wp_bind. eapply wp_eq; [eapply put_tree; [cbn; rewrite lookup_insert_ne by done; apply lookup_insert_eq|reflexivity|done]|].
    apply wp_bind. unfold set_waiter. apply wp_modify.
    eapply wp_eq; [eapply add_tail_run; [cbn; rewrite lookup_insert_ne by done; apply lookup_insert_eq|apply lookup_insert_eq]|].
    pose proof (move_step f1 f2 x1 x2 w b s g L Hinv HL Ht Hl1 Hd Hk Hn Hne Hx1 Hx2 Hnd) as Hb.
    sets.
    match goal with |- context [set_heap ?h s] => replace h with (moved f1 f2 x1 x2 w (heap s)) end.
    2:{ unfold moved. apply map_eq. intros j. destruct (decide (j = f2)) as [->|]; [by rewrite !lookup_insert_eq|].
        rewrite !(lookup_insert_ne _ f2 j) by done. destruct (decide (j = f1)) as [->|]; [by rewrite !lookup_insert_eq|].
        by rewrite !lookup_insert_ne by done. }
    split; [|done]. split; [done|]. split; [done|]. exists x1, x2, b. by rewrite decide_False by done.
Qed.

(** ** Waking up threads *)

Lemma unqueue_spec t q s g L :
  inv s g -> at_thread g me = L -> l_queue L = t :: q -> l_thread L = None -> l_waking L = None ->
  wp (unqueue t) (fun _ s' => becomes me g s' (with_thread (Some t) (Some t) (with_queue q L))) s.
Proof.
  intros [] <- Hq Hth Hwk. cbn in Hq, Hth, Hwk. unfold unqueue. apply wp_modify.
  become (Ghost (g_toks g) ({[(t, OHeld me)]} ∪ (g_ttoks g ∖ {[(t, OQueue me)]})) (g_refs g) (g_tree g) (g_locks g) (g_known g)
            (g_node g) (g_asleep g) (<[me := q]> (g_queue g)) (<[me := Some t]> (g_waking g)) (<[me := Some t]> (g_thread g)) (g_duty g)).
  constructor; cbn; try done.
  - destruct inv_wake as (H1 & H2 & H3 & H4 & H5). pose proof (H4 me) as Hnd. rewrite Hq in Hnd. apply NoDup_cons in Hnd as [Hni Hnd].
    assert (Hin : forall u w, w ∈ (<[me := q]> (g_queue g)) u <-> w ∈ g_queue g u /\ w <> t).
    { intros u w. destruct (decide (u = me)) as [->|]; [rewrite fn_lookup_insert, Hq, elem_of_cons; naive_solver|].
      rewrite fn_lookup_insert_ne by done. split; [|naive_solver]. intros Hw. split; [done|]. intros ->.
      assert (u = me); [|done]. apply (H5 t); [done|]. rewrite Hq. set_solver. }
    split_and!; [done| | | |].
    + intros u Hu. destruct (H2 u Hu) as (n & Hn & H). exists n. split; [done|].
      destruct H as [|[|[H|[v Hv]]]]; [by left|by right; left| |].
      * destruct (decide (u = t)) as [->|]; [|right; right; left; set_solver].
        right; right; right. exists me. by rewrite fn_lookup_insert.
      * right; right; right. exists v. rewrite fn_lookup_insert_ne; [done|]. intros ->. congruence.
    + intros u. rewrite elem_of_difference, elem_of_singleton, H3. setoid_rewrite Hin. naive_solver.
    + intros u. destruct (decide (u = me)) as [->|]; [by rewrite fn_lookup_insert|by rewrite fn_lookup_insert_ne].
    + intros w u v. rewrite !Hin. intros [? _] [? _]. by eapply H5.
  - destruct inv_trefs as (H1 & H2 & H3 & H4). assert ((t, OQueue me) ∈ g_ttoks g) by (apply H3; rewrite Hq; set_solver).
    assert ((t, OHeld me) ∉ g_ttoks g) by (rewrite H4; congruence). destruct inv_wake as (_ & _ & _ & W4 & W5).
    pose proof (W4 me) as Hnd. rewrite Hq in Hnd. apply NoDup_cons in Hnd as [Hni _].
    split_and!; intros *; rewrite ?elem_of_union, ?elem_of_difference, ?elem_of_singleton.
    + rewrite count_add, count_del, H1 by set_solver. case_decide; lia.
    + rewrite H2. naive_solver.
    + rewrite H3. destruct (decide (u = me)) as [->|]; [rewrite fn_lookup_insert, Hq, elem_of_cons|rewrite fn_lookup_insert_ne by done]; naive_solver.
    + rewrite H4. destruct (decide (u = me)) as [->|]; [rewrite fn_lookup_insert|rewrite fn_lookup_insert_ne by done]; naive_solver.
Qed.

Lemma trefs_put r TT nodes queue thread t :
  thread me = Some t -> trefs_ok r TT nodes queue thread ->
  1 <= r t /\ trefs_ok (<[t := r t - 1]> r) (TT ∖ {[(t, OHeld me)]}) nodes queue (<[me := None]> thread).
Proof.
  intros Ht (H1 & H2 & H3 & H4). assert (Hin : (t, OHeld me) ∈ TT) by (by apply H4). split; [rewrite H1; by eapply count_pos|].
  split_and!; intros *; rewrite ?elem_of_difference, ?elem_of_singleton.
  - rewrite count_del by done. destruct (decide (t0 = t)) as [->|]; [by rewrite fn_lookup_insert, H1|].
    rewrite fn_lookup_insert_ne, H1 by done. lia.
  - rewrite H2. naive_solver.
  - rewrite H3. naive_solver.
  - rewrite H4. destruct (decide (u = me)) as [->|]; [rewrite fn_lookup_insert|rewrite fn_lookup_insert_ne by done]; naive_solver.
Qed.

Lemma put_thread_run t r s : thread_refs s t = r -> 1 <= r ->
  put_thread t s = Some ((), set_thread_refs (<[t := r - 1]> (thread_refs s)) s).
Proof. intros <- Hr. unfold put_thread. destruct (Z.leb_spec (thread_refs s t) 0); [lia|done]. Qed.

Lemma put_thread_spec t s g L :
  inv s g -> at_thread g me = L -> l_thread L = Some t -> l_waking L = None ->
  wp (put_thread t) (fun _ s' => becomes me g s' (with_thread None None L)) s.
Proof.
  intros [] <- Hth Hwk. cbn in Hth, Hwk. destruct (trefs_put _ _ _ _ _ _ Hth inv_trefs) as [Hr Htr].
  eapply wp_eq; [by apply put_thread_run|].
  become (Ghost (g_toks g) (g_ttoks g ∖ {[(t, OHeld me)]}) (g_refs g) (g_tree g) (g_locks g) (g_known g)
            (g_node g) (g_asleep g) (g_queue g) (g_waking g) (<[me := None]> (g_thread g)) (g_duty g)).
  - by constructor.
  - unfold with_thread. cbn. by rewrite Hwk.
Qed.

Lemma wakeup_spec t s g L :
  inv s g -> at_thread g me = L -> l_thread L = Some t -> l_waking L = Some t ->
  wp (thread_wakeup t;; put_thread t) (fun _ s' => becomes me g s' (with_thread None None L)) s.
Proof.
  intros [] <- Hth Hwk. cbn in Hth, Hwk. destruct (trefs_put _ _ _ _ _ _ Hth inv_trefs) as [Hr Htr].
  apply wp_bind. unfold thread_wakeup. apply wp_modify. eapply wp_eq; [by apply put_thread_run|].
  become (Ghost (g_toks g) (g_ttoks g ∖ {[(t, OHeld me)]}) (g_refs g) (g_tree g) (g_locks g) (g_known g)
            (g_node g) (g_asleep g) (g_queue g) (<[me := None]> (g_waking g)) (<[me := None]> (g_thread g)) (g_duty g)).
  constructor; cbn; try done. destruct inv_wake as (H1 & H2 & H3). split_and!; [done| |apply H3..].
  intros u Hu. destruct (H2 u Hu) as (n & Hn & H). exists n. split; [done|].
  destruct H as [|[|[|[v Hv]]]]; [by left|right; left; set_solver|by right; right; left|].
  destruct (decide (v = me)) as [->|]; [right; left; set_solver|]. right; right; right. exists v. by rewrite fn_lookup_insert_ne.
Qed.

Lemma get_thread_spec t s g L :
  inv s g -> at_thread g me = L -> l_thread L = None -> l_waking L = None ->
  wp (get_thread t) (fun _ s' => becomes me g s' (with_thread None (Some t) L)) s.
Proof.
  intros [] <- Hth Hwk. cbn in Hth, Hwk. unfold get_thread. apply wp_modify.
  become (Ghost (g_toks g) ({[(t, OHeld me)]} ∪ g_ttoks g) (g_refs g) (g_tree g) (g_locks g) (g_known g)
            (g_node g) (g_asleep g) (g_queue g) (g_waking g) (<[me := Some t]> (g_thread g)) (g_duty g)).
  2:{ unfold with_thread. cbn. by rewrite Hwk. }
  constructor; cbn; try done. destruct inv_trefs as (H1 & H2 & H3 & H4).
  assert ((t, OHeld me) ∉ g_ttoks g) by (rewrite H4; congruence).
  split_and!; intros *; rewrite ?elem_of_union, ?elem_of_singleton.
  - rewrite count_add by done. destruct (decide (t0 = t)) as [->|]; [by rewrite fn_lookup_insert, H1|].
    rewrite fn_lookup_insert_ne, H1 by done. lia.
  - rewrite H2. naive_solver.
  - rewrite H3. naive_solver.
  - rewrite H4. destruct (decide (u = me)) as [->|]; [rewrite fn_lookup_insert|rewrite fn_lookup_insert_ne by done]; naive_solver.
Qed.
End wake.
