(* ===== verification/FutexLoop.v ===== *)
(** * The loops over the waiters

    [LISTP_FOR_EACH_ENTRY_SAFE] visits every element once, in order, if its body only removes
    the element it is called with; the loops of [move_to_wake_queue] and [futex_requeue] wake and
    move the first waiters of the list. *)

From stdpp Require Import functions.
From S2P Require Import Prelude OrdSeq Futex FutexInv FutexSteps FutexWait FutexWake.

(** ** The macro *)

Lemma succ_in_app first k w rest :
  NoDup (k ++ w :: rest) -> succ_in first (k ++ w :: rest) w = Some (default first (head rest)).
Proof.
  induction k as [|y k IH]; cbn; intros Hnd; apply NoDup_cons in Hnd as [Hni Hnd].
  - rewrite Z.eqb_refl. by destruct rest.
  - destruct (Z.eqb_spec y w) as [->|]; [set_solver|]. by apply IH.
Qed.

Lemma circular_next_app k w rest :
  NoDup (k ++ w :: rest) -> circular_next (k ++ w :: rest) w = Some (default (default w (head k)) (head rest)).
Proof.
  intros Hnd. unfold circular_next. destruct k as [|y k].
  - apply (succ_in_app w [] w rest Hnd).
  - apply (succ_in_app y (y :: k) w rest Hnd).
Qed.

Lemma nodup_first (k w : Z) ks rest : NoDup ((k :: ks) ++ w :: rest) -> k <> w.
Proof. intros [Hni _]%NoDup_cons ->. apply Hni, elem_of_app. right. apply list_elem_of_here. Qed.

(** [l] is the list of [f], and its elements are waiters on [f]. *)
Definition on_futex (f : Z) (l : list Z) (s : fstate) : Prop :=
  NoDup l /\ (exists x, heap s !! f = Some x /\ waiters x = l) /\
  (forall t, t ∈ l -> exists b, wnodes s !! t = Some (Waiter b f true)).

Lemma deref_run f x s : heap s !! f = Some x -> deref f s = Some (x, s).
Proof. intros Hx. unfold deref. by rewrite Hx. Qed.

Lemma list_next_run f k w rest s :
  on_futex f (k ++ w :: rest) s -> list_next w s = Some (default (default w (head k)) (head rest), s).
Proof.
  intros (Hnd & (x & Hx & Hl) & Hn). destruct (Hn w ltac:(set_solver)) as [b Hb].
  unfold list_next, mbind, SM_bind. rewrite (waiter_run _ _ _ Hb). cbn [w_futex]. rewrite (deref_run _ _ _ Hx), Hl.
  by rewrite circular_next_app.
Qed.

Section loop.
Context {A : Type} (f : Z) (body : A -> Z -> SM fstate (bool * A)) (Q : A -> fstate -> Prop).

(** The loop stops at an element that is not the first in its first round. *)
Lemma loop_end fuel acc l tmp s w :
  (0 < fuel)%nat -> on_futex f l s -> (l = [] \/ head l = Some w) -> Q acc s -> wp (for_each_loop fuel f body acc w tmp false) Q s.
Proof.
  intros Hf (_ & (x & Hx & Hl) & _) Hw HQ. destruct fuel as [|fuel]; [lia|]. cbn [for_each_loop].
  apply wp_bind. eapply wp_eq; [by apply deref_run|]. rewrite Hl. destruct l as [|y l]; [done|].
  destruct Hw as [|[= ->]]; [done|]. cbn. by rewrite Z.eqb_refl.
Qed.

Section pass.
Context (P : A -> list Z -> list Z -> fstate -> Prop).
Hypothesis P_list : forall acc kept rest s, P acc kept rest s -> on_futex f (kept ++ rest) s.
Hypothesis P_body : forall acc kept w rest s, P acc kept (w :: rest) s ->
  wp (body acc w) (fun r s' => if fst r : bool then P (snd r) kept rest s' \/ P (snd r) (kept ++ [w]) rest s' else Q (snd r) s') s.
Hypothesis P_end : forall acc kept s, P acc kept [] s -> Q acc s.

Lemma pass_loop rest : forall fuel acc kept w s,
  P acc kept (w :: rest) s -> (length rest + 2 <= fuel)%nat ->
  wp (for_each_loop fuel f body acc w (default (default w (head kept)) (head rest)) (bool_decide (kept = []))) Q s.
Proof.
  induction rest as [|y rest IH]; intros fuel acc kept w s HP Hfuel; (destruct fuel as [|fuel]; [lia|]); cbn [for_each_loop];
    pose proof (P_list _ _ _ _ HP) as Hon; pose proof Hon as (Hnd & (x & Hx & Hl) & _);
    (assert (Hgo : forall (m n : SM fstate A), (match waiters x with [] => m | first :: _ =>
        if bool_decide (kept = []) || negb (w =? first) then n else m end) = n);
     [intros m n; rewrite Hl; destruct kept as [|k ks]; cbn; [done|]; destruct (Z.eqb_spec w k) as [->|]; [|done];
      by apply nodup_first in Hnd|]);
    apply wp_bind; (eapply wp_eq; [by apply deref_run|]); rewrite Hgo; apply wp_bind;
    (eapply wp_mono; [by apply P_body|]); intros [go acc'] s'; cbn [fst snd]; (destruct go; [|done]); intros HP'.
  - assert (exists kept', P acc' kept' [] s' /\ (kept' = kept \/ kept' = kept ++ [w])) as (kept' & HP1 & Hk) by naive_solver.
    pose proof (P_list _ _ _ _ HP1) as Hon'. pose proof Hon' as (Hnd' & (x' & Hx' & Hl') & _). rewrite app_nil_r in *.
    apply wp_bind. eapply wp_eq; [by apply deref_run|]. cbn [head default].
    destruct kept as [|k ks]; cbn [head default from_option id].
    + rewrite Z.eqb_refl. cbn [negb andb]. rewrite andb_false_r. cbn.
      apply (loop_end _ _ kept'); [lia|done|destruct Hk as [-> | ->]; [by left|by right]|eauto].
    + assert (k <> w) by (by eapply nodup_first).
      destruct (Z.eqb_spec k w); [done|]. cbn [negb]. rewrite bool_decide_eq_false_2 by done. cbn [andb].
      assert (exists r, kept' = k :: r) as [r Hr] by (destruct Hk as [-> | ->]; cbn; eauto).
      rewrite Hr in Hon'.
      apply wp_bind. eapply wp_eq; [apply (list_next_run f [] k r); done|].
      apply (loop_end _ _ (k :: r)); [lia|done|by right|eauto].
  - assert (exists kept', P acc' kept' (y :: rest) s' /\ (kept' = kept \/ kept' = kept ++ [w])) as (kept' & HP1 & Hk) by naive_solver.
    pose proof (P_list _ _ _ _ HP1) as Hon'. pose proof Hon' as (Hnd' & (x' & Hx' & Hl') & _).
    apply wp_bind. eapply wp_eq; [by apply deref_run|]. cbn [head default from_option id].
    assert (w <> y) by (apply NoDup_app in Hnd as (_ & _ & Hnd); by apply (nodup_first w y [] rest)).
    destruct (Z.eqb_spec y w); [congruence|]. cbn [negb]. rewrite andb_true_r.
    replace (bool_decide (kept = []) && bool_decide (head (waiters x') = Some y)) with (bool_decide (kept' = [])).
    + apply wp_bind. eapply wp_eq; [by apply (list_next_run f kept' y rest)|]. apply IH; [done|cbn in Hfuel; lia].
    + rewrite Hl'. destruct kept' as [|k r]; cbn.
      * rewrite (bool_decide_eq_true_2 (kept = [])) by (destruct Hk as [<-|E]; [done|by destruct kept]).
        by rewrite bool_decide_eq_true_2.
      * assert (k <> y) by (by eapply nodup_first).
        rewrite (bool_decide_eq_false_2 (Some k = Some y)) by congruence. by rewrite andb_false_r.
Qed.

Lemma for_each_pass fuel acc l s :
  P acc [] l s -> (length l < fuel)%nat -> wp (LISTP_FOR_EACH_ENTRY_SAFE fuel f body acc) Q s.
Proof.
  intros HP Hfuel. pose proof (P_list _ _ _ _ HP) as Hon. pose proof Hon as (_ & (x & Hx & Hl) & _). cbn in Hon, Hl.
  unfold LISTP_FOR_EACH_ENTRY_SAFE. apply wp_bind. eapply wp_eq; [by apply deref_run|]. rewrite Hl.
  destruct l as [|w rest]; [apply wp_ret; eauto|]. apply wp_bind. eapply wp_eq; [by apply (list_next_run f [] w rest)|].
  apply (pass_loop rest fuel acc [] w s HP). cbn in Hfuel. lia.
Qed.
End pass.

(** A body that removes the first element or moves it to the end is always called with the first
    element; [mu] bounds the number of rounds. *)
Section rotate.
Context (P : A -> list Z -> fstate -> Prop) (mu : A -> nat).
Hypothesis P_list : forall acc l s, P acc l s -> on_futex f l s.
Hypothesis P_body : forall acc w rest s, P acc (w :: rest) s ->
  wp (body acc w) (fun r s' => if fst r : bool then (mu (snd r) < mu acc)%nat /\
                                 match rest with
                                 | [] => (on_futex f [] s' \/ on_futex f [w] s') /\ Q (snd r) s'
                                 | _ => P (snd r) rest s' \/ P (snd r) (rest ++ [w]) s'
                                 end
                               else Q (snd r) s') s.
Hypothesis P_end : forall acc s, P acc [] s -> Q acc s.

Lemma rotate_loop fuel : forall acc w rest s,
  P acc (w :: rest) s -> (mu acc + 2 <= fuel)%nat -> wp (for_each_loop fuel f body acc w (default w (head rest)) true) Q s.
Proof.
  induction fuel as [|fuel IH]; intros acc w rest s HP Hfuel; [lia|]. cbn [for_each_loop].
  pose proof (P_list _ _ _ HP) as (Hnd & (x & Hx & Hl) & _). apply wp_bind. eapply wp_eq; [by apply deref_run|].
  rewrite Hl. cbn [orb]. apply wp_bind. eapply wp_mono; [by apply P_body|]. intros [go acc'] s'. cbn [fst snd].
  destruct go; [|done]. intros (Hmu & HP'). destruct rest as [|y rest]; cbn [head default from_option id].
  - destruct HP' as [Hon HQ].
    assert (exists l', on_futex f l' s' /\ (l' = [] \/ head l' = Some w)) as (l' & Hon' & Hk) by (destruct Hon; naive_solver).
    pose proof Hon' as (_ & (x' & Hx' & _) & _). apply wp_bind. eapply wp_eq; [by apply deref_run|].
    rewrite Z.eqb_refl. cbn. apply (loop_end _ _ l'); [lia|done..].
  - assert (exists r, P acc' (y :: r) s') as [r HP1] by (destruct HP' as [HP'|HP']; [by exists rest|by exists (rest ++ [w])]).
    pose proof (P_list _ _ _ HP1) as Hon'. pose proof Hon' as (Hnd' & (x' & Hx' & Hl') & _).
    apply wp_bind. eapply wp_eq; [by apply deref_run|]. rewrite Hl'.
    assert (w <> y) by (by apply (nodup_first w y [] rest)). destruct (Z.eqb_spec y w); [congruence|]. cbn [negb andb].
    rewrite bool_decide_eq_true_2 by done. apply wp_bind. eapply wp_eq; [by apply (list_next_run f [] y r)|].
    apply IH; [done|lia].
Qed.

Lemma for_each_rotate fuel acc l s :
  P acc l s -> (mu acc + length l < fuel)%nat -> wp (LISTP_FOR_EACH_ENTRY_SAFE fuel f body acc) Q s.
Proof.
  intros HP Hfuel. pose proof (P_list _ _ _ HP) as Hon. pose proof Hon as (_ & (x & Hx & Hl) & _).
  unfold LISTP_FOR_EACH_ENTRY_SAFE. apply wp_bind. eapply wp_eq; [by apply deref_run|]. rewrite Hl.
  destruct l as [|w rest]; [apply wp_ret; eauto|]. apply wp_bind. eapply wp_eq; [by apply (list_next_run f [] w rest)|].
  apply rotate_loop; [done|cbn in Hfuel; lia].
Qed.
End rotate.
End loop.

Lemma inv_on_futex s g f x : inv s g -> heap s !! f = Some x -> on_futex f (waiters x) s.
Proof.
  intros [] Hx. destruct (inv_lists f _ (proj_at waiters _ _ _ Hx)) as (H1 & _ & H3). split_and!; [done|eauto|].
  intros t. apply H3.
Qed.

Lemma filter_ext_in {A} (P Q : A -> Prop) `{forall x, Decision (P x), forall x, Decision (Q x)} (l : list A) :
  Forall (fun x => P x <-> Q x) l -> filter P l = filter Q l.
Proof.
  induction 1 as [|x l Hx _ IH]; [done|]. rewrite !filter_cons, IH. repeat case_decide; tauto.
Qed.

(** ** Waking *)

(** Whether a waiter is woken for [bitset]. *)
Definition wakes (bitset : Z) (nodes : gmap Z futex_waiter) (t : Z) : Prop :=
  exists n, nodes !! t = Some n /\ (bitset = 0 \/ Z.land (w_bitset n) bitset <> 0).

#[global] Instance wakes_dec bitset nodes t : Decision (wakes bitset nodes t).
Proof.
  refine (match nodes !! t as o return nodes !! t = o -> Decision (wakes bitset nodes t) with
          | Some n => fun E => cast_if (decide (bitset = 0 \/ Z.land (w_bitset n) bitset <> 0))
          | None => fun E => right _ end eq_refl); unfold wakes in *; naive_solver.
Defined.

(** The first waiters that match, at least one: those that are woken. *)
Definition to_be_woken (bitset to_wake : Z) (nodes : gmap Z futex_waiter) (l : list Z) : list Z :=
  take (Z.to_nat (Z.max 1 to_wake)) (filter (wakes bitset nodes) l).

Section wake_loop.
Variables (me f bitset to_wake : Z) (s0 : fstate) (g0 : ghost) (L : local) (queue0 : list Z) (x0 : libos_futex).
Hypothesis Hlock : f ∈ fst <$> l_locks L.
Hypothesis Hduty : f ∈ l_duty L.
Hypothesis Hx0 : heap s0 !! f = Some x0.
Notation W := (wakes bitset (wnodes s0)).

(** The state after [taken] have been woken and [l] are left. *)
Record woke (taken l : list Z) (acc : Z * list Z) (s : fstate) : Prop := {
  wk_woken : fst acc = Z.of_nat (length taken);
  wk_becomes : becomes me g0 s (with_queue (snd acc) L);
  wk_lists : waiters <$> heap s = <[f := l]> (waiters <$> heap s0);
  wk_nodes : forall t, t ∉ taken -> wnodes s !! t = wnodes s0 !! t;
  wk_queued : queued s = list_to_set taken ∪ queued s0;
  wk_words : words s = words s0;
  wk_queue : taken = [] -> snd acc = queue0;
}.

Definition wake_pass (acc : Z * list Z) (kept rest : list Z) (s : fstate) : Prop :=
  exists seen, waiters x0 = seen ++ rest /\ kept = filter (fun t => ~ W t) seen /\
    (length (filter W seen) < Z.to_nat (Z.max 1 to_wake))%nat /\ woke (filter W seen) (kept ++ rest) acc s.

Definition wake_result (acc : Z * list Z) (s : fstate) : Prop :=
  let taken := to_be_woken bitset to_wake (wnodes s0) (waiters x0) in
  woke taken (filter (fun t => t ∉ taken) (waiters x0)) acc s.

Lemma woke_list taken l acc s : woke taken l acc s -> on_futex f l s.
Proof.
  intros [_ (g & Hinv & _) Hl _ _ _ _]. assert (Hf : (waiters <$> heap s) !! f = Some l) by (rewrite Hl; apply lookup_insert_eq).
  apply at_proj in Hf as (x & Hx & <-). by eapply inv_on_futex.
Qed.

Lemma filter_ne (w : Z) k rest : NoDup (k ++ w :: rest) -> filter (fun y => y <> w) (k ++ w :: rest) = k ++ rest.
Proof.
  intros Hnd. assert (w ∉ k /\ w ∉ rest) as [H1 H2].
  { apply NoDup_app in Hnd as (_ & Hd & Hnd). apply NoDup_cons in Hnd as [Hni _]. split; [|done].
    intros Hw. apply (Hd w Hw). apply list_elem_of_here. }
  rewrite filter_app, filter_cons_False by naive_solver.
  rewrite !list_filter_all; [done|..]; apply Forall_forall; intros y Hy ->; done.
Qed.

Lemma filter_first (w : Z) rest : NoDup (w :: rest) -> filter (fun y => y <> w) (w :: rest) = rest.
Proof. apply (filter_ne w []). Qed.

Lemma woke_step taken k w rest acc s :
  woke taken (k ++ w :: rest) acc s ->
  wp (wake_waiter me f (snd acc) w) (fun q s' => woke (taken ++ [w]) (k ++ rest) (fst acc + 1, q) s') s.
Proof.
  intros Hw. pose proof (woke_list _ _ _ _ Hw) as (Hnd & (x & Hx & Hl) & _). destruct Hw as [H1 (g & Hinv & HF & HL) H3 H4 H5 H6 H7].
  eapply wp_mono. { apply (wake_waiter_spec me f x w (snd acc) s g _ Hinv HL); try done. rewrite Hl. set_solver. }
  intros q s' (b & Hb & [Ws1 Ws2 Ws3 Ws4] & (g' & Hinv' & HF' & HL')). cbn [with_queue] in HL'. split; cbn [fst snd].
  - rewrite length_app, H1. cbn. lia.
  - exists g'. split_and!; [done| |done]. intros t Ht. rewrite HF' by done. by apply HF.
  - rewrite Ws1, fmap_insert, H3. cbn. rewrite Hl, filter_ne by done. apply insert_insert_eq.
  - intros t Ht. rewrite Ws2, lookup_insert_ne by set_solver. apply H4. set_solver.
  - rewrite Ws3, H5, list_to_set_app_L. cbn. set_solver.
  - congruence.
  - intros E. by destruct taken.
Qed.

Hypothesis Hnodup : NoDup (waiters x0).

Lemma pass_split acc kept w rest s seen :
  waiters x0 = seen ++ w :: rest -> kept = filter (fun t => ~ W t) seen -> woke (filter W seen) (kept ++ w :: rest) acc s ->
  wnodes s !! w = wnodes s0 !! w.
Proof.
  intros Hl -> Hw. apply (wk_nodes _ _ _ _ Hw). rewrite list_elem_of_filter. intros [_ Hin]. rewrite Hl in Hnodup.
  apply NoDup_app in Hnodup as (_ & Hd & _). apply (Hd w Hin), list_elem_of_here.
Qed.

Lemma left_over seen rest :
  waiters x0 = seen ++ rest -> filter (fun t => t ∉ filter W seen) (waiters x0) = filter (fun t => ~ W t) seen ++ rest.
Proof.
  intros Hl. rewrite Hl, filter_app. rewrite Hl in Hnodup. apply NoDup_app in Hnodup as (_ & Hd & _). f_equal.
  - apply filter_ext_in. apply Forall_forall. intros t Ht. rewrite list_elem_of_filter. tauto.
  - apply list_filter_all, Forall_forall. intros t Ht. rewrite list_elem_of_filter. intros [_ Hin]. by apply (Hd t).
Qed.

Lemma wake_pass_body acc kept w rest s :
  wake_pass acc kept (w :: rest) s ->
  wp (wake_body me f bitset to_wake acc w) (fun r s' =>
    if fst r : bool then wake_pass (snd r) kept rest s' \/ wake_pass (snd r) (kept ++ [w]) rest s' else wake_result (snd r) s') s.
Proof.
  intros (seen & Hl & Hk & Hlen & Hw). pose proof (pass_split _ _ _ _ _ _ Hl Hk Hw) as Hsame.
  pose proof (woke_list _ _ _ _ Hw) as (_ & _ & Hn). destruct (Hn w ltac:(set_solver)) as [b Hb]. rewrite Hb in Hsame. symmetry in Hsame.
  destruct acc as [woken queue]. unfold wake_body. apply wp_bind. eapply wp_eq; [by apply waiter_run|]. cbn [w_bitset].
  assert (HW : W w <-> negb (bitset =? 0) && (Z.land b bitset =? 0) = false).
  { unfold wakes. rewrite Hsame, andb_false_iff, negb_false_iff, Z.eqb_eq, Z.eqb_neq. naive_solver. }
  destruct (negb (bitset =? 0) && (Z.land b bitset =? 0)); cbn [fst snd].
  - apply wp_ret. cbn. right. exists (seen ++ [w]). assert (~ W w) by naive_solver.
    assert (Hf : filter W (seen ++ [w]) = filter W seen).
    { by rewrite filter_app, filter_cons_False, filter_nil, app_nil_r. }
    assert (Hf' : filter (fun t => ~ W t) (seen ++ [w]) = kept ++ [w]).
    { by rewrite filter_app, filter_cons_True, filter_nil, Hk. }
    rewrite Hf, Hf'. split_and!; [by rewrite <- app_assoc|done|done|]. by rewrite <- app_assoc.
  - assert (W w) by naive_solver. apply wp_bind. eapply wp_mono; [apply (woke_step _ _ _ _ _ _ Hw)|].
    intros q s' Hw'. cbn [fst snd] in Hw'. apply wp_ret. cbn [fst snd].
    assert (Hf : filter W (seen ++ [w]) = filter W seen ++ [w]) by (by rewrite filter_app, filter_cons_True, filter_nil).
    assert (Hf' : filter (fun t => ~ W t) (seen ++ [w]) = kept).
    { rewrite filter_app, filter_cons_False, filter_nil, app_nil_r by naive_solver. done. }
    pose proof (wk_woken _ _ _ _ Hw') as Hc. cbn in Hc. rewrite length_app in Hc. cbn in Hc.
    destruct (Z.leb_spec to_wake (woken + 1)) as [Hge|Hlt]; cbn [negb].
    + unfold wake_result, to_be_woken. assert (Ht : take (Z.to_nat (Z.max 1 to_wake)) (filter W (waiters x0)) = filter W (seen ++ [w])).
      { rewrite Hl, (cons_middle w), app_assoc, (filter_app W (seen ++ [w])). apply take_app_length'. rewrite Hf, length_app. cbn. lia. }
      rewrite Ht, (left_over (seen ++ [w]) rest), Hf, Hf' by (by rewrite <- app_assoc). done.
    + left. exists (seen ++ [w]). rewrite Hf, Hf'. split_and!; [by rewrite <- app_assoc|done| |done]. rewrite length_app. cbn. lia.
Qed.

Lemma wake_pass_end acc kept s : wake_pass acc kept [] s -> wake_result acc s.
Proof.
  intros (seen & Hl & -> & Hlen & Hw). unfold wake_result.
  assert (Ht : to_be_woken bitset to_wake (wnodes s0) (waiters x0) = filter W seen).
  { unfold to_be_woken. rewrite Hl, app_nil_r. apply take_ge. lia. }
  by rewrite Ht, (left_over seen []) by done.
Qed.
End wake_loop.

(** [move_to_wake_queue] wakes the first waiters that match and returns their number. *)
Lemma move_to_wake_queue_spec me f x bitset to_wake queue s g L :
  inv s g -> at_thread g me = L -> f ∈ fst <$> l_locks L -> f ∈ l_duty L -> l_queue L = queue -> heap s !! f = Some x ->
  wp (move_to_wake_queue me f bitset to_wake queue) (wake_result me f bitset to_wake s g L queue x) s.
Proof.
  intros Hinv HL Hf Hd Hq Hx. unfold move_to_wake_queue. apply wp_bind, wp_locked; [by eapply locked_futex|].
  apply wp_bind. eapply wp_eq; [by apply deref_run|].
  destruct (inv_on_futex s g f x Hinv Hx) as (Hnd & _ & _).
  apply (for_each_pass f _ _ (wake_pass me f bitset to_wake s g L queue x)) with (l := waiters x); [| | | |lia].
  - intros acc kept rest s' (seen & _ & _ & _ & Hw). by eapply woke_list.
  - intros acc kept w rest s' HP. by apply wake_pass_body.
  - intros acc kept s' HP. by eapply wake_pass_end.
  - exists []. split_and!; [done..|cbn; lia|]. split; cbn; try done.
    + exists g. split_and!; [done..|]. rewrite HL, <- Hq. by destruct L.
    + rewrite insert_id; [done|]. by apply (proj_at waiters).
    + by rewrite union_empty_l_L.
Qed.

(** ** Requeueing *)

Section requeue_loop.
Variables (me f1 f2 to_wake to_requeue : Z) (s0 : fstate) (g0 : ghost) (L : local) (queue0 : list Z) (x1 x2 : libos_futex).
Hypothesis Htree : l_tree L = true.
Hypothesis Hlock1 : f1 ∈ fst <$> l_locks L.
Hypothesis Hlock2 : f2 ∈ fst <$> l_locks L.
Hypothesis Hduty : f1 ∈ l_duty L.
Hypothesis Hknown : f2 ∈ l_known L.
Hypothesis Hnode : l_node L = None.
Hypothesis Hx1 : heap s0 !! f1 = Some x1.
Hypothesis Hx2 : heap s0 !! f2 = Some x2.
Hypothesis Hwake0 : 0 <= to_wake.
Hypothesis Hrequeue0 : 0 <= to_requeue.

(** [T] were woken, [M] moved to [f2], and [l] are left. *)
Record requeued (T M l : list Z) (acc : Z * Z * list Z) (s : fstate) : Prop := {
  rq_woken : acc.1.1 = Z.of_nat (length T);
  rq_requeued : acc.1.2 = Z.of_nat (length M);
  rq_becomes : becomes me g0 s (with_queue acc.2 L);
  rq_lists : waiters <$> heap s = <[f2 := waiters x2 ++ M]> (<[f1 := l]> (waiters <$> heap s0));
  rq_queued : queued s = list_to_set T ∪ queued s0;
  rq_words : words s = words s0;
  rq_queue : T = [] -> acc.2 = queue0;
}.

Definition requeue_result (acc : Z * Z * list Z) (s : fstate) : Prop :=
  let l := waiters x1 in
  requeued (take (Z.to_nat to_wake) l) (take (Z.to_nat to_requeue) (drop (Z.to_nat to_wake) l))
    (drop (Z.to_nat (to_wake + to_requeue)) l) acc s.

Definition requeue_pass (acc : Z * Z * list Z) (kept rest : list Z) (s : fstate) : Prop :=
  kept = [] /\ exists T M, waiters x1 = T ++ M ++ rest /\ Z.of_nat (length T) <= to_wake /\ Z.of_nat (length M) <= to_requeue /\
    (M <> [] -> Z.of_nat (length T) = to_wake) /\ requeued T M rest acc s.

Hypothesis Hne : f1 <> f2.

Lemma requeued_list T M l acc s : requeued T M l acc s -> exists g x, inv s g /\ frame me g0 g /\
  at_thread g me = with_queue acc.2 L /\ heap s !! f1 = Some x /\ waiters x = l /\ on_futex f1 l s.
Proof.
  intros [_ _ (g & Hinv & HF & HL) Hl _ _ _].
  assert (Hf : (waiters <$> heap s) !! f1 = Some l) by (rewrite Hl, lookup_insert_ne by done; apply lookup_insert_eq).
  apply at_proj in Hf as (x & Hx & <-). exists g, x. split_and!; try done. by eapply inv_on_futex.
Qed.

Lemma requeue_wake T rest w acc s :
  requeued T [] (w :: rest) acc s ->
  wp (wake_waiter me f1 acc.2 w) (fun q s' => requeued (T ++ [w]) [] rest (acc.1.1 + 1, acc.1.2, q) s') s.
Proof.
  intros Hr. destruct (requeued_list _ _ _ _ _ Hr) as (g & x & Hinv & HF & HL & Hx & Hl & Hnd & _). destruct Hr.
  eapply wp_mono. { apply (wake_waiter_spec me f1 x w acc.2 s g _ Hinv HL); try done. rewrite Hl. set_solver. }
  intros q s' (b & Hb & [Ws1 Ws2 Ws3 Ws4] & (g' & Hinv' & HF' & HL')). split; cbn [fst snd].
  - rewrite length_app, rq_woken0. cbn. lia.
  - done.
  - exists g'. split_and!; [done| |done]. intros t Ht. rewrite HF' by done. by apply HF.
  - rewrite Ws1, fmap_insert, rq_lists0. cbn. rewrite Hl, filter_first by done.
    rewrite (insert_insert_ne _ f1 f2) by done. by rewrite insert_insert_eq.
  - rewrite Ws3, rq_queued0, list_to_set_app_L. cbn. set_solver.
  - congruence.
  - intros E. by destruct T.
Qed.

Lemma requeue_move T M rest w acc s :
  requeued T M (w :: rest) acc s ->
  wp (move_futex_waiter me w f1 f2) (fun _ s' => requeued T (M ++ [w]) rest (acc.1.1, acc.1.2 + 1, acc.2) s') s.
Proof.
  intros Hr. destruct (requeued_list _ _ _ _ _ Hr) as (g & x & Hinv & HF & HL & Hx & Hl & Hnd & _). destruct Hr.
  eapply wp_mono. { apply (move_spec me f1 f2 x w s g _ Hinv HL); try done. rewrite Hl. set_solver. }
  intros [] s' [(Hw & Hq & y1 & y2 & b & Hy1 & Hy2 & Hb & Hn & Hh) (g' & Hinv' & HF' & HL')].
  rewrite decide_False in Hh by done. assert (y1 = x) as -> by congruence. split; cbn [fst snd].
  - done.
  - rewrite length_app, rq_requeued0. cbn. lia.
  - exists g'. split_and!; [done| |done]. intros t Ht. rewrite HF' by done. by apply HF.
  - assert (Hy : waiters y2 = waiters x2 ++ M).
    { apply (proj_at waiters) in Hy2. rewrite rq_lists0, lookup_insert_eq in Hy2. congruence. }
    rewrite Hh. unfold moved. rewrite !fmap_insert, rq_lists0. cbn. rewrite Hl, filter_first, Hy, <- app_assoc by done.
    rewrite (insert_insert_ne _ f1 f2) by done. by rewrite !insert_insert_eq.
  - congruence.
  - congruence.
  - done.
Qed.

Lemma requeue_pass_body acc kept w rest s :
  requeue_pass acc kept (w :: rest) s ->
  wp (requeue_body me f1 f2 to_wake to_requeue acc w) (fun r s' =>
    if fst r : bool then requeue_pass (snd r) kept rest s' \/ requeue_pass (snd r) (kept ++ [w]) rest s'
    else requeue_result (snd r) s') s.
Proof.
  intros (-> & T & M & Hl & HT & HM & HTM & Hr). destruct acc as [[woken req] queue]. unfold requeue_body.
  pose proof (rq_woken _ _ _ _ _ Hr) as Ew. pose proof (rq_requeued _ _ _ _ _ Hr) as Er. cbn [fst snd] in Ew, Er.
  destruct (Z.ltb_spec woken to_wake).
  - assert (M = []) as -> by (destruct M; [done|specialize (HTM ltac:(done)); lia]).
    apply wp_bind. eapply wp_mono; [apply (requeue_wake _ _ _ _ _ Hr)|]. intros q s' Hr'. apply wp_ret. left.
    split; [done|]. exists (T ++ [w]), []. split_and!; [by rewrite Hl, <- app_assoc|rewrite length_app; cbn; lia|done..].
  - destruct (Z.ltb_spec req to_requeue).
    + apply wp_bind. eapply wp_mono; [apply (requeue_move _ _ _ _ _ _ Hr)|]. intros [] s' Hr'. apply wp_ret. left.
      split; [done|]. exists T, (M ++ [w]). split_and!; [by rewrite Hl, <- !app_assoc|done|rewrite length_app; cbn; lia|lia|done].
    + apply wp_ret. cbn [fst snd]. unfold requeue_result. rewrite Hl, (take_app_length' T), (drop_app_length' T) by lia.
      rewrite (take_app_length' M) by lia. rewrite app_assoc, drop_app_length' by (rewrite length_app; lia). done.
Qed.

Lemma requeue_pass_end acc kept s : requeue_pass acc kept [] s -> requeue_result acc s.
Proof.
  intros (_ & T & M & Hl & HT & HM & HTM & Hr). unfold requeue_result. rewrite app_nil_r in Hl.
  rewrite (drop_ge (waiters x1) (Z.to_nat (to_wake + to_requeue))) by (rewrite Hl, length_app; lia). rewrite Hl. destruct M as [|m M].
  - rewrite app_nil_r, (take_ge T), (drop_ge T), take_nil by lia. done.
  - specialize (HTM ltac:(done)). rewrite (take_app_length' T), (drop_app_length' T), take_ge by lia. done.
Qed.
End requeue_loop.

(** Between different futexes. *)
Lemma requeue_loop_spec me f1 f2 x1 x2 to_wake to_requeue queue fuel s g L :
  inv s g -> at_thread g me = L -> l_tree L = true -> f1 ∈ fst <$> l_locks L -> f2 ∈ fst <$> l_locks L -> f1 ∈ l_duty L ->
  f2 ∈ l_known L -> l_node L = None -> l_queue L = queue -> heap s !! f1 = Some x1 -> heap s !! f2 = Some x2 -> 0 <= to_wake ->
  0 <= to_requeue -> f1 <> f2 -> (length (waiters x1) < fuel)%nat ->
  wp (LISTP_FOR_EACH_ENTRY_SAFE fuel f1 (requeue_body me f1 f2 to_wake to_requeue) (0, 0, queue))
     (requeue_result me f1 f2 to_wake to_requeue s g L queue x1 x2) s.
Proof.
  intros Hinv HL Ht Hl1 Hl2 Hd Hk Hn Hq Hx1 Hx2 Hw Hr Hne Hfuel.
  apply (for_each_pass f1 _ _ (requeue_pass me f1 f2 to_wake to_requeue s g L queue x1 x2)) with (l := waiters x1); [| | | |lia].
  - intros acc kept rest s' (-> & T & M & _ & _ & _ & _ & Hrq). eapply requeued_list in Hrq as (? & ? & _ & _ & _ & _ & _ & H); [exact H|done].
  - intros acc kept w rest s' HP. by apply requeue_pass_body.
  - intros acc kept s' HP. by eapply requeue_pass_end.
  - split; [done|]. exists [], []. split_and!; [done|cbn; lia..|done|]. split; cbn; try done.
    + exists g. split_and!; [done..|]. rewrite HL, <- Hq. by destruct L.
    + rewrite app_nil_r, (insert_id _ f1) by (by apply (proj_at waiters)). by rewrite insert_id by (by apply (proj_at waiters)).
    + by rewrite union_empty_l_L.
Qed.

Lemma requeue_waiters_spec me f1 f2 x1 x2 to_wake to_requeue s g L :
  inv s g -> at_thread g me = L -> l_tree L = true -> f1 ∈ fst <$> l_locks L -> f2 ∈ fst <$> l_locks L -> f1 ∈ l_duty L ->
  f2 ∈ l_known L -> l_node L = None -> l_queue L = [] -> heap s !! f1 = Some x1 -> heap s !! f2 = Some x2 -> 0 <= to_wake ->
  0 <= to_requeue -> f1 <> f2 ->
  wp (requeue_waiters me f1 f2 to_wake to_requeue) (requeue_result me f1 f2 to_wake to_requeue s g L [] x1 x2) s.
Proof.
  intros Hinv HL Ht Hl1 Hl2 Hd Hk Hn Hq Hx1 Hx2 Hw Hr Hne. unfold requeue_waiters. apply wp_bind. eapply wp_eq; [by apply deref_run|].
  apply requeue_loop_spec; try done. lia.
Qed.

(** On the same futex the moved waiters come to the end of the list they are taken from. *)
Definition rotate_once (l : list Z) : list Z := match l with [] => [] | w :: rest => rest ++ [w] end.
Fixpoint rotate_by (n : nat) (l : list Z) : list Z := match n with O => l | S n' => rotate_once (rotate_by n' l) end.

Lemma rotate_by_length n l : length (rotate_by n l) = length l.
Proof.
  induction n as [|n IH]; [done|]. cbn. rewrite <- IH. destruct (rotate_by n l); [done|]. cbn. rewrite length_app. cbn. lia.
Qed.

Lemma rotate_by_short n l : (length l <= 1)%nat -> rotate_by n l = l.
Proof.
  intros Hl. induction n as [|n IH]; [done|]. cbn. rewrite IH. destruct l as [|w [|y l]]; [done..|cbn in Hl; lia].
Qed.

Section requeue_same.
Variables (me f to_wake to_requeue : Z) (s0 : fstate) (g0 : ghost) (L : local) (queue0 : list Z) (x0 : libos_futex).
Hypothesis Htree : l_tree L = true.
Hypothesis Hlock : f ∈ fst <$> l_locks L.
Hypothesis Hduty : f ∈ l_duty L.
Hypothesis Hknown : f ∈ l_known L.
Hypothesis Hnode : l_node L = None.
Hypothesis Hx0 : heap s0 !! f = Some x0.
Hypothesis Hwake0 : 0 <= to_wake.
Hypothesis Hrequeue0 : 0 <= to_requeue.

(** After [T] have been woken and [k] moves, with [l] as the list. *)
Record rotated (T l : list Z) (k : Z) (acc : Z * Z * list Z) (s : fstate) : Prop := {
  rt_woken : acc.1.1 = Z.of_nat (length T);
  rt_requeued : acc.1.2 = k;
  rt_becomes : becomes me g0 s (with_queue acc.2 L);
  rt_lists : waiters <$> heap s = <[f := l]> (waiters <$> heap s0);
  rt_queued : queued s = list_to_set T ∪ queued s0;
  rt_words : words s = words s0;
  rt_queue : T = [] -> acc.2 = queue0;
}.

(** The loop goes around the waiters that are left until the count is reached; it stops after one
    round only if a single one is left. *)
Definition same_result (acc : Z * Z * list Z) (s : fstate) : Prop :=
  let r := drop (Z.to_nat to_wake) (waiters x0) in
  rotated (take (Z.to_nat to_wake) (waiters x0)) (rotate_by (Z.to_nat to_requeue) r)
    (if (2 <=? length r)%nat then to_requeue else Z.min to_requeue (Z.of_nat (length r))) acc s.

Definition same_pass (acc : Z * Z * list Z) (l : list Z) (s : fstate) : Prop :=
  exists T r k, waiters x0 = T ++ r /\ Z.of_nat (length T) <= to_wake /\ Z.of_nat k <= to_requeue /\
    (k <> 0%nat -> Z.of_nat (length T) = to_wake /\ (2 <= length r)%nat) /\ l = rotate_by k r /\ rotated T l (Z.of_nat k) acc s.

Lemma rotated_list T l k acc s : rotated T l k acc s -> exists g x, inv s g /\ frame me g0 g /\
  at_thread g me = with_queue acc.2 L /\ heap s !! f = Some x /\ waiters x = l /\ on_futex f l s.
Proof.
  intros [_ _ (g & Hinv & HF & HL) Hl _ _ _].
  assert (Hf : (waiters <$> heap s) !! f = Some l) by (rewrite Hl; apply lookup_insert_eq).
  apply at_proj in Hf as (x & Hx & <-). exists g, x. split_and!; try done. by eapply inv_on_futex.
Qed.

Lemma same_wake T rest k w acc s :
  rotated T (w :: rest) k acc s ->
  wp (wake_waiter me f acc.2 w) (fun q s' => rotated (T ++ [w]) rest k (acc.1.1 + 1, acc.1.2, q) s') s.
Proof.
  intros Hr. destruct (rotated_list _ _ _ _ _ Hr) as (g & x & Hinv & HF & HL & Hx & Hl & Hnd & _). destruct Hr.
  eapply wp_mono. { apply (wake_waiter_spec me f x w acc.2 s g _ Hinv HL); try done. rewrite Hl. set_solver. }
  intros q s' (b & Hb & [Ws1 Ws2 Ws3 Ws4] & (g' & Hinv' & HF' & HL')). split; cbn [fst snd].
  - rewrite length_app, rt_woken0. cbn. lia.
  - done.
  - exists g'. split_and!; [done| |done]. intros t Ht. rewrite HF' by done. by apply HF.
  - rewrite Ws1, fmap_insert, rt_lists0. cbn. rewrite Hl, filter_first by done. by rewrite insert_insert_eq.
  - rewrite Ws3, rt_queued0, list_to_set_app_L. cbn. set_solver.
  - congruence.
  - intros E. by destruct T.
Qed.

Lemma same_move T rest k w acc s :
  rotated T (w :: rest) k acc s ->
  wp (move_futex_waiter me w f f) (fun _ s' => rotated T (rest ++ [w]) (k + 1) (acc.1.1, acc.1.2 + 1, acc.2) s') s.
Proof.
  intros Hr. destruct (rotated_list _ _ _ _ _ Hr) as (g & x & Hinv & HF & HL & Hx & Hl & Hnd & _). destruct Hr.
  eapply wp_mono. { apply (move_spec me f f x w s g _ Hinv HL); try done. rewrite Hl. set_solver. }
  intros [] s' [(Hw & Hq & y1 & y2 & b & Hy1 & Hy2 & Hb & Hn & Hh) (g' & Hinv' & HF' & HL')].
  rewrite decide_True in Hh by done. assert (y1 = x) as -> by congruence. split; cbn [fst snd].
  - done.
  - lia.
  - exists g'. split_and!; [done| |done]. intros t Ht. rewrite HF' by done. by apply HF.
  - rewrite Hh, fmap_insert, rt_lists0. cbn. rewrite Hl, filter_first by done. by rewrite insert_insert_eq.
  - congruence.
  - congruence.
  - done.
Qed.

Lemma same_end acc s : same_pass acc [] s -> same_result acc s.
Proof.
  intros (T & r & k & Hl & HT & Hk & Hk0 & Hr & Hrot). assert (r = []) as ->.
  { apply nil_length_inv. rewrite <- (rotate_by_length k r), <- Hr. done. }
  assert (k = 0%nat) as -> by (destruct k; [done|destruct (Hk0 ltac:(done)) as [_ H]; cbn in H; lia]).
  unfold same_result. rewrite Hl, app_nil_r, (take_ge T), (drop_ge T) by lia. rewrite rotate_by_short by (cbn; lia). cbn [length Nat.leb].
  by replace (Z.min to_requeue (Z.of_nat 0)) with 0 by lia.
Qed.

Lemma same_body acc w rest s :
  same_pass acc (w :: rest) s ->
  wp (requeue_body me f f to_wake to_requeue acc w) (fun r s' =>
    if fst r : bool then
      (Z.to_nat (to_wake - (snd r).1.1 + (to_requeue - (snd r).1.2)) < Z.to_nat (to_wake - acc.1.1 + (to_requeue - acc.1.2)))%nat /\
      match rest with
      | [] => (on_futex f [] s' \/ on_futex f [w] s') /\ same_result (snd r) s'
      | _ => same_pass (snd r) rest s' \/ same_pass (snd r) (rest ++ [w]) s'
      end
    else same_result (snd r) s') s.
Proof.
  intros (T & r & k & Hl & HT & Hk & Hk0 & Hr & Hrot). destruct acc as [[woken req] queue]. unfold requeue_body.
  pose proof (rt_woken _ _ _ _ _ Hrot) as Ew. pose proof (rt_requeued _ _ _ _ _ Hrot) as Er. cbn [fst snd] in Ew, Er.
  assert (Hlen : length r = S (length rest)) by (rewrite <- (rotate_by_length k r), <- Hr; done).
  destruct (Z.ltb_spec woken to_wake); [|destruct (Z.ltb_spec req to_requeue)].
  - assert (k = 0%nat) as -> by (destruct k; [done|destruct (Hk0 ltac:(done)); lia]). cbn in Hr. subst r.
    apply wp_bind. eapply wp_mono; [apply (same_wake _ _ _ _ _ _ Hrot)|]. intros q s' Hrot'. apply wp_ret. cbn [fst snd] in *.
    split; [lia|]. assert (HP : same_pass (woken + 1, req, q) rest s').
    { exists (T ++ [w]), rest, 0%nat. split_and!; [by rewrite Hl, <- app_assoc|rewrite length_app; cbn; lia|done|done|done|done]. }
    destruct rest as [|y rest]; [|by left]. pose proof (rotated_list _ _ _ _ _ Hrot') as (_ & _ & _ & _ & _ & _ & _ & Hon).
    split; [by left|]. by apply same_end.
  - apply wp_bind. eapply wp_mono; [apply (same_move _ _ _ _ _ _ Hrot)|]. intros [] s' Hrot'. apply wp_ret. cbn [fst snd] in *.
    split; [lia|]. replace (Z.of_nat k + 1) with (Z.of_nat (S k)) in Hrot' by lia. destruct rest as [|y rest].
    + pose proof (rotated_list _ _ _ _ _ Hrot') as (_ & _ & _ & _ & _ & _ & _ & Hon). split; [by right|].
      assert (k = 0%nat) as -> by (destruct k; [done|destruct (Hk0 ltac:(done)); cbn in Hlen; lia]). cbn in Hr. subst r.
      unfold same_result. rewrite Hl, (take_app_length' T), (drop_app_length' T) by lia. cbn [length Nat.leb].
      rewrite rotate_by_short by (cbn; lia). replace (Z.min to_requeue (Z.of_nat 1)) with 1 by lia. exact Hrot'.
    + right. exists T, r, (S k). split_and!; [done|done|lia|intros _; cbn in Hlen; lia| |done]. cbn. by rewrite <- Hr.
  - apply wp_ret. cbn [fst snd]. unfold same_result. rewrite Hl, (take_app_length' T), (drop_app_length' T) by lia.
    replace (Z.to_nat to_requeue) with k by lia. rewrite <- Hr.
    replace (if (2 <=? length r)%nat then _ else _) with (Z.of_nat k); [done|]. destruct (Nat.leb_spec 2 (length r)); [lia|].
    destruct k; [lia|]. destruct (Hk0 ltac:(done)). lia.
Qed.
End requeue_same.

(** [requeue_waiters] when both addresses are the same. *)
Lemma requeue_same_loop_spec me f x to_wake to_requeue queue fuel s g L :
  inv s g -> at_thread g me = L -> l_tree L = true -> f ∈ fst <$> l_locks L -> f ∈ l_duty L -> f ∈ l_known L -> l_node L = None ->
  l_queue L = queue -> heap s !! f = Some x -> 0 <= to_wake -> 0 <= to_requeue ->
  (length (waiters x) + Z.to_nat (to_wake + to_requeue) < fuel)%nat ->
  wp (LISTP_FOR_EACH_ENTRY_SAFE fuel f (requeue_body me f f to_wake to_requeue) (0, 0, queue))
     (same_result me f to_wake to_requeue s g L queue x) s.
Proof.
  intros Hinv HL Ht Hl Hd Hk Hn Hq Hx Hw Hr Hfuel.
  apply (for_each_rotate f _ _ (same_pass me f to_wake to_requeue s g L queue x)
           (fun acc => Z.to_nat (to_wake - acc.1.1 + (to_requeue - acc.1.2)))) with (l := waiters x).
  - intros acc l s' (T & r & k & _ & _ & _ & _ & _ & Hrot). eapply rotated_list in Hrot as (? & ? & _ & _ & _ & _ & _ & H). exact H.
  - intros acc w rest s' HP. by apply same_body.
  - intros acc s' HP. by eapply same_end.
  - exists [], (waiters x), 0%nat. split_and!; [done|cbn; lia|cbn; lia|done|done|]. split; cbn; try done.
    + exists g. split_and!; [done..|]. rewrite HL, <- Hq. by destruct L.
    + rewrite insert_id; [done|]. by apply (proj_at waiters).
    + by rewrite union_empty_l_L.
  - cbn. rewrite !Z.sub_0_r. lia.
Qed.

Lemma requeue_same_spec me f x to_wake to_requeue s g L :
  inv s g -> at_thread g me = L -> l_tree L = true -> f ∈ fst <$> l_locks L -> f ∈ l_duty L ->
  f ∈ l_known L -> l_node L = None -> l_queue L = [] -> heap s !! f = Some x -> 0 <= to_wake -> 0 <= to_requeue ->
  wp (requeue_waiters me f f to_wake to_requeue) (same_result me f to_wake to_requeue s g L [] x) s.
Proof.
  intros Hinv HL Ht Hl Hd Hk Hn Hq Hx Hw Hr. unfold requeue_waiters. apply wp_bind. eapply wp_eq; [by apply deref_run|].
  apply requeue_same_loop_spec; try done. lia.
Qed.
