(* ===== verification/FutexSafe.v ===== *)
(** * The futex programs are safe

    [safe me p Q L]: in any state that satisfies the invariant, and whatever the other threads do
    between the steps, the program [p] of the thread [me] runs without failure from the local
    state [L], takes locks in ascending order only, and ends with [Q]. *)

From stdpp Require Import functions.
From S2P Require Import Prelude OrdSeq Futex FutexInv FutexSteps FutexWait FutexWake FutexLoop.

(** Knowledge about the tree ends with the lock that protects it. *)
Definition unlock_tree (L : local) : local :=
  with_known (filter (fun h => h ∈ fst <$> l_locks L) (l_known L)) (with_tree false L).

Definition unlock_futex (f : Z) (L : local) : local :=
  with_known (if l_tree L then l_known L else filter (fun h => h <> f) (l_known L)) (with_locks (drop_lock f (l_locks L)) L).

(** A thread that sleeps holds no lock, owes nothing, and keeps at most [tmp]. *)
Definition may_sleep (L : local) : Prop :=
  l_tree L = false /\ l_locks L = [] /\ l_asleep L = true /\ l_queue L = [] /\ l_waking L = None /\ l_thread L = None /\
  l_duty L = [] /\ l_node L = Some None /\ forall i, i <> TMP -> l_refs L !! i = None.

Section safe.
Variable me : Z.

Fixpoint safe {A} (p : prog A) (Q : A -> local -> Prop) (L : local) : Prop :=
  match p with
  | Ret a => Q a L
  | Lock TreeLock k => l_tree L = false /\ l_locks L = [] /\ safe k Q (with_tree true L)
  | Lock (FutexLock f) k =>
      exists i a, l_refs L !! i = Some (f, a) /\ (forall f' a', (f', a') ∈ l_locks L -> a' < a) /\
        safe k Q (with_locks ((f, a) :: l_locks L) L)
  | Unlock TreeLock k =>
      l_tree L = true /\ (forall f, l_node L = Some (Some f) -> f ∈ fst <$> l_locks L) /\ safe k Q (unlock_tree L)
  | Unlock (FutexLock f) k =>
      f ∈ fst <$> l_locks L /\ (l_node L = Some (Some f) -> l_tree L = true) /\ safe k Q (unlock_futex f L)
  | Atomic m k =>
      forall s g, inv s g -> at_thread g me = L ->
        wp m (fun b s' => exists g', inv s' g' /\ frame me g g' /\ safe (k b) Q (at_thread g' me)) s
  | Sleep timed k => may_sleep L /\ forall r, safe (k r) Q (with_node (l_node L) false L)
  | Host k => forall r, safe (k r) Q L
  end.

Lemma safe_bind {A B} (p : prog A) (k : A -> prog B) Q L : safe p (fun a => safe (k a) Q) L -> safe (p ≫= k) Q L.
Proof.
  revert L. change (forall L, safe p (fun a => safe (k a) Q) L -> safe (prog_bind k p) Q L).
  induction p as [a|l p IH|l p IH|C m p IH|timed p IH|p IH]; intros L; cbn.
  - done.
  - destruct l; naive_solver.
  - destruct l; naive_solver.
  - intros H s g Hinv HL. eapply wp_mono; [by apply H|]. intros b s' (g' & H1 & H2 & H3). exists g'. auto.
  - intros [H1 H2]. auto.
  - auto.
Qed.

Lemma safe_mono {A} (p : prog A) (Q Q' : A -> local -> Prop) L :
  (forall a L', Q a L' -> Q' a L') -> safe p Q L -> safe p Q' L.
Proof.
  intros HQ. revert L. induction p as [a|l p IH|l p IH|C m p IH|timed p IH|p IH]; intros L; cbn.
  - apply HQ.
  - destruct l; naive_solver.
  - destruct l; naive_solver.
  - intros H s g Hinv HL. eapply wp_mono; [by apply H|]. intros b s' (g' & H1 & H2 & H3). exists g'. auto.
  - intros [H1 H2]. auto.
  - auto.
Qed.

Lemma safe_ret {A} (a : A) (Q : A -> local -> Prop) L : Q a L -> safe (mret a) Q L.
Proof. done. Qed.

Lemma safe_lock_tree (Q : unit -> local -> Prop) L :
  l_tree L = false -> l_locks L = [] -> Q () (with_tree true L) -> safe (spinlock_lock TreeLock) Q L.
Proof. cbn. auto. Qed.

Lemma safe_lock i f a (Q : unit -> local -> Prop) L :
  l_refs L !! i = Some (f, a) -> (forall f' a', (f', a') ∈ l_locks L -> a' < a) -> Q () (with_locks ((f, a) :: l_locks L) L) ->
  safe (spinlock_lock (FutexLock f)) Q L.
Proof. cbn. eauto. Qed.

Lemma safe_unlock_tree (Q : unit -> local -> Prop) L :
  l_tree L = true -> (forall f, l_node L = Some (Some f) -> f ∈ fst <$> l_locks L) -> Q () (unlock_tree L) ->
  safe (spinlock_unlock TreeLock) Q L.
Proof. cbn. auto. Qed.

Lemma safe_unlock f (Q : unit -> local -> Prop) L :
  f ∈ fst <$> l_locks L -> (l_node L = Some (Some f) -> l_tree L = true) -> Q () (unlock_futex f L) ->
  safe (spinlock_unlock (FutexLock f)) Q L.
Proof. cbn. auto. Qed.

Lemma safe_atomic {A} (m : SM fstate A) (Q : A -> local -> Prop) L :
  (forall s g, inv s g -> at_thread g me = L -> wp m (fun a s' => exists L', becomes me g s' L' /\ Q a L') s) ->
  safe (atomic m) Q L.
Proof.
  intros H s g Hinv HL. eapply wp_mono; [by apply H|]. intros a s' (L' & (g' & H1 & H2 & <-) & HQ). exists g'. done.
Qed.

Lemma safe_host (Q : Z -> local -> Prop) L : (forall r, Q r L) -> safe host Q L.
Proof. done. Qed.

(** A step that does not change what the invariant speaks about. *)
Definition unchanged (s s' : fstate) : Prop :=
  heap s' = heap s /\ next_ptr s' = next_ptr s /\ g_futex_tree s' = g_futex_tree s /\
  g_futex_tree_lock s' = g_futex_tree_lock s /\ wnodes s' = wnodes s /\ queued s' = queued s /\ events s' = events s /\
  thread_refs s' = thread_refs s.

Lemma unchanged_inv s s' g : unchanged s s' -> inv s g -> inv s' g.
Proof. intros (E1 & E2 & E3 & E4 & E5 & E6 & E7 & E8) []. constructor; rewrite ?E1, ?E2, ?E3, ?E4, ?E5, ?E6, ?E7, ?E8; done. Qed.

Lemma safe_quiet {A} (m : SM fstate A) (Q : A -> local -> Prop) L :
  (forall s, wp m (fun a s' => unchanged s s' /\ Q a L) s) -> safe (atomic m) Q L.
Proof.
  intros H. apply safe_atomic. intros s g Hinv HL. eapply wp_mono; [apply H|]. intros a s' [Hu HQ]. exists L. split; [|done].
  exists g. split_and!; [by eapply unchanged_inv|done|done].
Qed.
End safe.

#[global] Arguments safe me {A} p Q L : simpl never.
