(* ===== verification/FutexCalls.v ===== *)
(** * All calls are safe

    The proofs follow the programs of [Futex], with one rule for each auxiliary function. *)

From stdpp Require Import functions.
From S2P Require Import Prelude OrdSeq Futex FutexInv FutexSteps FutexWait FutexWake FutexLoop FutexSafe.

Ltac sbind := cbn beta; apply safe_bind.

(** Computes with local states, but not with programs. *)
Ltac lcbn := cbv beta iota delta [l_refs l_tree l_locks l_known l_node l_asleep l_queue l_waking l_thread l_duty with_refs with_tree with_locks
  with_known with_node with_queue with_thread with_duty take_ref drop_ref learn use_tmp enqueued settle left_tree located waited
  start_waiting unlock_tree unlock_futex no_local].

Section calls.
Variable me : Z.
Implicit Types (L : local) (f : Z) (i : nat).

Lemma drop_lock_one f a : drop_lock f [(f, a)] = [].
Proof. unfold drop_lock. by rewrite filter_cons_False by naive_solver. Qed.

Lemma nil_of_subset (l : list Z) : (forall h, h ∉ l) -> l = [].
Proof. destruct l as [|x l]; [done|]. intros H. destruct (H x). apply list_elem_of_here. Qed.

(** ** Leaving the tree *)

(** The thread holds no lock and knows nothing about the tree. *)
Definition free L : Prop := l_tree L = false /\ l_locks L = [] /\ l_known L = [] /\ forall h, l_node L <> Some (Some h).

Lemma safe_maybe_dequeue i f a (Q : unit -> local -> Prop) L :
  free L -> l_refs L !! i = Some (f, a) -> Q () (settle f L) -> safe me (maybe_dequeue_futex me f) Q L.
Proof.
  intros (Ht & Hl & Hk & Hn) Hi HQ. destruct L as [r t l k n as_ q w th d]; cbn in * |-; subst. unfold maybe_dequeue_futex.
  sbind; apply safe_lock_tree; [done..|]. sbind. eapply safe_lock; [done|by intros ? ? ?%elem_of_nil|]. lcbn.
  sbind; apply safe_atomic. intros s g Hinv HL. eapply wp_mono.
  { apply (maybe_dequeue_step me f s g _ Hinv HL); [done|]. cbn. set_solver. }
  intros [] s' Hb. eexists. split; [done|]. sbind; apply safe_unlock; [cbn; set_solver|done|]. lcbn.
  apply safe_unlock_tree; [done|naive_solver|]. lcbn. by rewrite drop_lock_one.
Qed.

(** ** Two locks *)

Lemma safe_cmp i j f1 f2 a1 a2 (Q : Z -> local -> Prop) L :
  l_refs L !! i = Some (f1, a1) -> l_refs L !! j = Some (f2, a2) -> Q (if a1 <? a2 then -1 else if a1 =? a2 then 0 else 1) L ->
  safe me (atomic (cmp_futexes f1 f2)) Q L.
Proof.
  intros Hi Hj HQ. apply safe_atomic. intros s g Hinv HL. pose proof (inv_addr _ _ Hinv) as (Ha & _). subst L.
  destruct (at_proj _ _ _ _ (Ha me i f1 a1 Hi)) as (x1 & Hx1 & Hu1). destruct (at_proj _ _ _ _ (Ha me j f2 a2 Hj)) as (x2 & Hx2 & Hu2).
  unfold cmp_futexes. apply wp_bind. eapply wp_eq; [by apply deref_run|]. apply wp_bind. eapply wp_eq; [by apply deref_run|].
  apply wp_ret. eexists. split; [by apply becomes_refl|]. by rewrite Hu1, Hu2.
Qed.

(** Slot 1 holds [futex1] and slot 0 [futex2], the same futex if the addresses are the same. *)
Definition slot L i (o : option Z) (a : Z) : Prop :=
  match o with Some f => l_refs L !! i = Some (f, a) | None => l_refs L !! i = None end.

Record two_slots L (o1 o2 : option Z) (a1 a2 : Z) : Prop := {
  ts_one : slot L 1%nat o1 a1;
  ts_two : slot L 0%nat o2 a2;
  ts_same : forall f1 f2, o1 = Some f1 -> o2 = Some f2 -> (a1 = a2 <-> f1 = f2);
}.

Definition locks_two (ls : list (Z * Z)) (o1 o2 : option Z) : Prop := forall h, h ∈ fst <$> ls <-> o1 = Some h \/ o2 = Some h.

Lemma safe_lock_two o1 o2 a1 a2 (Q : unit -> local -> Prop) L :
  two_slots L o1 o2 a1 a2 -> l_locks L = [] -> (forall ls, locks_two ls o1 o2 -> Q () (with_locks ls L)) ->
  safe me (lock_two_futexes o1 o2) Q L.
Proof.
  intros [H1 H2 H3] Hl HQ. unfold lock_two_futexes. destruct L as [r t l k n as_ q w th d]; cbn in * |-; subst.
  destruct o1 as [f1|], o2 as [f2|]; cbn in H1, H2.
  - sbind. eapply (safe_cmp 1%nat 0%nat); [done..|]. destruct (Z.ltb_spec a1 a2); lcbn.
    + sbind. eapply safe_lock; [done|by intros ? ? ?%elem_of_nil|]. lcbn.
      eapply safe_lock; [done|intros ? ? [= -> ->]%list_elem_of_singleton; done|]. apply HQ. intros h. cbn. set_solver.
    + destruct (Z.eqb_spec a1 a2) as [->|]; lcbn.
      * eapply safe_lock; [done|by intros ? ? ?%elem_of_nil|]. apply HQ. intros h. cbn. assert (f1 = f2) as -> by (by apply H3). set_solver.
      * sbind. eapply safe_lock; [done|by intros ? ? ?%elem_of_nil|]. lcbn.
        eapply safe_lock; [done|intros ? ? [= -> ->]%list_elem_of_singleton; lia|]. apply HQ. intros h. cbn. set_solver.
  - eapply safe_lock; [done|by intros ? ? ?%elem_of_nil|]. apply HQ. intros h. cbn. set_solver.
  - eapply safe_lock; [done|by intros ? ? ?%elem_of_nil|]. apply HQ. intros h. cbn. set_solver.
  - apply safe_ret. apply (HQ []). intros h. cbn. set_solver.
Qed.

Lemma drop_lock_in f h ls : h ∈ fst <$> drop_lock f ls <-> h ∈ fst <$> ls /\ h <> f.
Proof. unfold drop_lock. rewrite !list_elem_of_fmap. setoid_rewrite list_elem_of_filter. naive_solver. Qed.

Lemma no_locks (ls : list (Z * Z)) : (forall h, h ∉ fst <$> ls) -> ls = [].
Proof. destruct ls as [|[f a] ls]; [done|]. intros H. destruct (H f). cbn. apply list_elem_of_here. Qed.

(** Knowledge after unlocking. *)
Definition known_after (o1 o2 : option Z) (k k' : list Z) (tree : bool) : Prop :=
  if tree then k' = k else forall h, h ∈ k' -> h ∈ k /\ o1 <> Some h /\ o2 <> Some h.

Lemma safe_unlock_two o1 o2 a1 a2 ls (Q : unit -> local -> Prop) L :
  two_slots L o1 o2 a1 a2 -> l_locks L = ls -> locks_two ls o1 o2 -> (forall h, l_node L <> Some (Some h)) ->
  (forall k', known_after o1 o2 (l_known L) k' (l_tree L) -> Q () (with_known k' (with_locks [] L))) ->
  safe me (unlock_two_futexes o1 o2) Q L.
Proof.
  intros [H1 H2 H3] Hl Hls Hn HQ. unfold unlock_two_futexes. destruct L as [r t l k n as_ q w th d]; cbn in * |-; subst.
  assert (Hone : forall f, (forall h, h ∈ fst <$> ls <-> h = f) -> known_after o1 o2 k (if t then k else filter (fun h => h <> f) k) t ->
            safe me (spinlock_unlock (FutexLock f)) Q (Local r t ls k n as_ q w th d)).
  { intros f Hf Hk. apply safe_unlock; [cbn; by apply Hf|naive_solver|]. lcbn.
    rewrite (no_locks (drop_lock f ls)) by (intros h; rewrite drop_lock_in, Hf; naive_solver). by apply HQ. }
  unfold locks_two in Hls. destruct o1 as [f1|], o2 as [f2|]; cbn in H1, H2.
  - sbind. eapply (safe_cmp 1%nat 0%nat); [done..|].
    assert (Hne : a1 <> a2 -> safe me (spinlock_unlock (FutexLock f1);; spinlock_unlock (FutexLock f2)) Q (Local r t ls k n as_ q w th d)).
    { intros Ha. sbind; apply safe_unlock; [cbn; set_solver|naive_solver|]. lcbn. apply safe_unlock.
      - lcbn. rewrite drop_lock_in. split; [set_solver|]. intros <-. apply Ha. by apply (H3 f2 f2).
      - naive_solver.
      - lcbn. rewrite (no_locks (drop_lock f2 (drop_lock f1 ls))) by (intros h; rewrite !drop_lock_in, Hls; naive_solver). apply HQ. destruct t; [done|].
        intros h. rewrite !list_elem_of_filter. naive_solver. }
    destruct (Z.ltb_spec a1 a2); [apply Hne; lia|]. destruct (Z.eqb_spec a1 a2) as [->|]; [|by apply Hne]. cbn.
    assert (f1 = f2) as -> by (by apply H3). apply Hone; [intros h; rewrite Hls; naive_solver|]. destruct t; [done|]. intros h. rewrite list_elem_of_filter. naive_solver.
  - apply Hone; [intros h; rewrite Hls; naive_solver|]. destruct t; [done|]. intros h. rewrite list_elem_of_filter. naive_solver.
  - apply Hone; [intros h; rewrite Hls; naive_solver|]. destruct t; [done|]. intros h. rewrite list_elem_of_filter. naive_solver.
  - apply safe_ret. rewrite (no_locks ls) by set_solver. apply (HQ k). destruct t; [done|]. naive_solver.
Qed.

Definition settle_opt (o : option Z) L : local := match o with Some f => settle f L | None => L end.

Lemma when_dequeue_spec o s g L :
  inv s g -> at_thread g me = L -> l_tree L = true -> l_known L = [] -> (forall f, o = Some f -> f ∈ fst <$> l_locks L) ->
  wp (when o (_maybe_dequeue_futex me)) (fun _ s' => becomes me g s' (settle_opt o L)) s.
Proof.
  intros Hinv HL Ht Hk Ho. destruct o as [f|]; [|apply wp_ret; by apply becomes_refl].
  eapply wp_mono; [apply (maybe_dequeue_step me f s g L); auto|]. intros [] s' Hb. destruct L; cbn in *; subst. exact Hb.
Qed.

Lemma safe_maybe_dequeue_two o1 o2 a1 a2 (Q : unit -> local -> Prop) L :
  free L -> two_slots L o1 o2 a1 a2 -> Q () (settle_opt o2 (settle_opt o1 L)) -> safe me (maybe_dequeue_two_futexes me o1 o2) Q L.
Proof.
  intros (Ht & Hl & Hk & Hn) Hts HQ. destruct L as [r t l k n as_ q w th d]; cbn in * |-; subst. unfold maybe_dequeue_two_futexes.
  sbind. apply safe_lock_tree; [done..|]. sbind. eapply (safe_lock_two o1 o2 a1 a2); [by destruct Hts|done|]. intros ls Hls.
  sbind. apply safe_atomic. intros s g Hinv HL. apply wp_bind.
  eapply wp_mono; [apply (when_dequeue_spec o1 s g _ Hinv HL); [done..|]; intros f ->; cbn; apply Hls; by left|].
  intros [] s1 (g1 & Hinv1 & HF1 & HL1).
  eapply wp_mono; [apply (when_dequeue_spec o2 s1 g1 _ Hinv1 HL1); destruct o1; try done; intros f ->; cbn; apply Hls; by right|].
  intros [] s2 (g2 & Hinv2 & HF2 & HL2). eexists. split.
  { exists g2. split_and!; [done| |done]. intros u Hu. rewrite HF2 by done. by apply HF1. }
  set (d' := l_duty (settle_opt o2 (settle_opt o1 (Local r false [] [] n as_ q w th d)))).
  assert (E1 : settle_opt o2 (settle_opt o1 (with_locks ls (with_tree true (Local r false [] [] n as_ q w th d))))
               = Local r true ls [] n as_ q w th d') by (by destruct o1, o2).
  assert (E2 : settle_opt o2 (settle_opt o1 (Local r false [] [] n as_ q w th d)) = Local r false [] [] n as_ q w th d')
    by (by destruct o1, o2).
  rewrite E2 in HQ. cbn beta. rewrite E1. sbind.
  eapply (safe_unlock_two o1 o2 a1 a2 ls); [by destruct Hts|done|done|done|]. intros k' Hk'. cbn in Hk'. subst k'. lcbn. apply safe_unlock_tree; [done|naive_solver|]. lcbn. exact HQ.
Qed.

(** ** Waking up *)

Lemma safe_wake_queue q : forall (Q : unit -> local -> Prop) L,
  l_queue L = q -> l_thread L = None -> l_waking L = None -> Q () (with_queue [] L) -> safe me (wake_queue q) Q L.
Proof.
  induction q as [|t q IH]; intros Q L Hq Hth Hwk HQ.
  - apply safe_ret. destruct L; cbn in *; subst. exact HQ.
  - cbn [wake_queue]. sbind. apply safe_atomic. intros s g Hinv HL. eapply wp_mono; [by apply (unqueue_spec me t q s g L)|].
    intros [] s' Hb. eexists. split; [exact Hb|]. sbind. apply safe_atomic. intros s2 g2 Hinv2 HL2.
    eapply wp_mono; [by apply (wakeup_spec me t s2 g2 _ Hinv2 HL2)|]. intros [] s3 Hb3. eexists. split; [exact Hb3|].
    destruct L; cbn in Hq, Hth, Hwk, HQ; subst. by apply IH.
Qed.

Lemma safe_put i f a (Q : unit -> local -> Prop) L :
  l_refs L !! i = Some (f, a) -> f ∉ fst <$> l_locks L -> Q () (drop_ref i L) -> safe me (atomic (put_futex f)) Q L.
Proof.
  intros Hi Hf HQ. apply safe_atomic. intros s g Hinv HL. eapply wp_mono; [by apply (put_slot me i f a s g L)|].
  intros [] s' Hb. eexists. split; [exact Hb|done].
Qed.

Lemma drop_none i L : l_refs L !! i = None -> drop_ref i L = L.
Proof. intros Hi. destruct L. cbn in *. unfold drop_ref, with_refs. cbn. by rewrite delete_id. Qed.

Lemma safe_put_opt i o a (Q : unit -> local -> Prop) L :
  slot L i o a -> l_locks L = [] -> Q () (drop_ref i L) -> safe me (atomic (when o put_futex)) Q L.
Proof.
  intros Ho Hl HQ. destruct o as [f|]; cbn in Ho.
  - eapply safe_put; [done| |done]. rewrite Hl. apply not_elem_of_nil.
  - rewrite (drop_none i L Ho) in HQ. apply safe_quiet. intros s. by apply wp_ret.
Qed.

Lemma change_duty' d s g L : inv s g -> at_thread g me = L -> l_duty L ⊆ d -> becomes me g s (with_duty d L).
Proof. intros Hinv HL Hd. apply change_duty; [done..|]. intros f Hf. left. by apply Hd. Qed.

(** What the thread owes after it has looked at [f]. *)
Definition owes_after f (nd : bool) (d d' : list Z) : Prop := d' ⊆ f :: d /\ (nd = false -> f ∉ d').

Lemma check_and_settle f s g L :
  inv s g -> at_thread g me = L -> f ∈ fst <$> l_locks L ->
  wp (check_dequeue_futex me f) (fun nd s' => s' = s /\ exists d, becomes me g s (with_duty d L) /\ owes_after f nd (l_duty L) d) s.
Proof.
  intros Hinv HL Hf. eapply wp_mono; [by eapply check_dequeue_spec|]. intros nd s' [-> Hnd]. split; [done|]. destruct nd.
  - exists (l_duty L). split; [apply change_duty'; done|]. split; [set_solver|done].
  - symmetry in Hnd. exists (filter (fun h => h <> f) (l_duty L)). split; [by apply settle_spec|]. split.
    + intros h. rewrite list_elem_of_filter. set_solver.
    + intros _. rewrite list_elem_of_filter. naive_solver.
Qed.

Lemma wake_and_check_spec f bitset to_wake queue s g L :
  inv s g -> at_thread g me = L -> f ∈ fst <$> l_locks L -> l_queue L = queue ->
  wp (wake_and_check me f bitset to_wake queue) (fun r s' => let '(woken, q, nd) := r in
    0 <= woken /\ (woken = 0 -> q = queue) /\
    exists d, becomes me g s' (with_duty d (with_queue q L)) /\ owes_after f nd (l_duty L) d) s.
Proof.
  intros Hinv HL Hf Hq. destruct (change_duty' (f :: l_duty L) s g L Hinv HL ltac:(set_solver)) as (g1 & Hinv1 & HF1 & HL1).
  destruct (locked_exists me s g1 f Hinv1) as (x & _ & Hx & _).
  { change (g_locks g1 me) with (l_locks (at_thread g1 me)). by rewrite HL1. }
  unfold wake_and_check. apply wp_bind. eapply wp_mono.
  { apply (move_to_wake_queue_spec me f x bitset to_wake queue s g1 _ Hinv1 HL1); try done. cbn. set_solver. }
  intros [woken q] s' [Hc (g2 & Hinv2 & HF2 & HL2) _ _ _ _ Hzero]. cbn [fst snd] in *. apply wp_bind.
  eapply wp_mono; [by apply (check_and_settle f s' g2 _ Hinv2 HL2)|]. intros nd s2 [-> (d & (g3 & Hinv3 & HF3 & HL3) & Hd)].
  apply wp_ret. split_and!; [lia|intros ->; apply Hzero; destruct (to_be_woken _ _ _ _); [done|cbn in Hc; lia]|].
  exists d. split; [|unfold owes_after in *; cbn in Hd; set_solver]. exists g3. split_and!; [done| |done].
  intros t Ht. rewrite HF3, HF2, HF1 by done. done.
Qed.

(** ** Searching *)

Definition add_slot i (o : option Z) a L : local := match o with Some f => learn f (take_ref i (f, a) L) | None => L end.

(** The address of a futex that the thread already refers to. *)
Definition same_addr L a (o : option Z) : Prop := forall f j a', o = Some f -> l_refs L !! j = Some (f, a') -> a' = a.

Lemma find_slot_spec i a s g L :
  inv s g -> at_thread g me = L -> l_tree L = true -> l_refs L !! i = None -> i <> TMP ->
  wp (find_futex me a) (fun r s' => becomes me g s' (add_slot i r a L) /\ finds L a r /\ same_addr L a r) s.
Proof.
  intros Hinv HL Ht Hi Htmp. eapply wp_mono; [by apply (find_spec me i a s g L)|]. intros [f|] s' [Hfinds Hb].
  - split_and!; [done|done|]. intros h j a' [= <-] Hj. destruct Hb as (g' & [] & _ & HL'). destruct inv_addr as (Ha & _).
    assert (Hs : forall k v, l_refs (learn f (take_ref i (f, a) L)) !! k = Some v -> g_refs g' me !! k = Some v).
    { intros k v Hk. by rewrite <- HL' in Hk. }
    assert (H1 := Ha me i f a (Hs i _ (lookup_insert_eq _ _ _))).
    assert (H2 := Ha me j f a' (Hs j _ ltac:(cbn; rewrite lookup_insert_ne; [done|congruence]))). congruence.
  - destruct Hb as [-> _]. split_and!; [by apply becomes_refl|done|done].
Qed.

Lemma safe_find i a (Q : option Z -> local -> Prop) L :
  l_tree L = true -> l_refs L !! i = None -> i <> TMP ->
  (forall r, finds L a r -> same_addr L a r -> Q r (add_slot i r a L)) -> safe me (atomic (find_futex me a)) Q L.
Proof.
  intros Ht Hi Htmp HQ. apply safe_atomic. intros s g Hinv HL. eapply wp_mono; [by apply (find_slot_spec i a s g L)|].
  intros r s' (Hb & H1 & H2). eexists. split; [exact Hb|auto].
Qed.

(** ** [futex_wake] *)

Lemma filter_one_in f (a : Z) : filter (fun h => h ∈ fst <$> [(f, a)]) [f] = [f].
Proof. rewrite filter_cons_True; [done|]. cbn. apply list_elem_of_here. Qed.

Lemma filter_one_out f : filter (fun h => h <> f) [f] = [].
Proof. rewrite filter_cons_False; [done|]. naive_solver. Qed.

Lemma settle_one f d : d ⊆ [f] -> filter (fun h => h <> f) d = [].
Proof. intros Hd. apply nil_of_subset. intros h. rewrite list_elem_of_filter. intros [Hne Hh%Hd]. set_solver. Qed.

Lemma owes_nothing f d : d ⊆ [f] -> f ∉ d -> d = [].
Proof. intros Hd Hf. apply nil_of_subset. intros h Hh. pose proof (Hd h Hh). set_solver. Qed.

(** The optional call of [maybe_dequeue_futex], after which nothing is owed. *)
Lemma safe_dequeue_if nd i f a d r n as_ q w th (Q : unit -> local -> Prop) :
  r !! i = Some (f, a) -> (forall h, n <> Some (Some h)) -> d ⊆ [f] -> (nd = false -> d = []) ->
  Q () (Local r false [] [] n as_ q w th []) ->
  safe me (prog_if nd (maybe_dequeue_futex me f)) Q (Local r false [] [] n as_ q w th d).
Proof.
  intros Hi Hn Hd Hnd HQ. destruct nd; cbn [prog_if].
  - eapply (safe_maybe_dequeue i f a); [done|done|]. lcbn. by rewrite settle_one.
  - apply safe_ret. by rewrite Hnd.
Qed.

Lemma safe_futex_wake a to_wake bitset (Q : Z -> local -> Prop) :
  (forall r, Q r no_local) -> safe me (futex_wake me a to_wake bitset) Q no_local.
Proof.
  intros HQ. unfold futex_wake. destruct (bitset =? 0); [by apply safe_ret|].
  sbind. apply safe_lock_tree; [done..|]. sbind. apply (safe_find 0%nat); [done..|]. intros [f|] _ _; cbn [add_slot].
  2:{ sbind. apply safe_unlock_tree; [done..|]. apply safe_ret. lcbn. apply HQ. }
  lcbn. sbind. apply (safe_lock me 0%nat f a); [done|by intros ? ? ?%elem_of_nil|]. sbind. apply safe_unlock_tree; [done..|].
  lcbn. rewrite filter_one_in. sbind. apply safe_atomic. intros s g Hinv HL.
  eapply wp_mono; [apply (wake_and_check_spec f bitset to_wake [] s g _ Hinv HL); [cbn; set_solver|done]|].
  intros [[woken q] nd] s' (_ & _ & d & Hb & Hd1 & Hd2). eexists. split; [exact Hb|]. lcbn.
  sbind. apply safe_unlock; [cbn; set_solver|done|]. lcbn. rewrite drop_lock_one, filter_one_out.
  sbind. eapply (safe_dequeue_if nd 0%nat f a); [done|done|done|intros E; by apply (owes_nothing f); auto|].
  sbind. apply safe_wake_queue; [done..|]. lcbn. sbind. apply (safe_put 0%nat f a); [done|apply not_elem_of_nil|].
  apply safe_ret. apply HQ.
Qed.

(** ** [futex_wait] *)

(** The reference in [tmp]. *)
Definition tmp_refs (tmp : option Z) (a : Z) : gmap nat (Z * Z) := match tmp with Some t => <[TMP := (t, a)]> ∅ | None => ∅ end.

Lemma tmp_refs_other tmp a i : i <> TMP -> tmp_refs tmp a !! i = None.
Proof. intros Hi. destruct tmp; [|done]. cbn. by rewrite lookup_insert_ne. Qed.

Lemma tmp_refs_delete tmp a : delete TMP (tmp_refs tmp a) = ∅.
Proof. destruct tmp; [|done]. cbn. by rewrite delete_insert_id. Qed.

Definition found_local f tmp a (new : bool) : local :=
  Local (<[0%nat := (f, a)]> (tmp_refs tmp a)) true [] [f] None false [] None None (if new then [f] else []).

Lemma safe_create_or_find a (Q : Z * option Z -> local -> Prop) :
  (forall f tmp new, Q (f, tmp) (found_local f tmp a new)) ->
  safe me (tmp ← atomic (create_new_futex a); spinlock_lock TreeLock;; atomic (find_or_enqueue me a tmp)) Q no_local.
Proof.
  intros HQ. sbind. apply safe_atomic. intros s g Hinv HL. eapply wp_mono; [by apply (create_spec me a s g _ Hinv HL)|].
  intros tmp s' Hb. eexists. split; [exact Hb|]. sbind. apply safe_lock_tree; [done..|]. apply safe_atomic. intros s1 g1 Hinv1 HL1.
  eapply wp_mono; [by apply (find_or_enqueue_spec me a tmp s1 g1 _ Hinv1 HL1)|]. intros [f tmp'] s2 [[E Hb2]|[[= -> ->] Hb2]].
  - cbn in E. subst tmp'. eexists. split; [exact Hb2|]. apply (HQ f (Some tmp) false).
  - eexists. split; [exact Hb2|]. lcbn. rewrite delete_insert_id by done. apply (HQ tmp None true).
Qed.

Lemma safe_find_or_create a (Q : option (Z * option Z) -> local -> Prop) :
  Q None no_local -> (forall f tmp new, Q (Some (f, tmp)) (found_local f tmp a new)) -> safe me (find_or_create_futex me a) Q no_local.
Proof.
  intros HN HQ. unfold find_or_create_futex. sbind. apply safe_lock_tree; [done..|]. sbind. apply (safe_find 0%nat); [done..|].
  intros [f|] _ _; cbn [add_slot]; [apply safe_ret, (HQ f None false)|]. sbind. apply safe_unlock_tree; [done..|]. sbind.
  apply safe_host. intros memory. destruct (memory =? 0); [by apply safe_ret|]. lcbn.
  pose proof (safe_create_or_find a (fun r L => Q (Some r) L) ltac:(auto)) as H. cbn in H |- *. exact H.
Qed.

Lemma safe_wait_out f a b ret th tmp nd kn d (Q : Z -> local -> Prop) :
  kn ⊆ [f] -> d ⊆ [f] -> (nd = false -> d = []) -> Q ret no_local ->
  safe me (wait_out me f ret th tmp nd) Q (Local (<[0%nat := (f, a)]> (tmp_refs tmp b)) false [(f, a)] kn None false [] None th d).
Proof.
  intros Hk Hd Hnd HQ. unfold wait_out. sbind. apply safe_unlock; [cbn; set_solver|done|]. lcbn. rewrite drop_lock_one, (settle_one f kn) by done.
  sbind. eapply (safe_dequeue_if nd 0%nat f a); [apply lookup_insert_eq|done|done|done|].
  sbind. assert (Hth : forall (R : unit -> local -> Prop) r, R () (Local r false [] [] None false [] None None []) ->
    safe me (atomic (when th put_thread)) R (Local r false [] [] None false [] None th [])).
  { intros R r HR. destruct th as [t|]; [|apply safe_quiet; intros s; by apply wp_ret].
    apply safe_atomic. intros s g Hinv HL. eapply wp_mono; [by apply (put_thread_spec me t s g _ Hinv HL)|].
    intros [] s' Hb. eexists. split; [exact Hb|exact HR]. }
  apply Hth. sbind. apply (safe_put 0%nat f a); [apply lookup_insert_eq|apply not_elem_of_nil|]. lcbn.
  rewrite delete_insert_id by (by apply tmp_refs_other). sbind. apply (safe_put_opt TMP tmp b); [by destruct tmp|done|]. lcbn.
  rewrite tmp_refs_delete. apply safe_ret. exact HQ.
Qed.

Lemma safe_sleep timed (Q : Z -> local -> Prop) L :
  may_sleep L -> (forall r, Q r (with_node (l_node L) false L)) -> safe me (thread_wait timed) Q L.
Proof. done. Qed.

Lemma safe_futex_wait a val timed bitset (Q : Z -> local -> Prop) :
  (forall r, Q r no_local) -> safe me (futex_wait me a val timed bitset) Q no_local.
Proof.
  intros HQ. unfold futex_wait. sbind. apply safe_find_or_create; [by apply safe_ret|]. intros f tmp new. unfold found_local.
  set (d := if new then [f] else []). assert (Hd : d ⊆ [f]) by (subst d; destruct new; set_solver).
  sbind. apply (safe_lock me 0%nat f a); [apply lookup_insert_eq|by intros ? ? ?%elem_of_nil|].
  sbind. apply safe_unlock_tree; [done..|]. lcbn. rewrite filter_one_in. sbind. apply safe_atomic. intros s g Hinv HL.
  eapply wp_mono; [apply (wait_enqueue_spec me f a val bitset s g _ Hinv HL); [cbn; set_solver|cbn; set_solver|done]|].
  intros [[|] nd] s' Hb.
  - eexists. split; [exact Hb|]. lcbn. rewrite settle_one by done. sbind. apply safe_unlock; [cbn; set_solver|done|]. lcbn.
    rewrite drop_lock_one, filter_one_out. sbind. apply (safe_put 0%nat f a); [apply lookup_insert_eq|apply not_elem_of_nil|]. lcbn.
    rewrite delete_insert_id by (by apply tmp_refs_other). sbind. apply safe_sleep.
    { split_and!; try done. intros i Hi. by apply tmp_refs_other. }
    intros ret. lcbn. sbind. apply safe_lock_tree; [done..|]. sbind. apply safe_atomic. intros s1 g1 Hinv1 HL1.
    eapply wp_mono; [apply (current_futex_spec me s1 g1 _ Hinv1 HL1); [done|by apply tmp_refs_other|done]|].
    intros f' s2 (a' & Hb2). eexists. split; [exact Hb2|]. lcbn. sbind.
    apply (safe_lock me 0%nat f' a'); [apply lookup_insert_eq|by intros ? ? ?%elem_of_nil|].
    sbind. apply safe_unlock_tree; [done|intros h [= <-]; cbn; set_solver|]. lcbn. sbind. apply safe_atomic. intros s3 g3 Hinv3 HL3.
    eapply wp_mono; [apply (wait_finish_spec me f' ret s3 g3 _ Hinv3 HL3); [done|cbn; set_solver|done..]|].
    intros [[ret' th] nd'] s4 [_ Hb4]. eexists. split; [exact Hb4|].
    assert (E : forall L, l_duty L = [] -> exists d', (if nd' then waited th f' L else settle f' (waited th f' L)) =
      with_duty d' (with_thread None th (with_node None false L)) /\ d' ⊆ [f'] /\ (nd' = false -> d' = [])).
    { intros [] E. cbn in E. subst. destruct nd'; lcbn; eexists; (split; [reflexivity|]); [split; [set_solver|done]|].
      rewrite filter_one_out. split; [set_solver|done]. }
    cbn beta. match goal with |- safe _ _ _ (if _ then waited _ _ ?L else _) => destruct (E L eq_refl) as (d' & -> & Hd' & Hnd') end.
    lcbn. apply safe_wait_out; try done. set_solver.
  - eexists. split; [exact Hb|]. set (L := Local _ _ _ _ _ _ _ _ _ _).
    assert (E : exists d', (if nd then L else settle f L) = with_duty d' L /\ d' ⊆ [f] /\ (nd = false -> d' = [])).
    { destruct nd; [by exists d|]. exists []. split; [|split; [set_solver|done]]. unfold L. lcbn. by rewrite settle_one. }
    destruct E as (d' & -> & Hd' & Hnd'). unfold L. lcbn. apply safe_wait_out; try done.
Qed.

(** ** Operations on two futexes *)

Definition ref_of (o : option Z) (a : Z) : option (Z * Z) := (fun f => (f, a)) <$> o.

(** [futex1], [futex2] and [tmp]. *)
Definition three_slots (r : gmap nat (Z * Z)) (o1 o2 tmp : option Z) (a1 a2 b : Z) : Prop :=
  r !! 1%nat = ref_of o1 a1 /\ r !! 0%nat = ref_of o2 a2 /\ r !! TMP = ref_of tmp b /\
  (forall i, i <> 0%nat -> i <> 1%nat -> i <> TMP -> r !! i = None).

Lemma slot_ref L i o a : l_refs L !! i = ref_of o a -> slot L i o a.
Proof. by destruct o. Qed.

Lemma three_slots_empty r o1 o2 tmp a1 a2 b : three_slots r o1 o2 tmp a1 a2 b -> delete TMP (delete 0%nat (delete 1%nat r)) = ∅.
Proof.
  intros (_ & _ & _ & H). apply map_eq. intros i. rewrite lookup_empty, !lookup_delete_None.
  destruct (decide (TMP = i)); [by left|]. right. destruct (decide (0%nat = i)); [by left|]. right.
  destruct (decide (1%nat = i)); [by left|]. right. by apply H.
Qed.

Definition among (o1 o2 : option Z) (l : list Z) : Prop := forall h, h ∈ l -> o1 = Some h \/ o2 = Some h.

Lemma among_nil o1 o2 l : among o1 o2 l -> (forall h, h ∈ l -> o1 <> Some h /\ o2 <> Some h) -> l = [].
Proof. intros H1 H2. apply nil_of_subset. intros h Hh. destruct (H1 h Hh), (H2 h Hh); naive_solver. Qed.

Lemma settle_two o1 o2 L :
  among o1 o2 (l_duty L) -> settle_opt o2 (settle_opt o1 L) = with_duty [] L.
Proof.
  intros Ha. assert (E : l_duty (settle_opt o2 (settle_opt o1 L)) = []).
  { apply nil_of_subset. intros h. destruct o1 as [f1|], o2 as [f2|]; cbn; rewrite ?list_elem_of_filter; intros Hh;
      destruct (Ha h); naive_solver. }
  destruct L, o1, o2; cbn in *; unfold with_duty, settle in *; cbn in *; by rewrite E.
Qed.

Lemma safe_dequeue_two_if nd o1 o2 a1 a2 r q d (Q : unit -> local -> Prop) :
  (forall L, l_refs L = r -> two_slots L o1 o2 a1 a2) -> among o1 o2 d -> (nd = false -> d = []) ->
  Q () (Local r false [] [] None false q None None []) ->
  safe me (prog_if nd (maybe_dequeue_two_futexes me o1 o2)) Q (Local r false [] [] None false q None None d).
Proof.
  intros Hts Ha Hnd HQ. destruct nd; cbn [prog_if].
  - eapply (safe_maybe_dequeue_two o1 o2 a1 a2); [done|by apply Hts|]. rewrite settle_two by done. exact HQ.
  - apply safe_ret. by rewrite Hnd.
Qed.

Lemma safe_wake_if (b : bool) q r (Q : unit -> local -> Prop) :
  (b = false -> q = []) -> Q () (Local r false [] [] None false [] None None []) ->
  safe me (prog_if b (wake_queue q)) Q (Local r false [] [] None false q None None []).
Proof.
  intros Hb HQ. destruct b; cbn [prog_if]; [by apply safe_wake_queue|]. apply safe_ret. by rewrite Hb.
Qed.

Lemma safe_put_three o1 o2 tmp a1 a2 b r ret (Q : Z -> local -> Prop) :
  three_slots r o1 o2 tmp a1 a2 b -> Q ret no_local ->
  safe me (atomic (when o1 put_futex);; atomic (when o2 put_futex);; atomic (when tmp put_futex);; mret ret) Q
    (Local r false [] [] None false [] None None []).
Proof.
  intros Hr HQ. pose proof Hr as (H1 & H0 & H2 & _). sbind. apply (safe_put_opt 1%nat o1 a1); [by apply slot_ref|done|]. lcbn.
  sbind. apply (safe_put_opt 0%nat o2 a2); [apply slot_ref; cbn; by rewrite lookup_delete_ne|done|]. lcbn.
  sbind. apply (safe_put_opt TMP tmp b); [apply slot_ref; cbn; by rewrite !lookup_delete_ne|done|]. lcbn.
  rewrite (three_slots_empty _ _ _ _ _ _ _ Hr). apply safe_ret. exact HQ.
Qed.

(** The second search: the two slots agree. *)
Lemma add_two_slots i1 i2 o1 o2 a1 a2 L :
  i1 <> i2 -> l_refs L !! i1 = None -> l_refs L !! i2 = None ->
  finds (add_slot i1 o1 a1 L) a2 o2 -> same_addr (add_slot i1 o1 a1 L) a2 o2 ->
  let L' := add_slot i2 o2 a2 (add_slot i1 o1 a1 L) in
  l_refs L' !! i1 = ref_of o1 a1 /\ l_refs L' !! i2 = ref_of o2 a2 /\
  (forall f1 f2, o1 = Some f1 -> o2 = Some f2 -> (a1 = a2 <-> f1 = f2)) /\
  exists r k, L' = with_refs r (with_known k L) /\ (forall j, j <> i1 -> j <> i2 -> r !! j = l_refs L !! j) /\
    (forall h, h ∈ k <-> h ∈ l_known L \/ o1 = Some h \/ o2 = Some h).
Proof.
  intros Hne H1 H2 Hf Hs L'. destruct L as [r t l k n as_ q w th d]; cbn in H1, H2. split_and!.
  - destruct o1, o2; cbn; rewrite ?(lookup_insert_ne _ i2 i1), ?lookup_insert_eq by done; done.
  - destruct o1, o2; cbn; rewrite ?lookup_insert_eq, ?lookup_insert_ne by done; done.
  - intros f1 f2 -> ->. cbn in Hf, Hs. split.
    + intros <-. specialize (Hf i1 f1). cbn in Hf. rewrite lookup_insert_eq in Hf. specialize (Hf eq_refl ltac:(set_solver)). congruence.
    + intros <-. apply (Hs f1 i1 a1 eq_refl). cbn. by rewrite lookup_insert_eq.
  - exists (l_refs L'), (l_known L'). split_and!.
    + by destruct o1, o2.
    + intros j Hj1 Hj2. destruct o1, o2; cbn; rewrite ?lookup_insert_ne by done; done.
    + intros h. destruct o1, o2; cbn; set_solver.
Qed.
End calls.
