(* ===== verification/FutexTwo.v ===== *)
(** * The calls on two futexes are safe

    [futex_wake_op] and [futex_requeue] hold the locks of two futexes at once. *)

From stdpp Require Import functions.
From S2P Require Import Prelude OrdSeq Futex FutexInv FutexSteps FutexWait FutexWake FutexLoop FutexSafe FutexCalls.

Section two.
Variable me : Z.
Implicit Types (L : local) (f : Z) (i : nat).

(** ** [futex_wake_op] *)

Definition owes_opt (o : option Z) (nd : bool) (d d' : list Z) : Prop :=
  match o with Some f => owes_after f nd d d' | None => d' = d end.

Lemma wake_and_check_opt_spec o to_wake acc s g L :
  inv s g -> at_thread g me = L -> (forall f, o = Some f -> f ∈ fst <$> l_locks L) -> l_queue L = snd acc ->
  wp (wake_and_check_opt me o to_wake acc) (fun r s' => let '(n, q, nd) := r in
    fst acc <= n /\ (n = fst acc -> q = snd acc) /\
    exists d, becomes me g s' (with_duty d (with_queue q L)) /\ owes_opt o nd (l_duty L) d) s.
Proof.
  intros Hinv HL Hf Hq. destruct acc as [n0 q0]. cbn in Hq. unfold wake_and_check_opt. destruct o as [f|].
  - apply wp_bind. eapply wp_mono; [apply (wake_and_check_spec me f 0 to_wake q0 s g L); auto|].
    intros [[woken q] nd] s' (H1 & H2 & d & Hb & Hd). apply wp_ret. cbn. split_and!; [lia|intros; apply H2; lia|]. eauto.
  - apply wp_ret. cbn. split_and!; [lia|done|]. exists (l_duty L). split; [|done]. apply becomes_refl; [done|]. rewrite HL. destruct L; cbn in *.
    by subst.
Qed.

Lemma wakeop_execute_quiet a2 val3 s : wp (wakeop_execute a2 val3) (fun _ s' => unchanged s s') s.
Proof.
  unfold wakeop_execute. destruct (wakeop_fields val3) as [[[op cmp] oparg] cmparg]. apply wp_bind, wp_gets.
  destruct (wakeop_apply op oparg (words s a2)); [|by apply wp_ret]. apply wp_bind, wp_modify, wp_ret. done.
Qed.

Lemma wakeop_region_spec o1 o2 a2 w1 w2 val3 s g L :
  inv s g -> at_thread g me = L -> (forall f, o1 = Some f \/ o2 = Some f -> f ∈ fst <$> l_locks L) -> l_queue L = [] -> l_duty L = [] ->
  wp (wakeop_region me o1 o2 a2 w1 w2 val3) (fun r s' => let '(ret, q, nd) := r in
    ((0 <? ret) = false -> q = []) /\
    exists d, becomes me g s' (with_duty d (with_queue q L)) /\ among o1 o2 d /\ (nd = false -> d = [])) s.
Proof.
  intros Hinv HL Hf Hq Hd. unfold wakeop_region. apply wp_bind. eapply wp_mono; [apply wakeop_execute_quiet|].
  intros r s1 Hu. pose proof (unchanged_inv s s1 g Hu Hinv) as Hinv1. destruct r as [cmpval|].
  2:{ apply wp_ret. split; [done|]. exists []. split_and!; [|intros h Hh; by apply elem_of_nil in Hh|done].
      apply becomes_refl; [done|]. rewrite HL. destruct L; cbn in *. by subst. }
  apply wp_bind. eapply wp_mono; [apply (wake_and_check_opt_spec o1 w1 (0, []) s1 g L); auto|].
  intros [[n1 q1] nd1] s2 (Hn1 & Hq1 & d1 & (g2 & Hinv2 & HF2 & HL2) & Hd1). cbn [fst snd] in Hn1, Hq1. apply wp_bind.
  set (o2' := if cmpval then o2 else None).
  assert (Ho2 : forall f, o2' = Some f -> o2 = Some f) by (subst o2'; by destruct cmpval).
  eapply wp_mono; [apply (wake_and_check_opt_spec o2' w2 (n1, q1) s2 g2 _ Hinv2 HL2); [intros f E; cbn; auto|done]|].
  intros [[n2 q2] nd2] s3 (Hn2 & Hq2 & d2 & (g3 & Hinv3 & HF3 & HL3) & Hd2). cbn [fst snd] in Hn2, Hq2. cbn in Hd2. apply wp_ret.
  assert (Hsub : among o1 o2 d2).
  { intros h Hh. assert (H1 : forall h, h ∈ d1 -> o1 = Some h).
    { intros h' Hh'. rewrite Hd in Hd1. destruct o1 as [f1|]; cbn in Hd1; [destruct Hd1 as [Hd1 _]; apply Hd1 in Hh'; set_solver|].
      subst d1. by apply elem_of_nil in Hh'. }
    destruct o2' as [f2|] eqn:E; cbn in Hd2; [|subst d2; auto]. destruct Hd2 as [Hd2 _]. apply Hd2, elem_of_cons in Hh as [->|Hh]; auto. }
  split; [|exists d2; split_and!; [|done|]].
  - intros Hret. breflect. assert (n1 = 0) by lia. assert (n2 = n1) by lia. rewrite Hq2 by done. by apply Hq1.
  - exists g3. split_and!; [done| |]; [intros t Ht; rewrite HF3, HF2 by done; done|]. rewrite HL3. by destruct L.
  - intros [-> ->]%orb_false_iff. apply nil_of_subset. intros h Hh. rewrite Hd in Hd1.
    assert (H1 : forall h, h ∉ d1).
    { intros h' Hh'. destruct o1 as [f1|]; cbn in Hd1; [|subst d1; by apply elem_of_nil in Hh'].
      destruct Hd1 as [Hs Hn]. specialize (Hn eq_refl). pose proof (Hs h' Hh'). set_solver. }
    destruct o2' as [f2|]; cbn in Hd2; [|subst d2; by apply (H1 h)]. destruct Hd2 as [Hs Hn]. specialize (Hn eq_refl).
    pose proof (Hs h Hh) as Hh'. apply elem_of_cons in Hh' as [->|Hh']; [done|]. by apply (H1 h).
Qed.

Lemma safe_futex_wake_op a1 a2 w1 w2 val3 (Q : Z -> local -> Prop) :
  (forall r, Q r no_local) -> safe me (futex_wake_op me a1 a2 w1 w2 val3) Q no_local.
Proof.
  intros HQ. unfold futex_wake_op. sbind. apply safe_lock_tree; [done..|]. sbind. apply safe_atomic. intros s g Hinv HL.
  unfold find_two. apply wp_bind. eapply wp_mono; [by apply (find_slot_spec me 1%nat a1 s g _ Hinv HL)|].
  intros o1 s1 ((g1 & Hinv1 & HF1 & HL1) & _ & _). apply wp_bind.
  eapply wp_mono; [apply (find_slot_spec me 0%nat a2 s1 g1 _ Hinv1 HL1); by destruct o1|].
  intros o2 s2 ((g2 & Hinv2 & HF2 & HL2) & Hf & Hs). apply wp_ret. eexists. split.
  { exists g2. split_and!; [done| |exact HL2]. intros t Ht. rewrite HF2 by done. by apply HF1. }
  destruct (add_two_slots 1%nat 0%nat o1 o2 a1 a2 (with_tree true no_local) ltac:(done) eq_refl eq_refl Hf Hs) as (R1 & R0 & Rs & r & k & E & Rj & Rk). rewrite E in R1, R0 |- *.
  lcbn. cbn [l_refs with_refs] in R1, R0, Rj, Rk. cbn in Rk.
  assert (Hr : three_slots r o1 o2 None a1 a2 0).
  { split_and!; [done|done|by rewrite Rj|]. intros i H0 H1 H2. by rewrite Rj. }
  assert (Hts : forall L, l_refs L = r -> two_slots L o1 o2 a1 a2).
  { intros L <-. split; [by apply slot_ref|by apply slot_ref|done]. }
  sbind. apply (safe_lock_two me o1 o2 a1 a2); [by apply Hts|done|]. intros ls Hls. lcbn. sbind. apply safe_unlock_tree; [done..|]. lcbn.
  sbind. apply safe_atomic. intros s3 g3 Hinv3 HL3. eapply wp_mono.
  { apply (wakeop_region_spec o1 o2 a2 w1 w2 val3 s3 g3 _ Hinv3 HL3); [intros f Hf'; cbn; by apply Hls|done|done]. }
  intros [[ret q] nd] s4 (Hq & d & Hb & Hd & Hnd). eexists. split; [exact Hb|]. lcbn. sbind.
  apply (safe_unlock_two me o1 o2 a1 a2 ls); [by apply Hts|done|done|done|]. intros k' Hk'. cbn in Hk'.
  assert (k' = []) as ->.
  { apply (among_nil o1 o2); intros h Hh; destruct (Hk' h Hh) as [Hin Hno]; [|done]. apply list_elem_of_filter in Hin as [_ Hin].
    apply Rk in Hin as [Hin|Hin]; [by apply elem_of_nil in Hin|done]. }
  lcbn. sbind. apply (safe_dequeue_two_if me nd o1 o2 a1 a2); [done..|]. sbind. apply safe_wake_if; [done|].
  pose proof Hr as (H1 & H0 & H2 & _). sbind. apply (safe_put_opt me 1%nat o1 a1); [by apply slot_ref|done|]. lcbn.
  sbind. apply (safe_put_opt me 0%nat o2 a2); [apply slot_ref; cbn; by rewrite lookup_delete_ne|done|]. lcbn.
  assert (Hd2 : delete 0%nat (delete 1%nat r) = ∅).
  { rewrite <- (three_slots_empty _ _ _ _ _ _ _ Hr). symmetry. apply delete_id. by rewrite !lookup_delete_ne. }
  rewrite Hd2. apply safe_ret, HQ.
Qed.

(** ** [futex_requeue] *)

Lemma requeue_any_spec f1 f2 to_wake to_requeue s g L :
  inv s g -> at_thread g me = L -> l_tree L = true -> f1 ∈ fst <$> l_locks L -> f2 ∈ fst <$> l_locks L -> f1 ∈ l_duty L ->
  f2 ∈ l_known L -> l_node L = None -> l_queue L = [] -> 0 <= to_wake -> 0 <= to_requeue ->
  wp (requeue_waiters me f1 f2 to_wake to_requeue)
     (fun acc s' => becomes me g s' (with_queue acc.2 L) /\ 0 <= acc.1.1 /\ (acc.1.1 = 0 -> acc.2 = [])) s.
Proof.
  intros Hinv HL Ht Hl1 Hl2 Hd Hk Hn Hq Hw Hr.
  assert (Hex : forall f, f ∈ fst <$> l_locks L -> exists x, heap s !! f = Some x).
  { intros f Hf. destruct (locked_exists me s g f Hinv) as (x & _ & Hx & _); [|by exists x].
    change (g_locks g me) with (l_locks (at_thread g me)). by rewrite HL. }
  destruct (Hex f1 Hl1) as [x1 Hx1], (Hex f2 Hl2) as [x2 Hx2]. destruct (decide (f1 = f2)) as [->|Hne].
  - eapply wp_mono; [by apply (requeue_same_spec me f2 x2 to_wake to_requeue s g L)|].
    intros acc s' [Hwk _ Hb _ _ _ Hzero]. split_and!; [done|lia|]. intros E. apply Hzero. destruct (take _ _); [done|]. cbn in Hwk. lia.
  - eapply wp_mono; [by apply (requeue_waiters_spec me f1 f2 x1 x2 to_wake to_requeue s g L)|].
    intros acc s' [Hwk _ Hb _ _ _ Hzero]. split_and!; [done|lia|]. intros E. apply Hzero. destruct (take _ _); [done|]. cbn in Hwk. lia.
Qed.

Lemma requeue_region_spec o1 f2 a1 to_wake to_requeue val created s g L :
  inv s g -> at_thread g me = L -> l_tree L = true -> (forall f, o1 = Some f \/ Some f2 = Some f -> f ∈ fst <$> l_locks L) ->
  f2 ∈ l_known L -> l_node L = None -> l_queue L = [] -> 0 <= to_wake -> 0 <= to_requeue ->
  l_duty L ⊆ [f2] -> (created = false -> l_duty L = []) ->
  wp (requeue_region me o1 f2 a1 to_wake to_requeue val created) (fun r s' => let '(_, woken, q, nd) := r in
    ((0 <? woken) = false -> q = []) /\
    exists d, becomes me g s' (with_duty d (with_queue q L)) /\ among o1 (Some f2) d /\ (nd = false -> d = [])) s.
Proof.
  intros Hinv HL Ht Hf Hk Hn Hq Hw Hr Hd Hc. unfold requeue_region. apply wp_bind, wp_gets.
  assert (Hdone : exists d, becomes me g s (with_duty d (with_queue [] L)) /\ among o1 (Some f2) d /\ (created = false -> d = [])).
  { exists (l_duty L). split_and!; [|intros h Hh; right; apply Hd, list_elem_of_singleton in Hh; congruence|done].
    apply becomes_refl; [done|]. rewrite HL. destruct L; cbn in *. by subst. }
  destruct (match val with Some v => _ | None => _ end); [by apply wp_ret|]. destruct o1 as [f1|]; [|by apply wp_ret].
  destruct (change_duty' me (f1 :: l_duty L) s g L Hinv HL ltac:(set_solver)) as (g1 & Hinv1 & HF1 & HL1).
  apply wp_bind. eapply wp_mono.
  { apply (requeue_any_spec f1 f2 to_wake to_requeue s g1 _ Hinv1 HL1); cbn; try done; [auto..|set_solver]. }
  intros [[woken requeued] q] s1 ((g2 & Hinv2 & HF2 & HL2) & Hwk & Hzero). cbn [fst snd] in *. apply wp_bind.
  eapply wp_mono; [apply (check_and_settle me f1 s1 g2 _ Hinv2 HL2); cbn; auto|].
  intros nd1 s2 (-> & d1 & (g3 & Hinv3 & HF3 & HL3) & Hs1 & Hn1). apply wp_bind.
  eapply wp_mono; [apply (check_and_settle me f2 s1 g3 _ Hinv3 HL3); cbn; auto|].
  intros nd2 s3 (-> & d2 & (g4 & Hinv4 & HF4 & HL4) & Hs2 & Hn2). apply wp_ret. split; [intros Hlt; breflect; apply Hzero; lia|].
  exists d2. split; [|split].
  - exists g4. split_and!; [done| |rewrite HL4; by destruct L]. intros t Hne. rewrite HF4, HF3, HF2, HF1 by done. done.
  - intros h Hh. apply Hs2, elem_of_cons in Hh as [->|Hh]; [by right|]. apply Hs1 in Hh. cbn in Hh.
    apply elem_of_cons in Hh as [->|Hh]; [by left|]. apply elem_of_cons in Hh as [->|Hh]; [by left|].
    apply Hd, list_elem_of_singleton in Hh as ->. by right.
  - intros [-> ->]%orb_false_iff. specialize (Hn1 eq_refl). specialize (Hn2 eq_refl). apply nil_of_subset. intros h Hh. pose proof Hh as Hh'.
    apply Hs2, elem_of_cons in Hh as [->|Hh]; [done|]. pose proof Hh as Hh1. apply Hs1 in Hh. cbn in Hh.
    apply elem_of_cons in Hh as [->|Hh]; [done|]. apply elem_of_cons in Hh as [->|Hh]; [done|].
    apply Hd, list_elem_of_singleton in Hh as ->. done.
Qed.

Lemma safe_requeue_target a2 (Q : option (Z * option Z * bool) -> local -> Prop) :
  Q None no_local ->
  (forall f tmp new created, (created = false -> new = false) -> Q (Some (f, tmp, created)) (found_local f tmp a2 new)) ->
  safe me (requeue_target me a2) Q no_local.
Proof.
  intros HN HQ. unfold requeue_target. sbind. apply safe_lock_tree; [done..|]. sbind. apply (safe_find me 0%nat); [done..|].
  intros [f|] _ _; cbn [add_slot]; [by apply safe_ret, (HQ f None false false)|]. sbind. apply safe_unlock_tree; [done..|]. sbind.
  apply safe_host. intros memory. destruct (memory =? 0); [by apply safe_ret|]. lcbn.
  pose proof (safe_create_or_find me a2 (fun r L => Q (Some (r, true)) L) ltac:(intros; by apply (HQ _ _ _ true))) as H. cbn in H |- *. exact H.
Qed.

(** [futex1], after [futex2] is known. *)
Lemma found_two_slots o1 f2 tmp a1 a2 new :
  finds (found_local f2 tmp a2 new) a1 o1 -> same_addr (found_local f2 tmp a2 new) a1 o1 ->
  exists r k, add_slot 1%nat o1 a1 (found_local f2 tmp a2 new) = with_refs r (with_known k (found_local f2 tmp a2 new)) /\
    three_slots r o1 (Some f2) tmp a1 a2 a2 /\ (forall h, h ∈ k <-> o1 = Some h \/ Some f2 = Some h) /\
    forall L, l_refs L = r -> two_slots L o1 (Some f2) a1 a2.
Proof.
  intros Hf Hs. set (L := found_local f2 tmp a2 new) in *. exists (l_refs (add_slot 1%nat o1 a1 L)), (l_known (add_slot 1%nat o1 a1 L)).
  assert (Hr : three_slots (l_refs (add_slot 1%nat o1 a1 L)) o1 (Some f2) tmp a1 a2 a2).
  { unfold L, found_local. destruct o1; cbn; split_and!; try done.
    all: try (rewrite ?lookup_insert_ne by done; by destruct tmp). intros i H0 H1 H2. rewrite !lookup_insert_ne by done. by apply tmp_refs_other.
    intros i H0 H1 H2. rewrite !lookup_insert_ne by done. by apply tmp_refs_other. }
  split_and!; [by destruct o1|exact Hr| |].
  - intros h. unfold L, found_local. destruct o1; cbn; set_solver.
  - intros L' HL'. destruct Hr as (R1 & R0 & _). rewrite <- HL' in R1, R0. split; [by apply slot_ref..|]. intros f1 f2' -> [= <-]. split.
    + intros ->. specialize (Hf 0%nat f2). cbn in Hf. rewrite lookup_insert_eq in Hf. specialize (Hf eq_refl ltac:(set_solver)). congruence.
    + intros ->. symmetry. apply (Hs f2 0%nat a2 eq_refl). cbn. apply lookup_insert_eq.
Qed.

Lemma safe_futex_requeue a1 a2 to_wake to_requeue val (Q : Z -> local -> Prop) :
  (forall r, Q r no_local) -> safe me (futex_requeue me a1 a2 to_wake to_requeue val) Q no_local.
Proof.
  intros HQ. unfold futex_requeue. destruct ((to_wake <? 0) || (to_requeue <? 0)) eqn:E; [by apply safe_ret|]. breflect.
  sbind. apply safe_requeue_target; [by apply safe_ret|]. intros f2 tmp new created Hnew. cbn beta iota. sbind.
  apply (safe_find me 1%nat); [done|cbn; rewrite lookup_insert_ne by done; by apply tmp_refs_other|done|]. intros o1 Hf Hs.
  destruct (found_two_slots o1 f2 tmp a1 a2 new Hf Hs) as (r & k & -> & Hr & Hk & Hts). unfold found_local. lcbn. sbind.
  apply (safe_lock_two me o1 (Some f2) a1 a2); [by apply Hts|done|]. intros ls Hls. lcbn. sbind. apply safe_atomic. intros s g Hinv HL.
  eapply wp_mono.
  { apply (requeue_region_spec o1 f2 a1 to_wake to_requeue val created s g _ Hinv HL); cbn; try done; try lia.
    - intros f. apply Hls.
    - apply Hk. by right.
    - destruct new; set_solver.
    - intros Ec. by rewrite (Hnew Ec). }
  intros [[[ret woken] q] nd] s' (Hq & d & Hb & Hd & Hnd). eexists. split; [exact Hb|]. lcbn. sbind.
  apply (safe_unlock_two me o1 (Some f2) a1 a2 ls); [by apply Hts|done|done|done|]. intros k' Hk'. cbn in Hk'. subst k'.
  lcbn. sbind. apply safe_unlock_tree; [done..|]. lcbn. rewrite (nil_of_subset (filter _ k)).
  2:{ intros h. rewrite list_elem_of_filter. cbn. intros [Hh _]. by apply elem_of_nil in Hh. }
  sbind. apply (safe_dequeue_two_if me nd o1 (Some f2) a1 a2); [done..|]. sbind. apply safe_wake_if; [done|].
  by apply (safe_put_three me o1 (Some f2) tmp a1 a2 a2).
Qed.
End two.
