(* ===== verification/FutexApi.v ===== *)
(** * The entry points are safe

    [libos_syscall_futex], the calls on robust lists and what a thread does when it exits: each of
    them starts and ends without locks, references and obligations. *)

From stdpp Require Import functions.
From S2P Require Import Prelude OrdSeq Futex FutexInv FutexSteps FutexWait FutexWake FutexLoop FutexSafe FutexCalls FutexTwo.

Section api.
Variable me : Z.
Implicit Types (L : local) (f : Z).

(** ** The user's memory *)

Lemma safe_gets {A} (h : fstate -> A) (Q : A -> local -> Prop) L : (forall a, Q a L) -> safe me (atomic (sm_gets h)) Q L.
Proof. intros HQ. apply safe_quiet. intros s. by apply wp_gets. Qed.

Lemma safe_modify (h : fstate -> fstate) (Q : unit -> local -> Prop) L :
  (forall s, unchanged s (h s)) -> Q () L -> safe me (atomic (sm_modify h)) Q L.
Proof. intros Hh HQ. apply safe_quiet. intros s. apply wp_modify. auto. Qed.

Lemma safe_check_ptr ptr w (Q : Z -> local -> Prop) L : (forall r, Q r L) -> safe me (atomic (check_futex_ptr ptr w)) Q L.
Proof.
  intros HQ. apply safe_quiet. intros s. unfold check_futex_ptr. destruct (negb _); [by apply wp_ret|].
  apply wp_bind, wp_gets, wp_ret. done.
Qed.

Lemma safe_futex_timeout cmd utime (Q : Z + option Z -> local -> Prop) L : (forall r, Q r L) -> safe me (futex_timeout cmd utime) Q L.
Proof.
  intros HQ. unfold futex_timeout. destruct (_ && _); [|by apply safe_ret].
  sbind. apply safe_gets. intros ok. destruct (negb ok); [by apply safe_ret|].
  sbind. apply safe_gets. intros sec. sbind. apply safe_gets. intros nsec. destruct (negb _); [|by apply safe_ret].
  sbind. apply safe_host. intros ret. destruct (ret <? 0); [by apply safe_ret|].
  sbind. apply safe_host. intros time. destruct (_ <? _); by apply safe_ret.
Qed.

(** ** The system call *)

Lemma safe_syscall_futex a op val utime a2 val3 (Q : Z -> local -> Prop) :
  (forall r, Q r no_local) -> safe me (syscall_futex me a op val utime a2 val3) Q no_local.
Proof.
  intros HQ. unfold syscall_futex. sbind. apply safe_futex_timeout. intros [err|timeout]; [by apply safe_ret|].
  destruct (_ && _ && _ && _); [by apply safe_ret|]. sbind. apply safe_check_ptr. intros ret.
  destruct (ret <? 0); [by apply safe_ret|]. destruct (_ || _); [by apply safe_futex_wait|].
  destruct (_ || _); [by apply safe_futex_wake|]. destruct (_ || _ || _); [|by apply safe_ret].
  sbind. apply safe_check_ptr. intros ret2. destruct (ret2 <? 0); [by apply safe_ret|].
  destruct (_ =? _); [by apply safe_futex_wake_op|by apply safe_futex_requeue].
Qed.

(** ** Robust lists *)

Lemma safe_set_robust_list head len (Q : Z -> local -> Prop) :
  (forall r, Q r no_local) -> safe me (libos_syscall_set_robust_list me head len) Q no_local.
Proof.
  intros HQ. unfold libos_syscall_set_robust_list. destruct (negb _); [by apply safe_ret|].
  sbind. apply safe_modify; [done|]. by apply safe_ret.
Qed.

Lemma safe_put_thread t (Q : unit -> local -> Prop) : Q () no_local -> safe me (atomic (put_thread t)) Q (with_thread None (Some t) no_local).
Proof.
  intros HQ. apply safe_atomic. intros s g Hinv HL. eapply wp_mono; [by apply (put_thread_spec me t s g _ Hinv HL)|].
  intros [] s' Hb. eexists. split; [exact Hb|exact HQ].
Qed.

Lemma safe_get_thread t (Q : unit -> local -> Prop) : Q () (with_thread None (Some t) no_local) -> safe me (atomic (get_thread t)) Q no_local.
Proof.
  intros HQ. apply safe_atomic. intros s g Hinv HL. eapply wp_mono; [by apply (get_thread_spec me t s g _ Hinv HL)|].
  intros [] s' Hb. eexists. split; [exact Hb|exact HQ].
Qed.

Lemma safe_lookup_thread pid (Q : option Z -> local -> Prop) :
  Q None no_local -> Q (Some pid) (with_thread None (Some pid) no_local) -> safe me (atomic (lookup_thread pid)) Q no_local.
Proof.
  intros HN HQ. apply safe_atomic. intros s g Hinv HL. unfold lookup_thread. apply wp_bind, wp_gets. destruct (robust_list s !! pid).
  - apply wp_bind. eapply wp_mono; [by apply (get_thread_spec me pid s g _ Hinv HL)|]. intros [] s' Hb. apply wp_ret. eauto.
  - apply wp_ret. eexists. split; [|exact HN]. by apply becomes_refl.
Qed.

Lemma safe_get_robust_list pid head len (Q : Z -> local -> Prop) :
  (forall r, Q r no_local) -> safe me (libos_syscall_get_robust_list me pid head len) Q no_local.
Proof.
  intros HQ. unfold libos_syscall_get_robust_list. sbind.
  set (R := fun (a : option Z) (L : local) => L = match a with Some t => with_thread None (Some t) no_local | None => no_local end).
  apply (safe_mono me _ R).
  2:{ destruct (negb _); [by apply safe_lookup_thread|]. sbind. apply safe_get_thread. by apply safe_ret. }
  intros [t|] L ->; [|by apply safe_ret]. sbind. apply safe_gets. intros ok1. sbind.
  apply (safe_mono me _ (fun _ L => L = with_thread None (Some t) no_local)).
  2:{ destruct ok1; [by apply safe_gets|by apply safe_ret]. }
  intros ok2 L ->. destruct (negb ok2).
  - sbind. apply safe_put_thread. by apply safe_ret.
  - sbind. apply safe_quiet. intros s. apply wp_bind, wp_gets, wp_modify. split; [done|]. sbind. apply safe_modify; [done|].
    sbind. apply safe_put_thread. by apply safe_ret.
Qed.

Lemma safe_handle_death a (Q : Z -> local -> Prop) : (forall r, Q r no_local) -> safe me (handle_futex_death me a) Q no_local.
Proof.
  intros HQ. unfold handle_futex_death. destruct (negb _); [by apply safe_ret|]. sbind. apply safe_check_ptr. intros ret.
  destruct (ret <? 0); [by apply safe_ret|]. sbind. apply safe_quiet. intros s. unfold mark_owner_died. apply wp_bind, wp_gets.
  destruct (negb _); [apply wp_ret; split; [done|by apply safe_ret]|]. apply wp_bind, wp_modify, wp_ret. split; [done|].
  destruct (negb _); [|by apply safe_ret]. sbind. apply safe_futex_wake. intros r. by apply safe_ret.
Qed.

Lemma safe_fetch head (Q : option Z -> local -> Prop) L : (forall r, Q r L) -> safe me (fetch_robust_entry head) Q L.
Proof.
  intros HQ. unfold fetch_robust_entry. sbind. apply safe_gets. intros [|]; [|by apply safe_ret].
  sbind. apply safe_gets. intros e. by apply safe_ret.
Qed.

Lemma safe_robust_loop limit head off pending : forall entry (Q : bool -> local -> Prop),
  (forall r, Q r no_local) -> safe me (robust_loop me limit head off pending entry) Q no_local.
Proof.
  induction limit as [|limit IH]; intros entry Q HQ; cbn [robust_loop]; [by apply safe_ret|].
  destruct (entry =? head); [by apply safe_ret|]. destruct (entry =? 0); [by apply safe_ret|].
  sbind. apply safe_fetch. intros next. sbind. apply (safe_mono me _ (fun _ L => L = no_local)).
  - intros ret L ->. destruct (ret <? 0); [by apply safe_ret|]. destruct next; [by apply IH|by apply safe_ret].
  - destruct (negb _); [by apply safe_handle_death|by apply safe_ret].
Qed.

Lemma safe_release_robust_list head (Q : unit -> local -> Prop) : Q () no_local -> safe me (release_robust_list me head) Q no_local.
Proof.
  intros HQ. unfold release_robust_list. destruct (head =? 0); [by apply safe_ret|]. sbind. apply safe_fetch.
  intros [entry|]; [|by apply safe_ret]. sbind. apply safe_gets. intros ok. destruct (negb ok); [by apply safe_ret|].
  sbind. apply safe_gets. intros off. sbind. apply safe_fetch. intros [pending|]; [|by apply safe_ret].
  sbind. apply safe_robust_loop. intros go_on. destruct (_ && _); [|by apply safe_ret].
  sbind. apply safe_handle_death. intros r. by apply safe_ret.
Qed.

Lemma safe_release_clear_child_tid tid (Q : unit -> local -> Prop) : Q () no_local -> safe me (release_clear_child_tid me tid) Q no_local.
Proof.
  intros HQ. unfold release_clear_child_tid. destruct (_ || _); [by apply safe_ret|]. sbind. apply safe_gets. intros ok.
  destruct (negb ok); [by apply safe_ret|]. sbind. apply safe_modify; [done|]. sbind. apply safe_futex_wake. intros r. by apply safe_ret.
Qed.
End api.
