(* ===== verification/FutexSystem.v ===== *)
(** * The threads of a process on the futexes

    Any number of threads call the functions of [libos_futex.c] at any time; a step of the system
    is a step of one thread, or a change that the rest of the process makes.  The invariant of
    [FutexInv] holds in all reachable states, so that no thread ever fails. *)

From stdpp Require Import functions.
From S2P Require Import Prelude OrdSeq Futex FutexInv FutexSteps FutexWait FutexWake FutexLoop FutexSafe FutexCalls FutexTwo FutexApi.

(** ** Steps of one thread *)

Inductive outcome (A : Type) : Type :=
  | Blocked
  | Crashed
  | Next (s : fstate) (p : prog A).
Arguments Blocked {A}.
Arguments Crashed {A}.
Arguments Next {A} _ _.

Definition set_lock (l : lock_id) (o : option Z) (s : fstate) : fstate :=
  match l with
  | TreeLock => set_tree_lock o s
  | FutexLock f => set_heap (alter (with_lock o) f (heap s)) s
  end.

(** The holder of a lock, [None] for a lock in freed memory. *)
Definition lock_holder (l : lock_id) (s : fstate) : option (option Z) :=
  match l with
  | TreeLock => Some (g_futex_tree_lock s)
  | FutexLock f => f_lock <$> heap s !! f
  end.

(** [PalEventWait] on an event that is cleared when it wakes a thread up: success needs the event,
    [-ETIMEDOUT] a timeout, and other errors are the host's. *)
Definition event_wait (me : Z) (timed : bool) (answer : Z) (s : fstate) : option fstate :=
  if answer =? 0 then if bool_decide (me ∈ events s) then Some (set_events (events s ∖ {[me]}) s) else None
  else if (answer =? - ETIMEDOUT) && negb timed then None
  else Some s.

(** One step, where [answer] is what the host says. *)
Definition run_step {A} (me answer : Z) (s : fstate) (p : prog A) : outcome A :=
  match p with
  | Ret _ => Blocked
  | Lock l k =>
      match lock_holder l s with
      | None => Crashed
      | Some (Some _) => Blocked
      | Some None => Next (set_lock l (Some me) s) k
      end
  | Unlock l k => if spinlock_is_locked me l s then Next (set_lock l None s) k else Crashed
  | Atomic m k => match m s with Some (b, s') => Next s' (k b) | None => Crashed end
  | Sleep timed k => match event_wait me timed answer s with Some s' => Next s' (k answer) | None => Blocked end
  | Host k => Next s (k answer)
  end.

(** ** The system *)

Inductive call : Type :=
  | CFutex (uaddr op val utime uaddr2 val3 : Z)
  | CSetRobustList (head len : Z)
  | CGetRobustList (pid head len : Z)
  | CReleaseRobustList (head : Z)
  | CReleaseClearChildTid (tid : Z).

Definition call_prog (me : Z) (c : call) : prog Z :=
  match c with
  | CFutex uaddr op val utime uaddr2 val3 => libos_syscall_futex me uaddr op val utime uaddr2 val3
  | CSetRobustList head len => libos_syscall_set_robust_list me head len
  | CGetRobustList pid head len => libos_syscall_get_robust_list me pid head len
  | CReleaseRobustList head => release_robust_list me head;; mret 0
  | CReleaseClearChildTid tid => release_clear_child_tid me tid;; mret 0
  end.

(** [threads] are the threads in a call, with what is left of it. *)
Record sys : Type := Sys {
  st : fstate;
  threads : gmap Z (prog Z);
}.

(** Steps of a thread that is in a call. *)
Inductive thread_step (t : Z) (S : sys) : sys -> Prop :=
  | step_run p answer s' p' :
      threads S !! t = Some p -> run_step t answer (st S) p = Next s' p' -> thread_step t S (Sys s' (<[t := p']> (threads S)))
  | step_return r : threads S !! t = Some (Ret r) -> thread_step t S (Sys (st S) (delete t (threads S))).

(** The rest of the process writes to memory, maps and unmaps it, creates and destroys threads,
    and sets events, for example for a signal. *)
Inductive sys_step (S : sys) : sys -> Prop :=
  | step_thread t S' : thread_step t S S' -> sys_step S S'
  | step_call t c : threads S !! t = None -> sys_step S (Sys (st S) (<[t := call_prog t c]> (threads S)))
  | step_words w : sys_step S (Sys (set_words w (st S)) (threads S))
  | step_memory u : sys_step S (Sys (set_user_ok u (st S)) (threads S))
  | step_threads r : sys_step S (Sys (set_robust_list r (st S)) (threads S))
  | step_event t : sys_step S (Sys (set_events ({[t]} ∪ events (st S)) (st S)) (threads S)).

(** No futex exists, and nobody is in a call. *)
Definition initial (S : sys) : Prop :=
  heap (st S) = ∅ /\ g_futex_tree (st S) = [] /\ g_futex_tree_lock (st S) = None /\ wnodes (st S) = ∅ /\ queued (st S) = ∅ /\
  (forall t, thread_refs (st S) t = 0) /\ threads S = ∅.

Definition reachable (S : sys) : Prop := exists S0, initial S0 /\ rtc sys_step S0 S.

(** ** Locks and sleep in the ghost state *)

Section ghost_steps.
Variable me : Z.
Implicit Types (s : fstate) (g : ghost) (L : local).

Lemma lock_tree_inv s g L :
  inv s g -> at_thread g me = L -> g_futex_tree_lock s = None -> becomes me g (set_tree_lock (Some me) s) (with_tree true L).
Proof.
  intros [] <- Hn.
  become (Ghost (g_toks g) (g_ttoks g) (g_refs g) (<[me := true]> (g_tree g)) (g_locks g) (g_known g)
                (g_node g) (g_asleep g) (g_queue g) (g_waking g) (g_thread g) (g_duty g)).
  constructor; cbn; try done.
  - apply (locks_tree _ (g_futex_tree_lock s) _ _ me true); [by left|done].
  - intros t h Hh. destruct (inv_known t h Hh) as [H1 H2]. split; [done|]. destruct (decide (t = me)) as [->|].
    + left. by rewrite fn_lookup_insert.
    + by rewrite fn_lookup_insert_ne.
  - intros t h Hh. destruct (inv_at t h Hh) as [H1 H2]. split; [done|]. destruct (decide (t = me)) as [->|].
    + left. by rewrite fn_lookup_insert.
    + by rewrite fn_lookup_insert_ne.
Qed.

Lemma unlock_tree_inv s g L :
  inv s g -> at_thread g me = L -> l_tree L = true -> (forall f, l_node L = Some (Some f) -> f ∈ fst <$> l_locks L) ->
  becomes me g (set_tree_lock None s) (unlock_tree L).
Proof.
  intros [] <- Ht Hn. cbn in Ht, Hn.
  become (Ghost (g_toks g) (g_ttoks g) (g_refs g) (<[me := false]> (g_tree g)) (g_locks g)
                (<[me := filter (fun h => h ∈ fst <$> g_locks g me) (g_known g me)]> (g_known g))
                (g_node g) (g_asleep g) (g_queue g) (g_waking g) (g_thread g) (g_duty g)).
  constructor; cbn; try done.
  - apply (locks_tree _ (g_futex_tree_lock s) _ _ me false); [right; split; [by apply inv_locks|done]|done].
  - intros t h. destruct (decide (t = me)) as [->|]; [|rewrite !fn_lookup_insert_ne by done; apply inv_known].
    rewrite !fn_lookup_insert, list_elem_of_filter. intros [H1 H2]. split; [by apply (inv_known me)|by right].
  - intros t h Hh. destruct (inv_at t h Hh) as [H1 H2]. split; [done|]. destruct (decide (t = me)) as [->|].
    + right. by apply Hn.
    + by rewrite fn_lookup_insert_ne.
Qed.

Lemma lock_futex_inv i f a x s g L :
  inv s g -> at_thread g me = L -> l_refs L !! i = Some (f, a) -> heap s !! f = Some x -> f_lock x = None ->
  becomes me g (set_heap (<[f := with_lock (Some me) x]> (heap s)) s) (with_locks ((f, a) :: l_locks L) L).
Proof.
  intros [] <- Hi Hx Hn. cbn in Hi.
  become (Ghost (g_toks g) (g_ttoks g) (g_refs g) (g_tree g) (<[me := (f, a) :: g_locks g me]> (g_locks g)) (g_known g)
                (g_node g) (g_asleep g) (g_queue g) (g_waking g) (g_thread g) (g_duty g)).
  assert (Hin : forall t h, h ∈ fst <$> g_locks g t -> h ∈ fst <$> (<[me := (f, a) :: g_locks g me]> (g_locks g)) t).
  { intros t h Hh. destruct (decide (t = me)) as [->|]; [rewrite fn_lookup_insert; cbn; set_solver|by rewrite fn_lookup_insert_ne]. }
  constructor; cbn; projs Hx; try done.
  - by apply (addr_lock _ _ _ _ _ _ i).
  - apply locks_acquire; [|done]. rewrite <- Hn. by apply proj_at.
  - intros t h Hh. destruct (inv_known t h Hh) as [H1 [H2|H2]]; split; auto.
  - intros t h Hh. destruct (inv_at t h Hh) as [H1 [H2|H2]]; split; auto.
Qed.

Lemma unlock_futex_inv f x s g L :
  inv s g -> at_thread g me = L -> f ∈ fst <$> l_locks L -> (l_node L = Some (Some f) -> l_tree L = true) -> heap s !! f = Some x ->
  becomes me g (set_heap (<[f := with_lock None x]> (heap s)) s) (unlock_futex f L).
Proof.
  intros [] <- Hf Hn Hx. cbn in Hf, Hn.
  become (Ghost (g_toks g) (g_ttoks g) (g_refs g) (g_tree g) (<[me := drop_lock f (g_locks g me)]> (g_locks g))
                (<[me := if g_tree g me then g_known g me else filter (fun h => h <> f) (g_known g me)]> (g_known g))
                (g_node g) (g_asleep g) (g_queue g) (g_waking g) (g_thread g) (g_duty g)).
  constructor; cbn; projs Hx; try done.
  - apply addr_unlock; [|done]. intros p. unfold drop_lock. rewrite list_elem_of_filter. naive_solver.
  - apply locks_release; [|done]. apply list_elem_of_fmap in Hf as ([h a] & -> & Ha). apply inv_locks. by exists a.
  - intros t h. destruct (decide (t = me)) as [->|]; [|rewrite !fn_lookup_insert_ne by done; apply inv_known].
    rewrite !fn_lookup_insert. destruct (g_tree g me) eqn:E.
    + intros Hh. split; [by apply (inv_known me)|by left].
    + rewrite list_elem_of_filter. intros [Hne Hh]. destruct (inv_known me h Hh) as [H1 [H2|H2]]; [congruence|].
      split; [done|]. right. by rewrite drop_lock_in.
  - intros t h Hh. destruct (inv_at t h Hh) as [H1 H2]. split; [done|]. destruct (decide (t = me)) as [->|].
    + rewrite fn_lookup_insert. destruct H2 as [H2|H2]; [by left|]. destruct (decide (h = f)) as [->|]; [left; by apply Hn|].
      right. by rewrite drop_lock_in.
    + by rewrite fn_lookup_insert_ne.
Qed.

Lemma awake_inv e s g L :
  inv s g -> at_thread g me = L -> (forall t, t <> me -> t ∈ events s -> t ∈ e) ->
  becomes me g (set_events e s) (with_node (l_node L) false L).
Proof.
  intros [] <- He.
  become (Ghost (g_toks g) (g_ttoks g) (g_refs g) (g_tree g) (g_locks g) (g_known g)
                (g_node g) (<[me := false]> (g_asleep g)) (g_queue g) (g_waking g) (g_thread g) (g_duty g)).
  constructor; cbn; try done. destruct inv_wake as (H1 & H2 & H3 & H4 & H5). split_and!; try done.
  intros t. destruct (decide (t = me)) as [->|]; [by rewrite fn_lookup_insert|]. rewrite fn_lookup_insert_ne by done. intros Ht.
  destruct (H2 t Ht) as (nd & Hn & Hw). exists nd. split; [done|]. naive_solver.
Qed.
End ghost_steps.

(** ** A safe program takes its steps *)

(** The futex that a reference points to. *)
Lemma ref_exists s g t i f a : inv s g -> g_refs g t !! i = Some (f, a) -> exists x, heap s !! f = Some x /\ uaddr x = a.
Proof. intros [] Hi. destruct inv_addr as (H1 & _). specialize (H1 t i f a Hi). by apply at_proj in H1. Qed.

Lemma alter_some (h : gmap Z libos_futex) f u x : h !! f = Some x -> alter u f h = <[f := u x]> h.
Proof. intros Hx. apply map_eq. intros j. destruct (decide (f = j)) as [<-|]; by simplify_map_eq. Qed.

Lemma lock_owner s g t f : inv s g -> f ∈ fst <$> g_locks g t -> exists x, heap s !! f = Some x /\ f_lock x = Some t.
Proof.
  intros [] ([h a] & -> & Ha)%list_elem_of_fmap. cbn. destruct inv_locks as (_ & H & _).
  assert ((f_lock <$> heap s) !! h = Some (Some t)) as E by (apply H; eauto). by apply at_proj in E.
Qed.

Lemma futex_run_ok {A} me answer s g (p : prog A) Q :
  inv s g -> safe me p Q (at_thread g me) ->
  match run_step me answer s p with
  | Blocked => True
  | Crashed => False
  | Next s' p' => exists L, becomes me g s' L /\ safe me p' Q L
  end.
Proof.
  intros Hinv Hp. destruct p as [a|l k|l k|C m k|timed k|k]; cbn [run_step].
  - done.
  - destruct l as [|f]; cbn.
    + destruct Hp as (H1 & H2 & H3). destruct (g_futex_tree_lock s) eqn:E; [done|]. eexists. split; [by apply lock_tree_inv|done].
    + destruct Hp as (i & a & H1 & H2 & H3). destruct (ref_exists s g me i f a Hinv H1) as (x & Hx & _). rewrite Hx. cbn.
      destruct (f_lock x) eqn:E; [done|]. rewrite (alter_some _ f _ x Hx). eexists. split; [by apply (lock_futex_inv me i)|done].
  - destruct l as [|f]; cbn.
    + destruct Hp as (H1 & H2 & H3). rewrite bool_decide_true by (by apply (inv_locks _ _ Hinv)).
      eexists. split; [by apply unlock_tree_inv|done].
    + destruct Hp as (H1 & H2 & H3). destruct (lock_owner s g me f Hinv H1) as (x & Hx & Hl).
      rewrite Hx, bool_decide_true by (cbn; congruence). rewrite (alter_some _ f _ x Hx).
      eexists. split; [by apply unlock_futex_inv|done].
  - specialize (Hp s g Hinv eq_refl). unfold wp in Hp. destruct (m s) as [[b s']|]; [|done].
    destruct Hp as (g' & H1 & H2 & H3). eexists. split; [by exists g'|done].
  - destruct Hp as (_ & Hk). unfold event_wait. destruct (Z.eqb_spec answer 0).
    + case_bool_decide; [|done]. eexists. split; [|apply Hk]. apply awake_inv; [done..|set_solver].
    + destruct (_ && _); [done|]. eexists. split; [|apply Hk]. replace s with (set_events (events s) s) at 1 by (by destruct s).
      by apply awake_inv.
  - eexists. split; [by apply becomes_refl|apply Hp].
Qed.

(** ** All reachable states *)

Definition thread_ok (g : ghost) (t : Z) (o : option (prog Z)) : Prop :=
  match o with Some p => safe t p (fun _ L => L = no_local) (at_thread g t) | None => at_thread g t = no_local end.

Definition sys_ok (S : sys) : Prop := exists g, inv (st S) g /\ forall t, thread_ok g t (threads S !! t).

Lemma safe_call me c : safe me (call_prog me c) (fun _ L => L = no_local) no_local.
Proof.
  destruct c; cbn [call_prog].
  - by apply safe_syscall_futex.
  - by apply safe_set_robust_list.
  - by apply safe_get_robust_list.
  - sbind. apply safe_release_robust_list. by apply safe_ret.
  - sbind. apply safe_release_clear_child_tid. by apply safe_ret.
Qed.

Lemma initial_ok S : initial S -> sys_ok S.
Proof.
  intros (H1 & H2 & H3 & H4 & H5 & H6 & H7).
  exists (Ghost ∅ ∅ (fun _ => ∅) (fun _ => false) (fun _ => []) (fun _ => []) (fun _ => None) (fun _ => false) (fun _ => [])
                (fun _ => None) (fun _ => None) (fun _ => [])).
  split; [|intros t; by rewrite H7, lookup_empty]. constructor; rewrite ?H1, ?H2, ?H3, ?H4, ?H5, ?fmap_empty; cbn.
  - split; [intros f n; by rewrite lookup_empty|set_solver].
  - split_and!; intros f *; rewrite ?lookup_empty; set_solver.
  - intros f t o. set_solver.
  - split_and!; [intros t i f a; by rewrite lookup_empty|intros t f a Hf; by apply elem_of_nil in Hf|intros f _; apply lookup_empty].
  - split; [constructor|]. intros a f. rewrite !lookup_empty. split; [by intros ?%elem_of_nil|naive_solver].
  - intros f l. by rewrite lookup_empty.
  - split_and!; [done| |intros; constructor]. intros f t. rewrite lookup_empty. split; [done|]. intros [a Ha]. by apply elem_of_nil in Ha.
  - intros t f Hf. by apply elem_of_nil in Hf.
  - intros t f. done.
  - split_and!; try done; [intros t; rewrite lookup_empty; split; by intros []| |intros; constructor|intros t u v Ht; by apply elem_of_nil in Ht].
    intros t. split; [set_solver|]. intros [u Hu]. by apply elem_of_nil in Hu.
  - split_and!; [done|..]; intros t *; rewrite ?lookup_empty; set_solver.
  - intros f. by rewrite lookup_empty.
Qed.

Lemma thread_step_ok t S S' : sys_ok S -> thread_step t S S' -> sys_ok S'.
Proof.
  intros (g & Hinv & Hok) [p answer s' p' Hp Hr|r Hp]; pose proof (Hok t) as Ht; rewrite Hp in Ht; cbn in Ht.
  - pose proof (futex_run_ok t answer (st S) g p _ Hinv Ht) as H. rewrite Hr in H. destruct H as (L & (g' & Hinv' & HF & HL) & Hs).
    exists g'. split; [done|]. intros u. cbn. destruct (decide (u = t)) as [->|Hne].
    + rewrite lookup_insert_eq. cbn. by rewrite HL.
    + rewrite lookup_insert_ne by done. specialize (Hok u). unfold thread_ok in *. by rewrite HF.
  - exists g. split; [done|]. intros u. cbn. destruct (decide (u = t)) as [->|Hne].
    + by rewrite lookup_delete_eq.
    + by rewrite lookup_delete_ne.
Qed.

Lemma events_inv s g e : inv s g -> events s ⊆ e -> inv (set_events e s) g.
Proof.
  intros [] He. constructor; try done. destruct inv_wake as (H1 & H2 & H3 & H4 & H5). split_and!; try done.
  intros t Ht. destruct (H2 t Ht) as (n & Hn & Hw). exists n. split; [done|]. set_solver.
Qed.

Lemma futex_sys_step_ok S S' : sys_ok S -> sys_step S S' -> sys_ok S'.
Proof.
  intros HS [t S1 H|t c Hn|w|u|r|t]; [by eapply thread_step_ok|..]; destruct HS as (g & Hinv & Hok).
  - exists g. split; [done|]. intros u. cbn. destruct (decide (u = t)) as [->|]; [|by rewrite lookup_insert_ne].
    rewrite lookup_insert_eq. specialize (Hok t). rewrite Hn in Hok. cbn in Hok |- *. rewrite Hok. apply safe_call.
  - exists g. split; [|done]. eapply unchanged_inv; [|done]. done.
  - exists g. split; [|done]. eapply unchanged_inv; [|done]. done.
  - exists g. split; [|done]. eapply unchanged_inv; [|done]. done.
  - exists g. split; [|done]. apply events_inv; [done|set_solver].
Qed.

Lemma futex_reachable_ok S : reachable S -> sys_ok S.
Proof.
  intros (S0 & H0 & Hr). apply initial_ok in H0. induction Hr as [|S1 S2 S3 H12 _ IH]; [done|]. apply IH. by eapply futex_sys_step_ok.
Qed.
