(* ===== verification/FutexProps.v ===== *)
(** * What holds for the futexes of a process

    In every state that the threads can reach: no failure, no deadlock, no leak and no lost wake-up. *)

From stdpp Require Import functions.
From S2P Require Import Prelude OrdSeq Futex FutexInv FutexSteps FutexWait FutexWake FutexLoop FutexSafe FutexCalls FutexTwo FutexApi FutexSystem.

(** ** Who waits for whom *)

Definition active {A} (p : prog A) : bool := match p with Sleep _ _ => false | _ => true end.

(** All threads in a call sleep. *)
Definition quiescent (S : sys) : Prop := forall t p, threads S !! t = Some p -> active p = false.

(** Some thread that does not sleep takes a step. *)
Definition moves (S : sys) : Prop := exists t p S', threads S !! t = Some p /\ active p = true /\ thread_step t S S'.

Section waits.
Variables (S : sys) (g : ghost).
Hypothesis Hinv : inv (st S) g.
Hypothesis Hok : forall t, thread_ok g t (threads S !! t).

Lemma in_call t : at_thread g t <> no_local -> exists p, threads S !! t = Some p /\ safe t p (fun _ L => L = no_local) (at_thread g t).
Proof. intros Hne. specialize (Hok t). unfold thread_ok in Hok. destruct (threads S !! t) as [p|]; [by exists p|done]. Qed.

Lemma moves_by t p : threads S !! t = Some p -> active p = true -> run_step t 0 (st S) p <> Blocked -> moves S.
Proof.
  intros Hp Ha Hb. pose proof (Hok t) as Ht. rewrite Hp in Ht. cbn in Ht. pose proof (futex_run_ok t 0 (st S) g p _ Hinv Ht) as H.
  destruct (run_step t 0 (st S) p) as [| |s' p'] eqn:E; [done|done|]. exists t, p. eexists. split_and!; [done|done|]. by eapply step_run.
Qed.

(** A thread that holds a futex lock moves, or waits for a lock at a larger address. *)
Lemma holder_moves t f a :
  (f, a) ∈ g_locks g t -> moves S \/ exists f' i a' k, threads S !! t = Some (Lock (FutexLock f') k) /\ g_refs g t !! i = Some (f', a') /\ a < a'.
Proof.
  intros Hl. destruct (in_call t) as (p & Hp & Hs).
  { intros E. apply (f_equal l_locks) in E. cbn in E. rewrite E in Hl. by apply elem_of_nil in Hl. }
  assert (Hne : g_locks g t <> []) by (intros E; rewrite E in Hl; by apply elem_of_nil in Hl).
  destruct p as [r|[|f'] k|l k|C m k|timed k|k].
  - apply (f_equal l_locks) in Hs. by destruct Hne.
  - by destruct Hs as (_ & Hs & _).
  - right. destruct Hs as (i & a' & H1 & H2 & _). exists f', i, a', k. split_and!; [done|done|]. by apply (H2 f).
  - left. apply (moves_by t _ Hp); [done|]. cbn. by destruct (spinlock_is_locked _ _ _).
  - left. apply (moves_by t _ Hp); [done|]. cbn. by destruct (m (st S)) as [[]|].
  - by destruct Hs as ((_ & Hs & _) & _).
  - left. by apply (moves_by t _ Hp).
Qed.

Lemma heap_bound (h : gmap Z libos_futex) : exists M, forall f x, h !! f = Some x -> uaddr x <= M.
Proof.
  induction h as [|f x h Hf [M IH]] using map_ind; [exists 0; intros f x; by rewrite lookup_empty|].
  exists (Z.max M (uaddr x)). intros f' x'. rewrite lookup_insert_Some. intros [[<- <-]|[_ H]]; [lia|]. specialize (IH _ _ H). lia.
Qed.

Lemma futex_waits_moves n : forall t f k i a M,
  (forall f x, heap (st S) !! f = Some x -> uaddr x <= M) -> (Z.to_nat (M - a) < n)%nat ->
  threads S !! t = Some (Lock (FutexLock f) k) -> g_refs g t !! i = Some (f, a) -> moves S.
Proof.
  induction n as [|n IH]; intros t f k i a M HM Hn Hp Hi; [lia|]. destruct (ref_exists _ _ _ _ _ _ Hinv Hi) as (x & Hx & Ha).
  destruct (f_lock x) as [u|] eqn:E; [|apply (moves_by t _ Hp); [done|]; cbn; by rewrite Hx; cbn; rewrite E].
  destruct (inv_locks _ _ Hinv) as (_ & Hl & _). destruct (Hl f u) as [Hl' _].
  destruct Hl' as [a' Ha']; [rewrite <- E; by apply proj_at|].
  destruct (inv_addr _ _ Hinv) as (_ & Hr & _). destruct (Hr _ _ _ Ha') as [j Hj].
  destruct (ref_exists _ _ _ _ _ _ Hinv Hj) as (x' & Hx' & Hax). assert (a' = a) as -> by congruence.
  destruct (holder_moves u f a Ha') as [|(f2 & i2 & a2 & k2 & Hp2 & Hi2 & Hlt)]; [done|].
  destruct (ref_exists _ _ _ _ _ _ Hinv Hi2) as (x2 & Hx2 & Ha2). specialize (HM _ _ Hx2) as Hle.
  apply (IH u f2 k2 i2 a2 M HM); [lia|done..].
Qed.

Lemma futex_lock_moves t f k : threads S !! t = Some (Lock (FutexLock f) k) -> moves S.
Proof.
  intros Hp. pose proof (Hok t) as Ht. rewrite Hp in Ht. destruct Ht as (i & a & Hi & _). destruct (heap_bound (heap (st S))) as [M HM].
  apply (futex_waits_moves (Datatypes.S (Z.to_nat (M - a))) t f k i a M HM); [lia|done|exact Hi].
Qed.

Lemma tree_holder_moves t : g_tree g t = true -> moves S.
Proof.
  intros Ht. destruct (in_call t) as (p & Hp & Hs). { intros E. apply (f_equal l_tree) in E. cbn in E. congruence. }
  destruct p as [r|[|f] k|l k|C m k|timed k|k].
  - apply (f_equal l_tree) in Hs. cbn in Hs. congruence.
  - destruct Hs as (Hs & _). cbn in Hs. congruence.
  - by eapply futex_lock_moves.
  - apply (moves_by t _ Hp); [done|]. cbn. by destruct (spinlock_is_locked _ _ _).
  - apply (moves_by t _ Hp); [done|]. cbn. by destruct (m (st S)) as [[]|].
  - destruct Hs as ((Hs & _) & _). cbn in Hs. congruence.
  - by apply (moves_by t _ Hp).
Qed.

Lemma active_moves t p : threads S !! t = Some p -> active p = true -> moves S.
Proof.
  intros Hp Ha. destruct p as [r|[|f] k|l k|C m k|timed k|k].
  - exists t, (Ret r). eexists. split_and!; [done|done|]. by eapply step_return.
  - destruct (g_futex_tree_lock (st S)) as [u|] eqn:E; [|apply (moves_by t _ Hp); [done|]; cbn; by rewrite E].
    apply (tree_holder_moves u). by apply (inv_locks _ _ Hinv).
  - by eapply futex_lock_moves.
  - apply (moves_by t _ Hp); [done|]. cbn. by destruct (spinlock_is_locked _ _ _).
  - apply (moves_by t _ Hp); [done|]. cbn. by destruct (m (st S)) as [[]|].
  - done.
  - by apply (moves_by t _ Hp).
Qed.
End waits.

(** ** Termination *)

(** What is left of a program after a step. *)
Definition rest_of (p' p : prog Z) : Prop := exists me answer s s', run_step me answer s p = Next s' p'.

Lemma rest_of_acc p : Acc rest_of p.
Proof.
  induction p as [r|l k IH|l k IH|C m k IH|timed k IH|k IH]; constructor; intros p' (me & answer & s & s' & E); cbn in E.
  - done.
  - destruct (lock_holder l s) as [[|]|]; [done| |done]. by injection E as _ <-.
  - destruct (spinlock_is_locked me l s); [|done]. by injection E as _ <-.
  - destruct (m s) as [[b s1]|]; [|done]. injection E as _ <-. apply IH.
  - destruct (event_wait me timed answer s); [|done]. injection E as _ <-. apply IH.
  - injection E as _ <-. apply IH.
Qed.

Definition fewer (m' m : gmap Z (prog Z)) : Prop :=
  exists t p, m !! t = Some p /\ (m' = delete t m \/ exists p', rest_of p' p /\ m' = <[t := p']> m).

Lemma fewer_insert m i p : Acc fewer m -> m !! i = None -> Acc fewer (<[i := p]> m).
Proof.
  intros Hm. revert i p. induction Hm as [m Hm IHm]. intros i p Hi. induction (rest_of_acc p) as [p _ IHp].
  constructor. intros m' (t & q & Hq & Hm'). destruct (decide (i = t)) as [<-|Hne].
  - rewrite lookup_insert_eq in Hq. injection Hq as <-. destruct Hm' as [->|(p' & Hp & ->)].
    + rewrite delete_insert_id by done. by constructor.
    + rewrite insert_insert_eq. by apply IHp.
  - rewrite lookup_insert_ne in Hq by done. destruct Hm' as [->|(p' & Hp & ->)].
    + rewrite delete_insert_ne by done. apply IHm; [|by rewrite lookup_delete_ne]. exists t, q. auto.
    + rewrite insert_insert_ne by done. apply IHm; [|by rewrite lookup_insert_ne]. exists t, q. split; [done|]. right. by exists p'.
Qed.

Lemma fewer_acc m : Acc fewer m.
Proof.
  induction m as [|i p m Hi IH] using map_ind; [|by apply fewer_insert]. constructor. intros m' (t & p & Hp & _). by rewrite lookup_empty in Hp.
Qed.

Lemma step_fewer t S S' : thread_step t S S' -> fewer (threads S') (threads S).
Proof.
  intros [p answer s' p' Hp Hr|r Hp]; exists t; eexists; (split; [exact Hp|]); cbn; [|by left]. right. exists p'. split; [|done].
  by exists t, answer, (st S), s'.
Qed.

(** However the threads in calls are scheduled, a state with [P] is reached. *)
Inductive eventually (P : sys -> Prop) (S : sys) : Prop :=
  | eventually_now : P S -> eventually P S
  | eventually_step :
      (exists t S', thread_step t S S') -> (forall t S', thread_step t S S' -> eventually P S') -> eventually P S.

Lemma quiescent_or_active S : quiescent S \/ exists t p, threads S !! t = Some p /\ active p = true.
Proof.
  destruct (decide (map_Forall (fun _ p => active p = false) (threads S))) as [H|H]; [by left|right].
  apply map_not_Forall in H as (t & p & Hp & Ha); [|apply _]. exists t, p. split; [done|]. by destruct (active p).
Qed.

(** ** Quiescent states *)

Section quiet.
Variables (S : sys) (g : ghost).
Hypothesis Hinv : inv (st S) g.
Hypothesis Hok : forall t, thread_ok g t (threads S !! t).
Hypothesis Hq : quiescent S.

Lemma quiet_local t : at_thread g t = no_local \/ (may_sleep (at_thread g t) /\ is_Some (threads S !! t)).
Proof.
  specialize (Hok t). destruct (threads S !! t) as [p|] eqn:E; [|by left]. right. specialize (Hq t p E).
  destruct p; try done. by destruct Hok as [H _].
Qed.

Lemma quiet_fields t :
  g_tree g t = false /\ g_locks g t = [] /\ g_queue g t = [] /\ g_waking g t = None /\ g_thread g t = None /\ g_duty g t = [] /\
  (forall i v, g_refs g t !! i = Some v -> i = TMP /\ is_Some (threads S !! t)) /\
  (is_Some (g_node g t) -> is_Some (threads S !! t)).
Proof.
  destruct (quiet_local t) as [E|[(H1 & H2 & H3 & H4 & H5 & H6 & H7 & H8 & H9) Ht]].
  - unfold at_thread, no_local in E. injection E as -> -> -> _ -> _ -> -> -> ->. split_and!; try done.
  - split_and!; try done. intros i v Hi. destruct (decide (i = TMP)); [done|]. cbn in H9. by rewrite H9 in Hi.
Qed.

Lemma quiet_futex f x : heap (st S) !! f = Some x ->
  exists t, is_Some (threads S !! t) /\ (w_futex <$> wnodes (st S) !! t = Some f \/ fst <$> g_refs g t !! TMP = Some f).
Proof.
  intros Hx. pose proof Hinv as []. destruct inv_toks as (T1 & T2 & T3). destruct inv_wake as (W1 & _).
  assert (Hwait : forall t, w_futex <$> wnodes (st S) !! t = Some f -> is_Some (threads S !! t)).
  { intros t Ht. apply quiet_fields, W1. destruct (wnodes (st S) !! t); [by eexists|done]. }
  destruct inv_refs as (R1 & _). destruct (R1 f _ (proj_at ref_count _ _ _ Hx)) as [Hc Hpos].
  assert (exists o, (f, o) ∈ g_toks g) as [o Ho].
  { destruct (set_choose_or_empty (filter (fun p => fst p = f) (g_toks g))) as [[[h o] Hin]|He].
    - apply elem_of_filter in Hin as [Hh Hin]. cbn in Hh. subst h. by exists o.
    - exfalso. unfold count in Hc. apply leibniz_equiv in He. rewrite He, size_empty in Hc. cbn in Hc. lia. }
  destruct o as [|t|t i].
  - destruct (waiters x) as [|t l] eqn:El.
    { destruct (inv_duty f) as [t Ht]; [rewrite <- El; by apply proj_at|by apply T1|].
      destruct (quiet_fields t) as (_ & _ & _ & _ & _ & E & _). rewrite E in Ht. by apply elem_of_nil in Ht. }
    destruct (inv_lists f _ (proj_at waiters _ _ _ Hx)) as (_ & _ & Hl). destruct (Hl t) as [Ht _].
    destruct Ht as [b Hb]; [rewrite El; apply list_elem_of_here|]. exists t. assert (w_futex <$> wnodes (st S) !! t = Some f) by (by rewrite Hb).
    split; [by apply Hwait|by left].
  - apply T2 in Ho. rewrite lookup_fmap in Ho. exists t. split; [by apply Hwait|by left].
  - apply T3 in Ho as [a Ha]. destruct (quiet_fields t) as (_ & _ & _ & _ & _ & _ & Hr & _). destruct (Hr _ _ Ha) as [-> Ht].
    exists t. split; [done|]. right. by rewrite Ha.
Qed.
Lemma quiet_unlocked : g_futex_tree_lock (st S) = None /\ forall f x, heap (st S) !! f = Some x -> f_lock x = None.
Proof.
  destruct (inv_locks _ _ Hinv) as (L1 & L2 & _). split.
  - destruct (g_futex_tree_lock (st S)) as [t|]; [|done]. pose proof (proj1 (L1 t) eq_refl) as Ht. destruct (quiet_fields t) as (E & _). congruence.
  - intros f x Hx. destruct (f_lock x) as [t|] eqn:E; [|done]. destruct (proj1 (L2 f t)) as [a Ha]; [rewrite <- E; by apply proj_at|].
    destruct (quiet_fields t) as (_ & El & _). rewrite El in Ha. by apply elem_of_nil in Ha.
Qed.

Lemma quiet_waiters f x : heap (st S) !! f = Some x -> in_tree x = true -> waiters x <> [].
Proof.
  intros Hx Ht El. destruct (inv_duty _ _ Hinv f) as [t Hd]; [rewrite <- El; by apply proj_at|rewrite <- Ht; by apply proj_at|].
  destruct (quiet_fields t) as (_ & _ & _ & _ & _ & E & _). rewrite E in Hd. by apply elem_of_nil in Hd.
Qed.
End quiet.

(** All calls have ended or sleep, and no lock is held. *)
Definition at_rest (S : sys) : Prop :=
  quiescent S /\ g_futex_tree_lock (st S) = None /\ forall f x, heap (st S) !! f = Some x -> f_lock x = None.

Lemma settles S : sys_ok S -> eventually at_rest S.
Proof.
  remember (threads S) as m eqn:E. revert S E. induction (fewer_acc m) as [m _ IH]. intros S -> HS.
  destruct (quiescent_or_active S) as [Hq|(t & p & Hp & Ha)].
  { left. destruct HS as (g & Hinv & Hok). split; [done|]. by apply (quiet_unlocked S g). }
  right.
  - destruct HS as (g & Hinv & Hok). destruct (active_moves S g Hinv Hok t p Hp Ha) as (u & q & S' & _ & _ & Hs). by exists u, S'.
  - intros u S' Hs. apply (IH (threads S')); [by eapply step_fewer|done|by eapply thread_step_ok].
Qed.

(** ** The queue of threads to wake up *)

(** A change of the loop's variables that the body respects. *)
Lemma for_each_loop_map {A} (h : A -> A) f (body : A -> Z -> SM fstate (bool * A)) :
  (forall acc w s, body (h acc) w s = match body acc w s with Some ((go, acc'), s') => Some ((go, h acc'), s') | None => None end) ->
  forall fuel acc cursor tmp first s,
    for_each_loop fuel f body (h acc) cursor tmp first s =
    match for_each_loop fuel f body acc cursor tmp first s with Some (acc', s') => Some (h acc', s') | None => None end.
Proof.
  intros Hb fuel. induction fuel as [|fuel IH]; intros acc cursor tmp first s; [done|]. cbn [for_each_loop].
  unfold mbind, SM_bind, deref. destruct (heap s !! f) as [x|]; [|done]. destruct (waiters x) as [|w l]; [done|].
  destruct (first || negb (cursor =? w)); [|done]. rewrite Hb. destruct (body acc cursor s) as [[[go acc'] s']|]; [|done].
  destruct go; [|done]. destruct (heap s' !! f) as [x'|]; [|done]. destruct (negb (tmp =? cursor)); [|apply IH].
  destruct (list_next tmp s') as [[tmp' s'']|]; [|done]. apply IH.
Qed.

Lemma for_each_map {A} (h : A -> A) f (body : A -> Z -> SM fstate (bool * A)) fuel acc s :
  (forall acc w s, body (h acc) w s = match body acc w s with Some ((go, acc'), s') => Some ((go, h acc'), s') | None => None end) ->
  LISTP_FOR_EACH_ENTRY_SAFE fuel f body (h acc) s =
  match LISTP_FOR_EACH_ENTRY_SAFE fuel f body acc s with Some (acc', s') => Some (h acc', s') | None => None end.
Proof.
  intros Hb. unfold LISTP_FOR_EACH_ENTRY_SAFE, mbind, SM_bind, deref. destruct (heap s !! f) as [x|]; [|done].
  destruct (waiters x) as [|w l]; [done|]. destruct (list_next w s) as [[tmp s']|]; [|done]. by apply for_each_loop_map.
Qed.

Lemma wake_waiter_queue me f queue w s :
  wake_waiter me f queue w s = match wake_waiter me f [] w s with Some (q, s') => Some (q ++ queue, s') | None => None end.
Proof.
  unfold wake_waiter, add_thread_to_queue, mbind, SM_bind. destruct (remove_futex_waiter me w f s) as [[t s1]|]; [|done].
  unfold sm_gets. destruct (bool_decide (t ∈ queued s1)); cbn; unfold mret, SM_ret, put_thread; cbn; by destruct (_ <=? 0).
Qed.

Lemma move_to_wake_queue_queue me f bitset to_wake queue s :
  move_to_wake_queue me f bitset to_wake queue s =
  match move_to_wake_queue me f bitset to_wake [] s with Some ((n, q), s') => Some ((n, q ++ queue), s') | None => None end.
Proof.
  unfold move_to_wake_queue, mbind, SM_bind. destruct (assert_locked me (FutexLock f) s) as [[[] s1]|]; [|done].
  destruct (deref f s1) as [[x s2]|]; [|done].
  pose proof (for_each_map (fun acc : Z * list Z => (acc.1, acc.2 ++ queue)) f (wake_body me f bitset to_wake)
    (S (length (waiters x))) (0, []) s2) as H. cbn [fst snd app] in H. rewrite H.
  - destruct (LISTP_FOR_EACH_ENTRY_SAFE _ _ _ (0, []) s2) as [[[n q] s3]|]; done.
  - intros [n q] w s'. cbn [fst snd]. unfold wake_body, mbind, SM_bind. destruct (waiter_of w s') as [[nd s3]|]; [|done].
    destruct (_ && _); [done|]. rewrite (wake_waiter_queue me f (q ++ queue)), (wake_waiter_queue me f q).
    destruct (wake_waiter me f [] w s3) as [[q' s4]|]; [|done]. by rewrite app_assoc.
Qed.

Lemma requeue_loop_queue me f1 f2 to_wake to_requeue fuel queue s :
  LISTP_FOR_EACH_ENTRY_SAFE fuel f1 (requeue_body me f1 f2 to_wake to_requeue) (0, 0, queue) s =
  match LISTP_FOR_EACH_ENTRY_SAFE fuel f1 (requeue_body me f1 f2 to_wake to_requeue) (0, 0, []) s with
  | Some ((n, m, q), s') => Some ((n, m, q ++ queue), s')
  | None => None
  end.
Proof.
  pose proof (for_each_map (fun acc : Z * Z * list Z => (acc.1, acc.2 ++ queue)) f1 (requeue_body me f1 f2 to_wake to_requeue)
    fuel (0, 0, []) s) as H. cbn [fst snd app] in H. rewrite H.
  - destruct (LISTP_FOR_EACH_ENTRY_SAFE _ _ _ (0, 0, []) s) as [[[[n m] q] s3]|]; done.
  - intros [[n m] q] w s'. cbn [fst snd]. unfold requeue_body, mbind, SM_bind. destruct (n <? to_wake).
    + rewrite (wake_waiter_queue me f1 (q ++ queue)), (wake_waiter_queue me f1 q).
      destruct (wake_waiter me f1 [] w s') as [[q' s4]|]; [|done]. by rewrite app_assoc.
    + destruct (m <? to_requeue); [|done]. by destruct (move_futex_waiter me w f1 f2 s') as [[]|].
Qed.

Lemma not_waiting s g me : inv s g -> wnodes s !! me = None -> g_node g me = None.
Proof.
  intros Hinv Hw. destruct (inv_wake _ _ Hinv) as (W1 & _). specialize (W1 me). rewrite Hw in W1. destruct (g_node g me); [|done].
  destruct W1 as [_ W1]. destruct W1; done.
Qed.

(** The holder of the lock of a futex has it in its ghost state. *)
Lemma holder_has s g me f x : inv s g -> heap s !! f = Some x -> f_lock x = Some me -> f ∈ fst <$> l_locks (at_thread g me).
Proof.
  intros Hinv Hx Hl. destruct (inv_locks _ _ Hinv) as (_ & H & _). destruct (H f me) as [[a Ha] _].
  - rewrite <- Hl. by apply proj_at.
  - apply list_elem_of_fmap. by exists (f, a).
Qed.

Lemma tree_find_in tree a f :
  StronglySorted (fun x y => fst x < fst y) tree -> (a, f) ∈ tree -> tree_find a tree = Some (a, f).
Proof.
  unfold tree_find, futex_tree_cmp. induction 1 as [|[b h] l _ IH Hb]; [by intros ?%elem_of_nil|].
  intros [[= <- <-]|Hin]%elem_of_cons; cbn; [by rewrite Z.leb_refl|]. rewrite Forall_forall in Hb. specialize (Hb _ Hin). cbn in Hb, IH.
  destruct (Z.leb_spec a b); [lia|]. cbn. auto.
Qed.

(** The threads that are new in the queue. *)
Lemma new_in_queue me s g s' g' q q0 (taken : list Z) :
  inv s g -> inv s' g' -> frame me g g' -> g_queue g me = q0 -> g_queue g' me = q ++ q0 -> queued s' = list_to_set taken ∪ queued s ->
  NoDup q /\ forall t, t ∈ q <-> t ∈ taken /\ t ∉ queued s.
Proof.
  intros Hinv Hinv' HF E0 E Hq. destruct (inv_wake _ _ Hinv) as (_ & _ & Q1 & _). destruct (inv_wake _ _ Hinv') as (_ & _ & Q1' & Q2' & Q3').
  pose proof (Q2' me) as Hnd. rewrite E in Hnd. apply NoDup_app in Hnd as (Hnd & Hd & _).
  assert (Hother : forall u, u <> me -> g_queue g' u = g_queue g u).
  { intros u Hu. apply (f_equal l_queue (HF u Hu)). }
  split; [done|]. intros t. split.
  - intros Ht. assert (Hno : t ∉ queued s).
    { intros (u & Hu)%Q1. destruct (decide (u = me)) as [->|Hne]; [rewrite E0 in Hu; by apply (Hd t)|].
      apply Hne. apply (Q3' t); [by rewrite Hother|]. rewrite E. set_solver. }
    split; [|done]. assert (t ∈ queued s') as Hin by (apply Q1'; exists me; rewrite E; set_solver). rewrite Hq in Hin. set_solver.
  - intros [Ht Hno]. assert (t ∈ queued s') as (u & Hu)%Q1' by (rewrite Hq; set_solver). destruct (decide (u = me)) as [->|Hne].
    + rewrite E in Hu. apply elem_of_app in Hu as [|Hu]; [done|]. destruct Hno. apply Q1. exists me. by rewrite E0.
    + destruct Hno. apply Q1. exists u. by rewrite <- Hother.
Qed.

(** ** Properties *)

(** C3: Whatever the threads of a process call and however their steps interleave, no step of the
    futex code fails: no assertion on a lock or a list, no negative reference count, no access to a
    futex or waiter that has been freed, no unlock of a lock that the thread does not hold. *)
Theorem futex_never_fails S t p answer :
  reachable S -> threads S !! t = Some p -> run_step t answer (st S) p <> Crashed.
Proof.
  intros (g & Hinv & Hok)%futex_reachable_ok Hp E. specialize (Hok t). rewrite Hp in Hok. pose proof (futex_run_ok t answer _ _ _ _ Hinv Hok) as H.
  by rewrite E in H.
Qed.

(** C4: There is no deadlock and no endless loop: in every reachable state, however the threads that
    are in a call are scheduled, finitely many steps lead to a state where each of them has returned
    or sleeps and no lock is held; and while some thread does neither, a thread that does not sleep
    can take a step. *)
Theorem futex_calls_settle S : reachable S -> eventually at_rest S /\ (quiescent S \/ moves S).
Proof.
  intros HS%futex_reachable_ok. split; [by apply settles|]. destruct (quiescent_or_active S) as [Hq|(t & p & Hp & Ha)]; [by left|right].
  destruct HS as (g & Hinv & Hok). by apply (active_moves S g Hinv Hok t p).
Qed.

(** C5: No wake-up is lost: when all threads in calls sleep, each of them has its event set, so that
    it will run, or its waiter is on the list of a futex that a search for its address finds. *)
Theorem futex_no_lost_wakeup S t p :
  reachable S -> quiescent S -> threads S !! t = Some p ->
  t ∈ events (st S) \/
  exists f x, heap (st S) !! f = Some x /\ t ∈ waiters x /\ tree_find (uaddr x) (g_futex_tree (st S)) = Some (uaddr x, f).
Proof.
  intros (g & Hinv & Hok)%futex_reachable_ok Hq Hp. destruct (quiet_local S g Hok Hq t) as [E|[(_ & _ & Ha & _) _]].
  { exfalso. specialize (Hok t). specialize (Hq t p Hp). rewrite Hp in Hok. destruct p; try done. destruct Hok as ((_ & _ & H & _) & _).
    apply (f_equal l_asleep) in E. cbn in E, H. congruence. }
  destruct (inv_wake _ _ Hinv) as (_ & W2 & W3 & _). destruct (W2 t Ha) as (n & Hn & [Hl|[He|[Hu|[u Hu]]]]); [|by left|..].
  - right. destruct n as [b f o]. cbn in Hl. subst o. destruct (inv_toks _ _ Hinv) as (_ & T2 & _).
    assert ((f, OWaiter t) ∈ g_toks g) as Ht by (apply T2; rewrite lookup_fmap, Hn; done).
    destruct (inv_refs _ _ Hinv) as (_ & R2). destruct (R2 _ _ Ht) as [c Hc]. apply at_proj in Hc as (x & Hx & _).
    destruct (inv_lists _ _ Hinv f _ (proj_at waiters _ _ _ Hx)) as (_ & Hin & Hl). exists f, x.
    assert (t ∈ waiters x) as Htx by (apply Hl; eauto). split_and!; [done|done|]. destruct (inv_tree _ _ Hinv) as (Hs & Hm).
    apply tree_find_in; [done|]. apply Hm. split; [by apply proj_at|]. apply Hin. intros E. rewrite E in Htx. by apply elem_of_nil in Htx.
  - exfalso. apply W3 in Hu as [u Hu]. destruct (quiet_fields S g Hok Hq u) as (_ & _ & E & _). rewrite E in Hu. by apply elem_of_nil in Hu.
  - exfalso. destruct (quiet_fields S g Hok Hq u) as (_ & _ & _ & E & _). congruence.
Qed.

(** C9: Nothing leaks: when all threads in calls sleep, every futex in the tree has waiters; when
    all calls have returned, no futex is left, the tree is empty, no thread is on a wake queue, and
    no thread structure is referenced any more. *)
Theorem futex_no_leak S :
  reachable S -> quiescent S ->
  (forall f x, heap (st S) !! f = Some x -> in_tree x = true -> waiters x <> []) /\
  (threads S = ∅ -> heap (st S) = ∅ /\ g_futex_tree (st S) = [] /\ wnodes (st S) = ∅ /\ queued (st S) = ∅ /\
                    forall t, thread_refs (st S) t = 0).
Proof.
  intros (g & Hinv & Hok)%futex_reachable_ok Hq. split; [by apply (quiet_waiters S g)|]. intros Hn.
  assert (Hnone : forall t, ~ is_Some (threads S !! t)) by (intros t; rewrite Hn, lookup_empty; by intros []).
  assert (Hheap : heap (st S) = ∅).
  { apply map_empty. intros f. destruct (heap (st S) !! f) as [x|] eqn:E; [|done].
    destruct (quiet_futex S g Hinv Hok Hq f x E) as (t & Ht & _). by destruct (Hnone t). }
  assert (Hnodes : wnodes (st S) = ∅).
  { apply map_empty. intros t. destruct (wnodes (st S) !! t) eqn:E; [|done]. destruct (Hnone t). apply (quiet_fields S g Hok Hq t).
    apply (inv_wake _ _ Hinv). by rewrite E. }
  destruct (inv_tree _ _ Hinv) as (_ & Hm). destruct (inv_wake _ _ Hinv) as (_ & _ & W3 & _). split_and!; [done| |done| |].
  - destruct (g_futex_tree (st S)) as [|[a f] l]; [done|]. destruct (proj1 (Hm a f)) as [H _]; [apply list_elem_of_here|].
    by rewrite Hheap, fmap_empty, lookup_empty in H.
  - apply set_eq. intros t. rewrite W3. split; [|set_solver]. intros [u Hu]. destruct (quiet_fields S g Hok Hq u) as (_ & _ & E & _).
    rewrite E in Hu. by apply elem_of_nil in Hu.
  - intros t. destruct (inv_trefs _ _ Hinv) as (R1 & R2 & R3 & R4). rewrite R1. unfold count.
    replace (filter (fun p => fst p = t) (g_ttoks g)) with (∅ : gset (Z * towner)); [by rewrite size_empty|].
    apply set_eq. intros [u o]. rewrite elem_of_filter. split; [set_solver|]. intros [_ Ho]. exfalso. destruct o as [|v|v].
    + apply R2 in Ho as (b & f & Ho). by rewrite Hnodes, lookup_empty in Ho.
    + apply R3 in Ho. destruct (quiet_fields S g Hok Hq v) as (_ & _ & E & _). rewrite E in Ho. by apply elem_of_nil in Ho.
    + apply R4 in Ho. destruct (quiet_fields S g Hok Hq v) as (_ & _ & _ & _ & E & _). congruence.
Qed.

(** C14: Waking is first in, first out: with the lock of a futex held, [move_to_wake_queue] wakes
    exactly the first [to_wake] waiters (at least one) that match the bitset, in the order of the
    list, and returns their number; the others stay in order, no other list changes, and the
    threads that it adds to the caller's queue are the woken ones that were on no queue yet. *)
Theorem move_to_wake_queue_fifo S me f x bitset to_wake queue :
  reachable S -> heap (st S) !! f = Some x -> f_lock x = Some me ->
  let taken := to_be_woken bitset to_wake (wnodes (st S)) (waiters x) in
  exists q s', move_to_wake_queue me f bitset to_wake queue (st S) = Some ((Z.of_nat (length taken), q ++ queue), s') /\
    waiters <$> heap s' = <[f := filter (fun t => t ∉ taken) (waiters x)]> (waiters <$> heap (st S)) /\
    queued s' = list_to_set taken ∪ queued (st S) /\ words s' = words (st S) /\
    NoDup q /\ forall t, t ∈ q <-> t ∈ taken /\ t ∉ queued (st S).
Proof.
  intros (g & Hinv & _)%futex_reachable_ok Hx Hl taken. pose proof (holder_has _ _ _ _ _ Hinv Hx Hl) as Hf.
  destruct (change_duty' me (f :: g_duty g me) _ g _ Hinv eq_refl ltac:(set_solver)) as (g1 & Hinv1 & HF1 & HL1).
  set (q0 := g_queue g me).
  pose proof (move_to_wake_queue_spec me f x bitset to_wake q0 (st S) g1 _ Hinv1 HL1 Hf ltac:(cbn; set_solver) eq_refl Hx) as H.
  unfold wp in H. rewrite move_to_wake_queue_queue in H.
  destruct (move_to_wake_queue me f bitset to_wake [] (st S)) as [[[n q] s']|] eqn:E; [|done].
  destruct H as [W1 (g2 & Hinv2 & HF2 & HL2) W3 _ W5 W6 _]. cbn [fst snd] in W1, HL2. fold taken in W1, W3, W5.
  exists q, s'. rewrite move_to_wake_queue_queue, E, <- W1. split_and!; try done; eapply (new_in_queue me _ g1 s' g2 q q0 taken); try done.
  all: try (by apply (f_equal l_queue) in HL1). all: by apply (f_equal l_queue) in HL2.
Qed.

(** C15: [futex_requeue] between different futexes wakes the first [to_wake] waiters and moves the
    next [to_requeue] to the end of the other list, both in order, and counts them; the rest stays. *)
Theorem requeue_waiters_correct S me f1 f2 x1 x2 to_wake to_requeue :
  reachable S -> g_futex_tree_lock (st S) = Some me -> heap (st S) !! f1 = Some x1 -> f_lock x1 = Some me ->
  heap (st S) !! f2 = Some x2 -> f_lock x2 = Some me -> in_tree x2 = true -> wnodes (st S) !! me = None ->
  f1 <> f2 -> 0 <= to_wake -> 0 <= to_requeue ->
  let woken := take (Z.to_nat to_wake) (waiters x1) in
  let moved := take (Z.to_nat to_requeue) (drop (Z.to_nat to_wake) (waiters x1)) in
  let rest := drop (Z.to_nat (to_wake + to_requeue)) (waiters x1) in
  exists q s', requeue_waiters me f1 f2 to_wake to_requeue (st S) =
      Some ((Z.of_nat (length woken), Z.of_nat (length moved), q), s') /\
    waiters <$> heap s' = <[f2 := waiters x2 ++ moved]> (<[f1 := rest]> (waiters <$> heap (st S))) /\
    queued s' = list_to_set woken ∪ queued (st S) /\ words s' = words (st S) /\
    NoDup q /\ forall t, t ∈ q <-> t ∈ woken /\ t ∉ queued (st S).
Proof.
  intros (g & Hinv & _)%futex_reachable_ok Ht Hx1 Hl1 Hx2 Hl2 Hi2 Hw Hne Htw Htr woken moved rest.
  pose proof (holder_has _ _ _ _ _ Hinv Hx1 Hl1) as Hf1. pose proof (holder_has _ _ _ _ _ Hinv Hx2 Hl2) as Hf2.
  assert (Htree : g_tree g me = true) by (by apply (inv_locks _ _ Hinv)).
  pose proof (not_waiting _ _ _ Hinv Hw) as Hnode.
  destruct (change_duty' me (f1 :: g_duty g me) _ g _ Hinv eq_refl ltac:(set_solver)) as (g1 & Hinv1 & HF1 & HL1).
  destruct (know me f2 _ g1 _ Hinv1 HL1) as (g2 & Hinv2 & HF2 & HL2); [rewrite <- Hi2; by apply proj_at|by left|].
  set (q0 := g_queue g me).
  pose proof (requeue_loop_spec me f1 f2 x1 x2 to_wake to_requeue q0 (Datatypes.S (length (waiters x1) + Z.to_nat (to_wake + to_requeue)))
    (st S) g2 _ Hinv2 HL2 Htree Hf1 Hf2 ltac:(cbn; set_solver) ltac:(cbn; set_solver) Hnode eq_refl Hx1 Hx2 Htw Htr Hne ltac:(lia)) as H.
  unfold wp in H. rewrite requeue_loop_queue in H. unfold requeue_waiters, mbind, SM_bind. rewrite (deref_run _ _ _ Hx1).
  destruct (LISTP_FOR_EACH_ENTRY_SAFE _ f1 _ (0, 0, []) (st S)) as [[[[n m] q] s']|] eqn:E; [|done].
  destruct H as [W1 W2 (g3 & Hinv3 & HF3 & HL3) W4 W5 W6 _]. cbn [fst snd] in W1, W2, HL3. fold woken in W1, W5. fold moved rest in W2, W4.
  exists q, s'. rewrite <- W1, <- W2. split_and!; try done; eapply (new_in_queue me _ g2 s' g3 q q0 woken); try done.
  all: try (by apply (f_equal l_queue) in HL2). all: by apply (f_equal l_queue) in HL3.
Qed.

(** C39: When both addresses are the same, [futex_requeue] goes around: after the first [to_wake]
    waiters have been woken, the first of the others is moved to the end of the list again and again.
    With two or more waiters left this is done exactly [to_requeue] times and the count says so,
    however few waiters there are; the list is rotated by that number, and nobody has left it. *)
Theorem requeue_same_address_rounds S me f x to_wake to_requeue :
  reachable S -> g_futex_tree_lock (st S) = Some me -> heap (st S) !! f = Some x -> f_lock x = Some me ->
  in_tree x = true -> wnodes (st S) !! me = None -> 0 <= to_wake -> 0 <= to_requeue ->
  let woken := take (Z.to_nat to_wake) (waiters x) in
  let rest := drop (Z.to_nat to_wake) (waiters x) in
  exists q s', requeue_waiters me f f to_wake to_requeue (st S) =
      Some ((Z.of_nat (length woken),
             if (2 <=? length rest)%nat then to_requeue else Z.min to_requeue (Z.of_nat (length rest)), q), s') /\
    waiters <$> heap s' = <[f := rotate_by (Z.to_nat to_requeue) rest]> (waiters <$> heap (st S)) /\
    queued s' = list_to_set woken ∪ queued (st S) /\ words s' = words (st S).
Proof.
  intros (g & Hinv & _)%futex_reachable_ok Ht Hx Hl Hi Hw Htw Htr woken rest.
  pose proof (holder_has _ _ _ _ _ Hinv Hx Hl) as Hf.
  assert (Htree : g_tree g me = true) by (by apply (inv_locks _ _ Hinv)).
  pose proof (not_waiting _ _ _ Hinv Hw) as Hnode.
  destruct (change_duty' me (f :: g_duty g me) _ g _ Hinv eq_refl ltac:(set_solver)) as (g1 & Hinv1 & HF1 & HL1).
  destruct (know me f _ g1 _ Hinv1 HL1) as (g2 & Hinv2 & HF2 & HL2); [rewrite <- Hi; by apply proj_at|by left|].
  pose proof (requeue_same_loop_spec me f x to_wake to_requeue (g_queue g me) (Datatypes.S (length (waiters x) + Z.to_nat (to_wake + to_requeue)))
    (st S) g2 _ Hinv2 HL2 Htree Hf ltac:(cbn; set_solver) ltac:(cbn; set_solver) Hnode eq_refl Hx Htw Htr ltac:(lia)) as H.
  unfold wp in H. rewrite requeue_loop_queue in H. unfold requeue_waiters, mbind, SM_bind. rewrite (deref_run _ _ _ Hx).
  destruct (LISTP_FOR_EACH_ENTRY_SAFE _ f _ (0, 0, []) (st S)) as [[[[n m] q] s']|] eqn:E; [|done].
  destruct H as [W1 W2 _ W4 W5 W6 _]. cbn [fst snd] in W1, W2. fold woken in W1, W5. fold rest in W2, W4.
  exists q, s'. by rewrite <- W1, <- W2.
Qed.

(** C16: [futex_wait] compares and enqueues in one step under the lock of the futex: if the word has
    another value than expected, nothing changes and the caller is told so; otherwise the caller's
    event is cleared and its waiter is the last of the list, with its bitset. *)
Theorem wait_enqueue_correct s me f x a val bitset :
  heap s !! f = Some x -> f_lock x = Some me ->
  if decide (words s a = val) then
    exists s', wait_enqueue me f a val bitset s = Some ((true, false), s') /\
      waiters <$> heap s' = <[f := waiters x ++ [me]]> (waiters <$> heap s) /\
      wnodes s' = <[me := Waiter bitset f true]> (wnodes s) /\ events s' = events s ∖ {[me]} /\ words s' = words s
  else wait_enqueue me f a val bitset s = Some ((false, LISTP_EMPTY x && in_tree x), s).
Proof.
  intros Hx Hl. assert (Hlk : forall e, assert_locked me (FutexLock f) (set_events e s) = Some ((), set_events e s)).
  { intros e. unfold assert_locked, spinlock_is_locked. cbn. by rewrite Hx, bool_decide_eq_true_2 by (cbn; congruence). }
  assert (Hlk' : assert_locked me (FutexLock f) s = Some ((), s)).
  { unfold assert_locked, spinlock_is_locked. by rewrite Hx, bool_decide_eq_true_2 by (cbn; congruence). }
  unfold wait_enqueue, load_word, mbind, SM_bind, sm_gets. case_decide as E.
  - rewrite (proj2 (Z.eqb_eq _ _) E). unfold thread_prepare_wait, add_futex_waiter, LISTP_ADD_TAIL, get_futex, get_thread, set_waiter, store,
      deref, waiter_of, sm_modify, mbind, SM_bind. cbn [negb]. rewrite Hlk. cbn. rewrite Hx. cbn.
    rewrite lookup_insert_eq. cbn. rewrite lookup_insert_eq. cbn. eexists. split; [done|]. cbn. by rewrite !insert_insert_eq, fmap_insert.
  - rewrite (proj2 (Z.eqb_neq _ _) E). unfold check_dequeue_futex, deref, mbind, SM_bind. cbn [negb]. by rewrite Hlk', Hx.
Qed.
