(* ===== verification/FutexExamples.v ===== *)
(** * Runs of the futexes

    Schedules that are executed on the model: instances of the properties in [FutexProps], and the
    behaviour of [futex_requeue] when both addresses are the same. *)

From stdpp Require Import functions.
From S2P Require Import Prelude OrdSeq Futex FutexLoop FutexSystem FutexProps.

(** What is done next: a thread enters a call, or takes a step with an answer of the host. *)
Inductive event : Type :=
  | Enter (t : Z) (c : call)
  | Run (t answer : Z).

(** Events that are not possible do nothing. *)
Definition happen (S : sys) (e : event) : sys :=
  match e with
  | Enter t c => match threads S !! t with None => Sys (st S) (<[t := call_prog t c]> (threads S)) | Some _ => S end
  | Run t answer =>
      match threads S !! t with
      | None => S
      | Some (Ret _) => Sys (st S) (delete t (threads S))
      | Some p => match run_step t answer (st S) p with Next s' p' => Sys s' (<[t := p']> (threads S)) | _ => S end
      end
  end.

Definition play (l : list event) (S : sys) : sys := fold_left happen l S.

(** All memory can be accessed and is zero. *)
Definition fresh : sys := Sys (FState ∅ 1 [] None ∅ (fun _ => 0) (fun _ _ _ => true) ∅ ∅ (fun _ => 0) ∅) ∅.

Lemma happen_step S e : rtc sys_step S (happen S e).
Proof.
  destruct e as [t c|t answer]; cbn.
  - destruct (threads S !! t) eqn:E; [done|]. by apply rtc_once, step_call.
  - destruct (threads S !! t) as [p|] eqn:E; [|done].
    assert (H : rtc sys_step S (match run_step t answer (st S) p with Next s' p' => Sys s' (<[t := p']> (threads S)) | _ => S end)).
    { destruct (run_step t answer (st S) p) eqn:Er; [done|done|]. apply rtc_once, (step_thread _ t). by eapply step_run. }
    destruct p; try exact H. apply rtc_once, (step_thread _ t). by eapply step_return.
Qed.

Lemma play_reachable l : reachable (play l fresh).
Proof.
  exists fresh. split; [done|]. unfold play. generalize fresh. induction l as [|e l IH]; intros S; [done|]. cbn.
  etransitivity; [apply happen_step|apply IH].
Qed.

(** A call with a number of steps. *)
Definition runs (t : Z) (c : call) (n : nat) : list event := Enter t c :: repeat (Run t 1) n.

(** Threads 1 and 2 wait at address 100; the second finds the futex of the first. *)
Definition two_wait : list event :=
  runs 1 (CFutex 100 FUTEX_WAIT 0 0 0 0) 13 ++ runs 2 (CFutex 100 FUTEX_WAIT 0 0 0 0) 8.

(** With their locks held: in [futex_wake], and in [futex_requeue] to address 200. *)
Definition at_wake : list event := two_wait ++ runs 3 (CFutex 100 FUTEX_WAKE 1 0 0 0) 5.
Definition at_requeue : list event := two_wait ++ runs 3 (CFutex 100 FUTEX_REQUEUE 1 1 200 0) 13.

(** All threads wake up and return. *)
Definition all_done : list event :=
  two_wait ++ runs 3 (CFutex 100 FUTEX_WAKE 2 0 0 0) 40 ++ repeat (Run 1 0) 40 ++ repeat (Run 2 0) 40.

Definition result (t : Z) (S : sys) : option Z := match threads S !! t with Some (Ret r) => Some r | _ => None end.

Definition quiet (S : sys) : bool := forallb (fun '(_, p) => negb (active p)) (map_to_list (threads S)).

Lemma quiet_quiescent S : quiet S = true -> quiescent S.
Proof.
  unfold quiet. rewrite forallb_forall. intros H t p Hp. apply elem_of_map_to_list, list_elem_of_In in Hp.
  specialize (H (t, p) Hp). cbn in H. by destruct (active p).
Qed.

(** ** Instances *)

(** An instance of [futex_never_fails]: thread 3 is about to move the waiters. *)
Lemma futex_never_fails_witness :
  match threads (play at_wake fresh) !! 3 with Some p => run_step 3 0 (st (play at_wake fresh)) p <> Crashed | None => False end.
Proof.
  assert (H : (if threads (play at_wake fresh) !! 3 then true else false) = true) by (vm_compute; reflexivity).
  destruct (threads (play at_wake fresh) !! 3) as [p|] eqn:E; [|discriminate H].
  apply (futex_never_fails (play at_wake fresh) 3 p 0 (play_reachable at_wake) E).
Defined.

(** An instance of [futex_calls_settle]: thread 3 holds the lock of the futex. *)
Lemma futex_calls_settle_witness :
  quiet (play at_wake fresh) = false /\ eventually at_rest (play at_wake fresh) /\
  (quiescent (play at_wake fresh) \/ moves (play at_wake fresh)).
Proof. split; [vm_compute; reflexivity|]. apply (futex_calls_settle (play at_wake fresh) (play_reachable at_wake)). Defined.

(** An instance of [futex_no_lost_wakeup]: thread 2 sleeps. *)
Lemma futex_no_lost_wakeup_witness :
  2 ∈ events (st (play two_wait fresh)) \/
  exists f x, heap (st (play two_wait fresh)) !! f = Some x /\ 2 ∈ waiters x /\
    tree_find (uaddr x) (g_futex_tree (st (play two_wait fresh))) = Some (uaddr x, f).
Proof.
  assert (H : (if threads (play two_wait fresh) !! 2 then true else false) = true) by (vm_compute; reflexivity).
  destruct (threads (play two_wait fresh) !! 2) as [p|] eqn:E; [|discriminate H].
  apply (futex_no_lost_wakeup (play two_wait fresh) 2 p (play_reachable two_wait)); [|exact E].
  apply quiet_quiescent. vm_compute. reflexivity.
Defined.

(** An instance of [futex_no_leak]: two threads have waited and have been woken up. *)
Lemma futex_no_leak_witness : heap (st (play all_done fresh)) = ∅ /\ next_ptr (st (play all_done fresh)) = 2.
Proof.
  split; [|vm_compute; reflexivity].
  assert (Hq : quiescent (play all_done fresh)) by (apply quiet_quiescent; vm_compute; reflexivity).
  apply (futex_no_leak (play all_done fresh) (play_reachable all_done) Hq).
  apply map_to_list_empty_iff. vm_compute. reflexivity.
Defined.

(** An instance of [move_to_wake_queue_fifo]: thread 1 came first. *)
Lemma move_to_wake_queue_fifo_witness :
  exists q s', move_to_wake_queue 3 1 FUTEX_BITSET_MATCH_ANY 1 [] (st (play at_wake fresh)) = Some ((1, q ++ []), s') /\ q = [1].
Proof.
  destruct (move_to_wake_queue_fifo (play at_wake fresh) 3 1 (Futex 100 [1; 2] true (Some 3) 4) FUTEX_BITSET_MATCH_ANY 1 []
              (play_reachable at_wake) ltac:(vm_compute; reflexivity) eq_refl) as (q & s' & H1 & _ & _ & _ & Hnd & Hq).
  assert (E : to_be_woken FUTEX_BITSET_MATCH_ANY 1 (wnodes (st (play at_wake fresh))) [1; 2] = [1]) by (vm_compute; reflexivity).
  assert (Eq : queued (st (play at_wake fresh)) = ∅) by (vm_compute; reflexivity).
  cbn [waiters] in H1, Hq. rewrite E in H1. setoid_rewrite E in Hq. exists q, s'. split; [exact H1|].
  apply Permutation_singleton_r, NoDup_Permutation; [exact Hnd|apply NoDup_singleton|]. intros t. rewrite Hq, Eq. clear. set_solver.
Defined.

(** An instance of [requeue_waiters_correct]: thread 1 is woken and thread 2 moved. *)
Lemma requeue_waiters_correct_witness :
  exists q s', requeue_waiters 3 1 2 1 1 (st (play at_requeue fresh)) = Some ((1, 1, q), s') /\
    (waiters <$> heap s') !! 2 = Some [2].
Proof.
  destruct (requeue_waiters_correct (play at_requeue fresh) 3 1 2 (Futex 100 [1; 2] true (Some 3) 4) (Futex 200 [] true (Some 3) 2) 1 1
              (play_reachable at_requeue)) as (q & s' & H1 & H2 & _);
    [vm_compute; reflexivity|vm_compute; reflexivity|reflexivity|vm_compute; reflexivity|reflexivity|reflexivity|vm_compute; reflexivity
    |lia|lia|lia|].
  exists q, s'. split; [exact H1|]. rewrite H2. by rewrite lookup_insert_eq.
Defined.

(** An instance of [wait_enqueue_correct]: the word is 0, so thread 3 may wait behind the others. *)
Lemma wait_enqueue_correct_witness :
  exists s', wait_enqueue 3 1 100 0 7 (st (play at_wake fresh)) = Some ((true, false), s') /\ (waiters <$> heap s') !! 1 = Some [1; 2; 3].
Proof.
  pose proof (wait_enqueue_correct (st (play at_wake fresh)) 3 1 (Futex 100 [1; 2] true (Some 3) 4) 100 0 7 ltac:(vm_compute; reflexivity)
                eq_refl) as H.
  rewrite decide_True in H by (vm_compute; reflexivity). destruct H as (s' & H1 & H2 & _). exists s'. split; [exact H1|].
  rewrite H2. by rewrite lookup_insert_eq.
Defined.

(** ** Requeueing to the same address *)

(** With two waiters and a limit of 5 the result is 5. *)
Definition at_same : list event := two_wait ++ runs 3 (CFutex 100 FUTEX_REQUEUE 0 5 100 0) 7.

Example requeue_same_address_returns_five :
  let S := play (two_wait ++ runs 3 (CFutex 100 FUTEX_REQUEUE 0 5 100 0) 14) fresh in
  result 3 S = Some 5 /\ (waiters <$> heap (st (play two_wait fresh))) !! 1 = Some [1; 2] /\
  (waiters <$> heap (st S)) !! 1 = Some [2; 1].
Proof. vm_compute. auto. Qed.

(** An instance of [requeue_same_address_rounds]. *)
Lemma requeue_same_address_rounds_witness :
  exists q s', requeue_waiters 3 1 1 0 5 (st (play at_same fresh)) = Some ((0, 5, q), s') /\ (waiters <$> heap s') !! 1 = Some [2; 1].
Proof.
  destruct (requeue_same_address_rounds (play at_same fresh) 3 1 (Futex 100 [1; 2] true (Some 3) 5) 0 5 (play_reachable at_same))
    as (q & s' & H1 & H2 & _); [vm_compute; reflexivity|vm_compute; reflexivity|reflexivity|reflexivity|vm_compute; reflexivity|lia|lia|].
  exists q, s'. split; [exact H1|]. rewrite H2. by rewrite lookup_insert_eq.
Defined.
