(* ===== verification/LruCache.v ===== *)
(** * The cache of protected files: [common/src/protected_files/lru_cache.c]

    A list of keys, most recently used first, and a hash table from keys to data, which
    are kept in step.  The nodes of the list are known by their keys.  [None] is a failed
    assertion.  Allocations are assumed to succeed. *)

From S2P Require Import Prelude.

(** [current]: NULL, a node of the list, or a node that has been freed. *)
Inductive cursor : Type :=
  | CNull
  | CNode (key : Z)
  | CFreed.

(** [struct lruc_context]; the data are pointers. *)
Record lruc_context : Type := Lruc {
  lruc_list : list Z;
  lruc_map : gmap Z Z;
  lruc_current : cursor;
}.

Definition lruc_create : lruc_context := Lruc [] ∅ CNull.

Definition get_map_node (lruc : lruc_context) (key : Z) : option Z := lruc_map lruc !! key.

(** [LISTP_DEL] of the node with a key. *)
Definition list_del (key : Z) (l : list Z) : list Z := filter (fun k => k <> key) l.

Definition lruc_add (lruc : lruc_context) (key data : Z) : bool * lruc_context :=
  match get_map_node lruc key with
  | Some _ => (false, lruc)
  | None => (true, Lruc (key :: lruc_list lruc) (<[key := data]> (lruc_map lruc)) (lruc_current lruc))
  end.

Definition lruc_find (lruc : lruc_context) (key : Z) : option Z := get_map_node lruc key.

(** The data, and the cache with the node moved to the front. *)
Definition lruc_get (lruc : lruc_context) (key : Z) : option Z * lruc_context :=
  match get_map_node lruc key with
  | None => (None, lruc)
  | Some data => (Some data, Lruc (key :: list_del key (lruc_list lruc)) (lruc_map lruc) (lruc_current lruc))
  end.

Definition lruc_size (lruc : lruc_context) : Z := Z.of_nat (size (lruc_map lruc)).

(** The data of a key that must be in the table. *)
Definition data_of_key (lruc : lruc_context) (key : Z) : option (option Z) :=
  match get_map_node lruc key with
  | Some data => Some (Some data)
  | None => None
  end.

Definition lruc_get_first (lruc : lruc_context) : option (option Z * lruc_context) :=
  match lruc_list lruc with
  | [] => Some (None, lruc)
  | key :: _ =>
      d ← data_of_key lruc key; Some (d, Lruc (lruc_list lruc) (lruc_map lruc) (CNode key))
  end.

(** The key behind another one in the list; [None] if [key] is not there. *)
Fixpoint next_key (key : Z) (l : list Z) : option (option Z) :=
  match l with
  | [] => None
  | k :: l' => if k =? key then Some (head l') else next_key key l'
  end.

(** [None] if [current] is a node that has been freed. *)
Definition lruc_get_next (lruc : lruc_context) : option (option Z * lruc_context) :=
  match lruc_list lruc, lruc_current lruc with
  | _ :: _, CNode cur =>
      next ← next_key cur (lruc_list lruc);
      match next with
      | None => Some (None, Lruc (lruc_list lruc) (lruc_map lruc) CNull)
      | Some key =>
          d ← data_of_key lruc key; Some (d, Lruc (lruc_list lruc) (lruc_map lruc) (CNode key))
      end
  | _ :: _, CFreed => None
  | _, _ => Some (None, lruc)
  end.

Definition lruc_get_last (lruc : lruc_context) : option (option Z) :=
  match last (lruc_list lruc) with
  | None => Some None
  | Some key => data_of_key lruc key
  end.

(** A node is freed. *)
Definition free_node (key : Z) (cur : cursor) : cursor :=
  match cur with
  | CNode k => if k =? key then CFreed else cur
  | _ => cur
  end.

Definition lruc_remove_last (lruc : lruc_context) : option lruc_context :=
  match last (lruc_list lruc) with
  | None => Some lruc
  | Some key =>
      _ ← data_of_key lruc key;
      Some (Lruc (list_del key (lruc_list lruc)) (delete key (lruc_map lruc)) (free_node key (lruc_current lruc)))
  end.

(** The loop of [lruc_destroy] and its assertions. *)
Definition lruc_destroy (lruc : lruc_context) : option unit :=
  let m := foldr (fun key m => delete key m) (lruc_map lruc) (lruc_list lruc) in
  if bool_decide (m = ∅) then Some () else None.

(** ** The cache as a sequence of keys and data, most recently used first *)

Definition items (lruc : lruc_context) : list (Z * Z) :=
  omap (fun key => pair key <$> lruc_map lruc !! key) (lruc_list lruc).

Record lruc_ok (lruc : lruc_context) : Prop := {
  lru_nodup : NoDup (lruc_list lruc);
  lru_dom : forall key, key ∈ lruc_list lruc <-> is_Some (lruc_map lruc !! key);
}.

Definition remove_key (key : Z) (l : list (Z * Z)) : list (Z * Z) := filter (fun kd => fst kd <> key) l.

Lemma items_elem lruc key data :
  lruc_ok lruc -> (key, data) ∈ items lruc <-> lruc_map lruc !! key = Some data.
Proof.
  intros [Hnd Hd]. unfold items. rewrite list_elem_of_omap. split.
  - intros (k & Hk & E). destruct (lruc_map lruc !! k) as [d|] eqn:Ed; simplify_eq/=. done.
  - intros E. exists key. rewrite E. split; [|done]. apply Hd. eauto.
Qed.

Lemma items_keys lruc : lruc_ok lruc -> fst <$> items lruc = lruc_list lruc.
Proof.
  intros [_ Hd]. unfold items. assert (H : forall k, k ∈ lruc_list lruc -> is_Some (lruc_map lruc !! k)) by (intros; by apply Hd).
  clear Hd. induction (lruc_list lruc) as [|k l IH]; [done|]. simpl.
  destruct (H k ltac:(left)) as [d Ed]. rewrite Ed. simpl. f_equal. apply IH. intros. apply H. by right.
Qed.

Lemma items_ext (m m' : gmap Z Z) (l : list Z) :
  (forall k, k ∈ l -> m !! k = m' !! k) ->
  omap (fun key => pair key <$> m !! key) l = omap (fun key => pair key <$> m' !! key) l.
Proof.
  induction l as [|k l IH]; intros H; [done|]. simpl. rewrite (H k) by left.
  assert (IH' := IH (fun k' Hk' => H k' ltac:(by right))). destruct (m' !! k); simpl; [f_equal|]; exact IH'.
Qed.

Lemma items_del (m : gmap Z Z) key (l : list Z) :
  omap (fun k => pair k <$> m !! k) (list_del key l) = remove_key key (omap (fun k => pair k <$> m !! k) l).
Proof.
  unfold list_del, remove_key. induction l as [|k l IH]; [done|]. rewrite filter_cons. simpl.
  destruct (decide (k <> key)) as [Hk|Hk]; simpl; destruct (m !! k) eqn:E; simpl; try exact IH; rewrite filter_cons; simpl.
  - rewrite decide_True by done. f_equal. exact IH.
  - rewrite decide_False by done. exact IH.
Qed.

(** ** The operations on that sequence *)

Lemma lruc_create_ok : lruc_ok lruc_create /\ items lruc_create = [].
Proof.
  split; [|done]. split; [constructor|]. intros key. simpl. rewrite lookup_empty. split; [by intros ?%elem_of_nil|by intros [? ?]].
Qed.

Lemma lruc_add_ok lruc key data :
  lruc_ok lruc -> lruc_map lruc !! key = None ->
  exists lruc', lruc_add lruc key data = (true, lruc') /\ lruc_ok lruc' /\ items lruc' = (key, data) :: items lruc /\
    lruc_map lruc' = <[key := data]> (lruc_map lruc) /\ lruc_current lruc' = lruc_current lruc.
Proof.
  intros [Hnd Hd] E. unfold lruc_add, get_map_node. rewrite E. eexists. split; [done|].
  assert (Hni : key ∉ lruc_list lruc) by (rewrite Hd, E; by intros [? ?]).
  split; [split; simpl|split; [|done]].
  - by constructor.
  - intros k. rewrite elem_of_cons, Hd. destruct (decide (k = key)) as [->|Hne].
    + rewrite lookup_insert_eq. split; [eauto|by left].
    + rewrite lookup_insert_ne by done. naive_solver.
  - unfold items. simpl. rewrite lookup_insert_eq. simpl. f_equal. apply items_ext. intros k Hk.
    rewrite lookup_insert_ne; [done|]. by intros ->.
Qed.

Lemma lruc_get_ok lruc key data :
  lruc_ok lruc -> lruc_map lruc !! key = Some data ->
  exists lruc', lruc_get lruc key = (Some data, lruc') /\ lruc_ok lruc' /\
    items lruc' = (key, data) :: remove_key key (items lruc) /\ lruc_map lruc' = lruc_map lruc /\
    lruc_current lruc' = lruc_current lruc.
Proof.
  intros [Hnd Hd] E. unfold lruc_get, get_map_node. rewrite E. eexists. split; [done|].
  split; [split; simpl|split; [|done]].
  - constructor; [by intros [? _]%list_elem_of_filter|by apply NoDup_filter].
  - intros k. unfold list_del. rewrite elem_of_cons, list_elem_of_filter, <- Hd.
    assert (key ∈ lruc_list lruc) by (apply Hd; eauto). destruct (decide (k = key)); naive_solver.
  - unfold items. simpl. rewrite E. simpl. by rewrite items_del.
Qed.

Lemma items_size lruc : lruc_ok lruc -> lruc_size lruc = Z.of_nat (length (items lruc)).
Proof.
  intros Hok. unfold lruc_size. f_equal. rewrite <- (length_fmap fst), items_keys by done.
  rewrite <- (size_dom (D := gset Z)), <- (size_list_to_set (C := gset Z)) by apply Hok. f_equal.
  apply leibniz_equiv. intros k. rewrite elem_of_list_to_set, (lru_dom _ Hok). apply elem_of_dom.
Qed.

Lemma last_items lruc key :
  lruc_ok lruc -> last (lruc_list lruc) = Some key ->
  exists data, lruc_map lruc !! key = Some data /\ last (items lruc) = Some (key, data).
Proof.
  intros Hok E. rewrite <- items_keys in E by done. rewrite fmap_last in E.
  destruct (last (items lruc)) as [[k d]|] eqn:El; [|done]. simplify_eq/=. exists d. split; [|done].
  apply items_elem; [done|]. by apply last_Some_elem_of.
Qed.

Lemma lruc_last_ok lruc :
  lruc_ok lruc -> lruc_get_last lruc = Some (snd <$> last (items lruc)).
Proof.
  intros Hok. unfold lruc_get_last, data_of_key, get_map_node. destruct (last (lruc_list lruc)) as [key|] eqn:E.
  - destruct (last_items lruc key Hok E) as (d & -> & ->). done.
  - rewrite last_None in E. rewrite <- items_keys in E by done. by apply fmap_nil_inv in E as ->.
Qed.

Lemma lruc_remove_last_ok lruc l key data :
  lruc_ok lruc -> items lruc = l ++ [(key, data)] ->
  exists lruc', lruc_remove_last lruc = Some lruc' /\ lruc_ok lruc' /\ items lruc' = l /\
    lruc_map lruc' = delete key (lruc_map lruc) /\ lruc_current lruc' = free_node key (lruc_current lruc).
Proof.
  intros Hok E. pose proof (items_keys lruc Hok) as Ek. rewrite E, fmap_app in Ek. simpl in Ek.
  assert (Em : lruc_map lruc !! key = Some data) by (apply items_elem; [done|]; rewrite E; in_list).
  unfold lruc_remove_last. rewrite <- Ek, last_snoc. unfold data_of_key, get_map_node. rewrite Em. simpl. eexists. split; [done|].
  destruct Hok as [Hnd Hd]. pose proof Hnd as Hnd'. rewrite <- Ek in Hnd'. apply NoDup_app in Hnd' as (Hl & Hdis & _).
  assert (Edel : list_del key (lruc_list lruc) = fst <$> l).
  { rewrite <- Ek. unfold list_del. rewrite filter_app, filter_cons_False, filter_nil, app_nil_r by naive_solver.
    apply list_filter_all. apply Forall_forall. intros k Hk ->. apply (Hdis key Hk). by left. }
  rewrite Ek, Edel. split; [split; simpl|split; [|done]].
  - done.
  - intros k. destruct (decide (k = key)) as [->|Hne].
    + rewrite lookup_delete_eq. split; [|by intros [? ?]]. intros Hk. exfalso. apply (Hdis key Hk). by left.
    + rewrite lookup_delete_ne, <- Hd, <- Ek by done. rewrite elem_of_app, list_elem_of_singleton. naive_solver.
  - unfold items in *. simpl. rewrite (items_ext _ (lruc_map lruc)).
    + rewrite <- Edel, items_del, E. unfold remove_key. rewrite filter_app, filter_cons_False, filter_nil, app_nil_r by naive_solver.
      apply list_filter_all. apply Forall_forall. intros [k d] Hk. simpl. intros ->. apply (Hdis key); [|by left].
      by apply (list_elem_of_fmap_2 fst) in Hk.
    + intros k Hk. rewrite lookup_delete_ne; [done|]. intros <-. apply (Hdis key Hk). by left.
Qed.

Lemma next_key_spec k l1 l2 : k ∉ l1 -> next_key k (l1 ++ k :: l2) = Some (head l2).
Proof.
  induction l1 as [|x l1 IH]; simpl; [by rewrite Z.eqb_refl|]. rewrite not_elem_of_cons. intros [Hne Hni].
  rewrite (proj2 (Z.eqb_neq x k)) by done. auto.
Qed.

(** ** The cache refines a list

    The operations on a list of keys and data, most recently used first, together with the
    place of a walk over it. *)
Inductive lru_op : Type :=
  | LruAdd (key data : Z)
  | LruFind (key : Z)
  | LruGet (key : Z)
  | LruSize
  | LruGetFirst
  | LruGetNext
  | LruGetLast
  | LruRemoveLast.

Inductive lru_result : Type :=
  | Added (b : bool)
  | Found (data : option Z)
  | Counted (n : Z)
  | Done.

Definition find_key (key : Z) (l : list (Z * Z)) : option Z := snd <$> List.find (fun kd => fst kd =? key) l.

(** What follows the item with a key. *)
Fixpoint behind (key : Z) (l : list (Z * Z)) : list (Z * Z) :=
  match l with
  | [] => []
  | (k, _) :: l' => if k =? key then l' else behind key l'
  end.

(** The walk goes to an item, or ends. *)
Definition visit (i : option (Z * Z)) (l : list (Z * Z)) : lru_result * (list (Z * Z) * cursor) :=
  match i with
  | Some (k, d) => (Found (Some d), (l, CNode k))
  | None => (Found None, (l, CNull))
  end.

(** The only thing that is not allowed is to continue a walk from an item that has been
    removed. *)
Definition lru_spec (o : lru_op) (st : list (Z * Z) * cursor) : option (lru_result * (list (Z * Z) * cursor)) :=
  let '(l, cur) := st in
  match o with
  | LruAdd key data =>
      Some match find_key key l with Some _ => (Added false, st) | None => (Added true, ((key, data) :: l, cur)) end
  | LruFind key => Some (Found (find_key key l), st)
  | LruGet key =>
      Some match find_key key l with
           | Some d => (Found (Some d), ((key, d) :: remove_key key l, cur))
           | None => (Found None, st)
           end
  | LruSize => Some (Counted (Z.of_nat (length l)), st)
  | LruGetFirst => Some (if decide (l = []) then (Found None, st) else visit (head l) l)
  | LruGetNext =>
      match l, cur with
      | [], _ | _, CNull => Some (Found None, st)
      | _, CNode k => Some (visit (head (behind k l)) l)
      | _, CFreed => None
      end
  | LruGetLast => Some (Found (snd <$> last l), st)
  | LruRemoveLast =>
      Some (Done, (removelast l, match last l with Some (k, _) => free_node k cur | None => cur end))
  end.

Definition lru_run (o : lru_op) (lruc : lruc_context) : option (lru_result * lruc_context) :=
  match o with
  | LruAdd key data => let '(b, lruc') := lruc_add lruc key data in Some (Added b, lruc')
  | LruFind key => Some (Found (lruc_find lruc key), lruc)
  | LruGet key => let '(d, lruc') := lruc_get lruc key in Some (Found d, lruc')
  | LruSize => Some (Counted (lruc_size lruc), lruc)
  | LruGetFirst => '(d, lruc') ← lruc_get_first lruc; Some (Found d, lruc')
  | LruGetNext => '(d, lruc') ← lruc_get_next lruc; Some (Found d, lruc')
  | LruGetLast => d ← lruc_get_last lruc; Some (Found d, lruc)
  | LruRemoveLast => lruc' ← lruc_remove_last lruc; Some (Done, lruc')
  end.

Fixpoint lru_run_all (ops : list lru_op) (lruc : lruc_context) : option (list lru_result * lruc_context) :=
  match ops with
  | [] => Some ([], lruc)
  | o :: ops' => '(r, lruc1) ← lru_run o lruc; '(rs, lruc2) ← lru_run_all ops' lruc1; Some (r :: rs, lruc2)
  end.

Fixpoint lru_specs (ops : list lru_op) (st : list (Z * Z) * cursor) :
    option (list lru_result * (list (Z * Z) * cursor)) :=
  match ops with
  | [] => Some ([], st)
  | o :: ops' => '(r, st1) ← lru_spec o st; '(rs, st2) ← lru_specs ops' st1; Some (r :: rs, st2)
  end.

Lemma find_key_items lruc key : lruc_ok lruc -> find_key key (items lruc) = lruc_map lruc !! key.
Proof.
  intros Hok. unfold find_key. destruct (List.find _ (items lruc)) as [[k d]|] eqn:E; simpl.
  - apply find_some in E as [Hin Hk]. breflect. simpl in Hk. subst k. symmetry. apply items_elem; [done|]. by apply list_elem_of_In.
  - destruct (lruc_map lruc !! key) as [d|] eqn:Ed; [|done]. apply items_elem, list_elem_of_In in Ed; [|done]. apply (find_none _ _ E) in Ed. simpl in Ed. breflect. done.
Qed.

(** [current] is in the list, unless it is NULL or freed. *)
Definition cursor_ok (lruc : lruc_context) : Prop :=
  match lruc_current lruc with CNode k => k ∈ lruc_list lruc | _ => True end.

(** The abstract state. *)
Definition walk_state (lruc : lruc_context) : list (Z * Z) * cursor := (items lruc, lruc_current lruc).

Lemma next_key_behind key l : key ∈ (fst <$> l) -> next_key key (fst <$> l) = Some (fst <$> head (behind key l)).
Proof.
  induction l as [|[k d] l IH]; [by intros ?%elem_of_nil|]. rewrite fmap_cons. simpl.
  destruct (Z.eqb_spec k key) as [->|Hne]; [intros _; by destruct l|]. intros [?|?]%elem_of_cons; [done|auto].
Qed.

Lemma behind_sub key l : behind key l ⊆ l.
Proof.
  induction l as [|[k d] l IH]; simpl; [done|]. destruct (k =? key); intros x Hx; right; [done|by apply IH].
Qed.

Lemma item_data lruc k d : lruc_ok lruc -> (k, d) ∈ items lruc -> data_of_key lruc k = Some (Some d).
Proof. intros Hok Hin%items_elem; [|done]. unfold data_of_key, get_map_node. by rewrite Hin. Qed.

Lemma item_key lruc k d : lruc_ok lruc -> (k, d) ∈ items lruc -> k ∈ lruc_list lruc.
Proof. intros Hok Hin. rewrite <- (items_keys lruc Hok). by apply (list_elem_of_fmap_2 fst) in Hin. Qed.

Lemma items_nil lruc : lruc_ok lruc -> lruc_list lruc = [] <-> items lruc = [].
Proof. intros Hok. rewrite <- (items_keys lruc Hok). split; [by intros ?%fmap_nil_inv|by intros ->]. Qed.

(** What an operation does, as the specification says. *)
Definition step_ok (o : lru_op) (lruc : lruc_context) : Prop :=
  match lru_spec o (walk_state lruc) with
  | Some (r, st') => exists lruc', lru_run o lruc = Some (r, lruc') /\ lruc_ok lruc' /\ cursor_ok lruc' /\ walk_state lruc' = st'
  | None => lru_run o lruc = None
  end.

Lemma get_first_ok lruc : lruc_ok lruc -> cursor_ok lruc -> step_ok LruGetFirst lruc.
Proof.
  intros Hok Hc. unfold step_ok, lru_run, lruc_get_first, walk_state. simpl.
  destruct (items lruc) as [|[k d] l] eqn:E; simpl.
  - apply items_nil in E as El; [|done]. rewrite El. exists lruc. by rewrite E.
  - assert (Hin : (k, d) ∈ items lruc) by (rewrite E; left). pose proof (items_keys lruc Hok) as Ek. rewrite E in Ek.
    simpl in Ek. rewrite <- Ek. rewrite (item_data lruc k d) by done. simpl.
    eexists. split; [done|]. rewrite Ek. split; [by destruct Hok|]. split; [by eapply (item_key lruc)|].
    unfold items in *. simpl. by rewrite E.
Qed.

Lemma get_next_ok lruc : lruc_ok lruc -> cursor_ok lruc -> step_ok LruGetNext lruc.
Proof.
  intros Hok Hc. pose proof (items_keys lruc Hok) as Ek. unfold step_ok, lru_run, lruc_get_next, walk_state. simpl.
  destruct (items lruc) as [|i l] eqn:E.
  { apply items_nil in E as El; [|done]. rewrite El. exists lruc. by rewrite E. }
  destruct (lruc_list lruc) as [|k0 ks] eqn:El; [done|]. rewrite <- E in *. clear i l E.
  unfold cursor_ok in Hc. destruct (lruc_current lruc) as [|k|] eqn:Ecur; [|rewrite El, <- Ek in *|done].
  { exists lruc. unfold cursor_ok. by rewrite Ecur. }
  rewrite next_key_behind by done. simpl. destruct (behind k (items lruc)) as [|[k1 d1] l1] eqn:Eb; simpl.
  - rewrite <- El. eexists. split; [done|]. split; [by destruct Hok|done].
  - assert (Hin : (k1, d1) ∈ items lruc) by (apply (behind_sub k); rewrite Eb; left).
    rewrite (item_data lruc k1 d1) by done. simpl. rewrite <- El. eexists. split; [done|].
    split; [by destruct Hok|]. split; [by eapply (item_key lruc)|done].
Qed.

Lemma remove_last_ok lruc : lruc_ok lruc -> cursor_ok lruc -> step_ok LruRemoveLast lruc.
Proof.
  intros Hok Hc. unfold step_ok, walk_state. simpl. destruct (items lruc) as [|[k d] l _] eqn:E using rev_ind.
  - apply items_nil in E as El; [|done]. unfold lruc_remove_last. rewrite El. exists lruc. by rewrite E.
  - destruct (lruc_remove_last_ok lruc l k d Hok E) as (c & -> & Hok' & Ei & _ & Ecur). simpl. exists c.
    rewrite removelast_last, last_snoc, Ecur, Ei. split; [done|]. split; [done|]. split; [|done].
    unfold cursor_ok, free_node in *. rewrite Ecur. destruct (lruc_current lruc) as [|k'|]; try done.
    destruct (Z.eqb_spec k' k); [done|]. rewrite <- (items_keys lruc Hok), E, fmap_app in Hc.
    rewrite <- (items_keys c Hok'), Ei. apply elem_of_app in Hc as [?|?%list_elem_of_singleton]; done.
Qed.

Lemma lru_step o lruc : lruc_ok lruc -> cursor_ok lruc -> step_ok o lruc.
Proof.
  intros Hok Hc. destruct o as [key data|key|key| | | | |];
    [..|by apply get_first_ok|by apply get_next_ok| |by apply remove_last_ok];
    unfold step_ok; simpl; rewrite ?find_key_items by done.
  - destruct (lruc_map lruc !! key) eqn:E; [unfold lruc_add, get_map_node; rewrite E; eauto|].
    destruct (lruc_add_ok lruc key data Hok E) as (c & Ea & Hok' & Ei & Em & Ecur). rewrite Ea. exists c.
    unfold walk_state, cursor_ok in *. rewrite Ei, Ecur. split_and!; try done.
    destruct (lruc_current lruc) as [|k|]; try done. apply (lru_dom _ Hok'). rewrite Em.
    apply (lru_dom _ Hok) in Hc as [? ?]. destruct (decide (k = key)); [congruence|]. rewrite lookup_insert_ne; eauto.
  - eauto.
  - destruct (lruc_map lruc !! key) eqn:E; [|unfold lruc_get, get_map_node; rewrite E; eauto].
    destruct (lruc_get_ok lruc key z Hok E) as (c & -> & Hok' & Ei & Em & Ecur). exists c.
    unfold walk_state, cursor_ok in *. rewrite Ei, Ecur. split_and!; try done.
    destruct (lruc_current lruc) as [|k|]; try done. apply (lru_dom _ Hok'). rewrite Em. by apply (lru_dom _ Hok).
  - rewrite items_size by done. eauto.
  - rewrite lruc_last_ok by done. eauto.
Qed.

Lemma lruc_destroy_ok lruc : lruc_ok lruc -> lruc_destroy lruc = Some ().
Proof.
  intros [_ Hd]. unfold lruc_destroy. rewrite bool_decide_true; [done|]. apply map_empty. intros k.
  destruct (decide (k ∈ lruc_list lruc)) as [Hin|Hni].
  - clear Hd. induction (lruc_list lruc) as [|x l IH]; [by apply elem_of_nil in Hin|]. simpl.
    destruct (decide (k = x)) as [->|Hne]; [apply lookup_delete_eq|]. rewrite lookup_delete_ne by done.
    apply IH. apply elem_of_cons in Hin as [?|?]; done.
  - assert (E : lruc_map lruc !! k = None) by (apply eq_None_not_Some; by rewrite <- Hd). clear Hd.
    induction (lruc_list lruc) as [|x l IH]; simpl; [done|]. apply not_elem_of_cons in Hni as [Hx Hni].
    rewrite lookup_delete_ne by done. auto.
Qed.

(** C26: every sequence of operations on a new cache gives the results of the list ordered by
    last use, with the place of a walk that [lruc_get_first] and [lruc_get_next] keep between
    calls, also when other operations happen during the walk; no assertion fails, and the cache
    can be destroyed afterwards.  The one misuse is to continue a walk after its item has been
    removed: then [lruc_get_next] reads a freed node. *)
Theorem lru_refines_list ops :
  match lru_specs ops ([], CNull) with
  | Some (rs, (l, cur)) =>
      exists lruc', lru_run_all ops lruc_create = Some (rs, lruc') /\
        items lruc' = l /\ lruc_current lruc' = cur /\ lruc_destroy lruc' = Some ()
  | None => lru_run_all ops lruc_create = None
  end.
Proof.
  assert (Hall : forall lruc, lruc_ok lruc -> cursor_ok lruc ->
    match lru_specs ops (walk_state lruc) with
    | Some (rs, st) => exists lruc', lru_run_all ops lruc = Some (rs, lruc') /\ walk_state lruc' = st /\ lruc_ok lruc'
    | None => lru_run_all ops lruc = None
    end).
  { induction ops as [|o ops IH]; intros lruc Hok Hc; [by exists lruc|]. cbn [lru_run_all lru_specs].
    pose proof (lru_step o lruc Hok Hc) as Hs. unfold step_ok in Hs.
    destruct (lru_spec o (walk_state lruc)) as [[r st]|]; [|by rewrite Hs].
    destruct Hs as (c & -> & Hok1 & Hc1 & <-). simpl. specialize (IH c Hok1 Hc1).
    destruct (lru_specs ops (walk_state c)) as [[rs st]|]; simpl; [|by rewrite IH].
    destruct IH as (c' & -> & ? & ?). by exists c'. }
  destruct lruc_create_ok as [Hok _]. specialize (Hall lruc_create Hok I). change (walk_state lruc_create) with (([] : list (Z * Z)), CNull) in Hall.
  destruct (lru_specs ops ([], CNull)) as [[rs [l cur]]|]; [|done]. destruct Hall as (c & -> & [= <- <-] & Hc). exists c.
  split_and!; try done. by apply lruc_destroy_ok.
Qed.

(** A walk that goes on while items are added and used, and the misuse. *)
Example lru_walk_goes_on :
  fst <$> lru_run_all [LruAdd 1 10; LruAdd 2 20; LruGetFirst; LruAdd 3 30; LruGet 1; LruGetNext; LruGetNext] lruc_create =
    Some [Added true; Added true; Found (Some 20); Added true; Found (Some 10); Found None; Found None] /\
  lru_run_all [LruAdd 1 10; LruGetFirst; LruRemoveLast; LruAdd 1 20; LruGetNext] lruc_create = None.
Proof. split; vm_compute; reflexivity. Qed.
