(* ===== verification/PfLayout.v ===== *)
(** * The layout of protected files: [protected_files_format.h] and the arithmetic on node
    numbers of [protected_files.c]

    A protected file is a sequence of nodes of 4096 bytes.  Node 0 holds the metadata and
    the first 3072 bytes of the contents.  The other nodes form a tree: a Merkle hash node
    (MHT node) holds the keys and MACs of 96 data nodes and of 32 further MHT nodes. *)

From S2P Require Import Prelude.

Abbreviation bytes := (list Z).

Definition PF_NODE_SIZE : Z := 4096.
Definition PF_KEY_SIZE : Z := 16.
Definition PF_MAC_SIZE : Z := 16.
Definition PF_KEYID_SIZE : Z := 32.
Definition MD_USER_DATA_SIZE : Z := PF_NODE_SIZE * 3 / 4.
Definition PATH_MAX_SIZE : Z := 260 + 512.

(** [sizeof(gcm_crypto_data_t)]: a key and a MAC. *)
Definition GCM_CRYPTO_SIZE : Z := PF_KEY_SIZE + PF_MAC_SIZE.
Definition ATTACHED_DATA_NODES_COUNT : Z := PF_NODE_SIZE / GCM_CRYPTO_SIZE * 3 / 4.
Definition CHILD_MHT_NODES_COUNT : Z := PF_NODE_SIZE / GCM_CRYPTO_SIZE * 1 / 4.
Definition MAX_PAGES_IN_CACHE : Z := 48.

(** ** Memory *)

(** [n] bytes at an offset, and [memcpy] to an offset. *)
Definition slice (off n : Z) (b : bytes) : bytes := take (Z.to_nat n) (drop (Z.to_nat off) b).
Definition splice (off : Z) (x b : bytes) : bytes :=
  take (Z.to_nat off) b ++ x ++ drop (Z.to_nat off + length x) b.
Definition zeros (n : Z) : bytes := replicate (Z.to_nat n) 0.

(** [b] is [n] bytes long. *)
Definition sized (n : Z) (b : bytes) : Prop := length b = Z.to_nat n.

Lemma zeros_sized n : sized n (zeros n).
Proof. apply length_replicate. Qed.

Lemma slice_sized off n b len : sized len b -> 0 <= off -> 0 <= n -> off + n <= len -> sized n (slice off n b).
Proof. unfold sized, slice. intros H ? ? ?. rewrite length_take, length_drop, H. lia. Qed.

Lemma splice_sized off x b len n :
  sized len b -> sized n x -> 0 <= off -> 0 <= n -> off + n <= len -> sized len (splice off x b).
Proof.
  unfold sized, splice. intros H Hx ? ? ?. rewrite !length_app, length_take, length_drop, Hx, H. lia.
Qed.

Lemma slice_splice_eq off x b len n :
  sized len b -> sized n x -> 0 <= off -> 0 <= n -> off + n <= len -> slice off n (splice off x b) = x.
Proof.
  unfold sized, splice, slice. intros H Hx ? ? ?.
  rewrite drop_app_length' by (rewrite length_take; lia). by rewrite take_app_length'.
Qed.

Lemma slice_splice_ne off x b len n off' n' :
  sized len b -> sized n x -> 0 <= off -> 0 <= n -> off + n <= len -> 0 <= off' -> 0 <= n' ->
  off' + n' <= off \/ off + n <= off' -> slice off' n' (splice off x b) = slice off' n' b.
Proof.
  unfold sized, splice, slice. intros H Hx ? ? ? ? ? Hd. destruct Hd.
  - rewrite drop_app_le by (rewrite length_take; lia). rewrite take_app_le by (rewrite length_drop, length_take; lia).
    rewrite !take_drop_commute, take_take. do 2 f_equal. lia.
  - rewrite app_assoc. rewrite drop_app_ge by (rewrite length_app, length_take; lia).
    rewrite drop_drop. do 2 f_equal. rewrite length_app, length_take. lia.
Qed.

Lemma slice_app off n n' b : 0 <= off -> 0 <= n -> 0 <= n' -> slice off n b ++ slice (off + n) n' b = slice off (n + n') b.
Proof.
  intros. unfold slice. rewrite (Z2Nat.inj_add n n'), (Z2Nat.inj_add off n) by lia. by rewrite <- drop_drop, take_take_drop.
Qed.

(** ** Entries of an MHT node

    The first 96 entries belong to data nodes, the other 32 to MHT nodes. *)
Definition crypto_key (i : Z) (mht : bytes) : bytes := slice (GCM_CRYPTO_SIZE * i) PF_KEY_SIZE mht.
Definition crypto_gmac (i : Z) (mht : bytes) : bytes := slice (GCM_CRYPTO_SIZE * i + PF_KEY_SIZE) PF_MAC_SIZE mht.
Definition set_crypto_key (i : Z) (key mht : bytes) : bytes := splice (GCM_CRYPTO_SIZE * i) key mht.
Definition set_crypto_gmac (i : Z) (gmac mht : bytes) : bytes :=
  splice (GCM_CRYPTO_SIZE * i + PF_KEY_SIZE) gmac mht.

Definition data_nodes_crypto (node_number : Z) : Z := node_number mod ATTACHED_DATA_NODES_COUNT.
Definition mht_nodes_crypto (node_number : Z) : Z :=
  ATTACHED_DATA_NODES_COUNT + (node_number - 1) mod CHILD_MHT_NODES_COUNT.

Lemma set_crypto_sized i key gmac mht :
  sized PF_NODE_SIZE mht -> sized PF_KEY_SIZE key -> sized PF_MAC_SIZE gmac -> 0 <= i < 128 ->
  sized PF_NODE_SIZE (set_crypto_key i key mht) /\ sized PF_NODE_SIZE (set_crypto_gmac i gmac mht).
Proof.
  intros. unfold set_crypto_key, set_crypto_gmac, GCM_CRYPTO_SIZE, PF_KEY_SIZE, PF_MAC_SIZE, PF_NODE_SIZE in *.
  split; eapply splice_sized; try eassumption; lia.
Qed.

Lemma crypto_set i key gmac mht :
  sized PF_NODE_SIZE mht -> sized PF_KEY_SIZE key -> sized PF_MAC_SIZE gmac -> 0 <= i < 128 ->
  let mht' := set_crypto_gmac i gmac (set_crypto_key i key mht) in
  sized PF_NODE_SIZE mht' /\ crypto_key i mht' = key /\ crypto_gmac i mht' = gmac /\
  (forall j, 0 <= j < 128 -> j <> i -> crypto_key j mht' = crypto_key j mht /\ crypto_gmac j mht' = crypto_gmac j mht).
Proof.
  intros Hm Hk Hg Hi mht'. destruct (set_crypto_sized i key gmac mht Hm Hk Hg Hi) as [H1 _].
  destruct (set_crypto_sized i key gmac _ H1 Hk Hg Hi) as [_ H2].
  unfold mht', crypto_key, crypto_gmac, set_crypto_key, set_crypto_gmac, GCM_CRYPTO_SIZE, PF_KEY_SIZE, PF_MAC_SIZE, PF_NODE_SIZE in *.
  split; [done|]. split; [|split].
  - erewrite slice_splice_ne by (try eassumption; lia). eapply slice_splice_eq; try eassumption; lia.
  - eapply slice_splice_eq; try eassumption; lia.
  - intros j Hj Hne. split; (erewrite slice_splice_ne by (try eassumption; lia)); (eapply slice_splice_ne; [exact Hm|exact Hk|lia..]).
Qed.

(** ** Node numbers *)

(** The results of [get_node_numbers]. *)
Record node_numbers : Type := NodeNumbers {
  mht_node_number : Z;
  data_node_number : Z;
  physical_mht_node_number : Z;
  physical_data_node_number : Z;
}.

Definition get_node_numbers (offset : Z) : option node_numbers :=
  if MD_USER_DATA_SIZE <=? offset then
    let data := (offset - MD_USER_DATA_SIZE) / PF_NODE_SIZE in
    let mht := data / ATTACHED_DATA_NODES_COUNT in
    let physical_data := data + 1 + 1 + mht in
    let physical_mht := physical_data - data mod ATTACHED_DATA_NODES_COUNT - 1 in
    Some (NodeNumbers mht data physical_mht physical_data)
  else None.

(** The nodes behind the metadata node, with their places in the file. *)
Inductive nref : Type :=
  | Data (d : Z)
  | Mht (n : Z).

#[global] Instance nref_eq_dec : EqDecision nref.
Proof. solve_decision. Defined.

Definition phys (x : nref) : Z :=
  match x with
  | Data d => d + 2 + d / ATTACHED_DATA_NODES_COUNT
  | Mht n => 1 + n * (1 + ATTACHED_DATA_NODES_COUNT)
  end.

(** The MHT node that has the key and MAC of a node, and the number of the entry. *)
Definition up (x : nref) : Z :=
  match x with
  | Data d => d / ATTACHED_DATA_NODES_COUNT
  | Mht n => (n - 1) / CHILD_MHT_NODES_COUNT
  end.

Definition slot (x : nref) : Z :=
  match x with
  | Data d => data_nodes_crypto d
  | Mht n => mht_nodes_crypto n
  end.

Arguments phys : simpl never.
Arguments up : simpl never.
Arguments slot : simpl never.

Definition valid (x : nref) : Prop :=
  match x with
  | Data d => 0 <= d
  | Mht n => 0 <= n
  end.

(** A node with an entry in an MHT node: all but the root. *)
Definition inner (x : nref) : Prop := valid x /\ x <> Mht 0.

Ltac layout :=
  unfold phys, up, slot, inner, valid, data_nodes_crypto, mht_nodes_crypto, ATTACHED_DATA_NODES_COUNT, CHILD_MHT_NODES_COUNT,
    MD_USER_DATA_SIZE, GCM_CRYPTO_SIZE, PF_KEY_SIZE, PF_MAC_SIZE, PF_NODE_SIZE in *;
  change (4096 / (16 + 16) * 3 / 4) with 96 in *; change (4096 / (16 + 16) * 1 / 4) with 32 in *;
  change (4096 * 3 / 4) with 3072 in *.

Lemma slot_range x : inner x -> 0 <= slot x < 128.
Proof. destruct x; layout; intros [? ?]; Z.to_euclidean_division_equations; lia. Qed.

(** The parent of a node, as a node. *)
Lemma up_valid x : inner x -> 0 <= up x.
Proof. destruct x as [d|n]; layout; intros [? Hne]; [|assert (n <> 0) by congruence]; Z.to_euclidean_division_equations; lia. Qed.

(** The parent of an MHT node has a smaller number. *)
Lemma up_lt n : 0 < n -> 0 <= up (Mht n) < n.
Proof. intros. layout. Z.to_euclidean_division_equations; lia. Qed.

Lemma up_slot_inj x y : inner x -> inner y -> up x = up y -> slot x = slot y -> x = y.
Proof.
  destruct x as [d|n], y as [d'|n']; layout; intros [? Hx] [? Hy] ? ?;
    try (assert (n <> 0) by congruence); try (assert (n' <> 0) by congruence); try f_equal;
    Z.to_euclidean_division_equations; lia.
Qed.

Lemma phys_inj x y : valid x -> valid y -> phys x = phys y -> x = y.
Proof.
  destruct x as [d|n], y as [d'|n']; layout; intros ? ? ?; try f_equal; Z.to_euclidean_division_equations; lia.
Qed.

Lemma phys_pos x : valid x -> 1 <= phys x.
Proof. destruct x; layout; intros; Z.to_euclidean_division_equations; lia. Qed.

Lemma phys_surj p : 1 <= p -> exists x, valid x /\ phys x = p.
Proof.
  intros. destruct (decide ((p - 1) mod 97 = 0)).
  - exists (Mht ((p - 1) / 97)). layout. Z.to_euclidean_division_equations; lia.
  - exists (Data ((p - 1) / 97 * 96 + (p - 1) mod 97 - 1)). layout. Z.to_euclidean_division_equations; lia.
Qed.

Lemma get_node_numbers_eq offset :
  MD_USER_DATA_SIZE <= offset ->
  let d := (offset - MD_USER_DATA_SIZE) / PF_NODE_SIZE in
  0 <= d /\ get_node_numbers offset = Some (NodeNumbers (up (Data d)) d (phys (Mht (up (Data d)))) (phys (Data d))).
Proof.
  intros H d. unfold get_node_numbers. rewrite (proj2 (Z.leb_le _ _) H). subst d. layout. split.
  - Z.to_euclidean_division_equations; lia.
  - do 2 f_equal; Z.to_euclidean_division_equations; lia.
Qed.

(** Entries of MHT nodes: inside of their parent, behind the entries of data nodes, and each
    MHT node has its own. *)
Lemma mht_entries m1 m2 :
  1 <= m1 -> 1 <= m2 ->
  ATTACHED_DATA_NODES_COUNT <= mht_nodes_crypto m1 /\
  GCM_CRYPTO_SIZE * (mht_nodes_crypto m1 + 1) <= PF_NODE_SIZE /\
  0 <= (m1 - 1) / CHILD_MHT_NODES_COUNT < m1 /\
  ((m1 - 1) / CHILD_MHT_NODES_COUNT = (m2 - 1) / CHILD_MHT_NODES_COUNT ->
   mht_nodes_crypto m1 = mht_nodes_crypto m2 -> m1 = m2).
Proof. intros. layout. Z.to_euclidean_division_equations; lia. Qed.

(** C21: different data nodes and different MHT nodes are different blocks of the file, behind the
    metadata node, and no block is left out.  The entry of a data node is one of the first 96
    entries of its MHT node, two data nodes never share one; the entry of an MHT node other than
    the root is one of the other 32 of an MHT node with a smaller number, inside of that node, and
    two MHT nodes never share one. *)
Theorem node_numbers_disjoint o1 o2 n1 n2 :
  get_node_numbers o1 = Some n1 -> get_node_numbers o2 = Some n2 ->
  (physical_data_node_number n1 = physical_data_node_number n2 <-> (o1 - MD_USER_DATA_SIZE) / PF_NODE_SIZE = (o2 - MD_USER_DATA_SIZE) / PF_NODE_SIZE) /\
  (physical_mht_node_number n1 = physical_mht_node_number n2 <-> mht_node_number n1 = mht_node_number n2) /\
  physical_data_node_number n1 <> physical_mht_node_number n2 /\
  1 <= physical_mht_node_number n1 < physical_data_node_number n1 /\
  (mht_node_number n1 = mht_node_number n2 -> data_nodes_crypto (data_node_number n1) = data_nodes_crypto (data_node_number n2) -> data_node_number n1 = data_node_number n2) /\
  0 <= data_nodes_crypto (data_node_number n1) < ATTACHED_DATA_NODES_COUNT /\
  (forall m1 m2, 1 <= m1 -> 1 <= m2 ->
     ATTACHED_DATA_NODES_COUNT <= mht_nodes_crypto m1 /\
     GCM_CRYPTO_SIZE * (mht_nodes_crypto m1 + 1) <= PF_NODE_SIZE /\
     0 <= (m1 - 1) / CHILD_MHT_NODES_COUNT < m1 /\
     ((m1 - 1) / CHILD_MHT_NODES_COUNT = (m2 - 1) / CHILD_MHT_NODES_COUNT ->
      mht_nodes_crypto m1 = mht_nodes_crypto m2 -> m1 = m2)) /\
  (forall block, 1 <= block -> exists o n, get_node_numbers o = Some n /\ (block = physical_data_node_number n \/ block = physical_mht_node_number n)).
Proof.
  intros E1 E2. assert (H1 : MD_USER_DATA_SIZE <= o1) by (unfold get_node_numbers in E1; destruct (Z.leb_spec MD_USER_DATA_SIZE o1); done).
  assert (H2 : MD_USER_DATA_SIZE <= o2) by (unfold get_node_numbers in E2; destruct (Z.leb_spec MD_USER_DATA_SIZE o2); done).
  destruct (get_node_numbers_eq o1 H1) as [P1 F1]. destruct (get_node_numbers_eq o2 H2) as [P2 F2]. set (d1 := (o1 - _) / _) in *. set (d2 := (o2 - _) / _) in *.
  rewrite F1 in E1. rewrite F2 in E2. simplify_eq. simpl. pose proof (up_valid (Data d1) ltac:(done)) as U1. pose proof (up_valid (Data d2) ltac:(done)) as U2. split_and!.
  - split; [intros E; by injection (phys_inj (Data d1) (Data d2) P1 P2 E)|congruence].
  - split; [intros E; by injection (phys_inj (Mht _) (Mht _) U1 U2 E)|congruence].
  - intros E. discriminate (phys_inj (Data d1) (Mht _) P1 U2 E).
  - by apply (phys_pos (Mht _)).
  - clear. layout. Z.to_euclidean_division_equations; lia.
  - intros Eu Es. by injection (up_slot_inj (Data d1) (Data d2) ltac:(done) ltac:(done) Eu Es).
  - clear. layout. Z.to_euclidean_division_equations; lia.
  - clear. layout. Z.to_euclidean_division_equations; lia.
  - apply mht_entries.
  - intros block Hb. destruct (phys_surj block Hb) as ([d|n] & Hx & <-).
    + exists (MD_USER_DATA_SIZE + PF_NODE_SIZE * d). destruct (get_node_numbers_eq (MD_USER_DATA_SIZE + PF_NODE_SIZE * d)) as [_ ->]; [simpl in Hx; layout; lia|].
      eexists. split; [done|]. left. simpl. f_equal. f_equal. layout. Z.to_euclidean_division_equations; lia.
    + exists (MD_USER_DATA_SIZE + PF_NODE_SIZE * (ATTACHED_DATA_NODES_COUNT * n)). destruct (get_node_numbers_eq (MD_USER_DATA_SIZE + PF_NODE_SIZE * (ATTACHED_DATA_NODES_COUNT * n))) as [_ ->]; [simpl in Hx; layout; lia|].
      eexists. split; [done|]. right. simpl. f_equal. f_equal. layout. Z.to_euclidean_division_equations; lia.
Qed.

Lemma node_numbers_disjoint_witness :
  exists n1 n2, get_node_numbers 3072 = Some n1 /\ get_node_numbers 400000 = Some n2 /\
    physical_data_node_number n1 <> physical_mht_node_number n2 /\
    ATTACHED_DATA_NODES_COUNT <= mht_nodes_crypto 1.
Proof.
  eexists _, _. split; [vm_compute; reflexivity|]. split; [vm_compute; reflexivity|].
  edestruct (node_numbers_disjoint 3072 400000) as (_ & _ & Hne & _ & _ & _ & Hmht & _); [vm_compute; reflexivity..|].
  split; [exact Hne|]. by apply (Hmht 1 33).
Defined.

(** Block 195 is an MHT node, the third one. *)
Lemma block_195_is_mht :
  exists n, get_node_numbers (MD_USER_DATA_SIZE + PF_NODE_SIZE * ATTACHED_DATA_NODES_COUNT * 2) = Some n /\ physical_mht_node_number n = 195.
Proof. eexists. split; reflexivity. Qed.
