(* ===== verification/PfFormat.v ===== *)
(** * The metadata node of protected files: [protected_files_format.h]

    The structures of the metadata node as the packed bytes that are encrypted and written
    to the file. *)

From S2P Require Import Prelude PfLayout.

Definition PF_FILE_ID : Z := 0x46505f5346415247.
Definition PF_MAJOR_VERSION : Z := 1.
Definition PF_MINOR_VERSION : Z := 0.

(** Little-endian numbers. *)
Fixpoint le_bytes (n : nat) (x : Z) : bytes :=
  match n with
  | O => []
  | S n' => x mod 256 :: le_bytes n' (x / 256)
  end.

Fixpoint le_val (b : bytes) : Z :=
  match b with
  | [] => 0
  | x :: b' => x + 256 * le_val b'
  end.

Lemma le_bytes_length n x : length (le_bytes n x) = n.
Proof. revert x. induction n; simpl; congruence. Qed.

Lemma le_val_bytes n x : 0 <= x < 256 ^ Z.of_nat n -> le_val (le_bytes n x) = x.
Proof.
  revert x. induction n as [|n IH]; intros x Hx; [simpl in *; lia|]. cbn [le_bytes le_val].
  rewrite IH; [pose proof (Z.div_mod x 256); lia|].
  rewrite Nat2Z.inj_succ, Z.pow_succ_r in Hx by lia. split; [apply Z.div_pos; lia|]. apply Z.div_lt_upper_bound; lia.
Qed.

Record metadata_plain_t : Type := MetadataPlain {
  file_id : Z;
  major_version : Z;
  minor_version : Z;
  metadata_key_id : bytes;
  metadata_gmac : bytes;
}.

Record metadata_encrypted_t : Type := MetadataEncrypted {
  path : bytes;
  file_size : Z;
  mht_key : bytes;
  mht_gmac : bytes;
  md_data : bytes;
}.

Record metadata_node_t : Type := MetadataNode {
  plain_part : metadata_plain_t;
  encrypted_part : bytes;
  padding : bytes;
}.

Definition METADATA_PLAIN_SIZE : Z := 8 + 1 + 1 + PF_KEYID_SIZE + PF_MAC_SIZE.
Definition METADATA_ENCRYPTED_SIZE : Z := PATH_MAX_SIZE + 8 + PF_KEY_SIZE + PF_MAC_SIZE + MD_USER_DATA_SIZE.
Definition METADATA_PADDING_SIZE : Z := PF_NODE_SIZE - (METADATA_PLAIN_SIZE + METADATA_ENCRYPTED_SIZE).

Definition metadata_encrypted_bytes (e : metadata_encrypted_t) : bytes :=
  path e ++ le_bytes 8 (file_size e) ++ mht_key e ++ mht_gmac e ++ md_data e.

Definition metadata_encrypted_of_bytes (b : bytes) : metadata_encrypted_t :=
  MetadataEncrypted (slice 0 772 b) (le_val (slice 772 8 b)) (slice 780 16 b) (slice 796 16 b) (slice 812 3072 b).

Definition metadata_node_bytes (m : metadata_node_t) : bytes :=
  let p := plain_part m in
  le_bytes 8 (file_id p) ++ le_bytes 1 (major_version p) ++ le_bytes 1 (minor_version p) ++
  metadata_key_id p ++ metadata_gmac p ++ encrypted_part m ++ padding m.

Definition metadata_node_of_bytes (b : bytes) : metadata_node_t :=
  MetadataNode
    (MetadataPlain (le_val (slice 0 8 b)) (le_val (slice 8 1 b)) (le_val (slice 9 1 b)) (slice 10 32 b) (slice 42 16 b))
    (slice 58 3884 b) (slice 3942 154 b).

(** [memset(.., 0, ..)] *)
Definition metadata_plain_zero : metadata_plain_t := MetadataPlain 0 0 0 (zeros PF_KEYID_SIZE) (zeros PF_MAC_SIZE).
Definition metadata_node_zero : metadata_node_t :=
  MetadataNode metadata_plain_zero (zeros METADATA_ENCRYPTED_SIZE) (zeros METADATA_PADDING_SIZE).
Definition metadata_encrypted_zero : metadata_encrypted_t :=
  MetadataEncrypted (zeros PATH_MAX_SIZE) 0 (zeros PF_KEY_SIZE) (zeros PF_MAC_SIZE) (zeros MD_USER_DATA_SIZE).

(** The fields have their sizes. *)
Record metadata_encrypted_ok (e : metadata_encrypted_t) : Prop := {
  me_path : sized PATH_MAX_SIZE (path e);
  me_size : 0 <= file_size e < 2 ^ 64;
  me_key : sized PF_KEY_SIZE (mht_key e);
  me_gmac : sized PF_MAC_SIZE (mht_gmac e);
  me_data : sized MD_USER_DATA_SIZE (md_data e);
}.

Record metadata_node_ok (m : metadata_node_t) : Prop := {
  mn_id : 0 <= file_id (plain_part m) < 2 ^ 64;
  mn_major : 0 <= major_version (plain_part m) < 256;
  mn_minor : 0 <= minor_version (plain_part m) < 256;
  mn_key_id : sized PF_KEYID_SIZE (metadata_key_id (plain_part m));
  mn_gmac : sized PF_MAC_SIZE (metadata_gmac (plain_part m));
  mn_encrypted : sized METADATA_ENCRYPTED_SIZE (encrypted_part m);
  mn_padding : sized METADATA_PADDING_SIZE (padding m);
}.

(** The field that starts at an offset. *)
Lemma slice_field off n pre x post :
  length pre = Z.to_nat off -> length x = Z.to_nat n -> slice off n (pre ++ x ++ post) = x.
Proof. intros H1 H2. unfold slice. rewrite drop_app_length' by done. by rewrite take_app_length'. Qed.

Lemma slice_field_last off n pre x :
  length pre = Z.to_nat off -> length x = Z.to_nat n -> slice off n (pre ++ x) = x.
Proof. intros H1 H2. unfold slice. rewrite drop_app_length' by done. by rewrite take_ge by lia. Qed.

Lemma slice_field_first n x post : length x = Z.to_nat n -> slice 0 n (x ++ post) = x.
Proof. apply (slice_field 0 n [] x post). done. Qed.

Lemma metadata_encrypted_sized e : metadata_encrypted_ok e -> sized METADATA_ENCRYPTED_SIZE (metadata_encrypted_bytes e).
Proof.
  intros [H1 _ H2 H3 H4]. unfold sized in *. unfold metadata_encrypted_bytes.
  rewrite !length_app, le_bytes_length, H1, H2, H3, H4. done.
Qed.

Lemma metadata_encrypted_of_to_bytes e :
  metadata_encrypted_ok e -> metadata_encrypted_of_bytes (metadata_encrypted_bytes e) = e.
Proof.
  intros [H1 Hs H2 H3 H4]. destruct e as [p s k g d]. unfold sized in *. simpl in *.
  unfold metadata_encrypted_of_bytes, metadata_encrypted_bytes. simpl path; simpl file_size; simpl mht_key; simpl mht_gmac; simpl md_data.
  rewrite (slice_field_first 772 p) by done. rewrite (slice_field 772 8 p) by done.
  rewrite (app_assoc p), (slice_field 780 16 (p ++ le_bytes 8 s)) by (rewrite ?length_app, ?H1; done).
  rewrite (app_assoc (p ++ _)), (slice_field 796 16 _ g) by (rewrite ?length_app, ?H1, ?H2; done).
  rewrite (app_assoc ((p ++ _) ++ _)), (slice_field_last 812 3072 _ d) by (rewrite ?length_app, ?H1, ?H2, ?H3; done).
  by rewrite le_val_bytes.
Qed.

Lemma metadata_node_sized m : metadata_node_ok m -> sized PF_NODE_SIZE (metadata_node_bytes m).
Proof.
  intros [_ _ _ H1 H2 H3 H4]. unfold sized in *. unfold metadata_node_bytes.
  rewrite !length_app, !le_bytes_length, H1, H2, H3, H4. done.
Qed.

Lemma metadata_node_of_to_bytes m : metadata_node_ok m -> metadata_node_of_bytes (metadata_node_bytes m) = m.
Proof.
  intros [Hi Hma Hmi H1 H2 H3 H4]. destruct m as [[i ma mi ki g] e p]. unfold sized in *. simpl in *.
  unfold metadata_node_of_bytes, metadata_node_bytes. cbn [plain_part encrypted_part padding file_id major_version minor_version metadata_key_id metadata_gmac].
  set (b1 := le_bytes 8 i). set (b2 := le_bytes 1 ma). set (b3 := le_bytes 1 mi).
  assert (length b1 = 8%nat) as Hb1 by apply le_bytes_length. assert (length b2 = 1%nat) as Hb2 by apply le_bytes_length.
  assert (length b3 = 1%nat) as Hb3 by apply le_bytes_length.
  assert (le_val b1 = i /\ le_val b2 = ma /\ le_val b3 = mi) as (E1 & E2 & E3) by (split; [|split]; by apply le_val_bytes).
  clearbody b1 b2 b3.
  rewrite (slice_field_first 8 b1) by done. rewrite (slice_field 8 1 b1 b2) by done.
  rewrite (app_assoc b1), (slice_field 9 1 (b1 ++ b2) b3) by (rewrite ?length_app, ?Hb1, ?Hb2; done).
  rewrite (app_assoc (b1 ++ b2)), (slice_field 10 32 _ ki) by (rewrite ?length_app, ?Hb1, ?Hb2, ?Hb3; done).
  rewrite (app_assoc _ ki), (slice_field 42 16 _ g) by (rewrite ?length_app, ?Hb1, ?Hb2, ?Hb3, ?H1; done).
  rewrite (app_assoc _ g), (slice_field 58 3884 _ e) by (rewrite ?length_app, ?Hb1, ?Hb2, ?Hb3, ?H1, ?H2; done).
  rewrite (app_assoc _ e), (slice_field_last 3942 154 _ p) by (rewrite ?length_app, ?Hb1, ?Hb2, ?Hb3, ?H1, ?H2, ?H3; done).
  by rewrite E1, E2, E3.
Qed.

Lemma le_bytes_val b : Forall (fun x => 0 <= x < 256) b -> le_bytes (length b) (le_val b) = b.
Proof.
  induction 1 as [|x b Hx Hb IH]; [done|]. cbn [length le_val le_bytes]. rewrite (Z.mul_comm 256), Z.mod_add, Z.div_add by done.
  rewrite Z.mod_small, Z.div_small by done. by rewrite Z.add_0_l, IH.
Qed.

Lemma slice_bytes off n b : Forall (fun x => 0 <= x < 256) b -> Forall (fun x => 0 <= x < 256) (slice off n b).
Proof. intros Hb. unfold slice. by apply Forall_take, Forall_drop. Qed.

Lemma metadata_node_to_of_bytes b : sized PF_NODE_SIZE b -> Forall (fun x => 0 <= x < 256) b -> metadata_node_bytes (metadata_node_of_bytes b) = b.
Proof.
  intros Hs Hb. assert (Hle : forall k off n, n = Z.of_nat k -> 0 <= off -> off + n <= PF_NODE_SIZE -> le_bytes k (le_val (slice off n b)) = slice off n b).
  { intros k off n -> ? ?. rewrite <- (Nat2Z.id k) at 1. rewrite <- (slice_sized off (Z.of_nat k) b PF_NODE_SIZE) by (done || lia). by apply le_bytes_val, slice_bytes. }
  unfold metadata_node_of_bytes, metadata_node_bytes. cbn [plain_part encrypted_part padding file_id major_version minor_version metadata_key_id metadata_gmac].
  rewrite (Hle 8%nat 0 8), (Hle 1%nat 8 1), (Hle 1%nat 9 1) by done. unfold PF_NODE_SIZE in Hs.
  rewrite (slice_app 58 3884 154), (slice_app 42 16 (3884 + 154)), (slice_app 10 32), (slice_app 9 1), (slice_app 8 1), (slice_app 0 8) by done.
  unfold slice. rewrite drop_0. apply take_ge. unfold sized in Hs. lia.
Qed.

(** The metadata survive being stored: decoding gives back what has been encoded, for the node
    and for its encrypted part, and a block that is decoded is encoded to the same block. *)
Theorem metadata_round_trip m e b :
  metadata_node_ok m -> metadata_encrypted_ok e -> sized PF_NODE_SIZE b -> Forall (fun x => 0 <= x < 256) b ->
  metadata_node_of_bytes (metadata_node_bytes m) = m /\ metadata_encrypted_of_bytes (metadata_encrypted_bytes e) = e /\
  metadata_node_bytes (metadata_node_of_bytes b) = b /\
  sized PF_NODE_SIZE (metadata_node_bytes m) /\ sized METADATA_ENCRYPTED_SIZE (metadata_encrypted_bytes e).
Proof.
  intros Hm He Hs Hb. split_and!; [by apply metadata_node_of_to_bytes|by apply metadata_encrypted_of_to_bytes|by apply metadata_node_to_of_bytes|
    by apply metadata_node_sized|by apply metadata_encrypted_sized].
Qed.

Lemma metadata_round_trip_witness :
  metadata_node_of_bytes (metadata_node_bytes metadata_node_zero) = metadata_node_zero /\
  metadata_encrypted_of_bytes (metadata_encrypted_bytes metadata_encrypted_zero) = metadata_encrypted_zero /\
  metadata_node_bytes (metadata_node_of_bytes (zeros PF_NODE_SIZE)) = zeros PF_NODE_SIZE /\
  sized PF_NODE_SIZE (metadata_node_bytes metadata_node_zero) /\ sized METADATA_ENCRYPTED_SIZE (metadata_encrypted_bytes metadata_encrypted_zero).
Proof.
  apply (metadata_round_trip metadata_node_zero metadata_encrypted_zero (zeros PF_NODE_SIZE)).
  - split; done.
  - split; done.
  - done.
  - apply Forall_replicate. lia.
Defined.
