(* ===== verification/PfSort.v ===== *)
(** * Sorting of nodes: [partition] and [sort_nodes] of [protected_files.c]

    A quicksort with Hoare's partition on an array of pointers to nodes.  [None] is an access
    outside the array or through a dangling pointer, or a loop that has run out of fuel. *)

From stdpp Require Import sorting.
From S2P Require Import Prelude.

Section sort.
(** [ptr->node_number] *)
Context (node_number : Z -> option Z).

Definition elt (data : list Z) (i : Z) : option Z := if i <? 0 then None else data !! Z.to_nat i.

Definition number_at (data : list Z) (i : Z) : option Z := ptr ← elt data i; node_number ptr.

Definition swap_nodes (data : list Z) (idx1 idx2 : Z) : option (list Z) :=
  x ← elt data idx1;
  y ← elt data idx2;
  Some (<[Z.to_nat idx2 := x]> (<[Z.to_nat idx1 := y]> data)).

(** [while (data[i]->node_number < pivot->node_number) i++] *)
Fixpoint scan_up (fuel : nat) (data : list Z) (pivot i : Z) : option Z :=
  match fuel with
  | O => None
  | S fuel' => n ← number_at data i; if n <? pivot then scan_up fuel' data pivot (i + 1) else Some i
  end.

(** [while (data[j]->node_number > pivot->node_number) j--] *)
Fixpoint scan_down (fuel : nat) (data : list Z) (pivot j : Z) : option Z :=
  match fuel with
  | O => None
  | S fuel' => n ← number_at data j; if pivot <? n then scan_down fuel' data pivot (j - 1) else Some j
  end.

Fixpoint partition_loop (fuel : nat) (data : list Z) (pivot i j : Z) : option (Z * list Z) :=
  match fuel with
  | O => None
  | S fuel' =>
      i1 ← scan_up (S (length data)) data pivot i;
      j1 ← scan_down (S (length data)) data pivot j;
      if j1 <=? i1 then Some (j1, data)
      else data1 ← swap_nodes data i1 j1; partition_loop fuel' data1 pivot (i1 + 1) (j1 - 1)
  end.

Definition partition (data : list Z) (low high : Z) : option (Z * list Z) :=
  if low <=? high then
    pivot ← number_at data ((low + high) / 2);
    partition_loop (S (length data)) data pivot low high
  else None.

Fixpoint sort_nodes (fuel : nat) (data : list Z) (low high : Z) : option (list Z) :=
  match fuel with
  | O => None
  | S fuel' =>
      if high - low =? 1 then
        n1 ← number_at data low;
        n2 ← number_at data high;
        if n2 <? n1 then swap_nodes data low high else Some data
      else if low <? high then
        '(pi, data1) ← partition data low high;
        data2 ← (if 0 <? pi then sort_nodes fuel' data1 low pi else Some data1);
        sort_nodes fuel' data2 (pi + 1) high
      else Some data
  end.

(** ** Correctness *)

(** All pointers point to nodes. *)
Definition live (data : list Z) : Prop := forall ptr, ptr ∈ data -> is_Some (node_number ptr).

(** [data'] is [data] with elements moved around between [low] and [high]. *)
Record moved (low high : Z) (data data' : list Z) : Prop := {
  mv_perm : data' ≡ₚ data;
  mv_out : forall k, k < low \/ high < k -> elt data' k = elt data k;
  mv_in : forall k, low <= k <= high -> exists k', low <= k' <= high /\ elt data' k = elt data k';
}.

Definition sorted (low high : Z) (data : list Z) : Prop :=
  forall a b x y, low <= a -> a <= b -> b <= high -> number_at data a = Some x -> number_at data b = Some y -> x <= y.

Lemma moved_refl low high data : moved low high data data.
Proof. split; eauto. Qed.

Lemma moved_trans low high d1 d2 d3 : moved low high d1 d2 -> moved low high d2 d3 -> moved low high d1 d3.
Proof.
  intros [P1 O1 I1] [P2 O2 I2]. split.
  - by rewrite P2.
  - intros k Hk. by rewrite O2, O1.
  - intros k Hk. destruct (I2 k Hk) as (k' & Hk' & ->). apply I1, Hk'.
Qed.

Lemma moved_widen low high l h d d' : moved low high d d' -> l <= low -> high <= h -> moved l h d d'.
Proof.
  intros [P O I] Hl Hh. split; [done| |].
  - intros. apply O. lia.
  - intros k Hk. destruct (decide (low <= k <= high)) as [Hin|Hout].
    + destruct (I k Hin) as (k' & ? & ?). exists k'. split; [lia|done].
    + exists k. split; [done|]. apply O. lia.
Qed.

Lemma moved_live low high d d' : moved low high d d' -> live d -> live d'.
Proof. intros [P _ _] H ptr. rewrite P. apply H. Qed.

Lemma moved_length low high d d' : moved low high d d' -> length d' = length d.
Proof. intros [P _ _]. by rewrite P. Qed.

Lemma elt_Some (data : list Z) i : 0 <= i < Z.of_nat (length data) -> exists x, elt data i = Some x /\ x ∈ data.
Proof.
  intros Hi. unfold elt. rewrite (proj2 (Z.ltb_ge i 0)) by lia.
  destruct (lookup_lt_is_Some_2 data (Z.to_nat i)) as [x Hx]; [lia|]. exists x. split; [done|]. by eapply list_elem_of_lookup_2.
Qed.

Lemma number_at_Some data i : live data -> 0 <= i < Z.of_nat (length data) -> exists n, number_at data i = Some n.
Proof.
  intros Hl Hi. destruct (elt_Some data i Hi) as (x & Ex & Hx). destruct (Hl x Hx) as [n Hn].
  exists n. unfold number_at. by rewrite Ex.
Qed.

Lemma number_at_range data i n : number_at data i = Some n -> 0 <= i < Z.of_nat (length data).
Proof.
  unfold number_at, elt. destruct (i <? 0) eqn:E; [done|]. breflect. destruct (data !! Z.to_nat i) eqn:El; [|done].
  apply lookup_lt_Some in El. lia.
Qed.

Lemma insert_swap_perm (l : list Z) i j x y :
  l !! i = Some x -> l !! j = Some y -> <[j := x]> (<[i := y]> l) ≡ₚ l.
Proof.
  assert (H : forall (i j : nat) x y, (i < j)%nat -> l !! i = Some x -> l !! j = Some y -> <[j := x]> (<[i := y]> l) ≡ₚ l).
  { clear i j x y. intros i j x y Hij Hi Hj. destruct (Nat.le_exists_sub (S i) j Hij) as (m & -> & _).
    destruct (list_elem_of_split_length l i x Hi) as (l1 & r & -> & ->).
    rewrite lookup_app_r in Hj by lia. replace (m + S (length l1) - length l1)%nat with (S m) in Hj by lia.
    destruct (list_elem_of_split_length r m y Hj) as (l2 & l3 & -> & ->).
    rewrite insert_app_r_alt, Nat.sub_diag by lia. simpl. rewrite insert_app_r_alt by lia.
    replace (length l2 + S (length l1) - length l1)%nat with (S (length l2)) by lia. simpl.
    rewrite insert_app_r_alt, Nat.sub_diag by lia. simpl.
    apply Permutation_app_head. rewrite <- !Permutation_middle. apply perm_swap. }
  intros Hi Hj. destruct (decide (i = j)) as [->|Hne].
  - simplify_eq. rewrite list_insert_insert_eq. by rewrite list_insert_id.
  - destruct (decide (i < j)%nat); [by apply H|]. rewrite list_insert_insert_ne by done. apply H; [lia|done..].
Qed.

Lemma elt_insert (data : list Z) i x k :
  0 <= i < Z.of_nat (length data) -> elt (<[Z.to_nat i := x]> data) k = if k =? i then Some x else elt data k.
Proof.
  intros Hi. unfold elt. destruct (k <? 0) eqn:Ek; breflect.
  - by rewrite (proj2 (Z.eqb_neq k i)) by lia.
  - destruct (k =? i) eqn:E; breflect; [subst|].
    + rewrite list_lookup_insert_eq; [done|lia].
    + rewrite list_lookup_insert_ne; [done|lia].
Qed.

Lemma swap_nodes_spec low high data i j :
  low <= i <= high -> low <= j <= high -> 0 <= low -> high < Z.of_nat (length data) ->
  exists data', swap_nodes data i j = Some data' /\ moved low high data data' /\
    elt data' i = elt data j /\ elt data' j = elt data i /\
    (forall k, k <> i -> k <> j -> elt data' k = elt data k).
Proof.
  intros Hi Hj Hl Hh. destruct (elt_Some data i) as (x & Ex & _); [lia|]. destruct (elt_Some data j) as (y & Ey & _); [lia|].
  unfold swap_nodes. rewrite Ex, Ey. eexists. split; [done|].
  assert (E : forall k, elt (<[Z.to_nat j := x]> (<[Z.to_nat i := y]> data)) k = if k =? j then Some x else if k =? i then Some y else elt data k).
  { intros k. rewrite elt_insert by (rewrite length_insert; lia). by rewrite elt_insert by lia. }
  assert (Hn : forall k, elt data k = Some x \/ elt data k = Some y -> 0 <= k) by
    (intros k; unfold elt; destruct (k <? 0) eqn:?; breflect; naive_solver lia).
  split; [split|split_and!].
  - unfold elt in Ex, Ey. rewrite (proj2 (Z.ltb_ge i 0)) in Ex by lia. rewrite (proj2 (Z.ltb_ge j 0)) in Ey by lia. by apply insert_swap_perm.
  - intros k Hk. rewrite E, (proj2 (Z.eqb_neq k j)), (proj2 (Z.eqb_neq k i)) by lia. done.
  - intros k Hk. rewrite E. destruct (k =? j); [by exists i|]. destruct (k =? i); [by exists j|]. by exists k.
  - rewrite E, Z.eqb_refl. destruct (i =? j) eqn:?; breflect; subst; congruence.
  - by rewrite E, Z.eqb_refl.
  - intros k H1 H2. by rewrite E, (proj2 (Z.eqb_neq k j)), (proj2 (Z.eqb_neq k i)).
Qed.

(** The scans stop at the first element on the other side of the pivot, if there is one. *)
Lemma scan_up_spec data pivot fuel : forall i m n,
  live data -> 0 <= i <= m -> number_at data m = Some n -> pivot <= n -> (Z.to_nat (m - i) < fuel)%nat ->
  exists i1 n1, scan_up fuel data pivot i = Some i1 /\ i <= i1 <= m /\ number_at data i1 = Some n1 /\ pivot <= n1 /\
    (forall k x, i <= k < i1 -> number_at data k = Some x -> x < pivot).
Proof.
  induction fuel as [|fuel IH]; intros i m n Hl Hi Hm Hn Hf; [lia|]. simpl.
  pose proof (number_at_range _ _ _ Hm). destruct (number_at_Some data i Hl) as [x Hx]; [lia|]. rewrite Hx. simpl. dif.
  - assert (i <> m) by (intros ->; simplify_eq; lia). destruct (IH (i + 1) m n) as (i1 & n1 & -> & ? & ? & ? & Hlt); try done; try lia.
    exists i1, n1. split_and!; try done; try lia. intros k y Hk Ey. destruct (decide (k = i)) as [->|]; [simplify_eq; lia|]. apply (Hlt k); [lia|done].
  - exists i, x. split_and!; try done; try lia.
Qed.

Lemma scan_down_spec data pivot fuel : forall j m n,
  live data -> m <= j < Z.of_nat (length data) -> number_at data m = Some n -> n <= pivot -> (Z.to_nat (j - m) < fuel)%nat ->
  exists j1 n1, scan_down fuel data pivot j = Some j1 /\ m <= j1 <= j /\ number_at data j1 = Some n1 /\ n1 <= pivot /\
    (forall k x, j1 < k <= j -> number_at data k = Some x -> pivot < x).
Proof.
  induction fuel as [|fuel IH]; intros j m n Hl Hj Hm Hn Hf; [lia|]. simpl.
  pose proof (number_at_range _ _ _ Hm). destruct (number_at_Some data j Hl) as [x Hx]; [lia|]. rewrite Hx. simpl. dif.
  - assert (j <> m) by (intros ->; simplify_eq; lia). destruct (IH (j - 1) m n) as (j1 & n1 & -> & ? & ? & ? & Hlt); try done; try lia.
    exists j1, n1. split_and!; try done; try lia. intros k y Hk Ey. destruct (decide (k = j)) as [->|]; [simplify_eq; lia|]. apply (Hlt k); [lia|done].
  - exists j, x. split_and!; try done; try lia.
Qed.

(** The parts of the array that [i] and [j] have passed. *)
Record passed (low high pivot i j : Z) (data : list Z) : Prop := {
  pa_range : 0 <= low <= i /\ i <= j + 1 /\ j <= high < Z.of_nat (length data);
  pa_low : forall k x, low <= k < i -> number_at data k = Some x -> x <= pivot;
  pa_high : forall k x, j < k <= high -> number_at data k = Some x -> pivot <= x;
  pa_stop_up : exists m n, i <= m <= high /\ number_at data m = Some n /\ pivot <= n /\ (j < high \/ m < high);
  pa_stop_down : exists m n, low <= m <= j /\ number_at data m = Some n /\ n <= pivot;
}.

Lemma partition_loop_spec low high pivot fuel : forall i j data,
  live data -> passed low high pivot i j data -> (Z.to_nat (j - i + 1) < fuel)%nat ->
  exists pi data', partition_loop fuel data pivot i j = Some (pi, data') /\ moved low high data data' /\
    low <= pi < high /\
    (forall k x, low <= k <= pi -> number_at data' k = Some x -> x <= pivot) /\
    (forall k x, pi < k <= high -> number_at data' k = Some x -> pivot <= x).
Proof.
  induction fuel as [|fuel IH]; intros i j data Hl [Hr Hlow Hhigh (mu & nu & Hmu & Emu & Hnu & Hcase) (md & nd & Hmd & Emd & Hnd)] Hf; [lia|].
  cbn [partition_loop].
  destruct (scan_up_spec data pivot (S (length data)) i mu nu) as (i1 & n1 & -> & Hi1 & En1 & Hn1 & Hup); try done; try lia.
  destruct (scan_down_spec data pivot (S (length data)) j md nd) as (j1 & n2 & -> & Hj1 & En2 & Hn2 & Hdown); try done; try lia.
  cbn [mbind option_bind]. pose proof (number_at_range _ _ _ En1). pose proof (number_at_range _ _ _ En2). dif.
  - exists j1, data. split; [done|]. split; [apply moved_refl|]. split; [lia|]. split.
    + intros k x Hk Ek. destruct (decide (k = j1)) as [->|]; [simplify_eq; lia|].
      destruct (decide (k < i)) as [|]; [apply (Hlow k); [lia|done]|]. assert (x < pivot); [|lia]. apply (Hup k); [lia|done].
    + intros k x Hk Ek. destruct (decide (j < k)) as [|]; [apply (Hhigh k); [lia|done]|]. assert (pivot < x); [|lia]. apply (Hdown k); [lia|done].
  - destruct (swap_nodes_spec low high data i1 j1) as (data1 & -> & Hmv & Ei & Ej & Eo); try lia. cbn [mbind option_bind].
    pose proof (moved_live _ _ _ _ Hmv Hl) as Hl1. pose proof (moved_length _ _ _ _ Hmv) as Hlen.
    assert (Fi : number_at data1 i1 = Some n2) by (unfold number_at in *; by rewrite Ei).
    assert (Fj : number_at data1 j1 = Some n1) by (unfold number_at in *; by rewrite Ej).
    assert (Fo : forall k, k <> i1 -> k <> j1 -> number_at data1 k = number_at data k) by (intros k ? ?; unfold number_at; by rewrite Eo).
    destruct (IH (i1 + 1) (j1 - 1) data1) as (pi & data' & -> & Hmv' & Hpi & Hpl & Hph); [done| |lia|].
    + split; rewrite ?Hlen.
      * lia.
      * intros k x Hk Ek. destruct (decide (k = i1)) as [->|]; [simplify_eq; lia|]. rewrite Fo in Ek by lia.
        destruct (decide (k < i)) as [|]; [apply (Hlow k); [lia|done]|]. assert (x < pivot); [|lia]. apply (Hup k); [lia|done].
      * intros k x Hk Ek. destruct (decide (k = j1)) as [->|]; [simplify_eq; lia|]. rewrite Fo in Ek by lia.
        destruct (decide (j < k)) as [|]; [apply (Hhigh k); [lia|done]|]. assert (pivot < x); [|lia]. apply (Hdown k); [lia|done].
      * exists j1, n1. split_and!; try done; lia.
      * exists i1, n2. split_and!; try done; lia.
    + exists pi, data'. split_and!; try done; try lia. by eapply moved_trans.
Qed.

Lemma partition_spec data low high :
  live data -> 0 <= low < high -> high < Z.of_nat (length data) ->
  exists pi pivot data', partition data low high = Some (pi, data') /\ moved low high data data' /\ low <= pi < high /\
    (forall k x, low <= k <= pi -> number_at data' k = Some x -> x <= pivot) /\
    (forall k x, pi < k <= high -> number_at data' k = Some x -> pivot <= x).
Proof.
  intros Hl Hlow Hhigh. unfold partition. rewrite (proj2 (Z.leb_le low high)) by lia.
  assert (Hm : low <= (low + high) / 2 < high) by (Z.to_euclidean_division_equations; lia).
  destruct (number_at_Some data ((low + high) / 2) Hl) as [pivot Hp]; [lia|]. rewrite Hp. cbn [mbind option_bind].
  destruct (partition_loop_spec low high pivot (S (length data)) low high data) as (pi & data' & -> & H); [done| |lia|].
  - split; try (intros; lia); exists ((low + high) / 2), pivot; split_and!; try done; lia.
  - by exists pi, pivot, data'.
Qed.

(** What is known of all numbers between [low] and [high] stays true when they move. *)
Lemma moved_numbers (P : Z -> Prop) low high d d' :
  moved low high d d' -> (forall k x, low <= k <= high -> number_at d k = Some x -> P x) ->
  forall k x, low <= k <= high -> number_at d' k = Some x -> P x.
Proof.
  intros [_ _ Hin] HP k x Hk Ek. destruct (Hin k Hk) as (k' & Hk' & E). unfold number_at in Ek. rewrite E in Ek. by apply (HP k').
Qed.

Lemma moved_number_out low high d d' k :
  moved low high d d' -> k < low \/ high < k -> number_at d' k = number_at d k.
Proof. intros Hm Hk. unfold number_at. by rewrite (mv_out _ _ _ _ Hm) by done. Qed.

(** [sort_nodes] puts the nodes between [low] and [high] in order of their numbers.  It needs
    no more nested calls than there are elements. *)
Lemma sort_nodes_spec fuel : forall data low high,
  live data -> 0 <= low <= high -> high < Z.of_nat (length data) -> (Z.to_nat (high - low) < fuel)%nat ->
  exists data', sort_nodes fuel data low high = Some data' /\ moved low high data data' /\ sorted low high data'.
Proof.
  induction fuel as [|fuel IH]; intros data low high Hl Hlow Hhigh Hf; [lia|]. cbn [sort_nodes]. dif; [|dif].
  - destruct (number_at_Some data low Hl) as [n1 E1]; [lia|]. destruct (number_at_Some data high Hl) as [n2 E2]; [lia|].
    rewrite E1, E2. cbn [mbind option_bind]. assert (Hk : forall k, low <= k <= high -> k = low \/ k = high) by lia. dif.
    + destruct (swap_nodes_spec low high data low high) as (d & -> & Hm & El & Eh & _); try lia. exists d. split_and!; try done.
      intros a b x y Ha Hab Hb Ea Eb. unfold number_at in *. destruct (Hk a), (Hk b); try lia; subst; rewrite ?El, ?Eh in *; simplify_eq; lia.
    + exists data. split_and!; try done; [apply moved_refl|]. intros a b x y Ha Hab Hb Ea Eb. destruct (Hk a), (Hk b); try lia; subst; simplify_eq; lia.
  - destruct (partition_spec data low high Hl) as (pi & pivot & d1 & -> & Hm1 & Hpi & Hp1 & Hp2); try lia. cbn [mbind option_bind].
    pose proof (moved_live _ _ _ _ Hm1 Hl) as Hl1. pose proof (moved_length _ _ _ _ Hm1) as Hn1.
    assert (exists d2, (if 0 <? pi then sort_nodes fuel d1 low pi else Some d1) = Some d2 /\ moved low pi d1 d2 /\ sorted low pi d2) as (d2 & -> & Hm2 & Hs2).
    { destruct (0 <? pi) eqn:?; breflect; [apply IH; try done; lia|]. exists d1. split_and!; try done; [apply moved_refl|].
      intros a b x y ? ? ? Ea Eb. assert (a = b) by lia. simplify_eq. lia. }
    cbn [mbind option_bind]. pose proof (moved_live _ _ _ _ Hm2 Hl1) as Hl2. pose proof (moved_length _ _ _ _ Hm2) as Hn2.
    destruct (IH d2 (pi + 1) high) as (d3 & -> & Hm3 & Hs3); try done; try lia. exists d3. split; [done|]. split.
    { eapply moved_trans; [exact Hm1|]. eapply moved_trans; (eapply moved_widen; [eassumption|lia..]). }
    assert (Hlo : forall k x, low <= k <= pi -> number_at d3 k = Some x -> number_at d2 k = Some x /\ x <= pivot).
    { intros k x Hk Ek. rewrite (moved_number_out _ _ _ _ _ Hm3) in Ek by lia. split; [done|].
      eapply (moved_numbers (fun x => x <= pivot) low pi d1 d2); try done. }
    assert (Hhi : forall k x, pi < k <= high -> number_at d3 k = Some x -> pivot <= x).
    { intros k x Hk Ek. eapply (moved_numbers (fun x => pivot <= x) (pi + 1) high d2 d3); try done; [|lia].
      intros k' x' Hk' Ek'. rewrite (moved_number_out _ _ _ _ _ Hm2) in Ek' by lia. apply (Hp2 k'); [lia|done]. }
    intros a b x y Ha Hab Hb Ea Eb. destruct (decide (b <= pi)); [|destruct (decide (pi < a))].
    + apply (Hs2 a b); try lia; [by apply Hlo; [lia|]..].
    + apply (Hs3 a b); try lia; done.
    + transitivity pivot; [apply (Hlo a); [lia|done]|apply (Hhi b); [lia|done]].
  - exists data. split_and!; try done; [apply moved_refl|]. intros a b x y ? ? ? Ea Eb. assert (a = b) by lia. simplify_eq. lia.
Qed.

(** The whole array. *)
Lemma sort_all data :
  live data -> data <> [] ->
  exists data', sort_nodes (length data) data 0 (Z.of_nat (length data) - 1) = Some data' /\ data' ≡ₚ data /\
    StronglySorted (fun p q => forall x y, node_number p = Some x -> node_number q = Some y -> x <= y) data'.
Proof.
  intros Hl Hne. assert (0 < length data)%nat by (destruct data; [done|simpl; lia]).
  destruct (sort_nodes_spec (length data) data 0 (Z.of_nat (length data) - 1)) as (data' & E & Hm & Hs); [done|lia..|].
  exists data'. split; [done|]. split; [apply Hm|]. pose proof (moved_length _ _ _ _ Hm) as Hlen.
  assert (Hi : forall i j p q, data' !! i = Some p -> data' !! j = Some q -> (i <= j)%nat -> forall x y, node_number p = Some x -> node_number q = Some y -> x <= y).
  { intros i j p q Hp Hq Hij x y Hx Hy. pose proof (lookup_lt_Some _ _ _ Hq).
    assert (En : forall (k : nat) r z, data' !! k = Some r -> node_number r = Some z -> number_at data' (Z.of_nat k) = Some z).
    { intros k r z Hk Hz. unfold number_at, elt. rewrite (proj2 (Z.ltb_ge _ _)), Nat2Z.id, Hk by lia. done. }
    apply (Hs (Z.of_nat i) (Z.of_nat j)); try lia; by eapply En. }
  clear -Hi. induction data' as [|p l IH]; constructor.
  - apply IH. intros i j p' q Hp Hq Hij. apply (Hi (S i) (S j)); [done..|lia].
  - apply Forall_forall. intros q [j Hj]%list_elem_of_lookup. apply (Hi 0%nat (S j)); [done..|lia].
Qed.
End sort.

(** ** The result is that of a reference sort *)

Definition by_number (node_number : Z -> option Z) (p q : Z) : Prop := default 0 (node_number p) <= default 0 (node_number q).

#[global] Instance by_number_dec node_number : RelDecision (by_number node_number).
Proof. intros p q. unfold by_number. apply _. Defined.

#[global] Instance by_number_trans node_number : Transitive (by_number node_number).
Proof. intros p q r. unfold by_number. lia. Qed.

#[global] Instance by_number_total node_number : Total (by_number node_number).
Proof. intros p q. unfold by_number. lia. Qed.

(** C25: on an array of nodes with different numbers, [sort_nodes] stays inside the array,
    terminates within as many levels of recursion as there are nodes, and returns the same as the
    merge sort by number. *)
Theorem sort_nodes_merge_sort node_number data :
  data <> [] -> (forall p, p ∈ data -> is_Some (node_number p)) ->
  (forall p q, p ∈ data -> q ∈ data -> node_number p = node_number q -> p = q) ->
  sort_nodes node_number (length data) data 0 (Z.of_nat (length data) - 1) = Some (merge_sort (by_number node_number) data).
Proof.
  intros Hne Hl Hd. destruct (sort_all node_number data) as (data' & -> & Hp & Hs); [done|done|]. f_equal.
  assert (Hin : forall p, p ∈ data' -> exists x, node_number p = Some x) by (intros p Hin; apply Hl; by rewrite <- Hp).
  apply (StronglySorted_unique_strong (by_number node_number)).
  - intros p q Hpi Hqi H1 H2. rewrite Hp in Hpi. rewrite merge_sort_Permutation in Hqi. destruct (Hl _ Hpi) as [x Hx], (Hl _ Hqi) as [y Hy]. unfold by_number in *.
    rewrite Hx, Hy in *. simpl in *. apply Hd; try done. rewrite Hx, Hy. f_equal. lia.
  - clear -Hs Hin. induction Hs as [|p l Hs IH Hf]; constructor; [apply IH; intros; apply Hin; by right|]. rewrite Forall_forall in Hf |- *. intros q Hq.
    destruct (Hin p ltac:(left)) as [x Hx], (Hin q ltac:(by right)) as [y Hy]. unfold by_number. rewrite Hx, Hy. simpl. by apply (Hf q).
  - apply StronglySorted_merge_sort; apply _.
  - by rewrite Hp, merge_sort_Permutation.
Qed.

Lemma sort_nodes_merge_sort_witness : sort_nodes (fun p => Some (p * p)) 4 [3; 1; 2; 0] 0 3 = Some (merge_sort (by_number (fun p => Some (p * p))) [3; 1; 2; 0]).
Proof.
  apply (sort_nodes_merge_sort (fun p => Some (p * p)) [3; 1; 2; 0]); [done|eauto|].
  intros p q Hp Hq [= E]. rewrite !elem_of_cons, elem_of_nil in Hp, Hq. destruct Hp as [->|[->|[->|[->|[]]]]], Hq as [->|[->|[->|[->|[]]]]]; lia.
Defined.
