(* ===== verification/ProtFiles.v ===== *)
(** * Protected files: [common/src/protected_files/protected_files.c]

    The state of an open file and every operation on it.  Nodes live in a heap of their own
    and are known by pointers, as in the code; the root of the tree is a field of the
    context and has the pointer [ROOT].  [None] is a failed assertion or an access through a
    dangling pointer.  The callbacks, set with [pf_set_callbacks], are parameters: the file on
    the untrusted host, random numbers and cryptography.  Allocations are assumed to succeed;
    the debug output and the check in an [#ifdef DEBUG] block are left out. *)

From Stdlib Require Import Ascii.
From S2P Require Import Prelude LruCache PfLayout PfFormat PfSort.

(** ** [pf_status_t] and [pf_file_mode_t] *)
Definition PF_STATUS_SUCCESS : Z := 0.
Definition PF_STATUS_UNKNOWN_ERROR : Z := -1.
Definition PF_STATUS_UNINITIALIZED : Z := -2.
Definition PF_STATUS_INVALID_PARAMETER : Z := -3.
Definition PF_STATUS_INVALID_MODE : Z := -4.
Definition PF_STATUS_NO_MEMORY : Z := -5.
Definition PF_STATUS_INVALID_VERSION : Z := -6.
Definition PF_STATUS_INVALID_HEADER : Z := -7.
Definition PF_STATUS_INVALID_PATH : Z := -8.
Definition PF_STATUS_MAC_MISMATCH : Z := -9.
Definition PF_STATUS_NOT_IMPLEMENTED : Z := -10.
Definition PF_STATUS_CALLBACK_FAILED : Z := -11.
Definition PF_STATUS_PATH_TOO_LONG : Z := -12.
Definition PF_STATUS_FLUSH_ERROR : Z := -14.
Definition PF_STATUS_CRYPTO_ERROR : Z := -15.
Definition PF_STATUS_CORRUPTED : Z := -16.
Definition PF_STATUS_WRITE_TO_DISK_FAILED : Z := -17.

Definition PF_FAILURE (status : Z) : bool := negb (status =? PF_STATUS_SUCCESS).

Definition PF_FILE_MODE_READ : Z := 1.
Definition PF_FILE_MODE_WRITE : Z := 2.

(** ** The callbacks

    [H] is the state of the host.  A callback that fills a buffer returns the bytes that are
    in the buffer afterwards, also if it fails. *)
Class pf_callbacks (H : Type) : Type := {
  g_initialized : bool;
  g_cb_read : H -> Z -> Z -> Z * bytes * H;
  g_cb_write : H -> bytes -> Z -> Z * H;
  g_cb_fsync : H -> Z * H;
  g_cb_truncate : H -> Z -> Z * H;
  g_cb_random : H -> Z -> Z * bytes * H;
  g_cb_aes_cmac : bytes -> bytes -> Z * bytes;
  g_cb_aes_gcm_encrypt : bytes -> bytes -> Z * bytes * bytes;
  g_cb_aes_gcm_decrypt : bytes -> bytes -> bytes -> Z * bytes;
}.

(** ** Nodes and the context of an open file *)

Inductive mht_node_type_e : Type := FILE_MHT_NODE_TYPE | FILE_DATA_NODE_TYPE.

#[global] Instance mht_node_type_eq_dec : EqDecision mht_node_type_e.
Proof. solve_decision. Defined.

Record file_node_t : Type := FileNode {
  node_type : mht_node_type_e;
  node_number : Z;
  parent : Z;
  node_need_writing : bool;
  physical_node_number : Z;
  encrypted : bytes;
  decrypted : bytes;
}.

Definition set_node_need_writing (b : bool) (n : file_node_t) : file_node_t :=
  FileNode (node_type n) (node_number n) (parent n) b (physical_node_number n) (encrypted n) (decrypted n).
Definition set_encrypted (c : bytes) (n : file_node_t) : file_node_t :=
  FileNode (node_type n) (node_number n) (parent n) (node_need_writing n) (physical_node_number n) c (decrypted n).
Definition set_decrypted (d : bytes) (n : file_node_t) : file_node_t :=
  FileNode (node_type n) (node_number n) (parent n) (node_need_writing n) (physical_node_number n) (encrypted n) d.

(** A node fresh from [calloc] with its first fields set. *)
Definition new_node (t : mht_node_type_e) (number parent phys : Z) : file_node_t :=
  FileNode t number parent false phys (zeros PF_NODE_SIZE) (zeros PF_NODE_SIZE).

(** [&pf->root_mht] *)
Definition ROOT : Z := 0.

(** [ipf_init_root_mht] *)
Definition ipf_init_root_mht : file_node_t := new_node FILE_MHT_NODE_TYPE 0 0 1.

Record pf_context (H : Type) : Type := Pf {
  file_metadata : metadata_node_t;
  last_error : Z;
  encrypted_part_plain : metadata_encrypted_t;
  mode : Z;
  need_writing : bool;
  file_status : Z;
  user_kdk_key : bytes;
  cache : lruc_context;
  heap : gmap Z file_node_t;
  next_ptr : Z;
  host : H;
}.
Arguments Pf {H}.
Arguments file_metadata {H}.
Arguments last_error {H}.
Arguments encrypted_part_plain {H}.
Arguments mode {H}.
Arguments need_writing {H}.
Arguments file_status {H}.
Arguments user_kdk_key {H}.
Arguments cache {H}.
Arguments heap {H}.
Arguments next_ptr {H}.
Arguments host {H}.

Section setters.
Context {H : Type}.

Definition set_file_metadata m (s : pf_context H) : pf_context H := Pf m (last_error s) (encrypted_part_plain s) (mode s) (need_writing s) (file_status s) (user_kdk_key s) (cache s) (heap s) (next_ptr s) (host s).
Definition set_last_error e (s : pf_context H) : pf_context H := Pf (file_metadata s) e (encrypted_part_plain s) (mode s) (need_writing s) (file_status s) (user_kdk_key s) (cache s) (heap s) (next_ptr s) (host s).
Definition set_encrypted_part_plain e (s : pf_context H) : pf_context H := Pf (file_metadata s) (last_error s) e (mode s) (need_writing s) (file_status s) (user_kdk_key s) (cache s) (heap s) (next_ptr s) (host s).
Definition set_need_writing b (s : pf_context H) : pf_context H := Pf (file_metadata s) (last_error s) (encrypted_part_plain s) (mode s) b (file_status s) (user_kdk_key s) (cache s) (heap s) (next_ptr s) (host s).
Definition set_file_status e (s : pf_context H) : pf_context H := Pf (file_metadata s) (last_error s) (encrypted_part_plain s) (mode s) (need_writing s) e (user_kdk_key s) (cache s) (heap s) (next_ptr s) (host s).
Definition set_cache c (s : pf_context H) : pf_context H := Pf (file_metadata s) (last_error s) (encrypted_part_plain s) (mode s) (need_writing s) (file_status s) (user_kdk_key s) c (heap s) (next_ptr s) (host s).
Definition set_heap h (s : pf_context H) : pf_context H := Pf (file_metadata s) (last_error s) (encrypted_part_plain s) (mode s) (need_writing s) (file_status s) (user_kdk_key s) (cache s) h (next_ptr s) (host s).
Definition set_next_ptr p (s : pf_context H) : pf_context H := Pf (file_metadata s) (last_error s) (encrypted_part_plain s) (mode s) (need_writing s) (file_status s) (user_kdk_key s) (cache s) (heap s) p (host s).
Definition set_host h (s : pf_context H) : pf_context H := Pf (file_metadata s) (last_error s) (encrypted_part_plain s) (mode s) (need_writing s) (file_status s) (user_kdk_key s) (cache s) (heap s) (next_ptr s) h.
End setters.

(** Fields of the plaintext of the metadata. *)
Definition set_path p (e : metadata_encrypted_t) : metadata_encrypted_t := MetadataEncrypted p (file_size e) (mht_key e) (mht_gmac e) (md_data e).
Definition set_size n (e : metadata_encrypted_t) : metadata_encrypted_t := MetadataEncrypted (path e) n (mht_key e) (mht_gmac e) (md_data e).
Definition set_mht_key k (e : metadata_encrypted_t) : metadata_encrypted_t := MetadataEncrypted (path e) (file_size e) k (mht_gmac e) (md_data e).
Definition set_mht_gmac m (e : metadata_encrypted_t) : metadata_encrypted_t := MetadataEncrypted (path e) (file_size e) (mht_key e) m (md_data e).
Definition set_md_data d (e : metadata_encrypted_t) : metadata_encrypted_t := MetadataEncrypted (path e) (file_size e) (mht_key e) (mht_gmac e) d.

Section pf.
Context {H : Type} `{CB : !pf_callbacks H}.
Abbreviation M := (SM (pf_context H)).

Definition lift_opt {A} (o : option A) : M A := fun s => match o with Some a => Some (a, s) | None => None end.

(** ** Pointers *)

Definition deref (ptr : Z) : M file_node_t := fun s => match heap s !! ptr with Some n => Some (n, s) | None => None end.

Definition store (ptr : Z) (n : file_node_t) : M unit := fun s =>
  match heap s !! ptr with
  | Some _ => Some ((), set_heap (<[ptr := n]> (heap s)) s)
  | None => None
  end.

Definition update (ptr : Z) (f : file_node_t -> file_node_t) : M unit := n ← deref ptr; store ptr (f n).

Definition calloc (n : file_node_t) : M Z := fun s =>
  Some (next_ptr s, set_next_ptr (next_ptr s + 1) (set_heap (<[next_ptr s := n]> (heap s)) s)).

Definition free (ptr : Z) : M unit := fun s =>
  match heap s !! ptr with
  | Some _ => Some ((), set_heap (delete ptr (heap s)) s)
  | None => None
  end.

(** ** The cache *)

Definition cache_find (key : Z) : M (option Z) := sm_gets (fun s => lruc_find (cache s) key).
Definition cache_get (key : Z) : M (option Z) := fun s =>
  let '(d, c) := lruc_get (cache s) key in Some (d, set_cache c s).
Definition cache_add (key data : Z) : M bool := fun s =>
  let '(b, c) := lruc_add (cache s) key data in Some (b, set_cache c s).
Definition cache_last : M (option Z) := fun s =>
  match lruc_get_last (cache s) with Some d => Some (d, s) | None => None end.
Definition cache_remove_last : M unit := fun s =>
  match lruc_remove_last (cache s) with Some c => Some ((), set_cache c s) | None => None end.
Definition cache_first : M (option Z) := fun s =>
  match lruc_get_first (cache s) with Some (d, c) => Some (d, set_cache c s) | None => None end.
Definition cache_next : M (option Z) := fun s =>
  match lruc_get_next (cache s) with Some (d, c) => Some (d, set_cache c s) | None => None end.

(** [for (data = lruc_get_first(..); data != NULL; data = lruc_get_next(..))], left early
    when the body returns [false]. *)
Fixpoint cache_loop {A} (fuel : nat) (body : A -> Z -> M (A * bool)) (data : option Z) (acc : A) : M (A * bool) :=
  match data with
  | None => mret (acc, true)
  | Some ptr =>
      match fuel with
      | O => sm_bug
      | S fuel' =>
          '(acc1, go_on) ← body acc ptr;
          if go_on : bool then next ← cache_next; cache_loop fuel' body next acc1
          else mret (acc1, false)
      end
  end.

Definition for_each_cached {A} (body : A -> Z -> M (A * bool)) (acc : A) : M (A * bool) :=
  data ← cache_first;
  len ← sm_gets (fun s => length (lruc_list (cache s)));
  cache_loop len body data acc.

(** ** Callbacks on the context *)

Definition fail (status : Z) : M unit := sm_modify (set_last_error status).

Definition random (size : Z) : M (Z * bytes) := fun s =>
  let '(status, b, h) := g_cb_random (host s) size in Some ((status, b), set_host h s).

(** The key, and whether there is one. *)
Definition ipf_generate_random_key : M (bool * bytes) :=
  '(status, output) ← random PF_KEY_SIZE;
  if PF_FAILURE status then fail status;; mret (false, output)
  else mret (true, output).

Definition ipf_read_node (node : Z) : M (bool * bytes) := fun s =>
  let '(status, b, h) := g_cb_read (host s) (u64 (node * PF_NODE_SIZE)) PF_NODE_SIZE in
  if PF_FAILURE status then Some ((false, b), set_last_error status (set_host h s))
  else Some ((true, b), set_host h s).

Definition ipf_write_file (offset : Z) (buffer : bytes) : M bool := fun s =>
  let '(status, h) := g_cb_write (host s) buffer offset in
  if PF_FAILURE status then Some (false, set_last_error status (set_host h s))
  else Some (true, set_host h s).

Definition ipf_write_node (node : Z) (buffer : bytes) : M bool := ipf_write_file (u64 (node * PF_NODE_SIZE)) buffer.
(** ** The key of the metadata *)

Definition METADATA_KEY_NAME : bytes :=
  (fun c => Z.of_nat (nat_of_ascii c)) <$> String.list_ascii_of_string "SGX-PROTECTED-FS-METADATA-KEY".
Definition MAX_LABEL_SIZE : Z := 64.

(** [kdf_input_t]: index, label, nonce, length of the output. *)
Definition kdf_input (nonce : bytes) : bytes :=
  le_bytes 4 1 ++ splice 0 METADATA_KEY_NAME (zeros MAX_LABEL_SIZE) ++ nonce ++ le_bytes 4 0x80.

Definition set_key_id (key_id : bytes) (m : metadata_node_t) : metadata_node_t :=
  let p := plain_part m in
  MetadataNode (MetadataPlain (file_id p) (major_version p) (minor_version p) key_id (metadata_gmac p))
    (encrypted_part m) (padding m).

(** The ciphertext and its MAC. *)
Definition set_encrypted_part (cipher gmac : bytes) (m : metadata_node_t) : metadata_node_t :=
  let p := plain_part m in
  MetadataNode (MetadataPlain (file_id p) (major_version p) (minor_version p) (metadata_key_id p) gmac)
    cipher (padding m).

Definition set_header (m : metadata_node_t) : metadata_node_t :=
  let p := plain_part m in
  MetadataNode (MetadataPlain PF_FILE_ID PF_MAJOR_VERSION PF_MINOR_VERSION (metadata_key_id p) (metadata_gmac p))
    (encrypted_part m) (padding m).

Definition ipf_import_metadata_key (restore : bool) : M (bool * bytes) :=
  fm ← sm_gets file_metadata;
  '(status, nonce) ← (if restore then mret (PF_STATUS_SUCCESS, metadata_key_id (plain_part fm)) else random PF_KEYID_SIZE);
  if PF_FAILURE status then fail status;; mret (false, zeros PF_KEY_SIZE)
  else
    kdk ← sm_gets user_kdk_key;
    let '(status1, output) := g_cb_aes_cmac kdk (kdf_input nonce) in
    if PF_FAILURE status1 then fail status1;; mret (false, output)
    else
      (if restore then mret () else sm_modify (set_file_metadata (set_key_id nonce fm)));;
      mret (true, output).

Definition ipf_generate_random_metadata_key : M (bool * bytes) := ipf_import_metadata_key false.
Definition ipf_restore_current_metadata_key : M (bool * bytes) := ipf_import_metadata_key true.

(** ** Flushing *)

(** A new key for a node, which goes to an entry of its parent, and the encryption of the
    node under this key, whose MAC goes to the same entry. *)
Definition encrypt_node (node_ptr parent_ptr entry : Z) : M bool :=
  '(ok, key) ← ipf_generate_random_key;
  update parent_ptr (fun p => set_decrypted (set_crypto_key entry key (decrypted p)) p);;
  if negb ok then mret false
  else
    n ← deref node_ptr;
    let '(status, cipher, gmac) := g_cb_aes_gcm_encrypt key (decrypted n) in
    store node_ptr (set_encrypted cipher n);;
    update parent_ptr (fun p => set_decrypted (set_crypto_gmac entry gmac (decrypted p)) p);;
    if PF_FAILURE status then fail status;; mret false else mret true.

Definition is_type (t : mht_node_type_e) (n : file_node_t) : bool :=
  match node_type n, t with
  | FILE_MHT_NODE_TYPE, FILE_MHT_NODE_TYPE | FILE_DATA_NODE_TYPE, FILE_DATA_NODE_TYPE => true
  | _, _ => false
  end.

(** First loop: the data nodes that have changed. *)
Definition update_data_node (acc : unit) (ptr : Z) : M (unit * bool) :=
  n ← deref ptr;
  if is_type FILE_DATA_NODE_TYPE n && node_need_writing n then
    ok ← encrypt_node ptr (parent n) (data_nodes_crypto (node_number n)); mret ((), ok)
  else mret ((), true).

(** Second and third loop: the array of the MHT nodes that have changed. *)
Definition collect_mht_node (acc : list Z) (ptr : Z) : M (list Z * bool) :=
  n ← deref ptr;
  if is_type FILE_MHT_NODE_TYPE n && node_need_writing n then mret (acc ++ [ptr], true) else mret (acc, true).

Definition sort_mht_nodes (mht_array : list Z) : M (list Z) := fun s =>
  match mht_array with
  | [] => Some ([], s)
  | _ =>
      match sort_nodes (fun ptr => node_number <$> heap s !! ptr) (length mht_array) mht_array 0 (Z.of_nat (length mht_array) - 1) with
      | Some a => Some (a, s)
      | None => None
      end
  end.

(** Fourth loop: from the last element of the array to the first. *)
Fixpoint update_mht_nodes (mht_array : list Z) : M bool :=
  match mht_array with
  | [] => mret true
  | ptr :: rest =>
      n ← deref ptr;
      ok ← encrypt_node ptr (parent n) (mht_nodes_crypto (node_number n));
      if ok : bool then update_mht_nodes rest else mret false
  end.

Definition update_root : M bool :=
  '(ok, key) ← ipf_generate_random_key;
  sm_modify (fun s => set_encrypted_part_plain (set_mht_key key (encrypted_part_plain s)) s);;
  if negb ok then mret false
  else
    root ← deref ROOT;
    let '(status, cipher, gmac) := g_cb_aes_gcm_encrypt key (decrypted root) in
    store ROOT (set_encrypted cipher root);;
    sm_modify (fun s => set_encrypted_part_plain (set_mht_gmac gmac (encrypted_part_plain s)) s);;
    if PF_FAILURE status then fail status;; mret false else mret true.

Definition ipf_update_all_data_and_mht_nodes : M bool :=
  '(_, ok) ← for_each_cached update_data_node ();
  if negb ok then mret false
  else
    '(dirty, _) ← for_each_cached collect_mht_node [];
    mht_array ← sort_mht_nodes dirty;
    ok1 ← update_mht_nodes (reverse mht_array);
    if negb ok1 then mret false else update_root.

Definition write_dirty_node (acc : unit) (ptr : Z) : M (unit * bool) :=
  n ← deref ptr;
  if negb (node_need_writing n) then mret ((), true)
  else
    ok ← ipf_write_node (physical_node_number n) (encrypted n);
    if negb ok then mret ((), false) else store ptr (set_node_need_writing false n);; mret ((), true).

(** [pf->encrypted_part_plain.size > MD_USER_DATA_SIZE && pf->root_mht.need_writing] *)
Definition tree_needs_writing : M bool :=
  e ← sm_gets encrypted_part_plain;
  root ← deref ROOT;
  mret ((MD_USER_DATA_SIZE <? file_size e) && node_need_writing root).

Definition ipf_write_all_changes_to_disk : M bool :=
  tree ← tree_needs_writing;
  ok ← (if tree : bool then
          '(_, ok) ← for_each_cached write_dirty_node ();
          if negb ok then mret false
          else
            root ← deref ROOT;
            ok1 ← ipf_write_node 1 (encrypted root);
            if negb ok1 then mret false else update ROOT (set_node_need_writing false);; mret true
        else mret true);
  if negb ok then mret false
  else fm ← sm_gets file_metadata; ipf_write_node 0 (metadata_node_bytes fm).

Definition ipf_update_metadata_node : M bool :=
  '(ok, key) ← ipf_generate_random_metadata_key;
  if negb ok then mret false
  else
    e ← sm_gets encrypted_part_plain;
    let '(status, cipher, gmac) := g_cb_aes_gcm_encrypt key (metadata_encrypted_bytes e) in
    sm_modify (fun s => set_file_metadata (set_encrypted_part cipher gmac (file_metadata s)) s);;
    if PF_FAILURE status then fail status;; mret false else mret true.

Definition ipf_internal_flush : M bool :=
  nw ← sm_gets need_writing;
  if negb nw then mret true
  else
    tree ← tree_needs_writing;
    ok ← (if tree : bool then ipf_update_all_data_and_mht_nodes else mret true);
    if negb ok then sm_modify (set_file_status PF_STATUS_CRYPTO_ERROR);; mret false
    else
      ok1 ← ipf_update_metadata_node;
      if negb ok1 then sm_modify (set_file_status PF_STATUS_CRYPTO_ERROR);; mret false
      else
        ok2 ← ipf_write_all_changes_to_disk;
        if negb ok2 then sm_modify (set_file_status PF_STATUS_WRITE_TO_DISK_FAILED);; mret false
        else sm_modify (set_need_writing false);; mret true.
(** ** Reading and appending nodes *)

(** The depth of the tree: node numbers have 64 bits, and every level divides them by 32. *)
Definition DEPTH : nat := 14.

Definition mht_physical (mht_node_number : Z) : Z := 1 + mht_node_number * (1 + ATTACHED_DATA_NODES_COUNT).

(** Reads a new node from the host, decrypts it with the entry of its parent and puts it into
    the cache: the common end of [ipf_read_data_node] and [ipf_read_mht_node]. *)
Definition read_new_node (n : file_node_t) (entry : Z) : M (option Z) :=
  ptr ← calloc n;
  '(ok, cipher) ← ipf_read_node (physical_node_number n);
  if negb ok then free ptr;; mret None
  else
    p ← deref (parent n);
    let '(status, plain) := g_cb_aes_gcm_decrypt (crypto_key entry (decrypted p)) cipher (crypto_gmac entry (decrypted p)) in
    if PF_FAILURE status then
      free ptr;;
      fail status;;
      (if status =? PF_STATUS_MAC_MISMATCH then sm_modify (set_file_status PF_STATUS_CORRUPTED) else mret ());;
      mret None
    else
      store ptr (set_decrypted plain (set_encrypted cipher n));;
      ok1 ← cache_add (physical_node_number n) ptr;
      if negb ok1 then free ptr;; fail PF_STATUS_NO_MEMORY;; mret None else mret (Some ptr).

Fixpoint ipf_read_mht_node (fuel : nat) (number : Z) : M (option Z) :=
  if number =? 0 then mret (Some ROOT)
  else
    c ← cache_find (mht_physical number);
    match c with
    | Some ptr => mret (Some ptr)
    | None =>
        match fuel with
        | O => sm_bug
        | S fuel' =>
            up ← ipf_read_mht_node fuel' ((number - 1) / CHILD_MHT_NODES_COUNT);
            match up with
            | None => mret None
            | Some parent_ptr =>
                read_new_node (new_node FILE_MHT_NODE_TYPE number parent_ptr (mht_physical number)) (mht_nodes_crypto number)
            end
        end
    end.

(** Puts a new node into the cache: the common end of [ipf_append_data_node] and
    [ipf_append_mht_node]. *)
Definition add_new_node (n : file_node_t) : M (option Z) :=
  ptr ← calloc n;
  ok ← cache_add (physical_node_number n) ptr;
  if negb ok then free ptr;; fail PF_STATUS_NO_MEMORY;; mret None else mret (Some ptr).

Definition ipf_append_mht_node (number : Z) : M (option Z) :=
  sm_assert (0 <? number);;
  up ← ipf_read_mht_node DEPTH ((number - 1) / CHILD_MHT_NODES_COUNT);
  match up with
  | None => mret None
  | Some parent_ptr => add_new_node (new_node FILE_MHT_NODE_TYPE number parent_ptr (mht_physical number))
  end.

Definition ipf_get_mht_node (offset : Z) : M (option Z) :=
  if offset <? MD_USER_DATA_SIZE then fail PF_STATUS_UNKNOWN_ERROR;; mret None
  else
    nn ← lift_opt (get_node_numbers offset);
    if mht_node_number nn =? 0 then mret (Some ROOT)
    else
      e ← sm_gets encrypted_part_plain;
      if ((offset - MD_USER_DATA_SIZE) mod (ATTACHED_DATA_NODES_COUNT * PF_NODE_SIZE) =? 0) && (offset =? file_size e)
      then ipf_append_mht_node (mht_node_number nn)
      else ipf_read_mht_node DEPTH (mht_node_number nn).

Definition ipf_append_data_node (offset : Z) : M (option Z) :=
  mht ← ipf_get_mht_node offset;
  match mht with
  | None => mret None
  | Some parent_ptr =>
      nn ← lift_opt (get_node_numbers offset);
      add_new_node (new_node FILE_DATA_NODE_TYPE (data_node_number nn) parent_ptr (physical_data_node_number nn))
  end.

Definition ipf_read_data_node (offset : Z) : M (option Z) :=
  nn ← lift_opt (get_node_numbers offset);
  c ← cache_get (physical_data_node_number nn);
  match c with
  | Some ptr => mret (Some ptr)
  | None =>
      mht ← ipf_get_mht_node offset;
      match mht with
      | None => mret None
      | Some parent_ptr =>
          read_new_node (new_node FILE_DATA_NODE_TYPE (data_node_number nn) parent_ptr (physical_data_node_number nn))
            (data_nodes_crypto (data_node_number nn))
      end
  end.

(** The parents of a data node, up to the root. *)
Fixpoint bump_parents (fuel : nat) (ptr : Z) : M unit :=
  n ← deref ptr;
  if node_number n =? 0 then mret ()
  else
    match fuel with
    | O => sm_bug
    | S fuel' => cache_get (physical_node_number n);; bump_parents fuel' (parent n)
    end.

(** Shrinks the cache to its size; [false] if changes could not be written. *)
Fixpoint shrink_cache (fuel : nat) : M bool :=
  len ← sm_gets (fun s => lruc_size (cache s));
  if len <=? MAX_PAGES_IN_CACHE then mret true
  else
    match fuel with
    | O => sm_bug
    | S fuel' =>
        data ← cache_last;
        match data with
        | None => sm_bug
        | Some ptr =>
            n ← deref ptr;
            if negb (node_need_writing n) then
              cache_remove_last;;
              free ptr;;
              shrink_cache fuel'
            else
              ok ← ipf_internal_flush;
              if ok : bool then shrink_cache fuel'
              else
                status ← sm_gets file_status;
                sm_assert (PF_FAILURE status);;
                mret false
        end
    end.

Definition ipf_get_data_node (offset : Z) : M (option Z) :=
  if offset <? MD_USER_DATA_SIZE then fail PF_STATUS_UNKNOWN_ERROR;; mret None
  else
    e ← sm_gets encrypted_part_plain;
    node ← (if ((offset - MD_USER_DATA_SIZE) mod PF_NODE_SIZE =? 0) && (offset =? file_size e)
            then ipf_append_data_node offset else ipf_read_data_node offset);
    (match node with
     | None => mret ()
     | Some ptr => n ← deref ptr; bump_parents DEPTH (parent n)
     end);;
    len ← sm_gets (fun s => length (lruc_list (cache s)));
    ok ← shrink_cache (len + 2);
    if ok : bool then mret node else mret None.
(** ** Reading and writing *)

Definition ipf_check_writable : M bool :=
  status ← sm_gets file_status;
  m ← sm_gets mode;
  if PF_FAILURE status then fail status;; mret false
  else if negb (has m PF_FILE_MODE_WRITE) then fail PF_STATUS_INVALID_MODE;; mret false
  else mret true.

(** [memcpy_or_zero_initialize] of [size] bytes to an offset of a buffer. *)
Definition memcpy_or_zero_initialize (dest : bytes) (off : Z) (src : option bytes) (size : Z) : bytes :=
  splice off (match src with Some b => take (Z.to_nat size) b | None => zeros size end) dest.

(** [data_to_write += n] *)
Definition advance (n : Z) (src : option bytes) : option bytes := drop (Z.to_nat n) <$> src.

(** The file grows with the offset. *)
Definition grow (offset : Z) : M unit :=
  sm_modify (fun s =>
    let e := encrypted_part_plain s in
    if file_size e <? offset then set_encrypted_part_plain (set_size offset e) s else s).

(** [while (file_mht_node->node_number != 0) { .. need_writing = true; .. }] *)
Fixpoint mark_parents (fuel : nat) (ptr : Z) : M unit :=
  n ← deref ptr;
  if node_number n =? 0 then mret ()
  else
    match fuel with
    | O => sm_bug
    | S fuel' => store ptr (set_node_need_writing true n);; mark_parents fuel' (parent n)
    end.

Definition mark_dirty (ptr : Z) : M unit :=
  n ← deref ptr;
  if node_need_writing n then mret ()
  else
    store ptr (set_node_need_writing true n);;
    mark_parents DEPTH (parent n);;
    update ROOT (set_node_need_writing true);;
    sm_modify (set_need_writing true).

(** The loop of [ipf_write]; returns [data_left_to_write]. *)
Fixpoint write_loop (fuel : nat) (data : option bytes) (offset remaining : Z) : M Z :=
  if remaining <=? 0 then mret remaining
  else
    match fuel with
    | O => sm_bug
    | S fuel' =>
        node ← ipf_get_data_node offset;
        match node with
        | None => mret remaining
        | Some ptr =>
            let offset_in_node := (offset - MD_USER_DATA_SIZE) mod PF_NODE_SIZE in
            let size_to_write := Z.min remaining (PF_NODE_SIZE - offset_in_node) in
            update ptr (fun n => set_decrypted (memcpy_or_zero_initialize (decrypted n) offset_in_node data size_to_write) n);;
            grow (u64 (offset + size_to_write));;
            mark_dirty ptr;;
            write_loop fuel' (advance size_to_write data) (u64 (offset + size_to_write)) (remaining - size_to_write)
        end
    end.

(** Enough rounds for [n] bytes: every round but the first and the last handles a whole node. *)
Definition rounds (n : Z) : nat := Z.to_nat (n / PF_NODE_SIZE + 2).

(** The part of [ipf_write] that goes to the metadata node. *)
Definition write_metadata (data : option bytes) (offset size_to_write : Z) : M unit :=
  sm_modify (fun s =>
    let e := encrypted_part_plain s in
    set_encrypted_part_plain (set_md_data (memcpy_or_zero_initialize (md_data e) offset data size_to_write) e) s);;
  grow (offset + size_to_write);;
  sm_modify (set_need_writing true).

(** The number of bytes written. *)
Definition ipf_write (data : option bytes) (offset size : Z) : M Z :=
  if size =? 0 then fail PF_STATUS_INVALID_PARAMETER;; mret 0
  else
    ok ← ipf_check_writable;
    if negb ok then mret 0
    else
      let size_to_write := if offset <? MD_USER_DATA_SIZE then Z.min size (MD_USER_DATA_SIZE - offset) else 0 in
      (if offset <? MD_USER_DATA_SIZE then write_metadata data offset size_to_write else mret ());;
      remaining ← write_loop (rounds size) (advance size_to_write data) (offset + size_to_write) (size - size_to_write);
      mret (size - remaining).

(** The loop of [ipf_read]; returns [data_left_to_read] and the bytes put into the buffer. *)
Fixpoint read_loop (fuel : nat) (offset remaining : Z) (out : bytes) : M (Z * bytes) :=
  if remaining <=? 0 then mret (remaining, out)
  else
    match fuel with
    | O => sm_bug
    | S fuel' =>
        node ← ipf_get_data_node offset;
        match node with
        | None => mret (remaining, out)
        | Some ptr =>
            let offset_in_node := (offset - MD_USER_DATA_SIZE) mod PF_NODE_SIZE in
            let size_to_read := Z.min remaining (PF_NODE_SIZE - offset_in_node) in
            n ← deref ptr;
            read_loop fuel' (u64 (offset + size_to_read)) (remaining - size_to_read)
              (out ++ slice offset_in_node size_to_read (decrypted n))
        end
    end.

(** The number of bytes read and the bytes themselves; [ptr] tells whether there is a buffer. *)
Definition ipf_read (ptr : bool) (offset size : Z) : M (Z * bytes) :=
  if negb ptr then fail PF_STATUS_INVALID_PARAMETER;; mret (0, [])
  else
    status ← sm_gets file_status;
    m ← sm_gets mode;
    if PF_FAILURE status then fail status;; mret (0, [])
    else if negb (has m PF_FILE_MODE_READ) then fail PF_STATUS_INVALID_MODE;; mret (0, [])
    else
      e ← sm_gets encrypted_part_plain;
      let attempted := if u64 (file_size e - offset) <? size then u64 (file_size e - offset) else size in
      let size_to_read := if offset <? MD_USER_DATA_SIZE then Z.min attempted (MD_USER_DATA_SIZE - offset) else 0 in
      let out := if offset <? MD_USER_DATA_SIZE then slice offset size_to_read (md_data e) else [] in
      '(remaining, out1) ← read_loop (rounds attempted) (offset + size_to_read) (attempted - size_to_read) out;
      mret (attempted - remaining, out1).
(** ** Opening and closing *)

(** [strlen]; [None] if the bytes have no end of string. *)
Fixpoint strlen (b : bytes) : option Z :=
  match b with
  | [] => None
  | c :: b' => if c =? 0 then Some 0 else n ← strlen b'; Some (n + 1)
  end.

(** [ipf_init_fields] on a fresh context. *)
Definition ipf_init_fields (h : H) : pf_context H :=
  Pf metadata_node_zero PF_STATUS_SUCCESS metadata_encrypted_zero 0 false PF_STATUS_UNINITIALIZED (zeros PF_KEY_SIZE)
    lruc_create {[ROOT := ipf_init_root_mht]} 1 h.

(** A path is the bytes before the end of the string. *)
Definition ipf_init_new_file (p : option bytes) : M bool :=
  new_path ← lift_opt p;
  sm_modify (fun s => set_file_metadata (set_header (file_metadata s)) s);;
  sm_modify (fun s =>
    let e := encrypted_part_plain s in set_encrypted_part_plain (set_path (splice 0 (new_path ++ [0]) (path e)) e) s);;
  sm_modify (set_need_writing true);;
  ipf_internal_flush.

Definition read_root : M bool :=
  '(ok, cipher) ← ipf_read_node 1;
  update ROOT (set_encrypted cipher);;
  if negb ok then mret false
  else
    e ← sm_gets encrypted_part_plain;
    let '(status, plain) := g_cb_aes_gcm_decrypt (mht_key e) cipher (mht_gmac e) in
    update ROOT (set_decrypted plain);;
    if PF_FAILURE status then fail status;; mret false else mret true.

Definition ipf_init_existing_file (p : option bytes) : M bool :=
  '(ok, b) ← ipf_read_node 0;
  let fm := metadata_node_of_bytes b in
  sm_modify (set_file_metadata fm);;
  if negb ok then mret false
  else if negb (file_id (plain_part fm) =? PF_FILE_ID) then fail PF_STATUS_INVALID_HEADER;; mret false
  else if negb (major_version (plain_part fm) =? PF_MAJOR_VERSION) then fail PF_STATUS_INVALID_VERSION;; mret false
  else
    '(ok1, key) ← ipf_restore_current_metadata_key;
    if negb ok1 then mret false
    else
      let '(status, plain) := g_cb_aes_gcm_decrypt key (encrypted_part fm) (metadata_gmac (plain_part fm)) in
      let e := metadata_encrypted_of_bytes plain in
      sm_modify (set_encrypted_part_plain e);;
      if PF_FAILURE status then fail status;; mret false
      else
        same ← (match p with
                | None => mret true
                | Some p =>
                    path_len ← lift_opt (strlen (path e));
                    mret ((path_len =? Z.of_nat (length p)) && bool_decide (p = slice 0 path_len (path e)))
                end);
        if negb same then fail PF_STATUS_INVALID_PATH;; mret false
        else if MD_USER_DATA_SIZE <? file_size e then read_root else mret true.

Definition ipf_try_clear_error : M unit :=
  status ← sm_gets file_status;
  if (status =? PF_STATUS_UNINITIALIZED) || (status =? PF_STATUS_CRYPTO_ERROR) || (status =? PF_STATUS_CORRUPTED) then mret ()
  else
    (if status =? PF_STATUS_FLUSH_ERROR then
       ok ← ipf_internal_flush; if ok : bool then sm_modify (set_file_status PF_STATUS_SUCCESS) else mret ()
     else mret ());;
    status1 ← sm_gets file_status;
    (if status1 =? PF_STATUS_WRITE_TO_DISK_FAILED then
       ok ← ipf_write_all_changes_to_disk;
       if ok : bool then sm_modify (set_need_writing false);; sm_modify (set_file_status PF_STATUS_SUCCESS) else mret ()
     else mret ());;
    status2 ← sm_gets file_status;
    if status2 =? PF_STATUS_SUCCESS then fail PF_STATUS_SUCCESS else mret ().

(** The body of [ipf_open] from the checks of its arguments on; [file] tells whether there is
    a handle. *)
Definition ipf_open_body (p : option bytes) (m : Z) (create file : bool) (real_size : Z) (kdk_key : option bytes) : M unit :=
  match kdk_key with
  | None => fail PF_STATUS_INVALID_PARAMETER
  | Some kdk =>
      if match p with Some p => PATH_MAX_SIZE - 1 <? Z.of_nat (length p) | None => false end then fail PF_STATUS_PATH_TOO_LONG
      else
        sm_modify (fun s => Pf (file_metadata s) (last_error s) (encrypted_part_plain s) (mode s) (need_writing s)
          (file_status s) kdk (cache s) (heap s) (next_ptr s) (host s));;
        if negb file then fail PF_STATUS_INVALID_PARAMETER
        else if negb (real_size mod PF_NODE_SIZE =? 0) then fail PF_STATUS_INVALID_HEADER
        else
          sm_modify (fun s => Pf (file_metadata s) (last_error s) (encrypted_part_plain s) m (need_writing s)
            (file_status s) (user_kdk_key s) (cache s) (heap s) (next_ptr s) (host s));;
          ok ← (if create then ipf_init_new_file p else ipf_init_existing_file p);
          if negb ok then mret ()
          else sm_modify (set_file_status PF_STATUS_SUCCESS);; fail PF_STATUS_SUCCESS
  end.

(** The status, the context unless opening failed, and the state of the host. *)
Definition ipf_open (p : option bytes) (m : Z) (create file : bool) (real_size : Z) (kdk_key : option bytes) (h : H) :
    option (Z * option (pf_context H) * H) :=
  match ipf_open_body p m create file real_size kdk_key (ipf_init_fields h) with
  | None => None
  | Some (_, s) => Some (last_error s, if PF_FAILURE (last_error s) then None else Some s, host s)
  end.

(** [while ((data = lruc_get_last(..)) != NULL) { .. free(..); lruc_remove_last(..); }] *)
Fixpoint free_cached (fuel : nat) : M unit :=
  data ← cache_last;
  match data with
  | None => mret ()
  | Some ptr =>
      match fuel with
      | O => sm_bug
      | S fuel' => free ptr;; cache_remove_last;; free_cached fuel'
      end
  end.

Definition free_all_cached : M unit :=
  len ← sm_gets (fun s => length (lruc_list (cache s)));
  free_cached len.

(** [erase_memory(pf, sizeof(struct pf_context))] *)
Definition erase_context (s : pf_context H) : pf_context H :=
  Pf metadata_node_zero 0 metadata_encrypted_zero 0 false 0 (zeros PF_KEY_SIZE) lruc_create (heap s) (next_ptr s) (host s).

Definition ipf_close : M bool :=
  status ← sm_gets file_status;
  retval ← (if PF_FAILURE status then ipf_try_clear_error;; mret false else ipf_internal_flush);
  sm_modify (set_file_status PF_STATUS_UNINITIALIZED);;
  free_all_cached;;
  sm_modify (set_encrypted_part_plain metadata_encrypted_zero);;
  c ← sm_gets cache;
  lift_opt (lruc_destroy c);;
  sm_modify erase_context;;
  mret retval.
(** ** Public API *)

Definition pf_open (p : option bytes) (underlying_size m : Z) (create file : bool) (key : option bytes) (h : H) :
    option (Z * option (pf_context H) * H) :=
  if negb g_initialized then Some (PF_STATUS_UNINITIALIZED, None, h)
  else ipf_open p m create file underlying_size key h.

Definition pf_close : M Z :=
  if negb g_initialized then mret PF_STATUS_UNINITIALIZED
  else
    ok ← ipf_close;
    if ok : bool then mret PF_STATUS_SUCCESS else sm_gets last_error.

Definition pf_get_size : M (Z * Z) :=
  if negb g_initialized then mret (PF_STATUS_UNINITIALIZED, 0)
  else e ← sm_gets encrypted_part_plain; mret (PF_STATUS_SUCCESS, file_size e).

(** [pf_set_size] to 0, after the file of the host has been truncated. *)
Definition clear_file : M unit :=
  e ← sm_gets encrypted_part_plain;
  path_len ← lift_opt (strlen (path e));
  sm_modify (set_encrypted_part_plain (set_path (splice 0 (slice 0 path_len (path e)) (zeros PATH_MAX_SIZE)) metadata_encrypted_zero));;
  sm_modify (set_file_metadata (set_header metadata_node_zero));;
  update ROOT (fun _ => ipf_init_root_mht);;
  sm_modify (set_need_writing true);;
  free_all_cached.

Definition truncate (size : Z) : M Z := fun s =>
  let '(status, h) := g_cb_truncate (host s) size in Some (status, set_host h s).

Definition pf_set_size (size : Z) : M Z :=
  if negb g_initialized then mret PF_STATUS_UNINITIALIZED
  else
    m ← sm_gets mode;
    e ← sm_gets encrypted_part_plain;
    if negb (has m PF_FILE_MODE_WRITE) then mret PF_STATUS_INVALID_MODE
    else if size =? file_size e then mret PF_STATUS_SUCCESS
    else if file_size e <? size then
      n ← ipf_write None (file_size e) (size - file_size e);
      if n =? size - file_size e then mret PF_STATUS_SUCCESS else sm_gets last_error
    else if size =? 0 then
      status ← truncate 0;
      if PF_FAILURE status then mret status else clear_file;; mret PF_STATUS_SUCCESS
    else mret PF_STATUS_NOT_IMPLEMENTED.

Definition pf_rename (new_path : bytes) : M Z :=
  if negb g_initialized then mret PF_STATUS_UNINITIALIZED
  else
    m ← sm_gets mode;
    if negb (has m PF_FILE_MODE_WRITE) then mret PF_STATUS_INVALID_MODE
    else if PATH_MAX_SIZE <? Z.of_nat (length new_path) + 1 then mret PF_STATUS_PATH_TOO_LONG
    else
      sm_modify (fun s => set_encrypted_part_plain
        (set_path (splice 0 (new_path ++ [0]) (zeros PATH_MAX_SIZE)) (encrypted_part_plain s)) s);;
      sm_modify (set_need_writing true);;
      ok ← ipf_internal_flush;
      if ok : bool then mret PF_STATUS_SUCCESS else sm_gets last_error.

(** The status, [*bytes_read] if it is set, and the bytes in [output]. *)
Definition pf_read (offset size : Z) (output : bool) : M (Z * option Z * bytes) :=
  if negb g_initialized then mret (PF_STATUS_UNINITIALIZED, None, [])
  else if size =? 0 then mret (PF_STATUS_SUCCESS, Some 0, [])
  else
    status ← sm_gets file_status;
    e ← sm_gets encrypted_part_plain;
    if PF_FAILURE status then fail status;; mret (status, None, [])
    else if file_size e <=? offset then mret (PF_STATUS_SUCCESS, Some 0, [])
    else
      '(n, out) ← ipf_read output offset size;
      if n =? 0 then error ← sm_gets last_error; mret (error, None, out)
      else mret (PF_STATUS_SUCCESS, Some n, out).

Definition pf_write (offset size : Z) (input : option bytes) : M Z :=
  if negb g_initialized then mret PF_STATUS_UNINITIALIZED
  else
    ok ← ipf_check_writable;
    if negb ok then sm_gets last_error
    else
      e ← sm_gets encrypted_part_plain;
      ret ← (if file_size e <? offset then pf_set_size offset else mret PF_STATUS_SUCCESS);
      if PF_FAILURE ret then fail ret;; mret ret
      else
        n ← ipf_write input offset size;
        if n =? size then mret PF_STATUS_SUCCESS else sm_gets last_error.

Definition fsync : M Z := fun s => let '(status, h) := g_cb_fsync (host s) in Some (status, set_host h s).

Definition pf_flush : M Z :=
  if negb g_initialized then mret PF_STATUS_UNINITIALIZED
  else
    ok ← ipf_internal_flush;
    if negb ok then sm_gets last_error
    else
      status ← fsync;
      if PF_FAILURE status then fail status;; mret status else mret PF_STATUS_SUCCESS.
End pf.
