(* ===== verification/PfInv.v ===== *)
(** * Protected files: callbacks, and the invariant of an open file

    The theorems are proved in several settings at once.  If [strict] is true, the host keeps
    the file as it is written and all callbacks succeed: then every operation succeeds.  If
    [strict] is false, the host may return anything for a read and any callback may fail: then
    every result that is returned is still right.  As long as no operation has failed, the tree
    in memory is [intact] and nothing aborts; after a failure, the parent of a node in memory
    may be lost, and a later operation may run into it. *)

From S2P Require Import Prelude LruCache PfLayout PfFormat PfSort ProtFiles.

(** ** What the code relies on

    [disk] is the file of an honest host, by nodes. *)
Class callbacks_ok {H : Type} {CB : pf_callbacks H} (strict : bool) (disk : H -> Z -> option bytes) : Prop := {
  ok_initialized : g_initialized = true;

  (* Buffers have their sizes. *)
  read_sized h off n st b h' : g_cb_read h off n = (st, b, h') -> sized n b;
  random_sized h n st b h' : g_cb_random h n = (st, b, h') -> sized n b;
  cmac_sized k b st m : g_cb_aes_cmac k b = (st, m) -> sized PF_KEY_SIZE m;
  encrypt_sized k p st c m : g_cb_aes_gcm_encrypt k p = (st, c, m) -> length c = length p /\ sized PF_MAC_SIZE m;
  decrypt_sized k c m st p : g_cb_aes_gcm_decrypt k c m = (st, p) -> length p = length c;

  (* Authenticated encryption: what the host delivers is rejected, or has been encrypted
     under the key with this MAC. *)
  no_forgery k p c m h off n c' h' p' :
    strict = false -> g_cb_aes_gcm_encrypt k p = (PF_STATUS_SUCCESS, c, m) ->
    g_cb_read h off n = (PF_STATUS_SUCCESS, c', h') -> g_cb_aes_gcm_decrypt k c' m = (PF_STATUS_SUCCESS, p') -> p' = p;

  (* An honest host and working cryptography. *)
  strict_read h n b :
    strict = true -> disk h n = Some b -> 0 <= n < 2 ^ 52 ->
    exists h', g_cb_read h (n * PF_NODE_SIZE) PF_NODE_SIZE = (PF_STATUS_SUCCESS, b, h') /\ forall n', disk h' n' = disk h n';
  strict_write h n b :
    strict = true -> sized PF_NODE_SIZE b -> 0 <= n < 2 ^ 52 ->
    exists h', g_cb_write h b (n * PF_NODE_SIZE) = (PF_STATUS_SUCCESS, h') /\
      forall n', disk h' n' = if n' =? n then Some b else disk h n';
  strict_fsync h : strict = true -> exists h', g_cb_fsync h = (PF_STATUS_SUCCESS, h') /\ forall n', disk h' n' = disk h n';
  strict_truncate h n : strict = true -> exists h', g_cb_truncate h n = (PF_STATUS_SUCCESS, h');
  strict_random h n :
    strict = true -> exists b h', g_cb_random h n = (PF_STATUS_SUCCESS, b, h') /\ forall n', disk h' n' = disk h n';
  strict_cmac k b : strict = true -> exists m, g_cb_aes_cmac k b = (PF_STATUS_SUCCESS, m);
  strict_encrypt k p : strict = true -> exists c m, g_cb_aes_gcm_encrypt k p = (PF_STATUS_SUCCESS, c, m);
  strict_decrypt k p c m :
    strict = true -> g_cb_aes_gcm_encrypt k p = (PF_STATUS_SUCCESS, c, m) -> g_cb_aes_gcm_decrypt k c m = (PF_STATUS_SUCCESS, p);
}.

(** ** Programs that may abort unless [total] *)

Section pwp.
Context {S : Type} (total : bool).

Definition pwp {A} (m : SM S A) (Q : A -> S -> Prop) (s : S) : Prop :=
  match m s with
  | Some (a, s') => Q a s'
  | None => total = false
  end.

Lemma pwp_ret {A} (a : A) (Q : A -> S -> Prop) s : Q a s -> pwp (mret a) Q s.
Proof. done. Qed.

Lemma pwp_bind {A B} (m : SM S A) (f : A -> SM S B) (Q : B -> S -> Prop) s :
  pwp m (fun a s' => pwp (f a) Q s') s -> pwp (m ≫= f) Q s.
Proof. unfold pwp, mbind, SM_bind. by destruct (m s) as [[a s']|]. Qed.

Lemma pwp_mono {A} (m : SM S A) (P Q : A -> S -> Prop) s :
  pwp m P s -> (forall a s', P a s' -> Q a s') -> pwp m Q s.
Proof. unfold pwp. destruct (m s) as [[a s']|]; auto. Qed.

Lemma pwp_and {A} (m : SM S A) (P Q : A -> S -> Prop) s : pwp m P s -> pwp m Q s -> pwp m (fun a s' => P a s' /\ Q a s') s.
Proof. unfold pwp. by destruct (m s) as [[a s']|]. Qed.

Lemma pwp_assoc {A B C} (m : SM S A) (f : A -> SM S B) (g : B -> SM S C) (Q : C -> S -> Prop) s :
  pwp (m ≫= fun a => f a ≫= g) Q s -> pwp ((m ≫= f) ≫= g) Q s.
Proof. unfold pwp, mbind, SM_bind. by destruct (m s) as [[a s']|]. Qed.

Lemma pwp_gets {A} (f : S -> A) (Q : A -> S -> Prop) s : Q (f s) s -> pwp (sm_gets f) Q s.
Proof. done. Qed.

Lemma pwp_modify f (Q : unit -> S -> Prop) s : Q () (f s) -> pwp (sm_modify f) Q s.
Proof. done. Qed.

Lemma pwp_assert b (Q : unit -> S -> Prop) s : b = true -> Q () s -> pwp (sm_assert b) Q s.
Proof. by intros ->. Qed.
End pwp.

Lemma pwp_any {S A} total (m : SM S A) (Q : A -> S -> Prop) s : pwp true m Q s -> pwp total m Q s.
Proof. unfold pwp. by destruct (m s) as [[a s']|]. Qed.

(** What is known of the results, if there is one, may be proved apart. *)
Lemma pwp_and_false {S A} total (m : SM S A) (P Q : A -> S -> Prop) s :
  pwp total m P s -> pwp false m Q s -> pwp total m (fun a s' => P a s' /\ Q a s') s.
Proof. unfold pwp. by destruct (m s) as [[a s']|]. Qed.

Lemma pwp_wp {S A} (m : SM S A) (Q : A -> S -> Prop) s : pwp true m Q s -> wp m Q s.
Proof. unfold pwp, wp. by destruct (m s) as [[a s']|]. Qed.

Ltac pwp_step :=
  lazymatch goal with
  | |- pwp _ (mbind _ _) _ _ => apply pwp_bind
  | |- pwp _ (mret _) _ _ => apply pwp_ret
  | |- pwp _ (sm_gets _) _ _ => apply pwp_gets
  | |- pwp _ (sm_modify _) _ _ => apply pwp_modify
  end.
Ltac pwp_steps := repeat (pwp_step; cbn beta iota).

(** ** The logical tree

    [T] is the contents of the MHT nodes by their numbers, [D] that of the data nodes. *)
Definition body (T D : Z -> bytes) (x : nref) : bytes :=
  match x with
  | Data d => D d
  | Mht n => T n
  end.

(** The same contents but for one node. *)
Definition upd (f : Z -> bytes) (k : Z) (b : bytes) (i : Z) : bytes := if i =? k then b else f i.

Lemma upd_eq f k b : upd f k b k = b.
Proof. unfold upd. by rewrite Z.eqb_refl. Qed.

Lemma upd_ne f k b i : i <> k -> upd f k b i = f i.
Proof. intros. unfold upd. by rewrite (proj2 (Z.eqb_neq i k)). Qed.

Definition key_of (T : Z -> bytes) (x : nref) : bytes := crypto_key (slot x) (T (up x)).
Definition gmac_of (T : Z -> bytes) (x : nref) : bytes := crypto_gmac (slot x) (T (up x)).

(** The number of data nodes of a file. *)
Definition data_nodes (size : Z) : Z := Z.max 0 ((size - MD_USER_DATA_SIZE + PF_NODE_SIZE - 1) / PF_NODE_SIZE).

(** A tree with [nb] data nodes has the node [x]. *)
Definition in_tree (nb : Z) (x : nref) : Prop :=
  match x with
  | Data d => 0 <= d < nb
  | Mht n => 0 <= n /\ ATTACHED_DATA_NODES_COUNT * n < nb
  end.

Lemma in_tree_valid nb x : in_tree nb x -> valid x.
Proof. destruct x; simpl; lia. Qed.

Lemma in_tree_mono nb nb' x : nb <= nb' -> in_tree nb x -> in_tree nb' x.
Proof. destruct x; simpl; lia. Qed.

Lemma in_tree_up nb x : inner x -> in_tree nb x -> in_tree nb (Mht (up x)).
Proof.
  destruct x as [d|n]; unfold in_tree; layout; intros [? Hne]; [|assert (n <> 0) by congruence]; Z.to_euclidean_division_equations; lia.
Qed.

Lemma in_tree_phys nb x : nb < 2 ^ 51 -> in_tree nb x -> 1 <= phys x < 2 ^ 52.
Proof. destruct x; unfold in_tree; layout; intros; Z.to_euclidean_division_equations; lia. Qed.

Definition node_type_of (x : nref) : mht_node_type_e :=
  match x with Data _ => FILE_DATA_NODE_TYPE | Mht _ => FILE_MHT_NODE_TYPE end.
Definition number_of (x : nref) : Z := match x with Data d => d | Mht n => n end.

(** The node structure [n] holds the logical node [x]. *)
Record node_ok (T D : Z -> bytes) (x : nref) (n : file_node_t) : Prop := {
  no_type : node_type n = node_type_of x;
  no_number : node_number n = number_of x;
  no_phys : physical_node_number n = phys x;
  no_body : decrypted n = body T D x;
}.

(** Bounds on files: offsets stay far below [2 ^ 64]. *)
Definition MAX_SIZE : Z := 2 ^ 62.

Section inv.
Context {H : Type} `{CB : !pf_callbacks H} (strict intact : bool) (disk : H -> Z -> option bytes).
Implicit Types (s : pf_context H) (T D : Z -> bytes).

(** Where a logical node is in memory. *)
Definition ptr_of (s : pf_context H) (x : nref) : option Z :=
  if decide (x = Mht 0) then Some ROOT else lruc_map (cache s) !! phys x.

(** The parent of [x] is in memory, unless a failure has lost it. *)
Definition parent_ok (s : pf_context H) (x : nref) (n : file_node_t) : Prop :=
  ptr_of s (Mht (up x)) = Some (parent n) \/ intact = false /\ heap s !! parent n = None /\ parent n < next_ptr s.

(** Nodes in memory hold their logical contents. *)
Record core T D s : Prop := {
  co_root : exists n, heap s !! ROOT = Some n /\ node_ok T D (Mht 0) n;
  co_lru : lruc_ok (cache s);
  co_nodes : forall key ptr, lruc_map (cache s) !! key = Some ptr ->
    exists x n, key = phys x /\ inner x /\ ptr <> ROOT /\ heap s !! ptr = Some n /\ node_ok T D x n /\ parent_ok s x n;
  co_next : forall ptr, is_Some (heap s !! ptr) -> ROOT <= ptr < next_ptr s;
  co_sized : forall x, sized PF_NODE_SIZE (body T D x);
}.

Definition dirty s x : Prop :=
  exists ptr n, ptr_of s x = Some ptr /\ heap s !! ptr = Some n /\ node_need_writing n = true.

(** The parent of a node that has changed is in memory, in any case. *)
Definition live s : Prop :=
  forall x ptr n, inner x -> ptr_of s x = Some ptr -> heap s !! ptr = Some n -> node_need_writing n = true ->
    ptr_of s (Mht (up x)) = Some (parent n).

(** The parent has the key and MAC under which the host has the node. *)
Definition sealed (h : H) T D x : Prop :=
  exists c, g_cb_aes_gcm_encrypt (key_of T x) (body T D x) = (PF_STATUS_SUCCESS, c, gmac_of T x) /\
    (strict = true -> disk h (phys x) = Some c).

(** The same for the root, whose key and MAC are in the metadata. *)
Definition root_sealed (h : H) (e : metadata_encrypted_t) T : Prop :=
  exists c, g_cb_aes_gcm_encrypt (mht_key e) (T 0) = (PF_STATUS_SUCCESS, c, mht_gmac e) /\
    (strict = true -> disk h 1 = Some c).

(** The metadata node [m] holds the encryption of [e]. *)
Definition meta_sealed (kdk : bytes) (e : metadata_encrypted_t) (m : metadata_node_t) : Prop :=
  exists key, g_cb_aes_cmac kdk (kdf_input (metadata_key_id (plain_part m))) = (PF_STATUS_SUCCESS, key) /\
    g_cb_aes_gcm_encrypt key (metadata_encrypted_bytes e) = (PF_STATUS_SUCCESS, encrypted_part m, metadata_gmac (plain_part m)).

(** The metadata of an open file. *)
Record meta_ok (s : pf_context H) : Prop := {
  mo_plain : metadata_encrypted_ok (encrypted_part_plain s);
  mo_node : metadata_node_ok (file_metadata s);
  mo_id : file_id (plain_part (file_metadata s)) = PF_FILE_ID;
  mo_version : major_version (plain_part (file_metadata s)) = PF_MAJOR_VERSION;
  mo_size : file_size (encrypted_part_plain s) <= MAX_SIZE;
}.

Definition nb s : Z := data_nodes (file_size (encrypted_part_plain s)).

(** The invariant between operations: [extra] is 1 while a node has been appended to the tree
    but not to the file. *)
Record inv (extra : Z) T D s : Prop := {
  in_core : core T D s;
  in_live : live s;
  in_cached : forall x, inner x -> is_Some (ptr_of s x) -> in_tree (nb s + extra) x;
  in_dirty : forall x, valid x -> dirty s x -> in_tree (nb s) x;
  in_dirty_up : forall x, inner x -> dirty s x -> dirty s (Mht (up x));
  in_need : dirty s (Mht 0) -> need_writing s = true;
  in_sealed : forall x, inner x -> in_tree (nb s) x -> ~ dirty s x -> sealed (host s) T D x;
  in_root : ~ dirty s (Mht 0) -> in_tree (nb s) (Mht 0) -> root_sealed (host s) (encrypted_part_plain s) T;
  in_meta : meta_ok s;
  in_synced : strict = true -> need_writing s = false ->
    meta_sealed (user_kdk_key s) (encrypted_part_plain s) (file_metadata s) /\
    disk (host s) 0 = Some (metadata_node_bytes (file_metadata s));
}.

(** Parents are more recently used than their children: so the least recently used node is
    nobody's parent.  [seen] is what comes before the list. *)
Fixpoint ordered (seen l : list Z) : Prop :=
  match l with
  | [] => True
  | k :: l' => (forall x, inner x -> phys x = k -> up x <> 0 -> phys (Mht (up x)) ∈ seen) /\ ordered (k :: seen) l'
  end.

(** ** Basic consequences *)

Lemma ptr_of_root s : ptr_of s (Mht 0) = Some ROOT.
Proof. unfold ptr_of. by rewrite decide_True. Qed.

Lemma ptr_of_inner s x : inner x -> ptr_of s x = lruc_map (cache s) !! phys x.
Proof. intros [_ Hne]. unfold ptr_of. by rewrite decide_False. Qed.

Lemma valid_inner x : valid x -> x = Mht 0 \/ inner x.
Proof. intros. destruct (decide (x = Mht 0)); [by left|by right]. Qed.

Lemma inner_mht n : 0 < n -> inner (Mht n).
Proof. intros. split; [simpl; lia|]. intros [=]. lia. Qed.

Lemma inner_data d : 0 <= d -> inner (Data d).
Proof. done. Qed.

Lemma inner_valid x : inner x -> valid x.
Proof. by intros []. Qed.

Lemma core_node T D s x ptr : core T D s -> valid x -> ptr_of s x = Some ptr -> exists n, heap s !! ptr = Some n /\ node_ok T D x n.
Proof.
  intros Hc Hx Hp. destruct (valid_inner x Hx) as [->|Hi].
  - rewrite ptr_of_root in Hp. simplify_eq. apply Hc.
  - rewrite ptr_of_inner in Hp by done. destruct (co_nodes _ _ _ Hc _ _ Hp) as (y & n & E & Hy & _ & Hn & Hok & _).
    apply phys_inj in E; [|done|by destruct Hy]. subst y. eauto.
Qed.

Lemma core_parent T D s x ptr n :
  core T D s -> inner x -> ptr_of s x = Some ptr -> heap s !! ptr = Some n -> parent_ok s x n.
Proof.
  intros Hc Hx Hp Hn. rewrite ptr_of_inner in Hp by done. destruct (co_nodes _ _ _ Hc _ _ Hp) as (y & n' & E & Hy & _ & Hn' & _ & Hpa).
  apply phys_inj in E; [|by destruct Hx|by destruct Hy]. subst y. by simplify_eq.
Qed.

(** Different nodes are at different places. *)
Lemma ptr_inj T D s x y ptr : core T D s -> valid x -> valid y -> ptr_of s x = Some ptr -> ptr_of s y = Some ptr -> x = y.
Proof.
  intros Hc Hx Hy Px Py. destruct (core_node _ _ _ _ _ Hc Hx Px) as (n & Hn & Ox). destruct (core_node _ _ _ _ _ Hc Hy Py) as (n' & Hn' & Oy).
  simplify_eq. apply phys_inj; try done. by rewrite <- (no_phys _ _ _ _ Ox), (no_phys _ _ _ _ Oy).
Qed.

Lemma ptr_not_root T D s x ptr : core T D s -> inner x -> ptr_of s x = Some ptr -> ptr <> ROOT.
Proof.
  intros Hc Hi Hp ->. assert (x = Mht 0); [|by destruct Hi].
  eapply (ptr_inj _ _ _ _ _ ROOT Hc); [by apply inner_valid|done|done|apply ptr_of_root].
Qed.

Lemma dirty_iff s x ptr n : ptr_of s x = Some ptr -> heap s !! ptr = Some n -> dirty s x <-> node_need_writing n = true.
Proof. intros Hp Hn. split; [intros (p & m & ? & ? & ?); by simplify_eq|intros; by exists ptr, n]. Qed.

Lemma not_cached_clean s x : ptr_of s x = None -> ~ dirty s x.
Proof. intros E (p & m & ? & ? & ?). by simplify_eq. Qed.

Lemma clean_live s : (forall x, valid x -> ~ dirty s x) -> live s.
Proof. intros Hcl x ptr n Hx Hp Hn Hw. destruct (Hcl x (inner_valid _ Hx)). by exists ptr, n. Qed.

(** No other node has changed, and the nodes that have changed have their parents. *)
Lemma live_same s s' :
  live s -> (forall x, ptr_of s' x = ptr_of s x) ->
  (forall q n', heap s' !! q = Some n' -> node_need_writing n' = true ->
     exists n, heap s !! q = Some n /\ node_need_writing n = true /\ parent n = parent n') -> live s'.
Proof.
  intros Hl Hp Hh x ptr n' Hx Hpx Hn Hw. rewrite Hp in *. destruct (Hh _ _ Hn Hw) as (n & ? & ? & <-). by eapply Hl.
Qed.
End inv.

(** An intact tree is one from which nothing has been lost. *)
Lemma inv_weaken {H : Type} `{CB : !pf_callbacks H} strict intact disk e T D (s : pf_context H) :
  inv strict intact disk e T D s -> inv strict false disk e T D s.
Proof.
  intros [[? ? Hn ? ?] ? ? ? ? ? ? ? ? ?]. split; try done. split; try done. intros k q Hk. destruct (Hn k q Hk) as (x & n & ? & ? & ? & ? & ? & [Hp|(_ & Hp & ?)]);
    exists x, n; (split_and!; try done); [by left|by right].
Qed.
