(* ===== verification/PfBad.v ===== *)
(** * Protected files: a file marked as unusable stays so

    Once [file_status] is an error, no operation short of [pf_close] resets it. *)

From S2P Require Import Prelude LruCache PfLayout PfFormat PfSort ProtFiles PfInv.

Section class.
Context {H : Type}.
Implicit Types s : pf_context H.

(** A property of the context that only looks at its errors. *)
Class sticky (P : pf_context H -> Prop) : Prop := {
  sticky_heap x s : P s -> P (set_heap x s);
  sticky_cache x s : P s -> P (set_cache x s);
  sticky_host x s : P s -> P (set_host x s);
  sticky_need x s : P s -> P (set_need_writing x s);
  sticky_metadata x s : P s -> P (set_file_metadata x s);
  sticky_plain x s : P s -> P (set_encrypted_part_plain x s);
  sticky_error st s : PF_FAILURE st = true -> P s -> P (set_last_error st s);
  sticky_status st s : PF_FAILURE st = true -> P s -> P (set_file_status st s);
}.

End class.

Ltac sticky :=
  repeat first [assumption | apply sticky_heap | apply sticky_cache | apply sticky_host | apply sticky_need | apply sticky_metadata
    | apply sticky_plain | apply sticky_error; [done|] | apply sticky_status; [done|]].

Section bad.
Context {H : Type} `{CB : !pf_callbacks H}.
Implicit Types s : pf_context H.
Abbreviation M := (SM (pf_context H)).

(** The file is unusable; an error has been reported. *)
Definition bad s : Prop := PF_FAILURE (file_status s) = true.
Definition erred s : Prop := PF_FAILURE (last_error s) = true.

#[global] Instance bad_sticky : sticky bad.
Proof. done. Qed.

#[global] Instance erred_sticky : sticky erred.
Proof. done. Qed.

Context (P : pf_context H -> Prop) `{!sticky P}.

Definition stays {A} (m : M A) : Prop := forall s, P s -> pwp false m (fun _ s' => P s') s.

Lemma bad_ret {A} (a : A) : stays (mret a).
Proof. by intros s Hs. Qed.

Lemma bad_bind {A B} (m : M A) (f : A -> M B) : stays m -> (forall a, stays (f a)) -> stays (m ≫= f).
Proof. intros Hm Hf s Hs. apply pwp_bind. eapply pwp_mono; [by apply Hm|]. intros a s' Hs'. by apply Hf. Qed.

Lemma bad_gets {A} (f : pf_context H -> A) : stays (sm_gets f).
Proof. by intros s Hs. Qed.

Lemma bad_modify f : (forall s, P s -> P (f s)) -> stays (sm_modify f).
Proof. intros Hf s Hs. by apply Hf. Qed.

Lemma bad_assert b : stays (sm_assert b).
Proof. intros s Hs. unfold pwp, sm_assert. by destruct b. Qed.

Lemma bad_bug {A} : stays (sm_bug (A := A)).
Proof. by intros s Hs. Qed.

Lemma bad_lift {A} (o : option A) : stays (lift_opt o).
Proof. intros s Hs. unfold pwp, lift_opt. by destruct o. Qed.

Lemma bad_deref ptr : stays (deref ptr).
Proof. intros s Hs. unfold pwp, deref. destruct (heap s !! ptr); try done; sticky. Qed.

Lemma bad_store ptr n : stays (store ptr n).
Proof. intros s Hs. unfold pwp, store. destruct (heap s !! ptr); try done; sticky. Qed.

Lemma bad_free ptr : stays (free ptr).
Proof. intros s Hs. unfold pwp, free. destruct (heap s !! ptr); try done; sticky. Qed.

Lemma bad_cache_last : stays cache_last.
Proof. intros s Hs. unfold pwp, cache_last. destruct (lruc_get_last (cache s)); try done; sticky. Qed.

Lemma bad_cache_remove_last : stays cache_remove_last.
Proof. intros s Hs. unfold pwp, cache_remove_last. destruct (lruc_remove_last (cache s)); try done; sticky. Qed.

Lemma bad_cache_first : stays cache_first.
Proof. intros s Hs. unfold pwp, cache_first. destruct (lruc_get_first (cache s)) as [[]|]; try done; sticky. Qed.

Lemma bad_cache_next : stays cache_next.
Proof. intros s Hs. unfold pwp, cache_next. destruct (lruc_get_next (cache s)) as [[]|]; try done; sticky. Qed.

Lemma bad_random n : stays (random n).
Proof. intros s Hs. unfold pwp, random. destruct (g_cb_random (host s) n) as [[] ?]; try done; sticky. Qed.

Lemma bad_write_node n b : stays (ipf_write_node n b).
Proof. intros s Hs. unfold pwp, ipf_write_node, ipf_write_file. destruct (g_cb_write _ _ _) as [st h]. destruct (PF_FAILURE st) eqn:?; try done; sticky. Qed.

Lemma bad_sort l : stays (sort_mht_nodes l).
Proof. intros s Hs. unfold pwp, sort_mht_nodes. destruct l; [done|]. destruct (sort_nodes _ _ _ _ _); try done; sticky. Qed.

Lemma bad_truncate n : stays (truncate n).
Proof. intros s Hs. unfold pwp, truncate. destruct (g_cb_truncate (host s) n); try done; sticky. Qed.

Lemma bad_fsync : stays fsync.
Proof. intros s Hs. unfold pwp, fsync. destruct (g_cb_fsync (host s)); try done; sticky. Qed.
End bad.

Create HintDb pf_bad discriminated.
#[export] Hint Resolve bad_ret bad_gets bad_assert bad_bug bad_lift bad_deref bad_store bad_free bad_cache_last bad_cache_remove_last
  bad_cache_first bad_cache_next bad_random bad_write_node bad_sort bad_truncate bad_fsync : pf_bad.

(** Splits a program into its parts. *)
Ltac bad_steps :=
  repeat match goal with
  | |- stays _ (mbind _ _) => apply bad_bind; [|intros ?]
  | |- stays _ (if ?b then _ else _) => destruct b eqn:?
  | |- stays _ (match ?x with _ => _ end) => destruct x
  | |- stays _ (sm_modify _) => apply bad_modify; intros ? ?; sticky
  | |- stays _ _ => solve [eauto with pf_bad]
  end.

Section bad_ops.
Context {H : Type} `{CB : !pf_callbacks H}.
Context (P : pf_context H -> Prop) `{!sticky P}.
Abbreviation M := (SM (pf_context H)).

Lemma bad_update ptr f : stays P (update ptr f).
Proof. unfold update. bad_steps. Qed.
Hint Resolve bad_update : pf_bad.

Lemma bad_fail st : PF_FAILURE st = true -> stays P (fail st).
Proof. intros. unfold fail. bad_steps. Qed.
Hint Resolve bad_fail : pf_bad.

Lemma bad_cache_loop {A} (step : A -> Z -> M (A * bool)) fuel data acc :
  (forall a p, stays P (step a p)) -> stays P (cache_loop fuel step data acc).
Proof.
  intros Hs. revert data acc. induction fuel as [|fuel IH]; intros [ptr|] acc; cbn [cache_loop]; bad_steps; auto.
Qed.

Lemma bad_for_each {A} (step : A -> Z -> M (A * bool)) acc : (forall a p, stays P (step a p)) -> stays P (for_each_cached step acc).
Proof. intros Hs. unfold for_each_cached. bad_steps. by apply bad_cache_loop. Qed.

Lemma bad_encrypt_node p q i : stays P (encrypt_node p q i).
Proof. unfold encrypt_node, ipf_generate_random_key. bad_steps. Qed.
Hint Resolve bad_encrypt_node : pf_bad.

Lemma bad_update_mht_nodes l : stays P (update_mht_nodes l).
Proof. induction l; cbn [update_mht_nodes]; bad_steps; auto. Qed.
Hint Resolve bad_update_mht_nodes : pf_bad.

Lemma bad_update_all : stays P ipf_update_all_data_and_mht_nodes.
Proof.
  unfold ipf_update_all_data_and_mht_nodes, update_root, ipf_generate_random_key. bad_steps; apply bad_for_each; intros.
  - unfold update_data_node. bad_steps.
  - unfold collect_mht_node. bad_steps.
Qed.
Hint Resolve bad_update_all : pf_bad.

Lemma bad_write_all : stays P ipf_write_all_changes_to_disk.
Proof.
  unfold ipf_write_all_changes_to_disk, tree_needs_writing. bad_steps. apply bad_for_each. intros. unfold write_dirty_node. bad_steps.
Qed.
Hint Resolve bad_write_all : pf_bad.

Lemma bad_flush : stays P ipf_internal_flush.
Proof.
  unfold ipf_internal_flush, ipf_update_metadata_node, ipf_generate_random_metadata_key, ipf_import_metadata_key, tree_needs_writing. bad_steps.
Qed.
Hint Resolve bad_flush : pf_bad.

Lemma bad_shrink fuel : stays P (shrink_cache fuel).
Proof. induction fuel; cbn [shrink_cache]; bad_steps; auto. Qed.

Lemma bad_free_all : stays P free_all_cached.
Proof. unfold free_all_cached. bad_steps. match goal with |- stays _ (free_cached ?n) => induction n end; cbn [free_cached]; bad_steps; auto. Qed.
End bad_ops.

#[export] Hint Resolve bad_sticky erred_sticky bad_update bad_fail bad_flush bad_shrink bad_free_all : pf_bad.

(** ** Failures are reported

    An operation whose result tells a failure has set [last_error]. *)
Section loud.
Context {H : Type} `{CB : !pf_callbacks H}.
Implicit Types s : pf_context H.
Abbreviation M := (SM (pf_context H)).

Definition loud {A} (fails : A -> bool) (m : M A) : Prop := forall s, pwp false m (fun a s' => fails a = true -> erred s') s.

Lemma loud_any {A} (F : A -> bool) (m : M A) : stays erred m -> forall s, erred s -> pwp false m (fun a s' => F a = true -> erred s') s.
Proof. intros Hm s Hs. eapply pwp_mono; [by apply Hm|]. done. Qed.

Lemma loud_ret {A} (F : A -> bool) a : F a = false -> loud F (mret a).
Proof. intros E s. simpl. unfold pwp. simpl. by rewrite E. Qed.

(** A part that may fail. *)
Lemma loud_try {A B} (F : A -> bool) (G : B -> bool) (m : M A) (f : A -> M B) :
  loud F m -> (forall a, F a = true -> stays erred (f a)) -> (forall a, F a = false -> loud G (f a)) -> loud G (m ≫= f).
Proof.
  intros Hm Hf Hg s. apply pwp_bind. eapply pwp_mono; [apply Hm|]. intros a s' Ha. destruct (F a) eqn:E; [|by apply Hg]. apply loud_any; auto.
Qed.

Lemma loud_bind {A B} (G : B -> bool) (m : M A) (f : A -> M B) : (forall a, loud G (f a)) -> loud G (m ≫= f).
Proof. intros Hg s. apply pwp_bind. unfold pwp at 1. destruct (m s) as [[a s']|]; [apply Hg|done]. Qed.

Lemma loud_fail {A} (F : A -> bool) st (m : M A) : PF_FAILURE st = true -> stays erred m -> loud F (fail st;; m).
Proof. intros Hst Hm s. apply pwp_bind, pwp_modify. by apply loud_any. Qed.

Definition is_false (b : bool) : bool := negb b.
Definition fst_false {A} (r : bool * A) : bool := negb (fst r).
Definition snd_false {A} (r : A * bool) : bool := negb (snd r).

Lemma loud_random_key : loud fst_false ipf_generate_random_key.
Proof.
  apply loud_bind. intros [st b]. destruct (PF_FAILURE st) eqn:E; [apply loud_fail; [done|]; bad_steps|by apply loud_ret].
Qed.

Lemma loud_import restore : loud fst_false (ipf_import_metadata_key restore).
Proof.
  apply loud_bind. intros fm. apply loud_bind. intros [st nonce]. destruct (PF_FAILURE st) eqn:E; [apply loud_fail; [done|]; bad_steps|].
  apply loud_bind. intros kdk. destruct (g_cb_aes_cmac _ _) as [st1 out]. destruct (PF_FAILURE st1) eqn:E1; [apply loud_fail; [done|]; bad_steps|].
  apply loud_bind. intros _. by apply loud_ret.
Qed.

Lemma loud_read_node n : loud fst_false (ipf_read_node n).
Proof. intros s. unfold pwp, ipf_read_node. destruct (g_cb_read _ _ _) as [[st b] h]. by destruct (PF_FAILURE st) eqn:E. Qed.

Lemma loud_write_node n b : loud is_false (ipf_write_node n b).
Proof. intros s. unfold pwp, ipf_write_node, ipf_write_file. destruct (g_cb_write _ _ _) as [st h]. by destruct (PF_FAILURE st) eqn:E. Qed.

Lemma loud_encrypt_node p q i : loud is_false (encrypt_node p q i).
Proof.
  unfold encrypt_node. eapply loud_try; [apply loud_random_key|intros [ok key] E; unfold fst_false in E; simpl in E; rewrite E; bad_steps|].
  intros [ok key] E. unfold fst_false in E. simpl in E. rewrite E. apply loud_bind. intros _. apply loud_bind. intros n.
  destruct (g_cb_aes_gcm_encrypt _ _) as [[st c] g]. do 2 (apply loud_bind; intros _). destruct (PF_FAILURE st) eqn:Es; [apply loud_fail; [done|]; bad_steps|by apply loud_ret].
Qed.

Lemma loud_cache_loop {A} (step : A -> Z -> M (A * bool)) fuel data acc :
  (forall a p, loud snd_false (step a p)) -> loud snd_false (cache_loop fuel step data acc).
Proof.
  intros Hs. revert data acc. induction fuel as [|fuel IH]; intros [ptr|] acc; cbn [cache_loop]; try (by apply loud_ret); [by intros s|].
  eapply loud_try; [apply Hs|intros [acc1 go_on] E; unfold snd_false in E; simpl in E; destruct go_on; [done|bad_steps]|].
  intros [acc1 go_on] E. unfold snd_false in E. simpl in E. destruct go_on; [|done]. apply loud_bind. intros next. apply IH.
Qed.

Lemma loud_for_each {A} (step : A -> Z -> M (A * bool)) acc : (forall a p, loud snd_false (step a p)) -> loud snd_false (for_each_cached step acc).
Proof. intros Hs. unfold for_each_cached. do 2 (apply loud_bind; intros ?). by apply loud_cache_loop. Qed.

Lemma loud_result {A} (m : M bool) (g : bool -> A) (F : A -> bool) : loud is_false m -> F (g true) = false -> loud F (b ← m; mret (g b)).
Proof. intros Hm HF. eapply loud_try; [exact Hm|intros; bad_steps|]. intros [] E; [by apply loud_ret|done]. Qed.

Lemma loud_update_data_node acc p : loud snd_false (update_data_node acc p).
Proof. unfold update_data_node. apply loud_bind. intros n. destruct (_ && _); [|by apply loud_ret]. by apply (loud_result _ (fun ok => ((), ok))); [apply loud_encrypt_node|]. Qed.

Lemma loud_update_mht_nodes l : loud is_false (update_mht_nodes l).
Proof.
  induction l as [|ptr l IH]; cbn [update_mht_nodes]; [by apply loud_ret|]. apply loud_bind. intros n. eapply loud_try; [apply loud_encrypt_node|intros [] E; [done|cbn [negb]; bad_steps]|].
  intros [] E; [exact IH|done].
Qed.

Lemma loud_update_root : loud is_false update_root.
Proof.
  unfold update_root. eapply loud_try; [apply loud_random_key|intros [ok key] E; unfold fst_false in E; simpl in E; rewrite E; bad_steps|].
  intros [ok key] E. unfold fst_false in E. simpl in E. rewrite E. do 2 (apply loud_bind; intros ?).
  destruct (g_cb_aes_gcm_encrypt _ _) as [[st c] g]. do 2 (apply loud_bind; intros _). destruct (PF_FAILURE st) eqn:Es; [apply loud_fail; [done|]; bad_steps|by apply loud_ret].
Qed.

Lemma loud_update_all : loud is_false ipf_update_all_data_and_mht_nodes.
Proof.
  unfold ipf_update_all_data_and_mht_nodes. eapply loud_try; [apply loud_for_each; intros; apply loud_update_data_node|intros [u ok] E; unfold snd_false in E; simpl in E; rewrite E; bad_steps|].
  intros [u ok] E. unfold snd_false in E. simpl in E. rewrite E. apply loud_bind. intros [l b]. apply loud_bind. intros l'.
  eapply loud_try; [apply loud_update_mht_nodes|intros [] E'; [done|cbn [negb]; bad_steps]|]. intros [] E'; [apply loud_update_root|done].
Qed.

Lemma loud_update_metadata : loud is_false ipf_update_metadata_node.
Proof.
  unfold ipf_update_metadata_node. eapply loud_try; [apply loud_import|intros [ok key] E; unfold fst_false in E; simpl in E; rewrite E; bad_steps|].
  intros [ok key] E. unfold fst_false in E. simpl in E. rewrite E. apply loud_bind. intros e. destruct (g_cb_aes_gcm_encrypt _ _) as [[st c] g].
  apply loud_bind. intros _. destruct (PF_FAILURE st) eqn:Es; [apply loud_fail; [done|]; bad_steps|by apply loud_ret].
Qed.

Lemma loud_write_dirty acc p : loud snd_false (write_dirty_node acc p).
Proof.
  unfold write_dirty_node. apply loud_bind. intros n. destruct (negb _); [by apply loud_ret|]. eapply loud_try; [apply loud_write_node|intros [] E; [done|cbn [negb]; bad_steps]|].
  intros [] E; [|done]. cbn [negb]. apply loud_bind. intros _. by apply loud_ret.
Qed.

Lemma loud_write_all : loud is_false ipf_write_all_changes_to_disk.
Proof.
  unfold ipf_write_all_changes_to_disk. apply loud_bind. intros tree. eapply (loud_try is_false).
  - destruct tree; [|by apply loud_ret]. eapply loud_try; [apply loud_for_each; intros; apply loud_write_dirty|intros [u ok] E; unfold snd_false in E; simpl in E; rewrite E; bad_steps|].
    intros [u ok] E. unfold snd_false in E. simpl in E. rewrite E. apply loud_bind. intros root. eapply loud_try; [apply loud_write_node|intros [] E'; [done|cbn [negb]; bad_steps]|].
    intros [] E'; [|done]. cbn [negb]. apply loud_bind. intros _. by apply loud_ret.
  - intros [] E; [done|]. cbn [negb]. bad_steps.
  - intros [] E; [|done]. cbn [negb]. apply loud_bind. intros fm. apply loud_write_node.
Qed.

Lemma loud_flush : loud is_false ipf_internal_flush.
Proof.
  unfold ipf_internal_flush. apply loud_bind. intros nw. destruct (negb nw); [by apply loud_ret|]. apply loud_bind. intros tree. eapply (loud_try is_false).
  - destruct tree; [apply loud_update_all|by apply loud_ret].
  - intros [] E; [done|]. cbn [negb]. bad_steps.
  - intros [] E; [|done]. cbn [negb]. eapply loud_try; [apply loud_update_metadata|intros [] E1; [done|cbn [negb]; bad_steps]|]. intros [] E1; [|done]. cbn [negb].
    eapply loud_try; [apply loud_write_all|intros [] E2; [done|cbn [negb]; bad_steps]|]. intros [] E2; [|done]. cbn [negb]. apply loud_bind. intros _. by apply loud_ret.
Qed.

Lemma loud_shrink fuel : loud is_false (shrink_cache fuel).
Proof.
  induction fuel as [|fuel IH]; cbn [shrink_cache]; apply loud_bind; intros len; (destruct (_ <=? _); [by apply loud_ret|]); [by intros s|].
  apply loud_bind. intros [ptr|]; [|by intros s]. apply loud_bind. intros n. destruct (negb _); [do 2 (apply loud_bind; intros _); exact IH|].
  eapply loud_try; [apply loud_flush|intros [] E; [done|cbn [negb]; bad_steps]|]. intros [] E; [exact IH|done].
Qed.
End loud.
