(* ===== verification/PfNodes.v ===== *)
(** * Protected files: finding, reading and appending nodes *)

From S2P Require Import Prelude LruCache PfLayout PfFormat PfSort ProtFiles PfInv PfBad.

(** ** Rules for the primitives *)

Section rules.
Context {H : Type} `{CB : !pf_callbacks H} {total : bool}.
Implicit Types s : pf_context H.
Abbreviation pwp := (pwp total).

Lemma pwp_deref ptr n (Q : file_node_t -> pf_context H -> Prop) s : heap s !! ptr = Some n -> Q n s -> pwp (deref ptr) Q s.
Proof. unfold PfInv.pwp, deref. by intros ->. Qed.

Lemma pwp_dangling {A} ptr (f : file_node_t -> SM (pf_context H) A) Q s : heap s !! ptr = None -> total = false -> pwp (deref ptr ≫= f) Q s.
Proof. intros Hn Ht. unfold PfInv.pwp, mbind, SM_bind, deref. by rewrite Hn. Qed.

Lemma pwp_store ptr n n0 (Q : unit -> pf_context H -> Prop) s :
  heap s !! ptr = Some n0 -> Q () (set_heap (<[ptr := n]> (heap s)) s) -> pwp (store ptr n) Q s.
Proof. unfold PfInv.pwp, store. by intros ->. Qed.

Lemma pwp_update ptr f n (Q : unit -> pf_context H -> Prop) s :
  heap s !! ptr = Some n -> Q () (set_heap (<[ptr := f n]> (heap s)) s) -> pwp (update ptr f) Q s.
Proof. intros E HQ. apply pwp_bind. eapply pwp_deref; [done|]. by eapply pwp_store. Qed.

Lemma pwp_free ptr n (Q : unit -> pf_context H -> Prop) s :
  heap s !! ptr = Some n -> Q () (set_heap (delete ptr (heap s)) s) -> pwp (free ptr) Q s.
Proof. unfold PfInv.pwp, free. by intros ->. Qed.

End rules.

Section nodes.
Context {H : Type} `{CB : !pf_callbacks H} (strict intact : bool) (disk : H -> Z -> option bytes) `{OK : !callbacks_ok strict disk}.
Implicit Types (s : pf_context H) (T D : Z -> bytes).
Abbreviation core := (core intact).
Abbreviation inv := (inv strict intact disk).
Abbreviation parent_ok := (parent_ok intact).
Abbreviation pwp := (pwp true).
Abbreviation sealed := (sealed strict disk).
Abbreviation root_sealed := (root_sealed strict disk).

Lemma u64_node n : 0 <= n < 2 ^ 52 -> u64 (n * PF_NODE_SIZE) = n * PF_NODE_SIZE.
Proof. intros. apply u64_small. unfold u64_mod, PF_NODE_SIZE. lia. Qed.

(** The host keeps the file. *)
Definition same_disk (h h' : H) : Prop := strict = true -> forall n, disk h' n = disk h n.

Lemma same_disk_refl h : same_disk h h.
Proof. done. Qed.

Lemma same_disk_trans h1 h2 h3 : same_disk h1 h2 -> same_disk h2 h3 -> same_disk h1 h3.
Proof. intros H1 H2 Hs n. by rewrite H2, H1. Qed.

Lemma sealed_same h h' T D x : same_disk h h' -> sealed h T D x -> sealed h' T D x.
Proof. intros Hh (c & E & Hd). exists c. split; [done|]. intros Hs. rewrite Hh; auto. Qed.

Lemma root_sealed_same h h' e T : same_disk h h' -> root_sealed h e T -> root_sealed h' e T.
Proof. intros Hh (c & E & Hd). exists c. split; [done|]. intros Hs. rewrite Hh; auto. Qed.

(** A random key: its size is right, and it can only be missing without [strict]. *)
Lemma pwp_random n (Q : Z * bytes -> pf_context H -> Prop) s :
  (forall st b h', sized n b -> same_disk (host s) h' -> PF_FAILURE st = false \/ strict = false -> Q (st, b) (set_host h' s)) ->
  pwp (random n) Q s.
Proof using OK.
  intros HQ. unfold PfInv.pwp, random. destruct (g_cb_random (host s) n) as [[st b] h'] eqn:E.
  destruct (decide (strict = true)) as [Es|Es%not_true_is_false].
  - destruct (strict_random (host s) n Es) as (b' & h'' & E' & Hd). rewrite E in E'. simplify_eq.
    apply HQ; [by eapply random_sized|by intros _|by left].
  - apply HQ; [by eapply random_sized|by intros Es'; rewrite Es in Es'|by right].
Qed.

Lemma pwp_read_node n (Q : bool * bytes -> pf_context H -> Prop) s :
  0 <= n < 2 ^ 52 -> (strict = true -> is_Some (disk (host s) n)) ->
  (forall b h', g_cb_read (host s) (n * PF_NODE_SIZE) PF_NODE_SIZE = (PF_STATUS_SUCCESS, b, h') -> sized PF_NODE_SIZE b ->
     same_disk (host s) h' -> (strict = true -> disk (host s) n = Some b) -> Q (true, b) (set_host h' s)) ->
  (strict = false -> forall st b h', PF_FAILURE st = true -> Q (false, b) (set_last_error st (set_host h' s))) ->
  pwp (ipf_read_node n) Q s.
Proof using OK.
  intros Hn Hd HQ HF. unfold PfInv.pwp, ipf_read_node. rewrite u64_node by done.
  destruct (g_cb_read (host s) (n * PF_NODE_SIZE) PF_NODE_SIZE) as [[st b] h'] eqn:E. pose proof (read_sized _ _ _ _ _ _ E).
  destruct (decide (strict = true)) as [Es|Es%not_true_is_false].
  - destruct (Hd Es) as [b' Eb]. destruct (strict_read (host s) n b' Es Eb Hn) as (h'' & E' & Hs). rewrite E in E'. simplify_eq. simpl. apply HQ; try done; by intros _.
  - destruct (PF_FAILURE st) eqn:Ef; [by apply HF|]. unfold PF_FAILURE in Ef. breflect. subst st.
    apply HQ; try done; intros Es'; by rewrite Es in Es'.
Qed.

Lemma pwp_write_node n b (Q : bool -> pf_context H -> Prop) s :
  0 <= n < 2 ^ 52 -> sized PF_NODE_SIZE b ->
  (forall h', (strict = true -> forall n', disk h' n' = if n' =? n then Some b else disk (host s) n') -> Q true (set_host h' s)) ->
  (strict = false -> forall st h', PF_FAILURE st = true -> Q false (set_last_error st (set_host h' s))) ->
  pwp (ipf_write_node n b) Q s.
Proof using OK.
  intros Hn Hb HQ HF. unfold PfInv.pwp, ipf_write_node, ipf_write_file. rewrite u64_node by done.
  destruct (g_cb_write (host s) b (n * PF_NODE_SIZE)) as [st h'] eqn:E.
  destruct (decide (strict = true)) as [Es|Es%not_true_is_false].
  - destruct (strict_write (host s) n b Es Hb Hn) as (h'' & E' & Hs). rewrite E in E'. simplify_eq. simpl. apply HQ. by intros _.
  - destruct (PF_FAILURE st) eqn:Ef; [by apply HF|]. apply HQ. intros Es'. by rewrite Es in Es'.
Qed.

(** Encryption succeeds if [strict]; the sizes are right in any case. *)
Lemma encrypt_cases k p st c m :
  g_cb_aes_gcm_encrypt k p = (st, c, m) ->
  length c = length p /\ sized PF_MAC_SIZE m /\ (st = PF_STATUS_SUCCESS \/ strict = false /\ PF_FAILURE st = true).
Proof using OK.
  intros E. destruct (encrypt_sized _ _ _ _ _ E) as [? ?]. split_and!; try done.
  destruct (decide (strict = true)) as [Es|Es%not_true_is_false].
  - destruct (strict_encrypt k p Es) as (c' & m' & E'). rewrite E in E'. simplify_eq. by left.
  - unfold PF_FAILURE. destruct (Z.eqb_spec st PF_STATUS_SUCCESS); [by left|by right].
Qed.

(** A node that is decrypted with its entry in the tree has its contents in the tree. *)
Lemma decrypt_sealed k p c m h n c' h' st p' :
  g_cb_aes_gcm_encrypt k p = (PF_STATUS_SUCCESS, c, m) -> (strict = true -> c' = c) ->
  g_cb_read h n PF_NODE_SIZE = (PF_STATUS_SUCCESS, c', h') -> g_cb_aes_gcm_decrypt k c' m = (st, p') ->
  st = PF_STATUS_SUCCESS /\ p' = p \/ strict = false /\ PF_FAILURE st = true.
Proof using OK.
  intros Ee Hc Er Ed. destruct (decide (strict = true)) as [Es|Es%not_true_is_false].
  - rewrite (Hc Es) in Ed. rewrite (strict_decrypt _ _ _ _ Es Ee) in Ed. simplify_eq. by left.
  - unfold PF_FAILURE. destruct (Z.eqb_spec st PF_STATUS_SUCCESS); [|by right]. subst st. left. split; [done|].
    by eapply no_forgery.
Qed.

(** ** Changes of the cache that leave the file alone *)

Record quiet (s s' : pf_context H) : Prop := {
  qu_metadata : file_metadata s' = file_metadata s;
  qu_plain : encrypted_part_plain s' = encrypted_part_plain s;
  qu_mode : mode s' = mode s;
  qu_need : need_writing s' = need_writing s;
  qu_status : file_status s' = file_status s;
  qu_kdk : user_kdk_key s' = user_kdk_key s;
  qu_disk : same_disk (host s) (host s');
}.

Lemma quiet_refl s : quiet s s.
Proof. done. Qed.

Lemma quiet_trans s1 s2 s3 : quiet s1 s2 -> quiet s2 s3 -> quiet s1 s3.
Proof. intros [] []. split; try congruence. by eapply same_disk_trans. Qed.

Lemma quiet_nb s s' : quiet s s' -> nb s' = nb s.
Proof. intros Hq. unfold nb. by rewrite (qu_plain _ _ Hq). Qed.

Lemma inv_transfer e T D s s' :
  inv e T D s -> quiet s s' -> core T D s' -> live s' ->
  (forall x, valid x -> dirty s' x <-> dirty s x) ->
  (forall x, inner x -> is_Some (ptr_of s' x) -> in_tree (nb s + e) x) -> inv e T D s'.
Proof.
  intros [? ? ? Hd Hu Hn Hs Hr [? ? ? ? ?] Hy] Hq Hc' Hl' Hdi Hin. pose proof (quiet_nb _ _ Hq) as En. pose proof (qu_disk _ _ Hq) as Hh.
  split; rewrite ?En; try done.
  - intros x Hx. rewrite Hdi by done. auto.
  - intros x Hx. rewrite !Hdi; auto; [|by apply inner_valid]. simpl. by apply up_valid.
  - rewrite (qu_need _ _ Hq), Hdi by done. done.
  - intros x Hx ?. rewrite Hdi by by apply inner_valid. intros. by eapply sealed_same; [exact Hh|apply Hs].
  - rewrite Hdi, (qu_plain _ _ Hq) by done. intros. by eapply root_sealed_same; [exact Hh|apply Hr].
  - split; rewrite ?(qu_plain _ _ Hq), ?(qu_metadata _ _ Hq); done.
  - rewrite (qu_need _ _ Hq), (qu_kdk _ _ Hq), (qu_plain _ _ Hq), (qu_metadata _ _ Hq). intros Es ?. rewrite Hh by done. by apply Hy.
Qed.

(** [s'] is [s] with the node [n] for [x] added to the cache. *)
Record added (x : nref) (ptr : Z) (n : file_node_t) (s s' : pf_context H) : Prop := {
  ad_quiet : quiet s s';
  ad_lru : lruc_ok (cache s');
  ad_list : lruc_list (cache s') = phys x :: lruc_list (cache s);
  ad_map : lruc_map (cache s') = <[phys x := ptr]> (lruc_map (cache s));
  ad_ptr : ptr = next_ptr s;
  ad_next : next_ptr s' = ptr + 1;
  ad_heap : heap s' = <[ptr := n]> (heap s);
}.

Lemma added_ptr x ptr n s s' y :
  added x ptr n s s' -> inner x -> valid y -> ptr_of s' y = if decide (y = x) then Some ptr else ptr_of s y.
Proof.
  intros Ha Hx Hy. unfold ptr_of. destruct (decide (y = x)) as [->|Hne].
  - rewrite decide_False by (by destruct Hx). by rewrite (ad_map _ _ _ _ _ Ha), lookup_insert_eq.
  - destruct (decide (y = Mht 0)); [done|]. rewrite (ad_map _ _ _ _ _ Ha), lookup_insert_ne; [done|].
    intros E. apply Hne. symmetry. apply phys_inj; try done. by destruct Hx.
Qed.

Lemma core_fresh T D s : core T D s -> heap s !! next_ptr s = None.
Proof. intros Hc. destruct (heap s !! next_ptr s) eqn:E; [|done]. pose proof (co_next _ _ _ _ Hc (next_ptr s) ltac:(eauto)). lia. Qed.

Lemma added_core T D x ptr n s s' :
  core T D s -> added x ptr n s s' -> inner x -> ptr_of s x = None -> node_ok T D x n ->
  ptr_of s (Mht (up x)) = Some (parent n) -> core T D s'.
Proof.
  intros Hc Ha Hx Hp Hn Hpa. pose proof (core_fresh _ _ _ Hc) as Hf. pose proof (ad_heap _ _ _ _ _ Ha) as Eh. pose proof (ad_ptr _ _ _ _ _ Ha) as Ep.
  assert (Hold : forall q m, heap s !! q = Some m -> heap s' !! q = Some m).
  { intros q m E. rewrite Eh, lookup_insert_ne; [done|]. intros ->. congruence. }
  assert (Hup : forall y, valid y -> is_Some (ptr_of s y) -> ptr_of s' y = ptr_of s y).
  { intros y Hy [q Hq]. rewrite (added_ptr _ _ _ _ _ _ Ha Hx Hy). rewrite decide_False; [done|]. intros ->. congruence. }
  assert (Hr : next_ptr s > ROOT). { destruct (co_root _ _ _ _ Hc) as (r & Er & _). pose proof (co_next _ _ _ _ Hc ROOT ltac:(eauto)). lia. }
  split.
  - destruct (co_root _ _ _ _ Hc) as (r & Er & Or). exists r. auto.
  - apply Ha.
  - intros key q. rewrite (ad_map _ _ _ _ _ Ha). intros [[<- <-]|[Hne E]]%lookup_insert_Some.
    + exists x, n. split_and!; try done; [lia|by rewrite Eh, lookup_insert_eq|]. left. rewrite Hup; [done| |by eauto]. simpl. by apply up_valid.
    + destruct (co_nodes _ _ _ _ Hc _ _ E) as (y & m & ? & Hy & ? & Em & Om & Pm). exists y, m. split_and!; auto.
      destruct Pm as [Pm|(? & Pm & ?)]; [left|right].
      * rewrite Hup; [done| |by eauto]. simpl. by apply up_valid.
      * split_and!; [done| |rewrite (ad_next _ _ _ _ _ Ha); lia]. rewrite Eh, lookup_insert_ne; [done|lia].
  - intros q. rewrite Eh, (ad_next _ _ _ _ _ Ha), lookup_insert_is_Some. intros [<-|[_ Hq]]; [lia|]. pose proof (co_next _ _ _ _ Hc q Hq). lia.
  - apply Hc.
Qed.

Lemma added_live T D x ptr n s s' :
  core T D s -> live s -> added x ptr n s s' -> inner x -> ptr_of s x = None -> node_need_writing n = false -> live s'.
Proof.
  intros Hc Hl Ha Hx Hp Hw y q m Hy Hq Hm Hwm. pose proof (core_fresh _ _ _ Hc) as Hf. rewrite (added_ptr _ _ _ _ _ _ Ha Hx (inner_valid _ Hy)) in Hq.
  rewrite (ad_heap _ _ _ _ _ Ha) in Hm. destruct (decide (y = x)) as [->|Hne]; [simplify_eq; rewrite lookup_insert_eq in Hm; congruence|].
  destruct (core_node _ _ _ _ _ _ Hc (inner_valid _ Hy) Hq) as (m' & Hm' & _). rewrite lookup_insert_ne in Hm by (rewrite (ad_ptr _ _ _ _ _ Ha); congruence).
  rewrite (added_ptr _ _ _ _ _ _ Ha Hx) by by apply up_valid. pose proof (Hl y q m Hy Hq Hm Hwm) as Hu. rewrite decide_False; [done|]. intros E. rewrite E in Hu. congruence.
Qed.

Lemma inv_added e T D x ptr n s s' :
  inv e T D s -> added x ptr n s s' -> inner x -> in_tree (nb s + e) x -> ptr_of s x = None -> node_ok T D x n ->
  node_need_writing n = false -> ptr_of s (Mht (up x)) = Some (parent n) -> inv e T D s'.
Proof.
  intros Hi Ha Hx Ht Hp Hn Hw Hpa. pose proof (in_core _ _ _ _ _ _ _ Hi) as Hc.
  pose proof (added_core _ _ _ _ _ _ _ Hc Ha Hx Hp Hn Hpa) as Hc'. pose proof (core_fresh _ _ _ Hc) as Hf.
  apply (inv_transfer e T D s s' Hi (ad_quiet _ _ _ _ _ Ha) Hc'); [by eapply added_live; [|apply Hi|..]| |].
  - intros y Hy. unfold dirty. rewrite (added_ptr _ _ _ _ _ _ Ha Hx Hy), (ad_heap _ _ _ _ _ Ha). destruct (decide (y = x)) as [->|Hne].
    + rewrite Hp. split; [|by intros (? & ? & ? & _)]. intros (q & m & [= <-] & E & Em). rewrite lookup_insert_eq in E. congruence.
    + assert (Hq : forall q m, ptr_of s y = Some q -> heap s !! q = Some m -> q <> ptr).
      { intros q m ? ? ->. rewrite (ad_ptr _ _ _ _ _ Ha) in *. congruence. }
      split; intros (q & m & Eq & Em & ?); exists q, m; (split; [done|split; [|done]]).
      * destruct (core_node _ _ _ _ _ _ Hc Hy Eq) as (m' & Em' & _). rewrite lookup_insert_ne in Em; [done|]. intros <-. by eapply Hq.
      * rewrite lookup_insert_ne; [done|]. intros <-. by eapply Hq.
  - intros y Hy. rewrite (added_ptr _ _ _ _ _ _ Ha Hx (inner_valid _ Hy)). destruct (decide (y = x)) as [->|]; [done|]. by apply Hi.
Qed.

(** ** Reading a node *)

Lemma nb_bound e T D s : inv e T D s -> 0 <= nb s < 2 ^ 51.
Proof.
  intros Hi. pose proof (mo_size _ (in_meta _ _ _ _ _ _ _ Hi)). pose proof (me_size _ (mo_plain _ (in_meta _ _ _ _ _ _ _ Hi))).
  unfold nb, data_nodes, MAX_SIZE in *. layout. Z.to_euclidean_division_equations; lia.
Qed.

(** What is left when an operation on nodes fails: a tree that is as good as before, in a file
    that may be marked as unusable. *)
Definition failed (e : Z) T D s s' : Prop :=
  strict = false /\ erred s' /\ inv e T D s' /\ (quiet s s' \/ bad s').

Lemma failed_inv e T D s s' :
  strict = false -> inv e T D s -> cache s' = cache s -> heap s' = heap s -> next_ptr s <= next_ptr s' ->
  quiet s s' -> erred s' -> failed e T D s s'.
Proof.
  intros Es Hi Ec Eh En Hq He. split_and!; [done..| |by left].
  assert (Ep : forall x, ptr_of s' x = ptr_of s x) by (intros; unfold ptr_of; by rewrite Ec).
  eapply inv_transfer; [done|done| |eapply live_same; [apply Hi|done|]; rewrite Eh; eauto| |].
  - pose proof (in_core _ _ _ _ _ _ _ Hi) as [? ? Hn Hnx ?]. split; rewrite ?Eh, ?Ec; try done.
    + intros k q Hk. destruct (Hn k q Hk) as (x & n & ? & ? & ? & ? & ? & Hp). exists x, n. split_and!; try done.
      destruct Hp as [Hp|(? & ? & ?)]; [left; by rewrite Ep|right]. rewrite Eh. split_and!; try done. lia.
    + intros q Hq'. specialize (Hnx q Hq'). lia.
  - intros x _. unfold dirty. by rewrite Ep, Eh.
  - intros x Hx. rewrite Ep. by apply Hi.
Qed.

(** The tree does not depend on the errors. *)
Lemma inv_status e T D st s : inv e T D s -> inv e T D (set_file_status st s).
Proof. intros [[? ? Hn ? ?] ? ? ? ? ? ? ? [? ? ? ? ?] ?]. split; done. Qed.

Lemma inv_error e T D st s : inv e T D s -> inv e T D (set_last_error st s).
Proof. intros [[? ? Hn ? ?] ? ? ? ? ? ? ? [? ? ? ? ?] ?]. split; done. Qed.

Lemma failed_status e T D st s s' : PF_FAILURE st = true -> failed e T D s s' -> failed e T D s (set_file_status st s').
Proof. intros Hst (Es & He & Hi & _). split_and!; [done..|by apply inv_status|by right]. Qed.

Lemma read_new_node_spec e T D x pp s (Q : option Z -> pf_context H -> Prop) :
  inv e T D s -> 0 <= e -> inner x -> in_tree (nb s) x -> ptr_of s x = None -> ptr_of s (Mht (up x)) = Some pp ->
  (forall ptr n s', added x ptr n s s' -> inv e T D s' -> Q (Some ptr) s') ->
  (forall s', failed e T D s s' -> Q None s') ->
  pwp (read_new_node (new_node (node_type_of x) (number_of x) pp (phys x)) (slot x)) Q s.
Proof using OK.
  intros Hi He Hx Ht Hnc Hpp HQ HF. pose proof (in_core _ _ _ _ _ _ _ Hi) as Hc. pose proof (core_fresh _ _ _ Hc) as Hf.
  pose proof (in_tree_phys _ _ (proj2 (nb_bound _ _ _ _ Hi)) Ht) as Hph. pose proof (in_sealed _ _ _ _ _ _ _ Hi x Hx Ht (not_cached_clean _ _ Hnc)) as (c & Ec & Hdisk).
  destruct (core_node _ _ _ _ (Mht (up x)) _ Hc (up_valid _ Hx) Hpp) as (p & Hp & Op). assert (Hne : next_ptr s <> pp) by congruence.
  unfold read_new_node. set (n := new_node _ _ _ _). apply pwp_bind. unfold PfInv.pwp at 1, calloc. apply pwp_bind.
  apply pwp_read_node; [simpl; lia|intros Es; simpl; rewrite Hdisk by done; eauto| |].
  - intros b h' Er Hb Hh Hd. cbn [negb]. apply pwp_bind. apply (pwp_deref _ p).
    { simpl. by rewrite lookup_insert_ne. }
    rewrite (no_body _ _ _ _ Op). simpl body. fold (key_of T x). fold (gmac_of T x).
    destruct (g_cb_aes_gcm_decrypt (key_of T x) b (gmac_of T x)) as [st plain] eqn:Ed.
    assert (Hbc : strict = true -> b = c) by (intros Es; specialize (Hd Es); specialize (Hdisk Es); simpl in Hd; congruence).
    destruct (decrypt_sealed _ _ _ _ _ _ _ _ _ _ Ec Hbc Er Ed) as [[-> ->]|[Es Hst]].
    + cbn [PF_FAILURE negb]. simpl. apply pwp_bind. eapply pwp_store; [simpl; apply lookup_insert_eq|]. simpl.
      apply pwp_bind. unfold PfInv.pwp at 1, cache_add. simpl.
      destruct (lruc_add_ok (cache s) (phys x) (next_ptr s)) as (c' & Ea & Hok & Hit & Hmap & _); [apply Hc|by rewrite ptr_of_inner in Hnc|].
      rewrite Ea. cbn [negb]. apply pwp_ret. rewrite insert_insert_eq. unfold set_host, set_cache, set_heap, set_next_ptr. simpl.
      match goal with |- Q _ ?s' => assert (Ha : added x (next_ptr s) (set_decrypted (body T D x) (set_encrypted b n)) s s') end.
      { split; simpl; try done. rewrite <- (items_keys c' Hok), Hit. simpl. f_equal. by apply items_keys, Hc. }
      apply (HQ _ _ _ Ha). eapply inv_added; try done. by apply (in_tree_mono (nb s)); [lia|].
    + rewrite Hst. apply pwp_bind. eapply pwp_free; [simpl; apply lookup_insert_eq|]. apply pwp_bind, pwp_modify. simpl.
      rewrite delete_insert_id by done. assert (Hfa : forall s', s' = set_last_error st (set_host h' (set_next_ptr (next_ptr s + 1) s)) -> failed e T D s s').
      { intros s' ->. apply failed_inv; simpl; try done; lia. }
      destruct (st =? PF_STATUS_MAC_MISMATCH); apply pwp_bind; [apply pwp_modify|]; apply pwp_ret, HF; [apply failed_status; [done|]|]; by apply Hfa.
  - intros Es st b h' Hst. cbn [negb]. apply pwp_bind. eapply pwp_free; [simpl; apply lookup_insert_eq|]. simpl.
    rewrite delete_insert_id by done. apply pwp_ret, HF. apply failed_inv; simpl; try done; [lia|].
    split; try done. intros Es'. by rewrite Es in Es'.
Qed.

(** ** The way from a node to the root *)

(** The keys of an MHT node and its ancestors but the root, from the bottom. *)
Fixpoint chain (fuel : nat) (n : Z) : list Z :=
  if n =? 0 then []
  else
    match fuel with
    | O => []
    | S fuel' => phys (Mht n) :: chain fuel' (up (Mht n))
    end.

Lemma chain_S fuel n : n <> 0 -> chain (S fuel) n = phys (Mht n) :: chain fuel (up (Mht n)).
Proof. intros Hn. simpl. by rewrite (proj2 (Z.eqb_neq n 0)). Qed.

Lemma chain_enough f f' m : 0 <= m < 32 ^ Z.of_nat f -> (f <= f')%nat -> chain f' m = chain f m.
Proof.
  revert f' m. induction f as [|f IH]; intros f' m Hm Hf.
  - assert (m = 0) as -> by (simpl in Hm; lia). by destruct f'.
  - destruct f' as [|f']; [lia|]. simpl. destruct (m =? 0) eqn:Em; [done|]. breflect. f_equal. apply IH; [|lia].
    rewrite Nat2Z.inj_succ, Z.pow_succ_r in Hm by lia. layout. Z.to_euclidean_division_equations; lia.
Qed.

(** The nodes on the way have smaller numbers. *)
Lemma chain_below n fuel m : 0 <= m < n -> phys (Mht n) ∉ chain fuel m.
Proof.
  revert m. induction fuel as [|fuel IH]; intros m Hm; simpl; (destruct (m =? 0) eqn:Em; [by intros ?%elem_of_nil|]); breflect; [by intros ?%elem_of_nil|].
  rewrite not_elem_of_cons. split; [layout; lia|]. apply IH. pose proof (up_lt m). simpl in *. lia.
Qed.

(** [s'] is [s] with some of the nodes of [keys] added to the cache. *)
Record loaded (keys : list Z) (s s' : pf_context H) : Prop := {
  lo_quiet : quiet s s';
  lo_list : exists new, lruc_list (cache s') = new ++ lruc_list (cache s) /\ forall k, k ∈ new -> k ∈ keys;
  lo_ptr : forall x ptr, ptr_of s x = Some ptr -> ptr_of s' x = Some ptr;
}.

Lemma loaded_refl keys s : loaded keys s s.
Proof. split; [apply quiet_refl| |done]. exists []. split; [done|]. by intros k ?%elem_of_nil. Qed.

Lemma loaded_mono keys keys' s s' : (forall k, k ∈ keys -> k ∈ keys') -> loaded keys s s' -> loaded keys' s s'.
Proof. intros Hk [? (new & ? & ?) ?]. split; try done. exists new. auto. Qed.

Lemma loaded_trans keys s1 s2 s3 : loaded keys s1 s2 -> loaded keys s2 s3 -> loaded keys s1 s3.
Proof.
  intros [? (n1 & E1 & H1) ?] [? (n2 & E2 & H2) ?]. split; [by eapply quiet_trans| |auto]. exists (n2 ++ n1). rewrite E2, E1, app_assoc.
  split; [done|]. intros k [?|?]%elem_of_app; auto.
Qed.

Lemma added_loaded x ptr n s s' keys : added x ptr n s s' -> inner x -> ptr_of s x = None -> phys x ∈ keys -> loaded keys s s'.
Proof.
  intros Ha Hx Hn Hk. split; [apply Ha| |].
  - exists [phys x]. split; [apply Ha|]. by intros k ->%list_elem_of_singleton.
  - intros y q Hq. unfold ptr_of in *. destruct (decide (y = Mht 0)); [done|]. rewrite (ad_map _ _ _ _ _ Ha), lookup_insert_ne; [done|].
    intros E. rewrite <- E in Hq. rewrite decide_False in Hn by apply Hx. congruence.
Qed.

Lemma failed_quiet e T D s1 s2 s3 : quiet s1 s2 -> failed e T D s2 s3 -> failed e T D s1 s3.
Proof. intros Hq (Es & He & Hi & [Hq'|Hb]); (split_and!; [done..|]); [left|by right]. by eapply quiet_trans. Qed.

Lemma mht_physical_eq n : mht_physical n = phys (Mht n).
Proof. done. Qed.

Lemma ipf_read_mht_node_spec e T D fuel : forall n s (Q : option Z -> pf_context H -> Prop),
  inv e T D s -> 0 <= e -> n = 0 \/ in_tree (nb s) (Mht n) \/ is_Some (ptr_of s (Mht n)) -> 0 <= n < 32 ^ Z.of_nat fuel ->
  (forall ptr s', loaded (chain fuel n) s s' -> inv e T D s' -> ptr_of s' (Mht n) = Some ptr -> Q (Some ptr) s') ->
  (forall s', failed e T D s s' -> Q None s') ->
  pwp (ipf_read_mht_node fuel n) Q s.
Proof using OK.
  induction fuel as [|fuel IH]; intros n s Q Hi He Ht Hf HQ HF; simpl; dif.
  - apply pwp_ret, HQ; [apply loaded_refl|done|]. subst. apply ptr_of_root.
  - simpl in Hf. lia.
  - apply pwp_ret, HQ; [apply loaded_refl|done|]. subst. apply ptr_of_root.
  - assert (Hx : inner (Mht n)) by (apply inner_mht; lia). apply pwp_bind, pwp_gets. unfold lruc_find, get_map_node.
    rewrite mht_physical_eq, <- (ptr_of_inner s (Mht n)) by done. destruct (ptr_of s (Mht n)) as [ptr|] eqn:Ep.
    { apply pwp_ret, HQ; [apply loaded_refl|done..]. }
    assert (Hin : in_tree (nb s) (Mht n)) by (destruct Ht as [?|[?|[? ?]]]; done).
    pose proof (in_tree_up _ _ Hx Hin) as Hup. pose proof (up_lt n ltac:(lia)) as Hlt. apply pwp_bind.
    apply IH; [done|done|by right; left| | |].
    + rewrite Nat2Z.inj_succ, Z.pow_succ_r in Hf by lia. layout. Z.to_euclidean_division_equations; lia.
    + intros pp s1 Hl Hi1 Hpp. assert (En : nb s1 = nb s) by apply (quiet_nb s s1), Hl.
      assert (Hk : forall k, k ∈ chain fuel (up (Mht n)) -> k ∈ phys (Mht n) :: chain fuel (up (Mht n))) by (intros; by right).
      destruct (ptr_of s1 (Mht n)) as [q|] eqn:Eq.
      { exfalso. destruct (lo_list _ _ _ Hl) as (new & El & Hnew). pose proof (co_lru _ _ _ _ (in_core _ _ _ _ _ _ _ Hi1)) as Ho.
        rewrite ptr_of_inner in Eq by done. assert (Hkey : phys (Mht n) ∈ lruc_list (cache s1)) by (apply (lru_dom _ Ho); eauto).
        rewrite El in Hkey. apply elem_of_app in Hkey as [Hkey|Hkey].
        - apply Hnew in Hkey. by eapply (chain_below n).
        - rewrite ptr_of_inner in Ep by done. apply (lru_dom _ (co_lru _ _ _ _ (in_core _ _ _ _ _ _ _ Hi))) in Hkey as [? ?]. congruence. }
      apply (read_new_node_spec e T D (Mht n) pp s1); try done; [by rewrite En| |].
      * intros ptr m s2 Ha Hi2. apply HQ; [|done|].
        -- rewrite chain_S by done. eapply loaded_trans; [eapply loaded_mono; [exact Hk|exact Hl]|]. eapply added_loaded; try done. left.
        -- rewrite (added_ptr _ _ _ _ _ (Mht n) Ha) by (try done; simpl; lia). by rewrite decide_True.
      * intros s2 Hfail. apply HF. eapply failed_quiet; [apply Hl|done].
    + intros s1 Hfail. by apply HF.
Qed.

(** ** Appending nodes *)

(** Contents outside the tree do not matter. *)
Lemma inv_retree T D T' D' s :
  inv 0 T D s -> (forall x, x = Mht 0 \/ in_tree (nb s) x -> body T' D' x = body T D x) ->
  (forall x, sized PF_NODE_SIZE (body T' D' x)) -> inv 1 T' D' s.
Proof.
  intros Hi Hb Hz. pose proof (in_core _ _ _ _ _ _ _ Hi) as Hc.
  assert (Hok : forall x n, x = Mht 0 \/ in_tree (nb s) x -> node_ok T D x n -> node_ok T' D' x n).
  { intros x n Hx [? ? ? Hd]. split; try done. by rewrite Hb. }
  assert (Hup : forall x, inner x -> in_tree (nb s) x -> T' (up x) = T (up x)).
  { intros x Hx Ht. apply (Hb (Mht (up x))). right. by apply in_tree_up. }
  destruct Hi as [_ Hlv Hin Hd Hu Hn Hs Hr Hm Hy]. rewrite Z.add_0_r in Hin. split; try done.
  - split; try apply Hc; try done.
    + destruct (co_root _ _ _ _ Hc) as (n & ? & ?). exists n. split; [done|]. apply Hok; auto.
    + intros k q Hk. destruct (co_nodes _ _ _ _ Hc k q Hk) as (x & n & -> & Hx & ? & ? & ? & ?). exists x, n. split_and!; try done.
      apply Hok; [|done]. right. apply Hin; [done|]. rewrite ptr_of_inner by done. eauto.
  - intros x Hx Hp. apply (in_tree_mono (nb s)); [lia|]. by apply Hin.
  - intros x Hx Ht Hnd. destruct (Hs x Hx Ht Hnd) as (c & Ec & Hc'). exists c. unfold key_of, gmac_of. by rewrite Hup, Hb by auto.
  - intros Hnd Ht. destruct (Hr Hnd Ht) as (c & Ec & Hc'). exists c. assert (T' 0 = T 0) as -> by (apply (Hb (Mht 0)); auto). done.
Qed.

Lemma add_new_node_spec T D x pp s (Q : option Z -> pf_context H -> Prop) :
  inv 1 T D s -> inner x -> in_tree (nb s + 1) x -> body T D x = zeros PF_NODE_SIZE ->
  ptr_of s x = None -> ptr_of s (Mht (up x)) = Some pp ->
  (forall ptr n s', added x ptr n s s' -> inv 1 T D s' -> Q (Some ptr) s') ->
  pwp (add_new_node (new_node (node_type_of x) (number_of x) pp (phys x))) Q s.
Proof.
  intros Hi Hx Ht Hb Hnc Hpp HQ. pose proof (in_core _ _ _ _ _ _ _ Hi) as Hc. unfold add_new_node. apply pwp_bind. unfold PfInv.pwp at 1, calloc.
  apply pwp_bind. unfold PfInv.pwp at 1, cache_add. simpl.
  destruct (lruc_add_ok (cache s) (phys x) (next_ptr s)) as (c' & Ea & Hok & Hit & Hmap & _); [apply Hc|by rewrite ptr_of_inner in Hnc|].
  rewrite Ea. cbn [negb]. apply pwp_ret. set (n := new_node _ _ _ _).
  match goal with |- Q _ ?s' => assert (Ha : added x (next_ptr s) n s s') end.
  { split; simpl; try done. rewrite <- (items_keys c' Hok), Hit. simpl. f_equal. by apply items_keys, Hc. }
  apply (HQ _ _ _ Ha). eapply inv_added; try done.
Qed.

(** ** The parent of a data node *)

Definition data_at (offset : Z) : Z := (offset - MD_USER_DATA_SIZE) / PF_NODE_SIZE.

Lemma data_nodes_end size : MD_USER_DATA_SIZE <= size -> (size - MD_USER_DATA_SIZE) mod PF_NODE_SIZE = 0 -> data_nodes size = data_at size.
Proof. unfold data_nodes, data_at. layout. intros. Z.to_euclidean_division_equations; lia. Qed.

Lemma data_at_end size : MD_USER_DATA_SIZE <= size -> ~ in_tree (data_nodes size) (Data (data_at size)) -> (size - MD_USER_DATA_SIZE) mod PF_NODE_SIZE = 0.
Proof. unfold data_nodes, data_at, in_tree. layout. intros. Z.to_euclidean_division_equations; lia. Qed.

Lemma up_bound e T D s x : inv e T D s -> inner x -> in_tree (nb s + 1) x -> 0 <= up x < 32 ^ Z.of_nat DEPTH.
Proof.
  intros Hi Hx Ht. pose proof (nb_bound _ _ _ _ Hi). pose proof (in_tree_up _ _ Hx Ht) as [? Hup]. split; [done|].
  change (32 ^ Z.of_nat DEPTH) with (2 ^ 70). layout. lia.
Qed.

(** The node of an offset inside the file. *)
Lemma ipf_get_mht_node_spec T D offset s (Q : option Z -> pf_context H -> Prop) :
  inv 0 T D s -> MD_USER_DATA_SIZE <= offset -> in_tree (nb s) (Data (data_at offset)) ->
  (forall ptr s', loaded (chain DEPTH (up (Data (data_at offset)))) s s' -> inv 0 T D s' ->
     ptr_of s' (Mht (up (Data (data_at offset)))) = Some ptr -> Q (Some ptr) s') ->
  (forall s', failed 0 T D s s' -> Q None s') ->
  pwp (ipf_get_mht_node offset) Q s.
Proof using OK.
  intros Hi Hoff Hin HQ HF. unfold ipf_get_mht_node. rewrite (proj2 (Z.ltb_ge _ _) Hoff).
  destruct (get_node_numbers_eq offset Hoff) as [Hd ->]. fold (data_at offset) in *. set (d := data_at offset) in *.
  apply pwp_bind. unfold PfInv.pwp at 1, lift_opt. cbn [mht_node_number]. set (m := up (Data d)) in *.
  destruct (m =? 0) eqn:Em; breflect.
  { apply pwp_ret, HQ; [apply loaded_refl|done|]. rewrite Em. apply ptr_of_root. }
  apply pwp_bind, pwp_gets. destruct (_ && _) eqn:Eb.
  { exfalso. apply andb_true_iff in Eb as [Ea Eo]. breflect. unfold nb in Hin. rewrite <- Eo in Hin. unfold data_nodes, d, data_at, in_tree in Hin.
    layout. Z.to_euclidean_division_equations; lia. }
  apply (ipf_read_mht_node_spec 0 T D); [done|lia| | |done|done].
  - right. left. by apply (in_tree_up _ (Data d)).
  - apply (up_bound 0 T D s (Data d)); [done..|]. by apply (in_tree_mono (nb s)); [lia|].
Qed.

(** The new last node of a file that ends at the end of a node: the tree grows by a data node
    and possibly by an MHT node. *)
Lemma ipf_get_mht_node_append T D offset s (Q : option Z -> pf_context H -> Prop) :
  inv 0 T D s -> MD_USER_DATA_SIZE <= offset -> offset = file_size (encrypted_part_plain s) -> (offset - MD_USER_DATA_SIZE) mod PF_NODE_SIZE = 0 ->
  (forall ptr T' s', loaded (chain DEPTH (up (Data (data_at offset)))) s s' -> inv 1 T' (upd D (data_at offset) (zeros PF_NODE_SIZE)) s' ->
     ptr_of s' (Mht (up (Data (data_at offset)))) = Some ptr -> ptr_of s' (Data (data_at offset)) = None -> Q (Some ptr) s') ->
  (forall s', failed 0 T D s s' -> Q None s') ->
  pwp (ipf_get_mht_node offset) Q s.
Proof using OK.
  intros Hi Hoff Eo Ha HQ HF. unfold ipf_get_mht_node. rewrite (proj2 (Z.ltb_ge _ _) Hoff).
  destruct (get_node_numbers_eq offset Hoff) as [Hd ->]. fold (data_at offset) in *. set (d := data_at offset) in *.
  apply pwp_bind. unfold PfInv.pwp at 1, lift_opt. cbn [mht_node_number]. set (m := up (Data d)) in *.
  assert (Enb : nb s = d) by (unfold nb; rewrite <- Eo; by apply data_nodes_end). pose proof (nb_bound _ _ _ _ Hi) as Hnb.
  assert (Hm : 0 <= m) by by apply (up_valid (Data d)).
  assert (Hz : forall T', (forall n, sized PF_NODE_SIZE (T' n)) -> forall x, sized PF_NODE_SIZE (body T' (upd D d (zeros PF_NODE_SIZE)) x)).
  { intros T' HT' [d'|n]; [|apply HT']. simpl. unfold upd. destruct (d' =? d); [apply zeros_sized|]. apply (co_sized _ _ _ _ (in_core _ _ _ _ _ _ _ Hi) (Data d')). }
  assert (HT : forall n, sized PF_NODE_SIZE (T n)) by (intros n; apply (co_sized _ _ _ _ (in_core _ _ _ _ _ _ _ Hi) (Mht n))).
  assert (Hnd : forall s1, inv 0 T D s1 -> nb s1 = nb s -> ptr_of s1 (Data d) = None).
  { intros s1 Hi1 E1. destruct (ptr_of s1 (Data d)) as [q|] eqn:Eq; [|done]. pose proof (in_cached _ _ _ _ _ _ _ Hi1 (Data d) ltac:(done) ltac:(eauto)) as Ht. unfold in_tree in Ht. lia. }
  assert (Hre : forall s1, inv 0 T D s1 -> nb s1 = nb s -> inv 1 T (upd D d (zeros PF_NODE_SIZE)) s1).
  { intros s1 Hi1 E1. eapply inv_retree; [exact Hi1| |by apply Hz]. intros [d'|n] Hx; [|done]. destruct Hx as [?|Hx]; [done|]. simpl. apply upd_ne. unfold in_tree in Hx. lia. }
  destruct (m =? 0) eqn:Em; breflect.
  { apply pwp_ret, (HQ _ T); [apply loaded_refl|by apply Hre|rewrite Em; apply ptr_of_root|by apply Hnd]. }
  assert (Hxm : inner (Mht m)) by (apply inner_mht; lia).
  pose proof (up_bound _ _ _ _ _ Hi (inner_data d Hd) ltac:(unfold in_tree; lia)) as Hbm. fold m in Hbm.
  apply pwp_bind, pwp_gets. destruct (_ && _) eqn:Eb.
  - apply andb_true_iff in Eb as [Ea _]. breflect. assert (Hd96 : d = 96 * m) by (unfold m, d, data_at in *; layout; Z.to_euclidean_division_equations; lia).
    unfold ipf_append_mht_node. apply pwp_bind, pwp_assert; [by apply Z.ltb_lt; lia|].
    apply pwp_bind. pose proof (up_lt m ltac:(lia)) as Hlt. change ((m - 1) / CHILD_MHT_NODES_COUNT) with (up (Mht m)).
    apply (ipf_read_mht_node_spec 0 T D); [done|lia|right; left; unfold in_tree; layout; lia|clear -Hlt Hbm; lia| |by apply HF].
    intros pp s1 Hl Hi1 Hpp. assert (En : nb s1 = nb s) by apply (quiet_nb s s1), Hl.
    assert (Hnc1 : ptr_of s1 (Mht m) = None).
    { destruct (ptr_of s1 (Mht m)) as [q|] eqn:Eq; [|done]. pose proof (in_cached _ _ _ _ _ _ _ Hi1 _ Hxm ltac:(eauto)) as Ht. unfold in_tree in Ht. layout. lia. }
    assert (Hi2 : inv 1 (upd T m (zeros PF_NODE_SIZE)) (upd D d (zeros PF_NODE_SIZE)) s1).
    { eapply inv_retree; [exact Hi1| |].
      - intros [d'|n] Hx; simpl; apply upd_ne; destruct Hx as [E|Hx]; unfold in_tree in *; try done; layout; [lia|injection E as ->; lia|lia].
      - apply Hz. intros n. unfold upd. destruct (n =? m); [apply zeros_sized|apply HT]. }
    apply (add_new_node_spec (upd T m (zeros PF_NODE_SIZE)) (upd D d (zeros PF_NODE_SIZE)) (Mht m) pp s1); try done.
    + rewrite En. unfold in_tree. layout. lia.
    + simpl. by rewrite upd_eq.
    + intros ptr n s2 Ha2 Hi3. apply (HQ _ (upd T m (zeros PF_NODE_SIZE))); [|done|by rewrite (added_ptr _ _ _ _ _ (Mht m) Ha2), decide_True|].
      * change DEPTH with (S 13). rewrite chain_S by done. eapply loaded_trans; [eapply loaded_mono; [|exact Hl]|eapply added_loaded; try done; left].
        intros k Hk. right. rewrite (chain_enough 13 DEPTH) in Hk; [done| |unfold DEPTH; lia].
        change (32 ^ Z.of_nat DEPTH) with (32 * 32 ^ Z.of_nat 13) in Hbm. clear -Hbm Hm Hlt. layout. Z.to_euclidean_division_equations; lia.
      * rewrite (added_ptr _ _ _ _ _ (Data d) Ha2) by done. rewrite decide_False by done. by apply Hnd.
  - apply (ipf_read_mht_node_spec 0 T D); [done|lia| |done| |done].
    + right. left. unfold in_tree. assert (d mod 96 <> 0).
      { intros E. apply Bool.andb_false_iff in Eb as [Hb|Hb]; breflect; [|done]. apply Hb. unfold d, data_at in *. layout. Z.to_euclidean_division_equations; lia. }
      rewrite Enb. unfold m. layout. Z.to_euclidean_division_equations; lia.
    + intros ptr s1 Hl Hi1 Hp. assert (En : nb s1 = nb s) by apply (quiet_nb s s1), Hl. apply (HQ _ T); [done|by apply Hre|done|by apply Hnd].
Qed.

(** ** Fetching a data node *)

(** Only the cache and the heap matter for what is in memory. *)
Lemma core_ext T D s s' : core T D s -> cache s' = cache s -> heap s' = heap s -> next_ptr s' = next_ptr s -> core T D s'.
Proof.
  intros [? ? Hn ? ?] Ec Eh En. split; rewrite ?Ec, ?Eh, ?En; try done. intros k q Hk. destruct (Hn k q Hk) as (x & n & ? & ? & ? & ? & ? & Hp).
  exists x, n. split_and!; try done. unfold PfInv.parent_ok, ptr_of in *. by rewrite Ec, Eh, En.
Qed.

(** A new order of the cache. *)
Lemma core_cache T D s c : core T D s -> lruc_ok c -> lruc_map c = lruc_map (cache s) -> core T D (set_cache c s).
Proof.
  intros [? ? Hn ? ?] Hc Em. split; try done. intros k q. simpl. rewrite Em. intros Hk.
  destruct (Hn k q Hk) as (x & n & ? & ? & ? & ? & ? & Hp). exists x, n. split_and!; try done.
  destruct Hp as [Hp|Hp]; [left|by right]. unfold ptr_of in *. simpl. by rewrite Em.
Qed.

Lemma ptr_of_cache s c x : lruc_map c = lruc_map (cache s) -> ptr_of (set_cache c s) x = ptr_of s x.
Proof. intros E. unfold ptr_of. simpl. by rewrite E. Qed.

Lemma inv_cache e T D s c : inv e T D s -> lruc_ok c -> lruc_map c = lruc_map (cache s) -> inv e T D (set_cache c s).
Proof.
  intros Hi Hc Em. eapply inv_transfer; [done|done|by apply core_cache; [apply Hi|..]| | |].
  - eapply live_same; [apply Hi|intros; by apply ptr_of_cache|]. simpl. eauto.
  - intros x _. unfold dirty. by rewrite ptr_of_cache.
  - intros x Hx. rewrite ptr_of_cache by done. by apply Hi.
Qed.

(** The data node and its ancestors. *)
Definition way (d : Z) : list Z := phys (Data d) :: chain DEPTH (up (Data d)).

Definition others (keys l : list Z) : list Z := filter (fun k => k ∉ keys) l.

Lemma others_app keys l1 l2 : others keys (l1 ++ l2) = others keys l1 ++ others keys l2.
Proof. apply filter_app. Qed.

Lemma others_none keys l : (forall k, k ∈ l -> k ∈ keys) -> others keys l = [].
Proof. intros Hl. apply list_filter_none, Forall_forall. intros k Hk Hn. by apply Hn, Hl. Qed.

Lemma others_cons keys k l : k ∈ keys -> others keys (k :: l) = others keys l.
Proof. intros Hk. apply (filter_cons_False (fun k => k ∉ keys)). auto. Qed.

Lemma others_del keys k l : k ∈ keys -> others keys (list_del k l) = others keys l.
Proof.
  intros Hk. unfold others, list_del. induction l as [|x l IH]; [done|]. rewrite (filter_cons (fun k0 => k0 <> k)).
  destruct (decide (x <> k)) as [Hne|Heq%dec_stable]; rewrite !filter_cons; [destruct (decide _); [f_equal|]; done|].
  subst x. rewrite decide_False by (intros Hn; by apply Hn). done.
Qed.

Lemma loaded_others keys s s' : loaded keys s s' -> others keys (lruc_list (cache s')) = others keys (lruc_list (cache s)).
Proof. intros [_ (new & -> & Hn) _]. by rewrite others_app, others_none. Qed.

(** The data node [d] is at [ptr] and at the front of the cache; of the others only its
    ancestors may have moved. *)
Record fetched (e : Z) T D (d ptr : Z) s s' : Prop := {
  fe_quiet : quiet s s';
  fe_inv : inv e T D s';
  fe_ptr : ptr_of s' (Data d) = Some ptr;
  fe_head : exists rest, lruc_list (cache s') = phys (Data d) :: rest;
  fe_others : others (way d) (lruc_list (cache s')) = others (way d) (lruc_list (cache s));
}.

Lemma chain_not_data d fuel m : 0 <= d -> 0 <= m -> phys (Data d) ∉ chain fuel m.
Proof.
  intros Hd. revert m. induction fuel as [|fuel IH]; intros m Hm; simpl; (destruct (m =? 0) eqn:Em; [by intros ?%elem_of_nil|]); breflect; [by intros ?%elem_of_nil|].
  rewrite not_elem_of_cons. split; [intros E; by apply phys_inj in E|]. apply IH. apply (up_valid (Mht m)), inner_mht. lia.
Qed.

(** The parent has been loaded and the data node is put in front. *)
Lemma added_fetched e T D d ptr n s s1 s2 :
  0 <= d -> loaded (chain DEPTH (up (Data d))) s s1 -> added (Data d) ptr n s1 s2 -> inv e T D s2 -> fetched e T D d ptr s s2.
Proof.
  intros Hd Hl Ha Hi. split; [eapply quiet_trans; [apply Hl|apply Ha]|done| | |].
  - rewrite (added_ptr _ _ _ _ _ (Data d) Ha) by done. by rewrite decide_True.
  - rewrite (ad_list _ _ _ _ _ Ha). eauto.
  - rewrite (ad_list _ _ _ _ _ Ha), others_cons by left. apply loaded_others. eapply loaded_mono; [|done]. intros; by right.
Qed.

Lemma loaded_not_cached e T D d s s1 :
  inv e T D s -> inv e T D s1 -> 0 <= d -> loaded (chain DEPTH (up (Data d))) s s1 -> ptr_of s (Data d) = None -> ptr_of s1 (Data d) = None.
Proof.
  intros Hi Hi1 Hd Hl Hn. destruct (ptr_of s1 (Data d)) as [q|] eqn:Eq; [|done]. exfalso. destruct (lo_list _ _ _ Hl) as (new & El & Hnew).
  rewrite ptr_of_inner in Eq, Hn by done. assert (Hk : phys (Data d) ∈ lruc_list (cache s1)) by (apply (lru_dom _ (co_lru _ _ _ _ (in_core _ _ _ _ _ _ _ Hi1))); eauto).
  rewrite El in Hk. apply elem_of_app in Hk as [Hk|Hk].
  - apply Hnew in Hk. revert Hk. apply chain_not_data; [done|]. by apply (up_valid (Data d)).
  - apply (lru_dom _ (co_lru _ _ _ _ (in_core _ _ _ _ _ _ _ Hi))) in Hk as [? ?]. congruence.
Qed.

Lemma ipf_append_data_node_spec T D offset s (Q : option Z -> pf_context H -> Prop) :
  inv 0 T D s -> MD_USER_DATA_SIZE <= offset -> offset = file_size (encrypted_part_plain s) -> (offset - MD_USER_DATA_SIZE) mod PF_NODE_SIZE = 0 ->
  (forall ptr T' s', fetched 1 T' (upd D (data_at offset) (zeros PF_NODE_SIZE)) (data_at offset) ptr s s' -> Q (Some ptr) s') ->
  (forall s', failed 0 T D s s' -> Q None s') ->
  pwp (ipf_append_data_node offset) Q s.
Proof using OK.
  intros Hi Hoff Eo Ha HQ HF. unfold ipf_append_data_node. apply pwp_bind. apply (ipf_get_mht_node_append T D); try done.
  intros pp T' s1 Hl Hi1 Hpp Hnc. apply pwp_bind. destruct (get_node_numbers_eq offset Hoff) as [Hd ->]. fold (data_at offset) in *.
  unfold PfInv.pwp at 1, lift_opt. cbn [data_node_number physical_data_node_number].
  apply (add_new_node_spec T' (upd D (data_at offset) (zeros PF_NODE_SIZE)) (Data (data_at offset)) pp s1); try done.
  - rewrite (quiet_nb s s1) by apply Hl. unfold in_tree, nb. rewrite <- Eo, data_nodes_end by done. lia.
  - simpl. by rewrite upd_eq.
  - intros ptr n s2 Ha2 Hi2. apply (HQ _ T'). by eapply added_fetched.
Qed.

Lemma ipf_read_data_node_spec T D offset s (Q : option Z -> pf_context H -> Prop) :
  inv 0 T D s -> MD_USER_DATA_SIZE <= offset -> in_tree (nb s) (Data (data_at offset)) ->
  (forall ptr s', fetched 0 T D (data_at offset) ptr s s' -> Q (Some ptr) s') ->
  (forall s', failed 0 T D s s' -> Q None s') ->
  pwp (ipf_read_data_node offset) Q s.
Proof using OK.
  intros Hi Hoff Ht HQ HF. unfold ipf_read_data_node. destruct (get_node_numbers_eq offset Hoff) as [Hd ->]. fold (data_at offset) in *.
  set (d := data_at offset) in *. apply pwp_bind. unfold PfInv.pwp at 1, lift_opt. cbn [data_node_number physical_data_node_number].
  apply pwp_bind. unfold PfInv.pwp at 1, cache_get. pose proof (co_lru _ _ _ _ (in_core _ _ _ _ _ _ _ Hi)) as Ho.
  destruct (lruc_map (cache s) !! phys (Data d)) as [ptr|] eqn:Ec.
  - destruct (lruc_get_ok _ _ _ Ho Ec) as (c' & Eg & Ho' & Hit & Em & _). rewrite Eg. apply pwp_ret, HQ.
    assert (El : lruc_list c' = phys (Data d) :: list_del (phys (Data d)) (lruc_list (cache s))).
    { unfold lruc_get, get_map_node in Eg. rewrite Ec in Eg. by simplify_eq. }
    split; [done|by apply inv_cache|by rewrite ptr_of_cache, ptr_of_inner|simpl; eauto|]. simpl. rewrite El, others_cons by left. apply others_del. left.
  - unfold lruc_get, get_map_node. rewrite Ec. replace (set_cache (cache s) s) with s by by destruct s.
    apply pwp_bind. apply (ipf_get_mht_node_spec T D); try done.
    intros pp s1 Hl Hi1 Hpp. fold d in Hl, Hpp. assert (Hnc : ptr_of s (Data d) = None) by by rewrite ptr_of_inner.
    apply (read_new_node_spec 0 T D (Data d) pp s1); try done; [by rewrite (quiet_nb s s1) by apply Hl|exact (loaded_not_cached _ _ _ _ _ _ Hi Hi1 Hd Hl Hnc)| |].
    + intros ptr n s2 Ha2 Hi2. apply HQ. by eapply added_fetched.
    + intros s2 Hf. apply HF. eapply failed_quiet; [apply Hl|done].
Qed.

(** ** The order of the cache *)

Lemma ordered_app seen l1 l2 : ordered seen (l1 ++ l2) <-> ordered seen l1 /\ ordered (reverse l1 ++ seen) l2.
Proof.
  revert seen. induction l1 as [|k l1 IH]; intros seen; simpl; [tauto|]. rewrite IH, reverse_cons, <- app_assoc. simpl. tauto.
Qed.

Lemma ordered_others keys seen seen' l :
  (forall n, phys (Mht n) ∈ seen -> phys (Mht n) ∈ seen') -> (forall n, phys (Mht n) ∈ keys -> phys (Mht n) ∈ seen') ->
  ordered seen l -> ordered seen' (others keys l).
Proof.
  revert seen seen'. induction l as [|k l IH]; intros seen seen' Hs Hk; [done|]. simpl. intros [Hp Ho]. unfold others. rewrite filter_cons.
  destruct (decide (k ∉ keys)) as [Hn|Hn%dec_stable]; simpl.
  - split; [auto|]. eapply IH; [|intros; right; auto|exact Ho]. intros n [->|?]%elem_of_cons; [left|right; auto].
  - eapply (IH (k :: seen)); [|done|exact Ho]. intros n [<-|?]%elem_of_cons; auto.
Qed.

(** The parent of a node of the list is in front of it. *)
Lemma ordered_closed seen l x :
  ordered seen l -> inner x -> phys x ∈ l -> up x <> 0 -> phys (Mht (up x)) ∈ seen \/ phys (Mht (up x)) ∈ l.
Proof.
  revert seen. induction l as [|k l IH]; intros seen; [by intros _ _ ?%elem_of_nil|]. simpl. intros [Hp Ho] Hx [<-|Hin]%elem_of_cons Hup; [by left; apply Hp|].
  destruct (IH _ Ho Hx Hin Hup) as [[->|?]%elem_of_cons|?]; [right; left|by left|right; by right].
Qed.

Lemma chain_ordered fuel n seen : 0 <= n < 32 ^ Z.of_nat fuel -> ordered seen (reverse (chain fuel n)).
Proof.
  revert n. induction fuel as [|fuel IH]; intros n Hn; simpl; (destruct (n =? 0) eqn:En; [done|]); breflect; [done|].
  rewrite reverse_cons. apply ordered_app. assert (Hup : 0 <= up (Mht n) < 32 ^ Z.of_nat fuel).
  { rewrite Nat2Z.inj_succ, Z.pow_succ_r in Hn by lia. layout. Z.to_euclidean_division_equations; lia. }
  split; [by apply IH|]. simpl. split; [|done]. intros x Hx Ex Hne. apply phys_inj in Ex; [|by apply inner_valid|simpl; lia]. subst x.
  rewrite reverse_involutive. apply elem_of_app. left. destruct fuel as [|fuel]; [simpl in Hup; lia|]. rewrite chain_S by done. left.
Qed.

Lemma chain_NoDup fuel n : 0 <= n -> NoDup (chain fuel n).
Proof.
  revert n. induction fuel as [|fuel IH]; intros n Hn; simpl; (destruct (n =? 0) eqn:En; [constructor|]); breflect; [constructor|].
  pose proof (up_lt n ltac:(lia)) as Hlt. constructor; [by apply chain_below|]. apply IH. lia.
Qed.

(** [lruc_get] of one key after the other. *)
Definition bump_list (keys l : list Z) : list Z := foldl (fun l k => k :: list_del k l) l keys.

Lemma bump_list_eq keys l : NoDup keys -> bump_list keys l = reverse keys ++ others keys l.
Proof.
  revert l. induction keys as [|k keys IH]; intros l Hn; simpl.
  - unfold others. symmetry. apply list_filter_all, Forall_forall. by intros ? _ ?%elem_of_nil.
  - inversion Hn as [|? ? Hk Hn']; subst. rewrite IH by done. rewrite reverse_cons, <- app_assoc. f_equal. unfold others at 1.
    rewrite filter_cons_True by done. simpl. f_equal. unfold others, list_del. rewrite list_filter_filter. apply list_filter_iff.
    intros x. rewrite not_elem_of_cons. tauto.
Qed.

(** After fetching a data node and moving its ancestors in front of it, parents come first. *)
Lemma way_ordered d l0 rest :
  0 <= d -> 0 <= up (Data d) < 32 ^ Z.of_nat DEPTH -> ordered [] l0 -> NoDup (phys (Data d) :: rest) ->
  others (way d) (phys (Data d) :: rest) = others (way d) l0 -> ordered [] (bump_list (chain DEPTH (up (Data d))) (phys (Data d) :: rest)).
Proof.
  intros Hd Hup Ho Hnd E. rewrite bump_list_eq by (apply chain_NoDup; lia). set (ch := chain DEPTH (up (Data d))) in *.
  assert (Eo : others ch (phys (Data d) :: rest) = phys (Data d) :: others (way d) l0).
  { rewrite <- E. unfold others. rewrite filter_cons_True by (apply chain_not_data; [done|lia]). f_equal.
    rewrite filter_cons_False by (intros Hn; apply Hn; left). inversion Hnd as [|? ? Hni Hnd']; subst.
    clear -Hni. induction rest as [|k rest IH]; [done|]. apply not_elem_of_cons in Hni as [Hne Hni].
    rewrite !filter_cons. specialize (IH Hni). destruct (decide (k ∉ ch)) as [Hk|Hk], (decide (k ∉ way d)) as [Hw|Hw]; rewrite ?IH; try done; exfalso.
    - apply Hw. intros [->|?]%elem_of_cons; done.
    - apply Hk. intros ?. apply Hw. by right. }
  rewrite Eo. apply ordered_app. split; [by apply chain_ordered|]. rewrite reverse_involutive, app_nil_r. simpl. split.
  - intros x Hx Ex Hne. apply phys_inj in Ex; [|by apply inner_valid|done]. subst x. unfold ch. change DEPTH with (S 13). rewrite chain_S by done. left.
  - eapply (ordered_others (way d) []); [by intros ? ?%elem_of_nil| |done]. intros n [En|Hn]%elem_of_cons; [rewrite En; left|by right].
Qed.
End nodes.
