(* ===== verification/PfFlush.v ===== *)
(** * Protected files: writing changes back

    A flush encrypts the nodes that have changed, children before parents, then the root and
    the metadata, and writes them to the host.  Afterwards the whole tree is sealed again. *)

From S2P Require Import Prelude LruCache PfLayout PfFormat PfSort ProtFiles PfInv PfNodes.

Section flush.
Context {H : Type} `{CB : !pf_callbacks H} (strict intact : bool) (disk : H -> Z -> option bytes) `{OK : !callbacks_ok strict disk}.
Implicit Types (s : pf_context H) (T D : Z -> bytes).
Abbreviation core := (core intact).
Abbreviation inv := (inv strict intact disk).
Abbreviation pwp := (pwp true).
Abbreviation quiet := (quiet strict disk).
Abbreviation sealed := (sealed strict disk).
Abbreviation root_sealed := (root_sealed strict disk).

(** ** Encrypting one node *)

(** Only the position of an iteration may differ. *)
Definition same_lru (c c' : lruc_context) : Prop := lruc_list c' = lruc_list c /\ lruc_map c' = lruc_map c.

Lemma same_lru_ok c c' : same_lru c c' -> lruc_ok c -> lruc_ok c'.
Proof. intros [El Em] [? ?]. split; by rewrite ?El, ?Em. Qed.

Lemma same_lru_refl c : same_lru c c.
Proof. done. Qed.

Lemma same_lru_trans c1 c2 c3 : same_lru c1 c2 -> same_lru c2 c3 -> same_lru c1 c3.
Proof. intros [? ?] [? ?]. split; congruence. Qed.

(** The fields of a node that never change. *)
Definition skeleton (n : file_node_t) : mht_node_type_e * Z * Z * Z :=
  (node_type n, node_number n, parent n, physical_node_number n).

(** The fields of a node that encryption does not change. *)
Definition shape (n : file_node_t) : mht_node_type_e * Z * Z * bool * Z :=
  (node_type n, node_number n, parent n, node_need_writing n, physical_node_number n).

(** [s'] is [s] with other contents of nodes. *)
Record reseal (s s' : pf_context H) : Prop := {
  rs_quiet : quiet s s';
  rs_cache : same_lru (cache s) (cache s');
  rs_next : next_ptr s' = next_ptr s;
  rs_shape : forall q, shape <$> heap s' !! q = shape <$> heap s !! q;
}.

Lemma reseal_refl s : reseal s s.
Proof. split; try done. Qed.

Lemma reseal_trans s1 s2 s3 : reseal s1 s2 -> reseal s2 s3 -> reseal s1 s3.
Proof. intros [] []. split; try congruence; [by eapply quiet_trans|by eapply same_lru_trans]. Qed.

Lemma reseal_ptr s s' x : reseal s s' -> ptr_of s' x = ptr_of s x.
Proof. intros Hr. unfold ptr_of. by rewrite (proj2 (rs_cache _ _ Hr)). Qed.

Lemma reseal_node s s' q n : reseal s s' -> heap s !! q = Some n -> exists n', heap s' !! q = Some n' /\ shape n' = shape n.
Proof. intros Hr E. pose proof (rs_shape _ _ Hr q) as Hs. rewrite E in Hs. destruct (heap s' !! q) as [n'|]; [|done]. apply (inj Some) in Hs. eauto. Qed.

Lemma reseal_dirty s s' x : reseal s s' -> dirty s' x <-> dirty s x.
Proof.
  intros Hr. unfold dirty. rewrite (reseal_ptr _ _ _ Hr). split; intros (q & n & Ep & En & Hw); exists q.
  - pose proof (rs_shape _ _ Hr q) as Hs. rewrite En in Hs. destruct (heap s !! q) as [n'|]; [|done]. apply (inj Some) in Hs. exists n'. unfold shape in Hs. split_and!; congruence.
  - destruct (reseal_node _ _ _ _ Hr En) as (n' & En' & Hs). exists n'. unfold shape in Hs. split_and!; congruence.
Qed.

(** The parent of a node that has changed is still there. *)
Lemma reseal_parent s s' x ptr n :
  reseal s s' -> live s -> inner x -> dirty s x -> ptr_of s' x = Some ptr -> heap s' !! ptr = Some n -> ptr_of s' (Mht (up x)) = Some (parent n).
Proof.
  intros Hr Hl Hx (q & m & Hq & Hm & Hw) Hp Hn. pose proof (Hl _ _ _ Hx Hq Hm Hw) as Hu. rewrite (reseal_ptr _ _ x Hr) in Hp. rewrite (reseal_ptr _ _ (Mht (up x)) Hr), Hu. assert (q = ptr) as -> by congruence.
  destruct (reseal_node _ _ _ _ Hr Hm) as (n' & ? & Hs). unfold shape in Hs. congruence.
Qed.

(** New contents of nodes that are again those of a tree. *)
Lemma shape_skeleton (h h' : gmap Z file_node_t) q : shape <$> h' !! q = shape <$> h !! q -> skeleton <$> h' !! q = skeleton <$> h !! q.
Proof. destruct (h' !! q), (h !! q); try done. intros E%(inj Some). unfold shape in E. simpl. unfold skeleton. simplify_eq. congruence. Qed.

Lemma core_reseal T D T' D' s s' :
  core T D s -> same_lru (cache s) (cache s') -> next_ptr s' = next_ptr s -> (forall q, skeleton <$> heap s' !! q = skeleton <$> heap s !! q) ->
  (forall x q n, valid x -> ptr_of s x = Some q -> heap s' !! q = Some n -> decrypted n = body T' D' x) ->
  (forall x, sized PF_NODE_SIZE (body T' D' x)) -> core T' D' s'.
Proof.
  intros Hc Ec Ex Hs Hb Hz.
  assert (Hn : forall q n, heap s !! q = Some n -> exists n', heap s' !! q = Some n' /\ skeleton n' = skeleton n).
  { intros q n E. specialize (Hs q). rewrite E in Hs. destruct (heap s' !! q) as [n'|]; [|done]. apply (inj Some) in Hs. eauto. }
  assert (Hnone : forall q, heap s' !! q = None <-> heap s !! q = None).
  { intros q. specialize (Hs q). destruct (heap s' !! q), (heap s !! q); done. }
  assert (Hok : forall x q n n', valid x -> ptr_of s x = Some q -> heap s' !! q = Some n' -> skeleton n' = skeleton n -> node_ok T D x n -> node_ok T' D' x n').
  { intros x q n n' Hv Hp Hq Hsh [? ? ? _]. unfold skeleton in Hsh. simplify_eq. split; try congruence. by eapply Hb. }
  assert (Hp : forall x, ptr_of s' x = ptr_of s x) by (intros; unfold ptr_of; by rewrite (proj2 Ec)). split.
  - destruct (co_root _ _ _ _ Hc) as (n & Hr & Or). destruct (Hn _ _ Hr) as (n' & Hr' & Hsh). exists n'. split; [done|].
    eapply Hok; [done|apply ptr_of_root|done..].
  - eapply same_lru_ok; [done|apply Hc].
  - intros k q. rewrite (proj2 Ec). intros Hk. destruct (co_nodes _ _ _ _ Hc k q Hk) as (x & n & -> & Hx & ? & Hq & On & Pn).
    destruct (Hn _ _ Hq) as (n' & Hq' & Hsh). exists x, n'. split_and!; try done.
    + eapply Hok; [by apply inner_valid|by rewrite ptr_of_inner|done..].
    + unfold parent_ok in *. rewrite Hp, Hnone, Ex. assert (parent n' = parent n) as -> by (unfold skeleton in Hsh; congruence). done.
  - intros q [n Hq]. rewrite Ex. apply Hc. destruct (heap s !! q) eqn:E; [eauto|]. apply Hnone in E. congruence.
  - done.
Qed.

(** The node is encrypted in memory under its entry in the tree. *)
Definition msealed s T D x : Prop :=
  exists ptr n, ptr_of s x = Some ptr /\ heap s !! ptr = Some n /\ sized PF_NODE_SIZE (encrypted n) /\
    g_cb_aes_gcm_encrypt (key_of T x) (body T D x) = (PF_STATUS_SUCCESS, encrypted n, gmac_of T x).

(** [T'] is [T] with another entry for [x]. *)
Record reentry (x : nref) (T T' : Z -> bytes) : Prop := {
  re_other : forall n, n <> up x -> T' n = T n;
  re_entry : forall y, inner y -> y <> x -> key_of T' y = key_of T y /\ gmac_of T' y = gmac_of T y;
}.

Lemma reentry_upd T x k m :
  (forall n, sized PF_NODE_SIZE (T n)) -> inner x -> sized PF_KEY_SIZE k -> sized PF_MAC_SIZE m ->
  let T' := upd T (up x) (set_crypto_gmac (slot x) m (set_crypto_key (slot x) k (T (up x)))) in
  reentry x T T' /\ key_of T' x = k /\ gmac_of T' x = m /\ forall n, sized PF_NODE_SIZE (T' n).
Proof.
  intros HT Hx Hk Hm T'. destruct (crypto_set (slot x) k m (T (up x)) (HT _) Hk Hm (slot_range x Hx)) as (Hs & Ek & Em & Ho).
  unfold key_of, gmac_of, T'. rewrite upd_eq. split_and!; try done.
  - split; [intros; by apply upd_ne|]. intros y Hy Hne. unfold key_of, gmac_of. destruct (decide (up y = up x)) as [Hu|Hu]; [|by rewrite upd_ne].
    rewrite Hu, upd_eq. apply Ho; [by apply slot_range|]. intros E. apply Hne. by apply up_slot_inj.
  - intros n. destruct (decide (n = up x)) as [->|]; [by rewrite upd_eq|by rewrite upd_ne].
Qed.

Lemma msealed_other s s' T T' D x y :
  reseal s s' -> reentry x T T' -> inner y -> y <> x -> y <> Mht (up x) ->
  (forall q, ptr_of s y = Some q -> encrypted <$> heap s' !! q = encrypted <$> heap s !! q) ->
  msealed s T D y -> msealed s' T' D y.
Proof.
  intros Hr Ht Hy Hne Hnp He (q & n & Ep & En & Hz & Ee). destruct (reseal_node _ _ _ _ Hr En) as (n' & En' & _).
  specialize (He q Ep). rewrite En, En' in He. injection He as He. exists q, n'. rewrite (reseal_ptr _ _ _ Hr), He.
  destruct (re_entry _ _ _ Ht y Hy Hne) as [-> ->]. assert (body T' D y = body T D y) as ->; [|done].
  destruct y as [d|n0]; [done|]. apply (re_other _ _ _ Ht). congruence.
Qed.

Lemma encrypt_node_spec T D x ptr n pp s (Q : bool -> pf_context H -> Prop) :
  core T D s -> inner x -> ptr_of s x = Some ptr -> heap s !! ptr = Some n -> ptr_of s (Mht (up x)) = Some pp ->
  (forall T' s', core T' D s' -> cache s' = cache s -> reseal s s' -> reentry x T T' -> msealed s' T' D x ->
     (forall q, q <> ptr -> encrypted <$> heap s' !! q = encrypted <$> heap s !! q) -> Q true s') ->
  (strict = false -> forall s', quiet s s' -> Q false s') ->
  pwp (encrypt_node ptr pp (slot x)) Q s.
Proof using OK.
  intros Hc Hx Hp Hn Hpp HQ HF.
  assert (Hne : Mht (up x) <> x) by (intros E; destruct x as [|m]; [done|]; injection E as E; pose proof (up_lt m ltac:(destruct Hx as [? Hne]; simpl in *; assert (m <> 0) by congruence; lia)); lia).
  assert (Hvp : valid (Mht (up x))) by by apply up_valid. assert (Hv : valid x) by by apply inner_valid.
  destruct (core_node _ _ _ _ (Mht (up x)) _ Hc Hvp Hpp) as (p & Hpn & Op). destruct (core_node _ _ _ _ _ _ Hc Hv Hp) as (n0 & ? & On). simplify_eq.
  assert (Hpq : pp <> ptr) by (intros ->; apply Hne; by eapply ptr_inj).
  unfold encrypt_node, ipf_generate_random_key. apply pwp_bind, pwp_bind. apply (pwp_random strict disk). intros st k h' Hk Hh Hst.
  destruct (PF_FAILURE st) eqn:Ef.
  { destruct Hst as [?|Es]; [done|]. apply pwp_bind, pwp_modify, pwp_ret. cbn beta iota. apply pwp_bind. eapply pwp_update; [done|]. cbn [negb]. apply pwp_ret, HF; [done|].
    split; try done. }
  apply pwp_ret. cbn beta iota. apply pwp_bind. eapply pwp_update; [done|]. cbn [negb]. apply pwp_bind.
  eapply pwp_deref; [simpl; by rewrite lookup_insert_ne|]. destruct (g_cb_aes_gcm_encrypt k (decrypted n)) as [[st1 c] m] eqn:Ee.
  destruct (encrypt_cases strict disk _ _ _ _ _ Ee) as (Hlc & Hm & Hst1). apply pwp_bind. eapply pwp_store; [simpl; by rewrite lookup_insert_ne|].
  apply pwp_bind. eapply pwp_update; [simpl; rewrite lookup_insert_ne by done; apply lookup_insert_eq|]. simpl.
  destruct Hst1 as [->|[Es Hf1]].
  2: { rewrite Hf1. apply pwp_bind, pwp_modify, pwp_ret, HF; [done|]. split; try done. }
  cbn [PF_FAILURE negb PF_STATUS_SUCCESS Z.eqb]. apply pwp_ret.
  destruct (reentry_upd T x k m) as (Hre & Ek & Em & Hsz); [intros i; apply (co_sized _ _ _ _ Hc (Mht i))|done..|].
  set (T' := upd T (up x) _) in *. set (p' := set_decrypted (T' (up x)) p). set (n' := set_encrypted c n).
  match goal with |- Q _ ?s' => set (s1 := s') end.
  assert (Eh : forall q, heap s1 !! q = if decide (q = pp) then Some p' else if decide (q = ptr) then Some n' else heap s !! q).
  { intros q. unfold s1, p', T'. simpl. rewrite upd_eq. pose proof (no_body _ _ _ _ Op) as Eb. simpl in Eb. rewrite <- Eb. destruct (decide (q = pp)) as [->|]; [by rewrite lookup_insert_eq|].
    rewrite lookup_insert_ne by done. destruct (decide (q = ptr)) as [->|]; [by rewrite lookup_insert_eq|]. by rewrite !lookup_insert_ne. }
  assert (Er : reseal s s1).
  { split; try done. intros q. rewrite Eh. destruct (decide (q = pp)) as [->|]; [by rewrite Hpn|]. destruct (decide (q = ptr)) as [->|]; [by rewrite Hn|done]. }
  assert (Ebx : body T' D x = body T D x) by (destruct x as [d|i]; [done|]; apply (re_other _ _ _ Hre); congruence).
  apply (HQ T'); try done.
  - eapply core_reseal; [exact Hc|apply Er|apply Er|intros q; apply shape_skeleton, Er| |].
    + intros y q nq Hy Hq. rewrite Eh. destruct (decide (q = pp)) as [->|Hqp]; [|destruct (decide (q = ptr)) as [->|Hqn]].
      * intros [= <-]. by rewrite (ptr_inj _ _ _ _ _ _ _ Hc Hy Hvp Hq Hpp).
      * intros [= <-]. rewrite (ptr_inj _ _ _ _ _ _ _ Hc Hy Hv Hq Hp), Ebx. apply On.
      * intros Enq. destruct (core_node _ _ _ _ _ _ Hc Hy Hq) as (n1 & ? & O1). simplify_eq. rewrite (no_body _ _ _ _ O1).
        destruct y as [d|i]; [done|]. symmetry. apply (re_other _ _ _ Hre). intros ->. congruence.
    + intros [d|i]; [apply (co_sized _ _ _ _ Hc (Data d))|apply Hsz].
  - exists ptr, n'. rewrite (reseal_ptr _ _ _ Er), Eh, decide_False, decide_True, Ebx, Ek, Em by done. split_and!; try done.
    + unfold sized in *. simpl. rewrite Hlc, (no_body _ _ _ _ On). apply (co_sized _ _ _ _ Hc x).
    + by rewrite <- (no_body _ _ _ _ On).
  - intros q Hq. rewrite Eh. destruct (decide (q = pp)) as [->|]; [by rewrite Hpn|]. by rewrite decide_False.
Qed.

(** ** Loops over the cache *)

Section loop.
Context {A : Type} (step : A -> Z -> SM (pf_context H) (A * bool)) (I : A -> list Z -> pf_context H -> Prop)
  (Q : A * bool -> pf_context H -> Prop) (c0 : lruc_context) (Hok : lruc_ok c0).
Hypothesis (Hpos : forall acc l s c, same_lru (cache s) c -> I acc l s -> I acc l (set_cache c s)).
Hypothesis (Hend : forall acc s, same_lru c0 (cache s) -> I acc (lruc_list c0) s -> Q (acc, true) s).
Hypothesis (Hstep : forall acc l1 k l2 ptr s, lruc_list c0 = l1 ++ k :: l2 -> lruc_map c0 !! k = Some ptr -> same_lru c0 (cache s) ->
  I acc l1 s -> pwp (step acc ptr) (fun r s' => if snd r then cache s' = cache s /\ I (fst r) (l1 ++ [k]) s' else Q r s') s).

Lemma cache_loop_rule l2 : forall fuel k l1 ptr acc s,
  lruc_list c0 = l1 ++ k :: l2 -> lruc_map c0 !! k = Some ptr -> same_lru c0 (cache s) -> lruc_current (cache s) = CNode k ->
  (length l2 < fuel)%nat -> I acc l1 s -> pwp (cache_loop fuel step (Some ptr) acc) Q s.
Proof using Hok Hpos Hend Hstep.
  induction l2 as [|k2 l2 IH]; intros fuel k l1 ptr acc s El Ek Hs Hcur Hf HI; (destruct fuel as [|fuel]; [simpl in Hf; lia|]); cbn [cache_loop];
    apply pwp_bind; (eapply pwp_mono; [by eapply (Hstep acc l1 k)|]); intros [acc1 []] s1 HI1; simpl in HI1; try (by apply pwp_ret); destruct HI1 as [Ec HI1];
    apply pwp_bind; unfold PfInv.pwp at 1, cache_next, lruc_get_next; rewrite Ec; destruct Hs as [Es1 Es2]; rewrite Es1, Hcur;
    (assert (Hni : k ∉ l1) by (pose proof (lru_nodup _ Hok) as Hnd; rewrite El in Hnd; apply NoDup_app in Hnd as (_ & Hd & _); intros Hk; apply (Hd k Hk); left));
    assert (exists x l', lruc_list c0 = x :: l') as (x & l' & Ex) by (rewrite El; destruct l1; eauto); rewrite Ex, <- Ex, El, next_key_spec by done; cbn [head mbind option_bind].
  - simpl. assert (Hsl : same_lru (cache s1) (Lruc (l1 ++ [k]) (lruc_map (cache s)) CNull)) by (split; simpl; congruence).
    destruct fuel; apply pwp_ret, Hend; try (split; simpl; congruence); rewrite El; by apply Hpos.
  - destruct (proj1 (lru_dom _ Hok k2) ltac:(rewrite El; in_list)) as [p2 Ep2]. unfold data_of_key, get_map_node. rewrite Es2, Ep2. cbn [mbind option_bind].
    apply (IH fuel k2 (l1 ++ [k])); [by rewrite El, <- app_assoc|done|split; simpl; congruence|done|simpl in Hf; lia|].
    apply Hpos; [split; simpl; congruence|done].
Qed.

Lemma for_each_cached_rule acc s : same_lru c0 (cache s) -> I acc [] s -> pwp (for_each_cached step acc) Q s.
Proof using Hok Hpos Hend Hstep.
  intros [El Em] HI. unfold for_each_cached. apply pwp_bind. unfold PfInv.pwp at 1, cache_first, lruc_get_first. rewrite El.
  assert (lruc_list c0 = [] \/ exists k l, lruc_list c0 = k :: l) as [E0|(k & l & E0)] by (clear; destruct (lruc_list c0); eauto); rewrite E0.
  - apply pwp_bind, pwp_gets. assert (Hq : Q (acc, true) (set_cache (cache s) s)).
    { apply Hend; [split; simpl; congruence|]. rewrite E0. by apply Hpos. }
    by destruct (length _).
  - destruct (proj1 (lru_dom _ Hok k) ltac:(rewrite E0; left)) as [p Ep]. unfold data_of_key, get_map_node. rewrite Em, Ep. cbn [mbind option_bind].
    apply pwp_bind, pwp_gets. apply (cache_loop_rule l _ k []); [done|done|split; simpl; congruence|done|simpl; lia|].
    apply Hpos; [split; simpl; congruence|done].
Qed.
End loop.

(** ** Encrypting all nodes that have changed *)

(** From the tree [T] in [s0], the nodes that have changed and satisfy [P] have been encrypted;
    only entries and contents of nodes that have changed differ. *)
Record sealing T D s0 (P : nref -> Prop) (T' : Z -> bytes) s : Prop := {
  se_core : core T' D s;
  se_reseal : reseal s0 s;
  se_entry : forall y, inner y -> ~ dirty s0 y -> key_of T' y = key_of T y /\ gmac_of T' y = gmac_of T y;
  se_body : forall n, ~ dirty s0 (Mht n) -> T' n = T n;
  se_done : forall y, inner y -> dirty s0 y -> P y -> msealed s T' D y;
}.

Lemma sealing_mono T D s0 (P P' : nref -> Prop) T' s :
  (forall y, inner y -> dirty s0 y -> P' y -> P y) -> sealing T D s0 P T' s -> sealing T D s0 P' T' s.
Proof. intros HP [? ? ? ? ?]. split; auto. Qed.

Lemma sealing_start T D s (P : nref -> Prop) : core T D s -> (forall y, inner y -> dirty s y -> ~ P y) -> sealing T D s P T s.
Proof. intros Hc HP. split; try done. intros y ? ? ?. by destruct (HP y). Qed.

Lemma msealed_cache s c T D x : same_lru (cache s) c -> msealed s T D x -> msealed (set_cache c s) T D x.
Proof. intros [_ E] (q & n & Ep & ?). exists q, n. split; [|done]. by rewrite ptr_of_cache. Qed.

Lemma reseal_cache s0 s c : same_lru (cache s) c -> reseal s0 s -> reseal s0 (set_cache c s).
Proof. intros Hc [[] ? ? ?]. split; try done. by eapply same_lru_trans. Qed.

Lemma sealing_cache T D s0 P T' s c : same_lru (cache s) c -> sealing T D s0 P T' s -> sealing T D s0 P T' (set_cache c s).
Proof.
  intros Hc [H1 ? ? ? ?]. split; try done.
  - apply core_cache; [done|eapply same_lru_ok; [done|apply H1]|apply Hc].
  - by apply reseal_cache.
  - intros. apply msealed_cache; auto.
Qed.

(** One more node, before its parent. *)
Lemma sealing_step T D s0 P T' s x ptr n (Q : bool -> pf_context H -> Prop) :
  sealing T D s0 P T' s -> live s0 -> inner x -> dirty s0 x -> dirty s0 (Mht (up x)) -> ~ P (Mht (up x)) ->
  ptr_of s x = Some ptr -> heap s !! ptr = Some n ->
  (forall T'' s', cache s' = cache s -> sealing T D s0 (fun y => y = x \/ P y) T'' s' -> Q true s') ->
  (strict = false -> forall s', Q false s') ->
  pwp (encrypt_node ptr (parent n) (slot x)) Q s.
Proof using OK.
  intros [Hc Hr He Hb Hd] Hl Hx Hdx Hdu HP Hp Hn HQ HF.
  eapply encrypt_node_spec; try done; [by eapply reseal_parent| |auto]. intros T'' s' Hc' Ec Hr' Ht Hm Ho. apply (HQ T''); [done|]. split; [done|by eapply reseal_trans|..].
  - intros y Hy Hnd. destruct (re_entry _ _ _ Ht y Hy) as [-> ->]; [by intros ->|]. auto.
  - intros m Hnd. rewrite (re_other _ _ _ Ht); [auto|]. by intros ->.
  - intros y Hy Hdy Hor. destruct (decide (y = x)) as [->|Hne]; [done|]. destruct Hor as [?|HPy]; [done|].
    eapply msealed_other; try done; [by intros ->| |by apply Hd].
    intros q Hq. apply Ho. intros ->. apply Hne. by eapply (ptr_inj _ _ _ _ _ _ _ Hc); [apply inner_valid..| |].
Qed.

Definition is_data (x : nref) : Prop := match x with Data _ => True | Mht _ => False end.

Lemma node_is_type T D x n t : node_ok T D x n -> is_type t n = bool_decide (node_type_of x = t).
Proof. intros [E _ _ _]. unfold is_type. rewrite E. by destruct x, t. Qed.

Lemma cached_node T D s k ptr :
  core T D s -> lruc_map (cache s) !! k = Some ptr -> exists x n, inner x /\ k = phys x /\ ptr_of s x = Some ptr /\ heap s !! ptr = Some n /\ node_ok T D x n.
Proof.
  intros Hc Hk. destruct (co_nodes _ _ _ _ Hc k ptr Hk) as (x & n & -> & Hx & _ & Hn & Ok & _). exists x, n. split_and!; try done. by rewrite ptr_of_inner.
Qed.

Lemma dirty_cached s x : inner x -> lruc_ok (cache s) -> dirty s x -> phys x ∈ lruc_list (cache s).
Proof. intros Hx Ho (q & n & Hq & _). rewrite ptr_of_inner in Hq by done. apply (lru_dom _ Ho). eauto. Qed.

Lemma update_data_nodes_spec e T D s0 (Q : unit * bool -> pf_context H -> Prop) :
  inv e T D s0 ->
  (forall T' s', sealing T D s0 is_data T' s' -> Q ((), true) s') ->
  (strict = false -> forall s', Q ((), false) s') ->
  pwp (for_each_cached update_data_node ()) Q s0.
Proof using OK.
  intros Hi HQ HF. pose proof (in_core _ _ _ _ _ _ _ Hi) as Hc0. pose proof (co_lru _ _ _ _ Hc0) as Ho.
  apply (for_each_cached_rule _ (fun _ l s => exists T', sealing T D s0 (fun y => is_data y /\ phys y ∈ l) T' s) _ (cache s0) Ho); [| | |done|].
  - intros _ l s c Hc [T' Hs]. exists T'. by apply sealing_cache.
  - intros [] s _ [T' Hs]. apply (HQ T'). eapply sealing_mono; [|exact Hs]. intros y Hy Hd ?. split; [done|]. by apply dirty_cached.
  - intros [] l1 k l2 ptr s El Ek Hsl [T' Hs]. pose proof (se_core _ _ _ _ _ _ Hs) as Hc. rewrite <- (proj2 Hsl) in Ek.
    destruct (cached_node _ _ _ _ _ Hc Ek) as (x & n & Hx & -> & Hp & Hn & On). unfold update_data_node. apply pwp_bind. eapply pwp_deref; [done|].
    rewrite (node_is_type _ _ _ _ _ On). assert (Hdx : dirty s0 x <-> node_need_writing n = true).
    { rewrite <- (reseal_dirty s0 s) by apply Hs. by eapply dirty_iff. }
    assert (Hskip : ~ (is_data x /\ dirty s0 x) -> sealing T D s0 (fun y => is_data y /\ phys y ∈ l1 ++ [phys x]) T' s).
    { intros Hno. eapply sealing_mono; [|exact Hs]. intros y Hy Hdy [? [?|E%list_elem_of_singleton]%elem_of_app]; [done|].
      apply phys_inj in E; [|by apply inner_valid..]. subst y. tauto. }
    destruct x as [d|m]; simpl; [|apply pwp_ret; split; [done|]; exists T'; apply Hskip; by intros [[] _]].
    destruct (node_need_writing n) eqn:Hw; [|apply pwp_ret; split; [done|]; exists T'; apply Hskip; intros [_ Hd%Hdx]; done].
    apply pwp_bind. rewrite (no_number _ _ _ _ On). change (data_nodes_crypto (number_of (Data d))) with (slot (Data d)).
    assert (dirty s0 (Data d)) by by apply Hdx.
    apply (sealing_step _ _ _ _ _ _ (Data d) _ _ _ Hs (in_live _ _ _ _ _ _ _ Hi) Hx); [done|by apply Hi|by intros [[] _]|done|done| |].
    + intros T'' s' Ec Hs'. apply pwp_ret. split; [done|]. exists T''. eapply sealing_mono; [|exact Hs'].
      intros y Hy Hdy [Hyd [?|E%list_elem_of_singleton]%elem_of_app]; [by right|left]. apply phys_inj in E; [done|by apply inner_valid..].
    + intros Es s'. by apply pwp_ret, HF.
  - exists T. apply sealing_start; [done|]. by intros y _ _ [_ ?%elem_of_nil].
Qed.

(** The array of the MHT nodes that have changed. *)
Definition dirty_mhts s0 (l : list Z) : Prop :=
  forall ptr, ptr ∈ l -> exists m, 0 < m /\ dirty s0 (Mht m) /\ ptr_of s0 (Mht m) = Some ptr.

Lemma collect_mht_nodes_spec T D s0 P T' s (Q : list Z * bool -> pf_context H -> Prop) :
  sealing T D s0 P T' s ->
  (forall l s', sealing T D s0 P T' s' -> dirty_mhts s0 l ->
     (forall m, 0 < m -> dirty s0 (Mht m) -> exists ptr, ptr ∈ l /\ ptr_of s0 (Mht m) = Some ptr) -> Q (l, true) s') ->
  pwp (for_each_cached collect_mht_node []) Q s.
Proof using OK.
  intros Hs HQ. pose proof (se_core _ _ _ _ _ _ Hs) as Hc. pose proof (co_lru _ _ _ _ Hc) as Ho.
  assert (Hps : forall s1 x, sealing T D s0 P T' s1 -> ptr_of s1 x = ptr_of s0 x) by (intros s1 x H1; apply reseal_ptr, H1).
  apply (for_each_cached_rule _ (fun acc l s => sealing T D s0 P T' s /\ dirty_mhts s0 acc /\
    forall m, 0 < m -> dirty s0 (Mht m) -> phys (Mht m) ∈ l -> exists ptr, ptr ∈ acc /\ ptr_of s0 (Mht m) = Some ptr) _ (cache s) Ho); [| | |done|].
  - intros acc l s1 c Hsl (H1 & H2 & H3). split; [by apply sealing_cache|done].
  - intros acc s1 Hsl (H1 & H2 & H3). apply HQ; [done..|]. intros m Hm Hd. apply H3; [done..|].
    apply dirty_cached; [by apply inner_mht|done|]. by apply (reseal_dirty s0 s); [apply Hs|].
  - intros acc l1 k l2 ptr s1 El Ek Hsl (H1 & H2 & H3). rewrite <- (proj2 Hsl) in Ek.
    destruct (cached_node _ _ _ _ _ (se_core _ _ _ _ _ _ H1) Ek) as (x & n & Hx & -> & Hp & Hn & On). unfold collect_mht_node. apply pwp_bind. eapply pwp_deref; [done|].
    rewrite (node_is_type _ _ _ _ _ On). rewrite Hps in Hp by done. assert (Hdx : dirty s0 x <-> node_need_writing n = true).
    { rewrite <- (reseal_dirty s0 s1) by apply H1. eapply dirty_iff; [|done]. by rewrite Hps. }
    assert (Hskip : (forall m, x = Mht m -> ~ dirty s0 x) -> forall m, 0 < m -> dirty s0 (Mht m) -> phys (Mht m) ∈ l1 ++ [phys x] -> exists ptr, ptr ∈ acc /\ ptr_of s0 (Mht m) = Some ptr).
    { intros Hno m Hm Hd [?|E%list_elem_of_singleton]%elem_of_app; [auto|]. apply phys_inj in E; [|by apply inner_valid, inner_mht|by apply inner_valid]. subst x. by destruct (Hno m). }
    destruct x as [d|m]; simpl; [apply pwp_ret; split; [done|]; split_and!; [done..|]; by apply Hskip|].
    destruct (node_need_writing n) eqn:Hw; apply pwp_ret; (split; [done|]); (split; [done|]).
    + assert (0 < m) by (destruct Hx as [? Hne]; simpl in *; assert (m <> 0) by congruence; lia). split.
      * intros q [?|E%list_elem_of_singleton]%elem_of_app; [auto|]. subst q. exists m. split_and!; try done. by apply Hdx.
      * intros m' Hm' Hd' [Hin|E%list_elem_of_singleton]%elem_of_app.
        -- destruct (H3 m' Hm' Hd' Hin) as (q & ? & ?). exists q. split; [|done]. apply elem_of_app. by left.
        -- apply phys_inj in E; [|simpl; lia..]. injection E as ->. exists ptr. split; [|done]. apply elem_of_app. right. left.
    + split; [done|]. apply Hskip. intros _ _ Hd%Hdx. done.
  - split; [done|]. split; [by intros ? ?%elem_of_nil|]. by intros ? ? ? ?%elem_of_nil.
Qed.

Lemma sort_mht_nodes_spec T D s0 P T' s l (Q : list Z -> pf_context H -> Prop) :
  sealing T D s0 P T' s -> dirty_mhts s0 l ->
  (forall l', l' ≡ₚ l -> StronglySorted (fun p q => forall m m', ptr_of s0 (Mht m) = Some p -> ptr_of s0 (Mht m') = Some q -> 0 < m -> 0 < m' -> m <= m') l' -> Q l' s) ->
  pwp (sort_mht_nodes l) Q s.
Proof.
  intros Hs Hl HQ. destruct l as [|p0 l0]; [apply HQ; [done|constructor]|]. set (l := p0 :: l0) in *. unfold PfInv.pwp, sort_mht_nodes.
  set (num := fun ptr => node_number <$> heap s !! ptr).
  assert (Hnum : forall m ptr, 0 < m -> ptr_of s0 (Mht m) = Some ptr -> num ptr = Some m).
  { intros m ptr Hm Hp. rewrite <- (reseal_ptr s0 s) in Hp by apply Hs. destruct (core_node _ _ _ _ (Mht m) _ (se_core _ _ _ _ _ _ Hs) ltac:(simpl; lia) Hp) as (n & Hn & On).
    unfold num. rewrite Hn. simpl. f_equal. apply On. }
  destruct (sort_all num l) as (l' & E & Hperm & Hsort); [|done|].
  - intros ptr Hptr. destruct (Hl ptr Hptr) as (m & Hm & _ & Hp). rewrite (Hnum m) by done. eauto.
  - change (match l with [] => _ | _ :: _ => _ end) with (match sort_nodes num (length l) l 0 (Z.of_nat (length l) - 1) with Some a => Some (a, s) | None => None end).
    rewrite E. apply HQ; [done|]. clear -Hsort Hnum. induction Hsort as [|p l Hs IH Hf]; constructor; [done|].
    eapply Forall_impl; [exact Hf|]. intros q Hq m m' Hp Hq' Hm Hm'. apply Hq; by apply Hnum.
Qed.

(** From the largest number to the smallest: children before parents. *)
Lemma update_mht_nodes_spec e T D s0 l : inv e T D s0 -> forall P T' s (Q : bool -> pf_context H -> Prop),
  sealing T D s0 P T' s -> dirty_mhts s0 l ->
  StronglySorted (fun p q => forall m m', ptr_of s0 (Mht m) = Some p -> ptr_of s0 (Mht m') = Some q -> 0 < m -> 0 < m' -> m' <= m) l ->
  (forall m m' ptr, P (Mht m) -> ptr ∈ l -> 0 < m' -> ptr_of s0 (Mht m') = Some ptr -> m' <= m) ->
  (forall T'' s', sealing T D s0 (fun y => P y \/ exists ptr, ptr ∈ l /\ ptr_of s0 y = Some ptr) T'' s' -> Q true s') ->
  (strict = false -> forall s', Q false s') ->
  pwp (update_mht_nodes l) Q s.
Proof using OK.
  intros Hi. induction l as [|ptr l IH]; intros P T' s Q Hs Hl Hsort HP HQ HF; cbn [update_mht_nodes].
  - apply pwp_ret, (HQ T'). eapply sealing_mono; [|exact Hs]. intros y _ _ [?|(? & ?%elem_of_nil & _)]; done.
  - destruct (Hl ptr ltac:(left)) as (m & Hm & Hd & Hp). assert (Hx : inner (Mht m)) by by apply inner_mht.
    pose proof (se_core _ _ _ _ _ _ Hs) as Hc. assert (Hp' : ptr_of s (Mht m) = Some ptr) by (rewrite (reseal_ptr s0 s); [done|apply Hs]).
    destruct (core_node _ _ _ _ _ _ Hc (inner_valid _ Hx) Hp') as (n & Hn & On). apply pwp_bind. eapply pwp_deref; [done|]. apply pwp_bind.
    rewrite (no_number _ _ _ _ On). change (mht_nodes_crypto (number_of (Mht m))) with (slot (Mht m)).
    inversion Hsort as [|? ? Hsort' Hall]; subst. rewrite Forall_forall in Hall.
    apply (sealing_step _ _ _ _ _ _ (Mht m) _ _ _ Hs (in_live _ _ _ _ _ _ _ Hi) Hx); [done|by apply Hi| |done|done| |].
    + intros HPu. pose proof (HP _ m ptr HPu ltac:(left) Hm Hp). pose proof (up_lt m Hm). lia.
    + intros T'' s' _ Hs'. apply (IH (fun y => y = Mht m \/ P y) T''); [done| |done| | |done].
      * intros q Hq. apply Hl. by right.
      * intros m1 m' q [[= ->]|HPm] Hq Hm' Hq'; [by apply (Hall q Hq m m')|]. apply (HP _ _ q HPm); [by right|done..].
      * intros T3 s3 Hs3. apply (HQ T3). eapply sealing_mono; [|exact Hs3]. intros y Hy Hdy [?|(q & [->|Hq]%elem_of_cons & Hyq)]; [by left; right| |right; eauto].
        left. left. by eapply (ptr_inj _ _ _ _ _ _ _ (in_core _ _ _ _ _ _ _ Hi)); [apply inner_valid..| |].
    + intros Es s'. by apply pwp_ret, HF.
Qed.

(** [s'] is [s0] with everything encrypted, under a new key for the root. *)
Record all_sealed T D s0 (T' : Z -> bytes) s' : Prop := {
  al_core : core T' D s';
  al_lru : same_lru (cache s0) (cache s');
  al_next : next_ptr s' = next_ptr s0;
  al_shape : forall q, shape <$> heap s' !! q = shape <$> heap s0 !! q;
  al_disk : same_disk strict disk (host s0) (host s');
  al_metadata : file_metadata s' = file_metadata s0;
  al_plain : exists k m, sized PF_KEY_SIZE k /\ sized PF_MAC_SIZE m /\
    encrypted_part_plain s' = set_mht_gmac m (set_mht_key k (encrypted_part_plain s0));
  al_fields : mode s' = mode s0 /\ need_writing s' = need_writing s0 /\ file_status s' = file_status s0 /\ user_kdk_key s' = user_kdk_key s0;
  al_entry : forall y, inner y -> ~ dirty s0 y -> key_of T' y = key_of T y /\ gmac_of T' y = gmac_of T y;
  al_body : forall n, ~ dirty s0 (Mht n) -> T' n = T n;
  al_done : forall y, inner y -> dirty s0 y -> msealed s' T' D y;
  al_root : exists r, heap s' !! ROOT = Some r /\ sized PF_NODE_SIZE (encrypted r) /\
    g_cb_aes_gcm_encrypt (mht_key (encrypted_part_plain s')) (T' 0) = (PF_STATUS_SUCCESS, encrypted r, mht_gmac (encrypted_part_plain s'));
}.

Lemma update_root_spec T D s0 T' s (Q : bool -> pf_context H -> Prop) :
  sealing T D s0 (fun _ => True) T' s ->
  (forall s', all_sealed T D s0 T' s' -> Q true s') -> (strict = false -> forall s', Q false s') ->
  pwp update_root Q s.
Proof using OK.
  intros [Hc [Hq Hl Hn Hsh] He Hb Hd] HQ HF. destruct (co_root _ _ _ _ Hc) as (r & Hr & Or).
  unfold update_root, ipf_generate_random_key. apply pwp_bind, pwp_bind. apply (pwp_random strict disk). intros st k h' Hk Hh Hst.
  destruct (PF_FAILURE st) eqn:Ef.
  { destruct Hst as [?|Es]; [done|]. apply pwp_bind, pwp_modify, pwp_ret. cbn beta iota. apply pwp_bind, pwp_modify. cbn [negb]. by apply pwp_ret, HF. }
  apply pwp_ret. cbn beta iota. apply pwp_bind, pwp_modify. cbn [negb]. apply pwp_bind. eapply pwp_deref; [done|].
  destruct (g_cb_aes_gcm_encrypt k (decrypted r)) as [[st1 c] m] eqn:Ee. destruct (encrypt_cases strict disk _ _ _ _ _ Ee) as (Hlc & Hm & Hst1).
  apply pwp_bind. eapply pwp_store; [done|]. apply pwp_bind, pwp_modify. destruct Hst1 as [->|[Es Hf]]; [|rewrite Hf; by apply pwp_bind, pwp_modify, pwp_ret, HF].
  cbn [PF_FAILURE negb PF_STATUS_SUCCESS Z.eqb]. apply pwp_ret. match goal with |- Q _ ?s' => set (s1 := s') end.
  assert (Eh : forall q, heap s1 !! q = if decide (q = ROOT) then Some (set_encrypted c r) else heap s !! q).
  { intros q. unfold s1. simpl. destruct (decide (q = ROOT)) as [->|]; [by rewrite lookup_insert_eq|by rewrite lookup_insert_ne]. }
  assert (Hsh1 : forall q, shape <$> heap s1 !! q = shape <$> heap s !! q).
  { intros q. rewrite Eh. destruct (decide (q = ROOT)) as [->|]; [by rewrite Hr|done]. }
  pose proof (no_body _ _ _ _ Or) as Eb. simpl in Eb. apply HQ. split; try done; try (by apply Hq).
  - eapply core_reseal; [exact Hc|done|done|intros q; apply shape_skeleton, Hsh1| |apply Hc]. intros x q n Hx Hp. rewrite Eh. destruct (decide (q = ROOT)) as [->|].
    + intros [= <-]. simpl. rewrite Eb. by rewrite (ptr_inj _ _ _ _ x (Mht 0) _ Hc Hx ltac:(done) Hp (ptr_of_root _)).
    + intros E. destruct (core_node _ _ _ _ _ _ Hc Hx Hp) as (n' & ? & O'). simplify_eq. apply O'.
  - intros q. by rewrite Hsh1.
  - by eapply same_disk_trans; [apply Hq|].
  - exists k, m. split_and!; try done. unfold s1. simpl. by rewrite (qu_plain _ _ _ _ Hq).
  - unfold s1. simpl. destruct Hq. split_and!; done.
  - intros y Hy Hdy. destruct (Hd y Hy Hdy I) as (q & n & Hp & Hn' & Hz & E). exists q, n. split_and!; try done. rewrite Eh, decide_False; [done|].
    by eapply ptr_not_root.
  - exists (set_encrypted c r). rewrite Eh, decide_True by done. split_and!; [done| |by rewrite <- Eb]. unfold sized in *. simpl. rewrite Hlc, Eb. apply (co_sized _ _ _ _ Hc (Mht 0)).
Qed.

Lemma ipf_update_all_spec e T D s0 (Q : bool -> pf_context H -> Prop) :
  inv e T D s0 -> (forall T' s', all_sealed T D s0 T' s' -> Q true s') -> (strict = false -> forall s', Q false s') ->
  pwp ipf_update_all_data_and_mht_nodes Q s0.
Proof using OK.
  intros Hi HQ HF. unfold ipf_update_all_data_and_mht_nodes. apply pwp_bind. apply (update_data_nodes_spec e T D); [done| |].
  2: { intros Es s'. cbn [negb]. by apply pwp_ret, HF. }
  intros T1 s1 Hs1. cbn [negb]. apply pwp_bind. apply (collect_mht_nodes_spec T D s0 is_data T1); [done|]. intros l s2 Hs2 Hl Hall. cbn beta iota.
  apply pwp_bind. apply (sort_mht_nodes_spec T D s0 is_data T1); [done..|]. intros l' Hperm Hsort. apply pwp_bind.
  assert (Hin : forall ptr, ptr ∈ reverse l' <-> ptr ∈ l) by (intros; by rewrite elem_of_reverse, Hperm).
  apply (update_mht_nodes_spec e T D s0 (reverse l') Hi is_data T1); [done| | |done| |].
  - intros ptr Hp%Hin. auto.
  - clear -Hsort. induction Hsort as [|p l Hs IH Hf]; [constructor|]. rewrite reverse_cons. apply StronglySorted_app_iff.
    split; [done|]. split; [repeat constructor|]. intros q r Hq ->%list_elem_of_singleton m m' ? ? ? ?. rewrite elem_of_reverse in Hq. rewrite Forall_forall in Hf. by apply (Hf q Hq).
  - intros T2 s3 Hs3. cbn [negb]. eapply update_root_spec; [|by apply HQ|done]. eapply sealing_mono; [|exact Hs3].
    intros [d|m] Hy Hd _; [by left|right]. destruct (Hall m) as (ptr & Hp & E); [destruct Hy as [? Hne]; simpl in *; assert (m <> 0) by congruence; lia|done|].
    exists ptr. split; [by apply Hin|done].
  - intros Es s'. cbn [negb]. by apply pwp_ret, HF.
Qed.
End flush.
