(* ===== verification/PfCommit.v ===== *)
(** * Protected files: a flush as a whole

    What [ipf_internal_flush] leaves behind: no node that still has to be written, and a tree
    that is sealed up to the metadata node. *)

From S2P Require Import Prelude LruCache PfLayout PfFormat PfSort ProtFiles PfInv PfBad PfNodes PfFlush.

Section commit.
Context {H : Type} `{CB : !pf_callbacks H} (strict intact : bool) (disk : H -> Z -> option bytes) `{OK : !callbacks_ok strict disk}.
Implicit Types (s : pf_context H) (T D : Z -> bytes).
Abbreviation core := (core intact).
Abbreviation inv := (inv strict intact disk).
Abbreviation pwp := (pwp true).
Abbreviation same_disk := (same_disk strict disk).
Abbreviation sealed := (sealed strict disk).
Abbreviation root_sealed := (root_sealed strict disk).
Abbreviation all_sealed := (all_sealed strict intact disk).

(** ** The metadata node *)

Lemma cmac_cases k b st m :
  g_cb_aes_cmac k b = (st, m) -> sized PF_KEY_SIZE m /\ (st = PF_STATUS_SUCCESS \/ strict = false /\ PF_FAILURE st = true).
Proof using OK.
  intros E. split; [by eapply cmac_sized|]. destruct (decide (strict = true)) as [Es|Es%not_true_is_false].
  - destruct (strict_cmac k b Es) as [m' E']. rewrite E in E'. simplify_eq. by left.
  - unfold PF_FAILURE. destruct (Z.eqb_spec st PF_STATUS_SUCCESS); [by left|by right].
Qed.

(** The metadata node of a file under another key and with other contents. *)
Definition same_header (m m' : metadata_node_t) : Prop :=
  file_id (plain_part m') = file_id (plain_part m) /\ major_version (plain_part m') = major_version (plain_part m).

Lemma ipf_update_metadata_node_spec s (Q : bool -> pf_context H -> Prop) :
  metadata_node_ok (file_metadata s) -> metadata_encrypted_ok (encrypted_part_plain s) ->
  (forall fm h', metadata_node_ok fm -> same_header (file_metadata s) fm -> meta_sealed (user_kdk_key s) (encrypted_part_plain s) fm ->
     same_disk (host s) h' -> Q true (set_file_metadata fm (set_host h' s))) ->
  (strict = false -> forall s', Q false s') ->
  pwp ipf_update_metadata_node Q s.
Proof using OK.
  intros Hm He HQ HF. unfold ipf_update_metadata_node, ipf_generate_random_metadata_key, ipf_import_metadata_key.
  apply pwp_bind, pwp_bind, pwp_gets, pwp_bind. apply (pwp_random strict disk). intros st nonce h' Hn Hh Hst.
  destruct (PF_FAILURE st) eqn:Ef.
  { destruct Hst as [?|Es]; [done|]. apply pwp_bind, pwp_modify, pwp_ret. cbn [negb]. by apply pwp_ret, HF. }
  apply pwp_bind, pwp_gets. simpl. destruct (g_cb_aes_cmac (user_kdk_key s) (kdf_input nonce)) as [st1 key] eqn:Ec.
  destruct (cmac_cases _ _ _ _ Ec) as [Hk [->|[Es Hf]]].
  2: { rewrite Hf. apply pwp_bind, pwp_modify, pwp_ret. cbn [negb]. by apply pwp_ret, HF. }
  cbn [PF_FAILURE negb PF_STATUS_SUCCESS Z.eqb]. apply pwp_bind, pwp_modify, pwp_ret. cbn [negb]. apply pwp_bind, pwp_gets. simpl.
  destruct (g_cb_aes_gcm_encrypt key (metadata_encrypted_bytes (encrypted_part_plain s))) as [[st2 c] g] eqn:Ee.
  destruct (encrypt_cases strict disk _ _ _ _ _ Ee) as (Hlc & Hg & Hst2). apply pwp_bind, pwp_modify.
  destruct Hst2 as [->|[Es Hf]]; [|rewrite Hf; by apply pwp_bind, pwp_modify, pwp_ret, HF].
  cbn [PF_FAILURE negb PF_STATUS_SUCCESS Z.eqb]. apply pwp_ret.
  apply (HQ (set_encrypted_part c g (set_key_id nonce (file_metadata s))) h'); try done.
  - destruct Hm. split; simpl; try done. unfold sized in *. rewrite Hlc. by apply metadata_encrypted_sized.
  - by exists key.
Qed.

(** ** Writing to the host *)

(** Everything is encrypted in memory. *)
Record ready T D s : Prop := {
  rd_core : core T D s;
  rd_bound : nb s < 2 ^ 51;
  rd_dirty : forall y, valid y -> dirty s y -> in_tree (nb s) y;
  rd_mem : forall y, inner y -> dirty s y -> msealed s T D y;
  rd_disk : forall y, inner y -> in_tree (nb s) y -> ~ dirty s y -> sealed (host s) T D y;
}.

(** [s'] is [s] with some nodes written and marked as unchanged. *)
Record written s s' : Prop := {
  wr_lru : same_lru (cache s) (cache s');
  wr_next : next_ptr s' = next_ptr s;
  wr_skeleton : forall q, skeleton <$> heap s' !! q = skeleton <$> heap s !! q;
  wr_bytes : forall q, (encrypted <$> heap s' !! q = encrypted <$> heap s !! q) /\ (decrypted <$> heap s' !! q = decrypted <$> heap s !! q);
  wr_root : heap s' !! ROOT = heap s !! ROOT;
  wr_meta : file_metadata s' = file_metadata s /\ encrypted_part_plain s' = encrypted_part_plain s;
  wr_fields : mode s' = mode s /\ need_writing s' = need_writing s /\ file_status s' = file_status s /\ user_kdk_key s' = user_kdk_key s;
}.

Lemma written_refl s : written s s.
Proof. done. Qed.

Lemma written_trans s1 s2 s3 : written s1 s2 -> written s2 s3 -> written s1 s3.
Proof.
  intros [? ? ? Hb ? [] (? & ? & ? & ?)] [? ? ? Hb' ? [] (? & ? & ? & ?)]. split; try congruence; try (split_and!; congruence).
  - by eapply same_lru_trans.
  - intros q. destruct (Hb q), (Hb' q). split; congruence.
Qed.

Lemma written_nb s s' : written s s' -> nb s' = nb s.
Proof. intros Hw. unfold nb. by rewrite (proj2 (wr_meta _ _ Hw)). Qed.

Lemma ready_cache T D s c : same_lru (cache s) c -> ready T D s -> ready T D (set_cache c s).
Proof.
  intros Hc [H1 ? Hd Hm Hk]. assert (Hp : forall x, ptr_of (set_cache c s) x = ptr_of s x) by (intros; apply ptr_of_cache, Hc).
  assert (Hdi : forall x, dirty (set_cache c s) x <-> dirty s x) by (intros; unfold dirty; by rewrite Hp). split; try done.
  - apply core_cache; [done|eapply same_lru_ok; [done|apply H1]|apply Hc].
  - intros y Hy. rewrite Hdi. auto.
  - intros y Hy. rewrite Hdi. intros. apply msealed_cache; auto.
  - intros y Hy. rewrite Hdi. auto.
Qed.

Lemma written_cache s s' c : same_lru (cache s') c -> written s s' -> written s (set_cache c s').
Proof. intros Hc []. split; try done. by eapply same_lru_trans. Qed.

(** Writing one node. *)
Lemma ready_write T D s x ptr n h' :
  ready T D s -> inner x -> ptr_of s x = Some ptr -> heap s !! ptr = Some n -> dirty s x ->
  (strict = true -> forall k, disk h' k = if k =? phys x then Some (encrypted n) else disk (host s) k) ->
  let s' := set_heap (<[ptr := set_node_need_writing false n]> (heap s)) (set_host h' s) in
  ready T D s' /\ written s s' /\ ~ dirty s' x /\ (forall y, inner y -> dirty s' y -> dirty s y).
Proof.
  intros [Hc Hb Hd Hm Hk] Hx Hp Hn Hdx Hh s'.
  assert (Eh : forall q, heap s' !! q = if decide (q = ptr) then Some (set_node_need_writing false n) else heap s !! q).
  { intros q. unfold s'. simpl. destruct (decide (q = ptr)) as [->|]; [by rewrite lookup_insert_eq|by rewrite lookup_insert_ne]. }
  assert (Hother : forall y, valid y -> y <> x -> dirty s' y <-> dirty s y).
  { intros y Hy Hne. unfold dirty. split; intros (q & m & Hq & Hmq & Hw); exists q, m; (split; [done|]).
    - rewrite Eh in Hmq. rewrite decide_False in Hmq; [done|]. intros ->. apply Hne. by eapply (ptr_inj _ _ _ _ _ _ _ Hc Hy (inner_valid _ Hx) Hq Hp).
    - rewrite Eh, decide_False; [done|]. intros ->. apply Hne. by eapply (ptr_inj _ _ _ _ _ _ _ Hc Hy (inner_valid _ Hx) Hq Hp). }
  assert (Hself : ~ dirty s' x).
  { intros (q & m & Hq & Hmq & Hw). change (ptr_of s x = Some q) in Hq. simplify_eq. rewrite Eh, decide_True in Hmq by done. by simplify_eq. }
  assert (Hw : written s s').
  { split; try done.
    - intros q. rewrite Eh. destruct (decide (q = ptr)) as [->|]; [by rewrite Hn|done].
    - intros q. rewrite Eh. destruct (decide (q = ptr)) as [->|]; [by rewrite Hn|done].
    - rewrite Eh, decide_False; [done|]. by eapply not_eq_sym, ptr_not_root. }
  split; [|split; [done|split; [done|]]].
  - split; try done.
    + eapply core_reseal; [exact Hc|apply Hw..| |apply Hc]. intros y q m Hy Hq Hmq.
      destruct (core_node _ _ _ _ _ _ Hc Hy Hq) as (m' & Hm' & Om). destruct (wr_bytes _ _ Hw q) as [_ Ed]. rewrite Hmq, Hm' in Ed. injection Ed as ->. apply Om.
    + intros y Hy Hdy. destruct (decide (y = x)) as [->|]; [done|]. apply Hd; [done|]. by apply Hother.
    + intros y Hy Hdy. destruct (decide (y = x)) as [->|Hne]; [done|]. apply Hother in Hdy; [|by apply inner_valid|done].
      destruct (Hm y Hy Hdy) as (q & m & Hq & Hmq & Hr). exists q, m. split; [done|]. split; [|done]. rewrite Eh, decide_False; [done|].
      intros ->. apply Hne. by eapply (ptr_inj _ _ _ _ _ _ _ Hc (inner_valid _ Hy) (inner_valid _ Hx) Hq Hp).
    + intros y Hy Ht Hnd. destruct (decide (y = x)) as [->|Hne].
      * destruct (Hm x Hx Hdx) as (q & m & Hq & Hmq & _ & E). simplify_eq. exists (encrypted n). split; [done|]. intros Es. unfold s'. simpl. rewrite Hh, Z.eqb_refl by done. done.
      * destruct (Hk y Hy Ht) as (c & E & Hdk); [by rewrite <- Hother by (try done; by apply inner_valid)|]. exists c. split; [done|]. intros Es. unfold s'. simpl.
        rewrite Hh by done. rewrite (proj2 (Z.eqb_neq _ _)); [auto|]. intros Eph. apply Hne. apply phys_inj; [by apply inner_valid..|done].
  - intros y Hy Hdy. destruct (decide (y = x)) as [->|]; [done|]. apply Hother; [by apply inner_valid|done..].
Qed.

Lemma write_dirty_nodes_spec T D s (Q : unit * bool -> pf_context H -> Prop) :
  ready T D s ->
  (forall s', ready T D s' -> written s s' -> (forall y, inner y -> ~ dirty s' y) -> Q ((), true) s') ->
  (strict = false -> forall s', Q ((), false) s') ->
  pwp (for_each_cached write_dirty_node ()) Q s.
Proof using OK.
  intros Hr HQ HF. pose proof (co_lru _ _ _ _ (rd_core _ _ _ Hr)) as Ho.
  apply (for_each_cached_rule _ (fun _ l s1 => ready T D s1 /\ written s s1 /\ forall y, inner y -> phys y ∈ l -> ~ dirty s1 y) _ (cache s) Ho); [| | |done|].
  - intros _ l s1 c Hc (H1 & H2 & H3). split_and!; [by apply ready_cache|by apply written_cache|].
    intros y Hy Hin. unfold dirty. rewrite ptr_of_cache by apply Hc. by apply H3.
  - intros [] s1 Hl (H1 & H2 & H3). apply HQ; [done..|]. intros y Hy Hd. apply (H3 y Hy); [|done].
    rewrite <- (proj1 Hl). apply dirty_cached; [done| |done]. eapply same_lru_ok; [exact Hl|done].
  - intros [] l1 k l2 ptr s1 El Ek Hl (H1 & H2 & H3). rewrite <- (proj2 Hl) in Ek.
    destruct (cached_node _ _ _ _ _ _ (rd_core _ _ _ H1) Ek) as (x & n & Hx & -> & Hp & Hn & On).
    unfold write_dirty_node. apply pwp_bind. eapply pwp_deref; [done|]. pose proof (dirty_iff _ _ _ _ Hp Hn) as Hdx.
    assert (Hl1 : forall s2, (forall y, inner y -> dirty s2 y -> dirty s1 y) -> ~ dirty s2 x -> forall y, inner y -> phys y ∈ l1 ++ [phys x] -> ~ dirty s2 y).
    { intros s2 Hsub Hnx y Hy [Hin|E%list_elem_of_singleton]%elem_of_app Hd; [by apply (H3 y Hy Hin), Hsub|].
      apply phys_inj in E; [|by apply inner_valid..]. by subst y. }
    destruct (node_need_writing n) eqn:Hw; cbn [negb].
    + destruct (rd_mem _ _ _ H1 x Hx) as (q & m & Hq & Hm & Hz & _); [by apply Hdx|]. simplify_eq.
      pose proof (in_tree_phys _ _ (rd_bound _ _ _ H1) (rd_dirty _ _ _ H1 x (inner_valid _ Hx) ltac:(by apply Hdx))) as Hph.
      rewrite (no_phys _ _ _ _ On). apply pwp_bind. apply (pwp_write_node strict disk); [lia|done| |].
      * intros h' Hh. cbn [negb]. apply pwp_bind. eapply pwp_store; [done|]. apply pwp_ret. split; [done|].
        destruct (ready_write T D s1 x ptr n h' H1 Hx Hp Hn) as (Hr' & Hw' & Hnx & Hsub); [by apply Hdx|done|].
        split_and!; [done|by eapply written_trans|]. by apply Hl1.
      * intros Es st h' _. cbn [negb]. by apply pwp_ret, HF.
    + apply pwp_ret. split; [done|]. split_and!; [done..|]. apply Hl1; [done|]. intros Hd%Hdx. done.
  - split_and!; [done|apply written_refl|]. by intros y _ ?%elem_of_nil.
Qed.

(** The root is encrypted in memory if it has changed, and on the host otherwise. *)
Definition root_ready T s : Prop :=
  in_tree (nb s) (Mht 0) -> exists r c, heap s !! ROOT = Some r /\
    g_cb_aes_gcm_encrypt (mht_key (encrypted_part_plain s)) (T 0) = (PF_STATUS_SUCCESS, c, mht_gmac (encrypted_part_plain s)) /\
    (node_need_writing r = true -> c = encrypted r /\ sized PF_NODE_SIZE c) /\
    (node_need_writing r = false -> strict = true -> disk (host s) 1 = Some c).

(** Everything is on the host. *)
Record on_disk T D s : Prop := {
  od_core : core T D s;
  od_clean : forall y, valid y -> ~ dirty s y;
  od_sealed : forall y, inner y -> in_tree (nb s) y -> sealed (host s) T D y;
  od_root : in_tree (nb s) (Mht 0) -> root_sealed (host s) (encrypted_part_plain s) T;
  od_meta : strict = true -> disk (host s) 0 = Some (metadata_node_bytes (file_metadata s));
}.

(** What a flush does not change, besides the contents of the file. *)
Record kept s s' : Prop := {
  ke_lru : same_lru (cache s) (cache s');
  ke_next : next_ptr s' = next_ptr s;
  ke_skeleton : forall q, skeleton <$> heap s' !! q = skeleton <$> heap s !! q;
  ke_fields : mode s' = mode s /\ file_status s' = file_status s /\ user_kdk_key s' = user_kdk_key s;
}.

Lemma kept_refl s : kept s s.
Proof. done. Qed.

Lemma kept_trans s1 s2 s3 : kept s1 s2 -> kept s2 s3 -> kept s1 s3.
Proof.
  intros [? ? ? (? & ? & ?)] [? ? ? (? & ? & ?)]. split; try congruence; try (split_and!; congruence). by eapply same_lru_trans.
Qed.

Lemma ipf_write_all_spec T D s (Q : bool -> pf_context H -> Prop) :
  ready T D s -> (forall y, inner y -> dirty s y -> dirty s (Mht 0)) -> root_ready T s -> metadata_node_ok (file_metadata s) ->
  (forall s', on_disk T D s' -> kept s s' -> file_metadata s' = file_metadata s -> encrypted_part_plain s' = encrypted_part_plain s -> Q true s') ->
  (strict = false -> forall s', Q false s') ->
  pwp ipf_write_all_changes_to_disk Q s.
Proof using OK.
  intros Hr Hdr Hroot Hmd HQ HF. pose proof (rd_core _ _ _ Hr) as Hc. destruct (co_root _ _ _ _ Hc) as (r & Er & Or).
  assert (Hlast : forall s1, core T D s1 -> (forall y, valid y -> ~ dirty s1 y) -> (forall y, inner y -> in_tree (nb s1) y -> sealed (host s1) T D y) ->
    (in_tree (nb s1) (Mht 0) -> root_sealed (host s1) (encrypted_part_plain s1) T) -> kept s s1 ->
    file_metadata s1 = file_metadata s -> encrypted_part_plain s1 = encrypted_part_plain s ->
    pwp (fm ← sm_gets file_metadata; ipf_write_node 0 (metadata_node_bytes fm)) Q s1).
  { intros s1 H1 H2 H3 H4 H5 E1 E2. apply pwp_bind, pwp_gets. apply (pwp_write_node strict disk); [lia|rewrite E1; by apply metadata_node_sized| |by intros; apply HF].
    intros h' Hh. apply HQ; [|by eapply kept_trans|done..]. split; try done.
    - by eapply core_ext.
    - intros y Hy Ht. destruct (H3 y Hy Ht) as (c & E & Hd). exists c. split; [done|]. intros Es. simpl. rewrite Hh, (proj2 (Z.eqb_neq _ _)); [auto| |done].
      pose proof (phys_pos y (inner_valid _ Hy)). lia.
    - intros Ht. destruct (H4 Ht) as (c & E & Hd). exists c. split; [done|]. intros Es. simpl. rewrite Hh by done. simpl. auto.
    - intros Es. simpl. by rewrite Hh by done. }
  unfold ipf_write_all_changes_to_disk, tree_needs_writing. apply pwp_bind, pwp_bind, pwp_gets, pwp_bind. eapply pwp_deref; [done|]. apply pwp_ret, pwp_bind.
  pose proof (dirty_iff s (Mht 0) ROOT r (ptr_of_root s) Er) as Hd0.
  destruct ((MD_USER_DATA_SIZE <? file_size (encrypted_part_plain s)) && node_need_writing r) eqn:Et.
  - apply andb_true_iff in Et as [Esz Hw]. assert (Ht : in_tree (nb s) (Mht 0)) by (apply (rd_dirty _ _ _ Hr); [done|by apply Hd0]).
    destruct (Hroot Ht) as (r' & c & ? & Ee & Hrw & _). simplify_eq. destruct (Hrw Hw) as [-> Hz].
    apply pwp_bind. apply (write_dirty_nodes_spec T D); [done| |by intros Es s'; cbn [negb]; apply pwp_ret; cbn [negb]; apply pwp_ret, HF].
    intros s1 Hr1 Hw1 Hcl. cbn [negb]. apply pwp_bind. eapply pwp_deref; [by rewrite (wr_root _ _ Hw1)|].
    apply pwp_bind. apply (pwp_write_node strict disk); [lia|done| |by intros Es st h' _; cbn [negb]; apply pwp_ret; cbn [negb]; apply pwp_ret, HF].
    intros h' Hh. cbn [negb]. apply pwp_bind. eapply pwp_update; [simpl; by rewrite (wr_root _ _ Hw1)|]. apply pwp_ret. cbn [negb].
    set (s2 := set_heap _ _). assert (Eh : forall q, heap s2 !! q = if decide (q = ROOT) then Some (set_node_need_writing false r) else heap s1 !! q).
    { intros q. unfold s2. simpl. destruct (decide (q = ROOT)) as [->|]; [by rewrite lookup_insert_eq|by rewrite lookup_insert_ne]. }
    assert (Hsk : forall q, skeleton <$> heap s2 !! q = skeleton <$> heap s1 !! q).
    { intros q. rewrite Eh. destruct (decide (q = ROOT)) as [->|]; [by rewrite (wr_root _ _ Hw1), Er|done]. }
    assert (En : nb s2 = nb s1) by done. pose proof (rd_core _ _ _ Hr1) as Hc1.
    apply Hlast.
    + eapply core_reseal; [exact Hc1|done|done|exact Hsk| |apply Hc1]. intros y q m Hy Hq. rewrite Eh. destruct (decide (q = ROOT)) as [->|].
      * intros [= <-]. rewrite (ptr_inj _ _ _ _ y (Mht 0) _ Hc1 Hy ltac:(done) Hq (ptr_of_root _)). apply Or.
      * intros Em. destruct (core_node _ _ _ _ _ _ Hc1 Hy Hq) as (m' & ? & O'). simplify_eq. apply O'.
    + intros y Hy (q & m & Hq & Hm & Hwm). rewrite Eh in Hm. destruct (decide (q = ROOT)) as [->|Hne]; [by simplify_eq|].
      destruct (valid_inner y Hy) as [->|Hyi]; [rewrite ptr_of_root in Hq; congruence|]. apply (Hcl y Hyi). by exists q, m.
    + intros y Hy Ht'. destruct (rd_disk _ _ _ Hr1 y Hy Ht' (Hcl y Hy)) as (c & E & Hd). exists c. split; [done|]. intros Es. simpl.
      rewrite Hh, (proj2 (Z.eqb_neq _ _)); [auto| |done]. intros E1. assert (y = Mht 0) as -> by (apply phys_inj; [by apply inner_valid|done|done]). by destruct Hy.
    + intros _. exists (encrypted r). simpl. rewrite (proj2 (wr_meta _ _ Hw1)). split; [done|]. intros Es. by rewrite Hh by done.
    + apply (kept_trans s s1 s2); [|split; [done|done|exact Hsk|done]]. destruct Hw1 as [? ? ? ? ? ? (? & ? & ? & ?)]. split; try done.
    + simpl. apply Hw1.
    + simpl. apply Hw1.
  - apply pwp_ret. cbn [negb]. assert (Hnr : ~ dirty s (Mht 0)).
    { intros Hd. pose proof (rd_dirty _ _ _ Hr (Mht 0) ltac:(done) Hd) as Ht. apply Hd0 in Hd. rewrite Hd, andb_true_r in Et. breflect.
      unfold in_tree, nb, data_nodes in Ht. layout. Z.to_euclidean_division_equations; lia. }
    assert (Hcl : forall y, valid y -> ~ dirty s y) by (intros y Hy Hd; destruct (valid_inner y Hy) as [->|Hyi]; [done|by apply Hnr, (Hdr y)]).
    apply Hlast; try done.
    + intros y Hy Ht. apply (rd_disk _ _ _ Hr); [done..|]. by apply Hcl, inner_valid.
    + intros Ht. destruct (Hroot Ht) as (r' & c & ? & E & _ & Hd). simplify_eq. exists c. split; [done|]. apply Hd.
      destruct (node_need_writing r); [|done]. exfalso. by apply Hnr, Hd0.
Qed.

(** ** The flush *)

Lemma dirty_root e T D s x : inv e T D s -> valid x -> dirty s x -> dirty s (Mht 0).
Proof.
  intros Hi. assert (Hm : forall m, 0 <= m -> dirty s (Mht m) -> dirty s (Mht 0)).
  { intros m Hm. revert m Hm. refine (Zlt_0_ind _ _). intros m IH Hm Hd. destruct (decide (m = 0)) as [->|Hne]; [done|].
    pose proof (up_lt m ltac:(lia)). apply (IH (up (Mht m))); [lia|]. apply Hi; [apply inner_mht; lia|done]. }
  intros Hv Hd. destruct x as [d|m]; [|by apply (Hm m)]. apply (Hm (up (Data d))); [by apply up_valid|]. by apply Hi.
Qed.

(** The contents of the file, without the keys. *)
Definition same_contents (e e' : metadata_encrypted_t) : Prop :=
  path e' = path e /\ file_size e' = file_size e /\ md_data e' = md_data e.

Record flushed e T' D s s' : Prop := {
  fl_inv : inv e T' D s';
  fl_kept : kept s s';
  fl_contents : same_contents (encrypted_part_plain s) (encrypted_part_plain s');
  fl_clean : forall x, valid x -> ~ dirty s' x;
  fl_need : need_writing s' = false;
}.

Lemma kept_ptr s s' x : kept s s' -> ptr_of s' x = ptr_of s x.
Proof. intros Hk. unfold ptr_of. by rewrite (proj2 (ke_lru _ _ Hk)). Qed.

(** The end of a flush: everything is on the host. *)
Lemma on_disk_inv e T T' D s s' :
  inv e T D s -> on_disk T' D s' -> kept s s' -> same_contents (encrypted_part_plain s) (encrypted_part_plain s') ->
  meta_ok s' -> meta_sealed (user_kdk_key s') (encrypted_part_plain s') (file_metadata s') ->
  flushed e T' D s (set_need_writing false s').
Proof.
  intros Hi [Hc Hcl Hse Hro Hme] Hk Hsc Hmo Hms. assert (En : nb s' = nb s) by (unfold nb; by rewrite (proj1 (proj2 Hsc))).
  destruct (ke_fields _ _ Hk) as (? & Est & ?). split; try done.
  - split; try done.
    + by eapply core_ext.
    + by apply clean_live.
    + intros x Hx Hp. change (nb (set_need_writing false s')) with (nb s'). rewrite En. apply Hi; [done|]. rewrite <- (kept_ptr s s') by done. done.
    + intros x Hx Hd. by destruct (Hcl x Hx).
    + intros x Hx Hd. by destruct (Hcl x (inner_valid _ Hx)).
    + intros Hd. by destruct (Hcl (Mht 0)).
    + by intros x Hx Ht _; apply Hse.
    + by destruct Hmo.
    + intros Es _. split; [done|]. by apply Hme.
  - eapply kept_trans; [exact Hk|done].
Qed.

Lemma ready_start e T D s : inv e T D s -> (forall x, valid x -> ~ dirty s x) -> ready T D s.
Proof.
  intros Hi Hcl. split; [apply Hi|by eapply nb_bound| | |].
  - intros y Hy Hd. by apply Hi.
  - intros y Hy Hd. by destruct (Hcl y (inner_valid _ Hy)).
  - intros y Hy Ht Hnd. by apply Hi.
Qed.

(** A new metadata node does not touch the tree. *)
Lemma ready_metadata T D s fm h' : ready T D s -> same_disk (host s) h' -> ready T D (set_file_metadata fm (set_host h' s)).
Proof.
  intros [Hc ? ? ? Hd] Hh. split; try done; [by eapply core_ext|]. intros y Hy Ht Hnd. eapply sealed_same; [exact Hh|]. by apply Hd.
Qed.

Lemma root_ready_metadata T s fm h' : root_ready T s -> same_disk (host s) h' -> root_ready T (set_file_metadata fm (set_host h' s)).
Proof. intros Hr Hh Ht. destruct (Hr Ht) as (r & c & ? & ? & ? & Hd). exists r, c. split_and!; try done. intros Hw Es. simpl. rewrite Hh by done. auto. Qed.

(** The last part of a flush, from the metadata node on. *)
Lemma flush_metadata e T T' D s0 s (Q : bool -> pf_context H -> Prop) :
  inv e T D s0 -> ready T' D s -> (forall y, inner y -> dirty s y -> dirty s (Mht 0)) -> root_ready T' s -> meta_ok s ->
  kept s0 s -> same_contents (encrypted_part_plain s0) (encrypted_part_plain s) ->
  (forall s', flushed e T' D s0 s' -> Q true s') ->
  (strict = false -> forall s', PF_FAILURE (file_status s') = true -> Q false s') ->
  pwp (ok1 ← ipf_update_metadata_node;
       if negb ok1 then sm_modify (set_file_status PF_STATUS_CRYPTO_ERROR);; mret false
       else
         ok2 ← ipf_write_all_changes_to_disk;
         if negb ok2 then sm_modify (set_file_status PF_STATUS_WRITE_TO_DISK_FAILED);; mret false
         else sm_modify (set_need_writing false);; mret true) Q s.
Proof using OK.
  intros Hi Hr Hdr Hro Hm Hk Hsc HQ HF. apply pwp_bind. apply ipf_update_metadata_node_spec; [apply Hm..| |].
  2: { intros Es s'. cbn [negb]. apply pwp_bind, pwp_modify, pwp_ret. by apply HF. }
  intros fm h' Hfm [Eid Ever] Hms Hh. cbn [negb]. apply pwp_bind. apply (ipf_write_all_spec T' D); [by apply ready_metadata|done|by apply root_ready_metadata|done| |].
  2: { intros Es s'. cbn [negb]. apply pwp_bind, pwp_modify, pwp_ret. by apply HF. }
  intros s2 Hod Hk2 E1 E2. cbn [negb]. apply pwp_bind, pwp_modify, pwp_ret, HQ. simpl in E1, E2.
  assert (Hk3 : kept s0 s2) by (eapply kept_trans; [exact Hk|]; by destruct Hk2).
  eapply on_disk_inv; try done.
  - by rewrite E2.
  - destruct Hm. split; rewrite ?E1, ?E2; try done; congruence.
  - rewrite E1, E2. destruct (ke_fields _ _ Hk2) as (_ & _ & ->). done.
Qed.

Lemma flush_cases e T D s (Q : bool -> pf_context H -> Prop) :
  inv e T D s ->
  (forall T' s', flushed e T' D s s' -> Q true s') ->
  (strict = false -> forall s', PF_FAILURE (file_status s') = true -> Q false s') ->
  pwp ipf_internal_flush Q s.
Proof using OK.
  intros Hi HQ HF. pose proof (in_core _ _ _ _ _ _ _ Hi) as Hc. destruct (co_root _ _ _ _ Hc) as (r & Er & Or).
  pose proof (dirty_iff s (Mht 0) ROOT r (ptr_of_root s) Er) as Hd0.
  unfold ipf_internal_flush. apply pwp_bind, pwp_gets. destruct (need_writing s) eqn:Ew; cbn [negb].
  2: { apply pwp_ret, (HQ T). split; try done. intros x Hx Hd. apply (dirty_root _ _ _ _ _ Hi Hx) in Hd. apply (in_need _ _ _ _ _ _ _ Hi) in Hd. congruence. }
  apply pwp_bind. unfold tree_needs_writing. apply pwp_bind, pwp_gets, pwp_bind. eapply pwp_deref; [done|]. apply pwp_ret, pwp_bind.
  destruct ((MD_USER_DATA_SIZE <? file_size (encrypted_part_plain s)) && node_need_writing r) eqn:Et.
  - apply andb_true_iff in Et as [Esz Hw]. apply (ipf_update_all_spec strict intact disk e T D); [done| |].
    2: { intros Es s'. cbn [negb]. apply pwp_bind, pwp_modify, pwp_ret. by apply HF. }
    intros T' s1 Hal. cbn [negb]. destruct (al_plain _ _ _ _ _ _ _ _ Hal) as (k & g & Hk & Hg & Ep).
    assert (Hdi : forall y, dirty s1 y <-> dirty s y).
    { intros y. unfold dirty. assert (ptr_of s1 y = ptr_of s y) as -> by (unfold ptr_of; by rewrite (proj2 (al_lru _ _ _ _ _ _ _ _ Hal))).
      split; intros (q & n & Hq & Hn & Hwn); exists q; pose proof (al_shape _ _ _ _ _ _ _ _ Hal q) as Hs; rewrite Hn in Hs;
        [destruct (heap s !! q) as [n'|]|destruct (heap s1 !! q) as [n'|]]; try done; apply (inj Some) in Hs; exists n'; unfold shape in Hs; split_and!; congruence. }
    assert (Enb : nb s1 = nb s) by (unfold nb; by rewrite Ep). pose proof (nb_bound _ _ _ _ _ _ _ Hi) as Hnb.
    eapply (flush_metadata e T T'); [done| | | | | | |by apply HQ|done].
    + split; rewrite ?Enb; [apply Hal|lia| | |].
      * intros y Hy. rewrite Hdi. by apply Hi.
      * intros y Hy. rewrite Hdi. by apply Hal.
      * intros y Hy Ht. rewrite Hdi. intros Hnd. destruct (in_sealed _ _ _ _ _ _ _ Hi y Hy Ht Hnd) as (c & E & Hdk). exists c.
        destruct (al_entry _ _ _ _ _ _ _ _ Hal y Hy Hnd) as [-> ->]. assert (body T' D y = body T D y) as -> by (destruct y as [d|m]; [done|by apply Hal]).
        split; [done|]. intros Es. rewrite (al_disk _ _ _ _ _ _ _ _ Hal) by done. auto.
    + intros y Hy. rewrite !Hdi. by apply (dirty_root e T D s y Hi), inner_valid.
    + intros Ht. destruct (al_root _ _ _ _ _ _ _ _ Hal) as (r' & Er' & Hz & E). exists r', (encrypted r'). split_and!; try done.
      intros Hw'. exfalso. apply (dirty_iff s1 (Mht 0) ROOT r' (ptr_of_root s1)) in Er' as Hd1. assert (dirty s1 (Mht 0)) as Hd%Hd1 by by apply Hdi, Hd0. congruence.
    + destruct (in_meta _ _ _ _ _ _ _ Hi) as [[]]. split; rewrite ?Ep, ?(al_metadata _ _ _ _ _ _ _ _ Hal); try done.
    + destruct (al_fields _ _ _ _ _ _ _ _ Hal) as (? & ? & ? & ?). split; [apply Hal|apply Hal|intros q; apply shape_skeleton, Hal|done].
    + by rewrite Ep.
  - apply pwp_ret. cbn [negb]. assert (Hnr : ~ dirty s (Mht 0)).
    { intros Hd. pose proof (in_dirty _ _ _ _ _ _ _ Hi (Mht 0) ltac:(done) Hd) as Ht. apply Hd0 in Hd. rewrite Hd, andb_true_r in Et. breflect.
      unfold in_tree, nb, data_nodes in Ht. layout. Z.to_euclidean_division_equations; lia. }
    assert (Hcl : forall y, valid y -> ~ dirty s y) by (intros y Hy Hd; by apply Hnr, (dirty_root e T D s y Hi)).
    eapply (flush_metadata e T T); [done|by eapply ready_start| | |apply Hi|done|done|by apply HQ|done].
    + intros y Hy Hd. by destruct (Hcl y (inner_valid _ Hy)).
    + intros Ht. destruct (in_root _ _ _ _ _ _ _ Hi Hnr Ht) as (c & E & Hd). exists r, c. split_and!; try done. intros Hw. exfalso. by apply Hnr, Hd0.
Qed.

(** A failure is reported, and makes the file unusable. *)
Lemma ipf_internal_flush_spec e T D s (Q : bool -> pf_context H -> Prop) :
  inv e T D s ->
  (forall T' s', flushed e T' D s s' -> Q true s') ->
  (strict = false -> forall s', erred s' -> bad s' -> Q false s') ->
  pwp ipf_internal_flush Q s.
Proof using OK.
  intros Hi HQ HF. eapply pwp_mono; [apply (pwp_and_false _ _ (fun ok s' => if ok : bool then exists T', flushed e T' D s s' else strict = false /\ bad s') _ _ ltac:(apply (flush_cases e T D); eauto) (loud_flush s))|].
  intros [] s' [Hs He]; [destruct Hs; by eapply HQ|]. destruct Hs. by apply HF; auto.
Qed.
End commit.
