(* ===== verification/PfContents.v ===== *)
(** * Protected files: the contents of a file

    The contents are the bytes of the metadata node followed by those of the data nodes, up
    to the size of the file. *)

From S2P Require Import Prelude LruCache PfLayout PfFormat PfSort ProtFiles PfInv PfNodes.

(** ** Bytes by position *)

Lemma bytes_eq (l1 l2 : bytes) : length l1 = length l2 -> (forall i, (i < length l1)%nat -> l1 !!! i = l2 !!! i) -> l1 = l2.
Proof.
  intros El Hi. apply list_eq. intros i. destruct (decide (i < length l1)%nat) as [Hlt|].
  - rewrite !list_lookup_lookup_total_lt by lia. by rewrite Hi.
  - by rewrite !lookup_ge_None_2 by lia.
Qed.

Lemma slice_total off n (l : bytes) i : 0 <= off -> Z.of_nat i < n -> slice off n l !!! i = l !!! Z.to_nat (off + Z.of_nat i).
Proof. intros. unfold slice. rewrite lookup_total_take_lt, lookup_total_drop by lia. f_equal. lia. Qed.

Lemma slice_length off n (l : bytes) : 0 <= off -> 0 <= n -> off + n <= Z.of_nat (length l) -> length (slice off n l) = Z.to_nat n.
Proof. intros. unfold slice. rewrite length_take, length_drop. lia. Qed.

Lemma splice_length off (x l : bytes) : 0 <= off <= Z.of_nat (length l) -> Z.of_nat (length (splice off x l)) = Z.max (Z.of_nat (length l)) (off + Z.of_nat (length x)).
Proof. intros. unfold splice. rewrite !length_app, length_take, length_drop. lia. Qed.

Lemma splice_total off (x l : bytes) i :
  0 <= off <= Z.of_nat (length l) ->
  splice off x l !!! i =
    if Z.of_nat i <? off then l !!! i else if Z.of_nat i <? off + Z.of_nat (length x) then x !!! Z.to_nat (Z.of_nat i - off) else l !!! i.
Proof.
  intros Ho. unfold splice. destruct (Z.ltb_spec (Z.of_nat i) off).
  - rewrite lookup_total_app_l by (rewrite length_take; lia). by rewrite lookup_total_take_lt by lia.
  - rewrite lookup_total_app_r by (rewrite length_take; lia). rewrite length_take. destruct (Z.ltb_spec (Z.of_nat i) (off + Z.of_nat (length x))).
    + rewrite lookup_total_app_l by lia. f_equal. lia.
    + rewrite lookup_total_app_r by lia. rewrite lookup_total_drop. f_equal. lia.
Qed.

(** One write after another. *)
Lemma splice_app off (x y l : bytes) : 0 <= off <= Z.of_nat (length l) -> splice (off + Z.of_nat (length x)) y (splice off x l) = splice off (x ++ y) l.
Proof.
  intros Ho. pose proof (splice_length off x l Ho). apply bytes_eq.
  - apply Nat2Z.inj. rewrite !splice_length, length_app by lia. lia.
  - intros i _. rewrite !splice_total, length_app by lia.
    repeat (match goal with |- context [?a <? ?b] => destruct (Z.ltb_spec a b) end); try lia; try done.
    + rewrite lookup_total_app_l by lia. done.
    + rewrite lookup_total_app_r by lia. f_equal. lia.
Qed.

Lemma splice_nil off (l : bytes) : 0 <= off <= Z.of_nat (length l) -> splice off [] l = l.
Proof. intros. unfold splice. simpl. by rewrite Nat.add_0_r, take_drop. Qed.

Lemma slice_0 off (l : bytes) : slice off 0 l = [].
Proof. done. Qed.

(** The bytes that a write of [n] bytes stores. *)
Definition chunk (src : option bytes) (n : Z) : bytes :=
  match src with
  | Some x => take (Z.to_nat n) x
  | None => zeros n
  end.

Lemma memcpy_chunk b o src n : memcpy_or_zero_initialize b o src n = splice o (chunk src n) b.
Proof. by destruct src. Qed.

Lemma chunk_length src n : 0 <= n -> (forall x, src = Some x -> n <= Z.of_nat (length x)) -> Z.of_nat (length (chunk src n)) = n.
Proof. intros Hn Hs. destruct src as [x|]; simpl; [rewrite length_take; specialize (Hs x eq_refl); lia|rewrite zeros_sized; lia]. Qed.

Lemma chunk_advance src n n' : 0 <= n -> 0 <= n' -> chunk src n ++ chunk (advance n src) n' = chunk src (n + n').
Proof.
  intros. destruct src as [x|]; simpl; unfold zeros; rewrite Z2Nat.inj_add by lia; [by rewrite take_take_drop|by rewrite replicate_add].
Qed.

Lemma advance_long n src m : 0 <= n -> (forall x, src = Some x -> n + m <= Z.of_nat (length x)) -> forall x, advance n src = Some x -> m <= Z.of_nat (length x).
Proof. intros Hn Hs x. destruct src as [y|]; [|done]. intros [= <-]. rewrite length_drop. specialize (Hs y eq_refl). lia. Qed.

(** ** The contents *)

Definition byte_of (md : bytes) (D : Z -> bytes) (o : Z) : Z :=
  if o <? MD_USER_DATA_SIZE then md !!! Z.to_nat o
  else D (data_at o) !!! Z.to_nat ((o - MD_USER_DATA_SIZE) mod PF_NODE_SIZE).

Definition contents (e : metadata_encrypted_t) (D : Z -> bytes) : bytes := byte_of (md_data e) D <$> seqZ 0 (file_size e).

Lemma contents_length e D : 0 <= file_size e -> Z.of_nat (length (contents e D)) = file_size e.
Proof. intros. unfold contents. rewrite length_fmap, length_seqZ. lia. Qed.

Lemma contents_total e D i : Z.of_nat i < file_size e -> contents e D !!! i = byte_of (md_data e) D (Z.of_nat i).
Proof.
  intros. unfold contents. apply list_lookup_total_correct. rewrite list_lookup_fmap, lookup_seqZ_lt by lia. done.
Qed.

Lemma contents_eq e D l : Z.of_nat (length l) = file_size e -> (forall i, Z.of_nat i < file_size e -> l !!! i = byte_of (md_data e) D (Z.of_nat i)) -> l = contents e D.
Proof.
  intros El Hi. apply bytes_eq; [apply Nat2Z.inj; rewrite contents_length; lia|]. intros i Hlt. rewrite contents_total by lia. apply Hi. lia.
Qed.

(** Positions within one node. *)
Lemma same_node off o : MD_USER_DATA_SIZE <= off -> MD_USER_DATA_SIZE <= o -> data_at o = data_at off ->
  (o - MD_USER_DATA_SIZE) mod PF_NODE_SIZE = (off - MD_USER_DATA_SIZE) mod PF_NODE_SIZE + (o - off).
Proof. unfold data_at. layout. intros. Z.to_euclidean_division_equations; lia. Qed.

Lemma within_node off o : MD_USER_DATA_SIZE <= off <= o -> (off - MD_USER_DATA_SIZE) mod PF_NODE_SIZE + (o - off) < PF_NODE_SIZE -> data_at o = data_at off.
Proof. unfold data_at. layout. intros. Z.to_euclidean_division_equations; lia. Qed.

(** What a round of [ipf_read] returns. *)
Lemma slice_node e D off n :
  sized PF_NODE_SIZE (D (data_at off)) -> MD_USER_DATA_SIZE <= off -> 0 <= n -> off + n <= file_size e ->
  (off - MD_USER_DATA_SIZE) mod PF_NODE_SIZE + n <= PF_NODE_SIZE ->
  slice ((off - MD_USER_DATA_SIZE) mod PF_NODE_SIZE) n (D (data_at off)) = slice off n (contents e D).
Proof.
  unfold sized. intros Hs Ho Hn Hle Hm. assert (Hmd : 0 < MD_USER_DATA_SIZE) by done. pose proof (contents_length e D ltac:(lia)) as Hl.
  assert (Hmod : 0 <= (off - MD_USER_DATA_SIZE) mod PF_NODE_SIZE) by by apply Z.mod_pos_bound.
  assert (E1 : length (slice ((off - MD_USER_DATA_SIZE) mod PF_NODE_SIZE) n (D (data_at off))) = Z.to_nat n) by (apply slice_length; rewrite ?Hs; lia).
  apply bytes_eq; [rewrite E1, slice_length by (rewrite ?Hl; lia); done|]. rewrite E1. intros i Hi. rewrite !slice_total by lia.
  rewrite contents_total by lia. unfold byte_of. rewrite (proj2 (Z.ltb_ge _ _)) by lia.
  rewrite !Z2Nat.id by lia. assert (E : data_at (off + Z.of_nat i) = data_at off) by (apply within_node; lia).
  rewrite E, (same_node off (off + Z.of_nat i)) by (done || lia). by replace (off + Z.of_nat i - off) with (Z.of_nat i) by lia.
Qed.

Lemma slice_metadata e D off n :
  sized MD_USER_DATA_SIZE (md_data e) -> 0 <= off -> 0 <= n -> off + n <= MD_USER_DATA_SIZE -> off + n <= file_size e ->
  slice off n (md_data e) = slice off n (contents e D).
Proof.
  unfold sized. intros Hs Ho Hn Hle Hm. pose proof (contents_length e D ltac:(lia)) as Hl.
  assert (E1 : length (slice off n (md_data e)) = Z.to_nat n) by (apply slice_length; rewrite ?Hs; lia).
  apply bytes_eq; [rewrite E1, slice_length by (rewrite ?Hl; lia); done|]. rewrite E1. intros i Hi. rewrite !slice_total by lia.
  rewrite contents_total by lia. unfold byte_of. rewrite (proj2 (Z.ltb_lt _ _)) by lia. f_equal. lia.
Qed.

(** A node behind the end. *)
Lemma contents_append e D d b : 0 <= d -> file_size e <= MD_USER_DATA_SIZE + PF_NODE_SIZE * d -> contents e (upd D d b) = contents e D.
Proof.
  intros Hd Hs. destruct (Z.ltb_spec (file_size e) 0); [unfold contents; by rewrite seqZ_nil by lia|].
  apply contents_eq; [by apply contents_length|]. intros i Hi. rewrite contents_total by done. unfold byte_of. destruct (Z.ltb_spec (Z.of_nat i) MD_USER_DATA_SIZE); [done|].
  rewrite upd_ne; [done|]. unfold data_at. layout. Z.to_euclidean_division_equations; lia.
Qed.

(** A round of [ipf_write]. *)
Lemma contents_write e D off src n :
  sized PF_NODE_SIZE (D (data_at off)) -> MD_USER_DATA_SIZE <= off <= file_size e -> 0 <= n -> (forall x, src = Some x -> n <= Z.of_nat (length x)) ->
  (off - MD_USER_DATA_SIZE) mod PF_NODE_SIZE + n <= PF_NODE_SIZE ->
  contents (set_size (Z.max (file_size e) (off + n)) e)
    (upd D (data_at off) (memcpy_or_zero_initialize (D (data_at off)) ((off - MD_USER_DATA_SIZE) mod PF_NODE_SIZE) src n)) =
  splice off (chunk src n) (contents e D).
Proof.
  unfold sized. intros Hs Ho Hn Hsrc Hm. assert (Hmd : 0 < MD_USER_DATA_SIZE) by done. pose proof (contents_length e D ltac:(lia)) as Hl. pose proof (chunk_length src n Hn Hsrc) as Hc.
  assert (Hmod : 0 <= (off - MD_USER_DATA_SIZE) mod PF_NODE_SIZE) by by apply Z.mod_pos_bound.
  symmetry. apply contents_eq; [rewrite splice_length by lia; by rewrite Hl, Hc|]. simpl file_size. simpl md_data. intros i Hi. rewrite memcpy_chunk, splice_total, Hc by lia. unfold byte_of, upd.
  assert (Hold : Z.of_nat i < off \/ off + n <= Z.of_nat i -> contents e D !!! i =
    if Z.of_nat i <? MD_USER_DATA_SIZE then md_data e !!! Z.to_nat (Z.of_nat i)
    else (if data_at (Z.of_nat i) =? data_at off then splice ((off - MD_USER_DATA_SIZE) mod PF_NODE_SIZE) (chunk src n) (D (data_at off)) else D (data_at (Z.of_nat i)))
      !!! Z.to_nat ((Z.of_nat i - MD_USER_DATA_SIZE) mod PF_NODE_SIZE)).
  { intros Hout. rewrite contents_total by lia. unfold byte_of. destruct (Z.ltb_spec (Z.of_nat i) MD_USER_DATA_SIZE); [done|].
    destruct (Z.eqb_spec (data_at (Z.of_nat i)) (data_at off)) as [E|]; [|done]. rewrite E. pose proof (same_node off (Z.of_nat i) ltac:(lia) ltac:(lia) E) as Em.
    assert (0 <= (Z.of_nat i - MD_USER_DATA_SIZE) mod PF_NODE_SIZE) by by apply Z.mod_pos_bound.
    rewrite splice_total, Hc by (rewrite Hs; lia). repeat (match goal with |- context [?a <? ?b] => destruct (Z.ltb_spec a b) end); done || lia. }
  destruct (Z.ltb_spec (Z.of_nat i) off); [apply Hold; lia|]. destruct (Z.ltb_spec (Z.of_nat i) (off + n)); [|apply Hold; lia].
  pose proof (within_node off (Z.of_nat i) ltac:(lia) ltac:(lia)) as E. pose proof (same_node off (Z.of_nat i) ltac:(lia) ltac:(lia) E) as Em.
  rewrite (proj2 (Z.ltb_ge _ _)) by lia. rewrite E, Z.eqb_refl, Em. rewrite splice_total, Hc by (rewrite Hs; lia).
  rewrite (proj2 (Z.ltb_ge _ _)), (proj2 (Z.ltb_lt _ _)) by lia. f_equal. lia.
Qed.

(** The part of a write that goes to the metadata node. *)
Lemma contents_write_metadata e D off src n :
  sized MD_USER_DATA_SIZE (md_data e) -> 0 <= off <= file_size e -> 0 <= n -> off + n <= MD_USER_DATA_SIZE -> (forall x, src = Some x -> n <= Z.of_nat (length x)) ->
  contents (set_size (Z.max (file_size e) (off + n)) (set_md_data (memcpy_or_zero_initialize (md_data e) off src n) e)) D =
  splice off (chunk src n) (contents e D).
Proof.
  unfold sized. intros Hs Ho Hn Hm Hsrc. pose proof (contents_length e D ltac:(lia)) as Hl. pose proof (chunk_length src n Hn Hsrc) as Hc.
  symmetry. apply contents_eq; [rewrite splice_length by lia; by rewrite Hl, Hc|]. simpl file_size. simpl md_data. intros i Hi. rewrite memcpy_chunk, splice_total, Hc by lia. unfold byte_of.
  rewrite splice_total, Hc by (rewrite Hs; lia). rewrite !Nat2Z.id.
  repeat (match goal with |- context [?a <? ?b] => destruct (Z.ltb_spec a b) end); try done; try lia.
  all: rewrite contents_total by lia; unfold byte_of; repeat (match goal with |- context [?a <? ?b] => destruct (Z.ltb_spec a b) end); try lia; by rewrite ?Nat2Z.id.
Qed.
