(* ===== verification/PfMark.v ===== *)
(** * Protected files: changing a data node

    A node that is written to is marked together with its ancestors, so that a flush encrypts
    the whole way up to the root. *)

From S2P Require Import Prelude LruCache PfLayout PfFormat PfSort ProtFiles PfInv PfNodes PfFlush PfCommit.

Section mark.
Context {H : Type} `{CB : !pf_callbacks H} (strict intact : bool) (disk : H -> Z -> option bytes).
Implicit Types (s : pf_context H) (T D : Z -> bytes).
Abbreviation core := (core intact).
Abbreviation inv := (inv strict intact disk).
Abbreviation pwp := (pwp intact).

(** Nothing but nodes in memory has changed. *)
Definition same_context s s' : Prop :=
  exists hp, s' = set_heap hp s.

(** [s'] is [s] with the nodes in [P] marked. *)
Record marked (P : nref -> Prop) s s' : Prop := {
  ma_context : same_context s s';
  ma_skeleton : forall q, skeleton <$> heap s' !! q = skeleton <$> heap s !! q;
  ma_decrypted : forall q, decrypted <$> heap s' !! q = decrypted <$> heap s !! q;
  ma_dirty : forall y, valid y -> dirty s' y <-> dirty s y \/ P y;
}.

Lemma same_context_trans s1 s2 s3 : same_context s1 s2 -> same_context s2 s3 -> same_context s1 s3.
Proof. intros [h1 ->] [h2 ->]. by exists h2. Qed.

Lemma marked_trans (P P' : nref -> Prop) s1 s2 s3 : marked P s1 s2 -> marked P' s2 s3 -> marked (fun y => P y \/ P' y) s1 s3.
Proof.
  intros [? ? ? Hd] [? ? ? Hd']. split; try congruence; [by eapply same_context_trans|]. intros y Hy. rewrite Hd', Hd by done. tauto.
Qed.

Lemma marked_weaken (P P' : nref -> Prop) s s' : (forall y, valid y -> P y <-> P' y) -> marked P s s' -> marked P' s s'.
Proof. intros HP [? ? ? Hd]. split; try done. intros y Hy. by rewrite Hd, HP. Qed.

Lemma marked_refl s : marked (fun _ => False) s s.
Proof. split; try done; [exists (heap s); by destruct s|]. intros. tauto. Qed.

Lemma marked_ptr P s s' x : marked P s s' -> ptr_of s' x = ptr_of s x.
Proof. intros [[hp ->] _ _ _]. done. Qed.

Lemma core_marked P T D s s' : core T D s -> marked P s s' -> core T D s'.
Proof.
  intros Hc Hm. destruct (ma_context _ _ _ Hm) as [hp Es]. eapply core_reseal; [exact Hc|by rewrite Es|by rewrite Es|apply Hm| |apply Hc].
  intros x q n Hx Hp Hn. destruct (core_node _ _ _ _ _ _ Hc Hx Hp) as (m & Hq & Om). pose proof (ma_decrypted _ _ _ Hm q) as Ed.
  rewrite Hn, Hq in Ed. injection Ed as ->. apply Om.
Qed.

Lemma marked_none P s s' q : marked P s s' -> heap s !! q = None -> heap s' !! q = None.
Proof. intros Hm Hq. pose proof (ma_skeleton _ _ _ Hm q) as Hs. rewrite Hq in Hs. by destruct (heap s' !! q). Qed.

Lemma mark_one T D s x ptr n :
  core T D s -> valid x -> ptr_of s x = Some ptr -> heap s !! ptr = Some n ->
  marked (fun y => y = x) s (set_heap (<[ptr := set_node_need_writing true n]> (heap s)) s).
Proof.
  intros Hc Hx Hp Hn. set (s' := set_heap _ _).
  assert (Eh : forall q, heap s' !! q = if decide (q = ptr) then Some (set_node_need_writing true n) else heap s !! q).
  { intros q. unfold s'. simpl. destruct (decide (q = ptr)) as [->|]; [by rewrite lookup_insert_eq|by rewrite lookup_insert_ne]. }
  split; [by eexists|intros q; rewrite Eh; destruct (decide (q = ptr)) as [->|]; [by rewrite Hn|done]..|].
  intros y Hy. unfold dirty. change (ptr_of s' y) with (ptr_of s y). split.
  - intros (q & m & Hq & Hm & Hw). rewrite Eh in Hm. destruct (decide (q = ptr)) as [->|]; [right; by eapply ptr_inj|left; by exists q, m].
  - intros [(q & m & Hq & Hm & Hw)|E].
    + exists q. rewrite Eh. destruct (decide (q = ptr)) as [->|]; eauto.
    + subst y. exists ptr, (set_node_need_writing true n). by rewrite Eh, decide_True.
Qed.

(** A node that is marked has its parent. *)
Lemma mark_live T D s x ptr n :
  core T D s -> live s -> valid x -> ptr_of s x = Some ptr -> heap s !! ptr = Some n -> (inner x -> ptr_of s (Mht (up x)) = Some (parent n)) ->
  live (set_heap (<[ptr := set_node_need_writing true n]> (heap s)) s).
Proof.
  intros Hc Hl Hx Hp Hn Hpa y q m Hy Hq. change (ptr_of s y = Some q) in Hq. simpl. intros [[<- <-]|[Hne Hm]]%lookup_insert_Some Hw.
  - assert (y = x) as -> by by eapply (ptr_inj _ _ _ _ _ _ _ Hc (inner_valid _ Hy) Hx). exact (Hpa Hy).
  - by apply (Hl y q m).
Qed.

Lemma mark_parents_dangling fuel ptr (Q : unit -> pf_context H -> Prop) s : heap s !! ptr = None -> intact = false -> pwp (mark_parents fuel ptr) Q s.
Proof. intros. destruct fuel; cbn [mark_parents]; by apply pwp_dangling. Qed.

Lemma mark_parents_spec T D fuel : forall n ptr s (Q : unit -> pf_context H -> Prop),
  core T D s -> live s -> 0 <= n < 32 ^ Z.of_nat fuel -> ptr_of s (Mht n) = Some ptr ->
  (forall s', marked (fun y => inner y /\ phys y ∈ chain fuel n) s s' -> live s' -> Q () s') ->
  pwp (mark_parents fuel ptr) Q s.
Proof.
  induction fuel as [|fuel IH]; intros n ptr s Q Hc Hl Hn Hp HQ; cbn [mark_parents]; apply pwp_bind;
    destruct (core_node _ _ _ _ (Mht n) _ Hc ltac:(simpl; lia) Hp) as (m & Hm & Om); (eapply pwp_deref; [done|]); rewrite (no_number _ _ _ _ Om); simpl number_of.
  - assert (n = 0) as -> by (simpl in Hn; lia). apply pwp_ret, HQ; [|done]. eapply marked_weaken; [|apply marked_refl]. simpl. intros y _. split; [done|]. by intros [_ ?%elem_of_nil].
  - destruct (n =? 0) eqn:En; breflect.
    { subst n. apply pwp_ret, HQ; [|done]. eapply marked_weaken; [|apply marked_refl]. simpl. intros y _. split; [done|]. by intros [_ ?%elem_of_nil]. }
    assert (Hx : inner (Mht n)) by (apply inner_mht; lia). pose proof (core_parent _ _ _ _ _ _ _ Hc Hx Hp Hm) as Hpa.
    pose proof (mark_one T D s (Mht n) ptr m Hc (inner_valid _ Hx) Hp Hm) as Hmk. apply pwp_bind. eapply pwp_store; [done|].
    destruct Hpa as [Hpa|(Es & Hpa & _)]; [|by apply mark_parents_dangling; [eapply marked_none|]]. apply (IH (up (Mht n))).
    + by eapply core_marked.
    + by eapply mark_live; [..|by apply inner_valid|done|done|].
    + rewrite Nat2Z.inj_succ, Z.pow_succ_r in Hn by lia. layout. Z.to_euclidean_division_equations; lia.
    + done.
    + intros s' Hmk'. apply HQ. eapply marked_weaken; [|by eapply marked_trans]. intros y Hy. rewrite chain_S, elem_of_cons by done. split.
      * intros [->|[? ?]]; auto.
      * intros [Hyi [E|?]]; [left|by right]. apply phys_inj in E; [done..|by apply inner_valid].
Qed.

(** ** Writing to a data node *)

(** The nodes that a change of the data node [d] marks. *)
Definition on_way (d : Z) (y : nref) : Prop := y = Data d \/ inner y /\ phys y ∈ chain DEPTH (up (Data d)) \/ y = Mht 0.

Lemma chain_in fuel n y : inner y -> 0 <= n < 32 ^ Z.of_nat fuel -> phys y ∈ chain fuel n -> exists m, y = Mht m /\ 0 < m /\ (up y = 0 \/ phys (Mht (up y)) ∈ chain fuel n).
Proof.
  intros Hy. revert n. induction fuel as [|fuel IH]; intros n Hn; simpl; (destruct (n =? 0) eqn:En; [by intros ?%elem_of_nil|]); breflect; [by intros ?%elem_of_nil|].
  assert (Hup : 0 <= up (Mht n) < 32 ^ Z.of_nat fuel).
  { rewrite Nat2Z.inj_succ, Z.pow_succ_r in Hn by lia. layout. Z.to_euclidean_division_equations; lia. }
  intros [E|Hin]%elem_of_cons.
  - apply phys_inj in E; [|by apply inner_valid|simpl; lia]. subst y. exists n. split_and!; [done|lia|]. destruct (decide (up (Mht n) = 0)); [by left|right].
    right. destruct fuel as [|fuel]; [simpl in Hup; lia|]. rewrite chain_S by done. left.
  - destruct (IH _ Hup Hin) as (m & -> & ? & [?|?]); exists m; split_and!; try done; [by left|right]. by right.
Qed.

(** The parent of a marked node is marked. *)
Lemma on_way_up d y : 0 <= d -> 0 <= up (Data d) < 32 ^ Z.of_nat DEPTH -> inner y -> on_way d y -> on_way d (Mht (up y)).
Proof.
  intros Hd Hup Hy [->|[[_ Hin]| ->]]; [|destruct (chain_in _ _ _ Hy Hup Hin) as (m & -> & Hm & Hor)|by destruct Hy].
  - destruct (decide (up (Data d) = 0)) as [->|Hne]; [by right; right|]. right. left. split; [apply inner_mht; lia|]. change DEPTH with (S 13). rewrite chain_S by done. left.
  - destruct (decide (up (Mht m) = 0)) as [->|Hne]; [by right; right|]. destruct Hor as [?|?]; [done|]. right. left. split; [|done].
    apply inner_mht. pose proof (up_lt m Hm). lia.
Qed.

Lemma chain_in_tree fuel n nbv y : inner y -> 0 <= n -> in_tree nbv (Mht n) -> phys y ∈ chain fuel n -> in_tree nbv y.
Proof.
  intros Hy. revert n. induction fuel as [|fuel IH]; intros n Hn Ht; simpl; (destruct (n =? 0) eqn:En; [by intros ?%elem_of_nil|]); breflect; [by intros ?%elem_of_nil|].
  assert (Hx : inner (Mht n)) by (apply inner_mht; lia). intros [E|Hin]%elem_of_cons.
  - apply phys_inj in E; [by subst y|by apply inner_valid|simpl; lia].
  - apply (IH (up (Mht n))); [by apply up_valid|by apply in_tree_up|done].
Qed.

Lemma on_way_in_tree d nbv y : 0 <= d < nbv -> on_way d y -> in_tree nbv y.
Proof.
  intros Hd [->|[[Hy Hin]| ->]]; [done| |simpl; layout; lia]. eapply (chain_in_tree DEPTH (up (Data d))); [done|by apply (up_valid (Data d)); apply inner_data; lia| |done].
  by apply in_tree_up; [apply inner_data; lia|].
Qed.

(** [s'] is [s] with another data node [d] and a new size. *)
Record wrote (size : Z) s s' : Prop := {
  wo_size : encrypted_part_plain s' = set_size size (encrypted_part_plain s);
  wo_cache : cache s' = cache s;
  wo_fields : file_metadata s' = file_metadata s /\ mode s' = mode s /\ user_kdk_key s' = user_kdk_key s /\ file_status s' = file_status s /\ host s' = host s;
}.

Lemma inv_write e T D d b s s' size :
  inv e T D s -> 0 <= d -> 0 <= up (Data d) < 32 ^ Z.of_nat DEPTH ->
  core T (upd D d b) s' -> live s' -> wrote size s s' -> need_writing s' = true -> size <= MAX_SIZE -> 0 <= size ->
  data_nodes size = nb s + e -> d < nb s + e -> (forall y, in_tree (nb s + e) y -> in_tree (nb s) y \/ on_way d y) ->
  (forall y, valid y -> dirty s' y <-> dirty s y \/ on_way d y) -> 0 <= e ->
  inv 0 T (upd D d b) s'.
Proof.
  intros Hi Hd Hup Hc Hl Hw Hne Hmax Hpos Hnb Hlt Hnew Hdi He. destruct (wo_fields _ _ _ Hw) as (Em & _ & _ & Est & Eho).
  assert (Enb : nb s' = nb s + e) by (unfold nb at 1; rewrite (wo_size _ _ _ Hw); done).
  assert (Hptr : forall x, ptr_of s' x = ptr_of s x) by (intros; unfold ptr_of; by rewrite (wo_cache _ _ _ Hw)).
  split; rewrite ?Enb, ?Z.add_0_r; try done.
  - intros x Hx. rewrite Hptr. by apply Hi.
  - intros x Hx. rewrite Hdi by done. intros [Hdx|Hox]; [apply (in_tree_mono (nb s)); [lia|]; by apply Hi|]. eapply on_way_in_tree; [|done]. lia.
  - intros x Hx. assert (Hvu : valid (Mht (up x))) by by apply up_valid. rewrite !Hdi by (try done; by apply inner_valid).
    intros [Hdx|Hox]; [left; by apply Hi|right; by apply on_way_up].
  - intros x Hx Ht Hnd. rewrite Hdi in Hnd by by apply inner_valid. apply Decidable.not_or in Hnd as [Hnd Hno].
    destruct (Hnew x Ht) as [Ht'|?]; [|done]. destruct (in_sealed _ _ _ _ _ _ _ Hi x Hx Ht' Hnd) as (c & Ec & Hdk). exists c. rewrite Eho.
    assert (body T (upd D d b) x = body T D x) as ->; [|done]. destruct x as [d'|]; [|done]. simpl. apply upd_ne. intros ->. apply Hno. by left.
  - intros Hnd. exfalso. apply Hnd, Hdi; [done|]. right. by right; right.
  - destruct (in_meta _ _ _ _ _ _ _ Hi) as [[] Hmn ? ? ?]. split; rewrite ?Em, ?(wo_size _ _ _ Hw); try done. split; try done. simpl. unfold MAX_SIZE in *. lia.
  - congruence.
Qed.

Lemma dirty_chain e T D s fuel n y : inv e T D s -> inner y -> 0 <= n -> dirty s (Mht n) -> phys y ∈ chain fuel n -> dirty s y.
Proof.
  intros Hi Hy. revert n. induction fuel as [|fuel IH]; intros n Hn Hd; simpl; (destruct (n =? 0) eqn:En; [by intros ?%elem_of_nil|]); breflect; [by intros ?%elem_of_nil|].
  assert (Hx : inner (Mht n)) by (apply inner_mht; lia). intros [E|Hin]%elem_of_cons.
  - apply phys_inj in E; [by subst y|by apply inner_valid|simpl; lia].
  - apply (IH (up (Mht n))); [by apply up_valid|by apply Hi|done].
Qed.

(** A node that is marked has its ancestors marked. *)
Lemma dirty_way e T D s d y : inv e T D s -> 0 <= d -> dirty s (Data d) -> on_way d y -> dirty s y.
Proof.
  intros Hi Hd Hdd [->|[[Hy Hin]| ->]]; [done| |by eapply dirty_root; [|by apply (inner_data d)|]].
  eapply (dirty_chain e T D s DEPTH (up (Data d))); [done|done|by apply (up_valid (Data d))|by apply Hi|done].
Qed.

Lemma mark_dirty_spec T D d ptr s (Q : unit -> pf_context H -> Prop) :
  core T D s -> live s -> 0 <= d -> 0 <= up (Data d) < 32 ^ Z.of_nat DEPTH -> ptr_of s (Data d) = Some ptr ->
  (dirty s (Data d) -> need_writing s = true /\ forall y, valid y -> on_way d y -> dirty s y) ->
  (forall s', core T D s' -> live s' -> (forall y, valid y -> dirty s' y <-> dirty s y \/ on_way d y) -> need_writing s' = true ->
     wrote (file_size (encrypted_part_plain s)) s s' -> Q () s') ->
  pwp (mark_dirty ptr) Q s.
Proof.
  intros Hc Hl Hd Hup Hp Halready HQ. assert (Hx : inner (Data d)) by done. destruct (core_node _ _ _ _ (Data d) _ Hc Hd Hp) as (n & Hn & On).
  unfold mark_dirty. apply pwp_bind. eapply pwp_deref; [done|]. pose proof (dirty_iff s (Data d) ptr n Hp Hn) as Hdi. destruct (node_need_writing n) eqn:Hw.
  - destruct Halready as [Hneed Hall]; [by apply Hdi|]. apply pwp_ret, HQ; try done.
    + intros y Hy. split; [by left|]. intros [?|?]; auto.
    + split; try done. by destruct (encrypted_part_plain s).
  - pose proof (mark_one T D s (Data d) ptr n Hc Hd Hp Hn) as Hmk. apply pwp_bind. eapply pwp_store; [done|]. set (s1 := set_heap _ _) in *.
    pose proof (core_marked _ _ _ _ _ Hc Hmk) as Hc1. apply pwp_bind.
    destruct (core_parent _ _ _ _ _ _ _ Hc Hx Hp Hn) as [Hpa|(? & Hpa & _)]; [|by apply mark_parents_dangling; [eapply marked_none|]].
    apply (mark_parents_spec T D DEPTH (up (Data d))); [done|by apply (mark_live T D s (Data d) ptr n)|done..|].
    intros s2 Hmk2 Hl2. pose proof (core_marked _ _ _ _ _ Hc1 Hmk2) as Hc2. destruct (co_root _ _ _ _ Hc2) as (r & Hr & Or).
    pose proof (mark_one T D s2 (Mht 0) ROOT r Hc2 ltac:(done) (ptr_of_root _) Hr) as Hmk3. apply pwp_bind. eapply pwp_update; [done|].
    apply pwp_modify. set (s3 := set_heap _ s2) in *. pose proof (core_marked _ _ _ _ _ Hc2 Hmk3) as Hc3.
    pose proof (marked_trans _ _ _ _ _ (marked_trans _ _ _ _ _ Hmk Hmk2) Hmk3) as Hm. destruct (ma_context _ _ _ Hm) as [hp Es3]. apply HQ.
    + by eapply core_ext.
    + assert (Hl3 : live s3) by (apply (mark_live T D s2 (Mht 0)); try done; by intros []). exact Hl3.
    + intros y Hy. change (dirty (set_need_writing true s3) y) with (dirty s3 y). rewrite (ma_dirty _ _ _ Hm) by done. unfold on_way. tauto.
    + done.
    + rewrite Es3. split; try done. simpl. by destruct (encrypted_part_plain s).
Qed.

(** The bytes of a node after a write. *)
Lemma memcpy_sized b o src n :
  sized PF_NODE_SIZE b -> 0 <= o -> 0 <= n -> o + n <= PF_NODE_SIZE -> (forall x, src = Some x -> n <= Z.of_nat (length x)) ->
  sized PF_NODE_SIZE (memcpy_or_zero_initialize b o src n).
Proof.
  intros Hb Ho Hn Hle Hsrc. unfold memcpy_or_zero_initialize. eapply (splice_sized _ _ _ _ n); try done.
  destruct src as [x|]; [|apply zeros_sized]. unfold sized. rewrite length_take. specialize (Hsrc x eq_refl). lia.
Qed.

(** One round of [ipf_write]. *)
Lemma write_data_node_spec e T D d ptr s src o n (Q : unit -> pf_context H -> Prop) :
  inv e T D s -> ptr_of s (Data d) = Some ptr -> 0 <= d -> e = 0 /\ d < nb s \/ e = 1 /\ d = nb s /\ file_size (encrypted_part_plain s) = MD_USER_DATA_SIZE + PF_NODE_SIZE * d ->
  0 <= o -> 0 < n -> o + n <= PF_NODE_SIZE -> (forall x, src = Some x -> n <= Z.of_nat (length x)) ->
  MD_USER_DATA_SIZE + PF_NODE_SIZE * d + o + n <= MAX_SIZE ->
  (forall s', inv 0 T (upd D d (memcpy_or_zero_initialize (D d) o src n)) s' ->
     wrote (Z.max (file_size (encrypted_part_plain s)) (MD_USER_DATA_SIZE + PF_NODE_SIZE * d + o + n)) s s' -> Q () s') ->
  pwp (update ptr (fun m => set_decrypted (memcpy_or_zero_initialize (decrypted m) o src n) m);;
       grow (MD_USER_DATA_SIZE + PF_NODE_SIZE * d + o + n);;
       mark_dirty ptr) Q s.
Proof.
  intros Hi Hp Hd He Ho Hn Hle Hsrc Hmax HQ. pose proof (in_core _ _ _ _ _ _ _ Hi) as Hc. pose proof (in_meta _ _ _ _ _ _ _ Hi) as Hmo.
  pose proof (me_size _ (mo_plain _ Hmo)) as Hsz. pose proof (mo_size _ Hmo) as Hszm. pose proof (nb_bound _ _ _ _ _ _ _ Hi) as Hnbb.
  destruct (core_node _ _ _ _ (Data d) _ Hc Hd Hp) as (m & Hm & Om). set (b := memcpy_or_zero_initialize (D d) o src n) in *.
  assert (Hup : 0 <= up (Data d) < 32 ^ Z.of_nat DEPTH) by (apply (up_bound strict intact disk e T D s (Data d)); [done|done|unfold in_tree; lia]).
  assert (Hb : sized PF_NODE_SIZE b) by (apply memcpy_sized; try done; [apply (co_sized _ _ _ _ Hc (Data d))|lia]).
  apply pwp_bind. eapply pwp_update; [done|]. pose proof (no_body _ _ _ _ Om) as Ebm. simpl in Ebm. rewrite Ebm. fold b. set (s1 := set_heap _ _).
  assert (Eh : forall q, heap s1 !! q = if decide (q = ptr) then Some (set_decrypted b m) else heap s !! q).
  { intros q. unfold s1. simpl. destruct (decide (q = ptr)) as [->|]; [by rewrite lookup_insert_eq|by rewrite lookup_insert_ne]. }
  assert (Hc1 : core T (upd D d b) s1).
  { eapply core_reseal; [exact Hc|done|done| | |].
    - intros q. rewrite Eh. destruct (decide (q = ptr)) as [->|]; [by rewrite Hm|done].
    - intros x q mq Hx Hq. rewrite Eh. destruct (decide (q = ptr)) as [->|Hne].
      + intros [= <-]. rewrite (ptr_inj _ _ _ _ x (Data d) _ Hc Hx Hd Hq Hp). simpl. by rewrite upd_eq.
      + intros Hmq. destruct (core_node _ _ _ _ _ _ Hc Hx Hq) as (mq' & ? & Oq). simplify_eq. rewrite (no_body _ _ _ _ Oq). destruct x as [d'|]; [|done]. simpl.
        symmetry. apply upd_ne. intros ->. congruence.
    - intros [d'|k]; simpl; [|apply (co_sized _ _ _ _ Hc (Mht k))]. unfold upd. destruct (d' =? d); [done|apply (co_sized _ _ _ _ Hc (Data d'))]. }
  assert (Hdi1 : forall y, valid y -> dirty s1 y <-> dirty s y).
  { intros y Hy. unfold dirty. change (ptr_of s1 y) with (ptr_of s y). split; intros (q & mq & Hq & Hmq & Hw).
    - rewrite Eh in Hmq. destruct (decide (q = ptr)) as [->|]; [|by exists q, mq]. simplify_eq. by exists ptr, m.
    - exists q. rewrite Eh. destruct (decide (q = ptr)) as [->|]; [|eauto]. simplify_eq. eauto. }
  set (off := MD_USER_DATA_SIZE + PF_NODE_SIZE * d + o + n) in *. set (size := Z.max (file_size (encrypted_part_plain s)) off) in *.
  apply pwp_bind. unfold grow. apply pwp_modify. match goal with |- pwp _ _ ?s' => set (s2 := s') end.
  assert (Hs2 : heap s2 = heap s1 /\ cache s2 = cache s1 /\ next_ptr s2 = next_ptr s1 /\ need_writing s2 = need_writing s /\ wrote size s s2).
  { unfold s2. destruct (Z.ltb_spec (file_size (encrypted_part_plain s1)) off) as [Hlt|Hge]; split_and!; try done; split; try done; simpl in *; unfold size.
    - rewrite Z.max_r by lia. done.
    - rewrite Z.max_l by lia. by destruct (encrypted_part_plain s). }
  destruct Hs2 as (Eh2 & Ec2 & En2 & Enw & Hw2).
  assert (Hdi2 : forall y, valid y -> dirty s2 y <-> dirty s y) by (intros y Hy; rewrite <- Hdi1 by done; unfold dirty, ptr_of; by rewrite Eh2, Ec2).
  assert (Hl2 : live s2).
  { apply (live_same s); [apply Hi|intros; unfold ptr_of; by rewrite Ec2|]. intros q mq. rewrite Eh2, Eh. destruct (decide (q = ptr)) as [->|]; [|eauto]. intros [= <-]. eauto. }
  assert (Enb : data_nodes size = nb s + e).
  { unfold size, off, nb, data_nodes in *. destruct He as [[-> ?]|(-> & ? & ?)]; layout; Z.to_euclidean_division_equations; lia. }
  apply (mark_dirty_spec T (upd D d b) d); [by eapply core_ext|done|done|done|unfold ptr_of; by rewrite Ec2| |].
  - intros Hdd. rewrite Hdi2 in Hdd by done. split; [rewrite Enw; apply Hi; by eapply dirty_root; [|by apply (inner_data d)|]|].
    intros y Hy Hoy. rewrite Hdi2 by done. by apply (dirty_way e T D s d).
  - intros s3 Hc3 Hl3 Hdi3 Hnw3 Hw3. assert (Hw : wrote size s s3).
    { destruct Hw2 as [Ez2 Ec2' Hf2], Hw3 as [Ez3 Ec3 Hf3]. split; [|congruence|intuition congruence]. rewrite Ez3, Ez2. done. }
    apply HQ; [|done]. eapply (inv_write e T D d b s s3 size); try done; try lia.
    + intros y Hy. destruct He as [[-> ?]|(-> & Ed & _)]; [left; by rewrite Z.add_0_r in Hy|].
      destruct y as [d'|k]; unfold in_tree in *.
      * destruct (decide (d' = d)) as [->|]; [right; by left|left; lia].
      * destruct (decide (ATTACHED_DATA_NODES_COUNT * k < nb s)); [left; lia|right].
        assert (k = up (Data d)) as -> by (rewrite Ed; layout; Z.to_euclidean_division_equations; lia).
        destruct (decide (up (Data d) = 0)) as [->|Hne]; [by right; right|]. right. left. split; [apply inner_mht; lia|]. change DEPTH with (S 13). rewrite chain_S by done. left.
    + intros y Hy. by rewrite Hdi3, Hdi2 by done.
Qed.
End mark.
