(* ===== verification/PfFetch.v ===== *)
(** * Protected files: getting a data node

    [ipf_get_data_node]: the node and its ancestors are loaded or appended, moved to the front
    of the cache, and nodes at its end are dropped, after a flush if they have changed. *)

From S2P Require Import Prelude LruCache PfLayout PfFormat PfSort ProtFiles PfInv PfBad PfNodes PfFlush PfCommit.

(** ** Dropping the least recently used node *)

Section shrink.
Context {H : Type} `{CB : !pf_callbacks H} (strict intact : bool) (disk : H -> Z -> option bytes) `{OK : !callbacks_ok strict disk}.
Implicit Types (s : pf_context H) (T D : Z -> bytes).
Abbreviation inv := (inv strict intact disk).
Abbreviation pwp := (pwp true).
Abbreviation flushed := (flushed strict intact disk).

Lemma inv_evict e T D s l k ptr n c :
  inv e T D s -> lruc_list (cache s) = l ++ [k] -> lruc_map (cache s) !! k = Some ptr -> heap s !! ptr = Some n ->
  node_need_writing n = false -> (intact = true -> ordered [] (lruc_list (cache s))) ->
  lruc_ok c -> lruc_list c = l -> lruc_map c = delete k (lruc_map (cache s)) ->
  let s' := set_heap (delete ptr (heap s)) (set_cache c s) in
  inv e T D s' /\ forall x, valid x -> phys x <> k -> ptr_of s' x = ptr_of s x.
Proof.
  intros Hi El Ek Hn Hw Hord Hok Elc Em s'. pose proof (in_core _ _ _ _ _ _ _ Hi) as Hc. pose proof (co_lru _ _ _ _ Hc) as Ho.
  destruct (cached_node _ _ _ _ _ _ Hc Ek) as (x & n' & Hx & -> & Hp & Hn' & On). assert (n' = n) as -> by congruence.
  assert (Hnr : ptr <> ROOT) by by eapply ptr_not_root.
  assert (Hpt : forall y, valid y -> phys y <> phys x -> ptr_of s' y = ptr_of s y).
  { intros y Hy Hne. unfold ptr_of, s'. simpl. destruct (decide (y = Mht 0)); [done|]. rewrite Em. by rewrite lookup_delete_ne. }
  assert (Hpx : ptr_of s' x = None) by (rewrite ptr_of_inner by done; unfold s'; simpl; by rewrite Em, lookup_delete_eq).
  assert (Hdel : forall y q m, valid y -> y <> x -> ptr_of s y = Some q -> heap s !! q = Some m -> heap s' !! q = Some m).
  { intros y q m Hy Hne Hq Hmq. unfold s'. simpl. rewrite lookup_delete_ne; [done|]. intros <-. apply Hne. by eapply (ptr_inj _ _ _ _ _ _ _ Hc Hy (inner_valid _ Hx)). }
  assert (Hphys : forall y, valid y -> y <> x -> phys y <> phys x) by (intros y Hy Hne E; apply Hne, phys_inj; [done|by apply inner_valid|done]).
  split; [|done]. apply (inv_transfer strict intact disk e T D s s' Hi); [done| | | |].
  - split; try apply Hc.
    + destruct (co_root _ _ _ _ Hc) as (r & Hr & Or). exists r. split; [|done]. unfold s'. simpl. by rewrite lookup_delete_ne.
    + done.
    + intros k q. unfold s' at 1. simpl. rewrite Em. intros [Hne Hkq]%lookup_delete_Some.
      destruct (co_nodes _ _ _ _ Hc k q Hkq) as (y & m & -> & Hy & ? & Hm & Om & Pm). assert (y <> x) by congruence.
      assert (Hyq : ptr_of s y = Some q) by by rewrite ptr_of_inner. exists y, m. split_and!; try done; [by eapply (Hdel y); [apply inner_valid|..]|].
      destruct Pm as [Pm|(Es & Pm & Hlt)].
      * destruct (decide (Mht (up y) = x)) as [Eu|Hu].
        -- right. rewrite Eu in Pm. assert (parent m = ptr) as -> by congruence. destruct (decide (intact = true)) as [Es|Es%not_true_is_false].
           ++ exfalso. specialize (Hord Es). rewrite El in Hord. apply ordered_app in Hord as [Hord _].
              assert (Hyl : phys y ∈ l). { assert (Hin : phys y ∈ lruc_list (cache s)) by (apply (lru_dom _ Ho); eauto). rewrite El in Hin. apply elem_of_app in Hin as [?|E%list_elem_of_singleton]; [done|congruence]. }
              assert (Hxl : phys x ∈ l). { destruct (ordered_closed [] l y Hord Hy Hyl) as [?%elem_of_nil|Hin]; [|done|by rewrite <- Eu]. intros E0. rewrite E0 in Eu. subst x. by destruct Hx. }
              pose proof (lru_nodup _ Ho) as Hnd. rewrite El in Hnd. apply NoDup_app in Hnd as (_ & Hd & _). apply (Hd (phys x) Hxl). left.
           ++ split; [done|]. unfold s'. simpl. rewrite lookup_delete_eq. split; [done|]. apply (co_next _ _ _ _ Hc ptr). eauto.
        -- left. rewrite Hpt; [done|by apply up_valid|]. apply Hphys; [by apply up_valid|done].
      * right. split_and!; try done. unfold s'. simpl. destruct (decide (parent m = ptr)) as [->|]; [by rewrite lookup_delete_eq|by rewrite lookup_delete_ne].
    + intros q [m Hq]. unfold s' in *. simpl in *. apply lookup_delete_Some in Hq as [_ Hq]. apply (co_next _ _ _ _ Hc q). eauto.
  - intros y q m Hy Hq Hm Hwm. assert (Hne : y <> x) by congruence. rewrite Hpt in Hq by auto using inner_valid. unfold s' in Hm. simpl in Hm. apply lookup_delete_Some in Hm as [_ Hm].
    rewrite Hpt; [by apply (in_live _ _ _ _ _ _ _ Hi y q)|by apply up_valid|]. apply Hphys; [by apply up_valid|]. intros <-.
    destruct (in_dirty_up _ _ _ _ _ _ _ Hi y Hy) as (q' & n' & Hq' & Hn'' & Hw'); [by exists q, m|]. congruence.
  - intros y Hy. destruct (decide (y = x)) as [->|Hne].
    + split; [intros (q & m & Hq & _); congruence|]. rewrite (dirty_iff s x ptr n) by done. congruence.
    + unfold dirty. rewrite Hpt by auto. split; intros (q & m & Hq & Hm & Hwm); exists q, m; (split; [done|split; [|done]]).
      * destruct (core_node _ _ _ _ _ _ Hc Hy Hq) as (m' & Hm' & _). pose proof (Hdel y q m' Hy Hne Hq Hm'). congruence.
      * by eapply Hdel.
  - intros y Hy Hp'. apply Hi; [done|]. destruct (decide (y = x)) as [->|Hne]; [rewrite Hpx in Hp'; by destruct Hp'|].
    rewrite <- Hpt; [done|by apply inner_valid|]. apply Hphys; [by apply inner_valid|done].
Qed.

(** [s'] is [s] with the end of the cache dropped and possibly flushed. *)
Record shrunk s s' : Prop := {
  sk_contents : same_contents (encrypted_part_plain s) (encrypted_part_plain s');
  sk_fields : mode s' = mode s /\ user_kdk_key s' = user_kdk_key s /\ file_status s' = file_status s;
  sk_list : exists l, lruc_list (cache s) = lruc_list (cache s') ++ l;
  sk_ptr : forall x, inner x -> phys x ∈ lruc_list (cache s') -> ptr_of s' x = ptr_of s x;
}.

Lemma shrunk_trans s1 s2 s3 : shrunk s1 s2 -> shrunk s2 s3 -> shrunk s1 s3.
Proof.
  intros [(? & ? & ?) (? & ? & ?) [l El] Hp] [(? & ? & ?) (? & ? & ?) [l' El'] Hp']. split; [split_and!; congruence|split_and!; congruence| |].
  - exists (l' ++ l). by rewrite El, El', app_assoc.
  - intros x Hx Hin. rewrite Hp' by done. apply Hp; [done|]. rewrite El'. apply elem_of_app. by left.
Qed.

Lemma flushed_shrunk e T D s s' : flushed e T D s s' -> shrunk s s'.
Proof.
  intros Hf. pose proof (fl_kept _ _ _ _ _ _ _ _ Hf) as Hk. split.
  - apply Hf.
  - by destruct (ke_fields _ _ Hk) as (? & ? & ?).
  - exists []. rewrite (proj1 (ke_lru _ _ Hk)). by rewrite app_nil_r.
  - intros. by apply kept_ptr.
Qed.

(** The first nodes of the cache stay: it never shrinks below 48 nodes. *)
Lemma shrink_cache_spec e D fuel K : (length K <= 48)%nat -> forall T s (Q : bool -> pf_context H -> Prop),
  inv e T D s -> (intact = true -> ordered [] (lruc_list (cache s))) -> (exists l, lruc_list (cache s) = K ++ l) ->
  ((forall x, valid x -> ~ dirty s x) /\ (length (lruc_list (cache s)) <= fuel)%nat \/ (length (lruc_list (cache s)) < fuel)%nat) ->
  (forall T' s', inv e T' D s' -> shrunk s s' -> (intact = true -> ordered [] (lruc_list (cache s'))) ->
     (exists l, lruc_list (cache s') = K ++ l) -> Q true s') ->
  (strict = false -> forall s', erred s' -> bad s' -> Q false s') ->
  pwp (shrink_cache fuel) Q s.
Proof using OK.
  intros HK. induction fuel as [|fuel IH]; intros T s Q Hi Hord HKl Hf HQ HF; cbn [shrink_cache]; apply pwp_bind, pwp_gets;
    pose proof (in_core _ _ _ _ _ _ _ Hi) as Hc; pose proof (co_lru _ _ _ _ Hc) as Ho;
    rewrite items_size, <- (length_fmap fst), items_keys by done; destruct (_ <=? MAX_PAGES_IN_CACHE) eqn:El; breflect.
  1, 3: apply pwp_ret, (HQ T); [done| |done|done]; split; try done; exists []; by rewrite app_nil_r.
  - unfold MAX_PAGES_IN_CACHE in El. lia.
  - unfold MAX_PAGES_IN_CACHE in El. apply pwp_bind. unfold PfInv.pwp at 1, cache_last. rewrite lruc_last_ok by done.
    destruct (items (cache s)) as [|it its _] eqn:Eit using rev_ind; [pose proof (items_keys _ Ho) as Ek; rewrite Eit in Ek; rewrite <- Ek in El; simpl in El; lia|].
    destruct it as [k ptr]. rewrite last_snoc. simpl. assert (Ek : lruc_map (cache s) !! k = Some ptr) by (apply items_elem; [done|]; rewrite Eit; in_list).
    destruct (cached_node _ _ _ _ _ _ Hc Ek) as (x & n & Hx & -> & Hp & Hn & On). apply pwp_bind. eapply pwp_deref; [done|].
    assert (Ell : lruc_list (cache s) = (fst <$> its) ++ [phys x]) by (rewrite <- items_keys, Eit by done; by rewrite fmap_app).
    destruct (node_need_writing n) eqn:Hw; cbn [negb].
    + apply pwp_bind. apply (ipf_internal_flush_spec strict intact disk e T D); [done| |].
      * intros T' s1 Hfl. pose proof (ke_lru _ _ (fl_kept _ _ _ _ _ _ _ _ Hfl)) as [El1 _]. apply (IH T').
        -- apply Hfl.
        -- by rewrite El1.
        -- by rewrite El1.
        -- left. split; [apply Hfl|]. rewrite El1. destruct Hf as [[Hcl _]|?]; [|lia]. exfalso. apply (Hcl x (inner_valid _ Hx)). by eapply dirty_iff.
        -- intros T2 s2 Hi2 Hs2. apply (HQ T2); [done|]. eapply shrunk_trans; [by eapply flushed_shrunk|done].
        -- done.
      * intros Es s1 He Hst. apply pwp_bind, pwp_gets, pwp_bind, pwp_assert; [done|]. apply pwp_ret. by apply HF.
    + apply pwp_bind. destruct (lruc_remove_last_ok (cache s) its (phys x) ptr Ho Eit) as (c & Er & Hok & Hit & Em & _).
      assert (Elc : lruc_list c = fst <$> its) by by rewrite <- items_keys, Hit.
      unfold PfInv.pwp at 1, cache_remove_last. rewrite Er. apply pwp_bind. eapply pwp_free; [done|].
      destruct (inv_evict e T D s (fst <$> its) (phys x) ptr n c) as [Hi' Hpt]; try done. simpl in Hi', Hpt.
      assert (Hlen : (length (lruc_list (cache s)) = S (length (lruc_list c)))%nat) by (rewrite Ell, Elc, length_app; simpl; lia).
      apply (IH T); [exact Hi'| | | | |exact HF].
      * intros Es. simpl. specialize (Hord Es). rewrite Ell in Hord. apply ordered_app in Hord as [Hord _]. by rewrite Elc.
      * simpl. destruct HKl as [l EK]. rewrite Ell in EK. destruct l as [|y l _] using rev_ind.
        { rewrite app_nil_r in EK. rewrite <- EK in HK. rewrite Ell in El. lia. }
        exists l. rewrite app_assoc in EK. apply app_inj_tail in EK as [EK _]. by rewrite Elc.
      * simpl. destruct Hf as [[Hcl ?]|?]; [left|right; lia]. split; [|lia]. intros y Hy (q & m & Hq & Hm & Hwm). apply (Hcl y Hy).
        simpl in Hm. apply lookup_delete_Some in Hm as [_ Hm]. exists q, m. split_and!; try done. destruct (valid_inner y Hy) as [->|Hyi]; [by rewrite ptr_of_root in *|].
        rewrite ptr_of_inner in Hq |- * by done. simpl in Hq. rewrite Em in Hq. by apply lookup_delete_Some in Hq as [_ Hq].
      * intros T2 s2 Hi2 Hs2. apply (HQ T2); [done|]. eapply shrunk_trans; [|exact Hs2]. split; try done.
        -- simpl. exists [phys x]. by rewrite Ell, Elc.
        -- intros y Hy Hin. simpl in Hin. apply Hpt; [by apply inner_valid|]. intros E. rewrite Elc in Hin. pose proof (lru_nodup _ Ho) as Hnd. rewrite Ell in Hnd.
           apply NoDup_app in Hnd as (_ & Hd & _). apply (Hd (phys y) Hin). rewrite E. left.
Qed.
End shrink.

Section fetch.
Context {H : Type} `{CB : !pf_callbacks H} (strict intact : bool) (disk : H -> Z -> option bytes) `{OK : !callbacks_ok strict disk}.
Implicit Types (s : pf_context H) (T D : Z -> bytes).
Abbreviation core := (core intact).
Abbreviation inv := (inv strict intact disk).
Abbreviation pwp := (pwp intact).
Abbreviation quiet := (quiet strict disk).

(** ** Moving ancestors to the front *)

Record bumped (keys : list Z) s s' : Prop := {
  bu_quiet : quiet s s';
  bu_list : lruc_list (cache s') = bump_list keys (lruc_list (cache s));
  bu_ptr : forall x, ptr_of s' x = ptr_of s x;
  bu_heap : heap s' = heap s;
}.

Lemma bump_parents_dangling fuel ptr (Q : unit -> pf_context H -> Prop) s : heap s !! ptr = None -> intact = false -> pwp (bump_parents fuel ptr) Q s.
Proof. intros. destruct fuel; cbn [bump_parents]; by apply pwp_dangling. Qed.

Lemma bump_parents_spec e T D fuel : forall n ptr s (Q : unit -> pf_context H -> Prop),
  inv e T D s -> 0 <= n < 32 ^ Z.of_nat fuel -> ptr_of s (Mht n) = Some ptr ->
  (forall s', inv e T D s' -> bumped (chain fuel n) s s' -> Q () s') ->
  pwp (bump_parents fuel ptr) Q s.
Proof.
  induction fuel as [|fuel IH]; intros n ptr s Q Hi Hn Hp HQ; cbn [bump_parents]; apply pwp_bind; pose proof (in_core _ _ _ _ _ _ _ Hi) as Hc;
    destruct (core_node _ _ _ _ (Mht n) _ Hc ltac:(simpl; lia) Hp) as (m & Hm & Om); (eapply pwp_deref; [done|]); rewrite (no_number _ _ _ _ Om); simpl number_of.
  - assert (n = 0) as -> by (simpl in Hn; lia). apply pwp_ret, HQ; [done|]. split; try done.
  - destruct (n =? 0) eqn:En; breflect.
    { subst n. apply pwp_ret, HQ; [done|]. split; try done. }
    assert (Hx : inner (Mht n)) by (apply inner_mht; lia). pose proof (core_parent _ _ _ _ _ _ _ Hc Hx Hp Hm) as Hpa.
    rewrite ptr_of_inner in Hp by done. destruct (lruc_get_ok _ _ _ (co_lru _ _ _ _ Hc) Hp) as (c & Eg & Hok & _ & Em & _).
    assert (El : lruc_list c = phys (Mht n) :: list_del (phys (Mht n)) (lruc_list (cache s))).
    { unfold lruc_get, get_map_node in Eg. rewrite Hp in Eg. by simplify_eq. }
    apply pwp_bind. unfold PfInv.pwp at 1, cache_get. rewrite (no_phys _ _ _ _ Om), Eg.
    destruct Hpa as [Hpa|(? & ? & _)]; [|by apply bump_parents_dangling]. apply (IH (up (Mht n))).
    + by apply inv_cache.
    + rewrite Nat2Z.inj_succ, Z.pow_succ_r in Hn by lia. layout. Z.to_euclidean_division_equations; lia.
    + by rewrite ptr_of_cache.
    + intros s' Hi' [Hq Hl Hpt Hh]. apply HQ; [done|]. split; [by eapply quiet_trans; [|exact Hq]| | |done].
      * rewrite Hl, chain_S by done. simpl. by rewrite El.
      * intros x. rewrite Hpt. by apply ptr_of_cache.
Qed.

(** ** Getting a data node *)

(** The same file, seen from outside. *)
Record same_file s s' : Prop := {
  sf_contents : same_contents (encrypted_part_plain s) (encrypted_part_plain s');
  sf_fields : mode s' = mode s /\ user_kdk_key s' = user_kdk_key s /\ file_status s' = file_status s;
}.

Lemma same_file_trans s1 s2 s3 : same_file s1 s2 -> same_file s2 s3 -> same_file s1 s3.
Proof. intros [(? & ? & ?) (? & ? & ?)] [(? & ? & ?) (? & ? & ?)]. split; split_and!; congruence. Qed.

Lemma same_file_nb s s' : same_file s s' -> nb s' = nb s.
Proof. intros [(_ & E & _) _]. unfold nb. by rewrite E. Qed.

Lemma quiet_same_file s s' : quiet s s' -> same_file s s'.
Proof. intros []. split; split_and!; congruence. Qed.

Lemma shrunk_same_file s s' : shrunk s s' -> same_file s s'.
Proof. intros []. by split. Qed.

(** The cache is in order, which keeps parents of cached nodes in the cache. *)
Definition in_order s : Prop := intact = true -> ordered [] (lruc_list (cache s)).

(** The data node [d] is in memory. *)
Record got e T D d ptr s s' : Prop := {
  go_inv : inv e T D s';
  go_order : in_order s';
  go_file : same_file s s';
  go_ptr : ptr_of s' (Data d) = Some ptr;
}.

(** The operation has failed. *)
Definition lost D s s' : Prop :=
  strict = false /\ erred s' /\ (bad s' \/ exists T', PfInv.inv strict false disk 0 T' D s' /\ same_file s s').

Lemma lost_shrink T D s s1 fuel (Q : option Z -> pf_context H -> Prop) :
  failed strict intact disk 0 T D s s1 -> (length (lruc_list (cache s1)) < fuel)%nat -> (forall s', lost D s s' -> Q None s') ->
  pwp (ok ← shrink_cache fuel; if ok : bool then mret None else mret None) Q s1.
Proof using OK.
  intros (Es & He & Hi%inv_weaken & Hf) Hfu HQ. apply pwp_any, pwp_bind.
  assert (Hsh : PfInv.pwp true (shrink_cache fuel) (fun _ s' => bad s' \/ exists T', PfInv.inv strict false disk 0 T' D s' /\ shrunk s1 s') s1).
  { apply (shrink_cache_spec strict false disk 0 D fuel [] ltac:(simpl; lia) T); [done|done|by eexists|by right| |by left]. intros T' s' ? ? _ _. right. eauto. }
  assert (Hb : PfInv.pwp false (shrink_cache fuel) (fun _ s' => quiet s s1 \/ bad s') s1).
  { destruct Hf as [Hq|Hb]; [unfold PfInv.pwp; destruct (shrink_cache fuel s1) as [[]|]; by auto|eapply pwp_mono; [by apply (bad_shrink bad)|by right]]. }
  eapply pwp_mono; [apply (pwp_and_false _ _ _ _ _ (pwp_and_false _ _ _ _ _ Hsh (bad_shrink erred fuel s1 He)) Hb)|]. clear Hf Hb.
  intros ok s' [[Hs' He'] Hf]. assert (Hlo : lost D s s'); [|destruct ok; by apply pwp_ret, HQ].
  split_and!; [done..|]. destruct Hf as [Hq|Hb]; [|by left]. destruct Hs' as [?|(T' & ? & ?)]; [by left|right]. exists T'. split; [done|].
  eapply same_file_trans; [by apply quiet_same_file|by apply shrunk_same_file].
Qed.

(** After the node has been fetched. *)
Lemma get_data_node_end e T D d ptr s s1 (Q : option Z -> pf_context H -> Prop) :
  in_order s -> fetched strict intact disk e T D d ptr s s1 -> 0 <= d -> 0 <= up (Data d) < 32 ^ Z.of_nat DEPTH ->
  (forall T' s', got e T' D d ptr s s' -> Q (Some ptr) s') ->
  (strict = false -> forall s', erred s' -> bad s' -> Q None s') ->
  pwp (n ← deref ptr;
       bump_parents DEPTH (parent n);;
       len ← sm_gets (fun s => length (lruc_list (cache s)));
       ok ← shrink_cache (len + 2);
       if ok : bool then mret (Some ptr) else mret None) Q s1.
Proof using OK.
  intros Hord Hfe Hd Hup HQ HF. pose proof (fe_inv _ _ _ _ _ _ _ _ _ _ Hfe) as Hi1. pose proof (in_core _ _ _ _ _ _ _ Hi1) as Hc1.
  destruct (core_node _ _ _ _ (Data d) _ Hc1 Hd (fe_ptr _ _ _ _ _ _ _ _ _ _ Hfe)) as (n & Hn & On). apply pwp_bind. eapply pwp_deref; [done|].
  apply pwp_bind. destruct (core_parent _ _ _ _ _ _ _ Hc1 (inner_data d Hd) (fe_ptr _ _ _ _ _ _ _ _ _ _ Hfe) Hn) as [Hpa|(? & ? & _)]; [|by apply bump_parents_dangling].
  apply (bump_parents_spec e T D DEPTH (up (Data d))); [done|done|done|].
  intros s2 Hi2 Hbu. destruct (fe_head _ _ _ _ _ _ _ _ _ _ Hfe) as [rest El]. set (ch := chain DEPTH (up (Data d))) in *.
  assert (Hnd : NoDup (phys (Data d) :: rest)) by (rewrite <- El; apply Hc1).
  assert (El2 : lruc_list (cache s2) = (reverse ch ++ [phys (Data d)]) ++ others ch rest).
  { rewrite (bu_list _ _ _ Hbu), El, bump_list_eq by (apply chain_NoDup; lia). rewrite <- app_assoc. f_equal. unfold others. rewrite filter_cons_True; [done|]. apply chain_not_data; [done|lia]. }
  assert (HK : (length (reverse ch ++ [phys (Data d)]) <= 48)%nat).
  { rewrite length_app, length_reverse. simpl. assert (Hlen : forall f m, (length (chain f m) <= f)%nat).
    { induction f as [|f IH]; intros m; simpl; (destruct (m =? 0); simpl; [lia|]); [lia|]. specialize (IH (up (Mht m))). lia. }
    specialize (Hlen DEPTH (up (Data d))). fold ch in Hlen. unfold DEPTH in Hlen. lia. }
  apply pwp_bind, pwp_gets, pwp_bind, pwp_any. apply (shrink_cache_spec strict intact disk e D _ _ HK T).
  - done.
  - intros Es. rewrite (bu_list _ _ _ Hbu), El. apply (way_ordered d (lruc_list (cache s))); try done; [by apply Hord|]. rewrite <- El. apply Hfe.
  - by eexists.
  - right. lia.
  - intros T' s3 Hi3 Hsk Hord3 [l El3]. apply pwp_ret, (HQ T'). split; [done|done| |].
    + eapply same_file_trans; [by apply quiet_same_file, Hfe|]. eapply same_file_trans; [by apply quiet_same_file, Hbu|by apply shrunk_same_file].
    + rewrite (sk_ptr _ _ Hsk) by (try done; rewrite El3; in_list). rewrite (bu_ptr _ _ _ Hbu). apply Hfe.
  - intros Es s3 He Hb. apply pwp_ret. by apply HF.
Qed.

Lemma ipf_get_data_node_read T D offset s (Q : option Z -> pf_context H -> Prop) :
  inv 0 T D s -> in_order s -> MD_USER_DATA_SIZE <= offset -> in_tree (nb s) (Data (data_at offset)) ->
  (forall ptr T' s', got 0 T' D (data_at offset) ptr s s' -> Q (Some ptr) s') ->
  (forall s', lost D s s' -> Q None s') ->
  pwp (ipf_get_data_node offset) Q s.
Proof using OK.
  intros Hi Hord Hoff Ht HQ HF. unfold ipf_get_data_node. rewrite (proj2 (Z.ltb_ge _ _) Hoff). apply pwp_bind, pwp_gets.
  destruct (_ && _) eqn:Eb.
  { exfalso. apply andb_true_iff in Eb as [Ea Eo]. breflect. unfold in_tree, nb in Ht. rewrite <- Eo, data_nodes_end in Ht by done. lia. }
  apply pwp_bind, pwp_any. apply (ipf_read_data_node_spec strict intact disk T D); try done.
  - intros ptr s1 Hfe. apply pwp_assoc. eapply get_data_node_end; try done; [apply Ht| |by apply HQ|by intros Es s' He Hb; apply HF; split_and!; [..|left]].
    apply (up_bound strict intact disk 0 T D s (Data (data_at offset))); try done; [apply inner_data, Ht|]. by apply (in_tree_mono (nb s)); [lia|].
  - intros s1 Hfa. apply pwp_bind, pwp_ret, pwp_bind, pwp_gets. eapply lost_shrink; [done|lia|done].
Qed.

Lemma ipf_get_data_node_append T D offset s (Q : option Z -> pf_context H -> Prop) :
  inv 0 T D s -> in_order s -> MD_USER_DATA_SIZE <= offset -> offset = file_size (encrypted_part_plain s) ->
  (offset - MD_USER_DATA_SIZE) mod PF_NODE_SIZE = 0 ->
  (forall ptr T' s', got 1 T' (upd D (data_at offset) (zeros PF_NODE_SIZE)) (data_at offset) ptr s s' -> Q (Some ptr) s') ->
  (forall s', lost D s s' -> Q None s') ->
  pwp (ipf_get_data_node offset) Q s.
Proof using OK.
  intros Hi Hord Hoff Eo Ha HQ HF. unfold ipf_get_data_node. rewrite (proj2 (Z.ltb_ge _ _) Hoff). apply pwp_bind, pwp_gets.
  rewrite (proj2 (Z.eqb_eq _ _) Ha), (proj2 (Z.eqb_eq _ _) Eo). assert (Hd : 0 <= data_at offset) by (unfold data_at; layout; Z.to_euclidean_division_equations; lia).
  apply pwp_bind, pwp_any. apply (ipf_append_data_node_spec strict intact disk T D); try done.
  - intros ptr T' s1 Hfe. apply pwp_assoc. eapply get_data_node_end; try done; [|by apply HQ|by intros Es s' He Hb; apply HF; split_and!; [..|left]].
    apply (up_bound strict intact disk 0 T D s (Data (data_at offset))); try done. unfold in_tree, nb. rewrite <- Eo, data_nodes_end by done. lia.
  - intros s1 Hfa. apply pwp_bind, pwp_ret, pwp_bind, pwp_gets. eapply lost_shrink; [done|lia|done].
Qed.
End fetch.
