(* ===== verification/PfSpec.v ===== *)
(** * Protected files: what the functions of the API promise

    An open file is a path, a sequence of bytes and the mode it has been opened with. *)

From S2P Require Import Prelude PfLayout ProtFiles PfContents.

Record open_file : Type := OpenFile {
  of_path : bytes;
  of_bytes : bytes;
  of_mode : Z;
}.

Inductive op : Type :=
  | OpRead (offset size : Z) (output : bool)
  | OpWrite (offset size : Z) (input : option bytes)
  | OpSetSize (size : Z)
  | OpGetSize
  | OpRename (new_path : bytes)
  | OpFlush.

Inductive result : Type :=
  | Bytes (status : Z) (bytes_read : option Z) (output : bytes)
  | Size (status size : Z)
  | Status (status : Z).

Definition of_size (a : open_file) : Z := Z.of_nat (length (of_bytes a)).
Definition with_bytes (b : bytes) (a : open_file) : open_file := OpenFile (of_path a) b (of_mode a).

(** The file extended with zeros to a size. *)
Definition padded (size : Z) (b : bytes) : bytes := b ++ zeros (size - Z.of_nat (length b)).

(** The bytes that a write of the file appends or overwrites, from the end of the file if the
    write starts behind it. *)
Definition to_write (offset size : Z) (input : option bytes) (a : open_file) : bytes :=
  zeros (offset - of_size a) ++ chunk input size.

Definition written_at (offset : Z) (b : bytes) (a : open_file) : open_file :=
  with_bytes (splice (Z.min offset (of_size a)) b (of_bytes a)) a.

Definition spec_read (offset size : Z) (output : bool) (a : open_file) : result :=
  if (size =? 0) || (of_size a <=? offset) then Bytes PF_STATUS_SUCCESS (Some 0) []
  else if negb output then Bytes PF_STATUS_INVALID_PARAMETER None []
  else if negb (has (of_mode a) PF_FILE_MODE_READ) then Bytes PF_STATUS_INVALID_MODE None []
  else
    let n := Z.min size (of_size a - offset) in
    Bytes PF_STATUS_SUCCESS (Some n) (slice offset n (of_bytes a)).

Definition spec_set_size (size : Z) (a : open_file) : result * open_file :=
  if negb (has (of_mode a) PF_FILE_MODE_WRITE) then (Status PF_STATUS_INVALID_MODE, a)
  else if of_size a <=? size then (Status PF_STATUS_SUCCESS, with_bytes (padded size (of_bytes a)) a)
  else if size =? 0 then (Status PF_STATUS_SUCCESS, with_bytes [] a)
  else (Status PF_STATUS_NOT_IMPLEMENTED, a).

(** The operations when nothing fails. *)
Definition spec (o : op) (a : open_file) : result * open_file :=
  match o with
  | OpRead offset size output => (spec_read offset size output a, a)
  | OpWrite offset size input =>
      if negb (has (of_mode a) PF_FILE_MODE_WRITE) then (Status PF_STATUS_INVALID_MODE, a)
      else (Status PF_STATUS_SUCCESS, written_at offset (to_write offset size input a) a)
  | OpSetSize size => spec_set_size size a
  | OpGetSize => (Size PF_STATUS_SUCCESS (of_size a), a)
  | OpRename new_path =>
      if negb (has (of_mode a) PF_FILE_MODE_WRITE) then (Status PF_STATUS_INVALID_MODE, a)
      else if PATH_MAX_SIZE <? Z.of_nat (length new_path) + 1 then (Status PF_STATUS_PATH_TOO_LONG, a)
      else (Status PF_STATUS_SUCCESS, OpenFile new_path (of_bytes a) (of_mode a))
  | OpFlush => (Status PF_STATUS_SUCCESS, a)
  end.

(** ** Failures of the host *)

(** The result of an operation that has failed: bytes that have been read before the failure
    are those of the file. *)
Definition failure (o : op) (a : open_file) (r : result) : Prop :=
  match o with
  | OpRead offset size _ =>
      exists k status, 0 <= k < size /\ offset + k < of_size a /\ PF_FAILURE status = true /\
        r = if k =? 0 then Bytes status None [] else Bytes PF_STATUS_SUCCESS (Some k) (slice offset k (of_bytes a))
  | OpGetSize => False
  | _ => exists status, PF_FAILURE status = true /\ r = Status status
  end.

(** What the file may be after a failure: a write has written a part from its beginning. *)
Definition partly (o : op) (a a' : open_file) : Prop :=
  match o with
  | OpWrite offset size input =>
      exists k, 0 <= k < Z.of_nat (length (to_write offset size input a)) /\ a' = written_at offset (take (Z.to_nat k) (to_write offset size input a)) a
  | OpSetSize size => exists k, 0 <= k /\ (of_size a + k < size \/ k = 0) /\ a' = with_bytes (of_bytes a ++ zeros k) a
  | OpRename _ => False
  | _ => a' = a
  end.

(** The results on a file that has become unusable: nothing is read or written any more.  What
    a flush, a new name or a new size report does not mean anything. *)
Definition unusable (o : op) (r : result) : Prop :=
  match o with
  | OpRead _ size _ =>
      if size =? 0 then r = Bytes PF_STATUS_SUCCESS (Some 0) [] else exists status, PF_FAILURE status = true /\ r = Bytes status None []
  | OpWrite _ _ _ => exists status, PF_FAILURE status = true /\ r = Status status
  | OpGetSize => exists size, r = Size PF_STATUS_SUCCESS size
  | OpSetSize _ | OpRename _ | OpFlush => exists status, r = Status status
  end.

(** The result [r] of the operation, after which the file is as [x] says; [None] means that
    the file is unusable.  Failures are possible unless [strict], and the result shows them. *)
Inductive outcome (strict : bool) (o : op) : option open_file -> result -> option open_file -> Prop :=
  | outcome_done a r a' : spec o a = (r, a') -> outcome strict o (Some a) r (Some a')
  | outcome_failed a r a' : strict = false -> failure o a r -> r <> fst (spec o a) -> partly o a a' -> outcome strict o (Some a) r (Some a')
  | outcome_broken a r : strict = false -> failure o a r -> r <> fst (spec o a) -> outcome strict o (Some a) r None
  | outcome_unusable r : strict = false -> unusable o r -> outcome strict o None r None.

Inductive outcomes (strict : bool) : list op -> option open_file -> list result -> option open_file -> Prop :=
  | outcomes_nil x : outcomes strict [] x [] x
  | outcomes_cons o ops x r x1 rs x2 : outcome strict o x r x1 -> outcomes strict ops x1 rs x2 -> outcomes strict (o :: ops) x (r :: rs) x2.

(** The sequence of results when nothing fails. *)
Fixpoint specs (ops : list op) (a : open_file) : list result * open_file :=
  match ops with
  | [] => ([], a)
  | o :: ops' => let '(r, a1) := spec o a in let '(rs, a2) := specs ops' a1 in (r :: rs, a2)
  end.

Lemma outcome_strict o a r x : outcome true o (Some a) r x -> exists a', spec o a = (r, a') /\ x = Some a'.
Proof. inversion 1; subst; [eauto|done..]. Qed.

(** Arguments within bounds: offsets far below [2 ^ 64], a buffer of the given size, a path
    that is a string of C. *)
Definition op_ok (limit : Z) (o : op) : Prop :=
  match o with
  | OpRead offset size _ => 0 <= offset /\ 0 <= size
  | OpWrite offset size input => 0 <= offset /\ 0 <= size /\ offset + size <= limit /\ (forall x, input = Some x -> size <= Z.of_nat (length x))
  | OpSetSize size => 0 <= size <= limit
  | OpRename new_path => 0 ∉ new_path
  | OpGetSize | OpFlush => True
  end.

Definition op_okb (limit : Z) (o : op) : bool :=
  match o with
  | OpRead offset size _ => (0 <=? offset) && (0 <=? size)
  | OpWrite offset size input =>
      (0 <=? offset) && (0 <=? size) && (offset + size <=? limit) && (match input with Some x => size <=? Z.of_nat (length x) | None => true end)
  | OpSetSize size => (0 <=? size) && (size <=? limit)
  | OpRename new_path => bool_decide (0 ∉ new_path)
  | OpGetSize | OpFlush => true
  end.

Lemma ops_ok limit ops : forallb (op_okb limit) ops = true -> Forall (op_ok limit) ops.
Proof.
  intros Ho. apply Forall_forall. intros o Hin. rewrite forallb_forall in Ho. apply list_elem_of_In, Ho in Hin.
  destruct o as [? ?|? ? [x|]| | | |]; simpl in *; rewrite ?andb_true_iff, ?Z.leb_le in Hin; try (intuition (simplify_eq; done)); [..|by apply bool_decide_eq_true in Hin].
Qed.

(** ** The functions of the API *)
Section run.
Context {H : Type} `{CB : !pf_callbacks H}.

Definition run (o : op) : SM (pf_context H) result :=
  match o with
  | OpRead offset size output => '(status, n, b) ← pf_read offset size output; mret (Bytes status n b)
  | OpWrite offset size input => status ← pf_write offset size input; mret (Status status)
  | OpSetSize size => status ← pf_set_size size; mret (Status status)
  | OpGetSize => '(status, n) ← pf_get_size; mret (Size status n)
  | OpRename new_path => status ← pf_rename new_path; mret (Status status)
  | OpFlush => status ← pf_flush; mret (Status status)
  end.

Fixpoint run_all (ops : list op) : SM (pf_context H) (list result) :=
  match ops with
  | [] => mret []
  | o :: ops' => r ← run o; rs ← run_all ops'; mret (r :: rs)
  end.

(** The results up to the first operation that aborts. *)
Fixpoint results (ops : list op) (s : pf_context H) : list result :=
  match ops with
  | [] => []
  | o :: ops' =>
      match run o s with
      | None => []
      | Some (r, s') => r :: results ops' s'
      end
  end.
End run.
