(* ===== verification/PfFile.v ===== *)
(** * Protected files: reading and writing

    An open file represents a path and a sequence of bytes; what the operations of
    [protected_files.c] do to them. *)

From S2P Require Import Prelude LruCache PfLayout PfFormat PfSort ProtFiles PfInv PfBad PfNodes PfFlush PfCommit PfContents PfMark PfFetch.

(** The metadata hold the path as a string of C. *)
Definition named (p : bytes) (e : metadata_encrypted_t) : Prop := 0 ∉ p /\ exists rest, path e = p ++ 0 :: rest.

Lemma contents_same e e' D : same_contents e e' -> contents e' D = contents e D.
Proof. intros (_ & Es & Em). unfold contents. by rewrite Es, Em. Qed.

Lemma named_same p e e' : path e' = path e -> named p e -> named p e'.
Proof. unfold named. by intros ->. Qed.

Section rep.
Context {H : Type} `{CB : !pf_callbacks H} (strict intact : bool) (disk : H -> Z -> option bytes).
Implicit Types (s : pf_context H) (T D : Z -> bytes) (p f : bytes).
Abbreviation inv := (inv strict intact disk).
Abbreviation in_order := (in_order intact).

(** The file has the path [p] and is in order. *)
Definition usable p s : Prop := named p (encrypted_part_plain s) /\ file_status s = PF_STATUS_SUCCESS.

Lemma usable_same p s s' : path (encrypted_part_plain s') = path (encrypted_part_plain s) -> file_status s' = file_status s -> usable p s -> usable p s'.
Proof. intros Ep Es [Hn Hs]. split; [by eapply named_same|congruence]. Qed.

(** The file at the path [p] has the contents [f]. *)
Definition rep p f s : Prop :=
  exists T D, inv 0 T D s /\ in_order s /\ f = contents (encrypted_part_plain s) D /\ usable p s.

Definition same_open s s' : Prop := mode s' = mode s /\ user_kdk_key s' = user_kdk_key s.

(** After an operation on [s], the file has the contents [f]. *)
Definition holds p f s s' : Prop := rep p f s' /\ same_open s s'.

Lemma same_open_refl s : same_open s s.
Proof. done. Qed.

Lemma same_open_trans s1 s2 s3 : same_open s1 s2 -> same_open s2 s3 -> same_open s1 s3.
Proof. unfold same_open. intuition congruence. Qed.

Lemma holds_trans p f s1 s2 s3 : same_open s1 s2 -> holds p f s2 s3 -> holds p f s1 s3.
Proof. intros H12 [Hr H23]. split; [done|]. by eapply same_open_trans. Qed.

Lemma same_file_open s s' : same_file s s' -> same_open s s'.
Proof. by intros [_ (? & ? & _)]. Qed.

Lemma rep_size p f s : rep p f s -> Z.of_nat (length f) = file_size (encrypted_part_plain s) /\ file_size (encrypted_part_plain s) <= MAX_SIZE.
Proof.
  intros (T & D & Hi & _ & -> & _). pose proof (in_meta _ _ _ _ _ _ _ Hi) as Hm. split; [|apply Hm]. apply contents_length, (me_size _ (mo_plain _ Hm)).
Qed.

Lemma rep_status p f s : rep p f s -> file_status s = PF_STATUS_SUCCESS.
Proof. intros (T & D & _ & _ & _ & _ & Hs). done. Qed.

Lemma rep_same T D p f s s' :
  inv 0 T D s' -> in_order s' -> same_file s s' -> f = contents (encrypted_part_plain s) D -> usable p s -> holds p f s s'.
Proof.
  intros Hi Ho Hsf Ef Hp. split; [|by apply same_file_open]. exists T, D. pose proof (sf_contents _ _ Hsf) as Hc. split_and!; try done.
  - by rewrite (contents_same _ _ _ Hc).
  - eapply usable_same; [apply Hc|apply Hsf|done].
Qed.

(** Reporting an error does not change the file. *)
Lemma rep_error p f st s : rep p f s -> rep p f (set_last_error st s).
Proof.
  intros (T & D & Hi & Ho & Ef & Hp). exists T, D. split_and!; try done. by apply inv_error.
Qed.

End rep.

(** An intact tree is a tree. *)
Lemma rep_weaken {H : Type} `{CB : !pf_callbacks H} strict intact disk p f (s : pf_context H) : rep strict intact disk p f s -> rep strict false disk p f s.
Proof. intros (T & D & Hi & _ & ? & ?). exists T, D. split_and!; [by eapply inv_weaken|done..]. Qed.

Section file.
Context {H : Type} `{CB : !pf_callbacks H} (strict intact : bool) (disk : H -> Z -> option bytes) `{OK : !callbacks_ok strict disk}.
Implicit Types (s : pf_context H) (T D : Z -> bytes) (p f : bytes).
Abbreviation inv := (inv strict intact disk).
Abbreviation pwp := (pwp intact).
Abbreviation in_order := (in_order intact).
Abbreviation got := (got strict intact disk).
Abbreviation lost := (lost strict disk).
Abbreviation rep := (rep strict intact disk).
Abbreviation holds := (holds strict intact disk).

(** After an operation that has failed: the contents are [f], or the file is unusable;
    the tree may have lost parents. *)
Definition stuck p f s s' : Prop := strict = false /\ erred s' /\ (bad s' \/ PfFile.holds strict false disk p f s s').

Lemma stuck_trans p f s1 s2 s3 : same_open s1 s2 -> stuck p f s2 s3 -> stuck p f s1 s3.
Proof. intros H12 (Hs & He & [Hb|Hh]); (split_and!; [done..|]); [by left|right]. by eapply PfFile.holds_trans. Qed.

Lemma lost_stuck D p f s s' : f = contents (encrypted_part_plain s) D -> usable p s -> lost D s s' -> stuck p f s s'.
Proof.
  intros Ef Hp (Es & He & [Hb|(T & Hi & Hsf)]); (split_and!; [done..|]); [by left|right]. by eapply rep_same.
Qed.

(** ** Reading *)

Lemma round_bounds off n : 0 < n -> let m := (off - MD_USER_DATA_SIZE) mod PF_NODE_SIZE in
  0 <= m < PF_NODE_SIZE /\ 0 < Z.min n (PF_NODE_SIZE - m) <= n.
Proof. intros Hn m. assert (0 <= m < PF_NODE_SIZE) by by apply Z.mod_pos_bound. lia. Qed.

(** A round uses up the node. *)
Lemma round_fuel off n fuel : 0 < n -> (off - MD_USER_DATA_SIZE) mod PF_NODE_SIZE + n <= PF_NODE_SIZE * Z.of_nat (S fuel) ->
  let k := Z.min n (PF_NODE_SIZE - (off - MD_USER_DATA_SIZE) mod PF_NODE_SIZE) in
  0 < n - k -> (off + k - MD_USER_DATA_SIZE) mod PF_NODE_SIZE + (n - k) <= PF_NODE_SIZE * Z.of_nat fuel.
Proof.
  intros Hn Hf k Hk. assert (Ek : k = PF_NODE_SIZE - (off - MD_USER_DATA_SIZE) mod PF_NODE_SIZE) by lia.
  assert ((off + k - MD_USER_DATA_SIZE) mod PF_NODE_SIZE = 0) as ->; [|lia]. rewrite Ek. clear. unfold MD_USER_DATA_SIZE, PF_NODE_SIZE. Z.to_euclidean_division_equations; lia.
Qed.

Lemma rounds_enough off n m : 0 <= m <= n -> (off - MD_USER_DATA_SIZE) mod PF_NODE_SIZE + m <= PF_NODE_SIZE * Z.of_nat (rounds n).
Proof.
  intros Hn. assert (0 <= (off - MD_USER_DATA_SIZE) mod PF_NODE_SIZE < PF_NODE_SIZE) by by apply Z.mod_pos_bound.
  unfold rounds, PF_NODE_SIZE in *. Z.to_euclidean_division_equations; lia.
Qed.

Lemma data_at_valid offset : MD_USER_DATA_SIZE <= offset -> valid (Data (data_at offset)).
Proof. unfold valid, data_at, MD_USER_DATA_SIZE, PF_NODE_SIZE. intros. Z.to_euclidean_division_equations; lia. Qed.

Lemma read_loop_spec p f fuel : forall offset remaining out s (Q : Z * bytes -> pf_context H -> Prop),
  rep p f s -> MD_USER_DATA_SIZE <= offset -> 0 <= remaining -> offset + remaining <= Z.of_nat (length f) ->
  (0 < remaining -> (offset - MD_USER_DATA_SIZE) mod PF_NODE_SIZE + remaining <= PF_NODE_SIZE * Z.of_nat fuel) ->
  (forall s', holds p f s s' -> Q (0, out ++ slice offset remaining f) s') ->
  (forall k s', 0 <= k < remaining -> stuck p f s s' -> Q (remaining - k, out ++ slice offset k f) s') ->
  pwp (read_loop fuel offset remaining out) Q s.
Proof using OK.
  assert (Hmd : 0 < MD_USER_DATA_SIZE) by done.
  induction fuel as [|fuel IH]; intros offset remaining out s Q Hr Ho Hrem Hle Hfu HQ HF; cbn [read_loop]; (destruct (Z.leb_spec remaining 0) as [Hz|Hpos];
    [assert (remaining = 0) as -> by lia; apply pwp_ret; rewrite <- (app_nil_r out); by apply HQ|]); [destruct (round_bounds offset remaining Hpos); specialize (Hfu Hpos); lia|].
  destruct (rep_size _ _ _ _ _ _ Hr) as [Hsz Hmax]. destruct Hr as (T & D & Hi & Hord & Ef & Hp). destruct (round_bounds offset remaining Hpos) as [Hm Hk].
  set (m := (offset - MD_USER_DATA_SIZE) mod PF_NODE_SIZE) in *. set (k := Z.min remaining (PF_NODE_SIZE - m)) in *.
  apply pwp_bind. apply (ipf_get_data_node_read strict intact disk T D); try done.
  - unfold in_tree, nb, data_at, data_nodes. rewrite <- Hsz. clear -Ho Hle Hpos Hmd. unfold MD_USER_DATA_SIZE, PF_NODE_SIZE in *. Z.to_euclidean_division_equations; lia.
  - intros ptr T' s1 [Hi1 Ho1 Hf1 Hp1]. destruct (core_node _ _ _ _ (Data (data_at offset)) _ (in_core _ _ _ _ _ _ _ Hi1) (data_at_valid _ Ho) Hp1) as (n & Hn & On).
    apply pwp_bind. eapply pwp_deref; [done|]. pose proof (no_body _ _ _ _ On) as Eb. simpl in Eb. rewrite Eb.
    assert (Hn0 : sized PF_NODE_SIZE (D (data_at offset))) by apply (co_sized _ _ _ _ (in_core _ _ _ _ _ _ _ Hi) (Data (data_at offset))).
    assert (Esl : slice m k (D (data_at offset)) = slice offset k f) by (rewrite Ef; apply slice_node; done || lia). rewrite Esl.
    assert (Hh : holds p f s s1) by by eapply rep_same.
    rewrite u64_small by (unfold u64_mod, MAX_SIZE in *; lia). apply IH; try lia; [by apply Hh|apply round_fuel; auto| |].
    + intros s' Hs'. rewrite <- app_assoc, slice_app by lia. replace (k + (remaining - k)) with remaining by lia. apply HQ. eapply holds_trans; [apply Hh|done].
    + intros k' s' Hk' Hs'. rewrite <- app_assoc, slice_app by lia. replace (remaining - k - k') with (remaining - (k + k')) by lia.
      apply HF; [lia|]. eapply stuck_trans; [apply Hh|done].
  - intros s1 Hl. apply pwp_ret. replace remaining with (remaining - 0) at 1 by lia. rewrite <- (app_nil_r out). apply (HF 0); [lia|]. by eapply lost_stuck.
Qed.

(** ** Writing *)

(** The contents after a round. *)
Lemma rep_wrote T D p f s0 s s' offset src n :
  same_file s0 s -> f = contents (encrypted_part_plain s0) D -> usable p s0 ->
  MD_USER_DATA_SIZE <= offset <= Z.of_nat (length f) -> 0 <= n -> (forall x, src = Some x -> n <= Z.of_nat (length x)) ->
  (offset - MD_USER_DATA_SIZE) mod PF_NODE_SIZE + n <= PF_NODE_SIZE -> sized PF_NODE_SIZE (D (data_at offset)) ->
  0 <= file_size (encrypted_part_plain s) ->
  inv 0 T (upd D (data_at offset) (memcpy_or_zero_initialize (D (data_at offset)) ((offset - MD_USER_DATA_SIZE) mod PF_NODE_SIZE) src n)) s' ->
  in_order s -> wrote (Z.max (file_size (encrypted_part_plain s)) (offset + n)) s s' ->
  holds p (splice offset (chunk src n) f) s0 s'.
Proof.
  intros Hsf Ef Hp Ho Hn Hsrc Hm Hs Hz Hi Hord [Es Ec (_ & Emo & Ek & Est & _)]. destruct (sf_fields _ _ Hsf) as (Emo0 & Ek0 & Est0). pose proof (sf_contents _ _ Hsf) as Hc.
  split; [|by split; congruence]. eexists T, _. split_and!; [exact Hi| | |].
  - intros Hst. rewrite Ec. by apply Hord.
  - rewrite Es, contents_write; [|done| |done..].
    + by rewrite (contents_same _ _ _ Hc), Ef.
    + rewrite Ef, <- (contents_same _ _ _ Hc), contents_length in Ho by done. done.
  - apply (usable_same p s0); [|congruence|done]. rewrite Es. simpl. apply Hc.
Qed.

(** A round of [ipf_write] from the node on. *)
Lemma write_round e T D p f s s1 offset src n ptr (Q : unit -> pf_context H -> Prop) :
  got e T D (data_at offset) ptr s s1 -> f = contents (encrypted_part_plain s) D -> usable p s ->
  MD_USER_DATA_SIZE <= offset <= Z.of_nat (length f) -> offset + n <= MAX_SIZE ->
  e = 0 /\ data_at offset < nb s \/ e = 1 /\ data_at offset = nb s /\ offset = file_size (encrypted_part_plain s) /\ (offset - MD_USER_DATA_SIZE) mod PF_NODE_SIZE = 0 ->
  0 < n -> (offset - MD_USER_DATA_SIZE) mod PF_NODE_SIZE + n <= PF_NODE_SIZE -> (forall x, src = Some x -> n <= Z.of_nat (length x)) ->
  (forall s', holds p (splice offset (chunk src n) f) s s' -> Q () s') ->
  pwp (update ptr (fun m => set_decrypted (memcpy_or_zero_initialize (decrypted m) ((offset - MD_USER_DATA_SIZE) mod PF_NODE_SIZE) src n) m);;
       grow (u64 (offset + n));;
       mark_dirty ptr) Q s1.
Proof using OK.
  intros [Hi1 Ho1 Hf1 Hp1] Ef Hp Ho Hmax He Hn Hm Hsrc HQ. pose proof (data_at_valid offset (proj1 Ho)) as Hd. simpl in Hd.
  assert (Hmod : 0 <= (offset - MD_USER_DATA_SIZE) mod PF_NODE_SIZE) by by apply Z.mod_pos_bound.
  assert (Eo : offset = MD_USER_DATA_SIZE + PF_NODE_SIZE * data_at offset + (offset - MD_USER_DATA_SIZE) mod PF_NODE_SIZE).
  { unfold data_at. pose proof (Z.div_mod (offset - MD_USER_DATA_SIZE) PF_NODE_SIZE ltac:(done)). lia. }
  assert (Esz : file_size (encrypted_part_plain s1) = file_size (encrypted_part_plain s)) by apply (sf_contents _ _ Hf1).
  pose proof (me_size _ (mo_plain _ (in_meta _ _ _ _ _ _ _ Hi1))) as Hsz. pose proof (co_sized _ _ _ _ (in_core _ _ _ _ _ _ _ Hi1) (Data (data_at offset))) as Hsd.
  rewrite u64_small by (assert (0 < MD_USER_DATA_SIZE) by done; unfold u64_mod, MAX_SIZE in *; lia).
  replace (offset + n) with (MD_USER_DATA_SIZE + PF_NODE_SIZE * data_at offset + (offset - MD_USER_DATA_SIZE) mod PF_NODE_SIZE + n) by lia.
  apply (write_data_node_spec strict intact disk e T D (data_at offset)); try done; try lia.
  - rewrite (same_file_nb _ _ Hf1), Esz. destruct He as [?|(-> & ? & Eof & Ez)]; [by left|right]. split_and!; try done. lia.
  - intros s' Hi' Hw. apply HQ. eapply rep_wrote; try done; try lia. replace (offset + n) with (MD_USER_DATA_SIZE + PF_NODE_SIZE * data_at offset + (offset - MD_USER_DATA_SIZE) mod PF_NODE_SIZE + n) by lia. done.
Qed.

(** The node of a round, which is read or appended. *)
Lemma write_node p f s offset (Q : option Z -> pf_context H -> Prop) :
  rep p f s -> MD_USER_DATA_SIZE <= offset <= Z.of_nat (length f) ->
  (forall e T D ptr s', got e T D (data_at offset) ptr s s' -> f = contents (encrypted_part_plain s) D -> usable p s ->
     e = 0 /\ data_at offset < nb s \/ e = 1 /\ data_at offset = nb s /\ offset = file_size (encrypted_part_plain s) /\ (offset - MD_USER_DATA_SIZE) mod PF_NODE_SIZE = 0 ->
     Q (Some ptr) s') ->
  (forall s', stuck p f s s' -> Q None s') ->
  pwp (ipf_get_data_node offset) Q s.
Proof using OK.
  intros Hr Ho HQ HF. destruct (rep_size _ _ _ _ _ _ Hr) as [Hsz Hmax]. destruct Hr as (T & D & Hi & Hord & Ef & Hp).
  pose proof (data_at_valid offset (proj1 Ho)) as Hd. simpl in Hd. assert (Hmd : 0 < MD_USER_DATA_SIZE) by done.
  destruct (decide (data_at offset < nb s)) as [Hlt|Hge].
  - apply (ipf_get_data_node_read strict intact disk T D); try done; try lia.
    + intros ptr T' s' Hg. eapply HQ; try done. by left.
    + intros s' Hl. apply HF. by eapply lost_stuck.
  - assert (Eo : offset = file_size (encrypted_part_plain s) /\ (offset - MD_USER_DATA_SIZE) mod PF_NODE_SIZE = 0 /\ data_at offset = nb s).
    { clear -Ho Hsz Hge. unfold nb, data_nodes, data_at, MD_USER_DATA_SIZE, PF_NODE_SIZE in *. Z.to_euclidean_division_equations; lia. }
    destruct Eo as (Eo & Em & En). apply (ipf_get_data_node_append strict intact disk T D); try done; try lia.
    + intros ptr T' s' Hg. eapply HQ; [exact Hg| |done|by right]. rewrite contents_append; [done..|].
      rewrite <- Eo. unfold data_at. pose proof (Z.div_mod (offset - MD_USER_DATA_SIZE) PF_NODE_SIZE ltac:(done)). lia.
    + intros s' Hl. apply HF. by eapply lost_stuck.
Qed.

Lemma write_loop_spec p fuel : forall f offset remaining src s (Q : Z -> pf_context H -> Prop),
  rep p f s -> MD_USER_DATA_SIZE <= offset <= Z.of_nat (length f) -> 0 <= remaining -> offset + remaining <= MAX_SIZE ->
  (forall x, src = Some x -> remaining <= Z.of_nat (length x)) ->
  (0 < remaining -> (offset - MD_USER_DATA_SIZE) mod PF_NODE_SIZE + remaining <= PF_NODE_SIZE * Z.of_nat fuel) ->
  (forall s', holds p (splice offset (chunk src remaining) f) s s' -> Q 0 s') ->
  (forall k s', 0 <= k < remaining -> stuck p (splice offset (chunk src k) f) s s' -> Q (remaining - k) s') ->
  pwp (write_loop fuel src offset remaining) Q s.
Proof using OK.
  assert (Hmd : 0 < MD_USER_DATA_SIZE) by done.
  assert (Hnil : forall off f src, 0 <= off <= Z.of_nat (length f) -> splice off (chunk src 0) f = f) by (intros off f [x|] ?; by apply splice_nil).
  induction fuel as [|fuel IH]; intros f offset remaining src s Q Hr Ho Hrem Hle Hsrc Hfu HQ HF; cbn [write_loop]; (destruct (Z.leb_spec remaining 0) as [Hz|Hpos];
    [assert (remaining = 0) as -> by lia; apply pwp_ret, HQ; rewrite Hnil by lia; by split|]); [destruct (round_bounds offset remaining Hpos); specialize (Hfu Hpos); lia|].
  destruct (round_bounds offset remaining Hpos) as [Hm Hk]. apply pwp_bind. apply (write_node p f); try done.
  - intros e T D ptr s1 Hg Ef Hp He. cbv zeta. set (m := (offset - MD_USER_DATA_SIZE) mod PF_NODE_SIZE) in *. set (k := Z.min remaining (PF_NODE_SIZE - m)) in *.
    assert (Hsk : forall x, src = Some x -> k <= Z.of_nat (length x)) by (intros x Hx; specialize (Hsrc x Hx); lia).
    assert (Hck : Z.of_nat (length (chunk src k)) = k) by (apply chunk_length; [lia|done]).
    rewrite u64_small by (unfold u64_mod, MAX_SIZE in *; lia).
    assert (Hround : forall Q', (forall s', holds p (splice offset (chunk src k) f) s s' -> Q' () s') ->
      pwp (update ptr (fun n => set_decrypted (memcpy_or_zero_initialize (decrypted n) m src k) n);; grow (offset + k);; mark_dirty ptr) Q' s1).
    { intros Q' HQ'. pose proof (write_round e T D p f s s1 offset src k ptr Q') as Hw. rewrite u64_small in Hw by (unfold u64_mod, MAX_SIZE in *; lia). apply Hw; try done; lia. }
    assert (Hshape : forall (m1 m2 m3 : SM (pf_context H) unit) (mm : SM (pf_context H) Z), pwp ((m1;; m2;; m3);; mm) Q s1 -> pwp (m1;; m2;; m3;; mm) Q s1).
    { intros m1 m2 m3 mm. unfold PfInv.pwp, mbind, SM_bind. destruct (m1 s1) as [[? ?]|]; [|done]. by destruct (m2 _) as [[? ?]|]. }
    apply Hshape, pwp_bind, Hround. intros s2 Hh. assert (Hl2 : Z.of_nat (length (splice offset (chunk src k) f)) = Z.max (Z.of_nat (length f)) (offset + k)) by (rewrite splice_length, Hck; lia).
    assert (Hadd : forall k', 0 <= k' -> splice (offset + k) (chunk (advance k src) k') (splice offset (chunk src k) f) = splice offset (chunk src (k + k')) f).
    { intros k' Hk'. rewrite <- chunk_advance by lia. rewrite <- splice_app, Hck by lia. done. }
    apply (IH (splice offset (chunk src k) f)); try lia; [by apply Hh|apply advance_long; [lia|]; by replace (k + (remaining - k)) with remaining by lia|apply round_fuel; auto| |].
    + intros s' Hs'. apply HQ. rewrite Hadd in Hs' by lia. replace (k + (remaining - k)) with remaining in Hs' by lia. eapply holds_trans; [apply Hh|done].
    + intros k' s' Hk' Hs'. rewrite Hadd in Hs' by lia. replace (remaining - k - k') with (remaining - (k + k')) by lia. apply HF; [lia|]. eapply stuck_trans; [apply Hh|done].
  - intros s1 Hs1. apply pwp_ret. replace remaining with (remaining - 0) by lia. apply HF; [lia|]. rewrite Hnil by lia. done.
Qed.

(** ** The metadata node *)

(** A change of the metadata that leaves the tree alone. *)
Lemma inv_metadata T D s e :
  inv 0 T D s -> metadata_encrypted_ok e -> file_size e <= MAX_SIZE -> data_nodes (file_size e) = nb s ->
  mht_key e = mht_key (encrypted_part_plain s) -> mht_gmac e = mht_gmac (encrypted_part_plain s) ->
  inv 0 T D (set_need_writing true (set_encrypted_part_plain e s)).
Proof.
  intros Hi He Hmax Hnb Ek Eg. assert (Enb : nb (set_need_writing true (set_encrypted_part_plain e s)) = nb s) by done.
  split; rewrite ?Enb; try done.
  - by eapply core_ext; [apply Hi|..].
  - apply Hi.
  - apply Hi.
  - apply Hi.
  - apply Hi.
  - apply Hi.
  - intros Hnd Ht. destruct (in_root _ _ _ _ _ _ _ Hi Hnd Ht) as (c & Ec & Hd). exists c. simpl. by rewrite Ek, Eg.
  - destruct (in_meta _ _ _ _ _ _ _ Hi). by split.
Qed.

Lemma write_metadata_spec p f s offset src n (Q : unit -> pf_context H -> Prop) :
  rep p f s -> 0 <= offset <= Z.of_nat (length f) -> 0 <= n -> offset + n <= MD_USER_DATA_SIZE -> (forall x, src = Some x -> n <= Z.of_nat (length x)) ->
  (forall s', holds p (splice offset (chunk src n) f) s s' -> Q () s') ->
  pwp (write_metadata src offset n) Q s.
Proof using OK.
  intros Hr Ho Hn Hle Hsrc HQ. destruct (rep_size _ _ _ _ _ _ Hr) as [Hsz Hmax]. destruct Hr as (T & D & Hi & Hord & Ef & Hp).
  pose proof (mo_plain _ (in_meta _ _ _ _ _ _ _ Hi)) as Hme. destruct (encrypted_part_plain s) as [pa sz key gm md] eqn:Ee. simpl in *.
  set (e' := MetadataEncrypted pa (Z.max sz (offset + n)) key gm (memcpy_or_zero_initialize md offset src n)).
  assert (Hgoal : Q () (set_need_writing true (set_encrypted_part_plain e' s))).
  { apply HQ. split; [|done]. assert (MD_USER_DATA_SIZE <= MAX_SIZE) by by vm_compute. exists T, D. split_and!.
    - apply inv_metadata; rewrite ?Ee; try done; try (simpl; lia).
      + destruct Hme; split; try done; simpl in *; [unfold MAX_SIZE in *; lia|]. rewrite memcpy_chunk. eapply (splice_sized _ _ _ _ n); try done; [|lia].
        pose proof (chunk_length src n Hn Hsrc). unfold sized. lia.
      + unfold nb, data_nodes. rewrite Ee. simpl. clear -Hle. unfold MD_USER_DATA_SIZE, PF_NODE_SIZE in *. Z.to_euclidean_division_equations; lia.
    - done.
    - simpl. rewrite Ef. symmetry. apply (contents_write_metadata (MetadataEncrypted pa sz key gm md)); simpl; try done; [apply Hme|lia].
    - apply (usable_same p s); [by rewrite Ee|done..]. }
  unfold write_metadata. apply pwp_bind, pwp_modify, pwp_bind. unfold grow. apply pwp_modify, pwp_modify. rewrite Ee. simpl.
  destruct (Z.ltb_spec sz (offset + n)) as [Hlt|Hge]; unfold e' in Hgoal; [rewrite Z.max_r in Hgoal by lia|rewrite Z.max_l in Hgoal by lia]; exact Hgoal.
Qed.

Lemma ipf_check_writable_spec p f s (Q : bool -> pf_context H -> Prop) :
  rep p f s -> (has (mode s) PF_FILE_MODE_WRITE = true -> Q true s) ->
  (has (mode s) PF_FILE_MODE_WRITE = false -> Q false (set_last_error PF_STATUS_INVALID_MODE s)) ->
  pwp ipf_check_writable Q s.
Proof.
  intros Hr HQ HF. unfold ipf_check_writable. apply pwp_bind, pwp_gets, pwp_bind, pwp_gets. rewrite (rep_status _ _ _ _ _ _ Hr).
  cbn [PF_FAILURE]. destruct (has (mode s) PF_FILE_MODE_WRITE); simpl; [by apply pwp_ret, HQ|]. apply pwp_bind, pwp_modify, pwp_ret. by apply HF.
Qed.

Lemma ipf_write_spec p f s offset size src (Q : Z -> pf_context H -> Prop) :
  rep p f s -> has (mode s) PF_FILE_MODE_WRITE = true -> 0 <= offset <= Z.of_nat (length f) -> 0 < size -> offset + size <= MAX_SIZE ->
  (forall x, src = Some x -> size <= Z.of_nat (length x)) ->
  (forall s', holds p (splice offset (chunk src size) f) s s' -> Q size s') ->
  (forall k s', 0 <= k < size -> stuck p (splice offset (chunk src k) f) s s' -> Q k s') ->
  pwp (ipf_write src offset size) Q s.
Proof using OK.
  intros Hr Hw Ho Hs Hmax Hsrc HQ HF. unfold ipf_write. rewrite (proj2 (Z.eqb_neq _ _)) by lia. apply pwp_bind. apply (ipf_check_writable_spec p f); [done| |congruence].
  intros _. cbn [negb]. cbv zeta. set (n := if offset <? MD_USER_DATA_SIZE then _ else 0). assert (Hmd : 0 < MD_USER_DATA_SIZE) by done.
  assert (Hn : 0 <= n <= size /\ (n = size \/ MD_USER_DATA_SIZE <= offset + n) /\ (offset < MD_USER_DATA_SIZE -> offset + n <= MD_USER_DATA_SIZE) /\ (MD_USER_DATA_SIZE <= offset -> n = 0)).
  { unfold n. destruct (Z.ltb_spec offset MD_USER_DATA_SIZE); lia. }
  clearbody n. destruct Hn as (Hn & Hor & Hlt & Hge). assert (Hsn : forall x, src = Some x -> n <= Z.of_nat (length x)) by (intros x Hx; specialize (Hsrc x Hx); lia).
  assert (Hck : Z.of_nat (length (chunk src n)) = n) by (apply chunk_length; [lia|done]).
  assert (Hadd : forall k, 0 <= k -> splice (offset + n) (chunk (advance n src) k) (splice offset (chunk src n) f) = splice offset (chunk src (n + k)) f).
  { intros k Hk. rewrite <- chunk_advance by lia. rewrite <- splice_app, Hck by lia. done. }
  assert (Hrest : forall s1, holds p (splice offset (chunk src n) f) s s1 ->
    pwp (remaining ← write_loop (rounds size) (advance n src) (offset + n) (size - n); mret (size - remaining)) Q s1).
  { intros s1 Hh. apply pwp_bind. destruct (decide (n = size)) as [->|Hne].
    - rewrite Z.sub_diag. assert (Ew : forall fuel, write_loop fuel (advance size src) (offset + size) 0 = mret 0) by by intros []. rewrite Ew. apply pwp_ret, pwp_ret. rewrite Z.sub_0_r. by apply HQ.
    - apply (write_loop_spec p _ (splice offset (chunk src n) f)); try lia; [by apply Hh|rewrite splice_length; lia| |intros; apply rounds_enough; lia| |].
      + apply advance_long; [lia|]. by replace (n + (size - n)) with size by lia.
      + intros s' Hs'. apply pwp_ret. rewrite Z.sub_0_r. apply HQ. rewrite Hadd in Hs' by lia. replace (n + (size - n)) with size in Hs' by lia. eapply holds_trans; [apply Hh|done].
      + intros k s' Hk Hs'. apply pwp_ret. replace (size - (size - n - k)) with (n + k) by lia. apply HF; [lia|]. rewrite Hadd in Hs' by lia. eapply stuck_trans; [apply Hh|done]. }
  apply pwp_bind. destruct (Z.ltb_spec offset MD_USER_DATA_SIZE).
  - apply (write_metadata_spec p f); try done; try lia.
  - apply pwp_ret, Hrest. rewrite Hge by lia. assert (chunk src 0 = []) as -> by by destruct src. rewrite splice_nil by lia. by split.
Qed.

Lemma ipf_read_spec p f s offset size (Q : Z * bytes -> pf_context H -> Prop) :
  rep p f s -> has (mode s) PF_FILE_MODE_READ = true -> 0 <= offset < Z.of_nat (length f) -> 0 < size ->
  let n := Z.min size (Z.of_nat (length f) - offset) in
  (forall s', holds p f s s' -> Q (n, slice offset n f) s') ->
  (forall k s', 0 <= k < n -> stuck p f s s' -> Q (k, slice offset k f) s') ->
  pwp (ipf_read true offset size) Q s.
Proof using OK.
  intros Hr Hw Ho Hs n HQ HF. unfold ipf_read. cbn [negb]. apply pwp_bind, pwp_gets, pwp_bind, pwp_gets. rewrite (rep_status _ _ _ _ _ _ Hr), Hw. cbn [PF_FAILURE negb].
  apply pwp_bind, pwp_gets. destruct (rep_size _ _ _ _ _ _ Hr) as [Hsz Hmax]. rewrite <- Hsz in *. simpl. rewrite !u64_small by (unfold u64_mod, MAX_SIZE in *; lia).
  assert ((if Z.of_nat (length f) - offset <? size then Z.of_nat (length f) - offset else size) = n) as ->.
  { unfold n. destruct (Z.ltb_spec (Z.of_nat (length f) - offset) size); lia. }
  assert (Hn : 0 < n /\ offset + n <= Z.of_nat (length f)) by lia. clearbody n.
  set (m := if offset <? MD_USER_DATA_SIZE then Z.min n (MD_USER_DATA_SIZE - offset) else 0).
  assert (Hm : 0 <= m <= n /\ (m = n \/ MD_USER_DATA_SIZE <= offset + m)) by (unfold m; destruct (Z.ltb_spec offset MD_USER_DATA_SIZE); lia).
  assert (Eout : (if offset <? MD_USER_DATA_SIZE then slice offset m (md_data (encrypted_part_plain s)) else []) = slice offset m f).
  { unfold m in *. destruct (Z.ltb_spec offset MD_USER_DATA_SIZE); [|done]. destruct Hr as (T & D & Hi & _ & Ef & _). rewrite Ef.
    apply slice_metadata; rewrite <- ?Hsz; try lia. apply (mo_plain _ (in_meta _ _ _ _ _ _ _ Hi)). }
  rewrite Eout. clearbody m. apply pwp_bind. destruct (decide (m = n)) as [->|Hne].
  - rewrite Z.sub_diag. assert (Er : forall fuel off out, read_loop (CB := CB) fuel off 0 out = mret (0, out)) by by intros []. rewrite Er. apply pwp_ret, pwp_ret. rewrite Z.sub_0_r. apply HQ. by split.
  - apply (read_loop_spec p f); try done; try lia; [intros; apply rounds_enough; lia| |].
    + intros s' Hs'. apply pwp_ret. rewrite Z.sub_0_r, slice_app by lia. replace (m + (n - m)) with n by lia. by apply HQ.
    + intros k s' Hk Hs'. apply pwp_ret. replace (n - (n - m - k)) with (m + k) by lia. rewrite slice_app by lia. apply HF; [lia|done].
Qed.
End file.
