(* ===== verification/PfApi.v ===== *)
(** * Protected files: the functions of the API *)

From S2P Require Import Prelude LruCache PfLayout PfFormat PfSort ProtFiles PfInv PfBad PfNodes PfFlush PfCommit PfContents PfMark PfFetch PfSpec PfFile.

Section api.
Context {H : Type} `{CB : !pf_callbacks H} (strict intact : bool) (disk : H -> Z -> option bytes) `{OK : !callbacks_ok strict disk}.
Implicit Types (s : pf_context H) (T D : Z -> bytes) (p f : bytes).
Abbreviation inv := (inv strict intact disk).
Abbreviation pwp := (pwp intact).
Abbreviation in_order := (in_order intact).
Abbreviation rep := (rep strict intact disk).
Abbreviation holds := (holds strict intact disk).
Abbreviation stuck := (stuck strict disk).

(** ** Dropping the cache *)

(** The cache points to different nodes other than the root. *)
Record cached s : Prop := {
  ca_lru : lruc_ok (cache s);
  ca_heap : forall key ptr, lruc_map (cache s) !! key = Some ptr -> ptr <> ROOT /\ is_Some (heap s !! ptr);
  ca_inj : forall k k' ptr, lruc_map (cache s) !! k = Some ptr -> lruc_map (cache s) !! k' = Some ptr -> k = k';
}.

Lemma core_cached T D s : core intact T D s -> cached s.
Proof.
  intros Hc. split; [apply Hc|..].
  - intros key ptr Hk. destruct (co_nodes _ _ _ _ Hc _ _ Hk) as (x & n & _ & _ & ? & ? & _). eauto.
  - intros k k' ptr Hk Hk'. destruct (co_nodes _ _ _ _ Hc _ _ Hk) as (x & n & -> & Hx & _ & Hn & On & _).
    destruct (co_nodes _ _ _ _ Hc _ _ Hk') as (y & m & -> & Hy & _ & Hm & Om & _). assert (m = n) as -> by congruence.
    by rewrite <- (no_phys _ _ _ _ On), <- (no_phys _ _ _ _ Om).
Qed.

(** [s'] is [s] without its cache. *)
Record dropped s s' : Prop := {
  dr_list : lruc_list (cache s') = [];
  dr_map : lruc_map (cache s') = ∅;
  dr_root : heap s' !! ROOT = heap s !! ROOT;
  dr_heap : forall ptr, is_Some (heap s' !! ptr) -> is_Some (heap s !! ptr);
  dr_same : s' = set_heap (heap s') (set_cache (cache s') s);
}.

Lemma free_cached_spec fuel : forall s (Q : unit -> pf_context H -> Prop),
  cached s -> (length (lruc_list (cache s)) <= fuel)%nat -> (forall s', dropped s s' -> Q () s') -> pwp (free_cached fuel) Q s.
Proof.
  induction fuel as [|fuel IH]; intros s Q [Ho Hh Hinj] Hf HQ; cbn [free_cached]; apply pwp_bind; unfold PfInv.pwp at 1, cache_last; rewrite lruc_last_ok by done;
    destruct (items (cache s)) as [|[k ptr] its _] eqn:Eit using rev_ind; pose proof (items_keys _ Ho) as Ek; rewrite Eit, ?fmap_app in Ek; simpl in Ek; simpl.
  1, 3: apply pwp_ret, HQ; assert (lruc_map (cache s) = ∅) as Em by
    (apply map_empty; intros k; destruct (lruc_map (cache s) !! k) eqn:E; [|done]; assert (Hin : k ∈ lruc_list (cache s)) by (apply (lru_dom _ Ho); eauto); rewrite <- Ek in Hin; by apply elem_of_nil in Hin);
    split; try done; by destruct s.
  - rewrite <- Ek, length_app in Hf. simpl in Hf. lia.
  - rewrite last_snoc. simpl. assert (Ep : lruc_map (cache s) !! k = Some ptr) by (apply items_elem; [done|]; rewrite Eit; in_list).
    destruct (Hh _ _ Ep) as [Hnr [n Hn]]. apply pwp_bind. eapply pwp_free; [done|]. apply pwp_bind.
    destruct (lruc_remove_last_ok (cache s) its k ptr Ho Eit) as (c & Er & Hok & Hit & Em & _). unfold PfInv.pwp at 1, cache_remove_last. simpl. rewrite Er.
    apply IH.
    + split; simpl; rewrite ?Em; [done| |].
      * intros k' q [Hne Hq]%lookup_delete_Some. destruct (Hh _ _ Hq) as [? ?]. split; [done|]. rewrite lookup_delete_ne; [done|]. intros <-. by apply Hne, (Hinj k k' ptr).
      * intros k1 k2 q [_ H1]%lookup_delete_Some [_ H2]%lookup_delete_Some. by eapply Hinj.
    + simpl. rewrite <- (items_keys c), Hit by done. rewrite <- Ek, length_app in Hf. simpl in Hf. lia.
    + intros s' [El Emp Er' Hhp Es]. apply HQ. split; try done.
      * rewrite Er'. simpl. by rewrite lookup_delete_ne.
      * intros q Hq. specialize (Hhp q Hq). simpl in Hhp. destruct Hhp as [m Hm]. apply lookup_delete_Some in Hm as [_ Hm]. eauto.
Qed.

Lemma free_all_spec s (Q : unit -> pf_context H -> Prop) : cached s -> (forall s', dropped s s' -> Q () s') -> pwp free_all_cached Q s.
Proof. intros Hc HQ. unfold free_all_cached. apply pwp_bind, pwp_gets. by apply free_cached_spec. Qed.

(** ** Removing the contents *)

Lemma strlen_named p rest : 0 ∉ p -> strlen (p ++ 0 :: rest) = Some (Z.of_nat (length p)).
Proof.
  induction p as [|c p IH]; [done|]. rewrite not_elem_of_cons. intros [Hne Hni]. simpl. rewrite (proj2 (Z.eqb_neq c 0)) by done. rewrite IH by done. simpl. f_equal. lia.
Qed.

(** A file without contents. *)
Lemma inv_empty s r :
  lruc_list (cache s) = [] -> lruc_map (cache s) = ∅ -> heap s !! ROOT = Some r -> decrypted r = zeros PF_NODE_SIZE -> node_need_writing r = false ->
  node_type r = FILE_MHT_NODE_TYPE -> node_number r = 0 -> physical_node_number r = 1 -> (forall ptr, is_Some (heap s !! ptr) -> ROOT <= ptr < next_ptr s) ->
  meta_ok s -> file_size (encrypted_part_plain s) = 0 -> need_writing s = true ->
  inv 0 (fun _ => zeros PF_NODE_SIZE) (fun _ => zeros PF_NODE_SIZE) s.
Proof.
  intros El Em Hr Hd Hw Ht Hnum Hph Hnx Hme Hsz Hnw. assert (Enb : nb s = 0) by (unfold nb; rewrite Hsz; done).
  assert (Hnone : forall x, inner x -> ptr_of s x = None) by (intros x Hx; rewrite ptr_of_inner, Em by done; apply lookup_empty).
  assert (Hcl : forall x, valid x -> ~ dirty s x).
  { intros x Hx. destruct (valid_inner x Hx) as [->|Hi]; [|by apply not_cached_clean, Hnone]. rewrite (dirty_iff s _ ROOT r); [congruence|apply ptr_of_root|done]. }
  assert (Hno : forall x, ~ in_tree (nb s) x) by (rewrite Enb; intros [d|n]; unfold in_tree; layout; lia).
  split; try done.
  - split; try done.
    + by exists r.
    + split; rewrite El; [constructor|]. intros k. rewrite Em, lookup_empty. split; [by intros ?%elem_of_nil|by intros [? ?]].
    + intros k q. by rewrite Em, lookup_empty.
    + intros [d|n]; apply zeros_sized.
  - by apply clean_live.
  - intros x Hx. rewrite Hnone by done. by intros [? ?].
  - intros x Hx Hdx. by destruct (Hcl x Hx).
  - intros x Hx Hdx. by destruct (Hcl x (inner_valid _ Hx)).
  - intros x Hx Htx. by destruct (Hno x).
  - intros _ Htx. by destruct (Hno (Mht 0)).
  - congruence.
Qed.

Lemma named_length p e : named p e -> sized PATH_MAX_SIZE (path e) -> Z.of_nat (length p) < PATH_MAX_SIZE.
Proof. intros [_ [rest E]] Hs. unfold sized in Hs. rewrite E, length_app in Hs. simpl in Hs. lia. Qed.

(** A path is written into an array of zeros. *)
Lemma named_splice p x : 0 ∉ p -> Z.of_nat (length p) < PATH_MAX_SIZE -> x = p \/ x = p ++ [0] ->
  sized PATH_MAX_SIZE (splice 0 x (zeros PATH_MAX_SIZE)) /\ exists rest, splice 0 x (zeros PATH_MAX_SIZE) = p ++ 0 :: rest.
Proof.
  intros Hp Hlt Hx. split.
  - eapply (splice_sized _ _ _ _ (Z.of_nat (length x))); [apply zeros_sized|unfold sized; lia|lia|lia|]. destruct Hx as [->| ->]; rewrite ?length_app; simpl; lia.
  - unfold splice. simpl. unfold zeros. rewrite drop_replicate. destruct Hx as [->| ->].
    + destruct (Z.to_nat PATH_MAX_SIZE - length p)%nat eqn:E; [lia|]. simpl. eauto.
    + rewrite <- app_assoc. simpl. eauto.
Qed.

Lemma clear_file_spec T D p s (Q : unit -> pf_context H -> Prop) :
  core intact T D s -> usable p s -> sized PATH_MAX_SIZE (path (encrypted_part_plain s)) ->
  (forall s', holds p [] s s' -> Q () s') -> pwp clear_file Q s.
Proof.
  intros Hc [Hp Hst] Hs HQ. pose proof (named_length _ _ Hp Hs) as Hlt. destruct Hp as [Hz [rest Ep]]. unfold clear_file. apply pwp_bind, pwp_gets, pwp_bind. rewrite Ep.
  unfold PfInv.pwp at 1, lift_opt. rewrite strlen_named by done.
  assert (slice 0 (Z.of_nat (length p)) (p ++ 0 :: rest) = p) as -> by (unfold slice; rewrite Nat2Z.id; by rewrite drop_0, take_app_length).
  apply pwp_bind, pwp_modify, pwp_bind, pwp_modify, pwp_bind. destruct (co_root _ _ _ _ Hc) as (r & Hr & _). eapply pwp_update; [done|]. apply pwp_bind, pwp_modify.
  destruct (core_cached _ _ _ Hc) as [Hl Hh Hi]. apply free_all_spec.
  - split; simpl; try done. intros k q Hk. destruct (Hh _ _ Hk). split; [done|]. by rewrite lookup_insert_ne.
  - intros s' [El Em Er Hhp Es]. simpl in Er. rewrite lookup_insert_eq in Er. destruct (named_splice p p Hz Hlt ltac:(by left)) as [Hsp Hna].
    apply HQ. split; [|by rewrite Es]. eexists _, (fun _ => zeros PF_NODE_SIZE). split_and!.
    + apply (inv_empty _ _ El Em Er); try done; try (by rewrite Es).
      * intros q Hq. specialize (Hhp q Hq). simpl in Hhp. rewrite Es. simpl. apply (co_next _ _ _ _ Hc q). destruct (decide (q = ROOT)) as [->|]; [eauto|by rewrite lookup_insert_ne in Hhp].
    + intros _. rewrite El. done.
    + by rewrite Es.
    + rewrite Es. split; [|done]. by split.
Qed.

(** ** The operations on a file in order *)

(** The key that the file has been opened with. *)
Context (kdk : bytes).

(** The context is in the state that the abstract file says. *)
Definition sim_in (ok : bool) (x : option open_file) s : Prop :=
  match x with
  | Some a => PfFile.rep strict ok disk (of_path a) (of_bytes a) s /\ mode s = of_mode a /\ user_kdk_key s = kdk
  | None => strict = false /\ ok = false /\ bad s
  end.
Abbreviation sim := (sim_in intact).

(** The outcome of an operation on [a]: after a failure, which the result shows, the tree may
    have lost parents. *)
Definition post (o : op) (a : open_file) (r : result) s' : Prop :=
  exists x, outcome strict o (Some a) r x /\ (sim x s' \/ r <> fst (spec o a) /\ sim_in false x s').

Lemma post_done o a r a' s' : spec o a = (r, a') -> sim (Some a') s' -> post o a r s'.
Proof. intros E Hs. exists (Some a'). split; [by constructor|by left]. Qed.

Lemma post_failed o a a' r s' :
  strict = false -> failure o a r -> r <> fst (spec o a) -> partly o a a' -> sim_in false (Some a') s' -> post o a r s'.
Proof. intros. exists (Some a'). split; [by constructor|by right]. Qed.

Lemma post_broken o a r s' : strict = false -> failure o a r -> r <> fst (spec o a) -> bad s' -> post o a r s'.
Proof. intros. exists None. split; [by constructor|by right]. Qed.

Definition opened (a : open_file) s : Prop := mode s = of_mode a /\ user_kdk_key s = kdk.

Lemma sim_holds ok a b s s' : opened a s -> PfFile.holds strict ok disk (of_path a) b s s' -> sim_in ok (Some (with_bytes b a)) s'.
Proof. intros [Hm Hk] [Hr [Em Ek]]. split_and!; [done|simpl; congruence..]. Qed.

Lemma sim_same a s s' : opened a s -> holds (of_path a) (of_bytes a) s s' -> sim (Some a) s'.
Proof. intros [Hm Hk] [Hr [Em Ek]]. split_and!; [done|congruence..]. Qed.

Lemma opened_same a s s' : opened a s -> same_open s s' -> opened a s'.
Proof. intros [Hm Hk] [Em Ek]. split; congruence. Qed.

Lemma post_stuck o a b r s s' : opened a s -> stuck (of_path a) b s s' -> (erred s' -> failure o a r) -> r <> fst (spec o a) -> partly o a (with_bytes b a) -> post o a r s'.
Proof.
  intros Hm (Es & He & [Hb|Hh]) Hf Hne Hp; specialize (Hf He); [by apply post_broken|]. by eapply post_failed; [..|eapply sim_holds].
Qed.

Lemma with_same a : with_bytes (of_bytes a) a = a.
Proof. by destruct a. Qed.

(** What succeeds on a file that can be written. *)
Lemma spec_success o a : has (of_mode a) PF_FILE_MODE_WRITE = true ->
  match o with
  | OpWrite _ _ _ => True
  | OpSetSize size => of_size a <= size \/ size = 0
  | OpRename new_path => Z.of_nat (length new_path) < PATH_MAX_SIZE
  | OpRead _ _ _ | OpGetSize | OpFlush => False
  end -> fst (spec o a) = Status PF_STATUS_SUCCESS.
Proof.
  intros Hm. destruct o; simpl; unfold spec_set_size; rewrite ?Hm; try done.
  - destruct (Z.leb_spec (of_size a) size); [done|]. intros [?|E]; [lia|by subst].
  - intros. by rewrite (proj2 (Z.ltb_ge _ _)) by lia.
Qed.

(** A read of an open file inside its contents. *)
Lemma read_whole offset size a : size <> 0 -> offset < of_size a -> has (of_mode a) PF_FILE_MODE_READ = true ->
  spec_read offset size true a = let n := Z.min size (of_size a - offset) in Bytes PF_STATUS_SUCCESS (Some n) (slice offset n (of_bytes a)).
Proof. intros Hs Ho Hm. unfold spec_read. by rewrite (proj2 (Z.eqb_neq _ _) Hs), (proj2 (Z.leb_gt _ _) Ho), Hm. Qed.

Lemma failed_status_ne st : PF_FAILURE st = true -> Status st <> Status PF_STATUS_SUCCESS.
Proof. by intros Hf [= ->]. Qed.

Lemma pf_read_ok offset size output a s :
  sim (Some a) s -> op_ok MAX_SIZE (OpRead offset size output) -> pwp (run (OpRead offset size output)) (post (OpRead offset size output) a) s.
Proof using OK.
  intros [Hr Hop] [Ho Hs]. pose proof (proj1 Hop) as Hm. set (o := OpRead offset size output). pose proof (rep_status _ _ _ _ _ _ Hr) as Hst. destruct (rep_size _ _ _ _ _ _ Hr) as [Hsz Hmax].
  assert (Hdone : forall st n b s', spec_read offset size output a = Bytes st n b -> sim (Some a) s' -> post o a (Bytes st n b) s') by (intros st n b s' E Hs'; apply (post_done o a _ a); [simpl; by rewrite E|done]).
  assert (Hfail : forall st, sim (Some a) (set_last_error st s)) by (intros; split; [by apply rep_error|done]).
  unfold run, o, pf_read, spec_read in *. rewrite ok_initialized. cbn [negb]. apply pwp_bind. destruct (size =? 0) eqn:E0; breflect; [apply pwp_ret, pwp_ret; by apply Hdone|]. cbn [orb] in Hdone.
  apply pwp_bind, pwp_gets, pwp_bind, pwp_gets. rewrite Hst, <- Hsz. cbn [PF_FAILURE]. fold (of_size a) in *. simpl. destruct (Z.leb_spec (of_size a) offset) as [Hge|Hlt]; [apply pwp_ret, pwp_ret; by apply Hdone|].
  apply pwp_bind. destruct output; cbn [negb] in *.
  2: { unfold ipf_read. cbn [negb]. apply pwp_bind, pwp_modify, pwp_ret. simpl. apply pwp_bind, pwp_gets, pwp_ret, pwp_ret. apply Hdone; auto. }
  rewrite <- Hm in Hdone. destruct (has (mode s) PF_FILE_MODE_READ) eqn:Eh; cbn [negb] in *.
  2: { unfold ipf_read. cbn [negb]. apply pwp_bind, pwp_gets, pwp_bind, pwp_gets. rewrite Hst, Eh. simpl. apply pwp_bind, pwp_modify, pwp_ret, pwp_bind, pwp_gets, pwp_ret, pwp_ret. apply Hdone; auto. }
  apply (ipf_read_spec strict intact disk (of_path a) (of_bytes a)); unfold of_size in *; try done; try lia.
  - intros s' Hh. rewrite (proj2 (Z.eqb_neq _ _)) by lia. apply pwp_ret, pwp_ret. apply Hdone; [done|by eapply sim_same].
  - intros k s' Hk Hst'.
    assert (Hp : post o a (if k =? 0 then Bytes (last_error s') None [] else Bytes PF_STATUS_SUCCESS (Some k) (slice offset k (of_bytes a))) s').
    { eapply post_stuck; try done; [| |by rewrite with_same].
      - intros He. exists k, (last_error s'). unfold of_size. split_and!; try lia; done.
      - simpl. rewrite read_whole by (done || congruence || unfold of_size; lia). unfold of_size. destruct (Z.eqb_spec k 0); [done|]. intros [=]. lia. }
    destruct (k =? 0) eqn:Ek; breflect; [subst k; apply pwp_bind, pwp_gets, pwp_ret, pwp_ret; apply Hp|apply pwp_ret, pwp_ret, Hp].
Qed.

Lemma splice_end (f x : bytes) : splice (Z.of_nat (length f)) x f = f ++ x.
Proof. unfold splice. by rewrite Nat2Z.id, take_ge, drop_ge, app_nil_r by lia. Qed.

Lemma pf_set_size_larger p f size s (Q : Z -> pf_context H -> Prop) :
  rep p f s -> has (mode s) PF_FILE_MODE_WRITE = true -> Z.of_nat (length f) <= size <= MAX_SIZE ->
  (forall s', holds p (padded size f) s s' -> Q PF_STATUS_SUCCESS s') ->
  (forall k s' st, 0 <= k -> Z.of_nat (length f) + k < size -> stuck p (f ++ zeros k) s s' -> PF_FAILURE st = true -> Q st s') ->
  pwp (pf_set_size size) Q s.
Proof using OK.
  intros Hr Hw Hle HQ HF. destruct (rep_size _ _ _ _ _ _ Hr) as [Hsz Hmax]. unfold pf_set_size. rewrite ok_initialized. cbn [negb].
  apply pwp_bind, pwp_gets, pwp_bind, pwp_gets. rewrite Hw, <- Hsz. cbn [negb]. destruct (size =? _) eqn:E; breflect.
  { apply pwp_ret, HQ. unfold padded. rewrite E, Z.sub_diag. change (zeros 0) with (@nil Z). rewrite app_nil_r. by split. }
  rewrite (proj2 (Z.ltb_lt _ _)) by lia. apply pwp_bind. apply (ipf_write_spec strict intact disk p f); try done; try lia.
  - intros s' Hh. rewrite Z.eqb_refl. apply pwp_ret, HQ. rewrite splice_end in Hh. done.
  - intros k s' Hk Hs'. rewrite (proj2 (Z.eqb_neq _ _)) by lia. apply pwp_gets. rewrite splice_end in Hs'. apply (HF k); try lia; [done|]. apply Hs'.
Qed.

Lemma pf_set_size_ok size a s : sim (Some a) s -> op_ok MAX_SIZE (OpSetSize size) -> pwp (run (OpSetSize size)) (post (OpSetSize size) a) s.
Proof using OK.
  intros [Hr Hop] Ho. pose proof (proj1 Hop) as Hm. simpl in Ho. set (o := OpSetSize size). destruct (rep_size _ _ _ _ _ _ Hr) as [Hsz Hmax].
  assert (Hdone : forall r a' s', spec_set_size size a = (r, a') -> sim (Some a') s' -> post o a r s') by (intros; by eapply post_done).
  unfold run, o, spec_set_size, of_size in *. rewrite <- Hm in Hdone. apply pwp_bind. destruct (has (mode s) PF_FILE_MODE_WRITE) eqn:Eh; cbn [negb] in Hdone.
  2: { unfold pf_set_size. rewrite ok_initialized. cbn [negb]. apply pwp_bind, pwp_gets, pwp_bind, pwp_gets. rewrite Eh. cbn [negb]. apply pwp_ret, pwp_ret. by eapply Hdone. }
  destruct (Z.leb_spec (Z.of_nat (length (of_bytes a))) size) as [Hle|Hlt].
  - apply (pf_set_size_larger (of_path a) (of_bytes a)); try done; try lia.
    + intros s' Hh. apply pwp_ret. eapply Hdone; [done|]. by eapply sim_holds.
    + intros k s' st Hk Hks Hst Hf. apply pwp_ret. eapply post_stuck; [done|done|intros _; by exists st| |].
      { rewrite spec_success; [by apply failed_status_ne|congruence|by left]. }
      exists k. unfold of_size. split_and!; [done|by left|done].
  - unfold pf_set_size. rewrite ok_initialized. cbn [negb]. apply pwp_bind, pwp_gets, pwp_bind, pwp_gets. rewrite Eh, <- Hsz. cbn [negb].
    rewrite (proj2 (Z.eqb_neq _ _)), (proj2 (Z.ltb_ge _ _)) by lia. destruct (size =? 0) eqn:E0; breflect; [|apply pwp_ret, pwp_ret; by eapply Hdone].
    subst size. apply pwp_bind. unfold PfInv.pwp at 1, truncate. destruct (g_cb_truncate (host s) 0) as [st h] eqn:Et.
    destruct Hr as (T & D & Hi & Hord & Ef & Hp). pose proof (in_core _ _ _ _ _ _ _ Hi) as Hc. destruct (PF_FAILURE st) eqn:Ef'.
    + assert (Es : strict = false). { apply not_true_is_false. intros Es. destruct (strict_truncate (host s) 0 Es) as (h' & E'). rewrite Et in E'. simplify_eq. }
      apply pwp_ret, pwp_ret. apply (post_failed _ _ a); [done|by eexists| | |split; [|done]].
      { rewrite spec_success; [by apply failed_status_ne|congruence|by right]. }
      { exists 0. split_and!; [done|by right|]. change (zeros 0) with (@nil Z). by rewrite app_nil_r, with_same. }
      eapply rep_weaken. exists T, D. split_and!; try done. eapply inv_transfer; [done|split; try done; intros Es'; congruence|by eapply core_ext|apply Hi|done|]. intros x Hx. by apply Hi.
    + apply pwp_bind. apply (clear_file_spec T D (of_path a)); [by eapply core_ext|done|apply (mo_plain _ (in_meta _ _ _ _ _ _ _ Hi))|].
      intros s' Hh. apply pwp_ret, pwp_ret. eapply Hdone; [done|]. by eapply sim_holds; [|done].
Qed.

(** ** Writing *)

Lemma padded_length n f : Z.of_nat (length (padded n f)) = Z.max n (Z.of_nat (length f)).
Proof. unfold padded. rewrite length_app, zeros_sized. lia. Qed.

Lemma padded_id n f : n <= Z.of_nat (length f) -> padded n f = f.
Proof. intros. unfold padded. assert (Z.to_nat (n - Z.of_nat (length f)) = 0%nat) as E by lia. unfold zeros. rewrite E. apply app_nil_r. Qed.

Lemma take_chunk k n src : 0 <= k <= n -> take (Z.to_nat k) (chunk src n) = chunk src k.
Proof. intros. destruct src; simpl; [|unfold zeros; rewrite take_replicate]; rewrite ?take_take; f_equal; lia. Qed.

(** A part of a write is a write of a part. *)
Lemma written_part a offset size src k :
  0 <= offset -> 0 <= k <= size -> (forall x, src = Some x -> size <= Z.of_nat (length x)) ->
  written_at offset (take (Z.to_nat (Z.max 0 (offset - of_size a) + k)) (to_write offset size src a)) a =
  with_bytes (splice offset (chunk src k) (padded offset (of_bytes a))) a.
Proof.
  intros Ho Hk Hsrc. unfold written_at, to_write. f_equal. set (z := Z.max 0 (offset - of_size a)). assert (zeros (offset - of_size a) = zeros z) as -> by (unfold zeros; f_equal; lia).
  rewrite Z2Nat.inj_add, take_app_add' by (rewrite ?zeros_sized; lia). rewrite take_chunk by done.
  destruct (Z.leb_spec offset (of_size a)) as [Hle|Hgt].
  - rewrite Z.min_l, padded_id by (done || unfold of_size in *; lia). assert (z = 0) as -> by lia. done.
  - rewrite Z.min_r by lia. unfold of_size in *. rewrite splice_end. unfold padded. assert (z = offset - Z.of_nat (length (of_bytes a))) as -> by lia.
    rewrite <- (splice_end (of_bytes a)), <- (splice_end (of_bytes a) (zeros _)). rewrite <- splice_app by lia. f_equal. rewrite zeros_sized. lia.
Qed.

Lemma to_write_length offset size src a : 0 <= size -> (forall x, src = Some x -> size <= Z.of_nat (length x)) ->
  Z.of_nat (length (to_write offset size src a)) = Z.max 0 (offset - of_size a) + size.
Proof. intros Hs Hsrc. unfold to_write. rewrite length_app, zeros_sized, Nat2Z.inj_add, chunk_length by done. lia. Qed.

Lemma written_all a offset size src :
  0 <= offset -> 0 <= size -> (forall x, src = Some x -> size <= Z.of_nat (length x)) ->
  written_at offset (to_write offset size src a) a = with_bytes (splice offset (chunk src size) (padded offset (of_bytes a))) a.
Proof.
  intros Ho Hs Hsrc. rewrite <- (written_part a offset size src size) by (done || lia). by rewrite take_ge by (pose proof (to_write_length offset size src a Hs Hsrc); lia).
Qed.

Lemma ipf_write_bad src offset size s : bad s -> pwp (ipf_write src offset size) (fun _ s' => bad s') s.
Proof.
  intros Hb. unfold ipf_write. destruct (size =? 0); [by apply pwp_bind, pwp_modify, pwp_ret|]. apply pwp_bind. unfold ipf_check_writable.
  apply pwp_bind, pwp_gets, pwp_bind, pwp_gets. rewrite Hb. by apply pwp_bind, pwp_modify, pwp_ret, pwp_ret.
Qed.

(** The second part of [pf_write], once the file reaches the offset. *)
Lemma pf_write_rest a offset size src s0 s :
  op_ok MAX_SIZE (OpWrite offset size src) -> opened a s0 -> has (mode s0) PF_FILE_MODE_WRITE = true -> holds (of_path a) (padded offset (of_bytes a)) s0 s ->
  pwp (n ← ipf_write src offset size; if n =? size then mret PF_STATUS_SUCCESS else sm_gets last_error)
    (fun st s' => post (OpWrite offset size src) a (Status st) s') s.
Proof using OK.
  intros (Ho & Hs & Hmax & Hsrc) Hop Hw [Hr Hsame]. pose proof (proj1 Hop) as Hm. pose proof (opened_same _ _ _ Hop Hsame) as Hop'. set (o := OpWrite offset size src). pose proof (padded_length offset (of_bytes a)) as Hpl. destruct Hsame as [Em Ek].
  assert (Hdone : forall s', holds (of_path a) (splice offset (chunk src size) (padded offset (of_bytes a))) s s' -> post o a (Status PF_STATUS_SUCCESS) s').
  { intros s' Hh. eapply post_done; [simpl; rewrite <- Hm, Hw; cbn [negb]; by rewrite written_all|]. by eapply sim_holds. }
  apply pwp_bind. destruct (size =? 0) eqn:E0; breflect.
  - subst size. unfold ipf_write. rewrite Z.eqb_refl. apply pwp_bind, pwp_modify, pwp_ret. rewrite Z.eqb_refl. apply pwp_ret, Hdone.
    assert (chunk src 0 = []) as -> by by destruct src. rewrite splice_nil by lia. split; [by apply rep_error|done].
  - apply (ipf_write_spec strict intact disk (of_path a) (padded offset (of_bytes a))); try done; try lia; [congruence|..].
    + intros s' Hh. rewrite Z.eqb_refl. apply pwp_ret. auto.
    + intros k s' Hk Hst. rewrite (proj2 (Z.eqb_neq _ _)) by lia. apply pwp_gets. eapply post_stuck; [exact Hop'|done|intros He; by eexists|rewrite spec_success; [apply failed_status_ne, Hst|congruence|done]|].
      exists (Z.max 0 (offset - of_size a) + k). rewrite to_write_length by done. split; [lia|]. by rewrite written_part by (done || lia).
Qed.

Lemma pf_write_ok offset size src a s :
  sim (Some a) s -> op_ok MAX_SIZE (OpWrite offset size src) -> pwp (run (OpWrite offset size src)) (post (OpWrite offset size src) a) s.
Proof using OK.
  intros [Hr Hop] Hok. pose proof (proj1 Hop) as Hm. pose proof Hok as (Ho & Hs & Hmax & Hsrc). set (o := OpWrite offset size src). destruct (rep_size _ _ _ _ _ _ Hr) as [Hsz _].
  unfold run, o, pf_write. rewrite ok_initialized. cbn [negb]. do 2 apply pwp_bind. apply (ipf_check_writable_spec strict intact disk (of_path a) (of_bytes a)); [done| |].
  2: { intros Hw. cbn [negb]. apply pwp_gets, pwp_ret. eapply (post_done _ _ _ a); [simpl; by rewrite <- Hm, Hw|]. split; [by apply rep_error|done]. }
  intros Hw. cbn [negb]. apply pwp_bind, pwp_gets. rewrite <- Hsz.
  assert (Hrest : forall s', holds (of_path a) (padded offset (of_bytes a)) s s' ->
    pwp (n ← ipf_write src offset size; if n =? size then mret PF_STATUS_SUCCESS else sm_gets last_error) (fun st s1 => pwp (mret (Status st)) (post o a) s1) s').
  { intros s' Hh. eapply pwp_mono; [by eapply pf_write_rest|]. auto. }
  apply pwp_bind. destruct (Z.ltb_spec (Z.of_nat (length (of_bytes a))) offset) as [Hlt|Hge].
  - apply (pf_set_size_larger (of_path a) (of_bytes a)); try done; try lia.
    intros k s' st Hk Hks Hst Hf.
    assert (Hfin : forall s1, stuck (of_path a) (of_bytes a ++ zeros k) s s1 -> post o a (Status st) s1).
    { intros s1 Hs1. eapply post_stuck; [done|done|intros _; by exists st|rewrite spec_success; [by apply failed_status_ne|congruence|done]|]. exists k. rewrite to_write_length by done. unfold of_size. split; [lia|].
      unfold written_at, to_write, of_size. rewrite Z.min_r, splice_end by lia. f_equal. f_equal. rewrite take_app_le by (rewrite zeros_sized; lia).
      unfold zeros. rewrite take_replicate. f_equal. lia. }
    rewrite Hf. apply pwp_bind, pwp_modify, pwp_ret, pwp_ret, Hfin. destruct Hst as (Es & _ & [Hb|[Hr' Hso]]); (split_and!; [done..|]); [by left|right].
    split; [by apply rep_error|done].
  - apply pwp_ret. cbn [PF_FAILURE]. apply Hrest. rewrite padded_id by lia. by split.
Qed.

(** ** Flushing *)

Lemma rep_flushed p f T D s s' :
  flushed strict intact disk 0 T D s s' -> in_order s -> f = contents (encrypted_part_plain s) D -> usable p s -> holds p f s s'.
Proof.
  intros [Hi Hk Hc _ _] Ho Ef Hp. apply (rep_same strict intact disk T D); try done.
  - intros Es. rewrite (proj1 (ke_lru _ _ Hk)). by apply Ho.
  - split; [done|]. destruct (ke_fields _ _ Hk) as (? & ? & ?). done.
Qed.

(** A change of the host that keeps the file. *)
Lemma rep_host p f h s : same_disk strict disk (host s) h -> rep p f s -> rep p f (set_host h s).
Proof.
  intros Hh (T & D & Hi & Ho & Ef & Hp). exists T, D. split_and!; try done. eapply inv_transfer; [done|by split|by eapply core_ext; [apply Hi|..]|apply Hi|done|]. intros x Hx. by apply Hi.
Qed.

Lemma pf_get_size_ok a s : sim (Some a) s -> pwp (run OpGetSize) (post OpGetSize a) s.
Proof using OK.
  intros [Hr Hop]. pose proof (proj1 Hop) as Hm. destruct (rep_size _ _ _ _ _ _ Hr) as [Hsz _]. unfold run, pf_get_size. rewrite ok_initialized. cbn [negb]. apply pwp_bind, pwp_bind, pwp_gets, pwp_ret, pwp_ret.
  rewrite <- Hsz. by apply (post_done _ _ _ a).
Qed.

Lemma pf_rename_ok new_path a s : sim (Some a) s -> op_ok MAX_SIZE (OpRename new_path) -> pwp (run (OpRename new_path)) (post (OpRename new_path) a) s.
Proof using OK.
  intros [Hr Hop] Hok. pose proof (proj1 Hop) as Hm. simpl in Hok. unfold run, pf_rename. rewrite ok_initialized. cbn [negb]. do 2 apply pwp_bind. apply pwp_gets. rewrite Hm.
  destruct (negb _) eqn:Ew; [apply pwp_ret, pwp_ret, (post_done _ _ _ a); [simpl; by rewrite Ew|by split]|].
  destruct (PATH_MAX_SIZE <? _) eqn:El; [apply pwp_ret, pwp_ret, (post_done _ _ _ a); [simpl; by rewrite Ew, El|by split]|]. breflect.
  apply pwp_bind, pwp_modify, pwp_bind, pwp_modify, pwp_bind. destruct Hr as (T & D & Hi & Hord & Ef & Hp & Hst).
  destruct (named_splice new_path (new_path ++ [0]) Hok ltac:(lia) ltac:(by right)) as [Hsp Hna]. pose proof (in_meta _ _ _ _ _ _ _ Hi) as [Hme Hmn ? ? ?].
  assert (Hi' : inv 0 T D (set_need_writing true (set_encrypted_part_plain (set_path (splice 0 (new_path ++ [0]) (zeros PATH_MAX_SIZE)) (encrypted_part_plain s)) s))).
  { apply inv_metadata; try done. destruct Hme. by split. }
  apply pwp_any. apply (ipf_internal_flush_spec strict intact disk 0 T D); [exact Hi'| |].
  - intros T' s' Hfl. apply pwp_ret, pwp_ret. eapply post_done; [simpl; rewrite Ew, (proj2 (Z.ltb_ge _ _)) by lia; done|].
    destruct (rep_flushed new_path (of_bytes a) _ _ _ _ Hfl) as [Hr' [Em' Ek']]; try done. split_and!; [done|by rewrite Em'|rewrite Ek'; apply Hop].
  - intros Es s' He Hb. apply pwp_gets, pwp_ret. apply post_broken; [done|by exists (last_error s')| |done].
    rewrite spec_success; [by apply failed_status_ne|by destruct (has _ _)|lia].
Qed.

Lemma pf_flush_ok a s : sim (Some a) s -> pwp (run OpFlush) (post OpFlush a) s.
Proof using OK.
  intros [Hr Hop]. pose proof (proj1 Hop) as Hm. destruct Hr as (T & D & Hi & Hord & Ef & Hp). unfold run, pf_flush. rewrite ok_initialized. cbn [negb]. do 2 apply pwp_bind.
  apply pwp_any. apply (ipf_internal_flush_spec strict intact disk 0 T D); [exact Hi| |].
  - intros T' s' Hfl. cbn [negb]. destruct (rep_flushed _ _ _ _ _ _ Hfl Hord Ef Hp) as [Hr' [Em Ek]]. apply pwp_bind. unfold PfInv.pwp at 1, fsync. destruct (g_cb_fsync (host s')) as [st h] eqn:Ey.
    assert (Hy : same_disk strict disk (host s') h /\ (PF_FAILURE st = true -> strict = false)).
    { split; [intros Es|intros Hf; apply not_true_is_false; intros Es]; destruct (strict_fsync (host s') Es) as (h' & E' & Hd); rewrite Ey in E'; by simplify_eq. }
    destruct Hy as [Hy Hns]. assert (Hs' : sim (Some a) (set_host h s')) by (split_and!; [by apply rep_host|simpl; congruence|simpl; rewrite Ek; apply Hop]). destruct (PF_FAILURE st) eqn:Ef'.
    + apply pwp_bind, pwp_modify, pwp_ret, pwp_ret. apply (post_failed _ _ a); [auto|by eexists|by apply failed_status_ne|done|]. destruct Hs'. split; [by eapply rep_weaken, rep_error|done].
    + apply pwp_ret, pwp_ret, (post_done _ _ _ a); done.
  - intros Es s' He Hb. cbn [negb]. apply pwp_gets, pwp_ret. apply post_broken; [done|by exists (last_error s')|by apply failed_status_ne|done].
Qed.

(** ** A file that is unusable *)

Lemma bad_clear : stays bad (H := H) clear_file.
Proof. unfold clear_file. bad_steps. Qed.

Lemma bad_pf_set_size size s : intact = false -> bad s -> pwp (pf_set_size size) (fun _ s' => bad s') s.
Proof.
  intros Es Hb. unfold pf_set_size. destruct (negb g_initialized); [done|]. apply pwp_bind, pwp_gets, pwp_bind, pwp_gets. destruct (negb _); [done|]. destruct (size =? _); [done|].
  destruct (_ <? size).
  - apply pwp_bind. eapply pwp_mono; [by apply ipf_write_bad|]. intros n s' Hb'. by destruct (n =? _).
  - destruct (size =? 0); [|done]. rewrite Es. pose proof bad_clear as Hc. revert s Hb. change (stays bad (H := H) (status ← truncate 0; if PF_FAILURE status then mret status else clear_file;; mret PF_STATUS_SUCCESS)).
    bad_steps.
Qed.

Lemma run_unusable o s : intact = false -> bad s -> pwp (run o) (fun r s' => unusable o r /\ bad s') s.
Proof using OK.
  intros Es Hb. destruct o as [offset size output|offset size input|size| |new_path|]; unfold run, unusable; apply pwp_bind.
  - unfold pf_read. rewrite ok_initialized. cbn [negb]. destruct (size =? 0); [by apply pwp_ret, pwp_ret|]. apply pwp_bind, pwp_gets, pwp_bind, pwp_gets.
    rewrite Hb. apply pwp_bind, pwp_modify, pwp_ret, pwp_ret. eauto.
  - unfold pf_write. rewrite ok_initialized. cbn [negb]. apply pwp_bind. unfold ipf_check_writable. apply pwp_bind, pwp_gets, pwp_bind, pwp_gets. rewrite Hb.
    apply pwp_bind, pwp_modify, pwp_ret. cbn [negb]. apply pwp_gets, pwp_ret. eauto.
  - eapply pwp_mono; [by apply bad_pf_set_size|]. intros st s' Hb'. apply pwp_ret. eauto.
  - unfold pf_get_size. rewrite ok_initialized. cbn [negb]. apply pwp_bind, pwp_gets, pwp_ret, pwp_ret. eauto.
  - eapply pwp_mono with (P := fun _ s' => bad s'); [|intros st s' Hb'; apply pwp_ret; eauto]. rewrite Es. revert s Hb. change (stays bad (H := H) (pf_rename new_path)). unfold pf_rename. bad_steps.
  - eapply pwp_mono with (P := fun _ s' => bad s'); [|intros st s' Hb'; apply pwp_ret; eauto]. rewrite Es. revert s Hb. change (stays bad (H := H) pf_flush). unfold pf_flush. bad_steps.
Qed.

(** ** Any file *)

(** An operation does what it promises and leaves the tree intact, or its result shows a failure. *)
Lemma run_ok o x s : sim x s -> op_ok MAX_SIZE o ->
  pwp (run o) (fun r s' => exists x', outcome strict o x r x' /\ (sim x' s' \/ (forall a, x = Some a -> r <> fst (spec o a)) /\ sim_in false x' s')) s.
Proof using OK.
  intros Hs Ho. destruct x as [a|].
  - eapply pwp_mono with (P := post o a); [destruct o; [by apply pf_read_ok|by apply pf_write_ok|by apply pf_set_size_ok|by apply pf_get_size_ok|by apply pf_rename_ok|by apply pf_flush_ok]|].
    intros r s' (x & Hx & [Hs'|[Hne Hs']]); exists x; (split; [done|]); [by left|right]. split; [|done]. by intros ? [= <-].
  - destruct Hs as (Es & Ei & Hb). eapply pwp_mono; [by apply run_unusable|]. intros r s' [Hr Hb']. exists None. split; [by constructor|by left].
Qed.
End api.

(** ** Sequences of operations *)

Section sequences.
Context {H : Type} `{CB : !pf_callbacks H} (strict : bool) (disk : H -> Z -> option bytes) `{OK : !callbacks_ok strict disk} (kdk : bytes).
Implicit Types (s : pf_context H) (x : option open_file).
Abbreviation sim := (sim_in strict disk kdk).

(** Whatever is returned has an explanation, and nothing aborts before a failure has shown. *)
Lemma results_ok ops : forall ok x s, sim ok x s -> Forall (op_ok MAX_SIZE) ops ->
  let rs := results ops s in
  let ran := take (length rs) ops in
  (exists x', outcomes strict ran x rs x') /\
  (ok = true -> forall a, x = Some a -> (length rs < length ops)%nat -> rs <> fst (specs ran a)).
Proof using OK.
  induction ops as [|o ops IH]; intros ok x s Hs Ho; cbn [results]; [simpl; split; [by exists x; constructor|lia]|]. apply Forall_cons in Ho as [Ho Hos].
  pose proof (run_ok strict ok disk kdk o x s Hs Ho) as Hr. unfold pwp in Hr. destruct (run o s) as [[r s1]|].
  2: { simpl. split; [by exists x; constructor|congruence]. }
  destruct Hr as (x1 & Hx1 & Hs1). cbn [length take].
  assert (Hnext : exists ok1, sim ok1 x1 s1 /\ (ok1 = ok \/ forall a, x = Some a -> r <> fst (spec o a))) by (destruct Hs1 as [?|[? ?]]; eauto).
  destruct Hnext as (ok1 & Hs2 & Hor). destruct (IH ok1 x1 s1 Hs2 Hos) as [[x' Hx'] Hlt]. split; [exists x'; by econstructor|].
  intros -> a -> Hl. cbn [specs]. destruct (spec o a) as [r0 a1] eqn:Esp. destruct (specs _ a1) as [rs0 a2] eqn:Ess. simpl. intros [= -> Ers].
  destruct Hor as [->|Hne]; [|apply (Hne a eq_refl); by rewrite Esp].
  inversion Hx1 as [? ? a' E| ? ? ? ? ? Hn| ? ? ? ? Hn|]; subst; [|by rewrite Esp in Hn..]. rewrite Esp in E. injection E as <-.
  apply (Hlt eq_refl a1 eq_refl); [simpl in Hl; lia|]. by rewrite Ess.
Qed.
End sequences.
