(* ===== verification/PfOpen.v ===== *)
(** * Protected files: opening and closing *)

From S2P Require Import Prelude LruCache PfLayout PfFormat PfSort ProtFiles PfInv PfBad PfNodes PfFlush PfCommit PfContents PfMark PfFetch PfSpec PfFile PfApi.

(** ** New files *)

Section create.
Context {H : Type} `{CB : !pf_callbacks H} (strict : bool) (disk : H -> Z -> option bytes) `{OK : !callbacks_ok strict disk}.
Implicit Types (s : pf_context H) (p f : bytes).
Abbreviation pwp := (pwp true).

(** A new file is created, or an error is reported. *)
Lemma create_body p m kdk size h (Q : unit -> pf_context H -> Prop) :
  0 ∉ p -> Z.of_nat (length p) < PATH_MAX_SIZE -> size mod PF_NODE_SIZE = 0 ->
  (forall s, rep strict true disk p [] s -> mode s = m -> user_kdk_key s = kdk -> last_error s = PF_STATUS_SUCCESS -> Q () s) ->
  (strict = false -> forall s, erred s -> Q () s) ->
  pwp (ipf_open_body (Some p) m true true size (Some kdk)) Q (ipf_init_fields h).
Proof using OK.
  intros Hz Hlt Hsize HQ HF. unfold ipf_open_body. rewrite (proj2 (Z.ltb_ge _ _)) by lia. apply pwp_bind, pwp_modify. cbn [negb]. rewrite (proj2 (Z.eqb_eq _ _) Hsize). cbn [negb].
  apply pwp_bind, pwp_modify, pwp_bind. unfold ipf_init_new_file. apply pwp_bind. unfold PfInv.pwp at 1, lift_opt. do 3 apply pwp_bind, pwp_modify.
  destruct (named_splice p (p ++ [0]) Hz Hlt ltac:(by right)) as [Hsp Hna]. match goal with |- PfInv.pwp _ _ _ ?s' => set (s1 := s') end.
  assert (Hi : inv strict true disk 0 (fun _ => zeros PF_NODE_SIZE) (fun _ => zeros PF_NODE_SIZE) s1).
  { apply (inv_empty strict true disk s1 ipf_init_root_mht); try done.
    - intros ptr [n Hn]. simpl in Hn. apply lookup_singleton_Some in Hn as [<- _]. done. }
  apply (ipf_internal_flush_spec strict true disk 0 _ _ _ _ Hi).
  - intros T s' [Hi' Hk Hc _ _]. cbn [negb]. apply pwp_bind, pwp_modify, pwp_modify. destruct (ke_fields _ _ Hk) as (Em & _ & Ek). apply HQ; try done.
    exists T, (fun _ => zeros PF_NODE_SIZE). split_and!.
    + by apply inv_error, inv_status.
    + intros _. simpl. rewrite (proj1 (ke_lru _ _ Hk)). done.
    + simpl. by rewrite (contents_same _ _ _ Hc).
    + split; [|done]. simpl. eapply named_same; [apply Hc|]. by split.
  - intros Es s' He _. cbn [negb]. apply pwp_ret. by apply HF.
Qed.
End create.

(** ** Existing files, with an honest host *)

Section reopen.
Context {H : Type} `{CB : !pf_callbacks H} (disk : H -> Z -> option bytes) `{OK : !callbacks_ok true disk}.
Implicit Types (s : pf_context H) (T D : Z -> bytes) (p f : bytes).
Abbreviation pwp := (pwp true).
Abbreviation rep := (rep true true disk).

(** The host has the metadata [e] in the node [m], and the tree of [T] and [D]. *)
Record on_host (h : H) kdk T D e m : Prop := {
  oh_node : metadata_node_ok m;
  oh_id : file_id (plain_part m) = PF_FILE_ID;
  oh_version : major_version (plain_part m) = PF_MAJOR_VERSION;
  oh_plain : metadata_encrypted_ok e;
  oh_size : file_size e <= MAX_SIZE;
  oh_meta : disk h 0 = Some (metadata_node_bytes m);
  oh_key : meta_sealed kdk e m;
  oh_sealed : forall x, inner x -> in_tree (data_nodes (file_size e)) x -> sealed true disk h T D x;
  oh_root : in_tree (data_nodes (file_size e)) (Mht 0) -> root_sealed true disk h e T;
  oh_sized : forall x, sized PF_NODE_SIZE (body T D x);
}.

(** The host has a file with the path [p] and the contents [f], encrypted for the key [kdk]. *)
Definition stored (kdk p f : bytes) (h : H) : Prop :=
  exists T D e m, on_host h kdk T D e m /\ named p e /\ f = contents e D.

Lemma flushed_stored T D p f s s' :
  flushed true true disk 0 T D s s' -> f = contents (encrypted_part_plain s) D -> usable p s -> stored (user_kdk_key s) p f (host s').
Proof.
  intros [Hi Hk Hc Hcl Hnw] Ef [Hp _]. destruct (ke_fields _ _ Hk) as (_ & _ & Ek). destruct (in_synced _ _ _ _ _ _ _ Hi eq_refl Hnw) as [Hms Hd].
  destruct (in_meta _ _ _ _ _ _ _ Hi). exists T, D, (encrypted_part_plain s'), (file_metadata s'). split_and!.
  - split; try done.
    + by rewrite <- Ek.
    + intros x Hx Ht. apply Hi; [done|done|]. by apply Hcl, inner_valid.
    + intros Ht. by apply Hi; [apply Hcl|].
    + apply (in_core _ _ _ _ _ _ _ Hi).
  - eapply named_same; [|done]. apply Hc.
  - by rewrite (contents_same _ _ _ Hc).
Qed.

Lemma destroy_empty c : lruc_list c = [] -> lruc_map c = ∅ -> lruc_destroy c = Some ().
Proof. intros El Em. unfold lruc_destroy. rewrite El. simpl. by rewrite Em, bool_decide_true. Qed.

(** Closing a file in order stores it. *)
Lemma pf_close_stored p f s (Q : Z -> pf_context H -> Prop) :
  rep p f s -> (forall s', stored (user_kdk_key s) p f (host s') -> Q PF_STATUS_SUCCESS s') -> pwp pf_close Q s.
Proof using OK.
  intros (T & D & Hi & Hord & Ef & Hp) HQ. unfold pf_close. rewrite ok_initialized. cbn [negb]. apply pwp_bind. unfold ipf_close. apply pwp_bind, pwp_gets.
  rewrite (proj2 Hp). cbn [PF_FAILURE]. apply pwp_bind. apply (ipf_internal_flush_spec true true disk 0 T D); [done| |done]. intros T' s1 Hfl.
  apply pwp_bind, pwp_modify, pwp_bind. pose proof (in_core _ _ _ _ _ _ _ (fl_inv _ _ _ _ _ _ _ _ Hfl)) as Hc.
  apply free_all_spec; [by eapply (core_cached true T' D), core_ext|]. intros s2 [El Em _ _ Es].
  apply pwp_bind, pwp_modify, pwp_bind, pwp_gets, pwp_bind. unfold PfInv.pwp at 1, lift_opt. simpl. rewrite (destroy_empty _ El Em).
  apply pwp_bind, pwp_modify, pwp_ret, pwp_ret, HQ. simpl. rewrite Es. simpl. by eapply flushed_stored.
Qed.

(** Reading the metadata. *)
Lemma restore_key_spec kdk key s m (Q : bool * bytes -> pf_context H -> Prop) :
  file_metadata s = m -> user_kdk_key s = kdk -> g_cb_aes_cmac kdk (kdf_input (metadata_key_id (plain_part m))) = (PF_STATUS_SUCCESS, key) ->
  Q (true, key) s -> pwp ipf_restore_current_metadata_key Q s.
Proof.
  intros <- <- Ek HQ. unfold ipf_restore_current_metadata_key, ipf_import_metadata_key. apply pwp_bind, pwp_gets, pwp_bind, pwp_ret. cbn [PF_FAILURE]. simpl.
  apply pwp_bind, pwp_gets. rewrite Ek. simpl. by apply pwp_bind, pwp_ret, pwp_ret.
Qed.

Lemma read_root_spec T e s r (Q : bool -> pf_context H -> Prop) :
  heap s !! ROOT = Some r -> encrypted_part_plain s = e -> root_sealed true disk (host s) e T ->
  (forall h c, same_disk true disk (host s) h -> Q true (set_heap (<[ROOT := set_decrypted (T 0) (set_encrypted c r)]> (heap s)) (set_host h s))) ->
  pwp read_root Q s.
Proof using OK.
  intros Hr <- (c & Ec & Hd) HQ. unfold read_root. apply pwp_bind. apply (pwp_read_node true disk); [done|intros _; rewrite Hd by done; eauto| |done].
  intros b h Eb _ Hh Hb. assert (b = c) as -> by (specialize (Hd eq_refl); specialize (Hb eq_refl); congruence).
  apply pwp_bind. eapply pwp_update; [done|]. cbn [negb]. apply pwp_bind, pwp_gets. simpl. rewrite (strict_decrypt _ _ _ _ eq_refl Ec).
  apply pwp_bind. eapply pwp_update; [simpl; apply lookup_insert_eq|]. simpl. apply pwp_ret. rewrite insert_insert_eq. by apply HQ.
Qed.

(** A file that has just been opened: only the root is in memory. *)
Lemma inv_opened h kdk T D e m s r :
  on_host h kdk T D e m -> same_disk true disk h (host s) -> encrypted_part_plain s = e -> file_metadata s = m -> user_kdk_key s = kdk -> need_writing s = false ->
  cache s = lruc_create -> heap s = {[ROOT := r]} -> next_ptr s = 1 -> node_ok T D (Mht 0) r -> node_need_writing r = false -> inv true true disk 0 T D s.
Proof.
  intros [] Hh Ee Em Ek Hnw Ec Ehp En Hr Hw. assert (Enb : nb s = data_nodes (file_size e)) by (unfold nb; by rewrite Ee).
  assert (Hrt : heap s !! ROOT = Some r) by (rewrite Ehp; apply lookup_singleton_eq).
  assert (Hnone : forall x, inner x -> ptr_of s x = None) by (intros x Hx; rewrite ptr_of_inner, Ec by done; apply lookup_empty).
  assert (Hcl : forall x, valid x -> ~ dirty s x).
  { intros x Hx. destruct (valid_inner x Hx) as [->|Hi]; [|by apply not_cached_clean, Hnone]. rewrite (dirty_iff s _ ROOT r); [congruence|apply ptr_of_root|done]. }
  split; rewrite ?Enb, ?Ee, ?Em, ?Ek.
  - split; try done; [by exists r|rewrite Ec; apply lruc_create_ok| |].
    + intros k q. rewrite Ec. simpl. by rewrite lookup_empty.
    + intros q [n Hq]. rewrite Ehp in Hq. apply lookup_singleton_Some in Hq as [<- _]. rewrite En. done.
  - by apply clean_live.
  - intros x Hx. rewrite Hnone by done. by intros [? ?].
  - intros x Hx Hdx. by destruct (Hcl x Hx).
  - intros x Hx Hdx. by destruct (Hcl x (inner_valid _ Hx)).
  - intros Hdx. by destruct (Hcl (Mht 0)).
  - intros x Hx Ht _. eapply sealed_same; [done|auto].
  - intros _ Ht. eapply root_sealed_same; [done|auto].
  - split; rewrite ?Ee, ?Em; done.
  - intros _ _. split; [done|]. by rewrite Hh.
Qed.

Lemma on_host_empty h kdk T D e m : on_host h kdk T D e m -> file_size e <= MD_USER_DATA_SIZE -> on_host h kdk (fun _ => zeros PF_NODE_SIZE) D e m.
Proof.
  intros Ho Hle. assert (Hno : forall x, ~ in_tree (data_nodes (file_size e)) x).
  { assert (data_nodes (file_size e) = 0) as -> by (unfold data_nodes; layout; Z.to_euclidean_division_equations; lia). intros [d|n]; unfold in_tree; layout; lia. }
  destruct Ho as [? ? ? ? ? ? ? ? ? Hs]. split; try done; try (intros; by edestruct Hno). intros [d|n]; [apply (Hs (Data d))|apply zeros_sized].
Qed.

Lemma check_path p q e : named p e -> q = None \/ q = Some p ->
  (match q with
   | None => mret true
   | Some q => path_len ← lift_opt (strlen (path e)); mret ((path_len =? Z.of_nat (length q)) && bool_decide (q = slice 0 path_len (path e)))
   end : SM (pf_context H) bool) = fun s => Some (true, s).
Proof.
  intros [Hz [rest Ep]] [->| ->]; [done|]. rewrite Ep, strlen_named by done. unfold mbind, SM_bind, lift_opt.
  assert (slice 0 (Z.of_nat (length p)) (p ++ 0 :: rest) = p) as -> by (unfold slice; rewrite Nat2Z.id; by rewrite drop_0, take_app_length).
  by rewrite Z.eqb_refl, bool_decide_true.
Qed.

Lemma ipf_init_existing_spec kdk p f q s (Q : bool -> pf_context H -> Prop) :
  stored kdk p f (host s) -> user_kdk_key s = kdk -> q = None \/ q = Some p -> need_writing s = false ->
  cache s = lruc_create -> heap s = {[ROOT := ipf_init_root_mht]} -> next_ptr s = 1 ->
  (forall T D s', inv true true disk 0 T D s' -> cache s' = lruc_create -> f = contents (encrypted_part_plain s') D -> named p (encrypted_part_plain s') ->
     mode s' = mode s -> user_kdk_key s' = kdk -> Q true s') ->
  pwp (ipf_init_existing_file q) Q s.
Proof using OK.
  intros (T & D & e & m & Hoh & Hna & Ef) Hkdk Hq Hnw Hca Hhp Hnx HQ. pose proof (oh_key _ _ _ _ _ _ Hoh) as (key & Ek & Ec). unfold ipf_init_existing_file.
  apply pwp_bind. apply (pwp_read_node true disk); [done|intros _; rewrite (oh_meta _ _ _ _ _ _ Hoh); eauto| |done].
  intros b h _ _ Hh Hb. specialize (Hb eq_refl). rewrite (oh_meta _ _ _ _ _ _ Hoh) in Hb. apply (inj Some) in Hb. subst b.
  rewrite metadata_node_of_to_bytes by apply Hoh. apply pwp_bind, pwp_modify. cbn [negb].
  rewrite (oh_id _ _ _ _ _ _ Hoh), (oh_version _ _ _ _ _ _ Hoh), !Z.eqb_refl. cbn [negb]. apply pwp_bind. apply (restore_key_spec kdk key _ m); try done. cbn [negb].
  rewrite (strict_decrypt _ _ _ _ eq_refl Ec), metadata_encrypted_of_to_bytes by apply Hoh. apply pwp_bind, pwp_modify. cbn [PF_FAILURE]. simpl.
  apply pwp_bind. rewrite (check_path p q e Hna Hq). unfold PfInv.pwp at 1. cbn [negb].
  set (s1 := set_encrypted_part_plain _ _). destruct (Z.ltb_spec MD_USER_DATA_SIZE (file_size e)) as [Hlt|Hle].
  - apply (read_root_spec T e _ ipf_init_root_mht); [simpl; rewrite Hhp; apply lookup_singleton_eq|done| |].
    + eapply root_sealed_same; [exact Hh|]. apply Hoh. unfold in_tree, data_nodes. layout. Z.to_euclidean_division_equations; lia.
    + intros h' c Hh'. apply (HQ T D); try done. eapply (inv_opened (host s) kdk T D e m _ (set_decrypted (T 0) (set_encrypted c ipf_init_root_mht))); try done.
      * by eapply same_disk_trans.
      * simpl. rewrite Hhp. apply insert_singleton_eq.
  - apply pwp_ret. apply (HQ (fun _ => zeros PF_NODE_SIZE) D); try done.
    eapply (inv_opened (host s) kdk (fun _ => zeros PF_NODE_SIZE) D e m _ ipf_init_root_mht); try done. by eapply on_host_empty.
Qed.

Lemma open_body kdk p f q m size h (Q : unit -> pf_context H -> Prop) :
  stored kdk p f h -> q = None \/ q = Some p -> size mod PF_NODE_SIZE = 0 ->
  (forall s, rep p f s -> mode s = m -> user_kdk_key s = kdk -> last_error s = PF_STATUS_SUCCESS -> Q () s) ->
  pwp (ipf_open_body q m false true size (Some kdk)) Q (ipf_init_fields h).
Proof using OK.
  intros Hst Hq Hsize HQ. unfold ipf_open_body.
  assert (match q with Some x => PATH_MAX_SIZE - 1 <? Z.of_nat (length x) | None => false end = false) as ->.
  { destruct Hst as (T & D & e & n & Ho & Hna & _). pose proof (named_length _ _ Hna (me_path _ (oh_plain _ _ _ _ _ _ Ho))). destruct Hq as [->| ->]; [done|]. apply Z.ltb_ge. lia. }
  apply pwp_bind, pwp_modify. cbn [negb]. rewrite (proj2 (Z.eqb_eq _ _) Hsize). cbn [negb]. apply pwp_bind, pwp_modify, pwp_bind.
  apply (ipf_init_existing_spec kdk p f); try done. intros T D s' Hi Hca Ef Hna Em Ek. cbn [negb]. apply pwp_bind, pwp_modify, pwp_modify. apply HQ; try done.
  exists T, D. split_and!; try done; [by apply inv_error, inv_status|]. intros _. simpl. by rewrite Hca.
Qed.
End reopen.
