(* ===== verification/PfProps.v ===== *)
(** * Protected files: theorems

    A session opens a file, runs operations and closes it.  With an honest host the results are
    those of the abstract file of [PfSpec], in this session and in the next one.  With any
    other host, what is returned is right as far as it is returned, and nothing aborts before a
    result has shown a failure. *)

From S2P Require Import Prelude LruCache PfLayout PfFormat PfSort ProtFiles PfInv PfBad PfNodes PfFlush PfCommit PfContents PfMark PfFetch PfSpec PfFile PfApi PfOpen.

(** Only the last part matters. *)
Lemma pwp_bind_any {S A B} (m : SM S A) (f : A -> SM S B) (Q : B -> S -> Prop) s : (forall a s', pwp false (f a) Q s') -> pwp false (m ≫= f) Q s.
Proof. intros Hf. apply pwp_bind. unfold pwp at 1. by destruct (m s) as [[a s']|]. Qed.

Section sessions.
Context {H : Type} `{CB : !pf_callbacks H}.
Implicit Types (s : pf_context H) (p kdk : bytes).

Lemma pf_open_eq q size m create (key : option bytes) (h : H) s :
  g_initialized = true -> ipf_open_body q m create true size key (ipf_init_fields h) = Some ((), s) ->
  pf_open q size m create true key h = Some (last_error s, if PF_FAILURE (last_error s) then None else Some s, host s).
Proof. intros Hi Hb. unfold pf_open, ipf_open. by rewrite Hi, Hb. Qed.

Lemma pf_create_new (disk : H -> Z -> option bytes) `{OK : !callbacks_ok true disk} p m kdk size h :
  0 ∉ p -> Z.of_nat (length p) < PATH_MAX_SIZE -> size mod PF_NODE_SIZE = 0 ->
  exists s, pf_open (Some p) size m true true (Some kdk) h = Some (PF_STATUS_SUCCESS, Some s, host s) /\ sim_in true disk kdk true (Some (OpenFile p [] m)) s.
Proof.
  intros Hz Hlt Hsize.
  assert (Hw : wp (ipf_open_body (Some p) m true true size (Some kdk)) (fun _ s => sim_in true disk kdk true (Some (OpenFile p [] m)) s /\ last_error s = PF_STATUS_SUCCESS) (ipf_init_fields h)).
  { apply pwp_wp. apply (create_body true disk); try done. }
  unfold wp in Hw. destruct (ipf_open_body _ _ _ _ _ _ _) as [[[] s]|] eqn:E; [|done]. destruct Hw as [Hs He]. exists s.
  rewrite (pf_open_eq _ _ _ _ _ _ _ ok_initialized E), He. done.
Qed.

Lemma pf_open_stored (disk : H -> Z -> option bytes) `{OK : !callbacks_ok true disk} p f q m kdk size h :
  stored disk kdk p f h -> q = None \/ q = Some p -> size mod PF_NODE_SIZE = 0 ->
  exists s, pf_open q size m false true (Some kdk) h = Some (PF_STATUS_SUCCESS, Some s, host s) /\ sim_in true disk kdk true (Some (OpenFile p f m)) s.
Proof.
  intros Hst Hq Hsize.
  assert (Hw : wp (ipf_open_body q m false true size (Some kdk)) (fun _ s => sim_in true disk kdk true (Some (OpenFile p f m)) s /\ last_error s = PF_STATUS_SUCCESS) (ipf_init_fields h)).
  { apply pwp_wp. apply (open_body disk kdk p f); try done. }
  unfold wp in Hw. destruct (ipf_open_body _ _ _ _ _ _ _) as [[[] s]|] eqn:E; [|done]. destruct Hw as [Hs He]. exists s.
  rewrite (pf_open_eq _ _ _ _ _ _ _ ok_initialized E), He. done.
Qed.

Lemma run_all_specs (disk : H -> Z -> option bytes) `{OK : !callbacks_ok true disk} kdk ops : forall a s,
  sim_in true disk kdk true (Some a) s -> Forall (op_ok MAX_SIZE) ops ->
  exists s', run_all ops s = Some (fst (specs ops a), s') /\ sim_in true disk kdk true (Some (snd (specs ops a))) s'.
Proof.
  induction ops as [|o ops IH]; intros a s Hs Ho; [by exists s|]. apply Forall_cons in Ho as [Ho Hos].
  pose proof (run_ok true true disk kdk o (Some a) s Hs Ho) as Hr. unfold pwp in Hr. cbn [run_all specs]. unfold mbind, SM_bind. destruct (run o s) as [[r s1]|]; [|done].
  destruct Hr as (x & (a1 & E & ->)%outcome_strict & [Hs1|[Hne _]]); [|by destruct (Hne a eq_refl); rewrite E].
  destruct (IH a1 s1 Hs1 Hos) as (s2 & E2 & Hs2). exists s2. rewrite E. destruct (specs ops a1) as [rs a2]. simpl in *. by rewrite E2.
Qed.

Lemma pf_close_specs (disk : H -> Z -> option bytes) `{OK : !callbacks_ok true disk} kdk a s :
  sim_in true disk kdk true (Some a) s -> exists s', pf_close s = Some (PF_STATUS_SUCCESS, s') /\ stored disk kdk (of_path a) (of_bytes a) (host s').
Proof.
  intros (Hr & _ & Hk). assert (Hw : wp pf_close (fun st s' => st = PF_STATUS_SUCCESS /\ stored disk kdk (of_path a) (of_bytes a) (host s')) s).
  { apply pwp_wp. eapply (pf_close_stored disk); [done|]. rewrite Hk. done. }
  unfold wp in Hw. destruct (pf_close s) as [[st s']|]; [|done]. destruct Hw as [-> Hst]. eauto.
Qed.

(** C1: with a host that keeps what is written and working cryptography, a session on a new
    protected file and a later session on the same file return what the abstract file of
    bytes returns: nothing fails, no assertion is violated, and the contents and the path that
    the first session leaves are those of the second. *)
Theorem pf_sessions_correct (disk : H -> Z -> option bytes) `{OK : !callbacks_ok true disk} p m m' kdk size size' ops ops' h :
  0 ∉ p -> Z.of_nat (length p) < PATH_MAX_SIZE -> size mod PF_NODE_SIZE = 0 -> size' mod PF_NODE_SIZE = 0 ->
  Forall (op_ok MAX_SIZE) ops -> Forall (op_ok MAX_SIZE) ops' ->
  let '(rs, a) := specs ops (OpenFile p [] m) in
  exists s s1 s2 s3 s4,
    pf_open (Some p) size m true true (Some kdk) h = Some (PF_STATUS_SUCCESS, Some s, host s) /\
    run_all ops s = Some (rs, s1) /\
    pf_close s1 = Some (PF_STATUS_SUCCESS, s2) /\
    pf_open (Some (of_path a)) size' m' false true (Some kdk) (host s2) = Some (PF_STATUS_SUCCESS, Some s3, host s3) /\
    run_all ops' s3 = Some (fst (specs ops' (OpenFile (of_path a) (of_bytes a) m')), s4).
Proof.
  intros Hz Hlt Hsize Hsize' Ho Ho'. destruct (specs ops (OpenFile p [] m)) as [rs a] eqn:E. destruct (pf_create_new disk p m kdk size h Hz Hlt Hsize) as (s & Es & Hs).
  destruct (run_all_specs disk kdk ops _ s Hs Ho) as (s1 & E1 & Hs1). rewrite E in E1, Hs1. destruct (pf_close_specs disk kdk a s1 Hs1) as (s2 & E2 & Hst).
  destruct (pf_open_stored disk (of_path a) (of_bytes a) (Some (of_path a)) m' kdk size' _ Hst ltac:(by right) Hsize') as (s3 & E3 & Hs3).
  destruct (run_all_specs disk kdk ops' _ s3 Hs3 Ho') as (s4 & E4 & _). by exists s, s1, s2, s3, s4.
Qed.

(** C2: if the host may return anything and fail at any time, opening a new protected file
    returns, and every sequence of operations on it has an explanation by the abstract file, as
    far as the operations return: a result is that of the abstract file, or it shows a failure;
    bytes that are returned are those of the file even then; a write that fails has written a
    part from its beginning; and on a file that has become unusable all reads and writes fail.
    As long as the results are those of the abstract file, no operation aborts. *)
Theorem pf_integrity (disk : H -> Z -> option bytes) `{OK : !callbacks_ok false disk} p m kdk size ops h :
  0 ∉ p -> Z.of_nat (length p) < PATH_MAX_SIZE -> size mod PF_NODE_SIZE = 0 -> Forall (op_ok MAX_SIZE) ops ->
  match pf_open (Some p) size m true true (Some kdk) h with
  | None => False
  | Some (status, None, _) => PF_FAILURE status = true
  | Some (status, Some s, _) =>
      let rs := results ops s in
      let ran := take (length rs) ops in
      status = PF_STATUS_SUCCESS /\
      (exists x, outcomes false ran (Some (OpenFile p [] m)) rs x) /\
      ((length rs < length ops)%nat -> rs <> fst (specs ran (OpenFile p [] m)))
  end.
Proof.
  intros Hz Hlt Hsize Ho.
  assert (Hw : pwp true (ipf_open_body (Some p) m true true size (Some kdk))
    (fun _ s => sim_in false disk kdk true (Some (OpenFile p [] m)) s /\ last_error s = PF_STATUS_SUCCESS \/ erred s) (ipf_init_fields h)).
  { apply (create_body false disk); try done; [by left|by right]. }
  unfold pwp, pf_open, ipf_open in *. rewrite ok_initialized. cbn [negb]. destruct (ipf_open_body _ _ _ _ _ _ _) as [[[] s]|]; [|done].
  destruct Hw as [[Hs He]|He]; [|unfold erred in He; by rewrite He]. rewrite He. simpl.
  destruct (results_ok false disk kdk ops true _ s Hs Ho) as [Hx Hlen]. split_and!; [done..|]. by apply Hlen.
Qed.

(** C23: [pf_close] returns success whatever happens, since the error is read from the context
    after the context has been erased. *)
Theorem pf_close_hides_errors s st s' : g_initialized = true -> pf_close s = Some (st, s') -> st = PF_STATUS_SUCCESS.
Proof.
  intros Hi. unfold pf_close. rewrite Hi. cbn [negb]. unfold mbind, SM_bind. destruct (ipf_close s) as [[ok s1]|] eqn:E; [|done].
  assert (Hc : pwp false ipf_close (fun _ s1 => last_error s1 = PF_STATUS_SUCCESS) s).
  { unfold ipf_close. do 7 (apply pwp_bind_any; intros ? ?). done. }
  unfold pwp in Hc. rewrite E in Hc. by destruct ok; intros [= <- _].
Qed.
End sessions.
