(* ===== verification/PfExamples.v ===== *)
(** * Protected files: concrete hosts

    An honest host and one that does not authenticate anything wrong show that the assumptions
    of the theorems can hold.  A host whose reads and writes fail as a script says shows two
    errors of [protected_files.c] after failures. *)

From S2P Require Import Prelude LruCache PfLayout PfFormat PfSort ProtFiles PfInv PfContents PfSpec PfProps.

(** A block of the given size, whatever there is. *)
Definition fit (n : Z) (b : bytes) : bytes := take (Z.to_nat n) (b ++ zeros n).

Lemma fit_sized n b : sized n (fit n b).
Proof. unfold sized, fit. rewrite length_take, length_app, zeros_sized. lia. Qed.

Lemma fit_id n b : sized n b -> fit n b = b.
Proof. intros Hs. unfold fit. rewrite <- Hs. apply take_app_length. Qed.

(** ** An honest host *)

Abbreviation blocks := (gmap Z bytes).

#[global] Instance honest : pf_callbacks blocks := {|
  g_initialized := true;
  g_cb_read h off n := (PF_STATUS_SUCCESS, fit n (default [] (h !! (off / PF_NODE_SIZE))), h);
  g_cb_write h b off := (PF_STATUS_SUCCESS, <[off / PF_NODE_SIZE := b]> h);
  g_cb_fsync h := (PF_STATUS_SUCCESS, h);
  g_cb_truncate h n := (PF_STATUS_SUCCESS, ∅);
  g_cb_random h n := (PF_STATUS_SUCCESS, zeros n, h);
  g_cb_aes_cmac k b := (PF_STATUS_SUCCESS, zeros PF_KEY_SIZE);
  g_cb_aes_gcm_encrypt k p := (PF_STATUS_SUCCESS, p, zeros PF_MAC_SIZE);
  g_cb_aes_gcm_decrypt k c m := (PF_STATUS_SUCCESS, c);
|}.

Definition honest_disk (h : blocks) (n : Z) : option bytes :=
  b ← h !! n; if bool_decide (length b = Z.to_nat PF_NODE_SIZE) then Some b else None.

#[global] Instance honest_ok : callbacks_ok true honest_disk.
Proof.
  split; simpl; try done.
  - intros. simplify_eq. apply fit_sized.
  - intros. simplify_eq. apply zeros_sized.
  - intros. simplify_eq. apply zeros_sized.
  - intros. simplify_eq. split; [done|apply zeros_sized].
  - intros. by simplify_eq.
  - intros h n b _ Hd Hn. exists h. split; [|done]. rewrite Z.div_mul by done. unfold honest_disk in Hd.
    destruct (h !! n) as [b'|]; simpl in Hd; [|done]. case_bool_decide as Hs; [|done]. simplify_eq. simpl. by rewrite fit_id.
  - intros h n b _ Hs Hn. exists (<[n := b]> h). split; [by rewrite Z.div_mul|]. intros n'. unfold honest_disk. destruct (Z.eqb_spec n' n) as [->|Hne].
    + rewrite lookup_insert_eq. simpl. by rewrite bool_decide_true.
    + by rewrite lookup_insert_ne.
  - intros. eexists. done.
  - intros. eexists. done.
  - intros. eexists _, _. done.
  - intros. eexists. done.
  - intros. eexists _, _. done.
  - intros. by simplify_eq.
Qed.

Definition a_path : bytes := [47; 97].
Definition a_key : bytes := zeros PF_KEY_SIZE.
Definition READ_WRITE : Z := 3.

Definition some_ops : list op :=
  [OpWrite 3070 5 (Some [1; 2; 3; 4; 5]); OpRename [47; 98]; OpRead 3069 4 true; OpSetSize 9000; OpFlush].

Lemma pf_sessions_correct_witness :
  let '(rs, a) := specs some_ops (OpenFile a_path [] READ_WRITE) in
  exists s s1 s2 s3 s4,
    pf_open (Some a_path) 0 READ_WRITE true true (Some a_key) (∅ : blocks) = Some (PF_STATUS_SUCCESS, Some s, host s) /\
    run_all some_ops s = Some (rs, s1) /\
    pf_close s1 = Some (PF_STATUS_SUCCESS, s2) /\
    pf_open (Some (of_path a)) 8192 1 false true (Some a_key) (host s2) = Some (PF_STATUS_SUCCESS, Some s3, host s3) /\
    run_all [OpGetSize; OpRead 3070 6 true] s3 = Some (fst (specs [OpGetSize; OpRead 3070 6 true] (OpenFile (of_path a) (of_bytes a) 1)), s4).
Proof.
  apply (pf_sessions_correct honest_disk a_path READ_WRITE 1 a_key 0 8192 some_ops [OpGetSize; OpRead 3070 6 true] ∅).
  - by apply (bool_decide_unpack (0 ∉ a_path)).
  - done.
  - done.
  - done.
  - by apply ops_ok.
  - by apply ops_ok.
Defined.

(** ** A host that may do anything

    The cryptography accepts nothing but what has been encrypted: the MAC is a code of the
    whole text.  The host loses every block but the metadata. *)

Definition code (p : bytes) : bytes := Z.pos (encode p) :: zeros (PF_MAC_SIZE - 1).

Lemma code_inj p q : code p = code q -> p = q.
Proof. intros [= E]. by apply (inj encode) in E. Qed.

Record losing : Type := Losing { kept_block : bytes }.

#[global] Instance lossy : pf_callbacks losing := {|
  g_initialized := true;
  g_cb_read h off n := (PF_STATUS_SUCCESS, fit n (if off =? 0 then kept_block h else []), h);
  g_cb_write h b off := (PF_STATUS_SUCCESS, if off =? 0 then Losing b else h);
  g_cb_fsync h := (PF_STATUS_SUCCESS, h);
  g_cb_truncate h n := (PF_STATUS_SUCCESS, h);
  g_cb_random h n := (PF_STATUS_SUCCESS, zeros n, h);
  g_cb_aes_cmac k b := (PF_STATUS_SUCCESS, zeros PF_KEY_SIZE);
  g_cb_aes_gcm_encrypt k p := (PF_STATUS_SUCCESS, p, code p);
  g_cb_aes_gcm_decrypt k c m := (if bool_decide (m = code c) then PF_STATUS_SUCCESS else PF_STATUS_MAC_MISMATCH, c);
|}.

Definition no_disk (h : losing) (n : Z) : option bytes := None.

#[global] Instance lossy_ok : callbacks_ok false no_disk.
Proof.
  split; simpl; try done.
  - intros. simplify_eq. apply fit_sized.
  - intros. simplify_eq. apply zeros_sized.
  - intros. simplify_eq. apply zeros_sized.
  - intros. simplify_eq. done.
  - intros. by simplify_eq.
  - intros k p c m h off n c' h' p' _ [= <- <-] _ E. case_bool_decide as Hc; [|done]. injection E as <-. by apply code_inj.
Qed.

Definition session {H} `{CB : !pf_callbacks H} (ops : list op) (h : H) : option (list result) :=
  match pf_open (Some a_path) 0 READ_WRITE true true (Some a_key) h with
  | Some (_, Some s, _) => Some (results ops s)
  | _ => None
  end.

(** The node at 3072 is evicted from the cache before it is read again. *)
Definition lossy_ops : list op :=
  [OpWrite 3070 5 (Some [1; 2; 3; 4; 5]); OpSetSize (3072 + 4096 * 50); OpRead 3070 2 true; OpRead 3070 4 true; OpRead 3070 2 true].

Definition lossy_results : list result :=
  [Status PF_STATUS_SUCCESS; Status PF_STATUS_SUCCESS; Bytes PF_STATUS_SUCCESS (Some 2) [1; 2]; Bytes PF_STATUS_SUCCESS (Some 2) [1; 2];
   Bytes PF_STATUS_CORRUPTED None []].

Lemma pf_integrity_witness :
  session lossy_ops (Losing []) = Some lossy_results /\
  match pf_open (Some a_path) 0 READ_WRITE true true (Some a_key) (Losing []) with
  | None => False
  | Some (status, None, _) => PF_FAILURE status = true
  | Some (status, Some s, _) =>
      let rs := results lossy_ops s in
      let ran := take (length rs) lossy_ops in
      status = PF_STATUS_SUCCESS /\
      (exists x, outcomes false ran (Some (OpenFile a_path [] READ_WRITE)) rs x) /\
      ((length rs < length lossy_ops)%nat -> rs <> fst (specs ran (OpenFile a_path [] READ_WRITE)))
  end.
Proof.
  split; [vm_compute; reflexivity|]. apply (pf_integrity no_disk a_path READ_WRITE a_key 0 lossy_ops (Losing [])); try done.
  - by apply (bool_decide_unpack (0 ∉ a_path)).
  - by apply ops_ok.
Defined.

Lemma pf_close_hides_errors_witness :
  match pf_close (ipf_init_fields (Losing [])) with Some (st, _) => st = PF_STATUS_SUCCESS | None => False end.
Proof.
  destruct (pf_close (ipf_init_fields (Losing []))) as [[st s']|] eqn:E; [|vm_compute in E; discriminate E].
  by apply (pf_close_hides_errors (ipf_init_fields (Losing [])) st s').
Defined.

(** ** A host that fails as a script says *)

(** What the next reads and writes do: [true] is a failure.  Without a script they succeed.
    Blocks that have never been written are zeros. *)
Record scripted : Type := Scripted {
  sc_blocks : blocks;
  sc_reads : list bool;
  sc_writes : list bool;
  sc_random : Z;
}.

(** A cipher that shifts the bytes by the key, and a keyed checksum of the plaintext; under the
    key zero, zeros are encrypted to zeros with the MAC zero. *)
Definition sum (b : bytes) : Z := foldr Z.add 0 b.
Definition shift (n : Z) (b : bytes) : bytes := Z.add n <$> b.
Definition checksum (k p : bytes) : bytes := (sum p + 1000000 * sum k) :: zeros (PF_MAC_SIZE - 1).

#[global] Instance script : pf_callbacks scripted := {|
  g_initialized := true;
  g_cb_read h off n :=
    let h' := Scripted (sc_blocks h) (tail (sc_reads h)) (sc_writes h) (sc_random h) in
    if default false (head (sc_reads h)) then (PF_STATUS_CALLBACK_FAILED, zeros n, h')
    else (PF_STATUS_SUCCESS, fit n (default [] (sc_blocks h !! (off / PF_NODE_SIZE))), h');
  g_cb_write h b off :=
    let fails := default false (head (sc_writes h)) in
    (if fails then PF_STATUS_CALLBACK_FAILED else PF_STATUS_SUCCESS,
     Scripted (if fails then sc_blocks h else <[off / PF_NODE_SIZE := b]> (sc_blocks h)) (sc_reads h) (tail (sc_writes h)) (sc_random h));
  g_cb_fsync h := (PF_STATUS_SUCCESS, h);
  g_cb_truncate h n := (PF_STATUS_SUCCESS, h);
  g_cb_random h n :=
    (PF_STATUS_SUCCESS, fit n [sc_random h], Scripted (sc_blocks h) (sc_reads h) (sc_writes h) (sc_random h + 1));
  g_cb_aes_cmac k b := (PF_STATUS_SUCCESS, zeros PF_KEY_SIZE);
  g_cb_aes_gcm_encrypt k p := (PF_STATUS_SUCCESS, shift (sum k) p, checksum k p);
  g_cb_aes_gcm_decrypt k c m :=
    let p := shift (- sum k) c in (if bool_decide (m = checksum k p) then PF_STATUS_SUCCESS else PF_STATUS_CALLBACK_FAILED, p);
|}.

(** The blocks of a file of zeros: all keys are zero, and so are the MACs. *)
Definition zero_file (size : Z) : blocks :=
  let e := set_size size (set_path (splice 0 a_path (zeros PATH_MAX_SIZE)) metadata_encrypted_zero) in
  let b := metadata_encrypted_bytes e in
  {[0 := metadata_node_bytes (set_encrypted_part b (checksum (zeros PF_KEY_SIZE) b) (set_header metadata_node_zero))]}.

Definition open_script (size : Z) (reads writes : list bool) : option (pf_context scripted) :=
  match pf_open (Some a_path) PF_NODE_SIZE READ_WRITE false true (Some a_key) (Scripted (zero_file size) reads writes 1) with
  | Some (_, s, _) => s
  | None => None
  end.

(** A cached node whose parent has been freed. *)
Definition dangling_parent (s : pf_context scripted) : bool :=
  existsb (fun ptr => match heap s !! ptr with Some n => bool_decide (heap s !! parent n = None) | None => false end) (snd <$> items (cache s)).

(** The first data node below the MHT node 33. *)
Definition deep : Z := MD_USER_DATA_SIZE + PF_NODE_SIZE * ATTACHED_DATA_NODES_COUNT * 33.

(** A read of [deep] whose fourth block, the data node, cannot be read; then reads of 47 data
    nodes of the root. *)
Definition uaf_ops : list op := OpRead deep 1 true :: ((fun i => OpRead (MD_USER_DATA_SIZE + PF_NODE_SIZE * i) 1 true) <$> seqZ 0 47).

Definition after_ops (ops : list op) (s : option (pf_context scripted)) : option (pf_context scripted) := s ← s; snd <$> run_all ops s.

Definition uaf_start : option (pf_context scripted) := open_script (deep + PF_NODE_SIZE) [false; false; false; false; true] [].

(** A read that fails leaves the MHT nodes it has loaded in the cache in an order in which a
    parent is evicted before its child.  After the eviction the child points to freed memory, and
    the next access below the child uses it. *)
Theorem failed_read_leaves_dangling_parent :
  dangling_parent <$> after_ops uaf_ops uaf_start = Some true /\ after_ops (uaf_ops ++ [OpRead deep 1 true]) uaf_start = None.
Proof. split; vm_compute; reflexivity. Qed.

(** The first data node below the MHT node 1. *)
Definition below : Z := MD_USER_DATA_SIZE + PF_NODE_SIZE * ATTACHED_DATA_NODES_COUNT.

(** A write, two flushes, and the file closed, opened again and read: the results, the status of
    [pf_close], and the result of the read. *)
Definition retry (writes : list bool) : option (list result * Z * list result) :=
  s ← open_script (below + PF_NODE_SIZE) [] writes;
  '(rs, s1) ← run_all [OpWrite below 1 (Some [7]); OpFlush; OpFlush] s;
  '(status, s2) ← pf_close s1;
  match pf_open (Some a_path) PF_NODE_SIZE READ_WRITE false true (Some a_key) (host s2) with
  | Some (_, Some s3, _) => '(rs', _) ← run_all [OpRead below 1 true] s3; Some (rs, status, rs')
  | _ => None
  end.

(** A flush that is repeated after a failed write reports success and leaves a file that
    cannot be read: an MHT node that has been written is not encrypted again with the new key of
    its child.  Without the failure the file is as written. *)
Theorem flush_retry_loses_data :
  retry [false; true] =
    Some ([Status PF_STATUS_SUCCESS; Status PF_STATUS_CALLBACK_FAILED; Status PF_STATUS_SUCCESS], PF_STATUS_SUCCESS,
          [Bytes PF_STATUS_CALLBACK_FAILED None []]) /\
  retry [] =
    Some ([Status PF_STATUS_SUCCESS; Status PF_STATUS_SUCCESS; Status PF_STATUS_SUCCESS], PF_STATUS_SUCCESS,
          [Bytes PF_STATUS_SUCCESS (Some 1) [7]]).
Proof. split; vm_compute; reflexivity. Qed.
